(* ===== verification/_CoqProject ===== *)
-Q . S2P
Prelude.v
Errors.v
Offsets.v
RustStd.v
Headers.v
StorageCore.v
Cursor.v
JsonMode.v
Sse.v
Http.v
WriteHandlers.v
ReadHandlers.v
LogSpec.v
StorageTrace.v
ProducerTrace.v
Calls.v
Wakeups.v
SseStream.v
MemoryStorage.v
MemoryRefinement.v
MemoryProps.v
MemoryWakeups.v
MemoryConcurrent.v
MemoryInterleaving.v
MemoryAlone.v
MemoryConcurrentProps.v
HandlerProps.v
HandlerRuns.v
FileRecords.v
FileStorage.v
FileDemo.v
FileSections.v
FileRefinement.v
FileLawful.v
FileRecovery.v
FileDurability.v
FileCrash.v
FileProps.v
FileReaders.v
FileFaults.v
FileOvertaken.v
FileTorn.v
FilePowerLoss.v
FileWakeups.v
Config.v
ConfigProps.v
AcidStorage.v
AcidTables.v
AcidTxn.v
AcidAppends.v
AcidCreates.v
AcidView.v
AcidRefinement.v
AcidLawful.v
AcidWakeups.v
WakeupProps.v
ProducerRetries.v
AcidRecovery.v
AcidStart.v
AcidProps.v
AcidRuns.v
AcidConcurrent.v
AcidInterleaving.v
AcidAlone.v
AcidConcurrentProps.v
Server.v
ServerProps.v
SharedServer.v
Lifecycle.v
