(* ===== verification/Prelude.v ===== *)
(** * Verification of the durable streams server

    The program under [src/src/] is an HTTP server for durable, append-only
    streams. A stream is a log of messages addressed by offsets; clients create it
    (PUT), append to it (POST, optionally as an idempotent producer), read it (GET:
    catch-up, long poll or server-sent events), inspect it (HEAD) and delete it.
    The handlers ([handlers/]) parse requests with the functions of [protocol/],
    call a backend through the trait [Storage] ([storage/mod.rs]) and build the
    response; [storage/memory.rs], [file.rs] and [acid.rs] are the backends;
    [middleware/security.rs] decorates every response. [main.rs] reads the command
    line, loads the configuration ([config.rs]), picks a backend and serves the
    routes of [router.rs].

    ** Files, in dependency order

    - [Prelude]: results, the state-and-error monad of method bodies, wrapping
      64-bit arithmetic (the release profile has no overflow checks, so [add64] and
      [shl64] wrap), bytes, generic lemmas.
    - [Errors]: [protocol/error.rs], the error type and its status codes.
    - [Offsets]: [protocol/offset.rs], the 33-character offset text, its parser,
      order, equality and hash. Theorems: parser and printer are inverse, the
      numeric order is the text order, equality, order and hash agree.
    - [RustStd]: what the source uses of the Rust standard library ([trim],
      [to_lowercase] on ASCII, integer parsing and printing, [binary_search_by]).
    - [Headers]: [protocol/headers.rs] and [protocol/producer.rs], header names,
      TTL, boolean and content-type parsing, the producer header triple.
    - [StorageCore]: [storage/mod.rs], the data of the trait, expiry, content-type
      and [Stream-Seq] validation, the decision on a producer request, and the
      trait itself as the type class [Storage.StorageOps]. Theorems: the decision
      table.
    - [Cursor]: [protocol/cursor.rs], the packed cursor and the compare-exchange
      loop as a step relation over any number of threads.
    - [JsonMode]: [protocol/json_mode.rs] over a parameter for [serde_json].
    - [Sse]: [protocol/sse.rs], every frame byte for byte, with a definition of what
      an event-stream client parses, against which the frames are proved.
    - [Http]: responses, the monad of handler bodies (errors by [?], panics of
      [unwrap]), [middleware/security.rs] and [handlers/health.rs].
    - [WriteHandlers]: [handlers/put.rs], [post.rs], [delete.rs].
    - [ReadHandlers]: [handlers/head.rs], [get.rs].
    - [LogSpec]: the abstract specification of a backend: a finite map from names to
      logs with reference operations, and the contract [LawfulStorage] between
      backends and their clients. A backend may deviate from the reference only by
      dropping an expired stream or stale producers, or by refusing with a resource
      error.
    - [StorageTrace]: what holds of every history of calls on a lawful backend: a
      log only grows at its tail and is frozen once closed; a resuming reader misses
      and repeats nothing; producer requests are all or nothing.
    - [ProducerTrace]: one producer along such a history, as long as its stream stays in
      place and no call to it comes when the producer has been silent for seven days: what
      is accepted from it is a chain without gaps or repetition, and a retry of anything
      accepted changes nothing. [ProducerRetries]: retries on the three backends, and
      concrete runs.
    - [SseStream]: the SSE loop of [handlers/get.rs], interleaved with other calls:
      exactly-once, in-order delivery up to the parsed events.
    - [MemoryStorage]: [storage/memory.rs], each method as the critical section it
      runs under its lock; [MemoryRefinement]: its invariant and the instance of
      [LawfulStorage]; [MemoryProps]: exact accounting, admission against the
      limits, notifications, and a concrete run.
    - [Wakeups]: [RingingStorage], what a backend promises to a waiter about its
      notifications for the calls it names, and that subscribing before reading then loses
      no wake-up by these. [MemoryWakeups], [FileWakeups], [AcidWakeups]: the in-memory
      backend keeps the promise for all calls but [append] and producer requests without
      messages, the file backend for all but the latter, the ACID backend for all;
      [WakeupProps]: the theorem on the three.
    - [Calls]: what concurrent callers see of a backend: calls, their effects, their
      returns, and when an effect is explained by the abstract log. [MemoryConcurrent]:
      concurrent calls on the in-memory backend, as a step relation on a heap of entries,
      the map of their handles, the byte counter, and callers that hold handles and locks.
      [MemoryInterleaving]: every step keeps the invariant, and its label says what
      happened to the logs. [MemoryAlone]: an uninterrupted call is its method.
      [MemoryConcurrentProps]: linearizability up to calls that a delete or a create
      overtakes, the byte limit, and what an overtaken append costs.
    - [HandlerProps]: the theorems on PUT, POST, DELETE, HEAD and conditional GET, against
      the contract; [HandlerRuns]: concrete requests on the in-memory server.
    - [FileRecords]: the record format of [storage/file.rs], the start-up scan
      ([rebuild_index]) and ranged reads ([read_messages]). Theorems: the scan ends for
      any bytes and any failing call, and recovers exactly the complete records.
    - [FileStorage]: the rest of [storage/file.rs], over a model of the disk: stream
      directories, metadata, appending, loading, and every method of the trait.
      [FileDemo]: an instance of its parameter [FileLib] for concrete runs.
    - [FileSections], [FileRefinement], [FileLawful]: the invariant that ties the index
      to the bytes of the log, the refinement of the abstract log by each method, and
      the instance of [LawfulStorage] for runs under a schedule of failing calls, so
      that the theorems of [StorageTrace], [SseStream] and [HandlerProps] hold of the
      file backend too. [FileProps]: the refinement theorem, and the containment of
      stream directories in the storage root.
    - [FileRecovery], [FileDurability], [FileCrash]: a restart after any history finds
      every stream again; an append cut short at any system call loses nothing that
      was acknowledged. [FileReaders]: readers of one log whose system calls
      interleave on the shared file position. [FileFaults]: concrete runs with failing
      calls and what they leave on the disk. [FileOvertaken]: a close that a delete and a
      create of its stream overtake. [FileTorn]: what a torn log write costs later, after any
      history. [FilePowerLoss]: what is left when the bytes a log gained since its last sync
      may be lost; the disk remembers how much of each log a sync has made durable.
    - [Config]: [config.rs]; [ConfigProps]: later layers win, accepted values are in
      range, exactly the valid inputs are accepted.
    - [AcidStorage]: [storage/acid.rs]: shards of two [redb] tables, the transactions of
      every method, byte reservations, the layout file and start-up. [AcidTables]: the
      laws its parameter [AcidLib] is assumed to satisfy, an instance, and the contents
      of the message table of a stream. [AcidTxn], [AcidAppends], [AcidCreates]: what
      each transaction does, by a small program logic of its two outcomes.
      [AcidView], [AcidRefinement], [AcidLawful]: the invariant (every stream in the shard
      of its hash, exact counters), the refinement of the abstract log by each method
      whatever calls fail, and the instance of [LawfulStorage]. [AcidRecovery],
      [AcidStart]: what a start finds. [AcidProps]: the theorems; [AcidRuns]: concrete
      runs.
    - [AcidConcurrent]: concurrent calls on the ACID backend, as a step relation whose
      steps are the atomic operations of the methods. [AcidInterleaving]: every step keeps
      the invariant, and its label says what happened to the logs. [AcidAlone]: an
      uninterrupted call is its method; progress. [AcidConcurrentProps]: linearizability,
      the byte limit under any interleaving, no deadlock.
    - [Server]: [router.rs] and [main.rs] up to serving; [ServerProps]: any sequence of
      requests is a history of storage calls, and the server starts only with a valid
      configuration and the storage it names. [SharedServer]: the same handlers on a
      storage that other requests use between their calls. [Lifecycle]: the rest of
      [main.rs]: constructing the storage, listening, shutdown signals, exit status.

    ** Conventions

    State is passed explicitly. A method body is [ST S Error A]: the mutations made
    before an early return are kept. A handler body is [HM S A], which can also
    panic. Integers are [Z] with their width written out; byte strings are lists of
    bytes. [Utc::now()] is a parameter: a [Clock] gives the reading of each call site
    of one operation, so no theorem assumes that time stands still inside a call.
    Headers of a request are the function [HeaderMap] of lookups that are visible
    ASCII. A broadcast channel is the number of notifications sent; a receiver is
    that number when it subscribed.

    Code outside [src/] is a parameter with named hypotheses: [serde_json]
    ([SerdeJson], [SerdeJsonLaws]), [http] and [chrono] ([HttpLib], [HttpLibLaws]),
    [base64] and the JSON string printer (section variables of [Sse]), [base64] and
    [serde_json] as the file backend uses them ([FileLib], [FileLibLaws]), [figment]
    ([ConfigLib], [ConfigLaws]), [redb], [seahash] and [serde_json] as the ACID backend
    uses them ([AcidLib], [AcidLibLaws]: tables are maps listed in key order, and a write
    transaction that is dropped or fails to commit leaves its database as it was), and
    [axum_server] and [rustls] ([ServeLib], without laws). Each class has an instance that
    satisfies its laws, used by the witnesses.

    System calls of the file backend can fail: an [Io] says which call sites fail in
    one operation and what a failing call leaves behind (bytes of a torn write, files
    of a directory). A crash during an append is a run in which the calls fail from
    some point on, followed by a restart on the disk it leaves. In the ACID backend an
    [AcidIo] says which calls into [redb] or the file system fail.

    Loops are structural or carry fuel that is enough: [split_loop] and [lossy] get
    the length of the text and consume at least one byte per round; the binary search
    of [RustStd] gets the length of the list; [rebuild_loop] gets the length of the log
    and consumes at least the four header bytes per round, and [rebuild_index] is proved
    to return for every log. The theorems on them are equalities for every input.
    Theorems on appends assume that a batch fits the address space ([fits]: at most
    [isize::MAX] bytes, and fewer than 2^64 messages in the stream); those on creating a
    stream with data, that a batch with messages has some bytes ([sized]: the handlers
    send no other, and the ACID backend drops messages without bytes there).

    ** Not modelled

    Matching paths to routes, CORS preflight answers and the log lines are configuration of
    third-party crates; sockets, TLS and the delivery of signals are parameters of
    [Lifecycle]. Calls on the file backend are atomic here, except in [FileReaders] and
    [FileOvertaken]; the steps of calls on the in-memory and the ACID backend do interleave.
    In [SharedServer] other calls take place around every call of a handler that changes
    state, but not between two reads of a GET. Over a power failure ([FilePowerLoss])
    directories and whole metadata files are taken to survive, the latter in some earlier
    version. Timers only enable branches. *)

From Stdlib Require Export ZArith Lia.
From Stdlib Require Export Strings.Byte.
From stdpp Require Export prelude gmap strings fin_maps.

Declare Scope rust_scope.
Delimit Scope rust_scope with rust.
Open Scope Z_scope.
Open Scope rust_scope.

(** ** Results and the state-and-error monad *)

(** Rust's [std::result::Result<T, E>]. *)
Inductive Result (E A : Type) : Type :=
  | Ok (a : A)
  | Err (e : E).
Arguments Ok {E A} a.
Arguments Err {E A} e.

Definition is_ok {E A} (r : Result E A) : bool :=
  match r with Ok _ => true | Err _ => false end.

(** Rust's [r.map_err(..)?] and [r?] chain results. *)
Definition result_bind {E A B} (r : Result E A) (k : A -> Result E B) : Result E B :=
  match r with Ok a => k a | Err e => Err e end.

Definition ok_or {E A} (o : option A) (e : E) : Result E A :=
  match o with Some a => Ok a | None => Err e end.

(** A method body run while it owns the mutable state [S]: the state it leaves
    behind is kept on an early return with [Err], exactly as the mutations a
    Rust method has made before a [?] are kept. *)
Definition ST (S E A : Type) : Type := S -> S * Result E A.

Definition st_ret {S E A} (a : A) : ST S E A := fun s => (s, Ok a).
Definition st_fail {S E A} (e : E) : ST S E A := fun s => (s, Err e).
Definition st_bind {S E A B} (c : ST S E A) (k : A -> ST S E B) : ST S E B :=
  fun s => let '(s', r) := c s in
           match r with Ok a => k a s' | Err e => (s', Err e) end.
Definition st_get {S E} : ST S E S := fun s => (s, Ok s).
Definition st_put {S E} (s' : S) : ST S E unit := fun _ => (s', Ok tt).
Definition st_lift {S E A} (r : Result E A) : ST S E A := fun s => (s, r).
(** [if b { return Err(e); }] *)
Definition throw_if {S E} (b : bool) (e : E) : ST S E unit :=
  fun s => (s, if b then Err e else Ok tt).

Notation "'let*' x ':=' c 'in' k" := (st_bind c (fun x => k))
  (at level 10, x pattern, c at level 100, k at level 200) : rust_scope.
Notation "'let?' x ':=' c 'in' k" := (result_bind c (fun x => k))
  (at level 10, x pattern, c at level 100, k at level 200) : rust_scope.

(** ** 64-bit unsigned integers *)

Definition U64_MAX : Z := 18446744073709551615.
Definition two64 : Z := 18446744073709551616.
(** [isize::MAX]: no allocation and, as [i64::MAX], no file is larger. *)
Definition ISIZE_MAX : Z := 9223372036854775807.

(** [0 <= z <= u64::MAX] *)
Definition u64 (z : Z) : Prop := 0 <= z < two64.

(** [a + b] of two [u64] values in a release build: it wraps. *)
Definition add64 (a b : Z) : Z := (a + b) mod two64.
(** [a << k] of a [u64] value: the high bits are lost. *)
Definition shl64 (a k : Z) : Z := Z.shiftl a k mod two64.
(** [a.checked_add(b)] *)
Definition checked_add64 (a b : Z) : option Z :=
  if a + b <? two64 then Some (a + b) else None.
(** [a.saturating_sub(b)] *)
Definition saturating_sub64 (a b : Z) : Z := Z.max 0 (a - b).
(** [a.saturating_add(b)] *)
Definition saturating_add64 (a b : Z) : Z := Z.min U64_MAX (a + b).

(** ** Bytes and strings *)

Abbreviation bytes := (list Byte.byte).

(** [str::as_bytes] and [str::from_utf8_unchecked]. *)
Definition as_bytes (s : string) : bytes := String.list_byte_of_string s.
Definition of_bytes (b : bytes) : string := String.string_of_list_byte b.

Definition byte_val (b : Byte.byte) : Z := Z.of_N (Byte.to_N b).

(** [u64::try_from(data.len()).unwrap_or(u64::MAX)] *)
Definition len_u64 {A} (data : list A) : Z :=
  if Z.of_nat (length data) <? two64 then Z.of_nat (length data) else U64_MAX.

#[global] Instance byte_eq_dec : EqDecision Byte.byte.
Proof. exact Byte.byte_eq_dec. Defined.

(** ** Generic lemmas *)

Lemma add64_small a b : 0 <= a + b < two64 -> add64 a b = a + b.
Proof. intros H. unfold add64. apply Z.mod_small. exact H. Qed.

Lemma saturating_sub64_add a b : 0 <= a -> saturating_sub64 (a + b) b = a.
Proof. unfold saturating_sub64. lia. Qed.

Lemma len_u64_small {A} (l : list A) :
  Z.of_nat (length l) < two64 -> len_u64 l = Z.of_nat (length l).
Proof. intros H. unfold len_u64. by rewrite (proj2 (Z.ltb_lt _ _) H). Qed.

Lemma as_of_bytes b : as_bytes (of_bytes b) = b.
Proof. apply String.list_byte_of_string_of_list_byte. Qed.

Lemma of_as_bytes s : of_bytes (as_bytes s) = s.
Proof. apply String.string_of_list_byte_of_string. Qed.

Lemma filter_all {A} (P : A -> Prop) `{!forall x, Decision (P x)} l : Forall P l -> filter P l = l.
Proof. induction 1; [done|]. rewrite filter_cons_True by done. by f_equal. Qed.

Lemma filter_none {A} (P : A -> Prop) `{!forall x, Decision (P x)} l :
  Forall (fun x => ~ P x) l -> filter P l = [].
Proof. induction 1; [done|]. by rewrite filter_cons_False. Qed.

(** Filtering by a predicate that holds exactly from index [k] on drops [k]. *)
Lemma filter_from_index {A} (P : A -> Prop) `{!forall x, Decision (P x)} (l : list A) k :
  (forall i x, l !! i = Some x -> (P x <-> (k <= i)%nat)) -> filter P l = drop k l.
Proof.
  intros Hk. rewrite <- (take_drop k l) at 1. rewrite filter_app.
  rewrite (filter_none _ (take k l)), (filter_all _ (drop k l)); [done|..];
    apply Forall_lookup; intros i x Hi.
  - rewrite lookup_drop in Hi. apply (Hk _ _ Hi). lia.
  - apply lookup_take_Some in Hi as [Hi Hlt]. rewrite (Hk _ _ Hi). lia.
Qed.

(** ** Sums over a map *)

(** The sum of [f] over the values of a map. *)
Definition map_sum {A} (f : A -> Z) (m : gmap string A) : Z :=
  map_fold (fun _ x acc => f x + acc) 0 m.

Section MapSum.
Context {A : Type} (f : A -> Z).

Lemma map_sum_empty : map_sum f ∅ = 0.
Proof. apply map_fold_empty. Qed.

Lemma map_sum_insert_new m name x :
  m !! name = None -> map_sum f (<[name := x]> m) = f x + map_sum f m.
Proof. intros Hn. unfold map_sum. rewrite map_fold_insert_L; [done|intros; lia|done]. Qed.

Lemma map_sum_delete m name x :
  m !! name = Some x -> map_sum f m = f x + map_sum f (delete name m).
Proof.
  intros Hs. rewrite <- (insert_id m name x Hs) at 1. rewrite <- insert_delete_eq.
  apply map_sum_insert_new, lookup_delete_eq.
Qed.

Lemma map_sum_update m name x y :
  m !! name = Some x -> map_sum f (<[name := y]> m) = map_sum f m - f x + f y.
Proof.
  intros Hs. rewrite (map_sum_delete m name x Hs), <- insert_delete_eq.
  rewrite map_sum_insert_new by apply lookup_delete_eq. lia.
Qed.

Lemma map_sum_set m name y :
  map_sum f (<[name := y]> m) = map_sum f m - from_option f 0 (m !! name) + f y.
Proof.
  destruct (m !! name) as [x|] eqn:Hx; cbn.
  - by rewrite (map_sum_update m name x).
  - rewrite map_sum_insert_new by done. lia.
Qed.

Lemma map_sum_zero m : map_Forall (fun _ x => f x = 0) m -> map_sum f m = 0.
Proof.
  induction m as [|name x m Hn IH] using map_ind; intros Hall; [done|].
  apply map_Forall_insert in Hall as [Hx Hm]; [|done]. rewrite map_sum_insert_new, Hx, IH by done. done.
Qed.

Lemma map_sum_nonneg m : map_Forall (fun _ x => 0 <= f x) m -> 0 <= map_sum f m.
Proof.
  induction m as [|name x m Hn IH] using map_ind; intros Hall.
  - by rewrite map_sum_empty.
  - rewrite map_sum_insert_new by done. apply map_Forall_insert in Hall as [Hx Hm]; [|done].
    specialize (IH Hm). lia.
Qed.

Lemma map_sum_lookup_le m name x :
  map_Forall (fun _ x => 0 <= f x) m -> m !! name = Some x -> 0 <= f x <= map_sum f m.
Proof.
  intros Hall Hx. rewrite (map_sum_delete m name x Hx). split; [by apply (Hall name)|].
  assert (0 <= map_sum f (delete name m)); [|lia].
  apply map_sum_nonneg. by apply map_Forall_delete.
Qed.

(** A map whose values are those of part of another sums to no more. *)
Lemma map_sum_le (m1 m2 : gmap string A) :
  map_Forall (fun _ x => 0 <= f x) m2 ->
  (forall name x, m1 !! name = Some x -> exists y, m2 !! name = Some y /\ f x = f y) ->
  map_sum f m1 <= map_sum f m2.
Proof.
  revert m2. induction m1 as [|name x m1 Hn IH] using map_ind; intros m2 Hall Hsub.
  - rewrite map_sum_empty. by apply map_sum_nonneg.
  - destruct (Hsub name x) as (y & Hy & Hxy); [apply lookup_insert_eq|].
    rewrite map_sum_insert_new, (map_sum_delete m2 name y Hy), Hxy by done.
    apply Z.add_le_mono_l, IH; [by apply map_Forall_delete|]. intros n' x' Hn'.
    destruct (decide (n' = name)) as [->|Hne]; [congruence|].
    destruct (Hsub n' x') as (y' & Hy' & ?); [by rewrite lookup_insert_ne|].
    exists y'. by rewrite lookup_delete_ne.
Qed.
End MapSum.
