(* ===== verification/Errors.v ===== *)
(** * Errors: src/protocol/error.rs

    The single error type of the server and its map to HTTP status codes. *)

From S2P Require Import Prelude.

(** [protocol::error::Error]; each variant keeps the payload of the source. *)
Inductive Error : Type :=
  | NotFound (name : string)
  | ConfigMismatch
  | AlreadyExists (name : string)
  | InvalidOffset (msg : string)
  | InvalidStreamName (msg : string)
  | ContentTypeMismatch (expected actual : string)
  | StreamClosed
  | SequenceRegression (expected actual : Z)
  | SequenceGap (expected actual : Z)
  | EpochFenced (current received : Z)
  | InvalidProducerState (msg : string)
  | MemoryLimitExceeded
  | StreamSizeLimitExceeded
  | InvalidTtl (msg : string)
  | ConflictingExpiration
  | StreamExpired
  | InvalidJson (msg : string)
  | EmptyBody
  | InvalidHeader (header reason : string)
  | SeqOrderingViolation (last received : string)
  | StorageError (msg : string).

(** [Error::status_code] *)
Definition status_code (e : Error) : Z :=
  match e with
  | NotFound _ | StreamExpired => 404
  | ConfigMismatch
  | ContentTypeMismatch _ _
  | StreamClosed
  | SequenceRegression _ _
  | SequenceGap _ _
  | SeqOrderingViolation _ _ => 409
  | EpochFenced _ _ => 403
  | MemoryLimitExceeded | StreamSizeLimitExceeded => 413
  | AlreadyExists _
  | InvalidOffset _
  | InvalidStreamName _
  | InvalidProducerState _
  | InvalidTtl _
  | ConflictingExpiration
  | InvalidJson _
  | EmptyBody
  | InvalidHeader _ _ => 400
  | StorageError _ => 500
  end.
