(* ===== verification/Offsets.v ===== *)
(** * Offsets: src/protocol/offset.rs

    The offset type of the protocol with its canonical 33-byte text, the parser,
    and the total order clients and the storage backends rely on. *)

From S2P Require Import Prelude Errors.

(** [protocol::offset::Offset]; [raw] is the 33-byte array of the source. *)
Inductive Offset : Type :=
  | Start
  | Now
  | Concrete (read_seq byte_offset : Z) (raw : bytes).

(** ** Encoding *)

(** [const HEX: &[u8; 16] = b"0123456789abcdef"] *)
Definition HEX : bytes := as_bytes "0123456789abcdef".

(** [HEX[d as usize]] *)
Definition hex_digit (d : Z) : Byte.byte := nth (Z.to_nat d) HEX x00.

(** One 16-slot loop of [encode_offset]: slot [i] holds the nibble at bit
    [(15 - i) * 4]. *)
Definition encode_hex_16 (v : Z) : bytes :=
  map (fun i => hex_digit (Z.land (Z.shiftr v ((15 - Z.of_nat i) * 4)) 15)) (seq 0 16).

Definition encode_offset (read_seq byte_offset : Z) : bytes :=
  encode_hex_16 read_seq ++ as_bytes "_" ++ encode_hex_16 byte_offset.

(** [Offset::new] *)
Definition Offset_new (read_seq byte_offset : Z) : Offset :=
  Concrete read_seq byte_offset (encode_offset read_seq byte_offset).

Definition START : string := "-1".
Definition NOW : string := "now".

Definition is_start (o : Offset) : bool := match o with Start => true | _ => false end.
Definition is_now (o : Offset) : bool := match o with Now => true | _ => false end.
Definition is_sentinel (o : Offset) : bool :=
  match o with Start | Now => true | _ => false end.

(** [Offset::as_str], also [Display] and [From<Offset> for String]. *)
Definition as_str (o : Offset) : string :=
  match o with
  | Start => START
  | Now => NOW
  | Concrete _ _ raw => of_bytes raw
  end.

Definition parse_components (o : Offset) : option (Z * Z) :=
  match o with
  | Concrete read_seq byte_offset _ => Some (read_seq, byte_offset)
  | Start | Now => None
  end.

(** ** Parsing *)

Definition is_ascii_digit (b : Byte.byte) : bool := (48 <=? byte_val b) && (byte_val b <=? 57).
Definition is_ascii_uppercase (b : Byte.byte) : bool := (65 <=? byte_val b) && (byte_val b <=? 90).
(** [(b'a'..=b'f').contains(&b)] *)
Definition is_hex_lower (b : Byte.byte) : bool := (97 <=? byte_val b) && (byte_val b <=? 102).

(** The digit [match] of [decode_hex_16]. *)
Definition hex_value (b : Byte.byte) : option Z :=
  if is_ascii_digit b then Some (byte_val b - 48)
  else if is_hex_lower b then Some (byte_val b - 97 + 10)
  else None.

(** The loop of [decode_hex_16]: [value = (value << 4) | digit]. *)
Fixpoint decode_hex_loop (value : Z) (bs : bytes) : option Z :=
  match bs with
  | [] => Some value
  | b :: rest =>
      match hex_value b with
      | Some digit => decode_hex_loop (Z.lor (shl64 value 4) digit) rest
      | None => None
      end
  end.

Definition decode_hex_16 (bs : bytes) : option Z :=
  if negb (length bs =? 16)%nat then None else decode_hex_loop 0 bs.

(** The [for (idx, b) in bytes.iter().copied().enumerate()] loop of
    [from_str], from index [idx] on; [s] is the text quoted in the errors. *)
Fixpoint check_hex_chars (s : string) (idx : nat) (bs : bytes) : Result Error unit :=
  match bs with
  | [] => Ok tt
  | b :: rest =>
      if (idx =? 16)%nat then check_hex_chars s (S idx) rest
      else if is_ascii_uppercase b then
        Err (InvalidOffset ("Offset must use lowercase hex digits: '" +:+ s +:+ "'"))
      else if negb (is_ascii_digit b) && negb (is_hex_lower b) then
        Err (InvalidOffset ("Invalid hex character in part "
               +:+ (if (idx <? 16)%nat then "1" else "2") +:+ " of '" +:+ s +:+ "'"))
      else check_hex_chars s (S idx) rest
  end.

(** [impl FromStr for Offset] *)
Definition from_str (s : string) : Result Error Offset :=
  if decide (s = START) then Ok Start
  else if decide (s = NOW) then Ok Now
  else
    let bs := as_bytes s in
    if negb (length bs =? 33)%nat || negb (bool_decide (nth 16 bs x00 = "_"%byte)) then
      Err (InvalidOffset ("Expected format 'read_seq_byte_offset', got '" +:+ s +:+ "'"))
    else
      let? _ := check_hex_chars s 0 bs in
      let? read_seq := ok_or (decode_hex_16 (take 16 bs))
        (InvalidOffset ("Failed to parse hex values in '" +:+ s +:+ "'")) in
      let? byte_offset := ok_or (decode_hex_16 (drop 17 bs))
        (InvalidOffset ("Failed to parse hex values in '" +:+ s +:+ "'")) in
      Ok (Concrete read_seq byte_offset (encode_offset read_seq byte_offset)).

(** ** Equality and order *)

(** [str::cmp]: lexicographic on the UTF-8 bytes. *)
Definition str_cmp (s t : string) : comparison := String.compare s t.

(** [(a_rs, a_bo).cmp(&(b_rs, b_bo))] *)
Definition pair_cmp (a b : Z * Z) : comparison :=
  match a.1 ?= b.1 with Eq => a.2 ?= b.2 | c => c end.

(** [impl PartialEq for Offset] *)
Definition offset_eq (a b : Offset) : bool :=
  match parse_components a, parse_components b with
  | Some x, Some y => (x.1 =? y.1) && (x.2 =? y.2)
  | _, _ => String.eqb (as_str a) (as_str b)
  end.

(** [impl Ord for Offset] *)
Definition offset_cmp (a b : Offset) : comparison :=
  match parse_components a, parse_components b with
  | Some x, Some y => pair_cmp x y
  | _, _ => str_cmp (as_str a) (as_str b)
  end.

(** The bytes [impl Hash for Offset] feeds to the hasher, as the sequence of
    values it hashes. *)
Inductive hashed := HashU8 (v : Z) | HashU64 (v : Z) | HashStr (s : string).
Definition offset_hash (o : Offset) : list hashed :=
  match parse_components o with
  | Some (read_seq, byte_offset) => [HashU8 0; HashU64 read_seq; HashU64 byte_offset]
  | None => [HashU8 1; HashStr (as_str o)]
  end.

(** Every value the code builds: the [raw] bytes are those of the numbers. *)
Definition offset_wf (o : Offset) : Prop :=
  match o with
  | Start | Now => True
  | Concrete rs bo raw => u64 rs /\ u64 bo /\ raw = encode_offset rs bo
  end.

Example encode_test : as_str (Offset_new 1 42) = "0000000000000001_000000000000002a".
Proof. reflexivity. Qed.
Example parse_test : from_str "0000000000000001_000000000000002a" = Ok (Offset_new 1 42).
Proof. reflexivity. Qed.
Example parse_upper : from_str "0000000000000001_000000000000002A" =
  Err (InvalidOffset "Offset must use lowercase hex digits: '0000000000000001_000000000000002A'").
Proof. reflexivity. Qed.

(** ** Nibbles *)

(** Nibble [k] of [v], as the encoder extracts it. *)
Definition nibble (k : nat) (v : Z) : Z := Z.land (Z.shiftr v (Z.of_nat k * 4)) 15.

(** The [n] low nibbles of [v], most significant first. *)
Fixpoint nibbles (n : nat) (v : Z) : list Z :=
  match n with O => [] | S k => nibble k v :: nibbles k v end.

Lemma encode_hex_16_nibbles v : encode_hex_16 v = map hex_digit (nibbles 16 v).
Proof. reflexivity. Qed.

Lemma length_encode_hex_16 v : length (encode_hex_16 v) = 16%nat.
Proof. reflexivity. Qed.

Lemma length_encode_offset rs bo : length (encode_offset rs bo) = 33%nat.
Proof. reflexivity. Qed.

Lemma nibble_arith k v : nibble k v = (v / 16 ^ Z.of_nat k) mod 16.
Proof.
  unfold nibble. change 15 with (Z.ones 4).
  rewrite Z.land_ones, Z.shiftr_div_pow2 by lia.
  rewrite Z.mul_comm, Z.pow_mul_r by lia. done.
Qed.

Lemma nibble_range k v : 0 <= nibble k v < 16.
Proof. rewrite nibble_arith. apply Z.mod_pos_bound. lia. Qed.

Lemma pow16_S n : 16 ^ Z.of_nat (S n) = 16 * 16 ^ Z.of_nat n.
Proof. rewrite Nat2Z.inj_succ, Z.pow_succ_r; lia. Qed.

Lemma pow16_pos n : 0 < 16 ^ Z.of_nat n.
Proof. apply Z.pow_pos_nonneg; lia. Qed.

(** Dividing by one more power of sixteen drops one nibble. *)
Lemma div_pow16_S v n : v / 16 ^ Z.of_nat (S n) = v / 16 ^ Z.of_nat n / 16.
Proof.
  rewrite pow16_S, (Z.mul_comm 16), Z.div_div; [done | | lia].
  pose proof (pow16_pos n). lia.
Qed.

Lemma mod_pow16_S v n :
  v mod 16 ^ Z.of_nat (S n) = nibble n v * 16 ^ Z.of_nat n + v mod 16 ^ Z.of_nat n.
Proof.
  pose proof (pow16_pos n) as Hp. rewrite nibble_arith, pow16_S, (Z.mul_comm 16).
  rewrite Z.rem_mul_r by lia. lia.
Qed.

Lemma hex_digit_val d : 0 <= d < 16 -> byte_val (hex_digit d) = if d <? 10 then 48 + d else 87 + d.
Proof.
  intros H.
  assert (d = 0 \/ d = 1 \/ d = 2 \/ d = 3 \/ d = 4 \/ d = 5 \/ d = 6 \/ d = 7 \/ d = 8 \/
          d = 9 \/ d = 10 \/ d = 11 \/ d = 12 \/ d = 13 \/ d = 14 \/ d = 15) as Hd by lia.
  repeat destruct Hd as [->|Hd]; try reflexivity. subst; reflexivity.
Qed.

Lemma hex_value_digit d : 0 <= d < 16 -> hex_value (hex_digit d) = Some d.
Proof.
  intros H. unfold hex_value, is_ascii_digit, is_hex_lower.
  rewrite (hex_digit_val d H).
  destruct (Z.ltb_spec d 10).
  - replace (48 <=? 48 + d) with true by lia. replace (48 + d <=? 57) with true by lia.
    simpl. f_equal. lia.
  - replace (87 + d <=? 57) with false by lia. rewrite andb_false_r.
    replace (97 <=? 87 + d) with true by lia. replace (87 + d <=? 102) with true by lia.
    simpl. f_equal. lia.
Qed.

Lemma hex_value_Some b d : hex_value b = Some d -> 0 <= d < 16 /\ hex_digit d = b.
Proof. destruct b; vm_compute; intros; simplify_eq; done. Qed.

(** One step of the decoder, as arithmetic. *)
Lemma decode_step acc d :
  0 <= acc < 16 ^ 15 -> 0 <= d < 16 -> Z.lor (shl64 acc 4) d = acc * 16 + d.
Proof.
  intros Ha Hd. unfold shl64.
  rewrite Z.shiftl_mul_pow2 by lia. change (2 ^ 4) with 16.
  rewrite Z.mod_small by (unfold two64; lia).
  rewrite <- Z.add_nocarry_lor; [lia|].
  apply Z.bits_inj'. intros k Hk. rewrite Z.land_spec, Z.bits_0.
  destruct (Z.lt_ge_cases k 4).
  - change 16 with (2 ^ 4). rewrite Z.mul_pow2_bits_low by lia. done.
  - destruct (Z.eq_dec d 0) as [->|]; [rewrite Z.bits_0; apply andb_false_r|].
    rewrite (Z.bits_above_log2 d k), andb_false_r; [done|lia|].
    apply Z.log2_lt_pow2; [lia|].
    apply Z.lt_le_trans with (2 ^ 4); [lia|]. apply Z.pow_le_mono_r; lia.
Qed.

(** ** The decoder inverts the encoder, and conversely *)

Lemma decode_nibbles n v acc :
  (n <= 16)%nat -> u64 v -> acc = v / 16 ^ Z.of_nat n ->
  decode_hex_loop acc (map hex_digit (nibbles n v)) = Some v.
Proof.
  intros Hn Hv. revert acc. induction n as [|n IH]; intros acc Hacc; simpl.
  - rewrite Hacc. change (16 ^ Z.of_nat 0) with 1. by rewrite Z.div_1_r.
  - rewrite hex_value_digit by apply nibble_range.
    assert (0 <= acc < 16 ^ 15).
    { subst acc. pose proof (pow16_pos (S n)). unfold u64, two64 in Hv. split.
      - apply Z.div_pos; lia.
      - apply Z.div_lt_upper_bound; [lia|]. rewrite pow16_S.
        pose proof (pow16_pos n). lia. }
    rewrite decode_step by (auto using nibble_range).
    apply IH; [lia|]. rewrite nibble_arith. subst acc.
    rewrite div_pow16_S, (Z.mul_comm _ 16), <- Z.div_mod by lia. done.
Qed.

Lemma decode_encode_hex_16 v : u64 v -> decode_hex_16 (encode_hex_16 v) = Some v.
Proof.
  intros Hv. unfold decode_hex_16. rewrite length_encode_hex_16. simpl negb. cbv iota.
  rewrite encode_hex_16_nibbles. apply decode_nibbles; [lia|done|].
  rewrite Z.div_small; [done|]. unfold u64, two64 in Hv. lia.
Qed.

Lemma decode_loop_inv bs acc v :
  (length bs <= 16)%nat -> 0 <= acc < 16 ^ Z.of_nat (16 - length bs) ->
  decode_hex_loop acc bs = Some v ->
  map hex_digit (nibbles (length bs) v) = bs /\ v / 16 ^ Z.of_nat (length bs) = acc /\ u64 v.
Proof.
  revert acc. induction bs as [|b bs IH]; intros acc Hlen Hacc Hdec; simpl in Hdec.
  - simplify_eq. change (16 ^ Z.of_nat (16 - length [])) with two64 in Hacc.
    split_and!; [done| |done]. apply Z.div_1_r.
  - destruct (hex_value b) as [d|] eqn:Hb; [|done].
    apply hex_value_Some in Hb as [Hd Hb]. simpl length in *.
    assert (16 ^ Z.of_nat (16 - length bs) = 16 * 16 ^ Z.of_nat (16 - S (length bs))) as Hpow.
    { replace (16 - length bs)%nat with (S (16 - S (length bs))) by lia. apply pow16_S. }
    assert (acc < 16 ^ 15).
    { apply Z.lt_le_trans with (16 ^ Z.of_nat (16 - S (length bs))); [lia|].
      apply Z.pow_le_mono_r; lia. }
    rewrite decode_step in Hdec by lia.
    apply IH in Hdec as (Hm & Hdiv & Hr); [|lia|rewrite Hpow; lia].
    split_and!; [|rewrite div_pow16_S, Hdiv, Z.div_add_l, Z.div_small; lia|done].
    simpl. rewrite Hm. f_equal. rewrite nibble_arith, Hdiv.
    replace ((acc * 16 + d) mod 16) with d; [done|].
    rewrite Z.add_comm, Z.mod_add, Z.mod_small by lia. done.
Qed.

Lemma decode_hex_16_inv bs v :
  decode_hex_16 bs = Some v -> encode_hex_16 v = bs /\ u64 v.
Proof.
  unfold decode_hex_16. destruct (Nat.eqb_spec (length bs) 16) as [Hl|]; [|done].
  simpl negb. cbv iota. intros Hdec.
  apply decode_loop_inv in Hdec as (Hm & _ & Hv); [|lia|rewrite Hl; change (16 ^ Z.of_nat (16 - 16)) with 1; lia].
  rewrite encode_hex_16_nibbles, <- Hl. done.
Qed.

Lemma check_hex_chars_ok s n bs v :
  decode_hex_loop v bs <> None -> (n + length bs <= 16 \/ 16 < n)%nat ->
  check_hex_chars s n bs = Ok tt.
Proof.
  revert n v. induction bs as [|b bs IH]; intros n v Hdec Hn; simpl in *; [done|].
  destruct (hex_value b) as [d|] eqn:Hb; [|done].
  destruct (Nat.eqb_spec n 16); [lia|].
  assert (is_ascii_uppercase b = false /\
          negb (is_ascii_digit b) && negb (is_hex_lower b) = false) as [-> ->].
  { destruct b; vm_compute in Hb |- *; done. }
  eapply IH; [exact Hdec|lia].
Qed.

Lemma check_hex_chars_app s n bs1 bs2 :
  check_hex_chars s n (bs1 ++ bs2) =
  (let? _ := check_hex_chars s n bs1 in check_hex_chars s (n + length bs1) bs2).
Proof.
  revert n. induction bs1 as [|b bs1 IH]; intros n; simpl.
  - by rewrite Nat.add_0_r.
  - destruct (n =? 16)%nat; [|destruct (is_ascii_uppercase b); [done|];
      destruct (negb (is_ascii_digit b) && negb (is_hex_lower b)); [done|]];
      rewrite IH; simpl; by rewrite Nat.add_succ_r.
Qed.

Lemma check_hex_chars_encode s rs bo :
  u64 rs -> u64 bo -> check_hex_chars s 0 (encode_offset rs bo) = Ok tt.
Proof.
  intros Hrs Hbo. unfold encode_offset.
  assert (forall v, u64 v -> decode_hex_loop 0 (encode_hex_16 v) <> None) as Hdec.
  { intros v Hv. pose proof (decode_encode_hex_16 v Hv) as H. unfold decode_hex_16 in H.
    rewrite length_encode_hex_16 in H. simpl negb in H. cbv iota in H. by rewrite H. }
  rewrite check_hex_chars_app, (check_hex_chars_ok _ _ _ 0); [|auto|rewrite length_encode_hex_16; lia].
  cbn [result_bind]. rewrite length_encode_hex_16.
  change (check_hex_chars s 17 (encode_hex_16 bo) = Ok tt).
  apply (check_hex_chars_ok _ _ _ 0); auto with lia.
Qed.

(** ** Lexicographic order of the canonical texts *)

Fixpoint bytes_cmp (a b : bytes) : comparison :=
  match a, b with
  | [], [] => Eq
  | [], _ :: _ => Lt
  | _ :: _, [] => Gt
  | x :: a', y :: b' =>
      match byte_val x ?= byte_val y with Eq => bytes_cmp a' b' | c => c end
  end.

Lemma str_cmp_of_bytes a b : str_cmp (of_bytes a) (of_bytes b) = bytes_cmp a b.
Proof.
  revert b. induction a as [|x a IH]; intros [|y b]; try done.
  change (match Ascii.compare (Ascii.ascii_of_byte x) (Ascii.ascii_of_byte y) with
          | Eq => str_cmp (of_bytes a) (of_bytes b) | c => c end = bytes_cmp (x :: a) (y :: b)).
  rewrite IH. cbn [bytes_cmp]. unfold Ascii.compare, byte_val.
  assert (forall z, Ascii.N_of_ascii (Ascii.ascii_of_byte z) = Byte.to_N z) as Hb.
  { intros z. by destruct z. }
  rewrite !Hb, N2Z.inj_compare. by destruct (Byte.to_N x ?= Byte.to_N y)%N.
Qed.

Lemma bytes_cmp_app a a' b b' :
  length a = length b ->
  bytes_cmp (a ++ a') (b ++ b') =
  match bytes_cmp a b with Eq => bytes_cmp a' b' | c => c end.
Proof.
  revert b. induction a as [|x a IH]; intros [|y b] Hl; simplify_eq/=; [done|].
  destruct (byte_val x ?= byte_val y); auto.
Qed.

Lemma hex_digit_cmp d e :
  0 <= d < 16 -> 0 <= e < 16 -> (byte_val (hex_digit d) ?= byte_val (hex_digit e)) = (d ?= e).
Proof.
  intros Hd He. rewrite !hex_digit_val by done.
  destruct (Z.compare_spec d e); destruct (Z.ltb_spec d 10), (Z.ltb_spec e 10);
    first [ apply Z.compare_eq_iff; lia | apply Z.compare_lt_iff; lia
          | apply Z.compare_gt_iff; lia ].
Qed.

Lemma compare_digits (p d e x y : Z) :
  0 <= x < p -> 0 <= y < p ->
  ((d * p + x) ?= (e * p + y)) = match d ?= e with Eq => x ?= y | c => c end.
Proof.
  intros Hx Hy. destruct (Z.compare_spec d e) as [->|Hlt|Hgt].
  - apply Z.add_compare_mono_l.
  - apply Z.compare_lt_iff. nia.
  - apply Z.compare_gt_iff. nia.
Qed.

Lemma nibbles_cmp n a b :
  bytes_cmp (map hex_digit (nibbles n a)) (map hex_digit (nibbles n b)) =
  (a mod 16 ^ Z.of_nat n ?= b mod 16 ^ Z.of_nat n).
Proof.
  induction n as [|n IH].
  - simpl. by rewrite !Z.mod_1_r.
  - cbn [nibbles map bytes_cmp]. rewrite IH, hex_digit_cmp by apply nibble_range.
    rewrite !mod_pow16_S, compare_digits;
      [done | apply Z.mod_pos_bound, pow16_pos | apply Z.mod_pos_bound, pow16_pos].
Qed.

Lemma encode_hex_16_cmp a b :
  u64 a -> u64 b -> bytes_cmp (encode_hex_16 a) (encode_hex_16 b) = (a ?= b).
Proof.
  intros Ha Hb. rewrite !encode_hex_16_nibbles, nibbles_cmp.
  change (16 ^ Z.of_nat 16) with two64. by rewrite !Z.mod_small.
Qed.

Lemma encode_offset_cmp rs bo rs' bo' :
  u64 rs -> u64 bo -> u64 rs' -> u64 bo' ->
  bytes_cmp (encode_offset rs bo) (encode_offset rs' bo') = pair_cmp (rs, bo) (rs', bo').
Proof.
  intros. unfold encode_offset.
  rewrite bytes_cmp_app, encode_hex_16_cmp by done.
  rewrite bytes_cmp_app, encode_hex_16_cmp by done.
  unfold pair_cmp; simpl. by destruct (rs ?= rs').
Qed.

Lemma Offset_new_wf rs bo : u64 rs -> u64 bo -> offset_wf (Offset_new rs bo).
Proof. done. Qed.

Lemma pair_cmp_eq a b : pair_cmp a b = Eq <-> a = b.
Proof.
  destruct a as [a1 a2], b as [b1 b2]. unfold pair_cmp; simpl.
  destruct (Z.compare_spec a1 b1), (Z.compare_spec a2 b2); split; intros; simplify_eq; try done; lia.
Qed.

Lemma pair_cmp_lt a b : pair_cmp a b = Lt <-> a.1 < b.1 \/ a.1 = b.1 /\ a.2 < b.2.
Proof.
  destruct a as [a1 a2], b as [b1 b2]. unfold pair_cmp; simpl.
  destruct (Z.compare_spec a1 b1), (Z.compare_spec a2 b2); split; intros; try done; lia.
Qed.

(** The first byte of a concrete offset is a lowercase hex digit: above ['-'],
    below ['n']. *)
Lemma encode_offset_head rs bo :
  exists d rest, 0 <= d < 16 /\ encode_offset rs bo = hex_digit d :: rest.
Proof. exists (nibble 15 rs). eexists. split; [apply nibble_range | reflexivity]. Qed.

Lemma sentinel_vs_concrete rs bo :
  str_cmp START (of_bytes (encode_offset rs bo)) = Lt /\
  str_cmp (of_bytes (encode_offset rs bo)) START = Gt /\
  str_cmp (of_bytes (encode_offset rs bo)) NOW = Lt /\
  str_cmp NOW (of_bytes (encode_offset rs bo)) = Gt.
Proof.
  destruct (encode_offset_head rs bo) as (d & rest & Hd & ->).
  rewrite <- (of_as_bytes START), <- (of_as_bytes NOW), !str_cmp_of_bytes.
  change (as_bytes START) with (["-"; "1"]%byte). change (as_bytes NOW) with (["n"; "o"; "w"]%byte).
  cbn [bytes_cmp]. pose proof (hex_digit_val d Hd) as Hv.
  change (byte_val "-") with 45. change (byte_val "n") with 110.
  assert (48 <= byte_val (hex_digit d) <= 102) by (rewrite Hv; destruct (Z.ltb_spec d 10); lia).
  assert ((45 ?= byte_val (hex_digit d)) = Lt) as -> by (apply Z.compare_lt_iff; lia).
  assert ((byte_val (hex_digit d) ?= 45) = Gt) as -> by (apply Z.compare_gt_iff; lia).
  assert ((byte_val (hex_digit d) ?= 110) = Lt) as -> by (apply Z.compare_lt_iff; lia).
  assert ((110 ?= byte_val (hex_digit d)) = Gt) as -> by (apply Z.compare_gt_iff; lia).
  done.
Qed.

(** ** The parser *)

Lemma from_str_concrete rs bo :
  u64 rs -> u64 bo -> from_str (of_bytes (encode_offset rs bo)) = Ok (Offset_new rs bo).
Proof.
  intros Hrs Hbo. unfold from_str.
  destruct (encode_offset_head rs bo) as (d & rest & Hd & Hhead).
  pose proof (sentinel_vs_concrete rs bo) as (_ & Hs & Hn & _).
  rewrite decide_False by (intros Heq; rewrite Heq in Hs; done).
  rewrite decide_False by (intros Heq; rewrite Heq in Hn; done).
  rewrite as_of_bytes, length_encode_offset.
  assert (negb (33 =? 33)%nat || negb (bool_decide (nth 16 (encode_offset rs bo) x00 = "_"%byte))
          = false) as -> by reflexivity.
  rewrite check_hex_chars_encode by done. cbn [result_bind].
  change (take 16 (encode_offset rs bo)) with (encode_hex_16 rs).
  change (drop 17 (encode_offset rs bo)) with (encode_hex_16 bo).
  rewrite !decode_encode_hex_16 by done. done.
Qed.

Lemma bytes_split_33 (bs : bytes) :
  length bs = 33%nat -> bs = take 16 bs ++ [nth 16 bs x00] ++ drop 17 bs.
Proof. intros Hl. do 34 (destruct bs as [|? bs]; [done || (simpl in Hl; lia)|]). simpl in Hl. lia. Qed.

Lemma from_str_inv s o :
  from_str s = Ok o -> offset_wf o /\ as_str o = s.
Proof.
  unfold from_str. destruct (decide (s = START)) as [->|_]; [by intros; simplify_eq|].
  destruct (decide (s = NOW)) as [->|_]; [by intros; simplify_eq|].
  destruct (Nat.eqb_spec (length (as_bytes s)) 33) as [Hl|]; [|done].
  case_bool_decide as Hu; [|done]. cbn [negb orb].
  destruct (check_hex_chars s 0 (as_bytes s)) as [[]|]; [|done].
  cbn [result_bind]. destruct (decode_hex_16 (take 16 (as_bytes s))) as [rs|] eqn:Hrs; [|done].
  cbn [result_bind ok_or]. destruct (decode_hex_16 (drop 17 (as_bytes s))) as [bo|] eqn:Hbo; [|done].
  cbn [result_bind ok_or]. intros; simplify_eq.
  apply decode_hex_16_inv in Hrs as [Hrs ?], Hbo as [Hbo ?].
  split; [done|]. simpl. rewrite <- (of_as_bytes s). f_equal.
  rewrite (bytes_split_33 (as_bytes s)) by done. rewrite Hu.
  unfold encode_offset. by rewrite Hrs, Hbo.
Qed.

Lemma from_str_as_str o : offset_wf o -> from_str (as_str o) = Ok o.
Proof.
  destruct o as [| |rs bo raw]; [done..|]. intros (? & ? & ->). by apply from_str_concrete.
Qed.

(** C35: parsing and printing offsets are mutually inverse: [Offset::from_str]
    accepts exactly the canonical texts (["-1"], ["now"] and the 33-byte
    [{read_seq:016x}_{byte_offset:016x}]), and returns the offset whose
    [as_str] is the text it was given; every other string is an error. *)
Theorem from_str_as_str_iff s o :
  from_str s = Ok o <-> offset_wf o /\ as_str o = s.
Proof.
  split; [apply from_str_inv|]. intros [Hwf <-]. by apply from_str_as_str.
Qed.

Lemma offset_cmp_str a b :
  offset_wf a -> offset_wf b -> offset_cmp a b = str_cmp (as_str a) (as_str b).
Proof.
  destruct a as [| |rs bo raw], b as [| |rs' bo' raw']; try done.
  intros (? & ? & ->) (? & ? & ->). simpl as_str.
  rewrite str_cmp_of_bytes, encode_offset_cmp by done. done.
Qed.

Lemma str_cmp_eq s t : str_cmp s t = Eq <-> s = t.
Proof.
  split; [apply String.compare_eq_iff|]. intros ->.
  pose proof (String.compare_antisym t t) as H. unfold str_cmp.
  by destruct (String.compare t t).
Qed.

Lemma as_str_inj a b : offset_wf a -> offset_wf b -> as_str a = as_str b -> a = b.
Proof.
  intros Ha Hb Hs. pose proof (from_str_as_str a Ha) as Hp.
  rewrite Hs, (from_str_as_str b Hb) in Hp. congruence.
Qed.

Lemma offset_eq_cmp a b : offset_eq a b = true <-> offset_cmp a b = Eq.
Proof.
  unfold offset_eq, offset_cmp.
  destruct (parse_components a) as [[x1 x2]|], (parse_components b) as [[y1 y2]|];
    rewrite ?str_cmp_eq, ?String.eqb_eq; try done.
  rewrite pair_cmp_eq, andb_true_iff, !Z.eqb_eq; simpl. naive_solver.
Qed.

(** C36: the numeric order [impl Ord for Offset] computes on the
    [(read_seq, byte_offset)] pairs is the byte-wise lexicographic order of the
    canonical texts, for concrete offsets and sentinels alike, so clients may
    compare offsets as opaque strings; [Start] is below and [Now] above every
    concrete offset. *)
Theorem offset_order_lexicographic a b :
  offset_wf a -> offset_wf b ->
  offset_cmp a b = str_cmp (as_str a) (as_str b) /\
  (is_sentinel a = false -> offset_cmp Start a = Lt /\ offset_cmp a Now = Lt).
Proof.
  intros Ha Hb. split; [by apply offset_cmp_str|].
  destruct a as [| |rs bo raw]; [done..|]. intros _. destruct Ha as (? & ? & ->).
  pose proof (sentinel_vs_concrete rs bo) as (? & ? & ? & ?). done.
Qed.

Lemma offset_order_lexicographic_witness :
  offset_cmp (Offset_new 9 300) (Offset_new 10 0) =
    str_cmp "0000000000000009_000000000000012c" "000000000000000a_0000000000000000" /\
  (is_sentinel (Offset_new 9 300) = false ->
     offset_cmp Start (Offset_new 9 300) = Lt /\ offset_cmp (Offset_new 9 300) Now = Lt).
Proof.
  apply (offset_order_lexicographic (Offset_new 9 300) (Offset_new 10 0));
    apply Offset_new_wf; unfold u64, two64; lia.
Defined.

(** The hand-written [PartialEq], [Ord] and [Hash] of [Offset] agree with
    each other on every offset the code can build: [==] holds exactly for
    identical values, [cmp] is [Equal] exactly when [==] holds, [cmp] reverses
    when the arguments are swapped, and equal offsets feed the hasher the same
    data. *)
Theorem offset_eq_ord_hash_consistent a b :
  offset_wf a -> offset_wf b ->
  (offset_eq a b = true <-> a = b) /\
  (offset_cmp a b = Eq <-> offset_eq a b = true) /\
  offset_cmp b a = CompOpp (offset_cmp a b) /\
  (offset_eq a b = true -> offset_hash a = offset_hash b).
Proof.
  intros Ha Hb. pose proof (offset_eq_cmp a b) as Heq.
  assert (offset_cmp a b = Eq <-> a = b) as Hcmp.
  { rewrite offset_cmp_str, str_cmp_eq by done. split; [|by intros ->].
    by apply as_str_inj. }
  split_and!; [by rewrite Heq|done| |intros ->%Heq%Hcmp; done].
  rewrite !offset_cmp_str by done. apply String.compare_antisym.
Qed.

Lemma offset_eq_ord_hash_consistent_witness :
  (offset_eq (Offset_new 3 7) Now = true <-> Offset_new 3 7 = Now) /\
  (offset_cmp (Offset_new 3 7) Now = Eq <-> offset_eq (Offset_new 3 7) Now = true) /\
  offset_cmp Now (Offset_new 3 7) = CompOpp (offset_cmp (Offset_new 3 7) Now) /\
  (offset_eq (Offset_new 3 7) Now = true -> offset_hash (Offset_new 3 7) = offset_hash Now).
Proof.
  apply (offset_eq_ord_hash_consistent (Offset_new 3 7) Now); [|exact I].
  apply Offset_new_wf; unfold u64, two64; lia.
Defined.
