(* ===== verification/RustStd.v ===== *)
(** * RustStd: the standard-library routines the server's code calls

    Executable models of [str::trim], [eq_ignore_ascii_case], [to_lowercase],
    [starts_with], [contains], [split], [u64::from_str], [u64::to_string] and
    [slice::binary_search_by], with the lemmas the components share. *)

From S2P Require Import Prelude.

(** ** ASCII case *)

Definition ascii_lower_byte (b : Byte.byte) : Byte.byte :=
  if (65 <=? byte_val b) && (byte_val b <=? 90)
  then default b (Byte.of_N (Z.to_N (byte_val b + 32)))
  else b.

(** [str::to_ascii_lowercase]; it is [str::to_lowercase] on ASCII text, the
    only text the server lowercases ([HeaderValue::to_str] yields visible ASCII). *)
Definition to_lowercase (s : string) : string := of_bytes (map ascii_lower_byte (as_bytes s)).

Definition eq_ignore_ascii_case (s t : string) : bool :=
  bool_decide (to_lowercase s = to_lowercase t).

(** ** Trimming and searching *)

(** The UTF-8 encodings of the Unicode [White_Space] characters. *)
Definition white_space : list bytes :=
  [[x09]; [x0a]; [x0b]; [x0c]; [x0d]; [x20];
   [xc2; x85]; [xc2; xa0]; [xe1; x9a; x80];
   [xe2; x80; x80]; [xe2; x80; x81]; [xe2; x80; x82]; [xe2; x80; x83]; [xe2; x80; x84];
   [xe2; x80; x85]; [xe2; x80; x86]; [xe2; x80; x87]; [xe2; x80; x88]; [xe2; x80; x89];
   [xe2; x80; x8a]; [xe2; x80; xa8]; [xe2; x80; xa9]; [xe2; x80; xaf];
   [xe2; x81; x9f]; [xe3; x80; x80]].

Fixpoint strip_prefix (p bs : bytes) : option bytes :=
  match p, bs with
  | [], _ => Some bs
  | x :: p', y :: bs' => if decide (x = y) then strip_prefix p' bs' else None
  | _ :: _, [] => None
  end.

(** Remove one character of [ws] from the front. *)
Fixpoint strip_one (ws : list bytes) (bs : bytes) : option bytes :=
  match ws with
  | [] => None
  | w :: ws' => match strip_prefix w bs with Some r => Some r | None => strip_one ws' bs end
  end.

Fixpoint trim_front (fuel : nat) (ws : list bytes) (bs : bytes) : bytes :=
  match fuel with
  | O => bs
  | S n => match strip_one ws bs with Some r => trim_front n ws r | None => bs end
  end.

(** [str::trim]; the back is trimmed on the reversed bytes, which reads the same
    characters because UTF-8 is self-synchronising. *)
Definition trim_bytes (bs : bytes) : bytes :=
  let front := trim_front (length bs) white_space bs in
  rev (trim_front (length front) (map (@rev _) white_space) (rev front)).
Definition trim (s : string) : string := of_bytes (trim_bytes (as_bytes s)).

Definition starts_with (s p : string) : bool :=
  match strip_prefix (as_bytes p) (as_bytes s) with Some _ => true | None => false end.

(** [s.contains(c)] for an ASCII character. *)
Definition contains_char (s : string) (c : Byte.byte) : bool :=
  bool_decide (c ∈ as_bytes s).

(** [s.split(c)] for an ASCII character: always at least one piece. *)
Fixpoint split_bytes (c : Byte.byte) (bs : bytes) : list bytes :=
  match bs with
  | [] => [[]]
  | b :: rest =>
      if decide (b = c) then [] :: split_bytes c rest
      else match split_bytes c rest with
           | piece :: pieces => (b :: piece) :: pieces
           | [] => [[b]]
           end
  end.
Definition split (s : string) (c : Byte.byte) : list string :=
  map of_bytes (split_bytes c (as_bytes s)).

(** ** Unsigned decimal integers *)

(** [core::num::ParseIntError] with its [Display] texts. *)
Inductive ParseIntError := IntEmpty | IntInvalidDigit | IntPosOverflow.
Definition parse_int_error_text (e : ParseIntError) : string :=
  match e with
  | IntEmpty => "cannot parse integer from empty string"
  | IntInvalidDigit => "invalid digit found in string"
  | IntPosOverflow => "number too large to fit in target type"
  end.

Definition dec_value (b : Byte.byte) : option Z :=
  if (48 <=? byte_val b) && (byte_val b <=? 57) then Some (byte_val b - 48) else None.

(** The digit loop of [u64::from_str_radix(_, 10)]: an invalid digit is
    reported before the overflow of the step that reads it. [max] is the largest
    value of the target type. *)
Fixpoint parse_digits (max acc : Z) (bs : bytes) : Result ParseIntError Z :=
  match bs with
  | [] => Ok acc
  | b :: rest =>
      match dec_value b with
      | None => Err IntInvalidDigit
      | Some d => if acc * 10 + d <=? max then parse_digits max (acc * 10 + d) rest
                  else Err IntPosOverflow
      end
  end.

(** [str::parse] for an unsigned type whose largest value is [max]: a leading
    ['+'] is accepted, a lone sign is an invalid digit. *)
Definition parse_unsigned (max : Z) (s : string) : Result ParseIntError Z :=
  match as_bytes s with
  | [] => Err IntEmpty
  | b :: rest =>
      match rest with
      | [] => if decide (b = "+"%byte) then Err IntInvalidDigit else parse_digits max 0 [b]
      | _ :: _ => if decide (b = "+"%byte) then parse_digits max 0 rest
                  else parse_digits max 0 (b :: rest)
      end
  end.
Definition parse_u64 : string -> Result ParseIntError Z := parse_unsigned U64_MAX.

Definition dec_digit (d : Z) : Byte.byte := nth (Z.to_nat d) (as_bytes "0123456789") x00.

Fixpoint decimal (fuel : nat) (n : Z) : bytes :=
  match fuel with
  | O => []
  | S k => if n <? 10 then [dec_digit n] else decimal k (n / 10) ++ [dec_digit (n mod 10)]
  end.
(** [u64::to_string]: a [u64] has at most 20 decimal digits. *)
Definition u64_to_string (n : Z) : string := of_bytes (decimal 20 n).

(** ** [slice::binary_search_by] *)

Section BinarySearch.
Context {A : Type} (f : A -> comparison).

(** The loop of the standard library: [while size > 1] halve the window,
    moving [base] to [mid] unless [f] answers [Greater] there. *)
Fixpoint bs_loop (fuel : nat) (l : list A) (base size : nat) : nat :=
  match fuel with
  | O => base
  | S k =>
      if (1 <? size)%nat then
        let half := Nat.div2 size in
        let mid := (base + half)%nat in
        let base' := match f <$> l !! mid with Some Gt => base | _ => mid end in
        bs_loop k l base' (size - half)
      else base
  end.

(** [Ok(i)] is [inl i] and [Err(i)] is [inr i]. *)
Definition binary_search_by (l : list A) : nat + nat :=
  match l with
  | [] => inr O
  | _ :: _ =>
      let base := bs_loop (length l) l 0 (length l) in
      match f <$> l !! base with
      | Some Eq => inl base
      | Some Lt => inr (S base)
      | _ => inr base
      end
  end.

(** [match .. { Ok(idx) | Err(idx) => idx }] *)
Definition search_index (l : list A) : nat :=
  match binary_search_by l with inl i => i | inr i => i end.

(** [l] is strictly increasing for the order [f] probes. *)
Definition search_sorted (l : list A) : Prop :=
  forall i j a b, l !! i = Some a -> l !! j = Some b -> (i < j)%nat -> f b <> Gt -> f a = Lt.
End BinarySearch.

Example trim_test : trim "  1 00 " = "1 00". Proof. reflexivity. Qed.
Example split_test : split "a,,b" "," = ["a"; ""; "b"]. Proof. reflexivity. Qed.
Example dec_test : u64_to_string 18446744073709551615 = "18446744073709551615".
Proof. reflexivity. Qed.
Example parse_overflow_test : parse_u64 "18446744073709551616" = Err IntPosOverflow. Proof. reflexivity. Qed.
Example parse_plus : parse_u64 "+007" = Ok 7. Proof. reflexivity. Qed.
Example bs_test : binary_search_by (fun x => Z.compare x 4) [1;3;5;7] = inr 2%nat.
Proof. reflexivity. Qed.

(** ** Lemmas: case *)

Lemma ascii_lower_byte_idem b : ascii_lower_byte (ascii_lower_byte b) = ascii_lower_byte b.
Proof. by destruct b. Qed.

Lemma eq_ignore_ascii_case_true s t :
  eq_ignore_ascii_case s t = true <-> to_lowercase s = to_lowercase t.
Proof. unfold eq_ignore_ascii_case. by rewrite bool_decide_eq_true. Qed.

(** ** Lemmas: decimal integers *)

Lemma dec_value_range b d : dec_value b = Some d -> 0 <= d < 10.
Proof. destruct b; vm_compute; intros; simplify_eq; done. Qed.

Lemma dec_value_digit d : 0 <= d < 10 -> dec_value (dec_digit d) = Some d.
Proof.
  intros H.
  assert (d = 0 \/ d = 1 \/ d = 2 \/ d = 3 \/ d = 4 \/ d = 5 \/ d = 6 \/ d = 7 \/ d = 8 \/
          d = 9) as Hd by lia.
  repeat destruct Hd as [->|Hd]; try reflexivity. subst; reflexivity.
Qed.

Lemma dec_digit_not_plus d : 0 <= d < 10 -> dec_digit d <> "+"%byte.
Proof. intros H Hq. apply dec_value_digit in H. rewrite Hq in H. done. Qed.

Lemma parse_digits_range max acc bs v :
  0 <= acc <= max -> parse_digits max acc bs = Ok v -> acc <= v <= max.
Proof.
  revert acc. induction bs as [|b bs IH]; intros acc Hacc Hp; simpl in Hp; [simplify_eq; lia|].
  destruct (dec_value b) as [d|] eqn:Hd; [|done]. apply dec_value_range in Hd.
  destruct (Z.leb_spec (acc * 10 + d) max); [|done]. apply IH in Hp; lia.
Qed.

Lemma parse_unsigned_range max s v :
  0 <= max -> parse_unsigned max s = Ok v -> 0 <= v <= max.
Proof.
  intros Hm. unfold parse_unsigned. destruct (as_bytes s) as [|b [|b' bs]]; [done|..];
    destruct (decide (b = "+"%byte)); try done; intros H%parse_digits_range; lia.
Qed.

Lemma parse_digits_app max acc bs1 bs2 :
  parse_digits max acc (bs1 ++ bs2) =
  (let? v := parse_digits max acc bs1 in parse_digits max v bs2).
Proof.
  revert acc. induction bs1 as [|b bs1 IH]; intros acc; simpl; [done|].
  destruct (dec_value b) as [d|]; [|done]. by destruct (acc * 10 + d <=? max).
Qed.

Lemma parse_decimal fuel n max :
  0 <= n <= max -> n < 10 ^ Z.of_nat fuel -> parse_digits max 0 (decimal fuel n) = Ok n.
Proof.
  revert n. induction fuel as [|k IH]; intros n Hn Hlt.
  - change (10 ^ Z.of_nat 0) with 1 in Hlt. simpl. f_equal. lia.
  - cbn [decimal]. destruct (Z.ltb_spec n 10).
    + cbn [parse_digits]. rewrite dec_value_digit by lia.
      destruct (Z.leb_spec (0 * 10 + n) max); [f_equal; lia|lia].
    + rewrite Nat2Z.inj_succ, Z.pow_succ_r in Hlt by lia.
      assert (n / 10 <= n) by (apply Z.div_le_upper_bound; lia).
      assert (0 <= n / 10) by (apply Z.div_pos; lia).
      rewrite parse_digits_app, IH; [|lia|apply Z.div_lt_upper_bound; lia].
      cbn [result_bind parse_digits].
      rewrite dec_value_digit by (apply Z.mod_pos_bound; lia).
      pose proof (Z.div_mod n 10 ltac:(lia)) as Hdm.
      rewrite (Z.mul_comm _ 10), <- Hdm.
      destruct (Z.leb_spec n max); [done|lia].
Qed.

Lemma decimal_head fuel n :
  0 <= n -> (0 < fuel)%nat -> exists d rest, 0 <= d < 10 /\ decimal fuel n = dec_digit d :: rest.
Proof.
  revert n. induction fuel as [|k IH]; intros n Hn Hf; [lia|]. cbn [decimal].
  destruct (Z.ltb_spec n 10); [exists n, []; split; [lia|done]|].
  destruct k as [|k].
  - exists (n mod 10), []. split; [apply Z.mod_pos_bound; lia|done].
  - destruct (IH (n / 10)) as (d & rest & Hd & ->); [apply Z.div_pos; lia|lia|].
    exists d, (rest ++ [dec_digit (n mod 10)]). done.
Qed.

(** Printing a [u64] and parsing it back gives the number. *)
Lemma parse_u64_to_string n : u64 n -> parse_u64 (u64_to_string n) = Ok n.
Proof.
  intros Hn. unfold parse_u64, parse_unsigned, u64_to_string. rewrite as_of_bytes.
  unfold u64, two64 in Hn.
  assert (parse_digits U64_MAX 0 (decimal 20 n) = Ok n) as Hp.
  { apply parse_decimal; unfold U64_MAX; [lia|]. change (10 ^ Z.of_nat 20) with 100000000000000000000. lia. }
  destruct (decimal_head 20 n) as (d & rest & Hd & Heq); [lia|lia|].
  rewrite Heq in *. destruct rest as [|r rest]; rewrite decide_False by (by apply dec_digit_not_plus);
    done.
Qed.

(** ** Lemmas: binary search *)

Section BinarySearchLemmas.
Context {A : Type} (f : A -> comparison).

(** What the loop keeps: everything at or past the window is [Greater], and
    [base] itself is not [Greater] once it has moved. *)
Lemma bs_loop_spec fuel (l : list A) base size :
  search_sorted f l -> (size <= S fuel)%nat -> (1 <= size)%nat -> (base + size <= length l)%nat ->
  (forall i x, l !! i = Some x -> (base + size <= i)%nat -> f x = Gt) ->
  (base = O \/ exists x, l !! base = Some x /\ f x <> Gt) ->
  let b := bs_loop f fuel l base size in
  (b < length l)%nat /\ (forall i x, l !! i = Some x -> (b < i)%nat -> f x = Gt) /\
  (b = O \/ exists x, l !! b = Some x /\ f x <> Gt).
Proof.
  intros Hs. revert base size. induction fuel as [|k IH]; intros base size Hf H1 Hb Hgt Hne; simpl.
  - split_and!; [lia| |done]. intros i x Hi Hlt. apply (Hgt i x Hi). lia.
  - destruct (Nat.ltb_spec 1 size) as [Hsz|Hsz].
    2:{ split_and!; [lia| |done]. intros i x Hi Hlt. apply (Hgt i x Hi). lia. }
    assert (1 <= Nat.div2 size /\ 2 * Nat.div2 size <= size)%nat as [? ?].
    { pose proof (Nat.div2_odd size). destruct (Nat.odd size); simpl Nat.b2n in *; lia. }
    destruct (lookup_lt_is_Some_2 l (base + Nat.div2 size)) as [y Hy]; [lia|].
    rewrite Hy. simpl.
    destruct (decide (f y = Gt)) as [Hfy|Hfy].
    + rewrite Hfy. apply IH; [lia|lia|lia| |done].
      intros i x Hi Hle. destruct (decide (i = base + Nat.div2 size)%nat) as [->|]; [congruence|].
      destruct (decide (f x = Gt)) as [|Hfx]; [done|exfalso].
      rewrite (Hs _ _ y x Hy Hi) in Hfy; [done|lia|done].
    + replace (match f y with Gt => base | _ => (base + Nat.div2 size)%nat end)
        with (base + Nat.div2 size)%nat by (by destruct (f y)).
      apply IH; [lia|lia|lia| |right; eauto].
      intros i x Hi Hle. apply (Hgt i x Hi). lia.
Qed.

(** On a strictly increasing slice the search returns the partition point:
    the elements before it, and only those, are [Less]. *)
Lemma search_index_spec (l : list A) :
  search_sorted f l ->
  (search_index f l <= length l)%nat /\
  forall i x, l !! i = Some x -> ((i < search_index f l)%nat <-> f x = Lt).
Proof.
  intros Hs. unfold search_index, binary_search_by. destruct l as [|a0 l0]; [done|].
  set (l := a0 :: l0) in *.
  destruct (bs_loop_spec (length l) l 0 (length l)) as (Hb & Hgt & Hne); auto.
  { simpl; lia. }
  { intros i x Hi%lookup_lt_Some. lia. }
  set (b := bs_loop f (length l) l 0 (length l)) in *.
  destruct (lookup_lt_is_Some_2 l b Hb) as [y Hy]. rewrite Hy.
  cbn [fmap option_fmap option_map].
  assert (f y <> Gt \/ b = O) as Hyb.
  { destruct Hne as [|(x & Hx & ?)]; [by right|left]. rewrite Hx in Hy. by simplify_eq. }
  destruct (f y) eqn:Hfy; (split; [lia|]); intros i x Hi; split; intros Hx.
  - eapply Hs; [exact Hi|exact Hy|lia|congruence].
  - destruct (decide (i = b)) as [->|]; [congruence|].
    destruct (decide (b < i)%nat); [|lia]. rewrite (Hgt i x) in Hx by done. done.
  - destruct (decide (i = b)) as [->|]; [congruence|].
    eapply Hs; [exact Hi|exact Hy|lia|congruence].
  - destruct (decide (b < i)%nat); [|lia]. rewrite (Hgt i x) in Hx by done. done.
  - destruct Hyb; [done|lia].
  - destruct (decide (i = b)) as [->|]; [congruence|].
    rewrite (Hgt i x) in Hx; [done|done|]. destruct Hyb; [done|lia].
Qed.

(** Reading from the partition point is dropping the [Less] elements. *)
Lemma search_index_drop (l : list A) :
  search_sorted f l -> drop (search_index f l) l = filter (fun x => f x <> Lt) l.
Proof.
  intros [Hle Hs]%search_index_spec. symmetry. apply filter_from_index.
  intros i x Hi. specialize (Hs i x Hi). split.
  - intros Hn. apply Nat.nlt_ge. intros Hlt. by apply Hn, Hs.
  - intros Hge Hx%Hs. lia.
Qed.
End BinarySearchLemmas.
