(* ===== verification/Headers.v ===== *)
(** * Headers: src/protocol/headers.rs and src/protocol/producer.rs

    Protocol header names, the parsers of the header values, and the producer
    header triple. A request's headers are the function [HeaderMap] below. *)

From S2P Require Import Prelude Errors RustStd.

(** [headers.get(name).and_then(|v| v.to_str().ok())] of the request, for each
    header name: [None] when the header is absent or not visible ASCII. *)
Definition HeaderMap : Type := string -> option string.

(** [headers::names] *)
Definition STREAM_TTL : string := "Stream-TTL".
Definition STREAM_EXPIRES_AT : string := "Stream-Expires-At".
Definition STREAM_CLOSED : string := "Stream-Closed".
Definition STREAM_NEXT_OFFSET : string := "Stream-Next-Offset".
Definition STREAM_UP_TO_DATE : string := "Stream-Up-To-Date".
Definition STREAM_CURSOR : string := "Stream-Cursor".
Definition STREAM_SEQ : string := "Stream-Seq".
Definition PRODUCER_ID : string := "Producer-Id".
Definition PRODUCER_EPOCH : string := "Producer-Epoch".
Definition PRODUCER_SEQ : string := "Producer-Seq".
Definition PRODUCER_EXPECTED_SEQ : string := "Producer-Expected-Seq".
Definition PRODUCER_RECEIVED_SEQ : string := "Producer-Received-Seq".

(** ** headers.rs *)

Definition quote (s : string) : string := "'" +:+ s +:+ "'".

(** [headers::parse_ttl] *)
Definition parse_ttl (value : string) : Result Error Z :=
  let trimmed := trim value in
  if decide (trimmed = "") then Err (InvalidTtl "empty value")
  else if (1 <? String.length trimmed)%nat && starts_with trimmed "0" then
    Err (InvalidTtl ("leading zeros not allowed: " +:+ quote trimmed))
  else if contains_char trimmed "." then
    Err (InvalidTtl ("decimal values not allowed: " +:+ quote trimmed))
  else if contains_char trimmed "e" || contains_char trimmed "E" then
    Err (InvalidTtl ("scientific notation not allowed: " +:+ quote trimmed))
  else if starts_with trimmed "-" then
    Err (InvalidTtl ("negative values not allowed: " +:+ quote trimmed))
  else if starts_with trimmed "+" then
    Err (InvalidTtl ("leading plus sign not allowed: " +:+ quote trimmed))
  else
    match parse_u64 trimmed with
    | Ok n => Ok n
    | Err e => Err (InvalidTtl ("invalid integer " +:+ quote trimmed +:+ ": "
                                 +:+ parse_int_error_text e))
    end.

(** [headers::parse_expires_at]; [parse_datetime] is chrono's
    [str::parse::<DateTime<Utc>>], with the text of its error. Instants are
    nanoseconds since the Unix epoch. *)
Definition parse_expires_at (parse_datetime : string -> Result string Z) (value : string)
  : Result Error Z :=
  match parse_datetime value with
  | Ok t => Ok t
  | Err e => Err (InvalidHeader STREAM_EXPIRES_AT ("invalid ISO 8601 timestamp: " +:+ e))
  end.

(** [headers::parse_bool] *)
Definition parse_bool (value : string) : bool := eq_ignore_ascii_case (trim value) "true".

(** [headers::normalize_content_type] *)
Definition normalize_content_type (content_type : string) : string :=
  to_lowercase (trim (default content_type (head (split content_type ";")))).

(** ** producer.rs *)

Record ProducerHeaders : Type := mkProducerHeaders {
  ph_id : string;
  ph_epoch : Z;
  ph_seq : Z
}.

Definition MAX_SAFE_INTEGER : Z := 9007199254740991.

(** [producer::parse_non_negative_int] *)
Definition parse_non_negative_int (value header_name : string) : Result Error Z :=
  if (1 <? String.length value)%nat && starts_with value "0" then
    Err (InvalidProducerState
      (header_name +:+ " must be a non-negative integer, got: " +:+ value))
  else
    match parse_u64 value with
    | Err _ => Err (InvalidProducerState
        (header_name +:+ " must be a non-negative integer, got: " +:+ value))
    | Ok n =>
        if MAX_SAFE_INTEGER <? n then
          Err (InvalidProducerState (header_name +:+ " must not exceed 2^53-1, got: " +:+ value))
        else Ok n
    end.

(** [producer::parse_producer_headers] *)
Definition parse_producer_headers (headers : HeaderMap) : Result Error (option ProducerHeaders) :=
  match headers PRODUCER_ID, headers PRODUCER_EPOCH, headers PRODUCER_SEQ with
  | None, None, None => Ok None
  | Some id, Some epoch_str, Some seq_str =>
      if decide (id = "") then Err (InvalidProducerState "Producer-Id must not be empty")
      else
        let? epoch := parse_non_negative_int epoch_str "Producer-Epoch" in
        let? seq := parse_non_negative_int seq_str "Producer-Seq" in
        Ok (Some (mkProducerHeaders id epoch seq))
  | _, _, _ => Err (InvalidProducerState
      "Producer-Id, Producer-Epoch, and Producer-Seq must all be provided together")
  end.

Example parse_ttl_ws : parse_ttl "  100  " = Ok 100. Proof. reflexivity. Qed.
Example parse_ttl_exp : parse_ttl "1e3" = Err (InvalidTtl "scientific notation not allowed: '1e3'").
Proof. reflexivity. Qed.
Example parse_bool_upper : parse_bool " TRUE " = true. Proof. reflexivity. Qed.
Example normalize_charset : normalize_content_type "Text/Plain; charset=utf-8" = "text/plain".
Proof. reflexivity. Qed.

(** ** Canonical decimals *)

Lemma parse_digits_lower max acc bs v :
  0 <= acc -> parse_digits max acc bs = Ok v -> acc * 10 ^ Z.of_nat (length bs) <= v.
Proof.
  revert acc. induction bs as [|b bs IH]; intros acc Ha Hp; simpl in Hp.
  - simplify_eq. change (10 ^ Z.of_nat (length [])) with 1. lia.
  - destruct (dec_value b) as [d|] eqn:Hd; [|done]. apply dec_value_range in Hd.
    destruct (acc * 10 + d <=? max); [|done]. apply IH in Hp; [|lia].
    cbn [length]. rewrite Nat2Z.inj_succ, Z.pow_succ_r by lia.
    assert (0 < 10 ^ Z.of_nat (length bs)) by (apply Z.pow_pos_nonneg; lia). nia.
Qed.

Lemma dec_digit_value b d : dec_value b = Some d -> dec_digit d = b.
Proof. destruct b; vm_compute; intros; simplify_eq; done. Qed.

(** No leading zero: the digit string of a number is the one [to_string] prints. *)
Lemma decimal_canonical max bs n k :
  parse_digits max 0 bs = Ok n -> bs <> [] -> (length bs <= k)%nat ->
  (length bs = 1%nat \/ head bs <> Some "0"%byte) -> decimal k n = bs.
Proof.
  revert n k. induction bs as [|b bs IH] using rev_ind; intros n k Hp Hne Hk Hhd; [done|].
  rewrite length_app in Hk, Hhd. simpl in Hk, Hhd. destruct k as [|k]; [lia|].
  rewrite parse_digits_app in Hp. destruct (parse_digits max 0 bs) as [v|] eqn:Hv; [|done].
  cbn [result_bind parse_digits] in Hp. destruct (dec_value b) as [d|] eqn:Hd; [|done].
  destruct (v * 10 + d <=? max); [|done]. simplify_eq.
  pose proof (dec_value_range _ _ Hd) as Hdr. cbn [decimal].
  destruct bs as [|b0 bs].
  - simpl in Hv. simplify_eq. replace (0 * 10 + d <? 10) with true by lia.
    simpl. f_equal. by apply dec_digit_value.
  - assert (head (b0 :: bs) <> Some "0"%byte) as Hh by (destruct Hhd; [simpl in *; lia|done]).
    assert (1 <= v) as Hv1.
    { simpl in Hv. destruct (dec_value b0) as [d0|] eqn:Hd0; [|done].
      destruct (Z.eq_dec d0 0) as [->|].
      - apply dec_digit_value in Hd0. subst b0. done.
      - apply dec_value_range in Hd0. destruct (0 * 10 + d0 <=? max); [|done].
        apply parse_digits_lower in Hv; [|lia].
        assert (0 < 10 ^ Z.of_nat (length bs)) by (apply Z.pow_pos_nonneg; lia). nia. }
    replace (v * 10 + d <? 10) with false by lia.
    rewrite Z.div_add_l, Z.div_small, Z.add_0_r by lia.
    rewrite (IH v k eq_refl) by (done || lia || by right).
    do 2 f_equal. rewrite Z.add_comm, Z.mod_add, Z.mod_small by lia. by apply dec_digit_value.
Qed.

Lemma decimal_digits k n :
  0 <= n -> Forall (fun b => exists d, dec_value b = Some d) (decimal k n).
Proof.
  revert n. induction k as [|k IH]; intros n Hn; [constructor|]. cbn [decimal].
  destruct (Z.ltb_spec n 10).
  - repeat constructor. exists n. by apply dec_value_digit.
  - apply Forall_app. split; [apply IH, Z.div_pos; lia|].
    repeat constructor. exists (n mod 10). apply dec_value_digit, Z.mod_pos_bound. lia.
Qed.

(** A printed number starts with ['0'] only if it is ["0"]. *)
Lemma decimal_no_leading_zero k n :
  0 <= n -> n < 10 ^ Z.of_nat k -> head (decimal k n) = Some "0"%byte -> n = 0.
Proof.
  revert n. induction k as [|k IH]; intros n Hn Hlt; [done|]. cbn [decimal].
  destruct (Z.ltb_spec n 10).
  - simpl. intros Hq. assert (dec_value (dec_digit n) = Some n) as Hv by (by apply dec_value_digit).
    injection Hq as Hq. rewrite Hq in Hv. vm_compute in Hv. congruence.
  - rewrite Nat2Z.inj_succ, Z.pow_succ_r in Hlt by lia.
    assert (1 <= n / 10) by (apply Z.div_le_lower_bound; lia).
    destruct k as [|k]; [change (10 ^ Z.of_nat 0) with 1 in Hlt; lia|].
    destruct (decimal_head (S k) (n / 10)) as (d & rest & _ & Heq); [lia|lia|].
    intros Hhd. assert (n / 10 = 0); [|lia].
    apply IH; [lia|apply Z.div_lt_upper_bound; lia|]. rewrite Heq in Hhd |- *. done.
Qed.

Lemma starts_with_byte s (c : Byte.byte) (p : string) :
  as_bytes p = [c] -> starts_with s p = bool_decide (head (as_bytes s) = Some c).
Proof.
  intros Hp. unfold starts_with. rewrite Hp. destruct (as_bytes s) as [|b bs]; cbn [strip_prefix head].
  - done.
  - destruct (decide (c = b)) as [->|].
    + by rewrite bool_decide_eq_true_2.
    + rewrite bool_decide_eq_false_2 by congruence. done.
Qed.

Lemma length_as_bytes s : length (as_bytes s) = String.length s.
Proof. induction s as [|a s IH]; [done|]. unfold as_bytes in *. simpl in *. by rewrite <- IH. Qed.

Lemma as_bytes_nil s : as_bytes s = [] <-> s = "".
Proof. split; [|by intros ->]. intros H. rewrite <- (of_as_bytes s), H. done. Qed.

(** The texts the two integer parsers let through to [u64::from_str] when there
    is no sign: exactly the canonical decimals. *)
Lemma parse_u64_canonical s n :
  (1 <? String.length s)%nat && starts_with s "0" = false -> starts_with s "+" = false ->
  parse_u64 s = Ok n <-> u64 n /\ s = u64_to_string n.
Proof.
  intros Hz Hp. split; [|intros [Hn ->]; by apply parse_u64_to_string].
  intros Hok. pose proof (parse_unsigned_range U64_MAX s n ltac:(done) Hok) as Hr.
  assert (u64 n) as Hn by (unfold u64, two64, U64_MAX in *; lia). split; [done|].
  rewrite (starts_with_byte _ "0") in Hz by done. rewrite (starts_with_byte _ "+") in Hp by done.
  apply bool_decide_eq_false in Hp. rewrite <- length_as_bytes in Hz.
  assert (parse_digits U64_MAX 0 (as_bytes s) = Ok n /\ as_bytes s <> []) as [Hd Hne].
  { unfold parse_u64, parse_unsigned in Hok. destruct (as_bytes s) as [|b [|b' bs]]; [done|..];
      rewrite decide_False in Hok by (intros ->; done); done. }
  assert (length (as_bytes s) = 1%nat \/ head (as_bytes s) <> Some "0"%byte) as Hlz.
  { destruct (as_bytes s) as [|b [|b' bs]]; [done|by left|right].
    simpl in Hz. by apply bool_decide_eq_false in Hz. }
  rewrite <- (of_as_bytes s). unfold u64_to_string. f_equal. symmetry.
  apply (decimal_canonical U64_MAX); try done.
  destruct (as_bytes s) as [|b bs]; [done|].
  destruct (decide (b = "0"%byte)) as [->|Hb]; [destruct Hlz; simpl in *; [lia|done]|].
  simpl in Hd. destruct (dec_value b) as [d|] eqn:Hdb; [|done].
  destruct (Z.eq_dec d 0) as [->|]; [apply dec_digit_value in Hdb; by subst b|].
  apply dec_value_range in Hdb. destruct (0 * 10 + d <=? U64_MAX); [|done].
  apply parse_digits_lower in Hd; [|lia]. simpl length.
  destruct (decide (20 <= length bs)%nat) as [Hlen|]; [exfalso|lia].
  assert (10 ^ 20 <= 10 ^ Z.of_nat (length bs)) by (apply Z.pow_le_mono_r; lia).
  unfold U64_MAX in Hr. nia.
Qed.

Lemma u64_to_string_bytes n :
  u64 n -> Forall (fun b => exists d, dec_value b = Some d) (as_bytes (u64_to_string n)).
Proof. intros Hn. unfold u64_to_string. rewrite as_of_bytes. apply decimal_digits. apply Hn. Qed.

Lemma u64_to_string_nonempty n : u64 n -> u64_to_string n <> "".
Proof.
  intros Hn Hq. apply as_bytes_nil in Hq. unfold u64_to_string in Hq. rewrite as_of_bytes in Hq.
  destruct (decimal_head 20 n) as (d & rest & _ & Heq); [apply Hn|lia|]. by rewrite Heq in Hq.
Qed.

Lemma u64_to_string_no_zero n :
  u64 n -> (1 <? String.length (u64_to_string n))%nat && starts_with (u64_to_string n) "0" = false.
Proof.
  intros Hn. rewrite (starts_with_byte _ "0") by done. rewrite <- length_as_bytes.
  unfold u64_to_string. rewrite as_of_bytes. apply andb_false_iff.
  destruct (decide (head (decimal 20 n) = Some "0"%byte)) as [Hh|Hh].
  - left. apply decimal_no_leading_zero in Hh as ->; [done|apply Hn|].
    unfold u64, two64 in Hn. change (10 ^ Z.of_nat 20) with 100000000000000000000. lia.
  - right. by apply bool_decide_eq_false_2.
Qed.

(** A printed number contains no byte that is not a digit. *)
Lemma u64_to_string_contains n c :
  u64 n -> dec_value c = None -> contains_char (u64_to_string n) c = false.
Proof.
  intros Hn Hc. pose proof (u64_to_string_bytes n Hn) as Hall. rewrite Forall_forall in Hall.
  apply bool_decide_eq_false_2. intros [d Hd]%Hall. congruence.
Qed.

Lemma u64_to_string_head n c :
  u64 n -> dec_value c = None -> bool_decide (head (as_bytes (u64_to_string n)) = Some c) = false.
Proof.
  intros Hn Hc. pose proof (u64_to_string_bytes n Hn) as Hall. apply bool_decide_eq_false_2.
  intros Hh. destruct Hall as [|b bs [d Hd]]; simplify_eq/=.
Qed.

(** [parse_ttl] accepts exactly the canonical unsigned decimals that fit a
    [u64], surrounded by optional white space: signs, leading zeros, decimals,
    exponents, the empty text and overflowing numbers are all rejected, and
    every rejection is [Error::InvalidTtl] (HTTP 400). *)
Theorem parse_ttl_canonical value :
  (forall n, parse_ttl value = Ok n <-> u64 n /\ trim value = u64_to_string n) /\
  (forall e, parse_ttl value = Err e -> status_code e = 400 /\ exists msg, e = InvalidTtl msg).
Proof.
  split.
  - intros n. unfold parse_ttl. set (t := trim value). split.
    + destruct (decide (t = "")); [done|].
      destruct ((1 <? String.length t)%nat && starts_with t "0") eqn:Hz; [done|].
      destruct (contains_char t "."); [done|].
      destruct (contains_char t "e" || contains_char t "E"); [done|].
      destruct (starts_with t "-"); [done|]. destruct (starts_with t "+") eqn:Hp; [done|].
      destruct (parse_u64 t) as [m|] eqn:Hm; [|done]. intros; simplify_eq.
      by apply parse_u64_canonical in Hm.
    + intros [Hn Ht]. rewrite Ht. rewrite decide_False by (by apply u64_to_string_nonempty).
      rewrite u64_to_string_no_zero by done.
      rewrite (starts_with_byte _ "-"), (starts_with_byte _ "+") by done.
      rewrite !u64_to_string_contains, !u64_to_string_head by done.
      by rewrite parse_u64_to_string.
  - intros e. unfold parse_ttl. intros He. repeat case_match; simplify_eq/=; eauto.
Qed.

(** The producer headers are all present or all absent. [Ok(None)] is
    returned exactly when none is present; [Ok(Some(h))] only when all three are,
    with a non-empty id and an epoch and a sequence number of at most [2^53 - 1];
    a partial set and every malformed value is [Error::InvalidProducerState]
    (HTTP 400). *)
Theorem parse_producer_headers_spec (headers : HeaderMap) :
  match parse_producer_headers headers with
  | Ok None =>
      headers PRODUCER_ID = None /\ headers PRODUCER_EPOCH = None /\ headers PRODUCER_SEQ = None
  | Ok (Some h) =>
      headers PRODUCER_ID = Some (ph_id h) /\ ph_id h <> "" /\
      (exists e, headers PRODUCER_EPOCH = Some e /\ parse_u64 e = Ok (ph_epoch h)) /\
      (exists s, headers PRODUCER_SEQ = Some s /\ parse_u64 s = Ok (ph_seq h)) /\
      0 <= ph_epoch h <= 2 ^ 53 - 1 /\ 0 <= ph_seq h <= 2 ^ 53 - 1
  | Err e =>
      status_code e = 400 /\ (exists msg, e = InvalidProducerState msg) /\
      ~ (headers PRODUCER_ID = None /\ headers PRODUCER_EPOCH = None /\ headers PRODUCER_SEQ = None)
  end.
Proof.
  assert (forall v h, match parse_non_negative_int v h with
                      | Ok n => parse_u64 v = Ok n /\ 0 <= n <= 2 ^ 53 - 1
                      | Err e => exists msg, e = InvalidProducerState msg end) as Hint.
  { intros v h. unfold parse_non_negative_int.
    destruct ((1 <? String.length v)%nat && starts_with v "0"); [eauto|].
    destruct (parse_u64 v) as [n|] eqn:Hn; [|eauto].
    destruct (Z.ltb_spec MAX_SAFE_INTEGER n); [eauto|].
    split; [done|]. apply parse_unsigned_range in Hn; [|done]. unfold MAX_SAFE_INTEGER in *. lia. }
  unfold parse_producer_headers.
  destruct (headers PRODUCER_ID) as [id|], (headers PRODUCER_EPOCH) as [ep|],
    (headers PRODUCER_SEQ) as [sq|]; try (split_and!; [done|eauto|done || by intros (? & ? & ?)]).
  destruct (decide (id = "")); [split_and!; [done|eauto|done || by intros (? & ? & ?)]|].
  pose proof (Hint ep "Producer-Epoch") as He. pose proof (Hint sq "Producer-Seq") as Hs.
  destruct (parse_non_negative_int ep "Producer-Epoch") as [e|er]; cbn [result_bind];
    [|destruct He as [msg ->]; split_and!; [done|eauto|done || by intros (? & ? & ?)]].
  destruct (parse_non_negative_int sq "Producer-Seq") as [q|er]; cbn [result_bind];
    [|destruct Hs as [msg ->]; split_and!; [done|eauto|done || by intros (? & ? & ?)]].
  simpl. destruct He, Hs. split_and!; eauto; lia.
Qed.

(** [parse_non_negative_int] does not reject every leading zero: behind a
    plus sign, which [u64::from_str] skips and the check of the first character
    does not see, leading zeros pass. *)
Theorem producer_int_accepts_plus_zeros :
  parse_non_negative_int "+007" "Producer-Seq" = Ok 7 /\
  (exists e, parse_non_negative_int "007" "Producer-Seq" = Err e) /\
  (exists e, parse_ttl "+007" = Err e).
Proof. split_and!; [reflexivity | eexists; reflexivity | eexists; reflexivity]. Qed.
