(* ===== verification/StorageCore.v ===== *)
(** * StorageCore: src/storage/mod.rs

    The data every storage backend shares, the validation helpers they delegate
    to, and the [Storage] trait as a type class. *)

From S2P Require Import Prelude Errors Offsets RustStd Headers.

(** The clock readings of one operation: [clk i] is what the [i]-th call site of
    [Utc::now()] in the text of the operation returns. Instants are nanoseconds. *)
Definition Clock : Type := nat -> Z.

(** ** Stream configuration *)

Record StreamConfig : Type := mkStreamConfig {
  content_type : string;
  ttl_seconds : option Z;
  expires_at : option Z;
  created_closed : bool
}.

#[global] Instance StreamConfig_eq_dec : EqDecision StreamConfig.
Proof. solve_decision. Defined.

(** [impl PartialEq for StreamConfig]: [expires_at] counts only without a TTL. *)
Definition config_eq (a b : StreamConfig) : bool :=
  bool_decide (content_type a = content_type b)
  && bool_decide (ttl_seconds a = ttl_seconds b)
  && Bool.eqb (created_closed a) (created_closed b)
  && (if bool_decide (is_Some (ttl_seconds a)) then true
      else bool_decide (expires_at a = expires_at b)).

(** [StreamConfig::new] and the builder methods. *)
Definition StreamConfig_new (ct : string) : StreamConfig := mkStreamConfig ct None None false.
Definition with_ttl (c : StreamConfig) (ttl : Z) : StreamConfig :=
  mkStreamConfig (content_type c) (Some ttl) (expires_at c) (created_closed c).
Definition with_expires_at (c : StreamConfig) (t : Z) : StreamConfig :=
  mkStreamConfig (content_type c) (ttl_seconds c) (Some t) (created_closed c).
Definition with_created_closed (c : StreamConfig) (b : bool) : StreamConfig :=
  mkStreamConfig (content_type c) (ttl_seconds c) (expires_at c) b.

(** ** Messages and results *)

Record Message : Type := mkMessage {
  msg_offset : Offset;
  msg_data : bytes;
  msg_byte_len : Z
}.
(** [Message::new] *)
Definition Message_new (offset : Offset) (data : bytes) : Message :=
  mkMessage offset data (len_u64 data).

Record ReadResult : Type := mkReadResult {
  rr_messages : list bytes;
  rr_next_offset : Offset;
  rr_at_tail : bool;
  rr_closed : bool
}.

Record StreamMetadata : Type := mkStreamMetadata {
  sm_config : StreamConfig;
  sm_next_offset : Offset;
  sm_closed : bool;
  sm_total_bytes : Z;
  sm_message_count : Z;
  sm_created_at : Z
}.

(** [CreateStreamResult::{Created, AlreadyExists}] *)
Inductive CreateStreamResult := StreamCreated | StreamAlreadyExists.

Record CreateWithDataResult : Type := mkCreateWithData {
  cw_status : CreateStreamResult;
  cw_next_offset : Offset;
  cw_closed : bool
}.

(** [ProducerAppendResult::{Accepted, Duplicate}] *)
Inductive ProducerAppendResult :=
  | Accepted (epoch seq : Z) (next_offset : Offset) (closed : bool)
  | Duplicate (epoch seq : Z) (next_offset : Offset) (closed : bool).

(** ** Producer state *)

Definition PRODUCER_STATE_TTL_SECS : Z := 7 * 24 * 60 * 60.

Record ProducerState : Type := mkProducerState {
  ps_epoch : Z;
  ps_last_seq : Z;
  ps_updated_at : Z
}.

(** [ProducerCheck::{Accept, Duplicate}] *)
Inductive ProducerCheck := CheckAccept | CheckDuplicate (epoch seq : Z).

(** ** Validation helpers *)

(** [is_stream_expired] *)
Definition is_stream_expired (now : Z) (config : StreamConfig) : bool :=
  match expires_at config with Some t => t <=? now | None => false end.

(** [validate_content_type] *)
Definition validate_content_type (stream_ct request_ct : string) : Result Error unit :=
  if negb (eq_ignore_ascii_case request_ct stream_ct)
  then Err (ContentTypeMismatch stream_ct request_ct)
  else Ok tt.

(** [new <= last] on [&str]. *)
Definition str_le (s t : string) : bool :=
  match str_cmp s t with Gt => false | _ => true end.

(** [validate_seq] *)
Definition validate_seq (last_seq new_seq : option string) : Result Error (option string) :=
  match new_seq with
  | Some new =>
      match last_seq with
      | Some last => if str_le new last then Err (SeqOrderingViolation last new) else Ok (Some new)
      | None => Ok (Some new)
      end
  | None => Ok None
  end.

Definition NANOS_PER_SEC : Z := 1000000000.

(** [cleanup_stale_producers]: keep the states updated after the cutoff. *)
Definition cleanup_stale_producers (now : Z) (producers : gmap string ProducerState)
  : gmap string ProducerState :=
  let cutoff := now - PRODUCER_STATE_TTL_SECS * NANOS_PER_SEC in
  filter (fun kv => cutoff < ps_updated_at kv.2) producers.

(** [check_producer] *)
Definition check_producer (existing : option ProducerState) (producer : ProducerHeaders)
    (stream_closed : bool) : Result Error ProducerCheck :=
  match existing with
  | Some state =>
      if ph_epoch producer <? ps_epoch state then
        Err (EpochFenced (ps_epoch state) (ph_epoch producer))
      else if (ph_epoch producer =? ps_epoch state) && (ph_seq producer <=? ps_last_seq state) then
        Ok (CheckDuplicate (ps_epoch state) (ps_last_seq state))
      else if stream_closed then Err StreamClosed
      else if ps_epoch state <? ph_epoch producer then
        if negb (ph_seq producer =? 0) then
          Err (InvalidProducerState "new epoch must start at seq 0")
        else Ok CheckAccept
      else if add64 (ps_last_seq state) 1 <? ph_seq producer then
        Err (SequenceGap (add64 (ps_last_seq state) 1) (ph_seq producer))
      else Ok CheckAccept
  | None =>
      if stream_closed then Err StreamClosed
      else if negb (ph_seq producer =? 0) then Err (SequenceGap 0 (ph_seq producer))
      else Ok CheckAccept
  end.

(** ** The [Storage] trait *)

(** A broadcast receiver: how many notifications its channel had sent when it
    was created ([recv] fires on every later one). *)
Definition Receiver : Type := Z.

(** [trait Storage]: every method with the clock readings it makes and the state
    of the backend it may change. *)
Module Storage.
Class StorageOps (S : Type) : Type := {
  create_stream : Clock -> string -> StreamConfig -> ST S Error CreateStreamResult;
  append : Clock -> string -> bytes -> string -> ST S Error Offset;
  batch_append : Clock -> string -> list bytes -> string -> option string -> ST S Error Offset;
  read : Clock -> string -> Offset -> S -> Result Error ReadResult;
  delete : string -> ST S Error unit;
  head : Clock -> string -> S -> Result Error StreamMetadata;
  close_stream : Clock -> string -> ST S Error unit;
  append_with_producer :
    Clock -> string -> list bytes -> string -> ProducerHeaders -> bool -> option string ->
    ST S Error ProducerAppendResult;
  create_stream_with_data :
    Clock -> string -> StreamConfig -> list bytes -> bool -> ST S Error CreateWithDataResult;
  stream_exists : Clock -> string -> S -> bool;
  subscribe : Clock -> string -> S -> S * option Receiver
}.
End Storage.

(** ** Configuration equality *)

Lemma config_eq_true a b :
  config_eq a b = true <->
  content_type a = content_type b /\ ttl_seconds a = ttl_seconds b /\
  created_closed a = created_closed b /\
  (ttl_seconds a = None -> expires_at a = expires_at b).
Proof.
  unfold config_eq. rewrite !andb_true_iff, !bool_decide_eq_true, Bool.eqb_true_iff.
  destruct (ttl_seconds a) as [t|] eqn:Ht.
  - rewrite bool_decide_eq_true_2 by eauto. naive_solver.
  - rewrite bool_decide_eq_false_2 by (intros [? ?]; done).
    rewrite bool_decide_eq_true. naive_solver.
Qed.

(** The equality of the source, as a relation. *)
Definition config_equiv (a b : StreamConfig) : Prop := config_eq a b = true.

#[global] Instance config_equiv_equivalence : Equivalence config_equiv.
Proof.
  unfold config_equiv. split.
  - intros a. by apply config_eq_true.
  - intros a b (? & Ht & ? & He)%config_eq_true. apply config_eq_true.
    split_and!; try done. intros Hn. symmetry. apply He. congruence.
  - intros a b c (? & Ht & ? & He)%config_eq_true (? & Ht' & ? & He')%config_eq_true.
    apply config_eq_true. split_and!; try congruence.
    intros Hn. rewrite He by done. apply He'. congruence.
Qed.

#[global] Instance config_eq_proper : Proper (config_equiv ==> config_equiv ==> (=)) config_eq.
Proof.
  intros a a' Ha b b' Hb. apply Bool.eq_iff_eq_true. split; intros H.
  - change (config_equiv a' b'). rewrite <- Ha, <- Hb. exact H.
  - change (config_equiv a b). rewrite Ha, Hb. exact H.
Qed.

(** The hand-written [PartialEq] of [StreamConfig], which [create_stream]
    uses to decide between an idempotent success and [ConfigMismatch], is a
    lawful equality: reflexive, symmetric and transitive (as [derive(Eq)]
    promises), and two configurations with the same TTL are equal whatever
    instant the TTL was turned into, so a retried [PUT] matches itself. *)
Theorem config_eq_equivalence_ttl :
  Equivalence (fun a b => config_eq a b = true) /\
  (forall ct ttl t1 t2 b,
     config_eq (mkStreamConfig ct (Some ttl) t1 b) (mkStreamConfig ct (Some ttl) t2 b) = true) /\
  (forall ct t1 t2 b,
     config_eq (mkStreamConfig ct None t1 b) (mkStreamConfig ct None t2 b) = true <-> t1 = t2).
Proof.
  split_and!.
  - exact config_equiv_equivalence.
  - intros. by apply config_eq_true.
  - intros. rewrite config_eq_true. simpl. naive_solver.
Qed.

(** ** Stream-Seq *)

Lemma validate_seq_ok last new r :
  validate_seq last new = Ok r <->
  r = new /\ forall n l, new = Some n -> last = Some l -> str_cmp l n = Lt.
Proof.
  unfold validate_seq, str_le, str_cmp. destruct new as [n|], last as [l|].
  - pose proof (String.compare_antisym l n) as Ha. destruct (String.compare n l) eqn:Hc;
      split; intros H; simplify_eq; try (destruct H as [-> H]; specialize (H n l eq_refl eq_refl));
      try (split; [done|]; intros; simplify_eq); rewrite ?Ha in *; simpl in *; congruence.
  - split; [intros; simplify_eq; done|by intros [-> _]].
  - split; [intros; simplify_eq; done|by intros [-> _]].
  - split; [intros; simplify_eq; done|by intros [-> _]].
Qed.

(** ** Producer sequencing *)

(** The values a producer request or a stored state can carry. *)
Definition state_in_range (s : ProducerState) : Prop :=
  0 <= ps_last_seq s <= MAX_SAFE_INTEGER.

Lemma state_in_range_succ s :
  state_in_range s -> add64 (ps_last_seq s) 1 = ps_last_seq s + 1.
Proof.
  intros H. apply add64_small. unfold state_in_range, MAX_SAFE_INTEGER, two64 in *. lia.
Qed.

(** What the protocol admits as the successor of a producer's last request. *)
Definition producer_next (existing : option ProducerState) (p : ProducerHeaders) : Prop :=
  match existing with
  | None => ph_seq p = 0
  | Some s =>
      (ph_epoch p = ps_epoch s /\ ph_seq p = ps_last_seq s + 1) \/
      (ps_epoch s < ph_epoch p /\ ph_seq p = 0)
  end.

Definition producer_dup (existing : option ProducerState) (p : ProducerHeaders) : Prop :=
  match existing with
  | None => False
  | Some s => ph_epoch p = ps_epoch s /\ ph_seq p <= ps_last_seq s
  end.

Lemma check_producer_accept existing p closed :
  (forall s, existing = Some s -> state_in_range s) ->
  check_producer existing p closed = Ok CheckAccept <->
  closed = false /\ producer_next existing p.
Proof.
  intros Hr. unfold check_producer, producer_next. destruct existing as [s|].
  - rewrite (state_in_range_succ s) by auto. specialize (Hr s eq_refl).
    unfold state_in_range in Hr.
    destruct (Z.ltb_spec (ph_epoch p) (ps_epoch s)); [split; [done|lia]|].
    destruct (Z.eqb_spec (ph_epoch p) (ps_epoch s)); simpl.
    + destruct (Z.leb_spec (ph_seq p) (ps_last_seq s)); [split; [done|lia]|].
      destruct closed; [split; [done|naive_solver]|].
      destruct (Z.ltb_spec (ps_epoch s) (ph_epoch p)); [lia|].
      destruct (Z.ltb_spec (ps_last_seq s + 1) (ph_seq p)); split; try done; lia.
    + destruct closed; [split; [done|naive_solver]|].
      destruct (Z.ltb_spec (ps_epoch s) (ph_epoch p)); [|lia].
      destruct (Z.eqb_spec (ph_seq p) 0); simpl; split; try done; lia.
  - destruct closed; [split; [done|naive_solver]|].
    destruct (Z.eqb_spec (ph_seq p) 0); simpl; split; try done; naive_solver.
Qed.

(** [check_producer] implements the protocol's decision table. A request is
    accepted exactly when the stream is open and the request is the producer's
    next one (sequence 0 for a new producer or a higher epoch, the successor of
    the last sequence in the same epoch); it is a duplicate exactly when it
    repeats an already accepted sequence of the current epoch, closed or not;
    otherwise it fails, and the error says why: an older epoch is fenced (403)
    whatever the rest, a closed stream comes next (409), then a higher epoch with
    a non-zero sequence (400) and a sequence gap with the expected number (409). *)
Theorem check_producer_decision existing p closed :
  (forall s, existing = Some s -> state_in_range s) ->
  match check_producer existing p closed with
  | Ok CheckAccept => closed = false /\ producer_next existing p
  | Ok (CheckDuplicate e q) =>
      producer_dup existing p /\
      exists s, existing = Some s /\ e = ps_epoch s /\ q = ps_last_seq s
  | Err err =>
      ~ (closed = false /\ producer_next existing p) /\ ~ producer_dup existing p /\
      match existing with
      | Some s =>
          (ph_epoch p < ps_epoch s /\ err = EpochFenced (ps_epoch s) (ph_epoch p)) \/
          (ps_epoch s <= ph_epoch p /\ closed = true /\ err = StreamClosed) \/
          (ps_epoch s < ph_epoch p /\ closed = false /\
             exists msg, err = InvalidProducerState msg) \/
          (ps_epoch s = ph_epoch p /\ closed = false /\
             err = SequenceGap (ps_last_seq s + 1) (ph_seq p))
      | None =>
          (closed = true /\ err = StreamClosed) \/
          (closed = false /\ err = SequenceGap 0 (ph_seq p))
      end
  end.
Proof.
  intros Hr. pose proof (check_producer_accept existing p closed Hr) as Hacc.
  destruct (check_producer existing p closed) as [[|e q]|err] eqn:Hc.
  - by apply Hacc.
  - unfold check_producer in Hc. unfold producer_dup. repeat case_match; simplify_eq.
    split; [lia|eauto].
  - split; [intros Hn%Hacc; done|]. unfold check_producer in Hc. unfold producer_dup.
    destruct existing as [s|]; [rewrite (state_in_range_succ s) in Hc by auto|];
      repeat case_match; simplify_eq; (split; [try lia; done|]); try lia; naive_solver lia.
Qed.

Lemma check_producer_decision_witness :
  match check_producer (Some (mkProducerState 3 41 0)) (mkProducerHeaders "p" 3 43) false with
  | Ok CheckAccept => False
  | Ok (CheckDuplicate _ _) => False
  | Err err => err = SequenceGap 42 43
  end.
Proof.
  pose proof (check_producer_decision (Some (mkProducerState 3 41 0))
                (mkProducerHeaders "p" 3 43) false) as H.
  assert (forall s, Some (mkProducerState 3 41 0) = Some s -> state_in_range s) as Hr.
  { intros s Hs. injection Hs as <-. unfold state_in_range, MAX_SAFE_INTEGER. simpl. lia. }
  specialize (H Hr). simpl in *. destruct H as (_ & _ & H).
  destruct H as [[? _]|[(_ & ? & _)|[(? & _)|(_ & _ & ->)]]]; simpl in *; try lia; done.
Defined.
