(* ===== verification/Cursor.v ===== *)
(** * Cursor: src/protocol/cursor.rs

    The cursor of long-poll and SSE answers: the stream position packed into one
    integer, made strictly increasing through the process-wide [LAST_CURSOR].
    [generate] is one uncontended call; [cas_step] is the compare-exchange loop
    run by any number of threads. *)

From Stdlib Require Import Sorted.
From S2P Require Import Prelude Errors Offsets RustStd.

Definition BYTE_OFFSET_BITS : Z := 27.

(** [(read_seq << BYTE_OFFSET_BITS) | byte_offset] *)
Definition offset_value (read_seq byte_offset : Z) : Z :=
  Z.lor (shl64 read_seq BYTE_OFFSET_BITS) byte_offset.

(** [offset_value.max(last + 1)] *)
Definition next_cursor (value last : Z) : Z := Z.max value (add64 last 1).

(** [cursor::generate], with the value of [LAST_CURSOR] before and after. *)
Definition generate (next_offset : Offset) (last_cursor : Z) : Z * string :=
  match parse_components next_offset with
  | Some (read_seq, byte_offset) =>
      let next := next_cursor (offset_value read_seq byte_offset) last_cursor in
      (next, u64_to_string next)
  | None => (last_cursor, "0")
  end.

(** ** The loop under contention *)

(** A thread in [generate], with the value it computed from its offset: before
    the load, between load and compare-exchange, or done with its cursor. *)
Inductive CursorThread : Type :=
  | Loading (value : Z)
  | Loaded (value last : Z)
  | Returned (value next : Z).

Record CursorState : Type := mkCursorState {
  cs_last : Z;                     (** [LAST_CURSOR] *)
  cs_threads : list CursorThread;
  cs_emitted : list Z              (** the cursors returned so far, oldest first *)
}.

(** One atomic action: a call with an offset value of at most [B], the load, a
    successful exchange, or a failed one ([compare_exchange_weak] may also fail
    when the values agree). *)
Inductive cas_step (B : Z) : CursorState -> CursorState -> Prop :=
  | cas_call value last ts out :
      0 <= value <= B ->
      cas_step B (mkCursorState last ts out) (mkCursorState last (ts ++ [Loading value]) out)
  | cas_load i value last ts out :
      ts !! i = Some (Loading value) ->
      cas_step B (mkCursorState last ts out)
                 (mkCursorState last (<[i := Loaded value last]> ts) out)
  | cas_success i value last ts out :
      ts !! i = Some (Loaded value last) ->
      cas_step B (mkCursorState last ts out)
                 (mkCursorState (next_cursor value last)
                    (<[i := Returned value (next_cursor value last)]> ts)
                    (out ++ [next_cursor value last]))
  | cas_fail i value seen last ts out :
      ts !! i = Some (Loaded value seen) ->
      cas_step B (mkCursorState last ts out)
                 (mkCursorState last (<[i := Loading value]> ts) out).

(** [LAST_CURSOR = AtomicU64::new(0)] and no call yet. *)
Definition cas_init : CursorState := mkCursorState 0 [] [].

(** ** Lemmas *)

Lemma shl64_small a k : 0 <= k -> 0 <= a -> a * 2 ^ k < two64 -> shl64 a k = a * 2 ^ k.
Proof.
  intros Hk Ha Hlt. unfold shl64. rewrite Z.shiftl_mul_pow2 by done. apply Z.mod_small.
  pose proof (Z.pow_nonneg 2 k). nia.
Qed.

(** With a byte offset below 2^27 the two components do not overlap. *)
Lemma offset_value_sum rs bo :
  0 <= rs < 2 ^ 37 -> 0 <= bo < 2 ^ BYTE_OFFSET_BITS ->
  offset_value rs bo = rs * 2 ^ BYTE_OFFSET_BITS + bo.
Proof.
  intros Hrs Hbo. unfold offset_value, BYTE_OFFSET_BITS in *.
  rewrite shl64_small by (unfold two64; lia).
  rewrite <- Z.add_lor_land.
  assert (Z.land (rs * 2 ^ 27) bo = 0) as ->; [|lia].
  apply Z.bits_inj'. intros n Hn. rewrite Z.land_spec, Z.bits_0.
  destruct (Z.lt_ge_cases n 27).
  - by rewrite Z.mul_pow2_bits_low.
  - rewrite <- (Z.mod_small bo (2 ^ 27)) by done. rewrite Z.mod_pow2_bits_high by lia.
    apply andb_false_r.
Qed.

(** ** Properties *)

(** Within the documented ranges the cursor value is the stream position.
    For fewer than 2^26 messages and fewer than 2^27 bytes it is below 2^53 (so
    JavaScript reads it exactly), and it orders positions as offsets do. *)
Theorem cursor_packs_position rs bo rs' bo' :
  0 <= rs < 2 ^ 26 -> 0 <= bo < 2 ^ 27 -> 0 <= rs' < 2 ^ 26 -> 0 <= bo' < 2 ^ 27 ->
  0 <= offset_value rs bo < 2 ^ 53 /\
  (offset_value rs bo < offset_value rs' bo' <->
   offset_cmp (Offset_new rs bo) (Offset_new rs' bo') = Lt).
Proof.
  intros H1 H2 H3 H4. rewrite !offset_value_sum by (unfold BYTE_OFFSET_BITS; lia).
  unfold BYTE_OFFSET_BITS, offset_cmp; simpl. rewrite pair_cmp_lt; simpl. lia.
Qed.

Lemma cursor_packs_position_witness :
  offset_value 67000000 10485760 < offset_value 67000001 0.
Proof. apply (cursor_packs_position 67000000 10485760 67000001 0); lia || reflexivity. Defined.

(** Beyond those ranges the packing is not what the module says: the two
    components overlap. After one message of 2^28 bytes, appending one byte more
    gives a later offset but a smaller value; and 2^26 messages already need 54
    bits. *)
Theorem cursor_packing_overlaps :
  offset_cmp (Offset_new 1 (2 ^ 28)) (Offset_new 2 (2 ^ 28 + 1)) = Lt /\
  offset_value 2 (2 ^ 28 + 1) < offset_value 1 (2 ^ 28) /\
  2 ^ 53 <= offset_value (2 ^ 26) (2 ^ 26).
Proof. split_and!; vm_compute; congruence. Qed.

Definition thread_ok (B last : Z) (t : CursorThread) : Prop :=
  match t with
  | Loading value => 0 <= value <= B
  | Loaded value seen => 0 <= value <= B
  | Returned value next => value <= next <= last
  end.

(** The invariant of the loop, as long as the counter has room. *)
Record cas_inv (B : Z) (s : CursorState) : Prop := mkCasInv {
  ci_last : 0 <= cs_last s <= B + Z.of_nat (length (cs_emitted s));
  ci_threads : Forall (thread_ok B (cs_last s)) (cs_threads s);
  ci_sorted : StronglySorted Z.lt (cs_emitted s);
  ci_bound : Forall (fun c => 0 < c <= cs_last s) (cs_emitted s)
}.

Lemma next_cursor_bounds B value last :
  0 <= value <= B -> 0 <= last -> last + 1 < two64 ->
  last < next_cursor value last /\ value <= next_cursor value last /\
  next_cursor value last <= Z.max B (last + 1).
Proof. intros Hv Hl Hlt. unfold next_cursor. rewrite add64_small by lia. lia. Qed.

Lemma thread_ok_mono B last last' t : last <= last' -> thread_ok B last t -> thread_ok B last' t.
Proof. intros Hle. destruct t; simpl; lia. Qed.

Lemma StronglySorted_snoc l x :
  StronglySorted Z.lt l -> Forall (fun c => c < x) l -> StronglySorted Z.lt (l ++ [x]).
Proof.
  induction 1 as [|a l Hs IH Ha]; intros Hx; simpl; [by repeat constructor|].
  inversion Hx; subst. constructor; [by apply IH|]. apply Forall_app. split; [done|by constructor].
Qed.

Lemma cas_step_inv B s s' :
  cas_step B s s' -> B + Z.of_nat (length (cs_emitted s')) < two64 -> 0 <= B ->
  cas_inv B s -> cas_inv B s'.
Proof.
  intros Hstep Hroom HB [Hl Ht Hs Hb].
  destruct Hstep as [value last ts out Hv|i value last ts out Hi|i value last ts out Hi
                    |i value seen last ts out Hi]; simpl in *.
  - split; simpl; try done. apply Forall_app. split; [done|by constructor].
  - pose proof (Forall_lookup_1 _ _ _ _ Ht Hi) as Hv. simpl in Hv.
    split; simpl; try done. by apply Forall_insert.
  - pose proof (Forall_lookup_1 _ _ _ _ Ht Hi) as Hv. simpl in Hv.
    rewrite length_app in *. simpl in *.
    destruct (next_cursor_bounds B value last Hv) as (H1 & H2 & H3); [lia..|].
    split; simpl; rewrite ?length_app; simpl.
    + lia.
    + apply Forall_insert; [|simpl; lia]. eapply Forall_impl; [exact Ht|].
      intros t. apply thread_ok_mono. lia.
    + apply StronglySorted_snoc; [done|]. eapply Forall_impl; [exact Hb|]. simpl. lia.
    + apply Forall_app. split; [|constructor; [lia|done]].
      eapply Forall_impl; [exact Hb|]. simpl. lia.
  - pose proof (Forall_lookup_1 _ _ _ _ Ht Hi) as Hv. simpl in Hv.
    split; simpl; try done. by apply Forall_insert.
Qed.

Lemma cas_emitted_mono B s s' :
  cas_step B s s' -> (length (cs_emitted s) <= length (cs_emitted s'))%nat.
Proof. intros []; simpl; rewrite ?length_app; lia. Qed.

Lemma cas_reachable_inv B s :
  0 <= B -> rtc (cas_step B) cas_init s -> B + Z.of_nat (length (cs_emitted s)) < two64 ->
  cas_inv B s.
Proof.
  intros HB Hr. revert s Hr.
  refine (rtc_ind_r (fun s => _ -> cas_inv B s) cas_init _ _); [intros Hroom|intros s s' _ Hstep IH Hroom].
  - split; simpl; try done; try lia; constructor.
  - pose proof (cas_emitted_mono _ _ _ Hstep). eapply cas_step_inv; [done..|]. apply IH. lia.
Qed.

(** C37: cursors are strictly increasing, whatever the interleaving of the
    compare-exchange loops of concurrent calls: in the order of the successful
    exchanges each emitted cursor is greater than all before it (so no two are
    equal), none is below the position it was generated from, and none exceeds
    the largest position by more than the number of cursors emitted. [B] bounds
    the positions; the 64-bit counter must have room above it for the calls. *)
Theorem cursors_strictly_increase B s :
  0 <= B -> rtc (cas_step B) cas_init s -> B + Z.of_nat (length (cs_emitted s)) < two64 ->
  StronglySorted Z.lt (cs_emitted s) /\
  Forall (fun c => 0 < c <= B + Z.of_nat (length (cs_emitted s))) (cs_emitted s) /\
  (forall i value next, cs_threads s !! i = Some (Returned value next) -> value <= next).
Proof.
  intros HB Hr Hroom. destruct (cas_reachable_inv B s HB Hr Hroom) as [Hl Ht Hs Hb].
  split_and!; [done| |].
  - eapply Forall_impl; [exact Hb|]. simpl. lia.
  - intros i value next Hi. pose proof (Forall_lookup_1 _ _ _ _ Ht Hi) as Hok. simpl in Hok. lia.
Qed.

(** Two calls for the same position: the second loads a stale value, loses the
    race, retries and gets the next cursor. *)
Lemma cursors_strictly_increase_witness : StronglySorted Z.lt [9; 10].
Proof.
  apply (cursors_strictly_increase 9
    (mkCursorState 10 [Returned 9 9; Returned 9 10] [9; 10])); [lia| |reflexivity].
  eapply rtc_l; [apply (cas_call 9 9); lia|].
  eapply rtc_l; [apply (cas_call 9 9); lia|].
  eapply rtc_l; [apply (cas_load _ 0); reflexivity|].
  eapply rtc_l; [apply (cas_load _ 1); reflexivity|].
  eapply rtc_l; [apply (cas_success _ 0); reflexivity|].
  eapply rtc_l; [eapply (cas_fail _ 1); reflexivity|].
  eapply rtc_l; [apply (cas_load _ 1); reflexivity|].
  eapply rtc_l; [apply (cas_success _ 1); reflexivity|].
  apply rtc_refl.
Defined.

(** The loop implements [generate]: a call that meets no contention takes one
    load and one successful exchange, returns the cursor [generate] computes and
    leaves [LAST_CURSOR] as [generate] does. *)
Theorem cas_uncontended_is_generate B o last rs bo ts out :
  parse_components o = Some (rs, bo) -> 0 <= offset_value rs bo <= B ->
  rtc (cas_step B) (mkCursorState last ts out)
    (mkCursorState (generate o last).1
       (ts ++ [Returned (offset_value rs bo) (generate o last).1])
       (out ++ [(generate o last).1])) /\
  (generate o last).2 = u64_to_string (generate o last).1.
Proof.
  intros Ho Hv. unfold generate. rewrite Ho. simpl. split; [|done].
  assert (forall x t, <[length ts := x]> (ts ++ [t]) = ts ++ [x]) as Hins.
  { intros x t. by rewrite insert_app_r_alt, Nat.sub_diag by lia. }
  eapply rtc_l; [by apply cas_call|].
  eapply rtc_l; [apply (cas_load _ (length ts)); by rewrite list_lookup_middle|]. rewrite Hins.
  eapply rtc_l; [apply (cas_success _ (length ts)); by rewrite list_lookup_middle|].
  rewrite Hins. apply rtc_refl.
Qed.

Lemma cas_uncontended_is_generate_witness :
  rtc (cas_step 1000000000) cas_init
    (mkCursorState 939524138 [Returned 939524138 939524138] [939524138]).
Proof.
  apply (cas_uncontended_is_generate 1000000000 (Offset_new 7 42) 0 7 42 [] []); [reflexivity|].
  split; vm_compute; discriminate.
Defined.
