(* ===== verification/JsonMode.v ===== *)
(** * JsonMode: src/protocol/json_mode.rs

    Flattening of a JSON body into messages and wrapping of stored messages into
    one array. The parser and printer of [serde_json] are the parameter
    [SerdeJson]; what is relied on of them is [SerdeJsonLaws]. *)

From S2P Require Import Prelude Errors RustStd.

(** ** serde_json *)

(** [serde_json::Value] with [from_slice] (the error as its text), [to_vec] (total
    on a [Value]) and the elements of [Value::Array]. *)
Class SerdeJson : Type := {
  Value : Type;
  from_slice : bytes -> Result string Value;
  to_vec : Value -> bytes;
  as_array : Value -> option (list Value)
}.

(** The text of a JSON array with the given element texts. *)
Fixpoint separated (ts : list bytes) : bytes :=
  match ts with
  | [] => []
  | [t] => t
  | t :: rest => t ++ [","%byte] ++ separated rest
  end.
Definition array_text (ts : list bytes) : bytes := ["["%byte] ++ separated ts ++ ["]"%byte].

(** Documented behaviour: a value that is not at the parser's recursion limit is
    printed as a text that parses to the same value, up to the precision of
    floating-point numbers ([json_equiv]); an array text parses to the array of
    its elements; the elements of a parsed array are below the limit. *)
Class SerdeJsonLaws (J : SerdeJson) : Type := {
  nestable : Value -> Prop;
  json_equiv : Value -> Value -> Prop;
  law_to_vec v :
    nestable v -> exists v', from_slice (to_vec v) = Ok v' /\ json_equiv v v' /\ nestable v';
  law_array ts vs :
    Forall2 (fun t v => from_slice t = Ok v /\ nestable v) ts vs ->
    exists a, from_slice (array_text ts) = Ok a /\ as_array a = Some vs;
  law_elements data v l : from_slice data = Ok v -> as_array v = Some l -> Forall nestable l
}.

(** ** json_mode.rs *)

Section JsonMode.
Context `{J : SerdeJson}.

(** [json_mode::process_append] *)
Definition process_append (data : bytes) : Result Error (list bytes) :=
  match from_slice data with
  | Err e => Err (InvalidJson e)
  | Ok value =>
      match as_array value with
      | Some arr =>
          match arr with
          | [] => Ok []
          | _ :: _ => Ok (map to_vec arr)
          end
      | None => Ok [to_vec value]
      end
  end.

(** The loop of [wrap_read_iter]. *)
Fixpoint wrap_loop (out : bytes) (wrote_any : bool) (messages : list bytes) : bytes :=
  match messages with
  | [] => out
  | msg :: rest =>
      let out := if wrote_any then out ++ [","%byte] else out in
      wrap_loop (out ++ msg) true rest
  end.

(** [json_mode::wrap_read_iter] *)
Definition wrap_read_iter (messages : list bytes) : Result Error bytes :=
  Ok (wrap_loop ["["%byte] false messages ++ ["]"%byte]).

(** [json_mode::wrap_read] *)
Definition wrap_read (messages : list bytes) : Result Error bytes := wrap_read_iter messages.

(** [json_mode::is_json_content_type] *)
Definition is_json_content_type (content_type : string) : bool :=
  bool_decide (content_type = "application/json").

(** ** Lemmas *)

Lemma wrap_loop_true out ts :
  wrap_loop out true ts = out ++ concat (map (fun t => ","%byte :: t) ts).
Proof.
  revert out. induction ts as [|t ts IH]; intros out; simpl; [by rewrite app_nil_r|].
  rewrite IH, <- !app_assoc. done.
Qed.

Lemma separated_cons t ts : separated (t :: ts) = t ++ concat (map (fun t => ","%byte :: t) ts).
Proof.
  revert t. induction ts as [|t' ts IH]; intros t; [simpl; by rewrite app_nil_r|].
  change (separated (t :: t' :: ts)) with (t ++ [","%byte] ++ separated (t' :: ts)).
  by rewrite IH.
Qed.

(** The loop builds the array text of the messages. *)
Lemma wrap_read_text messages : wrap_read messages = Ok (array_text messages).
Proof.
  unfold wrap_read, wrap_read_iter, array_text. f_equal. destruct messages as [|m ms]; [done|].
  cbn [wrap_loop]. rewrite wrap_loop_true, separated_cons, <- !app_assoc. done.
Qed.

(** The values a body stands for. *)
Definition flattened (v : Value) : list Value :=
  match as_array v with Some l => l | None => [v] end.

Lemma process_append_ok data msgs :
  process_append data = Ok msgs <->
  exists v, from_slice data = Ok v /\ msgs = map to_vec (flattened v).
Proof.
  unfold process_append, flattened. destruct (from_slice data) as [v|e].
  - destruct (as_array v) as [[|x l]|] eqn:Ha; split; intros Hp.
    all: first [ exists v; rewrite Ha; split; [done|by injection Hp as <-]
               | destruct Hp as (v' & [= <-] & ->); by rewrite Ha ].
  - split; [done|]. by intros (? & ? & _).
Qed.

Context `{!SerdeJsonLaws J}.

Lemma reparse_values vs :
  Forall nestable vs ->
  exists vs', Forall2 json_equiv vs vs' /\
    Forall2 (fun t v => from_slice t = Ok v /\ nestable v) (map to_vec vs) vs'.
Proof.
  induction 1 as [|v vs Hv _ (vs' & He & Hp)]; [exists []; split; constructor|].
  destruct (law_to_vec v Hv) as (v' & Hf & Heq & Hn).
  exists (v' :: vs'). split; constructor; auto.
Qed.

Lemma flattened_nestable data v :
  from_slice data = Ok v -> (as_array v = None -> nestable v) -> Forall nestable (flattened v).
Proof.
  intros Hf Hn. unfold flattened. destruct (as_array v) as [l|] eqn:Ha.
  - by eapply law_elements.
  - constructor; auto.
Qed.
End JsonMode.

(** C38: what is appended is what is read. If a sequence of JSON bodies was
    accepted, the answer that wraps all the stored messages is a JSON text that
    parses to one array, and its elements are, in order, the values of the
    bodies: the elements of each body that is an array, the value itself of each
    other body. *)
Theorem json_append_read_roundtrip {J : SerdeJson} {L : SerdeJsonLaws J} bodies values batches :
  Forall2 (fun d v => from_slice d = Ok v /\ (as_array v = None -> nestable v)) bodies values ->
  Forall2 (fun d msgs => process_append d = Ok msgs) bodies batches ->
  exists text a vs,
    wrap_read (concat batches) = Ok text /\ from_slice text = Ok a /\ as_array a = Some vs /\
    Forall2 json_equiv (concat (map flattened values)) vs.
Proof.
  intros Hv Hb.
  assert (concat batches = map to_vec (concat (map flattened values)) /\
          Forall nestable (concat (map flattened values))) as [-> Hn].
  { revert batches Hb. induction Hv as [|d v ds vs [Hd Hn] _ IH]; intros batches Hb;
      inversion Hb as [|? msgs ? bs Hm Hbs]; subst; simpl;
      [by split; [|constructor]|].
    destruct (IH bs Hbs) as [-> Hall]. apply process_append_ok in Hm as (v' & Hd' & ->).
    assert (v' = v) as -> by congruence. rewrite map_app. split; [done|]. apply Forall_app. split; [|done].
    by eapply flattened_nestable. }
  destruct (reparse_values _ Hn) as (vs' & He & Hp). destruct (law_array _ _ Hp) as (a & Ha & Harr).
  eexists _, a, vs'. rewrite wrap_read_text. split_and!; done.
Qed.

(** ** A parser for arrays of digits, which satisfies the laws *)

Module Digits.
Inductive value := Digit (b : Byte.byte) | Digits (l : list Byte.byte).

Definition is_digit (b : Byte.byte) : bool := bool_decide (is_Some (dec_value b)).

Fixpoint elements (text : bytes) : option (list Byte.byte) :=
  match text with
  | d :: sep :: rest =>
      if is_digit d then
        if decide (sep = "]"%byte) then match rest with [] => Some [d] | _ => None end
        else if decide (sep = ","%byte) then (cons d) <$> elements rest
        else None
      else None
  | _ => None
  end.

Definition parse (text : bytes) : Result string value :=
  match text with
  | [d] => if is_digit d then Ok (Digit d) else Err "expected value"
  | open :: rest =>
      if decide (open = "["%byte) then
        if decide (rest = ["]"%byte]) then Ok (Digits [])
        else match elements rest with Some l => Ok (Digits l) | None => Err "expected value" end
      else Err "expected value"
  | [] => Err "EOF while parsing a value"
  end.

Definition print (v : value) : bytes :=
  match v with Digit d => [d] | Digits l => array_text (map (fun d => [d]) l) end.

#[export] Instance json : SerdeJson := {|
  Value := value;
  from_slice := parse;
  to_vec := print;
  as_array v := match v with Digit _ => None | Digits l => Some (map Digit l) end
|}.

Definition nested (v : value) : Prop := exists d, v = Digit d /\ is_digit d = true.

Lemma elements_separated ds :
  ds <> [] -> Forall (fun d => is_digit d = true) ds ->
  elements (separated (map (fun d => [d]) ds) ++ ["]"%byte]) = Some ds.
Proof.
  intros Hne Hd. induction Hd as [|d ds Hd Hds IH]; [done|]. destruct ds as [|d' ds].
  - simpl. by rewrite Hd.
  - specialize (IH ltac:(done)).
    change (separated (map (fun d => [d]) (d :: d' :: ds)) ++ ["]"%byte])
      with (d :: ","%byte :: (separated (map (fun d => [d]) (d' :: ds)) ++ ["]"%byte])).
    revert IH. generalize (separated (map (fun d => [d]) (d' :: ds)) ++ ["]"%byte]).
    intros rest IH. cbn [elements]. by rewrite Hd, IH.
Qed.

Lemma parse_array ds :
  Forall (fun d => is_digit d = true) ds ->
  parse (array_text (map (fun d => [d]) ds)) = Ok (Digits ds).
Proof.
  intros Hd. unfold array_text. destruct ds as [|d ds]; [done|].
  assert (elements (separated (map (fun d => [d]) (d :: ds)) ++ ["]"%byte]) = Some (d :: ds)) as He
    by by apply elements_separated.
  revert He. cbn [app]. generalize (separated (map (fun d => [d]) (d :: ds)) ++ ["]"%byte]).
  intros rest He. unfold parse. destruct rest as [|x xs]; [done|].
  rewrite decide_True by done. case_decide as Hr; [by rewrite Hr in He|]. by rewrite He.
Qed.

Lemma elements_digits text ds : elements text = Some ds -> Forall (fun d => is_digit d = true) ds.
Proof.
  assert (forall n text ds, (length text <= n)%nat -> elements text = Some ds ->
            Forall (fun d => is_digit d = true) ds) as Hn; [|by apply (Hn (length text))].
  clear. intros n. induction n as [|n IH]; intros text ds Hl He.
  - by destruct text; simpl in Hl; [|lia].
  - destruct text as [|d [|sep rest]]; [done..|]. simpl in Hl. cbn [elements] in He.
    destruct (is_digit d) eqn:Hd; [|done]. case_decide.
    + destruct rest; [|done]. injection He as <-. by repeat constructor.
    + case_decide; [|done]. apply fmap_Some in He as (ds' & He & ->). constructor; [done|].
      eapply IH; [|exact He]. lia.
Qed.

Lemma parse_nested text v :
  parse text = Ok v -> nested v -> exists d, v = Digit d /\ text = [d] /\ is_digit d = true.
Proof.
  intros Hp (d & -> & Hd). exists d. split; [done|]. unfold parse in Hp.
  destruct text as [|x [|y rest]]; [done| |].
  - destruct (is_digit x) eqn:Hx; [|done]. by injection Hp as <-.
  - repeat case_decide; try done. by destruct (elements _).
Qed.

#[export] Instance laws : SerdeJsonLaws json.
Proof.
  refine {| nestable := nested; json_equiv := eq |}.
  - intros v (d & -> & Hd). exists (Digit d). simpl. rewrite Hd. by repeat esplit.
  - intros ts vs Hall.
    assert (exists ds, ts = map (fun d => [d]) ds /\ vs = map Digit ds /\
              Forall (fun d => is_digit d = true) ds) as (ds & -> & -> & Hds).
    { induction Hall as [|t v ts vs [Hp Hn] _ (ds & -> & -> & Hds)].
      - exists []. split_and!; [done..|constructor].
      - apply parse_nested in Hp as (d & -> & -> & Hd); [|done]. exists (d :: ds).
        split_and!; [done..|by constructor]. }
    exists (Digits ds). split; [by apply parse_array|done].
  - intros data v l Hp Ha. destruct v as [d|ds]; [done|]. injection Ha as <-.
    assert (Forall (fun d => is_digit d = true) ds) as Hds.
    { unfold from_slice, json, parse in Hp. destruct data as [|x [|y rest]]; [done| |].
      - by destruct (is_digit x).
      - repeat case_decide; simplify_eq; [constructor|].
        destruct (elements _) eqn:He; [|done]. injection Hp as <-. by eapply elements_digits. }
    apply Forall_map. eapply Forall_impl; [exact Hds|]. intros d Hd. by exists d.
Defined.
End Digits.

(** Two bodies, an array and a single value. *)
Lemma json_append_read_roundtrip_witness :
  wrap_read (concat [[as_bytes "1"; as_bytes "2"]; [as_bytes "3"]]) = Ok (as_bytes "[1,2,3]") /\
  exists vs, Forall2 (@json_equiv Digits.json Digits.laws)
               [Digits.Digit "1"; Digits.Digit "2"; Digits.Digit "3"] vs.
Proof.
  destruct (json_append_read_roundtrip (J := Digits.json) (L := Digits.laws)
    [as_bytes "[1,2]"; as_bytes "3"] [Digits.Digits ["1"; "2"]%byte; Digits.Digit "3"]
    [[as_bytes "1"; as_bytes "2"]; [as_bytes "3"]]) as (text & a & vs & Hw & _ & _ & He).
  - repeat constructor; try reflexivity; try discriminate. intros _. exists "3"%byte. split; reflexivity.
  - repeat constructor.
  - split; [reflexivity|]. exists vs. exact He.
Defined.
