(* ===== verification/Sse.v ===== *)
(** * Sse: src/protocol/sse.rs

    The server-sent-event frames, byte for byte, and what an event-stream client
    makes of them. Text is a list of bytes; [base64] and the string printer of
    [serde_json] are parameters; [from_utf8_lossy] of the standard library is
    modelled in full. *)

From S2P Require Import Prelude Errors Offsets RustStd.

Abbreviation CR := Byte.x0d.
Abbreviation LF := Byte.x0a.

(** ** [String::from_utf8_lossy] *)

Definition in_range (lo hi : Z) (b : Byte.byte) : bool := (lo <=? byte_val b) && (byte_val b <=? hi).
Definition is_continuation (b : Byte.byte) : bool := in_range 128 191 b.

(** The length of the sequence a lead byte announces and the range of the byte
    that must follow it. *)
Definition utf8_lead (b : Byte.byte) : option (nat * Z * Z) :=
  let v := byte_val b in
  if in_range 194 223 b then Some (1%nat, 128, 191)
  else if v =? 224 then Some (2%nat, 160, 191)
  else if in_range 225 236 b || in_range 238 239 b then Some (2%nat, 128, 191)
  else if v =? 237 then Some (2%nat, 128, 159)
  else if v =? 240 then Some (3%nat, 144, 191)
  else if in_range 241 243 b then Some (3%nat, 128, 191)
  else if v =? 244 then Some (3%nat, 128, 143)
  else None.

(** How many of the next bytes (at most [n]) continue a sequence. *)
Fixpoint continuations (n : nat) (l : bytes) : nat :=
  match n, l with
  | S n', b :: rest => if is_continuation b then S (continuations n' rest) else O
  | _, _ => O
  end.

(** The first character or maximal invalid sequence: its length and whether it is
    valid. *)
Definition utf8_next (b : Byte.byte) (rest : bytes) : nat * bool :=
  if byte_val b <? 128 then (1%nat, true)
  else
    match utf8_lead b, rest with
    | Some (n, lo, hi), c :: rest' =>
        if in_range lo hi c then
          let k := continuations (n - 1) rest' in
          (2 + k, bool_decide (k = (n - 1)%nat))%nat
        else (1%nat, false)
    | _, _ => (1%nat, false)
    end.

(** The bytes of U+FFFD. *)
Definition REPLACEMENT : bytes := [Byte.xef; Byte.xbf; Byte.xbd].

Fixpoint lossy (fuel : nat) (l : bytes) : bytes :=
  match fuel, l with
  | S fuel', b :: rest =>
      let '(k, valid) := utf8_next b rest in
      (if valid then take k (b :: rest) else REPLACEMENT) ++ lossy fuel' (drop k (b :: rest))
  | _, _ => []
  end.

(** [String::from_utf8_lossy] *)
Definition from_utf8_lossy (l : bytes) : bytes := lossy (length l) l.

(** ** Lines *)

(** [&text[a..b]] *)
Definition slice {A} (l : list A) (a b : nat) : list A := take (b - a) (drop a l).

(** The loop of [split_lines] from index [i], with the lines so far and the start
    of the current one. *)
Fixpoint split_loop (fuel : nat) (text : bytes) (lines : list bytes) (start i : nat)
  : list bytes * nat :=
  match fuel with
  | O => (lines, start)
  | S fuel' =>
      match text !! i with
      | None => (lines, start)
      | Some b =>
          if decide (b = CR) then
            let i' := (match text !! S i with
                       | Some c => if decide (c = LF) then i + 2 else i + 1
                       | None => i + 1
                       end)%nat in
            split_loop fuel' text (lines ++ [slice text start i]) i' i'
          else if decide (b = LF) then
            split_loop fuel' text (lines ++ [slice text start i]) (i + 1) (i + 1)
          else split_loop fuel' text lines start (i + 1)
      end
  end%nat.

(** [split_lines]; every round advances, so [length text] rounds are enough. *)
Definition split_lines (text : bytes) : list bytes :=
  let '(lines, start) := split_loop (length text) text [] 0 0 in
  lines ++ [drop start text].

(** ** Frames *)

(** [ControlPayload] *)
Record ControlPayload : Type := mkControlPayload {
  stream_next_offset : string;
  stream_cursor : option string;
  up_to_date : option bool;
  stream_closed : option bool
}.

(** [format_raw_data_frame] *)
Definition format_raw_data_frame (text : bytes) : bytes :=
  as_bytes "event: data" ++ [LF] ++
  concat (map (fun line => as_bytes "data:" ++ line ++ [LF]) (split_lines text)) ++ [LF].

Section Frames.
(** [base64::engine::general_purpose::STANDARD.encode] and [serde_json]'s printer
    for a string. *)
Variable base64_encode : bytes -> bytes.
Variable json_string : string -> bytes.

(** [format_data_frame] *)
Definition format_data_frame (data : bytes) (is_binary is_json : bool) : bytes :=
  let text :=
    if is_binary then base64_encode data
    else if is_json then ["["%byte] ++ from_utf8_lossy data ++ ["]"%byte]
    else from_utf8_lossy data in
  format_raw_data_frame text.

(** The batching loop of [format_data_frames], for the messages after the first
    one or from it. *)
Fixpoint array_content (first : bool) (messages : list bytes) : bytes :=
  match messages with
  | [] => []
  | msg :: rest =>
      (if first then [] else [","%byte]) ++ from_utf8_lossy msg ++ array_content false rest
  end.

(** [format_data_frames] *)
Definition format_data_frames (messages : list bytes) (is_binary is_json : bool) : bytes :=
  match messages with
  | [] => []
  | _ :: _ =>
      if is_json then
        format_raw_data_frame (["["%byte] ++ array_content true messages ++ ["]"%byte])
      else concat (map (fun msg => format_data_frame msg is_binary false) messages)
  end.

Definition json_bool (b : bool) : bytes := as_bytes (if b then "true" else "false").

(** The derived [Serialize] of [ControlPayload]: camelCase names, [None] fields
    left out. *)
Definition control_json (p : ControlPayload) : bytes :=
  let field (name : string) (v : option bytes) :=
    match v with
    | Some t => [[Byte.x22] ++ as_bytes name ++ [Byte.x22; ":"%byte] ++ t]
    | None => []
    end in
  let fields := field "streamNextOffset" (Some (json_string (stream_next_offset p))) ++
                field "streamCursor" (json_string <$> stream_cursor p) ++
                field "upToDate" (json_bool <$> up_to_date p) ++
                field "streamClosed" (json_bool <$> stream_closed p) in
  ["{"%byte] ++ concat (match fields with
                       | [] => []
                       | f :: rest => f :: map (fun g => ","%byte :: g) rest
                       end) ++ ["}"%byte].

(** [format_control_frame] *)
Definition format_control_frame (p : ControlPayload) : bytes :=
  as_bytes "event: control" ++ [LF] ++ as_bytes "data:" ++ control_json p ++ [LF; LF].
End Frames.

(** [format_keepalive_frame] *)
Definition format_keepalive_frame : bytes := [":"%byte; LF; LF].

(** [is_binary_content_type] *)
Definition is_binary_content_type (ct : string) : bool :=
  if starts_with ct "text/" then false
  else if decide (ct = "application/json") then false
  else true.

Example lossy_ascii : from_utf8_lossy (as_bytes "abc") = as_bytes "abc". Proof. reflexivity. Qed.
Example lossy_truncated :
  from_utf8_lossy [Byte.x41; Byte.xe2; Byte.x82; Byte.x41] = [Byte.x41] ++ REPLACEMENT ++ [Byte.x41].
Proof. reflexivity. Qed.
Example split_crlf :
  split_lines (as_bytes "a" ++ [CR; LF] ++ as_bytes "b" ++ [CR]) = [as_bytes "a"; as_bytes "b"; []].
Proof. reflexivity. Qed.
Example control_frame_example :
  control_json (fun s => as_bytes s) (mkControlPayload "1" None (Some true) None) =
  as_bytes "{" ++ [Byte.x22] ++ as_bytes "streamNextOffset" ++ [Byte.x22] ++ as_bytes ":1,"
    ++ [Byte.x22] ++ as_bytes "upToDate" ++ [Byte.x22] ++ as_bytes ":true}".
Proof. reflexivity. Qed.

(** ** The client *)

(** The event-stream format as a client reads it: lines end at CR LF, CR or LF; a
    line is a comment, a field, or blank; a blank line dispatches the event. *)

(** The complete lines of a text and what follows the last line end. *)
Fixpoint cut_lines (cur text : bytes) : list bytes * bytes :=
  match text with
  | [] => ([], cur)
  | c :: rest =>
      if decide (c = CR) then
        match rest with
        | d :: rest' =>
            if decide (d = LF) then let '(ls, r) := cut_lines [] rest' in (cur :: ls, r)
            else let '(ls, r) := cut_lines [] rest in (cur :: ls, r)
        | [] => ([cur], [])
        end
      else if decide (c = LF) then let '(ls, r) := cut_lines [] rest in (cur :: ls, r)
      else cut_lines (cur ++ [c]) rest
  end.

(** A field line at its first colon; one space after the colon is dropped. *)
Definition strip_space (v : bytes) : bytes :=
  match v with c :: rest => if decide (c = " "%byte) then rest else v | [] => v end.
Fixpoint field_of (line : bytes) : bytes * bytes :=
  match line with
  | [] => ([], [])
  | c :: rest =>
      if decide (c = ":"%byte) then ([], strip_space rest)
      else let '(name, value) := field_of rest in (c :: name, value)
  end.

(** The data buffer: its lines joined by LF. *)
Fixpoint unlines (ls : list bytes) : bytes :=
  match ls with [] => [] | [l] => l | l :: rest => l ++ [LF] ++ unlines rest end.

Record Event : Type := mkEvent { ev_type : bytes; ev_data : bytes }.

(** The events of a list of lines, from an event type and data lines so far. *)
Fixpoint dispatch (type : bytes) (data : list bytes) (lines : list bytes) : list Event :=
  match lines with
  | [] => []
  | [] :: rest =>
      match data with
      | [] => dispatch [] [] rest
      | _ :: _ => mkEvent type (unlines data) :: dispatch [] [] rest
      end
  | line :: rest =>
      let '(name, value) := field_of line in
      if decide (name = as_bytes "event") then dispatch value data rest
      else if decide (name = as_bytes "data") then dispatch type (data ++ [value]) rest
      else dispatch type data rest
  end.

Definition client_events (text : bytes) : list Event := dispatch [] [] (cut_lines [] text).1.

(** ** [split_lines] is the client's notion of line *)

Lemma slice_snoc {A} (l : list A) start i c :
  (start <= i)%nat -> l !! i = Some c -> slice l start (i + 1) = slice l start i ++ [c].
Proof.
  intros Hle Hc. unfold slice. replace (i + 1 - start)%nat with (S (i - start)) by lia.
  apply take_S_r. rewrite lookup_drop. by replace (start + (i - start))%nat with i by lia.
Qed.

Lemma slice_nil {A} (l : list A) i : slice l i i = [].
Proof. unfold slice. by rewrite Nat.sub_diag. Qed.

Lemma slice_all {A} (l : list A) start i :
  (length l <= i)%nat -> slice l start i = drop start l.
Proof. intros Hl. unfold slice. apply take_ge. rewrite length_drop. lia. Qed.

(** What the loop returns from index [i], in terms of the text from [i] on. *)
Lemma split_loop_cut fuel text lines start i :
  (start <= i)%nat -> (length text - i <= fuel)%nat ->
  let '(ls, s) := split_loop fuel text lines start i in
  let '(ls', r) := cut_lines (slice text start i) (drop i text) in
  ls = lines ++ ls' /\ drop s text = r.
Proof.
  revert lines start i. induction fuel as [|k IH]; intros lines start i Hsi Hf.
  - simpl. rewrite (drop_ge text i) by lia. simpl. rewrite app_nil_r.
    split; [done|]. symmetry. apply slice_all. lia.
  - cbn [split_loop]. destruct (text !! i) as [b|] eqn:Hb.
    2:{ apply lookup_ge_None in Hb. rewrite (drop_ge text i) by lia. simpl. rewrite app_nil_r.
        split; [done|]. symmetry. by apply slice_all. }
    pose proof (lookup_lt_Some _ _ _ Hb) as Hlt.
    assert (forall j, (i < j)%nat ->
      let '(ls, s) := split_loop k text (lines ++ [slice text start i]) j j in
      let '(ls', r) := (let '(ls, r) := cut_lines [] (drop j text) in (slice text start i :: ls, r)) in
      ls = lines ++ ls' /\ drop s text = r) as Hcut.
    { intros j Hj. specialize (IH (lines ++ [slice text start i]) j j ltac:(lia) ltac:(lia)).
      rewrite slice_nil in IH. destruct (split_loop _ _ _ _ _) as [ls s].
      destruct (cut_lines [] (drop j text)) as [ls' r]. by rewrite <- app_assoc in IH. }
    rewrite (drop_S text b i Hb). cbn [cut_lines].
    destruct (decide (b = CR)) as [->|Hcr]; [|destruct (decide (b = LF)) as [->|Hlf]].
    + destruct (text !! S i) as [c|] eqn:Hc.
      * rewrite (drop_S text c (S i) Hc). destruct (decide (c = LF)).
        -- specialize (Hcut (i + 2)%nat ltac:(lia)). replace (i + 2)%nat with (S (S i)) in * by lia. exact Hcut.
        -- specialize (Hcut (i + 1)%nat ltac:(lia)). replace (i + 1)%nat with (S i) in * by lia.
           rewrite (drop_S text c (S i) Hc) in Hcut. exact Hcut.
      * specialize (Hcut (i + 1)%nat ltac:(lia)). replace (i + 1)%nat with (S i) in * by lia.
        apply lookup_ge_None in Hc. rewrite (drop_ge text (S i)) in * by lia. exact Hcut.
    + specialize (Hcut (i + 1)%nat ltac:(lia)). replace (i + 1)%nat with (S i) in * by lia. exact Hcut.
    + specialize (IH lines start (i + 1)%nat ltac:(lia) ltac:(lia)).
      rewrite (slice_snoc _ _ _ _ Hsi Hb) in IH. replace (i + 1)%nat with (S i) in * by lia. exact IH.
Qed.

Lemma split_lines_cut text :
  split_lines text = (cut_lines [] text).1 ++ [(cut_lines [] text).2].
Proof.
  unfold split_lines. pose proof (split_loop_cut (length text) text [] 0 0) as H.
  destruct (split_loop _ _ _ _ _) as [ls s]. change (slice text 0 0) with (@nil Byte.byte) in H.
  rewrite drop_0 in H. destruct (cut_lines [] text) as [ls' r]. simpl.
  destruct H as [-> ->]; [lia..|]. done.
Qed.

(** ** Frames as the client sees them *)

Definition plain (l : bytes) : Prop := Forall (fun c => c <> CR /\ c <> LF) l.

Lemma cut_lines_plain text cur :
  plain cur -> Forall plain (cut_lines cur text).1 /\ plain (cut_lines cur text).2.
Proof.
  assert (forall n text cur, (length text <= n)%nat -> plain cur ->
            Forall plain (cut_lines cur text).1 /\ plain (cut_lines cur text).2) as Hn;
    [|by apply (Hn (length text))].
  clear. intros n. induction n as [|n IH]; intros text cur Hl Hc.
  - destruct text; simpl in Hl; [|lia]. by split; [constructor|].
  - destruct text as [|c rest]; [by split; [constructor|]|]. simpl in Hl. cbn [cut_lines].
    assert (forall t, (length t <= n)%nat ->
      Forall plain (let '(ls, r) := cut_lines [] t in (cur :: ls, r)).1 /\
      plain (let '(ls, r) := cut_lines [] t in (cur :: ls, r)).2) as Hcons.
    { intros t Ht. destruct (IH t [] Ht) as [H1 H2]; [constructor|].
      destruct (cut_lines [] t); simpl in *. by split; [constructor|]. }
    destruct (decide (c = CR)); [|destruct (decide (c = LF))].
    + destruct rest as [|d rest']; [by repeat constructor|].
      destruct (decide (d = LF)); apply Hcons; simpl in *; lia.
    + apply Hcons. lia.
    + apply IH; [lia|]. apply Forall_app. split; [done|by repeat constructor].
Qed.

(** Splitting leaves no line end inside a line. *)
Lemma split_lines_plain text : Forall plain (split_lines text).
Proof.
  rewrite split_lines_cut. destruct (cut_lines_plain text []) as [H1 H2]; [constructor|].
  apply Forall_app. split; [done|by constructor].
Qed.

Lemma cut_line cur l rest :
  plain l ->
  cut_lines cur (l ++ LF :: rest) =
  ((cur ++ l) :: (cut_lines [] rest).1, (cut_lines [] rest).2).
Proof.
  intros Hl. revert cur. induction Hl as [|c l [Hcr Hlf] _ IH]; intros cur; simpl.
  - rewrite app_nil_r. by destruct (cut_lines [] rest).
  - rewrite decide_False, decide_False by done. rewrite IH. by rewrite <- app_assoc.
Qed.

Lemma plain_app a b : plain (a ++ b) <-> plain a /\ plain b.
Proof. apply Forall_app. Qed.

(** Decide [plain] of a constant text. *)
Ltac solve_plain := repeat (constructor; [split; discriminate|]); constructor.

Definition data_event (text : bytes) : Event :=
  mkEvent (as_bytes "data") (unlines (map strip_space (split_lines text))).

Lemma dispatch_data_lines ls type data lines :
  dispatch type data (map (fun l => as_bytes "data:" ++ l) ls ++ lines) =
  dispatch type (data ++ map strip_space ls) lines.
Proof.
  revert data. induction ls as [|l ls IH]; intros data; simpl; [by rewrite app_nil_r|].
  rewrite IH. by rewrite <- app_assoc.
Qed.

Lemma cut_data_lines ls rest :
  Forall plain ls ->
  (cut_lines [] (concat (map (fun l => as_bytes "data:" ++ l ++ [LF]) ls) ++ rest)).1 =
  map (fun l => as_bytes "data:" ++ l) ls ++ (cut_lines [] rest).1.
Proof.
  set (F := fun l => as_bytes "data:" ++ l ++ [LF]).
  induction 1 as [|l ls Hl _ IH]; [done|].
  transitivity ((as_bytes "data:" ++ l) :: (cut_lines [] (concat (map F ls) ++ rest)).1);
    [|by rewrite IH].
  change (concat (map F (l :: ls))) with (F l ++ concat (map F ls)). rewrite <- app_assoc.
  generalize (concat (map F ls) ++ rest). intros more. unfold F.
  replace ((as_bytes "data:" ++ l ++ [LF]) ++ more) with ((as_bytes "data:" ++ l) ++ LF :: more)
    by (by rewrite <- !app_assoc).
  rewrite cut_line; [done|]. apply plain_app. split; [solve_plain|done].
Qed.

(** One frame is one event, whatever its text. *)
Lemma client_raw_frame text rest :
  client_events (format_raw_data_frame text ++ rest) = data_event text :: client_events rest.
Proof.
  unfold client_events, format_raw_data_frame. rewrite <- !app_assoc. cbn [app].
  rewrite cut_line by solve_plain. cbn [fst].
  rewrite cut_data_lines by apply split_lines_plain.
  pose proof (cut_line [] [] rest ltac:(constructor)) as Hb. cbn [app] in Hb. rewrite Hb. cbn [fst].
  etrans; [exact (dispatch_data_lines (split_lines text) (as_bytes "data") [] ([] :: _))|].
  cbn [dispatch app]. unfold data_event.
  destruct (split_lines text) as [|l ls] eqn:Hl; [|done].
  rewrite split_lines_cut in Hl. by destruct (cut_lines [] text).1.
Qed.

Lemma client_raw_frames texts rest :
  client_events (concat (map format_raw_data_frame texts) ++ rest) =
  map data_event texts ++ client_events rest.
Proof.
  induction texts as [|t ts IH]; [done|]. cbn [map concat]. rewrite <- app_assoc.
  by rewrite client_raw_frame, IH.
Qed.

(** The texts [format_data_frames] puts into frames. *)
Definition frame_texts (b64 : bytes -> bytes) (msgs : list bytes) (is_binary is_json : bool)
  : list bytes :=
  match msgs with
  | [] => []
  | _ :: _ =>
      if is_json then [["["%byte] ++ array_content true msgs ++ ["]"%byte]]
      else map (fun m => if is_binary then b64 m else from_utf8_lossy m) msgs
  end.

Lemma format_data_frames_texts b64 msgs is_binary is_json :
  format_data_frames b64 msgs is_binary is_json =
  concat (map format_raw_data_frame (frame_texts b64 msgs is_binary is_json)).
Proof.
  unfold format_data_frames, frame_texts. destruct msgs as [|m ms]; [done|].
  destruct is_json; [simpl; by rewrite app_nil_r|]. rewrite map_map.
  by destruct is_binary.
Qed.

Lemma control_json_plain js p :
  (forall s, plain (js s)) -> plain (control_json js p) /\ strip_space (control_json js p) = control_json js p.
Proof.
  intros Hjs. split; [|done]. destruct p as [o [c|] [[]|] [[]|]]; unfold control_json; simpl;
    repeat match goal with
      | |- Forall _ (_ :: _) => constructor; [split; discriminate|]
      | |- Forall _ (_ ++ _) => apply Forall_app; split
      | |- Forall _ [] => constructor
      | |- Forall _ _ => apply Hjs
      | |- plain _ => unfold plain
      end.
Qed.

Lemma client_control_frame js p rest :
  (forall s, plain (js s)) ->
  client_events (format_control_frame js p ++ rest) =
  mkEvent (as_bytes "control") (control_json js p) :: client_events rest.
Proof.
  intros Hjs. destruct (control_json_plain js p Hjs) as [Hp Hs].
  unfold client_events, format_control_frame. rewrite <- !app_assoc. cbn [app].
  rewrite cut_line by solve_plain. cbn [fst].
  replace (as_bytes "data:" ++ control_json js p ++ LF :: LF :: rest)
    with ((as_bytes "data:" ++ control_json js p) ++ LF :: LF :: rest) by by rewrite <- app_assoc.
  rewrite cut_line by (apply plain_app; split; [solve_plain|done]).
  pose proof (cut_line [] [] rest ltac:(constructor)) as Hb. cbn [app] in Hb. rewrite Hb.
  transitivity (mkEvent (as_bytes "control") (strip_space (control_json js p)) ::
                dispatch [] [] (cut_lines [] rest).1); [done|by rewrite Hs].
Qed.

(** A keep-alive comment is no event. *)
Lemma client_keepalive rest : client_events (format_keepalive_frame ++ rest) = client_events rest.
Proof.
  unfold client_events, format_keepalive_frame.
  change ([":"%byte; LF; LF] ++ rest) with ([":"%byte] ++ LF :: LF :: rest).
  rewrite cut_line by solve_plain.
  pose proof (cut_line [] [] rest ltac:(constructor)) as Hb. cbn [app] in Hb. by rewrite Hb.
Qed.

(** An answer of the SSE mode cannot be forged by the data it carries. A
    client that parses the data frames of a batch followed by the control frame
    gets exactly one [data] event per message (one for the whole batch in JSON
    mode) and then one [control] event with the payload; line ends and field
    names inside a message stay inside its event, where CR LF, CR and LF all read
    as a line break. Of [serde_json] only this is used: it escapes line ends. *)
Theorem sse_frames_parse b64 js msgs is_binary is_json p :
  (forall s, plain (js s)) ->
  client_events (format_data_frames b64 msgs is_binary is_json ++ format_control_frame js p) =
  map data_event (frame_texts b64 msgs is_binary is_json) ++
  [mkEvent (as_bytes "control") (control_json js p)].
Proof.
  intros Hjs. rewrite format_data_frames_texts, client_raw_frames. f_equal.
  rewrite <- (app_nil_r (format_control_frame js p)). by rewrite client_control_frame.
Qed.

(** A text message that tries to smuggle in a control event. *)
Lemma sse_frames_parse_witness :
  client_events (format_data_frames (fun b => b) [as_bytes "a" ++ [LF; LF] ++ as_bytes "event: control"]
                   false false ++
                 format_control_frame (fun _ => as_bytes "0") (mkControlPayload "0" None None None)) =
  [mkEvent (as_bytes "data") (as_bytes "a" ++ [LF; LF] ++ as_bytes "event: control");
   mkEvent (as_bytes "control") (control_json (fun _ => as_bytes "0") (mkControlPayload "0" None None None))].
Proof.
  rewrite (sse_frames_parse (fun b => b) (fun _ => as_bytes "0")).
  - reflexivity.
  - intros s. solve_plain.
Defined.

(** A space at the start of a line of text is lost on the way to a client:
    the frame has no space after [data:], so the client takes the message's own
    first space for the optional one and drops it. *)
Theorem sse_leading_space_lost b64 :
  client_events (format_data_frames b64 [as_bytes " indented"] false false) =
  [mkEvent (as_bytes "data") (as_bytes "indented")].
Proof. reflexivity. Qed.

(** [split_lines] finds exactly the lines of an event-stream client (CR LF, CR
    and LF all end a line), never leaves a line end inside a line, and loses
    nothing else: it agrees with the recursive definition of a client's lines
    followed by the unterminated rest. *)
Theorem split_lines_spec text :
  split_lines text = (cut_lines [] text).1 ++ [(cut_lines [] text).2] /\
  Forall (fun l => (CR ∉ l) /\ (LF ∉ l)) (split_lines text).
Proof.
  split; [apply split_lines_cut|]. eapply Forall_impl; [apply split_lines_plain|].
  intros l Hl. split; intros Hin; by destruct (proj1 (Forall_forall _ _) Hl _ Hin).
Qed.

(** ** UTF-8 *)

(** Valid UTF-8: the text is a sequence of valid characters. *)
Inductive valid_utf8 : bytes -> Prop :=
  | valid_nil : valid_utf8 []
  | valid_char b rest k :
      utf8_next b rest = (k, true) -> valid_utf8 (drop k (b :: rest)) -> valid_utf8 (b :: rest).

Lemma utf8_next_pos b rest : (1 <= (utf8_next b rest).1)%nat.
Proof. unfold utf8_next. repeat case_match; simpl; lia. Qed.

Lemma lossy_valid fuel l : valid_utf8 l -> (length l <= fuel)%nat -> lossy fuel l = l.
Proof.
  intros Hv. revert fuel. induction Hv as [|b rest k Hk _ IH]; intros fuel Hf.
  - by destruct fuel.
  - destruct fuel as [|fuel]; [simpl in Hf; lia|]. cbn [lossy]. rewrite Hk.
    pose proof (utf8_next_pos b rest) as Hpos. rewrite Hk in Hpos. simpl in Hpos.
    rewrite IH; [apply take_drop|]. rewrite length_drop. simpl in *. lia.
Qed.

(** Text mode delivers valid UTF-8 unchanged: [from_utf8_lossy] is the
    identity on it, so only invalid sequences are ever replaced. *)
Theorem from_utf8_lossy_valid l : valid_utf8 l -> from_utf8_lossy l = l.
Proof. intros Hv. by apply lossy_valid. Qed.

Lemma from_utf8_lossy_valid_witness :
  from_utf8_lossy [Byte.x41; Byte.xe2; Byte.x82; Byte.xac] = [Byte.x41; Byte.xe2; Byte.x82; Byte.xac].
Proof.
  apply from_utf8_lossy_valid.
  eapply valid_char; [reflexivity|]. eapply valid_char; [reflexivity|]. constructor.
Defined.
