(* ===== verification/Http.v ===== *)
(** * Http: what the handlers share

    The server state a handler runs on, responses up to axum's [into_response],
    the monad of handler bodies (errors through [?], panics of [unwrap]) and the
    third-party functions the handlers call, as the parameter [HttpLib]; also
    src/middleware/security.rs and src/handlers/health.rs. *)

From S2P Require Import Prelude Errors Offsets RustStd Headers StorageCore.

(** ** Third-party functions *)

(** [http::HeaderValue::from_str] and [from_bytes] (do they accept the value?)
    and what is used of [chrono]: parsing a date, [Utc::now() +
    Duration::seconds(n)] ([None] when it panics) and [to_rfc3339]. *)
Class HttpLib : Type := {
  hv_from_str : string -> bool;
  hv_from_bytes : string -> bool;
  parse_datetime : string -> Result string Z;
  add_seconds : Z -> Z -> option Z;
  to_rfc3339 : Z -> string
}.

(** Visible ASCII, which both constructors of [HeaderValue] document to accept. *)
Definition visible_ascii (s : string) : bool :=
  forallb (fun b => (32 <=? byte_val b) && (byte_val b <=? 126)) (as_bytes s).

Class HttpLibLaws `{HttpLib} : Prop := {
  law_from_str s : visible_ascii s = true -> hv_from_str s = true;
  law_from_bytes s : visible_ascii s = true -> hv_from_bytes s = true;
  law_add_seconds now n t : add_seconds now n = Some t -> t = now + n * NANOS_PER_SEC
}.

(** ** Responses *)

(** The body handed to [into_response]: nothing, text, bytes, or an event stream. *)
Inductive ResponseBody : Type :=
  | NoBody
  | TextBody (text : string)
  | BytesBody (data : bytes)
  | EventStream.

Record Response : Type := mkResponse {
  resp_status : Z;
  resp_headers : gmap string string;
  resp_body : ResponseBody
}.

(** [HeaderMap::insert]; header names are case-insensitive. *)
Definition insert_header (name value : string) (h : gmap string string) : gmap string string :=
  <[to_lowercase name := value]> h.
Definition get_header (name : string) (h : gmap string string) : option string :=
  h !! to_lowercase name.

(** ** Handler bodies *)

(** A handler returns a [Result] or panics. *)
Inductive Outcome (A : Type) : Type :=
  | Done (r : Result Error A)
  | Panicked.
Arguments Done {A} r.
Arguments Panicked {A}.

(** What the handlers share: the storage and the cursor counter of the process. *)
Record Server (S : Type) : Type := mkServer { srv_storage : S; srv_cursor : Z }.
Arguments mkServer {S} _ _.
Arguments srv_storage {S} _.
Arguments srv_cursor {S} _.

Definition HM (S A : Type) : Type := Server S -> Server S * Outcome A.

Section HandlerMonad.
Context {S : Type}.

Definition h_ret {A} (a : A) : HM S A := fun s => (s, Done (Ok a)).
Definition h_fail {A} (e : Error) : HM S A := fun s => (s, Done (Err e)).
Definition h_panic {A} : HM S A := fun s => (s, Panicked).
Definition h_lift {A} (r : Result Error A) : HM S A := fun s => (s, Done r).
Definition h_bind {A B} (c : HM S A) (k : A -> HM S B) : HM S B :=
  fun s => let '(s', o) := c s in
           match o with
           | Done (Ok a) => k a s'
           | Done (Err e) => (s', Done (Err e))
           | Panicked => (s', Panicked)
           end.

(** A call of a storage method; [try_store] keeps its [Result] for a [match]. *)
Definition store {A} (c : ST S Error A) : HM S A :=
  fun s => let '(st, r) := c (srv_storage s) in (mkServer st (srv_cursor s), Done r).
Definition try_store {A} (c : ST S Error A) : HM S (Result Error A) :=
  fun s => let '(st, r) := c (srv_storage s) in (mkServer st (srv_cursor s), Done (Ok r)).
Definition query {A} (f : S -> Result Error A) : HM S A := fun s => (s, Done (f (srv_storage s))).

Context `{HttpLib}.

(** [value.parse::<HeaderValue>().unwrap()] and
    [HeaderValue::from_bytes(value.as_bytes()).unwrap()]. *)
Definition parse_value (value : string) : HM S string :=
  if hv_from_str value then h_ret value else h_panic.
Definition bytes_value (value : string) : HM S string :=
  if hv_from_bytes value then h_ret value else h_panic.
End HandlerMonad.

Notation "'do*' x ':=' c 'in' k" := (h_bind c (fun x => k))
  (at level 10, x pattern, c at level 100, k at level 200) : rust_scope.

(** ** security.rs and health.rs *)

(** [add_security_headers], on the headers of the response it decorates. *)
Definition add_security_headers (headers : gmap string string) : gmap string string :=
  let is_sse := match get_header "content-type" headers with
                | Some ct => starts_with ct "text/event-stream"
                | None => false
                end in
  let cache_control := if is_sse then "no-cache" else "no-store" in
  insert_header "Cross-Origin-Resource-Policy" "cross-origin"
    (insert_header "X-Content-Type-Options" "nosniff"
       (insert_header "cache-control" cache_control headers)).

(** [health_check] *)
Definition health_check : Response := mkResponse 200 ∅ (TextBody "ok").

(** [impl IntoResponse for Error]: the status, and the error's text as the body. *)
Definition error_response (display : Error -> string) (e : Error) : Response :=
  mkResponse (status_code e) ∅ (TextBody (display e)).

(** ** Lemmas *)

(** *** Inversion of a handler that returned *)

Section Inversion.
Context {S : Type}.

Lemma h_bind_ok {A B} (c : HM S A) (k : A -> HM S B) s s' b :
  h_bind c k s = (s', Done (Ok b)) ->
  exists s1 a, c s = (s1, Done (Ok a)) /\ k a s1 = (s', Done (Ok b)).
Proof. unfold h_bind. destruct (c s) as [s1 [[a|e]|]]; intros Hk; try done. eauto. Qed.

Lemma h_ret_ok {A} (a b : A) (s s' : Server S) :
  h_ret a s = (s', Done (Ok b)) -> s' = s /\ b = a.
Proof. by intros [= -> ->]. Qed.

Lemma query_ok {A} (f : S -> Result Error A) s s' a :
  query f s = (s', Done (Ok a)) -> s' = s /\ f (srv_storage s) = Ok a.
Proof. unfold query. by intros [= -> ->]. Qed.

Lemma h_lift_ok {A} (r : Result Error A) (s s' : Server S) a :
  h_lift r s = (s', Done (Ok a)) -> s' = s /\ r = Ok a.
Proof. unfold h_lift. by intros [= -> ->]. Qed.

Lemma store_ok {A} (c : ST S Error A) s s' a :
  store c s = (s', Done (Ok a)) ->
  c (srv_storage s) = (srv_storage s', Ok a) /\ srv_cursor s' = srv_cursor s.
Proof. unfold store. destruct (c (srv_storage s)). by intros [= <- ->]. Qed.

Context `{HttpLib}.

Lemma parse_value_ok value (s s' : Server S) v :
  parse_value value s = (s', Done (Ok v)) -> s' = s /\ v = value.
Proof. unfold parse_value. destruct (hv_from_str value); [apply h_ret_ok|done]. Qed.

Lemma bytes_value_ok value (s s' : Server S) v :
  bytes_value value s = (s', Done (Ok v)) -> s' = s /\ v = value.
Proof. unfold bytes_value. destruct (hv_from_bytes value); [apply h_ret_ok|done]. Qed.
End Inversion.

(** Invert the run [H] of a handler body, one step at a time. *)
Ltac h_inv H :=
  repeat first
    [ apply h_ret_ok in H as [-> ->]
    | apply query_ok in H as [-> H]
    | apply h_lift_ok in H as [-> H]
    | apply parse_value_ok in H as [-> ->]
    | apply bytes_value_ok in H as [-> ->] ].
Ltac h_step H :=
  let Hc := fresh "Hc" in
  apply h_bind_ok in H as (? & ? & Hc & H); cbv beta in H; h_inv Hc.

Lemma get_insert_header name value h : get_header name (insert_header name value h) = Some value.
Proof. apply lookup_insert_eq. Qed.

Lemma get_insert_header_ne name name' value h :
  to_lowercase name <> to_lowercase name' ->
  get_header name' (insert_header name value h) = get_header name' h.
Proof. apply lookup_insert_ne. Qed.

Lemma parse_value_visible {S} `{HttpLibLaws} value (s : Server S) :
  visible_ascii value = true -> parse_value value s = (s, Done (Ok value)).
Proof. intros Hv. unfold parse_value. by rewrite law_from_str. Qed.

Lemma bytes_value_visible {S} `{HttpLibLaws} value (s : Server S) :
  visible_ascii value = true -> bytes_value value s = (s, Done (Ok value)).
Proof. intros Hv. unfold bytes_value. by rewrite law_from_bytes. Qed.

(** Every answer of the protocol routes leaves with the three security
    headers, and nothing else of it changes: caching is [no-cache] exactly for
    event streams and [no-store] otherwise, [nosniff] and [cross-origin] always,
    and every other header keeps its value, the content type included. *)
Theorem security_headers_added headers name :
  let out := add_security_headers headers in
  get_header "X-Content-Type-Options" out = Some "nosniff" /\
  get_header "Cross-Origin-Resource-Policy" out = Some "cross-origin" /\
  (get_header "Cache-Control" out = Some "no-cache" <->
   exists ct, get_header "Content-Type" headers = Some ct /\ starts_with ct "text/event-stream" = true) /\
  (get_header "Cache-Control" out = Some "no-cache" \/
   get_header "Cache-Control" out = Some "no-store") /\
  (to_lowercase name ∉ ["cache-control"; "x-content-type-options"; "cross-origin-resource-policy"] ->
   get_header name out = get_header name headers).
Proof.
  cbv zeta. unfold add_security_headers.
  change (get_header "Content-Type" headers) with (get_header "content-type" headers).
  change (insert_header "cache-control") with (insert_header "Cache-Control").
  split_and!.
  - by rewrite get_insert_header_ne, get_insert_header by done.
  - by rewrite get_insert_header by done.
  - rewrite !get_insert_header_ne by done. rewrite (get_insert_header "Cache-Control").
    destruct (get_header "content-type" headers) as [ct|]; [|by split; [|intros (? & ? & _)]].
    destruct (starts_with ct _) eqn:Hs; split; intros Hc; [by exists ct|done..|].
    destruct Hc as (ct' & [= <-] & Hc). congruence.
  - rewrite !get_insert_header_ne by done. rewrite (get_insert_header "Cache-Control").
    destruct (match get_header _ _ with Some _ => _ | None => _ end); auto.
  - intros Hn. rewrite !get_insert_header_ne; [done|..]; intros He; apply Hn; rewrite <- He; set_solver.
Qed.
