(* ===== verification/WriteHandlers.v ===== *)
(** * WriteHandlers: src/handlers/put.rs, post.rs and delete.rs

    The handlers that change streams, generic over the storage backend as the
    source is. The request is its header map and the outcome of reading its body;
    each storage call has clock readings of its own. *)

From S2P Require Import Prelude Errors Offsets RustStd Headers StorageCore JsonMode Http.

Section WriteHandlers.
Context {S : Type} `{!Storage.StorageOps S} `{!SerdeJson} `{!HttpLib}.

(** [axum::body::to_bytes(body, usize::MAX).await.map_err(..)?] *)
Definition read_body (body : Result string bytes) : HM S bytes :=
  match body with
  | Ok b => h_ret b
  | Err e => h_fail (InvalidHeader "Content-Length" ("Failed to read body: " +:+ e))
  end.

(** [headers.get(STREAM_CLOSED)...is_some_and(headers::parse_bool)] *)
Definition closed_requested (headers : HeaderMap) : bool :=
  match headers STREAM_CLOSED with Some v => parse_bool v | None => false end.

(** ** put.rs *)

(** [build_location_url] *)
Definition build_location_url (headers : HeaderMap) (name : string) : string :=
  let scheme := default "http" (headers "x-forwarded-proto") in
  let host := default "localhost"
                (match headers "x-forwarded-host" with Some h => Some h | None => headers "host" end) in
  scheme +:+ "://" +:+ host +:+ "/v1/stream/" +:+ name.

(** The content type of a PUT: optional, but not blank when given. *)
Definition put_content_type (headers : HeaderMap) : Result Error string :=
  match headers "content-type" with
  | Some ct =>
      if decide (trim ct = "") then Err (InvalidHeader "Content-Type" "empty value")
      else Ok (normalize_content_type ct)
  | None => Ok "application/octet-stream"
  end.

(** The optional TTL and expiry headers, not both. *)
Definition put_expiration (headers : HeaderMap) : Result Error (option Z * option Z) :=
  let? ttl_seconds := match headers STREAM_TTL with
                      | Some v => let? n := parse_ttl v in Ok (Some n)
                      | None => Ok None
                      end in
  let? expires_at := match headers STREAM_EXPIRES_AT with
                     | Some v => let? t := parse_expires_at parse_datetime v in Ok (Some t)
                     | None => Ok None
                     end in
  if bool_decide (is_Some ttl_seconds) && bool_decide (is_Some expires_at)
  then Err ConflictingExpiration
  else Ok (ttl_seconds, expires_at).

Definition I64_MAX : Z := 9223372036854775807.

(** The stream configuration; [now] is the reading of [Utc::now()]. Adding the TTL
    to the clock panics when [chrono] cannot represent the sum. *)
Definition put_config (now : Z) (ct : string) (ttl_seconds expires_at : option Z) (closed : bool)
  : HM S StreamConfig :=
  let config := StreamConfig_new ct in
  do* config :=
    match ttl_seconds with
    | Some ttl =>
        match add_seconds now (if ttl <=? I64_MAX then ttl else I64_MAX) with
        | Some t => h_ret (with_ttl (with_expires_at config t) ttl)
        | None => h_panic
        end
    | None =>
        match expires_at with
        | Some t => h_ret (with_expires_at config t)
        | None => h_ret config
        end
    end in
  h_ret (if closed then with_created_closed config true else config).

(** The messages of a PUT body. *)
Definition put_messages (ct : string) (body : bytes) : Result Error (list bytes) :=
  if decide (body = []) then Ok []
  else if is_json_content_type ct then process_append body
  else Ok [body].

(** The answer of [put::create_stream], once the stream is there. *)
Definition put_response (headers : HeaderMap) (name ct : string) (r : CreateWithDataResult)
  : HM S Response :=
  let status := match cw_status r with StreamCreated => 201 | StreamAlreadyExists => 200 end in
  let location := build_location_url headers name in
  do* ct_value := parse_value ct in
  do* off_value := bytes_value (as_str (cw_next_offset r)) in
  do* loc_value := parse_value location in
  let h := insert_header "location" loc_value
             (insert_header STREAM_NEXT_OFFSET off_value (insert_header "content-type" ct_value ∅)) in
  do* h := (if cw_closed r
            then do* v := parse_value "true" in h_ret (insert_header STREAM_CLOSED v h)
            else h_ret h) in
  h_ret (mkResponse status h NoBody).

(** [put::create_stream] *)
Definition put_create_stream (now : Z) (clk : Clock) (name : string) (headers : HeaderMap)
    (body : Result string bytes) : HM S Response :=
  do* body_bytes := read_body body in
  do* normalized_ct := h_lift (put_content_type headers) in
  do* expiration := h_lift (put_expiration headers) in
  let '(ttl_seconds, expires_at) := expiration in
  let created_closed := closed_requested headers in
  do* config := put_config now normalized_ct ttl_seconds expires_at created_closed in
  do* messages := h_lift (put_messages normalized_ct body_bytes) in
  do* r := store (Storage.create_stream_with_data clk name config messages created_closed) in
  put_response headers name normalized_ct r.

(** ** delete.rs *)

(** [delete::delete_stream] *)
Definition delete_stream (name : string) : HM S Response :=
  do* _ := store (Storage.delete name) in
  h_ret (mkResponse 204 ∅ NoBody).

(** ** post.rs *)

(** The header [Stream-Next-Offset] of an answer. *)
Definition with_next_offset (o : Offset) (h : gmap string string) : HM S (gmap string string) :=
  do* v := bytes_value (as_str o) in h_ret (insert_header STREAM_NEXT_OFFSET v h).

(** [headers.insert(name, value.parse().unwrap())] *)
Definition with_header (name value : string) (h : gmap string string) : HM S (gmap string string) :=
  do* v := parse_value value in h_ret (insert_header name v h).

(** [stream_closed_response] *)
Definition stream_closed_response (clk : Clock) (name : string) : HM S Response :=
  do* metadata := query (Storage.head clk name) in
  do* h := with_header STREAM_CLOSED "true" ∅ in
  do* h := with_next_offset (sm_next_offset metadata) h in
  h_ret (mkResponse 409 h (TextBody "Stream is closed")).

(** The end of [handle_non_producer_append]: close if asked, and answer. *)
Definition finish_append (clk_close : Clock) (name : string) (should_close : bool)
    (next_offset : Offset) : HM S Response :=
  do* _ := (if should_close then store (Storage.close_stream clk_close name) else h_ret tt) in
  do* h := with_next_offset next_offset ∅ in
  do* h := (if should_close then with_header STREAM_CLOSED "true" h else h_ret h) in
  h_ret (mkResponse 204 h NoBody).

(** [handle_non_producer_append]; the clocks are those of [batch_append] (or
    [head]), of [close_stream], and of the [head] of a closed stream. *)
Definition handle_non_producer_append (clk clk_close clk_head : Clock) (name : string)
    (messages : list bytes) (ct : string) (should_close : bool) (seq : option string)
  : HM S Response :=
  match messages with
  | [] =>
      do* metadata := query (Storage.head clk name) in
      finish_append clk_close name should_close (sm_next_offset metadata)
  | _ :: _ =>
      do* r := try_store (Storage.batch_append clk name messages ct seq) in
      match r with
      | Ok next_offset => finish_append clk_close name should_close next_offset
      | Err StreamClosed => stream_closed_response clk_head name
      | Err e => h_fail e
      end
  end.

(** The answer to a producer request that storage accepted or recognised. *)
Definition producer_response (is_close_only : bool) (result : ProducerAppendResult)
  : HM S Response :=
  let '(status, epoch, seq, next_offset, closed) :=
    match result with
    | Accepted epoch seq next_offset closed =>
        ((if is_close_only then 204 else 200), epoch, seq, next_offset, closed)
    | Duplicate epoch seq next_offset closed => (204, epoch, seq, next_offset, closed)
    end in
  do* h := with_next_offset next_offset ∅ in
  do* h := with_header PRODUCER_EPOCH (u64_to_string epoch) h in
  do* h := with_header PRODUCER_SEQ (u64_to_string seq) h in
  do* h := (if closed then with_header STREAM_CLOSED "true" h else h_ret h) in
  h_ret (mkResponse status h NoBody).

(** [handle_producer_append] *)
Definition handle_producer_append (clk clk_head : Clock) (name : string) (messages : list bytes)
    (ct : string) (producer : ProducerHeaders) (should_close is_close_only : bool)
    (seq : option string) : HM S Response :=
  do* r := try_store (Storage.append_with_producer clk name messages ct producer should_close seq) in
  match r with
  | Ok result => producer_response is_close_only result
  | Err StreamClosed => stream_closed_response clk_head name
  | Err (EpochFenced current _) =>
      do* h := with_header PRODUCER_EPOCH (u64_to_string current) ∅ in
      h_ret (mkResponse 403 h (TextBody "Producer epoch fenced"))
  | Err (SequenceGap expected actual) =>
      do* h := with_header PRODUCER_EXPECTED_SEQ (u64_to_string expected) ∅ in
      do* h := with_header PRODUCER_RECEIVED_SEQ (u64_to_string actual) h in
      h_ret (mkResponse 409 h (TextBody "Producer sequence gap"))
  | Err e => h_fail e
  end.

(** The content type of a POST: required unless the request only closes. *)
Definition post_content_type (headers : HeaderMap) (is_close_only : bool) : Result Error string :=
  match headers "content-type" with
  | Some ct => Ok (normalize_content_type ct)
  | None => if is_close_only then Ok ""
            else Err (InvalidHeader "Content-Type" "missing required header")
  end.

(** The messages of a POST body. *)
Definition post_messages (ct : string) (body : bytes) (should_close : bool)
  : Result Error (list bytes) :=
  if decide (body = []) then Ok []
  else if is_json_content_type ct then
    let? parsed := process_append body in
    if bool_decide (parsed = []) && negb should_close
    then Err (InvalidJson "empty arrays are not permitted")
    else Ok parsed
  else Ok [body].

(** [post::append_data] *)
Definition post_append_data (clk clk_close clk_head : Clock) (name : string) (headers : HeaderMap)
    (body : Result string bytes) : HM S Response :=
  do* body_bytes := read_body body in
  let should_close := closed_requested headers in
  let is_close_only := bool_decide (body_bytes = []) && should_close in
  do* normalized_ct := h_lift (post_content_type headers is_close_only) in
  do* producer_headers := h_lift (parse_producer_headers headers) in
  let stream_seq := headers STREAM_SEQ in
  if bool_decide (body_bytes = []) && negb should_close then
    h_fail (InvalidHeader "Content-Length" "empty body requires Stream-Closed header")
  else
    do* messages := h_lift (post_messages normalized_ct body_bytes should_close) in
    match producer_headers with
    | Some prod =>
        handle_producer_append clk clk_head name messages normalized_ct prod should_close
          is_close_only stream_seq
    | None =>
        handle_non_producer_append clk clk_close clk_head name messages normalized_ct should_close
          stream_seq
    end.
End WriteHandlers.
