(* ===== verification/ReadHandlers.v ===== *)
(** * ReadHandlers: src/handlers/head.rs and get.rs

    The handlers that read streams: metadata, catch-up reads with entity tags, and
    long polls in the two phases that the wait separates. *)

From S2P Require Import Prelude Errors Offsets RustStd Headers Cursor StorageCore JsonMode Sse.
From S2P Require Import Http.

Section ReadHandlers.
Context {S : Type} `{!Storage.StorageOps S} `{!SerdeJson} `{!HttpLib}.

(** ** head.rs *)

(** [(expires_at - now).num_seconds()]: whole seconds, truncated towards zero. *)
Definition num_seconds (expires_at now : Z) : Z := Z.quot (expires_at - now) NANOS_PER_SEC.

(** [head::stream_metadata]; [now] is the reading of its own [Utc::now()]. *)
Definition stream_metadata (now : Z) (clk : Clock) (name : string) : HM S Response :=
  do* metadata := query (Storage.head clk name) in
  do* ct := parse_value (content_type (sm_config metadata)) in
  do* off := bytes_value (as_str (sm_next_offset metadata)) in
  let h := insert_header STREAM_NEXT_OFFSET off (insert_header "content-type" ct ∅) in
  do* h := (if sm_closed metadata
            then do* v := parse_value "true" in h_ret (insert_header STREAM_CLOSED v h)
            else h_ret h) in
  do* h := (match expires_at (sm_config metadata) with
            | Some t =>
                let remaining_seconds := num_seconds t now in
                if 0 <? remaining_seconds then
                  do* ttl := parse_value (u64_to_string remaining_seconds) in
                  do* exp := parse_value (to_rfc3339 t) in
                  h_ret (insert_header STREAM_EXPIRES_AT exp (insert_header STREAM_TTL ttl h))
                else h_ret h
            | None => h_ret h
            end) in
  h_ret (mkResponse 200 h NoBody).

(** ** get.rs *)

(** [ReadQuery]; the [cursor] parameter is accepted and ignored. *)
Record ReadQuery : Type := mkReadQuery {
  q_offset : option string;
  q_live : option string;
  q_cursor : option string
}.

Definition DQUOTE : string := of_bytes [Byte.x22].

(** [generate_etag] *)
Definition generate_etag (start_offset : string) (r : ReadResult) : string :=
  let end_offset := as_str (rr_next_offset r) in
  if rr_closed r && rr_at_tail r
  then DQUOTE +:+ start_offset +:+ ":" +:+ end_offset +:+ ":c" +:+ DQUOTE
  else DQUOTE +:+ start_offset +:+ ":" +:+ end_offset +:+ DQUOTE.

(** [build_304_response] *)
Definition build_304_response (r : ReadResult) : HM S Response :=
  do* off := bytes_value (as_str (rr_next_offset r)) in
  do* up := parse_value "true" in
  h_ret (mkResponse 304
           (insert_header STREAM_UP_TO_DATE up (insert_header STREAM_NEXT_OFFSET off ∅)) NoBody).

(** [build_body]: the array of the messages in JSON mode, else their concatenation. *)
Definition build_body (r : ReadResult) (ct : string) : Result Error bytes :=
  if is_json_content_type ct then wrap_read_iter (rr_messages r)
  else match rr_messages r with
       | [] => Ok []
       | _ :: _ => Ok (concat (rr_messages r))
       end.

(** [build_data_response] *)
Definition build_data_response (r : ReadResult) (ct etag : string) (cursor_val : option string)
  : HM S Response :=
  do* body := h_lift (build_body r ct) in
  do* ctv := parse_value ct in
  do* off := bytes_value (as_str (rr_next_offset r)) in
  do* up := parse_value (if rr_at_tail r then "true" else "false") in
  do* etagv := parse_value etag in
  let h := insert_header "etag" etagv (insert_header STREAM_UP_TO_DATE up
             (insert_header STREAM_NEXT_OFFSET off (insert_header "content-type" ctv ∅))) in
  do* h := (if rr_closed r && rr_at_tail r
            then do* v := parse_value "true" in h_ret (insert_header STREAM_CLOSED v h)
            else h_ret h) in
  do* h := (match cursor_val with
            | Some c => do* v := parse_value c in h_ret (insert_header STREAM_CURSOR v h)
            | None => h_ret h
            end) in
  h_ret (mkResponse 200 h (BytesBody body)).

(** [cursor::generate] on the process-wide counter. *)
Definition generate_cursor (o : Offset) : HM S string :=
  fun s => let '(last, c) := generate o (srv_cursor s) in
           (mkServer (srv_storage s) last, Done (Ok c)).

(** [build_204_response] *)
Definition build_204_response (next_offset : Offset) (is_closed : bool) : HM S Response :=
  do* off := bytes_value (as_str next_offset) in
  do* up := parse_value "true" in
  let h := insert_header STREAM_UP_TO_DATE up (insert_header STREAM_NEXT_OFFSET off ∅) in
  do* cursor_val := generate_cursor next_offset in
  do* h := (if is_closed then do* v := parse_value "true" in h_ret (insert_header STREAM_CLOSED v h)
            else h_ret h) in
  do* c := parse_value cursor_val in
  h_ret (mkResponse 204 (insert_header STREAM_CURSOR c h) NoBody).

(** [if let Some(client_etag) = if_none_match && client_etag == etag] *)
Definition etag_matches (if_none_match : option string) (etag : string) : bool :=
  bool_decide (if_none_match = Some etag).

(** [read_catch_up] *)
Definition read_catch_up (clk : Clock) (name : string) (offset : Offset) (raw_offset : string)
    (if_none_match : option string) (ct : string) : HM S Response :=
  do* r := query (Storage.read clk name offset) in
  let etag := generate_etag raw_offset r in
  if etag_matches if_none_match etag then build_304_response r
  else build_data_response r ct etag None.

(** *** Long poll *)

(** What a long poll does before it would wait: answer, or wait on a receiver for
    news after a resolved tail offset. *)
Inductive PollStart : Type :=
  | PollAnswer (r : Response)
  | PollWait (receiver : Receiver) (tail : Offset).

(** [storage.subscribe(name).ok_or_else(|| NotFound)?] *)
Definition subscribe_or_404 (clk : Clock) (name : string) : HM S Receiver :=
  fun s => let '(st, rx) := Storage.subscribe clk name (srv_storage s) in
           (mkServer st (srv_cursor s), Done (ok_or rx (NotFound name))).

(** [read_long_poll] up to the [select!]. *)
Definition long_poll_start (clk_sub clk : Clock) (name : string) (offset : Offset)
    (raw_offset : string) (if_none_match : option string) (ct : string) : HM S PollStart :=
  do* receiver := subscribe_or_404 clk_sub name in
  do* r := query (Storage.read clk name offset) in
  let etag := generate_etag raw_offset r in
  if etag_matches if_none_match etag then
    do* resp := build_304_response r in h_ret (PollAnswer resp)
  else if negb (bool_decide (rr_messages r = [])) then
    do* cursor_val := generate_cursor (rr_next_offset r) in
    do* resp := build_data_response r ct etag (Some cursor_val) in h_ret (PollAnswer resp)
  else if rr_closed r && rr_at_tail r then
    do* resp := build_204_response (rr_next_offset r) true in h_ret (PollAnswer resp)
  else h_ret (PollWait receiver (rr_next_offset r)).

(** [handle_long_poll_wake], the branch of the [select!] for a notification. *)
Definition handle_long_poll_wake (clk : Clock) (name : string) (offset : Offset)
    (raw_offset ct : string) : HM S Response :=
  do* r := query (Storage.read clk name offset) in
  match rr_messages r with
  | [] => build_204_response (rr_next_offset r) (rr_closed r && rr_at_tail r)
  | _ :: _ =>
      let etag := generate_etag raw_offset r in
      do* cursor_val := generate_cursor (rr_next_offset r) in
      build_data_response r ct etag (Some cursor_val)
  end.

(** The other branch: the timeout. *)
Definition long_poll_timeout (clk : Clock) (name : string) (tail : Offset) : HM S Response :=
  do* r := query (Storage.read clk name tail) in
  build_204_response (rr_next_offset r) (rr_closed r && rr_at_tail r).

(** *** SSE control payload and the mode switch *)

(** [build_sse_control] *)
Definition build_sse_control (r : ReadResult) : HM S ControlPayload :=
  let is_closed_at_tail := rr_closed r && rr_at_tail r in
  do* cursor := (if is_closed_at_tail then h_ret None
                 else do* c := generate_cursor (rr_next_offset r) in h_ret (Some c)) in
  h_ret (mkControlPayload (as_str (rr_next_offset r)) cursor
           (if rr_at_tail r then Some true else None)
           (if is_closed_at_tail then Some true else None)).

(** [read_sse] up to the construction of the stream: the answer, with what the
    stream starts from. *)
Definition read_sse (clk_sub clk : Clock) (name : string) (offset : Offset) (ct : string)
  : HM S (Response * ReadResult * Receiver) :=
  let is_binary := is_binary_content_type ct in
  do* receiver := subscribe_or_404 clk_sub name in
  do* r := query (Storage.read clk name offset) in
  do* v := parse_value "text/event-stream" in
  let h := insert_header "content-type" v ∅ in
  do* h := (if is_binary
            then do* b := parse_value "base64" in h_ret (insert_header "stream-sse-data-encoding" b h)
            else h_ret h) in
  h_ret (mkResponse 200 h EventStream, r, receiver).

(** The offset a GET reads from: live modes require one, catch-up defaults to -1. *)
Definition resolve_offset (q : ReadQuery) : Result Error string :=
  match q_live q with
  | Some live =>
      ok_or (q_offset q) (InvalidHeader "offset"
        ("offset query parameter is required for live=" +:+ live +:+ " mode"))
  | None => Ok (default "-1" (q_offset q))
  end.

(** What a GET turns into: an answer, a wait, or an event stream. *)
Inductive GetResult : Type :=
  | GetAnswer (r : Response)
  | GetWait (receiver : Receiver) (tail : Offset) (ct : string)
  | GetEvents (r : Response) (initial : ReadResult) (receiver : Receiver).

(** [get::read_stream]; the clocks are those of [head], [subscribe] and [read]. *)
Definition read_stream (clk_head clk_sub clk : Clock) (name : string) (q : ReadQuery)
    (headers : HeaderMap) : HM S GetResult :=
  do* raw_offset := h_lift (resolve_offset q) in
  do* offset := h_lift (from_str raw_offset) in
  do* metadata := query (Storage.head clk_head name) in
  let ct := content_type (sm_config metadata) in
  match q_live q with
  | Some live =>
      if decide (live = "long-poll") then
        do* p := long_poll_start clk_sub clk name offset raw_offset (headers "if-none-match") ct in
        h_ret (match p with
               | PollAnswer r => GetAnswer r
               | PollWait rx tail => GetWait rx tail ct
               end)
      else if decide (live = "sse") then
        do* x := read_sse clk_sub clk name offset ct in
        let '(resp, initial, rx) := x in h_ret (GetEvents resp initial rx)
      else h_fail (InvalidHeader "live" ("unsupported live mode: " +:+ live))
  | None =>
      do* resp := read_catch_up clk name offset raw_offset (headers "if-none-match") ct in
      h_ret (GetAnswer resp)
  end.
End ReadHandlers.
