(* ===== verification/LogSpec.v ===== *)
(** * LogSpec: what a storage backend promises

    The abstract state of a backend is a finite map from stream names to logs
    ([AStream]); the operations of the [Storage] trait are given on it as short
    reference definitions. [LawfulStorage] says that a backend implements them:
    clients are verified against that class, backends discharge it. *)

From S2P Require Import Prelude Errors Offsets RustStd Headers StorageCore.

(** ** Logs *)

(** Total payload of a list of messages, in bytes. *)
Fixpoint payload (msgs : list bytes) : Z :=
  match msgs with [] => 0 | m :: rest => Z.of_nat (length m) + payload rest end.

(** Message [i] sits at offset [(i, payload of the first i messages)]. *)
Fixpoint place (rs bo : Z) (msgs : list bytes) : list (Offset * bytes) :=
  match msgs with
  | [] => []
  | m :: rest => (Offset_new rs bo, m) :: place (rs + 1) (bo + Z.of_nat (length m)) rest
  end.

(** The offset the next message will get. *)
Definition tail_offset (msgs : list bytes) : Offset :=
  Offset_new (Z.of_nat (length msgs)) (payload msgs).

(** The messages at or after an offset. *)
Definition messages_from (from : Offset) (msgs : list bytes) : list bytes :=
  (filter (fun om => offset_cmp om.1 from <> Lt) (place 0 0 msgs)).*2.

Record AStream : Type := mkAStream {
  a_config : StreamConfig;
  a_msgs : list bytes;
  a_closed : bool;
  a_created_at : Z;
  a_producers : gmap string ProducerState;
  a_last_seq : option string
}.

Abbreviation View := (gmap string AStream).

Definition a_next_offset (a : AStream) : Offset := tail_offset (a_msgs a).

(** ** Reference operations *)

(** A stream that can be used now. *)
Definition live_stream (clk : Clock) (name : string) (v : View) : Result Error AStream :=
  match v !! name with
  | None => Err (NotFound name)
  | Some a => if is_stream_expired (clk 0%nat) (a_config a) then Err StreamExpired else Ok a
  end.

Definition spec_read (clk : Clock) (name : string) (from : Offset) (v : View)
  : Result Error ReadResult :=
  let? a := live_stream clk name v in
  Ok (mkReadResult
        (match from with
         | Now => []
         | Start => a_msgs a
         | Concrete _ _ _ => messages_from from (a_msgs a)
         end) (a_next_offset a) true (a_closed a)).

Definition spec_head (clk : Clock) (name : string) (v : View) : Result Error StreamMetadata :=
  let? a := live_stream clk name v in
  Ok (mkStreamMetadata (a_config a) (a_next_offset a) (a_closed a) (payload (a_msgs a))
        (Z.of_nat (length (a_msgs a))) (a_created_at a)).

Definition spec_delete (name : string) (v : View) : View * Result Error unit :=
  match v !! name with
  | None => (v, Err (NotFound name))
  | Some _ => (delete name v, Ok tt)
  end.

(** Add a batch at the tail and record its [Stream-Seq]. *)
Definition log_append (a : AStream) (msgs : list bytes) (seq : option string) : AStream :=
  mkAStream (a_config a) (a_msgs a ++ msgs) (a_closed a) (a_created_at a) (a_producers a)
    (match seq with Some s => Some s | None => a_last_seq a end).

Definition log_close (a : AStream) : AStream :=
  mkAStream (a_config a) (a_msgs a) true (a_created_at a) (a_producers a) (a_last_seq a).

Definition log_set_producers (a : AStream) (p : gmap string ProducerState) : AStream :=
  mkAStream (a_config a) (a_msgs a) (a_closed a) (a_created_at a) p (a_last_seq a).

(** The checks every plain append makes, in order. *)
Definition appendable (clk : Clock) (name : string) (ct : string) (v : View)
  : Result Error AStream :=
  let? a := live_stream clk name v in
  if a_closed a then Err StreamClosed
  else let? _ := validate_content_type (content_type (a_config a)) ct in Ok a.

Definition update_view {A} (v : View) (name : string) (r : Result Error (AStream * A))
  : View * Result Error A :=
  match r with Ok (a, x) => (<[name := a]> v, Ok x) | Err e => (v, Err e) end.

Definition spec_append (clk : Clock) (name : string) (data : bytes) (ct : string) (v : View)
  : View * Result Error Offset :=
  update_view v name
    (let? a := appendable clk name ct v in
     Ok (log_append a [data] None, a_next_offset a)).

Definition spec_batch_append (clk : Clock) (name : string) (msgs : list bytes) (ct : string)
    (seq : option string) (v : View) : View * Result Error Offset :=
  update_view v name
    (if decide (msgs = []) then Err (InvalidHeader "Content-Length" "batch cannot be empty")
     else
       let? a := appendable clk name ct v in
       let? _ := validate_seq (a_last_seq a) seq in
       let a' := log_append a msgs seq in
       Ok (a', a_next_offset a')).

Definition spec_close (clk : Clock) (name : string) (v : View) : View * Result Error unit :=
  update_view v name (let? a := live_stream clk name v in Ok (log_close a, tt)).

(** The log after an accepted producer request. *)
Definition log_accept (a : AStream) (msgs : list bytes) (p : ProducerHeaders) (close : bool)
    (seq : option string) (now : Z) : AStream :=
  let a1 := log_append a msgs seq in
  let a2 := if close then log_close a1 else a1 in
  log_set_producers a2
    (<[ph_id p := mkProducerState (ph_epoch p) (ph_seq p) now]> (a_producers a)).

(** The decision on a producer request for a live log with no stale producers. *)
Definition log_produce (a : AStream) (msgs : list bytes) (ct : string) (p : ProducerHeaders)
    (close : bool) (seq : option string) (now : Z)
  : Result Error (AStream * ProducerAppendResult) :=
  let? _ := (if decide (msgs = []) then Ok tt
             else validate_content_type (content_type (a_config a)) ct) in
  let? check := check_producer (a_producers a !! ph_id p) p (a_closed a) in
  match check with
  | CheckDuplicate e q => Ok (a, Duplicate e q (a_next_offset a) (a_closed a))
  | CheckAccept =>
      let? _ := validate_seq (a_last_seq a) seq in
      let a' := log_accept a msgs p close seq now in
      Ok (a', Accepted (ph_epoch p) (ph_seq p) (a_next_offset a') (a_closed a'))
  end.

(** Forget the producers that have been silent for too long. *)
Definition log_tidy (clk : Clock) (a : AStream) : AStream :=
  log_set_producers a (cleanup_stale_producers (clk 1%nat) (a_producers a)).

(** A duplicate changes nothing; dropping the stale producers is housekeeping. *)
Definition unless_duplicate (a : AStream) (out : AStream * ProducerAppendResult)
  : AStream * ProducerAppendResult :=
  match out.2 with Duplicate _ _ _ _ => (a, out.2) | Accepted _ _ _ _ => out end.

Definition spec_append_with_producer (clk : Clock) (name : string) (msgs : list bytes)
    (ct : string) (p : ProducerHeaders) (should_close : bool) (seq : option string) (v : View)
  : View * Result Error ProducerAppendResult :=
  update_view v name
    (let? a := live_stream clk name v in
     let? out := log_produce (log_tidy clk a) msgs ct p should_close seq (clk 2%nat) in
     Ok (unless_duplicate a out)).

Definition new_stream (clk : Clock) (config : StreamConfig) (msgs : list bytes)
    (closed : bool) : AStream :=
  mkAStream config msgs closed (clk 1%nat) ∅ None.

Definition spec_create_with_data (clk : Clock) (name : string) (config : StreamConfig)
    (msgs : list bytes) (should_close : bool) (v : View)
  : View * Result Error CreateWithDataResult :=
  match live_stream clk name v with
  | Ok a =>
      if config_eq (a_config a) config
      then (v, Ok (mkCreateWithData StreamAlreadyExists (a_next_offset a) (a_closed a)))
      else (v, Err ConfigMismatch)
  | Err _ =>
      (<[name := new_stream clk config msgs should_close]> v,
       Ok (mkCreateWithData StreamCreated (tail_offset msgs) should_close))
  end.

Definition spec_create (clk : Clock) (name : string) (config : StreamConfig) (v : View)
  : View * Result Error CreateStreamResult :=
  match live_stream clk name v with
  | Ok a => if config_eq (a_config a) config then (v, Ok StreamAlreadyExists)
            else (v, Err ConfigMismatch)
  | Err _ => (<[name := new_stream clk config [] false]> v, Ok StreamCreated)
  end.

Definition spec_exists (clk : Clock) (name : string) (v : View) : bool :=
  is_ok (live_stream clk name v).

(** ** Refinement *)

(** Errors that report a lack of resources rather than a protocol condition; the
    last one is the answer of a backend whose records cannot hold the message. *)
Definition resource_error (e : Error) : bool :=
  match e with
  | MemoryLimitExceeded | StreamSizeLimitExceeded | StorageError _ => true
  | InvalidHeader _ reason => bool_decide (reason = "message too large for file record format")
  | _ => false
  end.

(** State a backend may drop as a side effect of touching a stream: an expired
    stream, or the stale producer states of the stream. *)
Inductive housekeeping (clk : Clock) (name : string) (v : View) : View -> Prop :=
  | hk_none : housekeeping clk name v v
  | hk_expired a :
      v !! name = Some a -> is_stream_expired (clk 0%nat) (a_config a) = true ->
      housekeeping clk name v (delete name v)
  | hk_stale a :
      v !! name = Some a ->
      housekeeping clk name v
        (<[name := log_tidy clk a]> v).

(** A batch that fits the address space together with the stream it goes to. *)
Definition fits (v : View) (name : string) (msgs : list bytes) : Prop :=
  payload msgs <= ISIZE_MAX /\
  Z.of_nat (length msgs) < two64 /\
  forall a, v !! name = Some a -> Z.of_nat (length (a_msgs a) + length msgs) < two64.

(** A batch that has some bytes if it has messages; the handlers send no other. *)
Definition sized (msgs : list bytes) : Prop := msgs = [] \/ 0 < payload msgs.

(** The outcome [(v', r)] of an operation on view [v]: what the reference
    operation gives, up to housekeeping, unless resources ran out. *)
Definition refined {A} (clk : Clock) (name : string) (spec : View -> View * Result Error A)
    (v v' : View) (r : Result Error A) : Prop :=
  exists v0, housekeeping clk name v v0 /\
    ((v', r) = spec v0 \/ (v' = v0 /\ exists e, r = Err e /\ resource_error e = true)).

(** The contract between a backend and its clients. *)
Class LawfulStorage (S : Type) `{!Storage.StorageOps S} : Type := {
  (** the invariant of the backend's states and what they represent *)
  backend_inv : S -> Prop;
  view : S -> View;
  (** every log ends at an offset the protocol can express *)
  law_bounded s name a :
    backend_inv s -> view s !! name = Some a -> offset_wf (a_next_offset a);
  law_read s clk name o :
    backend_inv s -> offset_wf o -> Storage.read clk name o s = spec_read clk name o (view s);
  law_head s clk name :
    backend_inv s -> Storage.head clk name s = spec_head clk name (view s);
  law_exists s clk name :
    backend_inv s -> Storage.stream_exists clk name s = spec_exists clk name (view s);
  law_subscribe s clk name :
    backend_inv s ->
    let '(s', rx) := Storage.subscribe clk name s in
    backend_inv s' /\ view s' = view s /\ (is_Some rx <-> spec_exists clk name (view s) = true);
  law_delete s name :
    backend_inv s ->
    let '(s', r) := Storage.delete name s in
    backend_inv s' /\ (view s', r) = spec_delete name (view s);
  law_close s clk name :
    backend_inv s ->
    let '(s', r) := Storage.close_stream clk name s in
    backend_inv s' /\ refined clk name (spec_close clk name) (view s) (view s') r;
  law_append s clk name data ct :
    backend_inv s -> fits (view s) name [data] ->
    let '(s', r) := Storage.append clk name data ct s in
    backend_inv s' /\ refined clk name (spec_append clk name data ct) (view s) (view s') r;
  law_batch_append s clk name msgs ct seq :
    backend_inv s -> fits (view s) name msgs ->
    let '(s', r) := Storage.batch_append clk name msgs ct seq s in
    backend_inv s' /\
    refined clk name (spec_batch_append clk name msgs ct seq) (view s) (view s') r;
  law_append_with_producer s clk name msgs ct p close seq :
    backend_inv s -> fits (view s) name msgs ->
    let '(s', r) := Storage.append_with_producer clk name msgs ct p close seq s in
    backend_inv s' /\
    refined clk name (spec_append_with_producer clk name msgs ct p close seq)
      (view s) (view s') r;
  law_create_with_data s clk name config msgs close :
    backend_inv s -> fits (view s) name msgs -> sized msgs ->
    let '(s', r) := Storage.create_stream_with_data clk name config msgs close s in
    backend_inv s' /\
    refined clk name (spec_create_with_data clk name config msgs close) (view s) (view s') r;
  law_create s clk name config :
    backend_inv s ->
    let '(s', r) := Storage.create_stream clk name config s in
    backend_inv s' /\ refined clk name (spec_create clk name config) (view s) (view s') r
}.

(** ** Lemmas on logs *)

Lemma payload_nonneg msgs : 0 <= payload msgs.
Proof. induction msgs; simpl; lia. Qed.

Lemma payload_app l1 l2 : payload (l1 ++ l2) = payload l1 + payload l2.
Proof. induction l1 as [|m l IH]; simpl; [done|rewrite IH; lia]. Qed.

Lemma place_app rs bo l1 l2 :
  place rs bo (l1 ++ l2) =
  place rs bo l1 ++ place (rs + Z.of_nat (length l1)) (bo + payload l1) l2.
Proof.
  revert rs bo. induction l1 as [|m l IH]; intros rs bo; simpl.
  - by rewrite !Z.add_0_r.
  - rewrite IH. do 3 f_equal; lia.
Qed.

Lemma place_data rs bo msgs : (place rs bo msgs).*2 = msgs.
Proof. revert rs bo. induction msgs as [|m l IH]; intros; simpl; [done|by rewrite IH]. Qed.

Lemma place_lookup rs bo msgs i om :
  place rs bo msgs !! i = Some om ->
  om.1 = Offset_new (rs + Z.of_nat i) (bo + payload (take i msgs)) /\ msgs !! i = Some om.2.
Proof.
  revert rs bo i. induction msgs as [|m l IH]; intros rs bo [|i] Hi; simplify_eq/=.
  - by rewrite !Z.add_0_r.
  - apply IH in Hi as [-> ?]. split; [f_equal; lia|done].
Qed.

Lemma payload_take_mono msgs i j : (i <= j)%nat -> payload (take i msgs) <= payload (take j msgs).
Proof.
  revert i j. induction msgs as [|m l IH]; intros [|i] [|j] Hij; simpl; try lia.
  - pose proof (payload_nonneg (take j l)). lia.
  - specialize (IH i j ltac:(lia)). lia.
Qed.

(** The offsets of a log increase strictly. *)
Lemma place_sorted rs bo msgs i j a b :
  place rs bo msgs !! i = Some a -> place rs bo msgs !! j = Some b -> (i < j)%nat ->
  offset_cmp a.1 b.1 = Lt.
Proof.
  intros [-> _]%place_lookup [-> _]%place_lookup Hij.
  unfold offset_cmp; simpl. apply pair_cmp_lt; simpl. lia.
Qed.

(** Reading from the offset of message [i] gives the messages from [i] on. *)
Lemma messages_from_index msgs i :
  (i <= length msgs)%nat ->
  messages_from (Offset_new (Z.of_nat i) (payload (take i msgs))) msgs = drop i msgs.
Proof.
  intros Hi. unfold messages_from. rewrite (filter_from_index _ _ i).
  - rewrite <- (place_data 0 0 msgs) at 2. by rewrite fmap_drop.
  - intros j om Hj. apply place_lookup in Hj as [-> Hj]. unfold offset_cmp; simpl.
    rewrite pair_cmp_lt. simpl.
    destruct (decide (i <= j)%nat) as [Hle|Hgt]; [|split; [intros Hn|]; lia].
    pose proof (payload_take_mono msgs i j Hle). split; [done|]. intros _. lia.
Qed.

Lemma messages_from_tail msgs more : messages_from (tail_offset msgs) (msgs ++ more) = more.
Proof.
  unfold tail_offset. rewrite <- (take_app_length msgs more) at 2.
  rewrite messages_from_index, drop_app_length; [done|]. rewrite length_app. lia.
Qed.

Lemma fits_u64 v name msgs :
  fits v name msgs ->
  payload msgs < two64 /\ Z.of_nat (length msgs) < two64 /\
  forall a, v !! name = Some a -> Z.of_nat (length (a_msgs a) + length msgs) < two64.
Proof. intros (Hp & ? & ?). split_and!; [unfold ISIZE_MAX, two64 in *; lia|done..]. Qed.

(** ** Tidying *)

Lemma cleanup_idem now p :
  cleanup_stale_producers now (cleanup_stale_producers now p) = cleanup_stale_producers now p.
Proof.
  unfold cleanup_stale_producers. rewrite map_filter_filter. apply map_filter_ext.
  intros i x _. naive_solver.
Qed.

Lemma log_tidy_idem clk a : log_tidy clk (log_tidy clk a) = log_tidy clk a.
Proof. unfold log_tidy, log_set_producers; simpl. by rewrite cleanup_idem. Qed.

Lemma live_stream_ok clk name v a :
  live_stream clk name v = Ok a <->
  v !! name = Some a /\ is_stream_expired (clk 0%nat) (a_config a) = false.
Proof.
  unfold live_stream. destruct (v !! name) as [b|]; [|by split; [|intros [? ?]]].
  destruct (is_stream_expired _ _) eqn:Hx; (split; [intros Hl|intros [Hl ?]]); simplify_eq; (done || congruence).
Qed.

(** Housekeeping keeps a live stream, up to stale producers. *)
Lemma housekeeping_live clk name v v0 a :
  housekeeping clk name v v0 -> live_stream clk name v = Ok a ->
  exists b, live_stream clk name v0 = Ok b /\ log_tidy clk b = log_tidy clk a.
Proof.
  intros Hhk Hl. apply live_stream_ok in Hl as [Ha Hx]. destruct Hhk as [|a' Ha' Hx'|a' Ha'].
  - exists a. by rewrite live_stream_ok.
  - congruence.
  - assert (a' = a) as -> by congruence. exists (log_tidy clk a). rewrite live_stream_ok, lookup_insert_eq, log_tidy_idem.
    done.
Qed.

(** ** Suffixes *)

(** Filtering by a predicate that stays true once it is true gives a suffix. *)
Lemma filter_suffix {A} (P : A -> Prop) `{!forall x, Decision (P x)} (l : list A) :
  (forall i j x y, l !! i = Some x -> l !! j = Some y -> (i < j)%nat -> P x -> P y) ->
  exists k, filter P l = drop k l.
Proof.
  induction l as [|x l IH]; intros Hup; [by exists O|]. rewrite filter_cons.
  destruct (decide (P x)) as [Hx|Hx].
  - exists O. simpl. f_equal. apply filter_all, Forall_lookup. intros i y Hi.
    by apply (Hup O (S i) x y ltac:(done) Hi ltac:(lia)).
  - destruct IH as [k Hk]; [|by exists (S k)]. intros i j y z Hi Hj Hij.
    apply (Hup (S i) (S j) y z Hi Hj). lia.
Qed.

(** The messages from an offset on are the end of the log, also when the offset is
    not that of a message. *)
Lemma messages_from_suffix rs bo txt msgs :
  exists pre, msgs = pre ++ messages_from (Concrete rs bo txt) msgs.
Proof.
  destruct (filter_suffix (fun om => offset_cmp om.1 (Concrete rs bo txt) <> Lt) (place 0 0 msgs))
    as [k Hk].
  - intros i j [oa da] [ob db] Ha Hb Hij Hle. simpl in *.
    pose proof (place_sorted _ _ _ _ _ _ _ Ha Hb Hij) as Hlt. simpl in Hlt.
    apply place_lookup in Ha as [Ha _], Hb as [Hb _]; simpl in Ha, Hb; subst oa ob.
    unfold offset_cmp, Offset_new in *. simpl in *. rewrite pair_cmp_lt in *. simpl in *. lia.
  - exists (take k msgs). unfold messages_from. rewrite Hk, fmap_drop, place_data.
    by rewrite take_drop.
Qed.

(** ** Proving [refined] *)

Section Refined.
Context {A : Type} (clk : Clock) (name : string) (spec : View -> View * Result Error A).

Lemma refined_exact v v' r : spec v = (v', r) -> refined clk name spec v v' r.
Proof. intros Hs. exists v. split; [constructor|by left]. Qed.

Lemma refined_same v a r :
  v !! name = Some a -> spec v = (v, r) -> refined clk name spec v (<[name := a]> v) r.
Proof. intros Ha Hs. rewrite insert_id by done. by apply refined_exact. Qed.

Lemma refined_resource v a err :
  v !! name = Some a -> resource_error err = true ->
  refined clk name spec v (<[name := a]> v) (Err err).
Proof.
  intros Ha Hr. rewrite insert_id by done. exists v. split; [constructor|right]. eauto.
Qed.
End Refined.

Lemma unless_duplicate_same a msgs ct p close seq now out :
  log_produce a msgs ct p close seq now = Ok out -> unless_duplicate a out = out.
Proof.
  unfold log_produce. intros Hp. destruct (if decide (msgs = []) then _ else _); [|done].
  cbn [result_bind] in Hp. destruct (check_producer _ _ _) as [[|e q]|]; [|by injection Hp as <-|done].
  cbn [result_bind] in Hp. destruct (validate_seq _ _); [|done]. by injection Hp as <-.
Qed.

(** On a tidied view the reference operation is the decision on the tidied log. *)
Lemma spec_produce_tidied clk name msgs ct p close seq v a :
  v !! name = Some a -> is_stream_expired (clk 0%nat) (a_config a) = false ->
  spec_append_with_producer clk name msgs ct p close seq (<[name := log_tidy clk a]> v) =
  update_view (<[name := log_tidy clk a]> v) name
    (log_produce (log_tidy clk a) msgs ct p close seq (clk 2%nat)).
Proof.
  intros Ha Hx. unfold spec_append_with_producer, live_stream. rewrite lookup_insert_eq.
  change (a_config (log_tidy clk a)) with (a_config a). rewrite Hx. cbn [result_bind].
  rewrite log_tidy_idem. destruct (log_produce _ _ _ _ _ _ _) as [out|] eqn:Hp; [|done].
  cbn [result_bind]. by rewrite (unless_duplicate_same _ _ _ _ _ _ _ _ Hp).
Qed.

(** A method that first drops the stale producers, then decides on the log. *)
Lemma refined_produce clk name msgs ct p close seq v a a' r :
  v !! name = Some a -> is_stream_expired (clk 0%nat) (a_config a) = false ->
  (match log_produce (log_tidy clk a) msgs ct p close seq (clk 2%nat) with
   | Ok (b, x) => a' = b /\ r = Ok x
   | Err e => a' = log_tidy clk a /\ r = Err e
   end \/ (a' = log_tidy clk a /\ exists e, r = Err e /\ resource_error e = true)) ->
  refined clk name (spec_append_with_producer clk name msgs ct p close seq) v
    (<[name := a']> v) r.
Proof.
  intros Ha Hx Hr. exists (<[name := log_tidy clk a]> v). split; [by apply hk_stale|].
  destruct Hr as [Hr|[-> Hr]]; [left|by right]. rewrite spec_produce_tidied by done.
  destruct (log_produce _ _ _ _ _ _ _) as [[b x]|e]; destruct Hr as [-> ->]; simpl.
  - by rewrite insert_insert_eq.
  - done.
Qed.

(** Reference appends to a stream that is there. *)
Section SpecAppends.
Context (clk : Clock) (name ct : string) (v : View) (a : AStream).
Hypothesis Ha : v !! name = Some a.

Lemma spec_append_at data :
  spec_append clk name data ct v =
  update_view v name
    (if is_stream_expired (clk 0%nat) (a_config a) then Err StreamExpired
     else if a_closed a then Err StreamClosed
     else let? _ := validate_content_type (content_type (a_config a)) ct in
          Ok (log_append a [data] None, a_next_offset a)).
Proof.
  unfold spec_append, appendable, live_stream. rewrite Ha.
  destruct (is_stream_expired _ _); [done|]. simpl. destruct (a_closed a); [done|].
  by destruct (validate_content_type _ _).
Qed.

Lemma spec_batch_append_at msgs seq :
  msgs <> [] ->
  spec_batch_append clk name msgs ct seq v =
  update_view v name
    (if is_stream_expired (clk 0%nat) (a_config a) then Err StreamExpired
     else if a_closed a then Err StreamClosed
     else let? _ := validate_content_type (content_type (a_config a)) ct in
          let? _ := validate_seq (a_last_seq a) seq in
          Ok (log_append a msgs seq, a_next_offset (log_append a msgs seq))).
Proof.
  intros Hm. unfold spec_batch_append, appendable, live_stream. rewrite Ha, decide_False by done.
  destruct (is_stream_expired _ _); [done|]. simpl. destruct (a_closed a); [done|].
  by destruct (validate_content_type _ _).
Qed.
End SpecAppends.

(** ** Searching a log *)

Section SearchPlace.
Context {A : Type} (key : A -> Offset) (l : list A) (msgs : list bytes) (rs bo : Z) (txt : bytes).
(** The keys of [l] are the offsets of the log. *)
Hypothesis Hl : key <$> l = (place 0 0 msgs).*1.

Let probe (x : A) : comparison := offset_cmp (key x) (Concrete rs bo txt).

Lemma place_key i x : l !! i = Some x -> exists om, place 0 0 msgs !! i = Some om /\ key x = om.1.
Proof using Hl.
  intros Hx. assert ((key <$> l) !! i = Some (key x)) as Hk by by rewrite list_lookup_fmap, Hx.
  rewrite Hl, list_lookup_fmap in Hk. apply fmap_Some in Hk as (om & ? & ?). eauto.
Qed.

Lemma search_place_sorted : search_sorted probe l.
Proof using Hl.
  intros i j x y Hx Hy Hij. unfold probe. apply place_key in Hx as ([oa da] & Ha & ->).
  apply place_key in Hy as ([ob db] & Hb & ->). simpl. intros Hle.
  pose proof (place_sorted _ _ _ _ _ _ _ Ha Hb Hij) as Hlt. simpl in Hlt.
  apply place_lookup in Ha as [Ha _], Hb as [Hb _]; simpl in Ha, Hb; subst oa ob.
  unfold offset_cmp, Offset_new in *. simpl in *. rewrite pair_cmp_lt in *. simpl in *.
  revert Hle. unfold pair_cmp; simpl. destruct (Z.compare_spec (0 + Z.of_nat j) rs); [|lia|done].
  lia.
Qed.

(** The binary search for an offset finds where the messages from that offset on
    begin, whether or not the offset is that of a message. *)
Lemma search_place : messages_from (Concrete rs bo txt) msgs = drop (search_index probe l) msgs.
Proof using Hl.
  destruct (search_index_spec _ _ search_place_sorted) as [_ Hs].
  unfold messages_from. rewrite (filter_from_index _ _ (search_index probe l)).
  { by rewrite fmap_drop, place_data. }
  intros i om Hom. destruct (lookup_lt_is_Some_2 l i) as [x Hx].
  { rewrite <- (length_fmap key l), Hl, length_fmap. by eapply lookup_lt_Some. }
  specialize (Hs i x Hx). unfold probe at 2 in Hs.
  destruct (place_key i x Hx) as (om' & Hom' & Hk). assert (om' = om) as -> by congruence.
  rewrite Hk in Hs. rewrite <- Hs. split; [apply Nat.nlt_ge|apply Nat.le_ngt].
Qed.
End SearchPlace.

(** ** Small inputs *)

Lemma u64_small n : 0 <= n < 1000 -> u64 n.
Proof. unfold u64, two64. lia. Qed.

Lemma fits_small (v : View) name msgs :
  payload msgs < 1000 -> (length msgs < 1000)%nat ->
  (match v !! name with Some a => (length (a_msgs a) < 1000)%nat | None => True end) ->
  fits v name msgs.
Proof.
  intros Hp Hl Ha. unfold fits, two64, ISIZE_MAX. split_and!; [lia..|]. intros a He. rewrite He in Ha. lia.
Qed.

(** Decide smallness by evaluation. *)
Ltac fits_run := apply fits_small; vm_compute; first [reflexivity | lia | exact I].
Ltac sized_run := first [exact I | left; reflexivity | right; vm_compute; reflexivity].
