(* ===== verification/StorageTrace.v ===== *)
(** * StorageTrace: histories of a storage backend

    What holds of every sequence of calls on a backend that satisfies
    [LawfulStorage]: the invariant, the append-only evolution of a log, the
    guarantees a resuming reader and a retrying producer rely on. Everything is
    proved against the interface, so it holds for any backend. *)

From S2P Require Import Prelude Errors Offsets RustStd Headers StorageCore LogSpec.

(** ** Calls *)

(** The calls of the [Storage] trait that take [&self] and may change state. *)
Inductive StorageOp : Type :=
  | OpCreate (clk : Clock) (name : string) (config : StreamConfig)
  | OpCreateWithData (clk : Clock) (name : string) (config : StreamConfig) (msgs : list bytes)
      (close : bool)
  | OpAppend (clk : Clock) (name : string) (data : bytes) (ct : string)
  | OpBatchAppend (clk : Clock) (name : string) (msgs : list bytes) (ct : string)
      (seq : option string)
  | OpProducer (clk : Clock) (name : string) (msgs : list bytes) (ct : string)
      (p : ProducerHeaders) (close : bool) (seq : option string)
  | OpClose (clk : Clock) (name : string)
  | OpDelete (name : string)
  | OpSubscribe (clk : Clock) (name : string).

Definition op_name (op : StorageOp) : string :=
  match op with
  | OpCreate _ n _ | OpCreateWithData _ n _ _ _ | OpAppend _ n _ _ | OpBatchAppend _ n _ _ _
  | OpProducer _ n _ _ _ _ _ | OpClose _ n | OpDelete n | OpSubscribe _ n => n
  end.

Definition op_msgs (op : StorageOp) : list bytes :=
  match op with
  | OpCreateWithData _ _ _ msgs _ | OpBatchAppend _ _ msgs _ _ | OpProducer _ _ msgs _ _ _ _ => msgs
  | OpAppend _ _ data _ => [data]
  | _ => []
  end.

(** A call that creates a stream with data has some. *)
Definition op_sized (op : StorageOp) : Prop :=
  match op with OpCreateWithData _ _ _ msgs _ => sized msgs | _ => True end.

(** Does the call leave a stream with this configuration in place: it is not a
    delete and it does not find the stream expired. *)
Definition op_spares (config : StreamConfig) (op : StorageOp) : bool :=
  match op with
  | OpDelete _ => false
  | OpCreate clk _ _ | OpCreateWithData clk _ _ _ _ | OpAppend clk _ _ _
  | OpBatchAppend clk _ _ _ _ | OpProducer clk _ _ _ _ _ _ | OpClose clk _
  | OpSubscribe clk _ => negb (is_stream_expired (clk 0%nat) config)
  end.

Section Trace.
Context {S : Type} `{!Storage.StorageOps S} `{!LawfulStorage S}.

Definition run_op (op : StorageOp) (s : S) : S :=
  match op with
  | OpCreate clk n config => (Storage.create_stream clk n config s).1
  | OpCreateWithData clk n config msgs close =>
      (Storage.create_stream_with_data clk n config msgs close s).1
  | OpAppend clk n data ct => (Storage.append clk n data ct s).1
  | OpBatchAppend clk n msgs ct seq => (Storage.batch_append clk n msgs ct seq s).1
  | OpProducer clk n msgs ct p close seq =>
      (Storage.append_with_producer clk n msgs ct p close seq s).1
  | OpClose clk n => (Storage.close_stream clk n s).1
  | OpDelete n => (Storage.delete n s).1
  | OpSubscribe clk n => (Storage.subscribe clk n s).1
  end.

(** A history: the calls, in order, each small enough for the address space. *)
Inductive history : S -> list StorageOp -> S -> Prop :=
  | history_nil s : history s [] s
  | history_cons s op ops s' :
      fits (view s) (op_name op) (op_msgs op) -> op_sized op ->
      history (run_op op s) ops s' -> history s (op :: ops) s'.

(** ** Evolution of one log *)

(** A log only grows at its tail, and not at all once it is closed; its
    configuration and creation time are fixed and closing is final. *)
Record evolves (a a' : AStream) : Prop := mkEvolves {
  ev_config : a_config a' = a_config a;
  ev_created : a_created_at a' = a_created_at a;
  ev_prefix : a_msgs a `prefix_of` a_msgs a';
  ev_closed : a_closed a = true -> a_closed a' = true /\ a_msgs a' = a_msgs a
}.

#[export] Instance evolves_preorder : PreOrder evolves.
Proof.
  split.
  - by split.
  - intros a b c [H1 H2 H3 H4] [H5 H6 H7 H8]. split; [congruence..| |].
    + by etrans.
    + intros Hc. destruct (H4 Hc) as [Hb ?]. destruct (H8 Hb). split; congruence.
Qed.

(** One call changes at most its own stream, and that stream evolves if the call
    spares it. *)
Definition evolves_at (name : string) (spared : StreamConfig -> bool) (v v' : View) : Prop :=
  (forall n, n <> name -> v' !! n = v !! n) /\
  (forall a, v !! name = Some a -> spared (a_config a) = true ->
     exists a', v' !! name = Some a' /\ evolves a a').

Lemma evolves_at_refl name spared v : evolves_at name spared v v.
Proof. split; [done|]. intros a Ha _. by exists a. Qed.

Lemma evolves_at_trans name spared v1 v2 v3 :
  evolves_at name spared v1 v2 -> evolves_at name spared v2 v3 -> evolves_at name spared v1 v3.
Proof.
  intros [Ho1 He1] [Ho2 He2]. split.
  - intros n Hn. rewrite Ho2, Ho1; done.
  - intros a Ha Hs. destruct (He1 a Ha Hs) as (b & Hb & Hab).
    destruct (He2 b Hb) as (c & Hc & Hbc); [by rewrite (ev_config _ _ Hab)|].
    exists c. split; [done|]. by etrans.
Qed.

Lemma evolves_at_insert name spared v a' :
  (forall a, v !! name = Some a -> spared (a_config a) = true -> evolves a a') ->
  evolves_at name spared v (<[name := a']> v).
Proof.
  intros He. split.
  - intros n Hn. by rewrite lookup_insert_ne.
  - intros a Ha Hs. exists a'. rewrite lookup_insert_eq. auto.
Qed.

Definition alive (clk : Clock) (config : StreamConfig) : bool :=
  negb (is_stream_expired (clk 0%nat) config).

Lemma evolves_log_tidy clk a : evolves a (log_tidy clk a).
Proof. by split. Qed.

Lemma evolves_log_append a msgs seq : a_closed a = false -> evolves a (log_append a msgs seq).
Proof. intros Hc. split; simpl; [done..| |congruence]. by apply prefix_app_r. Qed.

Lemma evolves_log_close a : evolves a (log_close a).
Proof. by split. Qed.

Lemma check_producer_open existing p : check_producer existing p true <> Ok CheckAccept.
Proof. unfold check_producer. repeat case_match; done. Qed.

Lemma log_produce_evolves a msgs ct p close seq now a' x :
  log_produce a msgs ct p close seq now = Ok (a', x) -> evolves a a'.
Proof.
  unfold log_produce. intros Hp. destruct (if decide (msgs = []) then _ else _); [|done].
  cbn [result_bind] in Hp.
  destruct (check_producer _ _ _) as [[|e q]|] eqn:Hck; simplify_eq/=; [|done].
  destruct (validate_seq _ _); simplify_eq/=.
  destruct (a_closed a) eqn:Hc; [by destruct (check_producer_open _ _ Hck)|].
  unfold log_accept. destruct close; (split; simpl; [done..| |congruence]); by apply prefix_app_r.
Qed.

Create HintDb evolve.
#[local] Hint Resolve evolves_at_refl evolves_log_tidy evolves_log_append evolves_log_close : evolve.

Lemma evolves_housekeeping clk name v v' :
  housekeeping clk name v v' -> evolves_at name (alive clk) v v'.
Proof.
  intros [|a Ha Hx|a Ha]; [auto with evolve| |].
  - split; [intros; by rewrite lookup_delete_ne|]. intros b Hb Hal. simplify_eq.
    unfold alive in Hal. by rewrite Hx in Hal.
  - apply evolves_at_insert. intros b Hb _. simplify_eq. auto with evolve.
Qed.

Lemma evolves_refined {A} clk name (spec : View -> View * Result Error A) v v' r :
  refined clk name spec v v' r ->
  (forall w, evolves_at name (alive clk) w (spec w).1) ->
  evolves_at name (alive clk) v v'.
Proof.
  intros (v0 & Hhk & Hr) Hspec. apply (evolves_at_trans _ _ _ v0); [by apply evolves_housekeeping|].
  destruct Hr as [Hr|[-> _]]; [|apply evolves_at_refl]. specialize (Hspec v0). by rewrite <- Hr in Hspec.
Qed.

Lemma evolves_update_view {A} name spared v (r : Result Error (AStream * A)) :
  (forall a' x, r = Ok (a', x) -> exists a, v !! name = Some a /\ evolves a a') ->
  evolves_at name spared v (update_view v name r).1.
Proof.
  intros Hr. destruct r as [[a' x]|e]; simpl; [|apply evolves_at_refl].
  apply evolves_at_insert. intros a Ha _. destruct (Hr a' x eq_refl) as (b & Hb & ?). by simplify_eq.
Qed.

Lemma appendable_ok clk name ct v a :
  appendable clk name ct v = Ok a -> live_stream clk name v = Ok a /\ a_closed a = false.
Proof.
  unfold appendable. destruct (live_stream clk name v) as [b|]; simpl; [|done].
  destruct (a_closed b) eqn:Hc; [done|]. destruct (validate_content_type _ _); intros; simplify_eq/=; done.
Qed.

Lemma spec_append_evolves clk name data ct w :
  evolves_at name (alive clk) w (spec_append clk name data ct w).1.
Proof.
  apply evolves_update_view. intros a' x Hx.
  destruct (appendable _ _ _ _) as [a|] eqn:Ha; simplify_eq/=.
  apply appendable_ok in Ha as [[Ha _]%live_stream_ok Hc]. eauto with evolve.
Qed.

Lemma spec_batch_append_evolves clk name msgs ct seq w :
  evolves_at name (alive clk) w (spec_batch_append clk name msgs ct seq w).1.
Proof.
  apply evolves_update_view. intros a' x Hx. case_decide; [done|].
  destruct (appendable _ _ _ _) as [a|] eqn:Ha; simpl in Hx; [|done].
  destruct (validate_seq _ _); simplify_eq/=.
  apply appendable_ok in Ha as [[Ha _]%live_stream_ok Hc]. eauto with evolve.
Qed.

Lemma spec_close_evolves clk name w :
  evolves_at name (alive clk) w (spec_close clk name w).1.
Proof.
  apply evolves_update_view. intros a' x Hx.
  destruct (live_stream _ _ _) as [a|] eqn:Ha; simplify_eq/=.
  apply live_stream_ok in Ha as [Ha _]. eauto with evolve.
Qed.

Lemma spec_producer_evolves clk name msgs ct p close seq w :
  evolves_at name (alive clk) w (spec_append_with_producer clk name msgs ct p close seq w).1.
Proof.
  apply evolves_update_view. intros a' x Hx.
  destruct (live_stream _ _ _) as [a|] eqn:Ha; simpl in Hx; [|done].
  apply live_stream_ok in Ha as [Ha _]. exists a. split; [done|].
  destruct (log_produce _ _ _ _ _ _ _) as [[b y]|] eqn:Hp; [|done]. cbn [result_bind] in Hx.
  unfold unless_duplicate in Hx. destruct y; injection Hx as <- <-; [|done].
  apply log_produce_evolves in Hp. etrans; [apply (evolves_log_tidy clk)|done].
Qed.

(** Creating over an expired stream replaces it: that stream was not spared. *)
Lemma create_evolves clk name w a' :
  (forall a, live_stream clk name w <> Ok a) ->
  evolves_at name (alive clk) w (<[name := a']> w).
Proof.
  intros Hl. apply evolves_at_insert. intros a Ha Hal%negb_true_iff. exfalso.
  apply (Hl a). by apply live_stream_ok.
Qed.

Lemma spec_create_with_data_evolves clk name config msgs close w :
  evolves_at name (alive clk) w (spec_create_with_data clk name config msgs close w).1.
Proof.
  unfold spec_create_with_data. destruct (live_stream clk name w) as [a|] eqn:Ha.
  - destruct (config_eq _ _); apply evolves_at_refl.
  - apply create_evolves. by rewrite Ha.
Qed.

Lemma spec_create_evolves clk name config w :
  evolves_at name (alive clk) w (spec_create clk name config w).1.
Proof.
  unfold spec_create. destruct (live_stream clk name w) as [a|] eqn:Ha.
  - destruct (config_eq _ _); apply evolves_at_refl.
  - apply create_evolves. by rewrite Ha.
Qed.

(** ** Every call *)

Lemma run_op_ok op s :
  backend_inv s -> fits (view s) (op_name op) (op_msgs op) -> op_sized op ->
  backend_inv (run_op op s) /\
  evolves_at (op_name op) (fun config => op_spares config op) (view s) (view (run_op op s)).
Proof.
  intros Hinv Hfit Hsz. destruct op as [clk n c|clk n c msgs cl|clk n d ct|clk n msgs ct q
    |clk n msgs ct p cl q|clk n|n|clk n]; simpl in *.
  - pose proof (law_create s clk n c Hinv) as Hl. destruct (Storage.create_stream _ _ _ _).
    destruct Hl as [? Hl]. split; [done|]. eapply evolves_refined; [done|apply spec_create_evolves].
  - pose proof (law_create_with_data s clk n c msgs cl Hinv Hfit Hsz) as Hl.
    destruct (Storage.create_stream_with_data _ _ _ _ _ _).
    destruct Hl as [? Hl]. split; [done|].
    eapply evolves_refined; [done|apply spec_create_with_data_evolves].
  - pose proof (law_append s clk n d ct Hinv Hfit) as Hl. destruct (Storage.append _ _ _ _ _).
    destruct Hl as [? Hl]. split; [done|]. eapply evolves_refined; [done|apply spec_append_evolves].
  - pose proof (law_batch_append s clk n msgs ct q Hinv Hfit) as Hl.
    destruct (Storage.batch_append _ _ _ _ _ _).
    destruct Hl as [? Hl]. split; [done|].
    eapply evolves_refined; [done|apply spec_batch_append_evolves].
  - pose proof (law_append_with_producer s clk n msgs ct p cl q Hinv Hfit) as Hl.
    destruct (Storage.append_with_producer _ _ _ _ _ _ _ _).
    destruct Hl as [? Hl]. split; [done|]. eapply evolves_refined; [done|apply spec_producer_evolves].
  - pose proof (law_close s clk n Hinv) as Hl. destruct (Storage.close_stream _ _ _).
    destruct Hl as [? Hl]. split; [done|]. eapply evolves_refined; [done|apply spec_close_evolves].
  - pose proof (law_delete s n Hinv) as Hl. destruct (Storage.delete _ _) as [s' r].
    destruct Hl as [? Hl]. split; [done|]. split; [|done]. intros n' Hn. simpl.
    unfold spec_delete in Hl. destruct (view s !! n); injection Hl as -> _; [|done].
    by rewrite lookup_delete_ne.
  - pose proof (law_subscribe s clk n Hinv) as Hl. destruct (Storage.subscribe _ _ _) as [s' r].
    destruct Hl as (? & Hl & _). split; [done|]. simpl. rewrite Hl. apply evolves_at_refl.
Qed.

Lemma history_ok s ops s' :
  history s ops s' -> backend_inv s ->
  backend_inv s' /\
  forall name a, view s !! name = Some a ->
    (forall op, op ∈ ops -> op_name op = name -> op_spares (a_config a) op = true) ->
    exists a', view s' !! name = Some a' /\ evolves a a'.
Proof.
  induction 1 as [s|s op ops s' Hfit Hsz _ IH]; intros Hinv.
  - split; [done|]. intros name a Ha _. by exists a.
  - destruct (run_op_ok op s Hinv Hfit Hsz) as [Hinv1 [Hother Hown]].
    destruct (IH Hinv1) as [Hinv' Hrest]. split; [done|]. intros name a Ha Hsp.
    assert (exists b, view (run_op op s) !! name = Some b /\ evolves a b) as (b & Hb & Hab).
    { destruct (decide (op_name op = name)) as [<-|Hne].
      - apply Hown; [done|]. apply Hsp; [left|done].
      - exists a. rewrite Hother by done. done. }
    destruct (Hrest name b Hb) as (c & Hc & Hbc).
    + rewrite (ev_config _ _ Hab). intros op' Hin. apply Hsp. by right.
    + exists c. split; [done|]. by etrans.
Qed.
(** ** Readers *)

Lemma read_live s clk name o a :
  backend_inv s -> offset_wf o -> live_stream clk name (view s) = Ok a ->
  Storage.read clk name o s =
  Ok (mkReadResult (match o with
                    | Now => []
                    | Start => a_msgs a
                    | Concrete _ _ _ => messages_from o (a_msgs a)
                    end) (a_next_offset a) true (a_closed a)).
Proof. intros Hinv Ho Ha. rewrite law_read by done. unfold spec_read. by rewrite Ha. Qed.

Lemma read_ok_live s clk name o r :
  backend_inv s -> offset_wf o -> Storage.read clk name o s = Ok r ->
  exists a, live_stream clk name (view s) = Ok a.
Proof.
  intros Hinv Ho. rewrite law_read by done. unfold spec_read.
  destruct (live_stream clk name (view s)); simpl; [eauto|done].
Qed.

Lemma read_resume s clk name a msgs more :
  backend_inv s -> offset_wf (tail_offset msgs) -> live_stream clk name (view s) = Ok a ->
  a_msgs a = msgs ++ more ->
  Storage.read clk name (tail_offset msgs) s =
  Ok (mkReadResult more (a_next_offset a) true (a_closed a)).
Proof.
  intros Hinv Ho Ha Hm. rewrite (read_live s clk name _ a Hinv Ho Ha). rewrite Hm.
  do 2 f_equal. apply (messages_from_tail msgs more).
Qed.

(** C12: a reader that resumes from the offset it was given misses nothing and
    sees nothing twice. If it read the whole stream, and later calls neither
    deleted the stream nor found it expired, then reading from the returned
    offset gives exactly the messages appended since: the earlier and the later
    answer concatenate to the whole stream. After an answer that said the stream
    is closed, the resumed read is empty and says so again. *)
Theorem resume_reads_the_rest s ops s' clk clk' name r m :
  backend_inv s -> history s ops s' ->
  Storage.read clk name Start s = Ok r -> Storage.head clk name s = Ok m ->
  (forall op, op ∈ ops -> op_name op = name -> op_spares (sm_config m) op = true) ->
  is_stream_expired (clk' 0%nat) (sm_config m) = false ->
  exists r' full,
    Storage.read clk' name (rr_next_offset r) s' = Ok r' /\
    Storage.read clk' name Start s' = Ok full /\
    rr_messages full = rr_messages r ++ rr_messages r' /\
    rr_next_offset full = rr_next_offset r' /\
    (rr_closed r = true -> r' = mkReadResult [] (rr_next_offset r) true true).
Proof.
  intros Hinv Hh Hr Hm Hsp Hx. assert (offset_wf Start) as Hst by done.
  destruct (read_ok_live _ _ _ _ _ Hinv Hst Hr) as [a Ha].
  rewrite (read_live s clk name Start a Hinv Hst Ha) in Hr. injection Hr as <-.
  rewrite law_head in Hm by done. unfold spec_head in Hm. rewrite Ha in Hm. injection Hm as <-.
  apply live_stream_ok in Ha as [Ha _]. simpl in *.
  destruct (history_ok _ _ _ Hh Hinv) as [Hinv' Hev].
  destruct (Hev name a Ha Hsp) as (b & Hb & [Hcfg _ [more Hmore] Hcl]).
  assert (live_stream clk' name (view s') = Ok b) as Hlive
    by (apply live_stream_ok; by rewrite Hcfg).
  eexists _, _. split; [|split; [by apply read_live|]].
  - apply read_resume; eauto using law_bounded.
  - simpl. split_and!; [done|done|]. intros Hc. destruct (Hcl Hc) as [Hb' Heq].
    rewrite Hb'. unfold a_next_offset. rewrite Heq. f_equal.
    apply (app_inv_head (a_msgs a)). by rewrite app_nil_r, <- Hmore.
Qed.
(** ** Producers *)

(** Equal but for the table of producers. *)
Definition same_log (a a' : AStream) : Prop := a' = log_set_producers a (a_producers a').

#[export] Instance same_log_preorder : PreOrder same_log.
Proof.
  split; [by intros []|]. unfold same_log. intros a b c -> ->. done.
Qed.

Lemma housekeeping_lookup clk name v v0 a0 :
  housekeeping clk name v v0 -> v0 !! name = Some a0 ->
  exists a, v !! name = Some a /\ same_log a a0.
Proof.
  intros [|a Ha Hx|a Ha].
  - intros Ha0. exists a0. done.
  - by rewrite lookup_delete_eq.
  - rewrite lookup_insert_eq. intros [= <-]. by exists a.
Qed.

(** What a producer request did to its log, read off its answer. *)
Definition producer_effect (msgs : list bytes) (p : ProducerHeaders) (close : bool)
    (seq : option string) (now : Z) (a a' : AStream)
    (r : Result Error ProducerAppendResult) : Prop :=
  match r with
  | Ok (Accepted e q off closed) =>
      e = ph_epoch p /\ q = ph_seq p /\ closed = close /\ off = a_next_offset a' /\
      a_closed a = false /\ a_closed a' = close /\ a_msgs a' = a_msgs a ++ msgs /\
      a_producers a' !! ph_id p = Some (mkProducerState e q now)
  | Ok (Duplicate e q off closed) =>
      same_log a a' /\ off = a_next_offset a /\ closed = a_closed a /\
      e = ph_epoch p /\ ph_seq p <= q
  | Err _ => same_log a a'
  end.

Lemma check_producer_duplicate existing p closed e q :
  check_producer existing p closed = Ok (CheckDuplicate e q) -> e = ph_epoch p /\ ph_seq p <= q.
Proof. unfold check_producer. repeat case_match; intros; simplify_eq; lia. Qed.

Lemma log_produce_effect a msgs ct p close seq now a' x :
  log_produce a msgs ct p close seq now = Ok (a', x) ->
  producer_effect msgs p close seq now a a' (Ok x).
Proof.
  unfold log_produce. intros Hp. destruct (if decide (msgs = []) then _ else _); [|done].
  cbn [result_bind] in Hp.
  destruct (check_producer _ _ _) as [[|e q]|] eqn:Hck; simplify_eq/=.
  - destruct (validate_seq _ _); simplify_eq/=.
    destruct (a_closed a) eqn:Hc; [by destruct (check_producer_open _ _ Hck)|].
    rewrite lookup_insert_eq. destruct close; simpl; by rewrite ?Hc.
  - apply check_producer_duplicate in Hck as [-> ?]. done.
Qed.

Lemma producer_effect_same_log msgs p close seq now a b a' r :
  same_log a b -> producer_effect msgs p close seq now b a' r ->
  producer_effect msgs p close seq now a a' r.
Proof.
  intros Hab. destruct r as [[e q off cl|e q off cl]|err]; simpl.
  - rewrite Hab. done.
  - intros (Hb & Hrest). split; [by etrans|]. rewrite Hab in Hrest. done.
  - by etrans.
Qed.

Lemma accepted_content_type clk name msgs ct p close seq v0 v' e q off cl :
  (v', Ok (Accepted e q off cl)) = spec_append_with_producer clk name msgs ct p close seq v0 ->
  exists a0 a', live_stream clk name v0 = Ok a0 /\ v' = <[name := a']> v0 /\
    a_config a' = a_config a0 /\ e = ph_epoch p /\ q = ph_seq p /\
    off = a_next_offset a' /\ cl = a_closed a' /\
    a_producers a' !! ph_id p = Some (mkProducerState (ph_epoch p) (ph_seq p) (clk 2%nat)) /\
    (msgs = [] \/ validate_content_type (content_type (a_config a0)) ct = Ok tt).
Proof.
  unfold spec_append_with_producer. destruct (live_stream clk name v0) as [a0|] eqn:Ha0; [|done].
  cbn [result_bind]. intros Hs.
  destruct (log_produce _ _ _ _ _ _ _) as [[b x]|] eqn:Hp; simpl in Hs; [|done].
  unfold unless_duplicate in Hs. destruct x; [|done].
  injection Hs as -> <- <- <- <-. exists a0, b. split; [done|].
  pose proof (log_produce_evolves _ _ _ _ _ _ _ _ _ Hp) as [Hcfg _ _ _].
  pose proof (log_produce_effect _ _ _ _ _ _ _ _ _ Hp) as (-> & -> & -> & -> & _ & <- & _ & Hst).
  split_and!; [done..|]. unfold log_produce in Hp. case_decide; [by left|right].
  change (a_config (log_tidy clk a0)) with (a_config a0) in Hp.
  destruct (validate_content_type _ _) as [[]|]; done.
Qed.

(** ** Plain appends and closing, read off the answer *)

(** What one call leaves of the stream it was refused on. *)
Definition untouched (v v' : View) (name : string) : Prop :=
  forall a', v' !! name = Some a' -> exists a, v !! name = Some a /\ same_log a a'.

Lemma housekeeping_untouched clk name v v0 : housekeeping clk name v v0 -> untouched v v0 name.
Proof. intros Hhk a' Ha'. by eapply housekeeping_lookup. Qed.

Lemma refined_err {A} clk name (r : View -> Result Error (AStream * A)) v v' e :
  refined clk name (fun w => update_view w name (r w)) v v' (Err e) -> untouched v v' name.
Proof.
  intros (v0 & Hhk & [Hs|[-> _]]); [|by eapply housekeeping_untouched].
  destruct (r v0) as [[b x]|e']; [done|]. injection Hs as -> _. by eapply housekeeping_untouched.
Qed.

Lemma batch_append_effect s clk name msgs ct seq :
  backend_inv s -> fits (view s) name msgs ->
  let '(s', r) := Storage.batch_append clk name msgs ct seq s in
  backend_inv s' /\
  match r with
  | Ok off => exists a a', view s !! name = Some a /\ view s' !! name = Some a' /\
      a_closed a = false /\ a_closed a' = false /\ a_msgs a' = a_msgs a ++ msgs /\
      off = a_next_offset a'
  | Err _ => untouched (view s) (view s') name
  end.
Proof.
  intros Hinv Hfit. pose proof (law_batch_append s clk name msgs ct seq Hinv Hfit) as Hl.
  destruct (Storage.batch_append _ _ _ _ _ _) as [s' [off|e]]; destruct Hl as [Hinv' Hl]; (split; [done|]).
  - destruct Hl as (v0 & Hhk & [Hs|(_ & ? & ? & _)]); [|done]. revert Hs. unfold spec_batch_append.
    case_decide; [done|]. destruct (appendable clk name ct v0) as [a0|] eqn:Ha0; [|done].
    cbn [result_bind]. destruct (validate_seq _ _) as [q|]; [|done]. intros [= Hv ->].
    apply appendable_ok in Ha0 as [[Ha0 _]%live_stream_ok Hc0].
    destruct (housekeeping_lookup _ _ _ _ _ Hhk Ha0) as (a & Ha & Hsame).
    exists a, (log_append a0 msgs seq). rewrite Hv, lookup_insert_eq. rewrite Hsame in *. done.
  - unfold spec_batch_append in Hl. by apply (refined_err clk name _ _ _ _ Hl).
Qed.

Lemma close_effect s clk name :
  backend_inv s ->
  let '(s', r) := Storage.close_stream clk name s in
  backend_inv s' /\
  match r with
  | Ok _ => exists a a', view s !! name = Some a /\ view s' !! name = Some a' /\
      a_closed a' = true /\ a_msgs a' = a_msgs a
  | Err _ => untouched (view s) (view s') name
  end.
Proof.
  intros Hinv. pose proof (law_close s clk name Hinv) as Hl.
  destruct (Storage.close_stream _ _ _) as [s' [[]|e]]; destruct Hl as [Hinv' Hl]; (split; [done|]).
  - destruct Hl as (v0 & Hhk & [Hs|(_ & ? & ? & _)]); [|done]. revert Hs. unfold spec_close.
    destruct (live_stream clk name v0) as [a0|] eqn:Ha0; [|done]. cbn [result_bind]. intros [= Hv].
    apply live_stream_ok in Ha0 as [Ha0 _].
    destruct (housekeeping_lookup _ _ _ _ _ Hhk Ha0) as (a & Ha & Hsame).
    exists a, (log_close a0). rewrite Hv, lookup_insert_eq. rewrite Hsame in *. done.
  - unfold spec_close in Hl. by apply (refined_err clk name _ _ _ _ Hl).
Qed.
(** ** Producer requests, read off the answer *)

Lemma append_with_producer_effect s clk name msgs ct p close seq :
  backend_inv s -> fits (view s) name msgs ->
  let '(s', r) := Storage.append_with_producer clk name msgs ct p close seq s in
  backend_inv s' /\
  match r with
  | Ok _ => exists a a', view s !! name = Some a /\ view s' !! name = Some a' /\
      producer_effect msgs p close seq (clk 2%nat) a a' r
  | Err _ => untouched (view s) (view s') name
  end.
Proof.
  intros Hinv Hfit. pose proof (law_append_with_producer s clk name msgs ct p close seq Hinv Hfit) as Hl.
  destruct (Storage.append_with_producer _ _ _ _ _ _ _ _) as [s' [x|e]]; destruct Hl as [Hinv' Hl];
    (split; [done|]).
  - destruct Hl as (v0 & Hhk & [Hs|(_ & ? & ? & _)]); [|done].
    revert Hs. unfold spec_append_with_producer.
    destruct (live_stream clk name v0) as [a0|] eqn:Ha0; [|done]. cbn [result_bind]. intros Hs.
    apply live_stream_ok in Ha0 as [Ha0 _].
    destruct (housekeeping_lookup _ _ _ _ _ Hhk Ha0) as (a & Ha & Hsame).
    destruct (log_produce _ _ _ _ _ _ _) as [[b y]|] eqn:Hp; simpl in Hs; [|done].
    apply log_produce_effect in Hp. unfold unless_duplicate in Hs.
    destruct y; injection Hs as Hv ->; eexists a, _; rewrite Hv, lookup_insert_eq;
      (split_and!; [done..|]).
    + eapply producer_effect_same_log; [|exact Hp]. etrans; [exact Hsame|done].
    + cbn in Hp |- *. destruct Hp as (_ & Hrest). split; [done|]. rewrite Hsame in Hrest. exact Hrest.
  - unfold spec_append_with_producer in Hl. by apply (refined_err clk name _ _ _ _ Hl).
Qed.

(** C20: a producer request is all or nothing. If the answer is [Accepted], the
    stream was open, the whole batch is at its tail exactly once, the stream is
    closed exactly if the request asked for it, and the producer's epoch and
    sequence are recorded; if it is [Duplicate] or an error, messages, closed
    flag and [Stream-Seq] of the stream are as before. *)
Theorem producer_append_all_or_nothing s clk name msgs ct p close seq a' :
  backend_inv s -> fits (view s) name msgs ->
  let '(s', r) := Storage.append_with_producer clk name msgs ct p close seq s in
  view s' !! name = Some a' ->
  exists a, view s !! name = Some a /\ producer_effect msgs p close seq (clk 2%nat) a a' r.
Proof.
  intros Hinv Hfit.
  pose proof (append_with_producer_effect s clk name msgs ct p close seq Hinv Hfit) as He.
  destruct (Storage.append_with_producer _ _ _ _ _ _ _ _) as [s' [x|e]]; destruct He as [_ He];
    intros Ha'; [|by apply He].
  destruct He as (a & b & Ha & Hb & He). rewrite Hb in Ha'. injection Ha' as <-. by exists a.
Qed.
End Trace.
