(* ===== verification/ProducerTrace.v ===== *)
(** * ProducerTrace: a producer along a history of calls

    What a producer may rely on over any history of calls on a lawful backend, its own and
    those of others, as long as its stream stays in place and it is never silent for seven
    days: the requests that are accepted form one gap-free chain, the backend remembers the
    last of them, and a retry of any of them changes nothing. *)

From S2P Require Import Prelude Errors Offsets RustStd Headers StorageCore LogSpec StorageTrace.

(** ** Chains of epochs and sequence numbers *)

(** [b] may directly follow [a]: next in the same epoch, or the start of a later one. *)
Definition next_pair (a b : Z * Z) : Prop :=
  (b.1 = a.1 /\ b.2 = a.2 + 1) \/ (a.1 < b.1 /\ b.2 = 0).

(** A chain in which each pair follows its predecessor. *)
Inductive chain : option (Z * Z) -> list (Z * Z) -> Prop :=
  | chain_nil prev : chain prev []
  | chain_first b l : b.2 = 0 -> chain (Some b) l -> chain None (b :: l)
  | chain_next a b l : next_pair a b -> chain (Some b) l -> chain (Some a) (b :: l).

Definition pair_lt (a b : Z * Z) : Prop := a.1 < b.1 \/ (a.1 = b.1 /\ a.2 < b.2).

Lemma chain_above prev l a :
  chain prev l -> prev = Some a -> Forall (pair_lt a) l.
Proof.
  intros Hc. revert a. induction Hc as [|b l Hb Hc IH|a0 b l Hf Hc IH]; intros a Ha;
    simplify_eq; constructor.
  - unfold next_pair, pair_lt in *. lia.
  - specialize (IH b eq_refl). eapply Forall_impl; [exact IH|].
    intros x Hx. unfold next_pair, pair_lt in *. lia.
Qed.

Lemma chain_nodup prev l : chain prev l -> NoDup l.
Proof.
  induction 1 as [|b l Hb Hc IH|a b l Hf Hc IH]; constructor; try done;
    intros Hin; pose proof (chain_above _ _ _ Hc eq_refl) as Hall;
    rewrite Forall_forall in Hall; apply Hall in Hin; unfold pair_lt in Hin; lia.
Qed.

Definition state_pair (st : option ProducerState) : option (Z * Z) :=
  (fun s => (ps_epoch s, ps_last_seq s)) <$> st.

(** The last pair of a chain that started after [prev]. *)
Definition last_pair (prev : option (Z * Z)) (l : list (Z * Z)) : option (Z * Z) :=
  match last l with Some b => Some b | None => prev end.

Lemma last_pair_cons prev b l : last_pair prev (b :: l) = last_pair (Some b) l.
Proof. unfold last_pair. rewrite last_cons. by destruct (last l). Qed.

Lemma last_pair_at_least a l b : chain (Some a) l -> last_pair (Some a) l = Some b -> b = a \/ pair_lt a b.
Proof.
  intros Hc. unfold last_pair. destruct (last l) as [b'|] eqn:Hl; intros [= <-]; [right|by left].
  apply last_Some_elem_of in Hl. pose proof (chain_above _ _ _ Hc eq_refl) as Hall.
  rewrite Forall_forall in Hall. by apply Hall.
Qed.

(** ** One call *)

(** The state a call finds for a producer, once stale ones are forgotten. *)
Definition recorded (clk : Clock) (name pid : string) (v : View) : option ProducerState :=
  match v !! name with Some a => a_producers (log_tidy clk a) !! pid | None => None end.

Lemma recorded_fresh clk name pid v a st :
  v !! name = Some a -> a_producers a !! pid = Some st ->
  clk 1%nat - PRODUCER_STATE_TTL_SECS * NANOS_PER_SEC < ps_updated_at st -> recorded clk name pid v = Some st.
Proof.
  intros Ha Hst Hf. unfold recorded. rewrite Ha. unfold log_tidy, cleanup_stale_producers. cbn.
  by apply map_lookup_filter_Some.
Qed.

Section Calls.
Context {S : Type} `{!Storage.StorageOps S} `{!LawfulStorage S}.

Definition decided (clk : Clock) (name : string) (p : ProducerHeaders) (v : View) (out : Result Error ProducerCheck) : Prop :=
  exists a, v !! name = Some a /\ check_producer (recorded clk name (ph_id p) v) p (a_closed a) = out.

(** The answer to a producer request is the decision on the recorded state. *)
Lemma producer_decided s clk name msgs ct p close seq :
  backend_inv s -> fits (view s) name msgs ->
  match (Storage.append_with_producer clk name msgs ct p close seq s).2 with
  | Ok (Accepted _ _ _ _) => decided clk name p (view s) (Ok CheckAccept)
  | Ok (Duplicate e q _ _) => decided clk name p (view s) (Ok (CheckDuplicate e q))
  | Err ((EpochFenced _ _ | SequenceGap _ _ | StreamClosed) as e) => decided clk name p (view s) (Err e)
  | Err _ => True
  end.
Proof.
  intros Hinv Hfit. pose proof (law_append_with_producer s clk name msgs ct p close seq Hinv Hfit) as Hl.
  destruct (Storage.append_with_producer _ _ _ _ _ _ _ _) as [s' r]. cbn.
  destruct Hl as (_ & v0 & Hhk & [Hs|(_ & e & -> & He)]); [|by destruct e].
  revert Hs. unfold spec_append_with_producer.
  destruct (live_stream clk name v0) as [a0|e] eqn:Ha0; cbn [result_bind update_view].
  2:{ intros [= _ ->]. revert Ha0. unfold live_stream. by repeat case_match; intros; simplify_eq. }
  apply live_stream_ok in Ha0 as [Ha0 Hx0].
  assert (exists a, view s !! name = Some a /\ log_tidy clk a0 = log_tidy clk a) as (a & Ha & Htidy).
  { destruct Hhk as [|b Hb Hx|b Hb]; [by exists a0|by rewrite lookup_delete_eq in Ha0|].
    rewrite lookup_insert_eq in Ha0. injection Ha0 as <-. exists b. by rewrite log_tidy_idem. }
  rewrite Htidy. unfold log_produce.
  assert (forall out, check_producer (a_producers (log_tidy clk a) !! ph_id p) p (a_closed (log_tidy clk a)) = out ->
    decided clk name p (view s) out) as Hd.
  { intros out <-. exists a. unfold recorded. by rewrite Ha. }
  destruct (if decide (msgs = []) then _ else _) as [[]|e] eqn:Hct; cbn [result_bind update_view].
  2:{ intros [= _ ->]. case_decide; [done|]. unfold validate_content_type in Hct. destruct (negb _); [by injection Hct as <-|done]. }
  destruct (check_producer _ _ _) as [[|e q]|e] eqn:Hck; cbn [result_bind update_view].
  - destruct (validate_seq _ _) as [x|e] eqn:Hq; cbn [result_bind update_view unless_duplicate snd]; intros [= _ ->]; [by apply Hd|].
    unfold validate_seq in Hq. by repeat case_match; simplify_eq.
  - cbn [unless_duplicate snd]. intros [= _ ->]. by apply Hd.
  - intros [= _ ->]. specialize (Hd _ eq_refl). by destruct e.
Qed.

(** The pair a call gets accepted for the producer [pid] of the stream [name]. *)
Definition accepted_by (name pid : string) (op : StorageOp) (s : S) : list (Z * Z) :=
  match op with
  | OpProducer clk n msgs ct p close seq =>
      if decide (n = name /\ ph_id p = pid) then
        match (Storage.append_with_producer clk n msgs ct p close seq s).2 with
        | Ok (Accepted e q _ _) => [(e, q)]
        | _ => []
        end
      else []
  | _ => []
  end.

(** At the time of the call the state is less than seven days old. *)
Definition op_remembers (st : ProducerState) (op : StorageOp) : bool :=
  match op with
  | OpDelete _ | OpSubscribe _ _ => true
  | OpCreate clk _ _ | OpCreateWithData clk _ _ _ _ | OpAppend clk _ _ _ | OpBatchAppend clk _ _ _ _
  | OpProducer clk _ _ _ _ _ _ | OpClose clk _ =>
      clk 1%nat - PRODUCER_STATE_TTL_SECS * NANOS_PER_SEC <? ps_updated_at st
  end.

(** The call leaves the stream [name] in place and its producer [pid] remembered. *)
Definition op_active (name pid : string) (op : StorageOp) (s : S) : bool :=
  if decide (op_name op = name) then
    match view s !! name with
    | Some a =>
        op_spares (a_config a) op &&
        match a_producers a !! pid with Some st => op_remembers st op | None => true end
    | None => false
    end
  else true.

(** ** Histories *)

Fixpoint accepted_pairs (name pid : string) (ops : list StorageOp) (s : S) : list (Z * Z) :=
  match ops with
  | [] => []
  | op :: rest => accepted_by name pid op s ++ accepted_pairs name pid rest (run_op op s)
  end.

Fixpoint active (name pid : string) (ops : list StorageOp) (s : S) : bool :=
  match ops with
  | [] => true
  | op :: rest => op_active name pid op s && active name pid rest (run_op op s)
  end.

(** Sequence numbers are those [parse_producer_headers] lets through. *)
Definition op_in_range (op : StorageOp) : Prop :=
  match op with OpProducer _ _ _ _ p _ _ => 0 <= ph_seq p <= MAX_SAFE_INTEGER | _ => True end.

(** What a call with this outcome leaves of the producer. *)
Definition keeps_producer (pid : string) (a a' : AStream) : Prop :=
  a_config a' = a_config a /\ a_producers a' !! pid = a_producers a !! pid.

Lemma tidy_keeps clk pid a :
  (forall st, a_producers a !! pid = Some st ->
     clk 1%nat - PRODUCER_STATE_TTL_SECS * NANOS_PER_SEC < ps_updated_at st) ->
  keeps_producer pid a (log_tidy clk a).
Proof.
  intros Hf. split; [done|]. unfold log_tidy, cleanup_stale_producers; cbn.
  rewrite map_lookup_filter. destruct (a_producers a !! pid) as [st|]; [|done]. cbn.
  by rewrite option_guard_True by by apply Hf.
Qed.

(** A call that refines an operation which keeps the producer does so. *)
Lemma refined_keeps {A} clk name pid (spec : View -> View * Result Error A) v v' r a :
  refined clk name spec v v' r -> v !! name = Some a -> is_stream_expired (clk 0%nat) (a_config a) = false ->
  (forall st, a_producers a !! pid = Some st ->
     clk 1%nat - PRODUCER_STATE_TTL_SECS * NANOS_PER_SEC < ps_updated_at st) ->
  (forall w b, live_stream clk name w = Ok b -> keeps_producer pid a b -> (spec w).2 = r ->
     exists b', (spec w).1 !! name = Some b' /\ keeps_producer pid a b') ->
  exists a', v' !! name = Some a' /\ keeps_producer pid a a'.
Proof.
  intros (v0 & Hhk & Hr) Ha Hx Hf Hspec.
  assert (exists b, v0 !! name = Some b /\ keeps_producer pid a b) as (b & Hb & Hk).
  { destruct Hhk as [|a0 Ha0 Hx0|a0 Ha0]; [by exists a|congruence|]. exists (log_tidy clk a0).
    assert (a0 = a) as -> by congruence. rewrite lookup_insert_eq. split; [done|]. by apply tidy_keeps. }
  destruct Hr as [Hr|[-> _]]; [|eauto]. change v' with ((v', r).1). rewrite Hr. apply (Hspec v0 b); [|done|].
  - apply live_stream_ok. split; [done|]. by rewrite (proj1 Hk).
  - by rewrite <- Hr.
Qed.

Lemma update_keeps {A} pid name w (out : Result Error (AStream * A)) a b :
  w !! name = Some b -> keeps_producer pid a b ->
  (forall b' x, out = Ok (b', x) -> keeps_producer pid a b') ->
  exists b', (update_view w name out).1 !! name = Some b' /\ keeps_producer pid a b'.
Proof.
  intros Hb Hk Hout. destruct out as [[b' x]|e]; cbn; [|eauto]. rewrite lookup_insert_eq. eauto.
Qed.

(** ** One call and the producer *)

(** The next state of the producer, by what was accepted. *)
Definition producer_after (pid : string) (a a' : AStream) (accepted : list (Z * Z)) : Prop :=
  a_config a' = a_config a /\
  match accepted with
  | [] => a_producers a' !! pid = a_producers a !! pid
  | (e, q) :: _ => exists now, a_producers a' !! pid = Some (mkProducerState e q now)
  end.

(** An answer to the producer itself. *)
Lemma own_request s clk name msgs ct p close seq a :
  backend_inv s -> fits (view s) name msgs -> view s !! name = Some a ->
  is_stream_expired (clk 0%nat) (a_config a) = false ->
  (forall st, a_producers a !! ph_id p = Some st ->
     clk 1%nat - PRODUCER_STATE_TTL_SECS * NANOS_PER_SEC < ps_updated_at st) ->
  let op := OpProducer clk name msgs ct p close seq in
  exists a', view (run_op op s) !! name = Some a' /\ producer_after (ph_id p) a a' (accepted_by name (ph_id p) op s).
Proof.
  intros Hinv Hfit Ha Hx Hf op. cbn. rewrite decide_True by done.
  pose proof (law_append_with_producer s clk name msgs ct p close seq Hinv Hfit) as Hl.
  pose proof (append_with_producer_effect s clk name msgs ct p close seq Hinv Hfit) as He.
  destruct (Storage.append_with_producer _ _ _ _ _ _ _ _) as [s' r]. destruct He as [_ He], Hl as [_ Hl]. cbn.
  destruct r as [[e q off cl|e q off cl]|err].
  1:{ destruct He as (b & a' & Hb & Ha' & Heff). cbn in Heff. exists a'. split; [done|].
      destruct Hl as (v0 & Hhk & [Hs|(_ & ? & ? & _)]); [|done].
      apply accepted_content_type in Hs as (a0 & a2 & [Ha0 _]%live_stream_ok & Hv & Hcfg & _).
      destruct (housekeeping_lookup _ _ _ _ _ Hhk Ha0) as (b' & Hb' & Hsame).
      rewrite Hv, lookup_insert_eq in Ha'. injection Ha' as <-. split; [|eexists; apply Heff].
      rewrite Hcfg, Hsame. cbn. by assert (b' = a) as -> by congruence. }
  all: eapply (refined_keeps _ _ _ _ _ _ _ a Hl); [done..|]; intros w b Hlive Hk;
    pose proof Hlive as [Hb _]%live_stream_ok; unfold spec_append_with_producer; rewrite Hlive; cbn [result_bind];
    intros Hr; apply (update_keeps _ _ _ _ _ b); [done..|]; intros b' x Hout; rewrite Hout in Hr; cbn in Hr;
    destruct (log_produce _ _ _ _ _ _ _) as [[c [|]]|]; cbn in Hout; by simplify_eq.
Qed.

(** A request of another producer of the stream. *)
Lemma other_request s clk name pid msgs ct p close seq a :
  backend_inv s -> fits (view s) name msgs -> view s !! name = Some a ->
  is_stream_expired (clk 0%nat) (a_config a) = false -> ph_id p <> pid ->
  (forall st, a_producers a !! pid = Some st ->
     clk 1%nat - PRODUCER_STATE_TTL_SECS * NANOS_PER_SEC < ps_updated_at st) ->
  exists a', view (run_op (OpProducer clk name msgs ct p close seq) s) !! name = Some a' /\ keeps_producer pid a a'.
Proof.
  intros Hinv Hfit Ha Hx Hp Hf. cbn.
  pose proof (law_append_with_producer s clk name msgs ct p close seq Hinv Hfit) as Hl.
  destruct (Storage.append_with_producer _ _ _ _ _ _ _ _) as [s' r]. destruct Hl as [_ Hl]. cbn.
  eapply (refined_keeps _ _ _ _ _ _ _ a Hl); [done..|]. intros w b Hlive Hk _.
  pose proof Hlive as [Hb _]%live_stream_ok. unfold spec_append_with_producer. rewrite Hlive. cbn [result_bind].
  apply (update_keeps _ _ _ _ _ b); [done..|]. intros b' x Hout.
  assert (keeps_producer pid a (log_tidy clk b)) as [Hc Ht].
  { destruct Hk as [Hc Hk]. split; [done|]. rewrite <- Hk. apply tidy_keeps. by rewrite Hk. }
  unfold log_produce in Hout. destruct (if decide (msgs = []) then _ else _); [|done]. cbn [result_bind] in Hout.
  destruct (check_producer _ _ _) as [[|e q]|err]; cbn [result_bind] in Hout; [|by simplify_eq/=|done].
  destruct (validate_seq _ _); simplify_eq/=. destruct close; (split; [done|]); cbn; by rewrite lookup_insert_ne.
Qed.

(** Reference operations that leave a live stream's producers alone. *)
Definition spec_keeps {A} (clk : Clock) (name : string) (spec : View -> View * Result Error A) : Prop :=
  forall w b, live_stream clk name w = Ok b ->
    exists b', (spec w).1 !! name = Some b' /\ a_config b' = a_config b /\ a_producers b' = a_producers b.

Lemma spec_keeps_update {A} clk name (out : View -> Result Error (AStream * A)) :
  (forall w b b' x, live_stream clk name w = Ok b -> out w = Ok (b', x) ->
     a_config b' = a_config b /\ a_producers b' = a_producers b) ->
  spec_keeps clk name (fun w => update_view w name (out w)).
Proof.
  intros Hout w b Hb. specialize (Hout w b). destruct (out w) as [[b' x]|e]; cbn.
  - exists b'. rewrite lookup_insert_eq. split; [done|]. by apply (Hout b' x).
  - exists b. by apply live_stream_ok in Hb as [Hb _].
Qed.

Lemma appendable_live clk name ct w b c :
  live_stream clk name w = Ok b -> appendable clk name ct w = Ok c -> c = b.
Proof. intros Hb [Hc _]%appendable_ok. congruence. Qed.

Lemma spec_append_keeps clk name d ct : spec_keeps clk name (spec_append clk name d ct).
Proof.
  apply spec_keeps_update. intros w b b' x Hb Hx. destruct (appendable _ _ _ _) as [c|] eqn:Hc; [|done].
  rewrite (appendable_live _ _ _ _ _ _ Hb Hc) in Hx. by simplify_eq/=.
Qed.

Lemma spec_batch_append_keeps clk name msgs ct seq : spec_keeps clk name (spec_batch_append clk name msgs ct seq).
Proof.
  apply spec_keeps_update. intros w b b' x Hb Hx. case_decide; [done|].
  destruct (appendable _ _ _ _) as [c|] eqn:Hc; [|done]. rewrite (appendable_live _ _ _ _ _ _ Hb Hc) in Hx.
  cbn in Hx. by destruct (validate_seq _ _); simplify_eq/=.
Qed.

Lemma spec_close_keeps clk name : spec_keeps clk name (spec_close clk name).
Proof. apply spec_keeps_update. intros w b b' x Hb Hx. rewrite Hb in Hx. by simplify_eq/=. Qed.

Lemma spec_create_keeps clk name c : spec_keeps clk name (spec_create clk name c).
Proof.
  intros w b Hb. exists b. unfold spec_create. rewrite Hb. apply live_stream_ok in Hb as [Hb _].
  by destruct (config_eq _ _).
Qed.

Lemma spec_create_with_data_keeps clk name c msgs close :
  spec_keeps clk name (spec_create_with_data clk name c msgs close).
Proof.
  intros w b Hb. exists b. unfold spec_create_with_data. rewrite Hb. apply live_stream_ok in Hb as [Hb _].
  by destruct (config_eq _ _).
Qed.

(** A call other than a producer request leaves the producers of its stream alone. *)
Lemma refined_leaves {A} clk name pid (spec : View -> View * Result Error A) v v' r a :
  refined clk name spec v v' r -> spec_keeps clk name spec ->
  v !! name = Some a -> is_stream_expired (clk 0%nat) (a_config a) = false ->
  (forall st, a_producers a !! pid = Some st ->
     clk 1%nat - PRODUCER_STATE_TTL_SECS * NANOS_PER_SEC < ps_updated_at st) ->
  exists a', v' !! name = Some a' /\ producer_after pid a a' [].
Proof.
  intros Hr Hs Ha Hx Hf. apply (refined_keeps clk name pid spec v v' r a Hr Ha Hx Hf).
  intros w b Hb [Hc Hk] _. destruct (Hs w b Hb) as (b' & Hb' & Hc' & Hp'). exists b'.
  split; [done|]. split; congruence.
Qed.

Lemma remembered name pid op s a :
  op_name op = name -> view s !! name = Some a -> op_active name pid op s = true ->
  op_spares (a_config a) op = true /\
  forall st, a_producers a !! pid = Some st -> op_remembers st op = true.
Proof.
  intros Hn Ha. unfold op_active. rewrite decide_True, Ha by done. intros [Hs Hr]%andb_true_iff.
  split; [done|]. intros st Hst. by rewrite Hst in Hr.
Qed.

(** Any call. *)
Lemma call_producer op s a name pid :
  backend_inv s -> fits (view s) (op_name op) (op_msgs op) -> op_sized op ->
  view s !! name = Some a -> op_active name pid op s = true ->
  exists a', view (run_op op s) !! name = Some a' /\ producer_after pid a a' (accepted_by name pid op s).
Proof.
  intros Hinv Hfit Hsz Ha Hact. destruct (decide (op_name op = name)) as [Hn|Hn].
  2:{ destruct (run_op_ok op s Hinv Hfit Hsz) as [_ [Ho _]]. exists a. rewrite Ho by done.
      split; [done|]. unfold accepted_by. destruct op; try done. cbn in Hn. by rewrite decide_False by tauto. }
  destruct (remembered _ _ _ _ _ Hn Ha Hact) as [Hsp Hrem].
  destruct op as [clk n c|clk n c msgs cl|clk n d ct|clk n msgs ct q|clk n msgs ct p cl q|clk n|n|clk n];
    cbn in Hn; subst n; cbn [op_name op_msgs op_spares op_remembers op_sized] in *; [..|done|];
    apply negb_true_iff in Hsp; [| | | | | |].
  all: try assert (forall st, a_producers a !! pid = Some st ->
           clk 1%nat - PRODUCER_STATE_TTL_SECS * NANOS_PER_SEC < ps_updated_at st) as Hf
         by (intros st Hst; apply Z.ltb_lt; by apply Hrem).
  - pose proof (law_create s clk name c Hinv) as Hl. cbn. destruct (Storage.create_stream _ _ _ _).
    destruct Hl as [_ Hl]. by apply (refined_leaves _ _ _ _ _ _ _ _ Hl); [apply spec_create_keeps|..].
  - pose proof (law_create_with_data s clk name c msgs cl Hinv Hfit Hsz) as Hl. cbn.
    destruct (Storage.create_stream_with_data _ _ _ _ _ _).
    destruct Hl as [_ Hl]. by apply (refined_leaves _ _ _ _ _ _ _ _ Hl); [apply spec_create_with_data_keeps|..].
  - pose proof (law_append s clk name d ct Hinv Hfit) as Hl. cbn. destruct (Storage.append _ _ _ _ _).
    destruct Hl as [_ Hl]. by apply (refined_leaves _ _ _ _ _ _ _ _ Hl); [apply spec_append_keeps|..].
  - pose proof (law_batch_append s clk name msgs ct q Hinv Hfit) as Hl. cbn.
    destruct (Storage.batch_append _ _ _ _ _ _).
    destruct Hl as [_ Hl]. by apply (refined_leaves _ _ _ _ _ _ _ _ Hl); [apply spec_batch_append_keeps|..].
  - destruct (decide (ph_id p = pid)) as [<-|Hp]; [by apply own_request|].
    destruct (other_request s clk name pid msgs ct p cl q a) as (a' & Ha' & [Hc Hk]); [done..|].
    exists a'. split; [done|]. cbn. by rewrite decide_False by tauto.
  - pose proof (law_close s clk name Hinv) as Hl. cbn. destruct (Storage.close_stream _ _ _).
    destruct Hl as [_ Hl]. by apply (refined_leaves _ _ _ _ _ _ _ _ Hl); [apply spec_close_keeps|..].
  - pose proof (law_subscribe s clk name Hinv) as Hl. cbn. destruct (Storage.subscribe _ _ _) as [s' r].
    destruct Hl as (_ & Hv & _). exists a. cbn. by rewrite Hv.
Qed.

(** ** What the backend accepts *)

Definition producer_in_range (st : option ProducerState) : Prop := forall x, st = Some x -> state_in_range x.

Lemma unknown_in_range st : st = None -> producer_in_range st.
Proof. by intros -> ?. Qed.

(** An active call of the producer finds the state it left. *)
Lemma recorded_active name pid op s a clk :
  op_name op = name -> view s !! name = Some a -> op_active name pid op s = true ->
  (forall st, op_remembers st op = (clk 1%nat - PRODUCER_STATE_TTL_SECS * NANOS_PER_SEC <? ps_updated_at st)) ->
  recorded clk name pid (view s) = a_producers a !! pid.
Proof.
  intros Hn Ha Hact Hop. destruct (remembered _ _ _ _ _ Hn Ha Hact) as [_ Hrem]. unfold recorded. rewrite Ha.
  apply tidy_keeps. intros st Hst. specialize (Hrem st Hst). rewrite Hop in Hrem. by apply Z.ltb_lt.
Qed.

(** What gets accepted follows the state. *)
Lemma accepted_follows op s a name pid b l :
  backend_inv s -> fits (view s) (op_name op) (op_msgs op) -> view s !! name = Some a ->
  op_active name pid op s = true -> op_in_range op -> producer_in_range (a_producers a !! pid) ->
  accepted_by name pid op s = b :: l ->
  l = [] /\ 0 <= b.2 <= MAX_SAFE_INTEGER /\ chain (state_pair (a_producers a !! pid)) [b].
Proof.
  intros Hinv Hfit Ha Hact Hrange Hst. unfold accepted_by.
  destruct op as [| | | |clk n msgs ct p close seq| | |]; try done. case_decide as Hd; [|done]. destruct Hd as [-> <-].
  pose proof (producer_decided s clk name msgs ct p close seq Hinv Hfit) as Hdec.
  pose proof (append_with_producer_effect s clk name msgs ct p close seq Hinv Hfit) as He.
  destruct (Storage.append_with_producer _ _ _ _ _ _ _ _) as [s' [[e q off cl|]|]]; try done. cbn in Hdec.
  intros [= <- <-]. destruct He as [_ (b & b' & _ & _ & -> & -> & _)]. split; [done|]. split; [done|].
  destruct Hdec as (a' & Ha' & Hck). rewrite (recorded_active name (ph_id p) (OpProducer clk name msgs ct p close seq) s a clk eq_refl Ha Hact) in Hck by done.
  apply check_producer_accept in Hck as [_ Hnext]; [|done].
  destruct (a_producers a !! ph_id p) as [st|]; cbn in *;
    [apply chain_next; [exact Hnext|constructor]|apply chain_first; [exact Hnext|constructor]].
Qed.

Lemma producer_history s ops s' a name pid :
  history s ops s' -> backend_inv s -> view s !! name = Some a -> active name pid ops s = true ->
  Forall op_in_range ops -> producer_in_range (a_producers a !! pid) ->
  backend_inv s' /\ chain (state_pair (a_producers a !! pid)) (accepted_pairs name pid ops s) /\
  exists a', view s' !! name = Some a' /\ a_config a' = a_config a /\ producer_in_range (a_producers a' !! pid) /\
    state_pair (a_producers a' !! pid) = last_pair (state_pair (a_producers a !! pid)) (accepted_pairs name pid ops s).
Proof.
  intros Hh. revert a. induction Hh as [s|s op ops s' Hfit Hsz _ IH]; intros a Hinv Ha Hact Hrange Hst.
  { split; [done|]. split; [constructor|]. by exists a. }
  cbn in Hact. apply andb_true_iff in Hact as [Hact Hrest]. inversion_clear Hrange as [|? ? Hop Hops].
  destruct (call_producer op s a name pid Hinv Hfit Hsz Ha Hact) as (b & Hb & Hcfg & Hafter).
  destruct (run_op_ok op s Hinv Hfit Hsz) as [Hinv1 _]. cbn [accepted_pairs].
  destruct (accepted_by name pid op s) as [|[e q] l] eqn:Hacc.
  - rewrite <- Hafter in *. destruct (IH b) as (? & ? & a' & ? & ? & ?); [done..|].
    split; [done|]. split; [done|]. exists a'. split; [done|]. split; [congruence|done].
  - apply (accepted_follows op s a name pid (e, q) l) in Hacc as (-> & Hq & Hc); [|done..]. cbn.
    destruct Hafter as [now Hnow]. destruct (IH b) as (? & Hchain & a' & ? & ? & ? & Hlast); [done..| |].
    { rewrite Hnow. by intros ? [= <-]. }
    rewrite Hnow in Hchain, Hlast. cbn in Hchain, Hlast.
    split; [done|]. split.
    + by inversion Hc; subst; constructor.
    + exists a'. split; [done|]. split; [congruence|]. split; [done|]. by rewrite last_pair_cons.
Qed.

(** C21: a producer's requests are accepted exactly once and without gaps. Along
    any history of a backend, with calls of others anywhere in between, the
    requests of one producer that are accepted on its stream form a chain: each
    carries the successor of the sequence before it, or is the start of a later
    epoch, or, if the producer was not known, has sequence 0. No epoch and
    sequence is accepted twice, and at the end the recorded state is the last
    accepted one. This holds as long as the stream stays in place, neither deleted nor
    found expired, and no call to it comes more than seven days after the
    producer's last accepted request, when the backend forgets the producer. *)
Theorem producer_exactly_once s ops s' name pid a :
  backend_inv s -> history s ops s' -> view s !! name = Some a -> active name pid ops s = true ->
  Forall op_in_range ops -> producer_in_range (a_producers a !! pid) ->
  let pairs := accepted_pairs name pid ops s in
  chain (state_pair (a_producers a !! pid)) pairs /\ NoDup pairs /\
  exists a', view s' !! name = Some a' /\
    state_pair (a_producers a' !! pid) = last_pair (state_pair (a_producers a !! pid)) pairs.
Proof.
  intros Hinv Hh Ha Hact Hrange Hst pairs.
  destruct (producer_history s ops s' a name pid Hh Hinv Ha Hact Hrange Hst) as (_ & Hc & a' & Ha' & _ & _ & Hl).
  split; [done|]. split; [by eapply chain_nodup|]. eauto.
Qed.

(** ** Retries *)

(** The backend refuses for lack of resources only what it would otherwise accept. *)
Definition refuses_only_new : Prop :=
  forall s clk name msgs ct p close seq e,
    backend_inv s -> fits (view s) name msgs ->
    (Storage.append_with_producer clk name msgs ct p close seq s).2 = Err e -> resource_error e = true ->
    decided clk name p (view s) (Ok CheckAccept).

(** The answer to a retry of the accepted [(e, q)] when [(e', q')] is the last accepted. *)
Definition retry_answer (may_refuse : bool) (e e' q' : Z) (a : AStream) (r : Result Error ProducerAppendResult) : Prop :=
  r = (if e' =? e then Ok (Duplicate e q' (a_next_offset a) (a_closed a)) else Err (EpochFenced e' e)) \/
  (may_refuse = true /\ exists err, r = Err err /\ resource_error err = true).

(** An accepted request that arrives again after any history in which its producer
    stayed active is answered by what was accepted last, and changes no log. *)
Definition retries_harmless (may_refuse : bool) : Prop :=
  forall s clk name msgs ct p close seq s1 e q off cl ops s2 clk',
    backend_inv s -> fits (view s) name msgs -> 0 <= ph_seq p <= MAX_SAFE_INTEGER ->
    Storage.append_with_producer clk name msgs ct p close seq s = (s1, Ok (Accepted e q off cl)) ->
    history s1 ops s2 -> Forall op_in_range ops -> fits (view s2) name msgs ->
    active name (ph_id p) (ops ++ [OpProducer clk' name msgs ct p close seq]) s1 = true ->
    let '(s3, r) := Storage.append_with_producer clk' name msgs ct p close seq s2 in
    exists a2 a3 e' q', view s2 !! name = Some a2 /\ view s3 !! name = Some a3 /\ same_log a2 a3 /\
      last_pair (Some (e, q)) (accepted_pairs name (ph_id p) ops s1) = Some (e', q') /\
      retry_answer may_refuse e e' q' a2 r.

Lemma active_app name pid ops ops' s s' :
  history s ops s' -> active name pid (ops ++ ops') s = active name pid ops s && active name pid ops' s'.
Proof. induction 1 as [s|s op ops s' _ _ _ IH]; [done|]. cbn. by rewrite IH, andb_assoc. Qed.

(** A retry finds the last accepted request recorded, at or above its own. *)
Lemma check_retry st p closed e' q' :
  state_pair st = Some (e', q') -> (e', q') = (ph_epoch p, ph_seq p) \/ pair_lt (ph_epoch p, ph_seq p) (e', q') ->
  check_producer st p closed =
  if e' =? ph_epoch p then Ok (CheckDuplicate (ph_epoch p) q') else Err (EpochFenced e' (ph_epoch p)).
Proof.
  destruct st as [x|]; [|done]. intros [= <- <-] Hle. unfold check_producer, pair_lt in *. cbn in Hle.
  assert (ps_epoch x = ph_epoch p /\ ph_seq p <= ps_last_seq x \/ ph_epoch p < ps_epoch x) as [[-> Hq]|Hlt].
  { destruct Hle as [[= -> ->]|Hle]; lia. }
  - rewrite Z.ltb_irrefl, Z.eqb_refl. cbn. by rewrite (proj2 (Z.leb_le _ _) Hq).
  - rewrite (proj2 (Z.ltb_lt _ _) Hlt), (proj2 (Z.eqb_neq _ _)) by lia. done.
Qed.

Lemma log_produce_check a msgs ct p close seq now :
  (msgs = [] \/ validate_content_type (content_type (a_config a)) ct = Ok tt) ->
  match check_producer (a_producers a !! ph_id p) p (a_closed a) with
  | Ok (CheckDuplicate e q) => log_produce a msgs ct p close seq now = Ok (a, Duplicate e q (a_next_offset a) (a_closed a))
  | Err err => log_produce a msgs ct p close seq now = Err err
  | _ => True
  end.
Proof.
  intros Hct. unfold log_produce. assert ((if decide (msgs = []) then Ok tt
    else validate_content_type (content_type (a_config a)) ct) = Ok tt) as ->.
  { case_decide; [done|]. by destruct Hct. }
  cbn [result_bind]. by destruct (check_producer _ _ _) as [[|]|].
Qed.

Lemma retry_at may_refuse s clk name msgs ct p close seq a e' q' :
  (may_refuse = false -> refuses_only_new) ->
  let op := OpProducer clk name msgs ct p close seq in
  backend_inv s -> fits (view s) name msgs -> view s !! name = Some a -> op_active name (ph_id p) op s = true ->
  (msgs = [] \/ validate_content_type (content_type (a_config a)) ct = Ok tt) ->
  state_pair (a_producers a !! ph_id p) = Some (e', q') ->
  (e', q') = (ph_epoch p, ph_seq p) \/ pair_lt (ph_epoch p, ph_seq p) (e', q') ->
  let '(s', r) := Storage.append_with_producer clk name msgs ct p close seq s in
  exists a', view s' !! name = Some a' /\ same_log a a' /\ retry_answer may_refuse (ph_epoch p) e' q' a r.
Proof.
  intros Hmay op Hinv Hfit Ha Hact Hct Hst Hle.
  pose proof (recorded_active name (ph_id p) op s a clk eq_refl Ha Hact) as Hrec. unfold recorded in Hrec.
  rewrite Ha in Hrec. destruct (remembered name (ph_id p) op s a eq_refl Ha Hact) as [Hx%negb_true_iff _].
  assert (live_stream clk name (view s) = Ok a) as Hlive by by apply live_stream_ok.
  pose proof (check_retry _ p (a_closed a) e' q' Hst Hle) as Hck. rewrite <- Hrec in Hck by done.
  pose proof (log_produce_check (log_tidy clk a) msgs ct p close seq (clk 2%nat) Hct) as Hp.
  change (a_closed (log_tidy clk a)) with (a_closed a) in Hp. rewrite Hck in Hp.
  pose proof (law_append_with_producer s clk name msgs ct p close seq Hinv Hfit) as Hl.
  destruct (Storage.append_with_producer _ _ _ _ _ _ _ _) as [s' r] eqn:Hrun. destruct Hl as (_ & v0 & Hhk & Hl).
  destruct (housekeeping_live _ _ _ _ _ Hhk Hlive) as (b & Hb & Htidy).
  pose proof (proj1 (live_stream_ok _ _ _ _) Hb) as [Hv0 _].
  destruct (housekeeping_lookup _ _ _ _ _ Hhk Hv0) as (a0 & Ha0 & Hsame). assert (a0 = a) as -> by congruence.
  exists b. unfold retry_answer. destruct Hl as [Hs|(-> & err & -> & He)].
  2:{ split_and!; [done..|]. right. split; [|by eauto]. destruct may_refuse; [done|].
      destruct (Hmay eq_refl s clk name msgs ct p close seq err Hinv Hfit) as (a' & Ha' & Hacc); [by rewrite Hrun|done|].
      unfold recorded in Hacc. rewrite Ha, Hrec in Hacc by done. assert (a' = a) as -> by congruence.
      rewrite (check_retry _ p (a_closed a) e' q' Hst Hle) in Hacc. by destruct (e' =? _). }
  unfold spec_append_with_producer in Hs. rewrite Hb in Hs. cbn [result_bind] in Hs. rewrite Htidy in Hs.
  destruct (e' =? ph_epoch p); rewrite Hp in Hs; injection Hs as -> ->; (split; [|by eauto]);
    [by rewrite lookup_insert_eq|done].
Qed.

(** On any lawful backend a retry is harmless, though resources may run out if the
    backend looks at them first. *)
Lemma retries_harmless_lawful may_refuse : (may_refuse = false -> refuses_only_new) -> retries_harmless may_refuse.
Proof.
  intros Hmay s clk name msgs ct p close seq s1 e q off cl ops s2 clk' Hinv Hfit Hq Hrun Hh Hops Hfit2 Hact.
  pose proof (law_append_with_producer s clk name msgs ct p close seq Hinv Hfit) as Hl.
  rewrite Hrun in Hl. destruct Hl as (Hinv1 & v0 & _ & [Hs|(_ & ? & ? & _)]); [|done].
  apply accepted_content_type in Hs as (a0 & a1 & _ & Hv1 & Hcfg & -> & -> & _ & _ & Hst & Hct).
  assert (view s1 !! name = Some a1) as Ha1 by by rewrite Hv1, lookup_insert_eq.
  rewrite (active_app _ _ _ _ _ _ Hh) in Hact. apply andb_true_iff in Hact as [Hact Hlast].
  cbn in Hlast. rewrite andb_true_r in Hlast.
  destruct (producer_history s1 ops s2 a1 name (ph_id p) Hh Hinv1 Ha1 Hact Hops) as
    (Hinv2 & Hchain & a2 & Ha2 & Hcfg2 & _ & Hpair).
  { rewrite Hst. by intros ? [= <-]. }
  rewrite Hst in Hchain, Hpair. cbn in Hchain, Hpair.
  destruct (last_pair (Some (ph_epoch p, ph_seq p)) (accepted_pairs name (ph_id p) ops s1)) as [[e' q']|] eqn:Hlp.
  2:{ exfalso. revert Hlp. unfold last_pair. by destruct (last _). }
  pose proof (last_pair_at_least _ _ _ Hchain Hlp) as Hle.
  pose proof (retry_at may_refuse s2 clk' name msgs ct p close seq a2 e' q' Hmay Hinv2 Hfit2 Ha2 Hlast) as Hr.
  rewrite Hcfg2, Hcfg in Hr. specialize (Hr Hct Hpair Hle).
  destruct (Storage.append_with_producer clk' _ _ _ _ _ _ _) as [s3 r]. destruct Hr as (a3 & Ha3 & Hsame & Hans).
  exists a2, a3, e', q'. by split_and!.
Qed.
End Calls.
