(* ===== verification/Calls.v ===== *)
(** * Calls: concurrent calls on a storage

    What the concurrent models of the backends share: calls and their answers, the
    reference operations as one function, and what is seen of a run. *)

From S2P Require Import Prelude Errors Offsets RustStd Headers StorageCore LogSpec StorageTrace.

(** ** Calls and answers *)

Inductive Request : Type :=
  | Write (op : StorageOp)
  | Read (clk : Clock) (name : string) (from : Offset)
  | Head (clk : Clock) (name : string).

Inductive Answer : Type :=
  | AnsCreate (r : Result Error CreateStreamResult)
  | AnsCreateData (r : Result Error CreateWithDataResult)
  | AnsAppend (r : Result Error Offset)
  | AnsProducer (r : Result Error ProducerAppendResult)
  | AnsUnit (r : Result Error unit)
  | AnsRead (r : Result Error ReadResult)
  | AnsHead (r : Result Error StreamMetadata).

Definition answer_err (ans : Answer) : option Error :=
  match ans with
  | AnsCreate (Err e) | AnsCreateData (Err e) | AnsAppend (Err e) | AnsProducer (Err e)
  | AnsUnit (Err e) | AnsRead (Err e) | AnsHead (Err e) => Some e
  | _ => None
  end.

Definition with_answer {S R} (f : Result Error R -> Answer) (out : S * Result Error R) : S * Answer :=
  (out.1, f out.2).

(** The reference operations, as one function. *)
Definition spec_op (op : StorageOp) (v : View) : View * Answer :=
  match op with
  | OpCreate clk n config => with_answer AnsCreate (spec_create clk n config v)
  | OpCreateWithData clk n config msgs close =>
      with_answer AnsCreateData (spec_create_with_data clk n config msgs close v)
  | OpAppend clk n data ct => with_answer AnsAppend (spec_append clk n data ct v)
  | OpBatchAppend clk n msgs ct seq => with_answer AnsAppend (spec_batch_append clk n msgs ct seq v)
  | OpProducer clk n msgs ct p close seq =>
      with_answer AnsProducer (spec_append_with_producer clk n msgs ct p close seq v)
  | OpClose clk n => with_answer AnsUnit (spec_close clk n v)
  | OpDelete n => with_answer AnsUnit (spec_delete n v)
  | OpSubscribe _ _ => (v, AnsUnit (Ok tt))
  end.
Definition spec_request (q : Request) (v : View) : View * Answer :=
  match q with
  | Write op => spec_op op v
  | Read clk n from => (v, AnsRead (spec_read clk n from v))
  | Head clk n => (v, AnsHead (spec_head clk n v))
  end.

(** What a client may be told of a call on the logs [v] that leaves [v']: what the
    abstract log says, or that resources ran out, and then nothing happened. *)
Definition explains (v : View) (q : Request) (ans : Answer) (v' : View) : Prop :=
  (v', ans) = spec_request q v \/
  (v' = v /\ exists e, answer_err ans = Some e /\ resource_error e = true).

(** What is seen of a run: a caller makes a call, the call takes effect, the caller gets
    the answer. *)
Inductive Label : Type :=
  | Invoke (tid : string) (q : Request)
  | Effect (tid : string) (q : Request) (ans : Answer)
  | Respond (tid : string) (q : Request) (ans : Answer).
Definition label_tid (l : Label) : string :=
  match l with Invoke tid _ | Effect tid _ _ | Respond tid _ _ => tid end.

(** What a caller is doing, by the labels that concern it: nothing, waiting for a call
    to take effect, waiting for its answer. *)
Inductive Phase : Type :=
  | Idle
  | Waiting (q : Request)
  | Answered (q : Request) (ans : Answer).

(** Every answer is that of an effect between its call and its return. *)
Inductive follows : Phase -> list Label -> Phase -> Prop :=
  | follows_nil ph : follows ph [] ph
  | follows_invoke ph tr tid q :
      follows ph tr Idle -> follows ph (tr ++ [Invoke tid q]) (Waiting q)
  | follows_effect ph tr tid q ans :
      follows ph tr (Waiting q) -> follows ph (tr ++ [Effect tid q ans]) (Answered q ans)
  | follows_respond ph tr tid q ans :
      follows ph tr (Answered q ans) -> follows ph (tr ++ [Respond tid q ans]) Idle.

(** The labels of a caller. *)
Definition labels_of (tid : string) (tr : list Label) : list Label := filter (fun l => label_tid l = tid) tr.

(** A request within the address space. *)
Definition callable (q : Request) : Prop :=
  match q with
  | Write (OpSubscribe _ _) => False
  | Write op => payload (op_msgs op) <= ISIZE_MAX /\ op_sized op
  | Read _ _ _ | Head _ _ => True
  end.
