(* ===== verification/Wakeups.v ===== *)
(** * Wakeups: no wake-up is lost

    A long poll or an SSE connection subscribes to a stream, reads it, and only then waits.
    [RingingStorage] is what a backend promises to such a waiter about the notifications it
    sends, for the calls it names; from it follows that whatever these calls bring after the
    read has already rung the channel. *)

From S2P Require Import Prelude Errors Offsets RustStd Headers StorageCore LogSpec StorageTrace.

(** ** What changes a log *)

Section Loud.
Context {S : Type} `{!Storage.StorageOps S} `{!LawfulStorage S}.

(** By its answer, the call has added messages or closed the stream. *)
Definition op_loud (op : StorageOp) (s : S) : bool :=
  match op with
  | OpAppend clk n data ct => is_ok (Storage.append clk n data ct s).2
  | OpBatchAppend clk n msgs ct seq => is_ok (Storage.batch_append clk n msgs ct seq s).2
  | OpProducer clk n msgs ct p close seq =>
      match (Storage.append_with_producer clk n msgs ct p close seq s).2 with
      | Ok (Accepted _ _ _ _) => negb (bool_decide (msgs = [])) || close
      | _ => false
      end
  | OpClose clk n => is_ok (Storage.close_stream clk n s).2
  | _ => false
  end.

(** What a waiter is waiting for. *)
Definition unchanged (a a' : AStream) : Prop := a_msgs a' = a_msgs a /\ a_closed a' = a_closed a.

Lemma same_log_unchanged a a' : same_log a a' -> unchanged a a'.
Proof. by intros ->. Qed.

Lemma untouched_unchanged v v' name a a' :
  untouched v v' name -> v !! name = Some a -> v' !! name = Some a' -> unchanged a a'.
Proof. intros Hun Ha Ha'. destruct (Hun a' Ha') as (b & Hb & Hs). simplify_eq. by apply same_log_unchanged. Qed.

(** A create finds a live stream and leaves it. *)
Lemma create_unchanged {A} clk name (spec : View -> View * Result Error A) v v' r a a' :
  refined clk name spec v v' r -> v !! name = Some a -> is_stream_expired (clk 0%nat) (a_config a) = false ->
  (forall w b, live_stream clk name w = Ok b -> (spec w).1 = w) -> v' !! name = Some a' -> unchanged a a'.
Proof.
  intros (v0 & Hhk & Hr) Ha Hx Hspec Ha'.
  assert (exists b, v0 !! name = Some b /\ same_log a b) as (b & Hb & Hab).
  { destruct Hhk as [|a0 Ha0 Hx0|a0 Ha0]; [by exists a|congruence|]. exists (log_tidy clk a0). rewrite lookup_insert_eq.
    assert (a0 = a) as -> by congruence. by split. }
  assert (v' = v0) as ->.
  { destruct Hr as [Hr|[-> _]]; [|done]. change v' with ((v', r).1). rewrite Hr. apply (Hspec v0 b).
    apply live_stream_ok. split; [done|]. by rewrite Hab. }
  rewrite Hb in Ha'. injection Ha' as <-. by apply same_log_unchanged.
Qed.

(** A call whose answer reports no change made none. *)
Lemma quiet_unchanged op s name a a' :
  backend_inv s -> fits (view s) (op_name op) (op_msgs op) -> op_sized op -> view s !! name = Some a ->
  (op_name op = name -> op_spares (a_config a) op = true /\ op_loud op s = false) ->
  view (run_op op s) !! name = Some a' -> unchanged a a'.
Proof.
  intros Hinv Hfit Hsz Ha Hq Ha'. destruct (decide (op_name op = name)) as [Hn|Hne].
  2:{ destruct (run_op_ok op s Hinv Hfit Hsz) as [_ [Hother _]]. rewrite Hother in Ha' by done. by simplify_eq. }
  destruct (Hq Hn) as [Hsp Hl]. destruct op as [clk n c|clk n c msgs cl|clk n d ct|clk n msgs ct q
    |clk n msgs ct p cl q|clk n|n|clk n]; cbn in Hn, Hsp, Hl, Hfit, Ha' |- *; subst n; rewrite ?negb_true_iff in Hsp.
  - pose proof (law_create s clk name c Hinv) as Hc. destruct (Storage.create_stream _ _ _ _) as [s' r].
    destruct Hc as [_ Hc]. eapply (create_unchanged _ _ _ _ _ _ _ _ Hc Ha Hsp); [|exact Ha'].
    intros w b Hb. unfold spec_create. rewrite Hb. by destruct (config_eq _ _).
  - pose proof (law_create_with_data s clk name c msgs cl Hinv Hfit Hsz) as Hc.
    destruct (Storage.create_stream_with_data _ _ _ _ _ _) as [s' r].
    destruct Hc as [_ Hc]. eapply (create_unchanged _ _ _ _ _ _ _ _ Hc Ha Hsp); [|exact Ha'].
    intros w b Hb. unfold spec_create_with_data. rewrite Hb. by destruct (config_eq _ _).
  - pose proof (law_append s clk name d ct Hinv Hfit) as Hc. destruct (Storage.append _ _ _ _ _) as [s' [o|e]]; [done|].
    destruct Hc as [_ Hc]. unfold spec_append in Hc. apply refined_err in Hc. by eapply untouched_unchanged.
  - pose proof (batch_append_effect s clk name msgs ct q Hinv Hfit) as Hc.
    destruct (Storage.batch_append _ _ _ _ _ _) as [s' [o|e]]; [done|]. destruct Hc as [_ Hc]. by eapply untouched_unchanged.
  - pose proof (append_with_producer_effect s clk name msgs ct p cl q Hinv Hfit) as Hc.
    destruct (Storage.append_with_producer _ _ _ _ _ _ _ _) as [s' [x|e]]; destruct Hc as [_ Hc];
      [|by eapply untouched_unchanged].
    destruct Hc as (b & b' & Hb & Hb' & He). cbn in Ha'. simplify_eq. destruct x as [ep sq off closed|ep sq off closed]; cbn in He, Hl.
    + destruct He as (_ & _ & _ & _ & Ho & Hc & Hm & _). apply orb_false_iff in Hl as [Hl ->].
      apply negb_false_iff, bool_decide_eq_true in Hl as ->. rewrite app_nil_r in Hm. split; congruence.
    + apply same_log_unchanged, He.
  - pose proof (close_effect s clk name Hinv) as Hc. destruct (Storage.close_stream _ _ _) as [s' [[]|e]]; [done|].
    destruct Hc as [_ Hc]. by eapply untouched_unchanged.
  - done.
  - pose proof (law_subscribe s clk name Hinv) as Hc. destruct (Storage.subscribe _ _ _) as [s' rx].
    destruct Hc as (_ & Hv & _). cbn in Ha'. rewrite Hv in Ha'. by simplify_eq.
Qed.
End Loud.

(** ** The promise *)

(** [channel s name] counts the notifications sent on the channel of a stream; [op_rings]
    says for which calls the backend promises to notify of what they change. *)
Class RingingStorage (S : Type) `{!Storage.StorageOps S} `{!LawfulStorage S}
    (channel : S -> string -> option Z) (op_rings : StorageOp -> bool) : Prop := {
  ring_subscribe s clk name s' rx :
    backend_inv s -> Storage.subscribe clk name s = (s', Some rx) -> channel s' name = Some rx;
  ring_keeps op s name a n :
    backend_inv s -> fits (view s) (op_name op) (op_msgs op) -> op_sized op -> view s !! name = Some a ->
    (op_name op = name -> op_spares (a_config a) op = true) -> channel s name = Some n ->
    exists n', channel (run_op op s) name = Some n' /\ n <= n';
  ring_loud op s n n' :
    backend_inv s -> fits (view s) (op_name op) (op_msgs op) -> op_rings op = true -> op_loud op s = true ->
    channel s (op_name op) = Some n -> channel (run_op op s) (op_name op) = Some n' -> n < n'
}.

Section Waiting.
Context {S : Type} `{!Storage.StorageOps S} `{!LawfulStorage S}.
Context (channel : S -> string -> option Z) (op_rings : StorageOp -> bool) `{!RingingStorage S channel op_rings}.

(** The channel along a history: it never goes back, and has rung if the log changed. *)
Lemma history_channel s ops s' name a n :
  history s ops s' -> backend_inv s -> view s !! name = Some a -> channel s name = Some n ->
  (forall op, op ∈ ops -> op_name op = name -> op_spares (a_config a) op = true) ->
  exists a' n', view s' !! name = Some a' /\ evolves a a' /\ channel s' name = Some n' /\ n <= n' /\
    ((forall op, op ∈ ops -> op_name op = name -> op_rings op = true) -> n < n' \/ unchanged a a').
Proof.
  intros Hh. revert a n. induction Hh as [s|s op ops s' Hfit Hsz _ IH]; intros a n Hinv Ha Hn Hsp.
  - exists a, n. split_and!; try done. by right.
  - destruct (run_op_ok op s Hinv Hfit Hsz) as [Hinv1 [Hother Hown]].
    assert (op_name op = name -> op_spares (a_config a) op = true) as Hsp0 by (intros; apply Hsp; [left|done]).
    assert (exists b, view (run_op op s) !! name = Some b /\ evolves a b) as (b & Hb & Hab).
    { destruct (decide (op_name op = name)) as [<-|Hne]; [by apply Hown; [|apply Hsp0]|].
      exists a. rewrite Hother by done. done. }
    destruct (ring_keeps op s name a n Hinv Hfit Hsz Ha Hsp0 Hn) as (n1 & Hn1 & Hle).
    destruct (IH b n1 Hinv1 Hb Hn1) as (a' & n' & Ha' & Hev & Hn' & Hle' & Hring).
    { intros op' Hop Hnm. rewrite (ev_config _ _ Hab). apply Hsp; [by right|done]. }
    exists a', n'. split_and!; [done|by etrans|done|lia|]. intros Hall.
    destruct Hring as [?|Hun]; [intros; apply Hall; [by right|done]|left; lia|].
    destruct (decide (op_name op = name /\ op_loud op s = true)) as [[<- Hloud]|Hquiet].
    + left. pose proof (ring_loud op s n n1 Hinv Hfit (Hall op (list_elem_of_here _ _) eq_refl) Hloud Hn Hn1). lia.
    + right. assert (unchanged a b) as [Hm Hc].
      { apply (quiet_unchanged op s name a b Hinv Hfit Hsz Ha); [|done]. intros Heq. split; [by apply Hsp0|].
        destruct (op_loud op s); [|done]. by destruct Hquiet. }
      destruct Hun. split; congruence.
Qed.

(** A waiter subscribes, later reads, and later still waits, while calls among those in
    [op_rings] that leave the stream in place run in between. Then either its channel has
    rung, so that the wait ends at once, or a re-read from the returned offset would find
    neither a message nor that the stream has been closed since. *)
Definition loses_no_wakeup : Prop :=
  forall s s0 s1 s2 ops0 ops1 clk0 clk1 clk2 name o a rx r,
  backend_inv s -> Storage.subscribe clk0 name s = (s0, Some rx) -> view s0 !! name = Some a ->
  history s0 ops0 s1 -> offset_wf o -> Storage.read clk1 name o s1 = Ok r -> history s1 ops1 s2 ->
  (forall op, op ∈ ops0 ++ ops1 -> op_name op = name -> op_spares (a_config a) op = true /\ op_rings op = true) ->
  is_stream_expired (clk2 0%nat) (a_config a) = false ->
  exists r2 rung, Storage.read clk2 name (rr_next_offset r) s2 = Ok r2 /\ channel s2 name = Some rung /\
    (rx < rung \/ (rr_messages r2 = [] /\ rr_closed r2 = rr_closed r)).

Lemma ringing_loses_no_wakeup : loses_no_wakeup.
Proof using All.
  intros s s0 s1 s2 ops0 ops1 clk0 clk1 clk2 name o a rx r Hinv Hsub Ha Hh0 Hwf Hr Hh1 Hall Hx. pose proof (ring_subscribe _ _ _ _ _ Hinv Hsub) as Hrx.
  assert (backend_inv s0) as Hinv0 by (pose proof (law_subscribe s clk0 name Hinv) as Hl; rewrite Hsub in Hl; apply Hl).
  destruct (history_channel _ _ _ name a rx Hh0 Hinv0 Ha Hrx) as (a1 & n1 & Ha1 & Hev1 & Hn1 & Hle1 & _).
  { intros op Hop Hn. apply Hall; [set_solver|done]. }
  destruct (history_ok _ _ _ Hh0 Hinv0) as [Hinv1 _].
  destruct (history_channel _ _ _ name a1 n1 Hh1 Hinv1 Ha1 Hn1) as (a2 & n2 & Ha2 & Hev2 & Hn2 & Hle2 & Hring).
  { intros op Hop Hn. rewrite (ev_config _ _ Hev1). apply Hall; [set_solver|done]. }
  destruct (history_ok _ _ _ Hh1 Hinv1) as [Hinv2 _].
  rewrite law_read in Hr by done. unfold spec_read in Hr.
  destruct (live_stream clk1 name (view s1)) as [b|] eqn:Hb; [|done]. apply live_stream_ok in Hb as [Hb _].
  rewrite Ha1 in Hb. injection Hb as <-. injection Hr as <-. cbn [rr_next_offset rr_closed].
  destruct (ev_prefix _ _ Hev2) as [more Hmore].
  exists (mkReadResult more (a_next_offset a2) true (a_closed a2)), n2. split_and!; [|done|].
  - apply (read_resume s2 clk2 name a2 (a_msgs a1) more Hinv2); [by eapply (law_bounded s1)| |done].
    apply live_stream_ok. split; [done|]. by rewrite (ev_config _ _ Hev2), (ev_config _ _ Hev1).
  - destruct Hring as [?|[Hm Hc]]; [intros op Hop Hn; apply Hall; [set_solver|done]|left; lia|].
    right. cbn. split; [|done]. rewrite Hm in Hmore. apply (app_inv_head (a_msgs a1)). by rewrite app_nil_r.
Qed.
End Waiting.

(** ** Critical sections that count *)

(** For sections on a state with a counter of notifications. *)
Section Counting.
Context {L : Type} (count : L -> Z).

Definition never_back {A} (m : ST L Error A) : Prop := forall l, count l <= count (m l).1.
Definition rings_for {A} (P : A -> bool) (m : ST L Error A) : Prop :=
  forall l, match (m l).2 with Ok x => P x = true -> count l < count (m l).1 | Err _ => True end.

Lemma never_back_bind {A B} (m : ST L Error A) (k : A -> ST L Error B) :
  never_back m -> (forall x, never_back (k x)) -> never_back (st_bind m k).
Proof.
  intros Hm Hk l. unfold st_bind. specialize (Hm l). destruct (m l) as [l1 [x|e]]; cbn in *; [|done].
  specialize (Hk x l1). lia.
Qed.
Lemma rings_before {A B} P (m : ST L Error A) (k : A -> ST L Error B) :
  rings_for (fun _ => true) m -> (forall x, never_back (k x)) -> rings_for P (st_bind m k).
Proof.
  intros Hm Hk l. unfold st_bind. specialize (Hm l). destruct (m l) as [l1 [x|e]]; cbn in *; [|done].
  specialize (Hk x l1). specialize (Hm eq_refl). destruct (k x l1) as [l2 [y|e]]; cbn in *; [lia|done].
Qed.
Lemma rings_after {A B} P (m : ST L Error A) (k : A -> ST L Error B) :
  never_back m -> (forall x, rings_for P (k x)) -> rings_for P (st_bind m k).
Proof.
  intros Hm Hk l. unfold st_bind. specialize (Hm l). destruct (m l) as [l1 [x|e]]; cbn in *; [|done].
  specialize (Hk x l1). destruct (k x l1) as [l2 [y|e]]; cbn in *; [|done]. intros Hy. specialize (Hk Hy). lia.
Qed.
End Counting.
