(* ===== verification/SseStream.v ===== *)
(** * SseStream: the SSE loop of src/handlers/get.rs

    [build_sse_byte_stream] as the code between two yields: what it emits first,
    and what it emits and waits for next on each wake-up of its [select!]. The
    relation [sse_step] interleaves it with calls on the storage by others. *)

From S2P Require Import Prelude Errors Offsets RustStd Headers Cursor StorageCore JsonMode Sse.
From S2P Require Import Http ReadHandlers LogSpec StorageTrace.

(** The local state of the wait loop; instants and timeouts are in nanoseconds. *)
Record SseLoop : Type := mkSseLoop {
  sl_tail : Offset;
  sl_idle_deadline : option Z
}.

(** Which branch of the [select!] fired. *)
Inductive SseEvent : Type :=
  | Received          (** a notification, or [Lagged] *)
  | ChannelClosed     (** [RecvError::Closed] *)
  | KeepAlive         (** fifteen seconds without anything else *)
  | IdleTimeout.      (** the idle deadline *)

Section SseStream.
Context {S : Type} `{!Storage.StorageOps S}.
Variable base64_encode : bytes -> bytes.
Variable json_string : string -> bytes.
Variables (is_binary is_json : bool) (reconnect_interval_secs : Z).

(** [if reconnect_interval_secs > 0 { Some(..) } else { None }] *)
Definition idle_timeout : option Z :=
  if 0 <? reconnect_interval_secs then Some (reconnect_interval_secs * NANOS_PER_SEC) else None.

(** The data frames, if there are any, and the control frame of a read. *)
Definition emit_read (r : ReadResult) : HM S bytes :=
  let data_frames := format_data_frames base64_encode (rr_messages r) is_binary is_json in
  do* control := build_sse_control r in
  h_ret (data_frames ++ format_control_frame json_string control).

(** The stream up to its first wait; [now] is [Instant::now()]. *)
Definition sse_start (now : Z) (initial_read : ReadResult) : HM S (bytes * option SseLoop) :=
  do* out := emit_read initial_read in
  h_ret (out, if rr_closed initial_read && rr_at_tail initial_read then None
              else Some (mkSseLoop (rr_next_offset initial_read)
                           ((fun t => now + t) <$> idle_timeout))).

(** One round of the loop. *)
Definition sse_round (now : Z) (clk : Clock) (name : string) (ev : SseEvent) (l : SseLoop)
  : HM S (bytes * option SseLoop) :=
  match ev with
  | ChannelClosed =>
      do* r := try_store (fun s => (s, Storage.read clk name (sl_tail l) s)) in
      match r with
      | Ok rr => do* out := emit_read rr in h_ret (out, None)
      | Err _ => h_ret ([], None)
      end
  | KeepAlive => h_ret (format_keepalive_frame, Some l)
  | IdleTimeout => h_ret ([], None)
  | Received =>
      do* r := try_store (fun s => (s, Storage.read clk name (sl_tail l) s)) in
      match r with
      | Err _ => h_ret ([], None)
      | Ok rr =>
          do* out := emit_read rr in
          let deadline := match rr_messages rr, idle_timeout with
                          | _ :: _, Some t => Some (now + t)
                          | _, _ => sl_idle_deadline l
                          end in
          h_ret (out, if rr_closed rr && rr_at_tail rr then None
                      else Some (mkSseLoop (rr_next_offset rr) deadline))
      end
  end.

(** The branches that can fire: the idle one only at its deadline. *)
Definition enabled (now : Z) (ev : SseEvent) (l : SseLoop) : Prop :=
  match ev with
  | IdleTimeout => match sl_idle_deadline l with Some d => d <= now | None => False end
  | _ => True
  end.

(** A connection in its environment: the server, the loop (gone when the stream
    has ended), the bytes sent so far and the batches they carry. *)
Record Connection : Type := mkConnection {
  cn_server : Server S;
  cn_loop : option SseLoop;
  cn_sent : bytes;
  cn_batches : list (list bytes)
}.

(** The messages a round delivers: those of its read. *)
Definition round_batch (clk : Clock) (name : string) (ev : SseEvent) (l : SseLoop) (s : S)
  : list (list bytes) :=
  match ev with
  | Received | ChannelClosed =>
      match Storage.read clk name (sl_tail l) s with Ok rr => [rr_messages rr] | Err _ => [] end
  | KeepAlive | IdleTimeout => []
  end.
End SseStream.

Section Delivery.
Context {S : Type} `{!Storage.StorageOps S} `{!LawfulStorage S}.
Variable base64_encode : bytes -> bytes.
Variable json_string : string -> bytes.
Variables (is_binary is_json : bool) (reconnect_interval_secs : Z).
Variables (name : string) (config : StreamConfig).

Abbreviation round := (sse_round base64_encode json_string is_binary is_json reconnect_interval_secs).

(** A call by someone else that leaves the stream in place, or a round. *)
Inductive sse_step : Connection -> Connection -> Prop :=
  | sse_env op srv l out bs c :
      fits (view (srv_storage srv)) (op_name op) (op_msgs op) -> op_sized op ->
      (op_name op = name -> op_spares config op = true) ->
      sse_step (mkConnection srv l out bs)
               (mkConnection (mkServer (run_op op (srv_storage srv)) c) l out bs)
  | sse_wake now clk ev srv l srv' frames l' out bs :
      enabled now ev l ->
      round now clk name ev l srv = (srv', Done (Ok (frames, l'))) ->
      sse_step (mkConnection srv (Some l) out bs)
               (mkConnection srv' l' (out ++ frames)
                  (bs ++ round_batch clk name ev l (srv_storage srv))).

(** ** What is sent *)

Abbreviation is_data := (fun e : Event => ev_type e = as_bytes "data").

(** The data events for a list of batches. *)
Definition batch_events (bs : list (list bytes)) : list Event :=
  concat (map (fun b => map data_event (frame_texts base64_encode b is_binary is_json)) bs).

(** The bytes sent are whole frames, and their data events are those of the
    batches. *)
Definition sent_ok (out : bytes) (bs : list (list bytes)) : Prop :=
  exists evs, (forall rest, client_events (out ++ rest) = evs ++ client_events rest) /\
    filter is_data evs = batch_events bs.

Lemma batch_events_app bs bs' : batch_events (bs ++ bs') = batch_events bs ++ batch_events bs'.
Proof. unfold batch_events. by rewrite map_app, concat_app. Qed.

Lemma sent_ok_app out out' bs bs' :
  sent_ok out bs -> sent_ok out' bs' -> sent_ok (out ++ out') (bs ++ bs').
Proof.
  intros (e & He & Hf) (e' & He' & Hf'). exists (e ++ e'). split.
  - intros rest. by rewrite <- app_assoc, He, He', app_assoc.
  - by rewrite filter_app, Hf, Hf', batch_events_app.
Qed.

Lemma sent_ok_nil : sent_ok [] [].
Proof. by exists []. Qed.

Lemma sent_ok_keepalive : sent_ok format_keepalive_frame [].
Proof. exists []. split; [apply client_keepalive|done]. Qed.

Lemma filter_data_events texts : filter is_data (map data_event texts) = map data_event texts.
Proof. apply filter_all, Forall_map, Forall_true. done. Qed.

Hypothesis json_string_plain : forall s, plain (json_string s).

Lemma emit_read_ok r (srv : Server S) :
  exists srv' out, emit_read base64_encode json_string is_binary is_json r srv = (srv', Done (Ok out)) /\
    srv_storage srv' = srv_storage srv /\ sent_ok out [rr_messages r].
Proof.
  assert (forall p, sent_ok (format_data_frames base64_encode (rr_messages r) is_binary is_json ++
                             format_control_frame json_string p) [rr_messages r]) as Hok.
  { intros p. rewrite format_data_frames_texts. eexists. split.
    - intros rest. rewrite <- app_assoc, client_raw_frames, client_control_frame by done.
      rewrite (cons_middle _ _ (client_events rest)), app_assoc. reflexivity.
    - rewrite filter_app, filter_data_events. unfold batch_events. simpl. by rewrite !app_nil_r. }
  unfold emit_read, build_sse_control, h_bind.
  destruct (rr_closed r && rr_at_tail r); simpl; [by eauto|].
  unfold generate_cursor. destruct (generate (rr_next_offset r) (srv_cursor srv)); simpl. by eauto.
Qed.

(** ** Exactly once, in order *)

(** [pre] is what the stream held before the position the client asked for. *)
Record delivery_inv (pre : list bytes) (c : Connection) : Prop := mkDeliveryInv {
  di_backend : backend_inv (srv_storage (cn_server c));
  di_log : exists a, view (srv_storage (cn_server c)) !! name = Some a /\ a_config a = config /\
    (pre ++ concat (cn_batches c)) `prefix_of` a_msgs a;
  di_tail : forall l, cn_loop c = Some l -> sl_tail l = tail_offset (pre ++ concat (cn_batches c)) /\
    offset_wf (sl_tail l);
  di_sent : sent_ok (cn_sent c) (cn_batches c)
}.

(** A read from the tail of what was delivered returns the rest of the log. *)
Lemma read_rest s clk msgs r :
  backend_inv s -> offset_wf (tail_offset msgs) ->
  (exists a, view s !! name = Some a /\ a_config a = config /\ msgs `prefix_of` a_msgs a) ->
  Storage.read clk name (tail_offset msgs) s = Ok r ->
  exists a, view s !! name = Some a /\ a_config a = config /\ a_msgs a = msgs ++ rr_messages r /\
    rr_next_offset r = a_next_offset a.
Proof.
  intros Hinv Hwf (a & Ha & Hcfg & more & Hm) Hr.
  destruct (read_ok_live _ _ _ _ _ Hinv Hwf Hr) as [b Hb].
  pose proof (proj1 (live_stream_ok _ _ _ _) Hb) as [Hb' _]. assert (b = a) as -> by congruence.
  rewrite (read_resume _ _ _ _ _ more Hinv Hwf Hb Hm) in Hr. injection Hr as <-. by exists a.
Qed.

Lemma delivery_env pre op srv l out bs c :
  fits (view (srv_storage srv)) (op_name op) (op_msgs op) -> op_sized op ->
  (op_name op = name -> op_spares config op = true) ->
  delivery_inv pre (mkConnection srv l out bs) ->
  delivery_inv pre (mkConnection (mkServer (run_op op (srv_storage srv)) c) l out bs).
Proof.
  intros Hfit Hsz Hsp [Hinv (a & Ha & Hcfg & Hpre) Htail Hsent]. simpl in *.
  destruct (run_op_ok op (srv_storage srv) Hinv Hfit Hsz) as [Hinv' [Hother Hown]].
  split; simpl; try done. destruct (decide (name = op_name op)) as [Heq|Hne].
  - rewrite Heq in *. destruct (Hown a Ha) as (a' & Ha' & Hev); [rewrite Hcfg; by apply Hsp|].
    exists a'. destruct Hev as [Hc _ Hp _]. split_and!; [done|congruence|by etrans].
  - exists a. by rewrite Hother.
Qed.

Lemma delivery_emit pre srv l out bs srv' frames r l' :
  delivery_inv pre (mkConnection srv (Some l) out bs) ->
  srv_storage srv' = srv_storage srv -> sent_ok frames [rr_messages r] ->
  (exists clk, Storage.read clk name (sl_tail l) (srv_storage srv) = Ok r) ->
  (forall x, l' = Some x -> sl_tail x = rr_next_offset r) ->
  delivery_inv pre (mkConnection srv' l' (out ++ frames) (bs ++ [rr_messages r])).
Proof.
  intros [Hinv Hlog Htail Hsent] Hst Hfr [clk Hr] Hl'. cbn in *.
  destruct (Htail l eq_refl) as [Ht Hwf]. rewrite Ht in *.
  destruct (read_rest _ _ _ _ Hinv Hwf Hlog Hr) as (a & Ha & Hcfg & Hm & Hnext).
  assert (pre ++ concat (bs ++ [rr_messages r]) = a_msgs a) as Hall
    by (rewrite concat_app; simpl; by rewrite app_nil_r, Hm, app_assoc).
  split; cbn; rewrite ?Hst, ?Hall; try done.
  - by exists a.
  - intros x Hx. rewrite (Hl' x Hx), Hnext. split; [done|]. by eapply law_bounded.
  - by apply sent_ok_app.
Qed.

Lemma delivery_quiet pre srv l out bs frames l' :
  delivery_inv pre (mkConnection srv (Some l) out bs) -> sent_ok frames [] ->
  (l' = None \/ l' = Some l) ->
  delivery_inv pre (mkConnection srv l' (out ++ frames) (bs ++ [])).
Proof.
  intros [Hinv Hlog Htail Hsent] Hfr Hl'. split; cbn in *; [done|by rewrite app_nil_r| |].
  - intros x Hx. rewrite app_nil_r. destruct Hl' as [->| ->]; [done|auto].
  - by apply sent_ok_app.
Qed.

Lemma delivery_step pre c c' : sse_step c c' -> delivery_inv pre c -> delivery_inv pre c'.
Proof.
  intros [op srv l out bs cur Hfit Hsp|now clk ev srv l srv' frames l' out bs _ Hround] Hinv;
    [by eapply delivery_env|].
  destruct ev; unfold sse_round, h_bind, try_store, h_ret in Hround; unfold round_batch.
  - destruct (Storage.read clk name (sl_tail l) (srv_storage srv)) as [rr|e] eqn:Hr; cbn in Hround.
    + destruct (emit_read_ok rr (mkServer (srv_storage srv) (srv_cursor srv)))
        as (srv1 & o & Hem & Hst & Hok). rewrite Hem in Hround. injection Hround as <- <- <-.
      eapply (delivery_emit _ _ l); [done..|by eexists|]. intros x Hx.
      destruct (rr_closed rr && rr_at_tail rr); [done|]. by injection Hx as <-.
    + injection Hround as <- <- <-. destruct srv. by apply delivery_quiet with l; auto using sent_ok_nil.
  - destruct (Storage.read clk name (sl_tail l) (srv_storage srv)) as [rr|e] eqn:Hr; cbn in Hround.
    + destruct (emit_read_ok rr (mkServer (srv_storage srv) (srv_cursor srv)))
        as (srv1 & o & Hem & Hst & Hok). rewrite Hem in Hround. injection Hround as <- <- <-.
      by eapply (delivery_emit _ _ l); [done..|by eexists|].
    + injection Hround as <- <- <-. destruct srv. by apply delivery_quiet with l; auto using sent_ok_nil.
  - injection Hround as <- <- <-. apply delivery_quiet with l; auto using sent_ok_keepalive.
  - injection Hround as <- <- <-. apply delivery_quiet with l; auto using sent_ok_nil.
Qed.

Lemma delivery_run pre c c' : rtc sse_step c c' -> delivery_inv pre c -> delivery_inv pre c'.
Proof. induction 1 as [|x y z Hxy _ IH]; intros Hx; [done|]. apply IH. by eapply delivery_step. Qed.

Lemma read_suffix s clk o r :
  backend_inv s -> offset_wf o -> Storage.read clk name o s = Ok r ->
  exists a pre, view s !! name = Some a /\ a_msgs a = pre ++ rr_messages r /\
    rr_next_offset r = a_next_offset a.
Proof.
  intros Hinv Hwf Hr. destruct (read_ok_live _ _ _ _ _ Hinv Hwf Hr) as [a Ha].
  rewrite (read_live _ _ _ _ _ Hinv Hwf Ha) in Hr. injection Hr as <-.
  apply live_stream_ok in Ha as [Ha _]. exists a. destruct o as [| |rs bo txt]; simpl.
  - by exists [].
  - exists (a_msgs a). by rewrite app_nil_r.
  - destruct (messages_from_suffix rs bo txt (a_msgs a)) as [pre Hpre]. by exists pre.
Qed.
End Delivery.

(** C13: an SSE connection delivers every message exactly once and in order. Start
    the stream from any offset and let its rounds interleave with any calls of
    others that leave the stream in place. Then the log is what preceded the
    requested position, followed by the delivered batches in order, followed by
    what was not read yet; the [data] events a client parses from the bytes sent
    are exactly those of the delivered batches, nothing forged and nothing
    dropped; and the loop, while it runs, waits at the end of what it delivered,
    so that its next read continues there. *)
Theorem sse_delivers_exactly_once {S : Type} `{!Storage.StorageOps S} `{!LawfulStorage S}
    b64 js is_binary is_json secs name a0 clk o now r0 (srv0 srv1 : Server S) out0 loop0 c :
  (forall s, plain (js s)) -> backend_inv (srv_storage srv0) -> offset_wf o ->
  view (srv_storage srv0) !! name = Some a0 ->
  Storage.read clk name o (srv_storage srv0) = Ok r0 ->
  sse_start b64 js is_binary is_json secs now r0 srv0 = (srv1, Done (Ok (out0, loop0))) ->
  rtc (sse_step b64 js is_binary is_json secs name (a_config a0))
    (mkConnection srv1 loop0 out0 [rr_messages r0]) c ->
  exists pre a unread,
    a_msgs a0 = pre ++ rr_messages r0 /\
    view (srv_storage (cn_server c)) !! name = Some a /\
    a_msgs a = pre ++ concat (cn_batches c) ++ unread /\
    filter (fun e => ev_type e = as_bytes "data") (client_events (cn_sent c)) =
      concat (map (fun b => map data_event (frame_texts b64 b is_binary is_json)) (cn_batches c)) /\
    (forall l, cn_loop c = Some l -> sl_tail l = tail_offset (pre ++ concat (cn_batches c))).
Proof.
  intros Hjs Hinv Hwf Ha0 Hr Hstart Hrun.
  destruct (read_suffix name _ _ _ _ Hinv Hwf Hr) as (a0' & pre & Ha0' & Hpre & Hnext).
  assert (a0' = a0) as -> by congruence.
  assert (delivery_inv b64 is_binary is_json name (a_config a0) pre c) as [_ Hlog Htail Hsent].
  { eapply delivery_run; [done|exact Hrun|].
    destruct (emit_read_ok b64 js is_binary is_json Hjs r0 srv0) as (srv' & out & Hem & Hst & Hok).
    unfold sse_start, h_bind in Hstart. rewrite Hem in Hstart. injection Hstart as <- <- <-.
    split; simpl; rewrite ?Hst, ?app_nil_r, <- ?Hpre; try done.
    - by exists a0.
    - intros l Hl. destruct (rr_closed r0 && rr_at_tail r0); [done|]. injection Hl as <-.
      simpl. rewrite Hnext. split; [done|]. by eapply law_bounded. }
  destruct Hlog as (a & Ha & _ & unread & Hm). exists pre, a, unread.
  split_and!; [done|done|by rewrite Hm, app_assoc| |].
  - destruct Hsent as (evs & Hevs & Hf). specialize (Hevs []). rewrite !app_nil_r in Hevs.
    by rewrite Hevs.
  - intros l Hl. by destruct (Htail l Hl).
Qed.
