(* ===== verification/MemoryStorage.v ===== *)
(** * MemoryStorage: src/storage/memory.rs

    The in-memory backend. Each method that takes the lock of one stream is
    written as its critical section, a state transformer on the [Locked] state
    (the global byte counter and the stream entry), composed with the lookup of
    the entry; the methods that hold the lock of the map work on the map. *)

From S2P Require Import Prelude Errors Offsets RustStd Headers StorageCore.

(** ** State *)

(** [StreamEntry]; [e_notify] counts the notifications sent on its channel. *)
Record StreamEntry : Type := mkEntry {
  e_config : StreamConfig;
  e_messages : list Message;
  e_closed : bool;
  e_next_read_seq : Z;
  e_next_byte_offset : Z;
  e_total_bytes : Z;
  e_created_at : Z;
  e_producers : gmap string ProducerState;
  e_notify : Z;
  e_last_seq : option string
}.

(** [StreamEntry::new]; [now] is the reading of its [Utc::now()]. *)
Definition StreamEntry_new (now : Z) (config : StreamConfig) : StreamEntry :=
  mkEntry config [] false 0 0 0 now ∅ 0 None.

(** [InMemoryStorage] *)
Record InMemoryStorage : Type := mkMem {
  m_streams : gmap string StreamEntry;
  m_total_bytes : Z;
  m_max_total_bytes : Z;
  m_max_stream_bytes : Z
}.

(** [InMemoryStorage::new] *)
Definition InMemoryStorage_new (max_total_bytes max_stream_bytes : Z) : InMemoryStorage :=
  mkMem ∅ 0 max_total_bytes max_stream_bytes.

(** Field updates. *)
Definition set_closed (e : StreamEntry) (b : bool) : StreamEntry :=
  mkEntry (e_config e) (e_messages e) b (e_next_read_seq e) (e_next_byte_offset e)
    (e_total_bytes e) (e_created_at e) (e_producers e) (e_notify e) (e_last_seq e).
Definition set_producers (e : StreamEntry) (p : gmap string ProducerState) : StreamEntry :=
  mkEntry (e_config e) (e_messages e) (e_closed e) (e_next_read_seq e) (e_next_byte_offset e)
    (e_total_bytes e) (e_created_at e) p (e_notify e) (e_last_seq e).
Definition set_last_seq (e : StreamEntry) (s : option string) : StreamEntry :=
  mkEntry (e_config e) (e_messages e) (e_closed e) (e_next_read_seq e) (e_next_byte_offset e)
    (e_total_bytes e) (e_created_at e) (e_producers e) (e_notify e) s.
(** [stream.notify.send(())] *)
Definition notify_send (e : StreamEntry) : StreamEntry :=
  mkEntry (e_config e) (e_messages e) (e_closed e) (e_next_read_seq e) (e_next_byte_offset e)
    (e_total_bytes e) (e_created_at e) (e_producers e) (e_notify e + 1) (e_last_seq e).

Definition set_total (st : InMemoryStorage) (t : Z) : InMemoryStorage :=
  mkMem (m_streams st) t (m_max_total_bytes st) (m_max_stream_bytes st).
Definition set_streams (st : InMemoryStorage) (m : gmap string StreamEntry) : InMemoryStorage :=
  mkMem m (m_total_bytes st) (m_max_total_bytes st) (m_max_stream_bytes st).

(** [Offset::new(stream.next_read_seq, stream.next_byte_offset)] *)
Definition entry_next_offset (e : StreamEntry) : Offset :=
  Offset_new (e_next_read_seq e) (e_next_byte_offset e).

(** [u64::try_from(stream.messages.len()).unwrap_or(u64::MAX)] and the other
    fields of the metadata snapshot of [head]. *)
Definition entry_metadata (e : StreamEntry) : StreamMetadata :=
  mkStreamMetadata (e_config e) (entry_next_offset e) (e_closed e) (e_total_bytes e)
    (len_u64 (e_messages e)) (e_created_at e).

(** ** Critical sections *)

(** What a method can change while it holds the write lock of one stream. *)
Record Locked : Type := mkLocked { l_total : Z; l_entry : StreamEntry }.

Definition get_entry : ST Locked Error StreamEntry := fun s => (s, Ok (l_entry s)).
Definition modify_entry (f : StreamEntry -> StreamEntry) : ST Locked Error unit :=
  fun s => (mkLocked (l_total s) (f (l_entry s)), Ok tt).

(** [self.total_bytes.fetch_update(.., |current| current.checked_add(bytes)
    .filter(|next| *next <= self.max_total_bytes))], with its error. *)
Definition reserve_total (max_total bytes : Z) : ST Locked Error unit :=
  fun s =>
    match checked_add64 (l_total s) bytes with
    | Some next =>
        if next <=? max_total then (mkLocked next (l_entry s), Ok tt)
        else (s, Err MemoryLimitExceeded)
    | None => (s, Err MemoryLimitExceeded)
    end.

(** [saturating_sub_total_bytes] *)
Definition saturating_sub_total_bytes (bytes : Z) : ST Locked Error unit :=
  fun s => (mkLocked (saturating_sub64 (l_total s) bytes) (l_entry s), Ok tt).

(** The three counter updates and the [push] of one message. *)
Definition push_message (e : StreamEntry) (data : bytes) (byte_len : Z) : StreamEntry :=
  let offset := entry_next_offset e in
  mkEntry (e_config e) (e_messages e ++ [Message_new offset data]) (e_closed e)
    (add64 (e_next_read_seq e) 1) (add64 (e_next_byte_offset e) byte_len)
    (add64 (e_total_bytes e) byte_len) (e_created_at e) (e_producers e) (e_notify e)
    (e_last_seq e).

(** [for (data, byte_len) in messages.into_iter().zip(message_sizes)] *)
Fixpoint push_messages (e : StreamEntry) (batch : list (bytes * Z)) : StreamEntry :=
  match batch with
  | [] => e
  | (data, byte_len) :: rest => push_messages (push_message e data byte_len) rest
  end.

(** The sizing loop of [commit_messages]: [total_batch_bytes += byte_len]. *)
Fixpoint batch_bytes (total : Z) (messages : list bytes) : Z :=
  match messages with
  | [] => total
  | data :: rest => batch_bytes (add64 total (len_u64 data)) rest
  end.

(** [InMemoryStorage::commit_messages] *)
Definition commit_messages (max_total max_stream : Z) (messages : list bytes)
  : ST Locked Error unit :=
  match messages with
  | [] => st_ret tt
  | _ :: _ =>
      let total_batch_bytes := batch_bytes 0 messages in
      let message_sizes := map len_u64 messages in
      let* _ := reserve_total max_total total_batch_bytes in
      let* stream := get_entry in
      if max_stream <? add64 (e_total_bytes stream) total_batch_bytes then
        let* _ := saturating_sub_total_bytes total_batch_bytes in
        st_fail StreamSizeLimitExceeded
      else
        let* _ := modify_entry (fun e => push_messages e (zip messages message_sizes)) in
        modify_entry notify_send
  end.

(** [if let Some(new_seq) = pending_seq { stream.last_seq = Some(new_seq); }] *)
Definition store_pending_seq (pending_seq : option string) : ST Locked Error unit :=
  match pending_seq with
  | Some new_seq => modify_entry (fun e => set_last_seq e (Some new_seq))
  | None => st_ret tt
  end.

(** [append] after [get_stream]. *)
Definition append_locked (max_total max_stream : Z) (clk : Clock) (data : bytes) (ct : string)
  : ST Locked Error Offset :=
  let* stream := get_entry in
  let* _ := throw_if (is_stream_expired (clk 0%nat) (e_config stream)) StreamExpired in
  let* _ := throw_if (e_closed stream) StreamClosed in
  let* _ := st_lift (validate_content_type (content_type (e_config stream)) ct) in
  let byte_len := len_u64 data in
  let* _ := reserve_total max_total byte_len in
  if max_stream <? add64 (e_total_bytes stream) byte_len then
    let* _ := saturating_sub_total_bytes byte_len in
    st_fail StreamSizeLimitExceeded
  else
    let* _ := modify_entry (fun e => push_message e data byte_len) in
    st_ret (entry_next_offset stream).

(** [batch_append] after [get_stream]. *)
Definition batch_append_locked (max_total max_stream : Z) (clk : Clock) (messages : list bytes)
    (ct : string) (seq : option string) : ST Locked Error Offset :=
  let* stream := get_entry in
  let* _ := throw_if (is_stream_expired (clk 0%nat) (e_config stream)) StreamExpired in
  let* _ := throw_if (e_closed stream) StreamClosed in
  let* _ := st_lift (validate_content_type (content_type (e_config stream)) ct) in
  let* pending_seq := st_lift (validate_seq (e_last_seq stream) seq) in
  let* _ := commit_messages max_total max_stream messages in
  let* _ := store_pending_seq pending_seq in
  let* stream := get_entry in
  st_ret (entry_next_offset stream).

(** [close_stream] after [get_stream]. *)
Definition close_stream_locked (clk : Clock) : ST Locked Error unit :=
  let* stream := get_entry in
  let* _ := throw_if (is_stream_expired (clk 0%nat) (e_config stream)) StreamExpired in
  let* _ := modify_entry (fun e => set_closed e true) in
  modify_entry notify_send.

(** The accepting branch of [append_with_producer], from [commit_messages] on. *)
Definition producer_commit (max_total max_stream now : Z) (messages : list bytes)
    (producer : ProducerHeaders) (should_close : bool) (pending_seq : option string)
  : ST Locked Error ProducerAppendResult :=
  let* _ := commit_messages max_total max_stream messages in
  let* _ := store_pending_seq pending_seq in
  let* _ := (if should_close then modify_entry (fun e => set_closed e true) else st_ret tt) in
  let* _ := modify_entry
              (fun e => set_producers e
                 (<[ph_id producer := mkProducerState (ph_epoch producer) (ph_seq producer) now]>
                    (e_producers e))) in
  let* stream := get_entry in
  st_ret (Accepted (ph_epoch producer) (ph_seq producer) (entry_next_offset stream)
            (e_closed stream)).

(** [append_with_producer] after [get_stream]. *)
Definition append_with_producer_locked (max_total max_stream : Z) (clk : Clock)
    (messages : list bytes) (ct : string) (producer : ProducerHeaders) (should_close : bool)
    (seq : option string) : ST Locked Error ProducerAppendResult :=
  let* stream := get_entry in
  let* _ := throw_if (is_stream_expired (clk 0%nat) (e_config stream)) StreamExpired in
  let* _ := modify_entry
              (fun e => set_producers e (cleanup_stale_producers (clk 1%nat) (e_producers e))) in
  let* _ := match messages with
            | [] => st_ret tt
            | _ :: _ => st_lift (validate_content_type (content_type (e_config stream)) ct)
            end in
  let now := clk 2%nat in
  let* stream := get_entry in
  let* check := st_lift (check_producer (e_producers stream !! ph_id producer) producer
                           (e_closed stream)) in
  match check with
  | CheckDuplicate epoch seq =>
      st_ret (Duplicate epoch seq (entry_next_offset stream) (e_closed stream))
  | CheckAccept =>
      let* pending_seq := st_lift (validate_seq (e_last_seq stream) seq) in
      producer_commit max_total max_stream now messages producer should_close pending_seq
  end.

(** ** Methods *)

(** [get_stream(name).ok_or_else(|| Error::NotFound(..))?] followed by a critical
    section under the stream's write lock. *)
Definition with_stream {A} (name : string) (section : ST Locked Error A)
  : ST InMemoryStorage Error A :=
  fun st =>
    match m_streams st !! name with
    | None => (st, Err (NotFound name))
    | Some e =>
        let '(l, r) := section (mkLocked (m_total_bytes st) e) in
        (mkMem (<[name := l_entry l]> (m_streams st)) (l_total l)
           (m_max_total_bytes st) (m_max_stream_bytes st), r)
    end.

(** [Storage::append] *)
Definition mem_append (clk : Clock) (name : string) (data : bytes) (ct : string)
  : ST InMemoryStorage Error Offset :=
  fun st => with_stream name
    (append_locked (m_max_total_bytes st) (m_max_stream_bytes st) clk data ct) st.

(** [Storage::batch_append] *)
Definition mem_batch_append (clk : Clock) (name : string) (messages : list bytes) (ct : string)
    (seq : option string) : ST InMemoryStorage Error Offset :=
  fun st =>
    match messages with
    | [] => (st, Err (InvalidHeader "Content-Length" "batch cannot be empty"))
    | _ :: _ => with_stream name
        (batch_append_locked (m_max_total_bytes st) (m_max_stream_bytes st) clk messages ct seq) st
    end.

(** [Storage::close_stream] *)
Definition mem_close_stream (clk : Clock) (name : string) : ST InMemoryStorage Error unit :=
  with_stream name (close_stream_locked clk).

(** [Storage::append_with_producer] *)
Definition mem_append_with_producer (clk : Clock) (name : string) (messages : list bytes)
    (ct : string) (producer : ProducerHeaders) (should_close : bool) (seq : option string)
  : ST InMemoryStorage Error ProducerAppendResult :=
  fun st => with_stream name
    (append_with_producer_locked (m_max_total_bytes st) (m_max_stream_bytes st) clk messages ct
       producer should_close seq) st.

(** The index a concrete offset is read from. *)
Definition start_index (e : StreamEntry) (from_offset : Offset) : nat :=
  if is_start from_offset then O
  else search_index (fun m => offset_cmp (msg_offset m) from_offset) (e_messages e).

(** [read] after [get_stream]. *)
Definition read_locked (clk : Clock) (from_offset : Offset) (stream : StreamEntry)
  : Result Error ReadResult :=
  if is_stream_expired (clk 0%nat) (e_config stream) then Err StreamExpired
  else if is_now from_offset then
    Ok (mkReadResult [] (entry_next_offset stream) true (e_closed stream))
  else
    let start_idx := start_index stream from_offset in
    let messages := map msg_data (drop start_idx (e_messages stream)) in
    let at_tail := (length (e_messages stream) <=? start_idx + length messages)%nat in
    Ok (mkReadResult messages (entry_next_offset stream) at_tail (e_closed stream)).

(** [Storage::read] *)
Definition mem_read (clk : Clock) (name : string) (from_offset : Offset) (st : InMemoryStorage)
  : Result Error ReadResult :=
  match m_streams st !! name with
  | None => Err (NotFound name)
  | Some stream => read_locked clk from_offset stream
  end.

(** [Storage::delete] *)
Definition mem_delete (name : string) : ST InMemoryStorage Error unit :=
  fun st =>
    match m_streams st !! name with
    | Some stream =>
        (mkMem (delete name (m_streams st))
           (saturating_sub64 (m_total_bytes st) (e_total_bytes stream))
           (m_max_total_bytes st) (m_max_stream_bytes st), Ok tt)
    | None => (st, Err (NotFound name))
    end.

(** [head] after [get_stream]. *)
Definition head_locked (clk : Clock) (stream : StreamEntry) : Result Error StreamMetadata :=
  if is_stream_expired (clk 0%nat) (e_config stream) then Err StreamExpired
  else Ok (entry_metadata stream).

(** [Storage::head] *)
Definition mem_head (clk : Clock) (name : string) (st : InMemoryStorage)
  : Result Error StreamMetadata :=
  match m_streams st !! name with
  | None => Err (NotFound name)
  | Some stream => head_locked clk stream
  end.

(** [streams.remove(name)] of an expired stream and the release of its bytes. *)
Definition remove_expired (name : string) (stream : StreamEntry) (st : InMemoryStorage)
  : InMemoryStorage :=
  mkMem (delete name (m_streams st))
    (saturating_sub64 (m_total_bytes st) (e_total_bytes stream))
    (m_max_total_bytes st) (m_max_stream_bytes st).

(** The part of [create_stream_with_data] after the lookup: build the entry,
    append, close, and only then insert it. *)
Definition insert_new_stream (clk : Clock) (name : string) (config : StreamConfig)
    (messages : list bytes) (should_close : bool) : ST InMemoryStorage Error CreateWithDataResult :=
  fun st =>
    let entry := StreamEntry_new (clk 1%nat) config in
    let '(l, r) := commit_messages (m_max_total_bytes st) (m_max_stream_bytes st) messages
                     (mkLocked (m_total_bytes st) entry) in
    match r with
    | Err e => (set_total st (l_total l), Err e)
    | Ok _ =>
        let entry := if should_close then set_closed (l_entry l) true else l_entry l in
        (mkMem (<[name := entry]> (m_streams st)) (l_total l)
           (m_max_total_bytes st) (m_max_stream_bytes st),
         Ok (mkCreateWithData StreamCreated (entry_next_offset entry) (e_closed entry)))
    end.

(** [Storage::create_stream_with_data] *)
Definition mem_create_stream_with_data (clk : Clock) (name : string) (config : StreamConfig)
    (messages : list bytes) (should_close : bool) : ST InMemoryStorage Error CreateWithDataResult :=
  fun st =>
    match m_streams st !! name with
    | Some stream =>
        if is_stream_expired (clk 0%nat) (e_config stream) then
          insert_new_stream clk name config messages should_close (remove_expired name stream st)
        else if config_eq (e_config stream) config then
          (st, Ok (mkCreateWithData StreamAlreadyExists (entry_next_offset stream)
                     (e_closed stream)))
        else (st, Err ConfigMismatch)
    | None => insert_new_stream clk name config messages should_close st
    end.

(** [Storage::create_stream] *)
Definition mem_create_stream (clk : Clock) (name : string) (config : StreamConfig)
  : ST InMemoryStorage Error CreateStreamResult :=
  fun st =>
    let insert_entry st :=
      (set_streams st (<[name := StreamEntry_new (clk 1%nat) config]> (m_streams st)),
       Ok StreamCreated) in
    match m_streams st !! name with
    | Some stream =>
        if is_stream_expired (clk 0%nat) (e_config stream) then
          insert_entry (remove_expired name stream st)
        else if config_eq (e_config stream) config then (st, Ok StreamAlreadyExists)
        else (st, Err ConfigMismatch)
    | None => insert_entry st
    end.

(** [Storage::exists] *)
Definition mem_exists (clk : Clock) (name : string) (st : InMemoryStorage) : bool :=
  match m_streams st !! name with
  | Some stream => negb (is_stream_expired (clk 0%nat) (e_config stream))
  | None => false
  end.

(** [Storage::subscribe] *)
Definition mem_subscribe (clk : Clock) (name : string) (st : InMemoryStorage)
  : InMemoryStorage * option Receiver :=
  (st, match m_streams st !! name with
       | Some stream =>
           if is_stream_expired (clk 0%nat) (e_config stream) then None
           else Some (e_notify stream)
       | None => None
       end).

(** [impl Storage for InMemoryStorage] *)
#[global] Instance memory_storage : Storage.StorageOps InMemoryStorage := {|
  Storage.create_stream := mem_create_stream;
  Storage.append := mem_append;
  Storage.batch_append := mem_batch_append;
  Storage.read := mem_read;
  Storage.delete := mem_delete;
  Storage.head := mem_head;
  Storage.close_stream := mem_close_stream;
  Storage.append_with_producer := mem_append_with_producer;
  Storage.create_stream_with_data := mem_create_stream_with_data;
  Storage.stream_exists := mem_exists;
  Storage.subscribe := mem_subscribe
|}.
