(* ===== verification/MemoryRefinement.v ===== *)
(** * MemoryRefinement: the in-memory backend implements the log contract

    The invariant of [InMemoryStorage], its preservation by every method, the
    absence of arithmetic overflow, and the instance of [LawfulStorage]. *)

From S2P Require Import Prelude Errors Offsets RustStd Headers StorageCore LogSpec MemoryStorage.

#[local] Arguments reserve_total : simpl never.
#[local] Arguments saturating_sub_total_bytes : simpl never.
#[local] Arguments commit_messages : simpl never.
#[local] Arguments push_message : simpl never.
#[local] Arguments cleanup_stale_producers : simpl never.

(** ** Abstraction and invariant *)

Definition entry_data (e : StreamEntry) : list bytes := msg_data <$> e_messages e.

(** The log an entry stands for. *)
Definition abs_entry (e : StreamEntry) : AStream :=
  mkAStream (e_config e) (entry_data e) (e_closed e) (e_created_at e) (e_producers e)
    (e_last_seq e).

Definition mem_view (st : InMemoryStorage) : View := abs_entry <$> m_streams st.

Definition place_messages (rs bo : Z) (msgs : list bytes) : list Message :=
  (fun om => Message_new om.1 om.2) <$> place rs bo msgs.

(** The messages of an entry sit at their canonical offsets and its counters are
    the exact (unwrapped) numbers of messages and bytes. *)
Record entry_ok (e : StreamEntry) : Prop := mkEntryOk {
  eo_messages : e_messages e = place_messages 0 0 (entry_data e);
  eo_read_seq : e_next_read_seq e = Z.of_nat (length (entry_data e));
  eo_byte_offset : e_next_byte_offset e = payload (entry_data e);
  eo_total : e_total_bytes e = payload (entry_data e);
  eo_count : Z.of_nat (length (entry_data e)) < two64
}.

(** Bytes of all the streams of the map. *)
Definition sum_bytes (m : gmap string StreamEntry) : Z := map_sum e_total_bytes m.

(** The invariant of the storage: every entry is well formed and within the
    per-stream limit, and the global counter is exactly the sum of the entries
    and within the global limit. *)
Record mem_inv (st : InMemoryStorage) : Prop := mkMemInv {
  mi_max_total : u64 (m_max_total_bytes st);
  mi_max_stream : u64 (m_max_stream_bytes st);
  mi_entries : forall name e, m_streams st !! name = Some e ->
    entry_ok e /\ e_total_bytes e <= m_max_stream_bytes st;
  mi_sum : m_total_bytes st = sum_bytes (m_streams st);
  mi_limit : m_total_bytes st <= m_max_total_bytes st
}.

Lemma entry_ok_bytes e : entry_ok e -> 0 <= e_total_bytes e.
Proof. intros [? ? ? -> ?]. apply payload_nonneg. Qed.

Lemma mem_inv_nonneg st : mem_inv st -> map_Forall (fun _ e => 0 <= e_total_bytes e) (m_streams st).
Proof.
  intros Hinv name e He. destruct (mi_entries _ Hinv _ _ He) as [Hok _]. by apply entry_ok_bytes.
Qed.

Lemma mem_inv_entry_le st name e :
  mem_inv st -> m_streams st !! name = Some e -> 0 <= e_total_bytes e <= m_total_bytes st.
Proof.
  intros Hinv He. rewrite (mi_sum _ Hinv).
  exact (map_sum_lookup_le _ _ _ _ (mem_inv_nonneg _ Hinv) He).
Qed.

Lemma mem_inv_bounds st :
  mem_inv st -> 0 <= m_total_bytes st <= m_max_total_bytes st /\ m_max_total_bytes st < two64 /\
    0 <= m_max_stream_bytes st.
Proof.
  intros Hinv. assert (0 <= m_total_bytes st).
  { rewrite (mi_sum _ Hinv). by apply map_sum_nonneg, mem_inv_nonneg. }
  destruct Hinv as [[] [] _ _ ?]. lia.
Qed.

(** ** Appending to one entry *)

(** What pushing a batch leaves: the same entry with the batch at its tail. *)
Definition pushed (e : StreamEntry) (msgs : list bytes) : StreamEntry :=
  mkEntry (e_config e)
    (e_messages e ++ place_messages (e_next_read_seq e) (e_next_byte_offset e) msgs)
    (e_closed e) (e_next_read_seq e + Z.of_nat (length msgs))
    (e_next_byte_offset e + payload msgs) (e_total_bytes e + payload msgs) (e_created_at e)
    (e_producers e) (e_notify e) (e_last_seq e).

Lemma batch_bytes_payload t msgs :
  0 <= t -> t + payload msgs < two64 -> batch_bytes t msgs = t + payload msgs.
Proof.
  revert t. induction msgs as [|m msgs IH]; intros t Ht Hlt; simpl in *; [lia|].
  pose proof (payload_nonneg msgs).
  rewrite len_u64_small by lia. rewrite add64_small by lia. rewrite IH; lia.
Qed.

Lemma push_messages_pushed e msgs :
  0 <= e_next_read_seq e -> 0 <= e_next_byte_offset e -> 0 <= e_total_bytes e ->
  e_next_read_seq e + Z.of_nat (length msgs) < two64 ->
  e_next_byte_offset e + payload msgs < two64 -> e_total_bytes e + payload msgs < two64 ->
  push_messages e (zip msgs (map len_u64 msgs)) = pushed e msgs.
Proof.
  revert e. induction msgs as [|m msgs IH]; intros e H1 H2 H3 Hc Hb Ht.
  - unfold pushed; simpl. rewrite !Z.add_0_r, app_nil_r. by destruct e.
  - cbn [map zip push_messages zip_with]. simpl in Hc, Hb, Ht. pose proof (payload_nonneg msgs).
    assert (push_message e m (len_u64 m) = pushed e [m]) as ->.
    { unfold push_message, pushed, place_messages, entry_next_offset; simpl.
      rewrite len_u64_small by lia. rewrite !add64_small by lia. f_equal; lia. }
    rewrite IH; unfold pushed; simpl; try lia.
    f_equal; try lia. unfold place_messages. rewrite <- app_assoc. simpl.
    do 4 f_equal; lia.
Qed.

Lemma entry_data_pushed e msgs : entry_data (pushed e msgs) = entry_data e ++ msgs.
Proof.
  unfold entry_data, pushed, place_messages; simpl. rewrite fmap_app. f_equal.
  rewrite <- list_fmap_compose. transitivity ((place (e_next_read_seq e) (e_next_byte_offset e) msgs).*2).
  - by apply list_fmap_ext.
  - apply place_data.
Qed.

Lemma pushed_ok e msgs :
  entry_ok e -> Z.of_nat (length (entry_data e) + length msgs) < two64 -> entry_ok (pushed e msgs).
Proof.
  intros [Hm Hr Hb Ht Hc] Hlen. split; rewrite entry_data_pushed, ?length_app, ?payload_app; simpl.
  - rewrite Hr, Hb, Hm at 1. unfold place_messages. by rewrite place_app, fmap_app.
  - lia.
  - lia.
  - lia.
  - done.
Qed.

(** ** Critical sections *)

(** What a section may assume of the counter [t] and the entry [e] it locks. *)
Record section_pre (mt ms t : Z) (e : StreamEntry) : Prop := mkSectionPre {
  sp_ok : entry_ok e;
  sp_entry : 0 <= e_total_bytes e;
  sp_counter : 0 <= t;
  sp_total : t <= mt;
  sp_stream : e_total_bytes e <= ms;
  sp_mt : mt < two64
}.

(** [p] more bytes in the entry can be counted. An entry of the map has at most the bytes
    the global counter says. *)
Definition section_room (t : Z) (e : StreamEntry) (p : Z) : Prop :=
  e_total_bytes e <= t \/ e_total_bytes e + p < two64.

(** What it guarantees: the entry is well formed and within its limit, and the
    counter moved by exactly as much as the entry, within the global limit. *)
Definition section_post (mt ms t : Z) (e : StreamEntry) (l : Locked) : Prop :=
  entry_ok (l_entry l) /\
  l_total l = t + (e_total_bytes (l_entry l) - e_total_bytes e) /\
  l_total l <= mt /\ e_total_bytes e <= e_total_bytes (l_entry l) <= ms.

(** Admission of [p] more bytes: the global limit is checked first. *)
Definition capacity (mt ms t : Z) (e : StreamEntry) (p : Z) : option Error :=
  if t + p <=? mt then
    if e_total_bytes e + p <=? ms then None else Some StreamSizeLimitExceeded
  else Some MemoryLimitExceeded.

Lemma capacity_resource mt ms t e p err :
  capacity mt ms t e p = Some err -> resource_error err = true.
Proof. unfold capacity. repeat case_match; intros; simplify_eq; done. Qed.

Lemma capacity_none mt ms t e p :
  capacity mt ms t e p = None -> t + p <= mt /\ e_total_bytes e + p <= ms.
Proof. unfold capacity. repeat case_match; intros; simplify_eq; lia. Qed.

Lemma reserve_total_spec mt t e p :
  0 <= t -> 0 <= p -> mt < two64 ->
  reserve_total mt p (mkLocked t e) =
  if t + p <=? mt then (mkLocked (t + p) e, Ok tt) else (mkLocked t e, Err MemoryLimitExceeded).
Proof.
  intros Ht Hp Hm. unfold reserve_total, checked_add64; simpl.
  destruct (Z.ltb_spec (t + p) two64), (Z.leb_spec (t + p) mt); try done; lia.
Qed.

Lemma rollback_exact t e p :
  0 <= t -> saturating_sub_total_bytes p (mkLocked (t + p) e) = (mkLocked t e, Ok tt).
Proof. intros Ht. unfold saturating_sub_total_bytes; cbn [l_total l_entry]. by rewrite saturating_sub64_add. Qed.

(** The counters never wrap: with the global counter bounded by a [u64] limit,
    the unchecked per-stream addition is exact, and a refused batch leaves the
    counter where it was. *)
Lemma commit_messages_spec mt ms msgs t e :
  section_pre mt ms t e -> section_room t e (payload msgs) -> payload msgs < two64 ->
  Z.of_nat (length (entry_data e) + length msgs) < two64 ->
  commit_messages mt ms msgs (mkLocked t e) =
  match msgs with
  | [] => (mkLocked t e, Ok tt)
  | _ :: _ =>
      match capacity mt ms t e (payload msgs) with
      | Some err => (mkLocked t e, Err err)
      | None => (mkLocked (t + payload msgs) (notify_send (pushed e msgs)), Ok tt)
      end
  end.
Proof.
  intros [Hok He0 Ht0 Hmt Hms Hm64] Hroom Hp Hlen. destruct msgs as [|m msgs]; [done|].
  unfold commit_messages, capacity, st_bind. cbv beta iota zeta.
  set (all := m :: msgs) in *. pose proof (payload_nonneg all) as Hp0.
  destruct Hok as [Hmsgs Hr Hb Ht Hc].
  rewrite batch_bytes_payload, Z.add_0_l by lia.
  rewrite reserve_total_spec by lia.
  destruct (Z.leb_spec (t + payload all) mt) as [Hg|Hg]; [|done]. cbn [get_entry l_entry].
  assert (e_total_bytes e + payload all < two64) by (unfold section_room in Hroom; lia).
  rewrite add64_small by lia.
  destruct (Z.ltb_spec ms (e_total_bytes e + payload all)) as [Hs|Hs];
    destruct (Z.leb_spec (e_total_bytes e + payload all) ms) as [Hs'|Hs']; try lia.
  - rewrite rollback_exact by lia. done.
  - unfold modify_entry; cbn [l_total l_entry]. rewrite push_messages_pushed; [done|lia..].
Qed.

Lemma notify_send_ok e : entry_ok e -> entry_ok (notify_send e).
Proof. intros []. by split. Qed.
Lemma set_closed_ok e b : entry_ok e -> entry_ok (set_closed e b).
Proof. intros []. by split. Qed.
Lemma set_last_seq_ok e s : entry_ok e -> entry_ok (set_last_seq e s).
Proof. intros []. by split. Qed.
Lemma set_producers_ok e p : entry_ok e -> entry_ok (set_producers e p).
Proof. intros []. by split. Qed.
Lemma StreamEntry_new_ok now config : entry_ok (StreamEntry_new now config).
Proof. by split. Qed.

Create HintDb entry.
#[export] Hint Resolve notify_send_ok set_closed_ok set_last_seq_ok set_producers_ok pushed_ok
  StreamEntry_new_ok : entry.

(** The next offset of an entry is the tail of its log. *)
Lemma entry_next_offset_abs e : entry_ok e -> entry_next_offset e = a_next_offset (abs_entry e).
Proof. intros [_ Hr Hb _ _]. unfold entry_next_offset. by rewrite Hr, Hb. Qed.

Lemma abs_pushed e msgs : abs_entry (pushed e msgs) = log_append (abs_entry e) msgs None.
Proof. unfold abs_entry. by rewrite entry_data_pushed. Qed.

(** ** From a section to a method *)

Lemma mem_view_lookup st name :
  mem_view st !! name = abs_entry <$> m_streams st !! name.
Proof. apply lookup_fmap. Qed.

Lemma mem_view_insert m name e t a b :
  mem_view (mkMem (<[name := e]> m) t a b) = <[name := abs_entry e]> (abs_entry <$> m).
Proof. apply fmap_insert. Qed.

Lemma mem_inv_section st name e :
  mem_inv st -> m_streams st !! name = Some e ->
  section_pre (m_max_total_bytes st) (m_max_stream_bytes st) (m_total_bytes st) e /\
  forall p, section_room (m_total_bytes st) e p.
Proof.
  intros Hinv He. pose proof (mem_inv_entry_le _ _ _ Hinv He).
  destruct (mi_entries _ Hinv _ _ He) as [Hok Hms]. destruct Hinv as [[_ Hmt] _ _ _ Hl].
  split; [split; try done; lia|]. intros p. left. lia.
Qed.

Lemma mem_inv_update st name e l :
  mem_inv st -> m_streams st !! name = Some e ->
  section_post (m_max_total_bytes st) (m_max_stream_bytes st) (m_total_bytes st) e l ->
  mem_inv (mkMem (<[name := l_entry l]> (m_streams st)) (l_total l)
             (m_max_total_bytes st) (m_max_stream_bytes st)).
Proof.
  intros Hinv He (Hok & Ht & Hmt & _ & Hms). destruct Hinv as [H1 H2 H3 H4 H5].
  split; simpl; try done.
  - intros n' e' Hn'. destruct (decide (name = n')) as [->|Hne].
    + rewrite lookup_insert_eq in Hn'. by simplify_eq.
    + rewrite lookup_insert_ne in Hn' by done. eauto.
  - unfold sum_bytes in *. rewrite (map_sum_update _ _ _ _ _ He). lia.
Qed.

(** What a section does to the logs [v], in which its entry stands under [name]. *)
Definition section_refines {A} (clk : Clock) (name : string) (spec : View -> View * Result Error A)
    (v : View) (mt ms t : Z) (e : StreamEntry) (out : Locked * Result Error A) : Prop :=
  section_post mt ms t e out.1 /\ refined clk name spec v (<[name := abs_entry (l_entry out.1)]> v) out.2.

Lemma with_stream_refined {A} (section : ST Locked Error A) spec st clk name :
  mem_inv st ->
  (mem_view st !! name = None -> spec (mem_view st) = (mem_view st, Err (NotFound name))) ->
  (forall e, mem_view st !! name = Some (abs_entry e) ->
     section_pre (m_max_total_bytes st) (m_max_stream_bytes st) (m_total_bytes st) e ->
     (forall p, section_room (m_total_bytes st) e p) ->
     section_refines clk name spec (mem_view st) (m_max_total_bytes st) (m_max_stream_bytes st)
       (m_total_bytes st) e (section (mkLocked (m_total_bytes st) e))) ->
  let '(st', r) := with_stream name section st in
  mem_inv st' /\ refined clk name spec (mem_view st) (mem_view st') r.
Proof.
  intros Hinv Hnone Hsome. unfold with_stream.
  pose proof (mem_view_lookup st name) as Hv. destruct (m_streams st !! name) as [e|] eqn:He.
  - destruct (mem_inv_section _ _ _ Hinv He) as [Hpre Hroom]. specialize (Hsome e Hv Hpre Hroom).
    destruct (section _) as [l r]. destruct Hsome as [Hpost Href]. split.
    + by eapply mem_inv_update.
    + by rewrite mem_view_insert.
  - split; [done|]. exists (mem_view st). split; [constructor|left]. symmetry. by apply Hnone.
Qed.

(** ** The methods under the lock of one stream *)

Lemma section_post_same mt ms t e : section_pre mt ms t e -> section_post mt ms t e (mkLocked t e).
Proof. intros []. unfold section_post; simpl. split_and!; [done|lia..]. Qed.

Lemma section_post_pushed mt ms t e msgs e' :
  section_pre mt ms t e -> capacity mt ms t e (payload msgs) = None ->
  entry_ok e' -> e_total_bytes e' = e_total_bytes e + payload msgs ->
  section_post mt ms t e (mkLocked (t + payload msgs) e').
Proof.
  intros Hpre [Hg Hs]%capacity_none Hok Ht. pose proof (payload_nonneg msgs).
  unfold section_post; simpl. split_and!; [done|lia..].
Qed.

Section Sections.
Context (mt ms t : Z) (e : StreamEntry) (clk : Clock) (name : string) (v : View).
Hypothesis Hpre : section_pre mt ms t e.
Hypothesis Hv : v !! name = Some (abs_entry e).

Lemma close_section : section_refines clk name (spec_close clk name) v mt ms t e (close_stream_locked clk (mkLocked t e)).
Proof using Hpre Hv.
  unfold close_stream_locked, st_bind, throw_if, get_entry, modify_entry; simpl.
  destruct (is_stream_expired (clk 0%nat) (e_config e)) eqn:Hx; simpl.
  - split; [by apply section_post_same|]. apply refined_same; [done|].
    unfold spec_close, live_stream. rewrite Hv. simpl. by rewrite Hx.
  - split.
    + destruct Hpre. unfold section_post; simpl. split_and!; auto with entry lia.
    + apply refined_exact. unfold spec_close, live_stream. rewrite Hv. simpl. by rewrite Hx.
Qed.

Lemma append_section data ct :
  fits v name [data] -> section_room t e (payload [data]) ->
  section_refines clk name (spec_append clk name data ct) v mt ms t e (append_locked mt ms clk data ct (mkLocked t e)).
Proof using Hpre Hv.
  intros (Hp & _ & Hfit)%fits_u64 Hroom. specialize (Hfit _ Hv). simpl in Hfit, Hp, Hroom.
  pose proof (spec_append_at clk name ct v _ Hv data) as Hspec. simpl in Hspec.
  unfold append_locked, st_bind, throw_if, get_entry, modify_entry, st_lift; simpl.
  pose proof (section_post_same _ _ _ _ Hpre) as Hsame.
  destruct (is_stream_expired (clk 0%nat) (e_config e)); simpl;
    [split; [done|by apply refined_same]|].
  destruct (e_closed e); simpl; [split; [done|by apply refined_same]|].
  destruct (validate_content_type _ _) as [[]|err]; simpl in *;
    [|split; [done|by apply refined_same]].
  rewrite len_u64_small by lia. pose proof Hpre as [Hok He0 Ht0 Hmt Hms Hm64].
  rewrite reserve_total_spec by lia. unfold section_room in Hroom.
  destruct (capacity mt ms t e (payload [data])) as [err|] eqn:Hcap.
  - unfold capacity in Hcap. simpl in Hcap. rewrite Z.add_0_r in Hcap.
    destruct (Z.leb_spec (t + Z.of_nat (length data)) mt);
      simplify_eq; [|split; [done|by apply refined_resource]].
    rewrite add64_small by lia.
    destruct (Z.leb_spec (e_total_bytes e + Z.of_nat (length data)) ms);
      simplify_eq. rewrite (proj2 (Z.ltb_lt _ _)) by lia.
    unfold saturating_sub_total_bytes, st_fail; cbn [l_total l_entry].
    rewrite saturating_sub64_add by lia. split; [done|by apply refined_resource].
  - pose proof (capacity_none _ _ _ _ _ Hcap) as [Hg Hs]. simpl in Hg, Hs.
    rewrite (proj2 (Z.leb_le _ _)) by lia. rewrite add64_small by lia.
    rewrite (proj2 (Z.ltb_ge _ _)) by lia. unfold modify_entry, st_ret; cbn [l_entry l_total].
    pose proof (push_messages_pushed e [data]) as Hpush. cbn [map zip zip_with push_messages] in Hpush.
    rewrite len_u64_small in Hpush by lia. pose proof Hok as [Hm Hr Hb Ht Hc].
    rewrite Hpush; [|simpl; lia..].
    replace (t + Z.of_nat (length data)) with (t + payload [data]) by (simpl; lia).
    split; [by apply section_post_pushed; auto with entry|].
    apply refined_exact. rewrite Hspec. cbn [fst snd l_entry]. rewrite abs_pushed. cbn [update_view]. do 2 f_equal.
    by rewrite entry_next_offset_abs.
Qed.

Lemma batch_append_section msgs ct seq :
  fits v name msgs -> section_room t e (payload msgs) -> msgs <> [] ->
  section_refines clk name (spec_batch_append clk name msgs ct seq) v mt ms t e
    (batch_append_locked mt ms clk msgs ct seq (mkLocked t e)).
Proof using Hpre Hv.
  intros (Hp & _ & Hfit)%fits_u64 Hroom Hne. specialize (Hfit _ Hv). simpl a_msgs in Hfit.
  pose proof (spec_batch_append_at clk name ct v _ Hv msgs seq Hne) as Hspec.
  simpl in Hspec.
  unfold batch_append_locked, st_bind, throw_if, get_entry, st_lift; simpl.
  pose proof (section_post_same _ _ _ _ Hpre) as Hsame.
  destruct (is_stream_expired (clk 0%nat) (e_config e)); simpl;
    [split; [done|by apply refined_same]|].
  destruct (e_closed e); simpl; [split; [done|by apply refined_same]|].
  destruct (validate_content_type _ _) as [[]|err]; simpl in *;
    [|split; [done|by apply refined_same]].
  destruct (validate_seq (e_last_seq e) seq) as [pending|err] eqn:Hseq; simpl in *;
    [|split; [done|by apply refined_same]].
  apply validate_seq_ok in Hseq as [-> _].
  rewrite commit_messages_spec by done.
  assert (match msgs with [] => (mkLocked t e, Ok tt) | _ :: _ =>
      match capacity mt ms t e (payload msgs) with
      | Some err => (mkLocked t e, Err err)
      | None => (mkLocked (t + payload msgs) (notify_send (pushed e msgs)), Ok tt)
      end end =
    match capacity mt ms t e (payload msgs) with
      | Some err => (mkLocked t e, Err err)
      | None => (mkLocked (t + payload msgs) (notify_send (pushed e msgs)), Ok tt)
      end) as -> by by destruct msgs.
  destruct (capacity _ _ _ _ _) as [err|] eqn:Hcap;
    [split; [done|by eapply refined_resource, capacity_resource]|].
  pose proof (pushed_ok e msgs (sp_ok _ _ _ _ Hpre) Hfit) as Hok.
  destruct seq as [q|]; cbn [store_pending_seq modify_entry st_ret l_total l_entry];
    (split; [apply section_post_pushed; auto with entry|]);
    apply refined_exact; rewrite Hspec; cbn [update_view fst snd];
    rewrite entry_next_offset_abs by auto with entry; unfold a_next_offset, abs_entry, log_append;
    simpl; rewrite <- (entry_data_pushed e msgs); done.
Qed.
End Sections.

Lemma mem_close_refined st clk name :
  mem_inv st ->
  let '(st', r) := mem_close_stream clk name st in
  mem_inv st' /\ refined clk name (spec_close clk name) (mem_view st) (mem_view st') r.
Proof.
  intros Hinv. apply with_stream_refined; [done|by unfold spec_close, live_stream; intros ->|].
  intros e Hv Hpre Hroom. by apply close_section.
Qed.

Lemma mem_append_refined st clk name data ct :
  mem_inv st -> fits (mem_view st) name [data] ->
  let '(st', r) := mem_append clk name data ct st in
  mem_inv st' /\ refined clk name (spec_append clk name data ct) (mem_view st) (mem_view st') r.
Proof.
  intros Hinv Hfit. unfold mem_append.
  apply with_stream_refined; [done|by unfold spec_append, appendable, live_stream; intros ->|].
  intros e Hv Hpre Hroom. by apply append_section.
Qed.

Lemma mem_batch_append_refined st clk name msgs ct seq :
  mem_inv st -> fits (mem_view st) name msgs ->
  let '(st', r) := mem_batch_append clk name msgs ct seq st in
  mem_inv st' /\
  refined clk name (spec_batch_append clk name msgs ct seq) (mem_view st) (mem_view st') r.
Proof.
  intros Hinv Hfit. unfold mem_batch_append.
  destruct msgs as [|m msgs]; [split; [done|by apply refined_exact]|].
  apply with_stream_refined; [done|by unfold spec_batch_append, appendable, live_stream; intros ->|].
  intros e Hv Hpre Hroom. by apply batch_append_section.
Qed.

(** [commit_messages] in one statement for empty and non-empty batches. *)
Lemma commit_messages_outcome mt ms msgs t e :
  section_pre mt ms t e -> section_room t e (payload msgs) -> payload msgs < two64 ->
  Z.of_nat (length (entry_data e) + length msgs) < two64 ->
  (exists err, commit_messages mt ms msgs (mkLocked t e) = (mkLocked t e, Err err) /\
     resource_error err = true) \/
  (exists e', commit_messages mt ms msgs (mkLocked t e) = (mkLocked (t + payload msgs) e', Ok tt) /\
     section_post mt ms t e (mkLocked (t + payload msgs) e') /\
     abs_entry e' = log_append (abs_entry e) msgs None).
Proof.
  intros Hpre Hroom Hp Hlen. rewrite commit_messages_spec by done. destruct msgs as [|m msgs].
  - right. exists e. simpl. rewrite Z.add_0_r. split_and!; [done|by apply section_post_same|].
    unfold abs_entry, log_append; simpl. by rewrite app_nil_r.
  - destruct (capacity _ _ _ _ _) as [err|] eqn:Hcap; [left|right; eexists].
    + exists err. split; [done|]. by eapply capacity_resource.
    + split_and!; [done| |by rewrite <- abs_pushed].
      apply section_post_pushed; [done..| |done].
      apply notify_send_ok, pushed_ok; [apply Hpre|done].
Qed.

Lemma producer_commit_spec mt ms now msgs p close seq t e :
  section_pre mt ms t e -> section_room t e (payload msgs) -> payload msgs < two64 ->
  Z.of_nat (length (entry_data e) + length msgs) < two64 ->
  let '(l, r) := producer_commit mt ms now msgs p close seq (mkLocked t e) in
  section_post mt ms t e l /\
  ((l_entry l = e /\ exists err, r = Err err /\ resource_error err = true) \/
   (abs_entry (l_entry l) = log_accept (abs_entry e) msgs p close seq now /\
    r = Ok (Accepted (ph_epoch p) (ph_seq p) (a_next_offset (abs_entry (l_entry l)))
              (e_closed (l_entry l))))).
Proof.
  intros Hpre Hroom Hp Hlen. unfold producer_commit, st_bind.
  destruct (commit_messages_outcome mt ms msgs t e Hpre Hroom Hp Hlen)
    as [(err & -> & Hres)|(e' & -> & Hpost & Habs)]; cbv beta iota zeta.
  { split; [by apply section_post_same|]. left. eauto. }
  destruct Hpost as (Hok & Ht & Hmt & Hgr & Hms).
  assert (forall q c, log_accept (abs_entry e) msgs p c q now =
            log_accept (abs_entry e') [] p c q now) as ->.
  { intros q c. unfold log_accept, log_append. rewrite Habs. simpl. by rewrite app_nil_r. }
  destruct seq as [q|], close; cbn -[Z.add];
    (split; [split_and!; cbn -[Z.add]; auto with entry|]); right;
    (split; [unfold log_accept, log_append; simpl; by rewrite app_nil_r
            |by rewrite entry_next_offset_abs by auto with entry]).
Qed.

Lemma append_with_producer_tidied mt ms clk msgs ct p close seq t e :
  section_pre mt ms t e -> section_room t e (payload msgs) -> payload msgs < two64 ->
  Z.of_nat (length (entry_data e) + length msgs) < two64 ->
  is_stream_expired (clk 0%nat) (e_config e) = false ->
  let '(l, r) := append_with_producer_locked mt ms clk msgs ct p close seq (mkLocked t e) in
  section_post mt ms t e l /\
  (match log_produce (log_tidy clk (abs_entry e)) msgs ct p close seq (clk 2%nat) with
   | Ok (b, x) => abs_entry (l_entry l) = b /\ r = Ok x
   | Err err => abs_entry (l_entry l) = log_tidy clk (abs_entry e) /\ r = Err err
   end \/
   (abs_entry (l_entry l) = log_tidy clk (abs_entry e) /\
    exists err, r = Err err /\ resource_error err = true)).
Proof.
  intros Hpre Hroom Hp Hlen Hx.
  unfold append_with_producer_locked, st_bind, throw_if, get_entry, modify_entry, st_lift; simpl.
  rewrite Hx; simpl. set (e1 := set_producers e _).
  assert (section_pre mt ms t e1) as Hpre1
    by (destruct Hpre; split; try done; by apply set_producers_ok).
  pose proof (section_post_same _ _ _ _ Hpre1) as Hsame.
  change (log_tidy clk (abs_entry e)) with (abs_entry e1).
  change (section_post mt ms t e) with (section_post mt ms t e1).
  assert ((match msgs with [] => st_ret tt
           | _ :: _ => fun s => (s, validate_content_type (content_type (e_config e)) ct) end)
          (mkLocked t e1) = (mkLocked t e1, if decide (msgs = []) then Ok tt
             else validate_content_type (content_type (e_config e)) ct)) as -> by by destruct msgs.
  unfold log_produce. change (a_config (abs_entry e1)) with (e_config e).
  destruct (if decide (msgs = []) then _ else _) as [[]|err]; simpl; [|eauto].
  destruct (check_producer _ _ _) as [[|ep q]|err]; simpl; [| |eauto].
  2:{ split; [done|]. left. split; [done|]. rewrite entry_next_offset_abs; [done|apply Hpre1]. }
  destruct (validate_seq (e_last_seq e) seq) as [pending|err] eqn:Hseq; simpl; [|eauto].
  apply validate_seq_ok in Hseq as [-> _].
  pose proof (producer_commit_spec mt ms (clk 2%nat) msgs p close seq t e1 Hpre1 Hroom Hp Hlen) as Hc.
  destruct (producer_commit _ _ _ _ _ _ _ _) as [l r]. destruct Hc as [Hpost Hc].
  split; [done|]. destruct Hc as [[-> Hr]|[Ha ->]]; [by right|left].
  split; [done|]. do 2 f_equal; [by rewrite <- Ha|]. by apply (f_equal a_closed) in Ha.
Qed.

Lemma append_with_producer_section mt ms t e v clk name msgs ct p close seq :
  section_pre mt ms t e -> v !! name = Some (abs_entry e) -> fits v name msgs ->
  section_room t e (payload msgs) ->
  section_refines clk name (spec_append_with_producer clk name msgs ct p close seq) v mt ms t e
    (append_with_producer_locked mt ms clk msgs ct p close seq (mkLocked t e)).
Proof.
  intros Hpre Hv (Hp & _ & Hfit)%fits_u64 Hroom. specialize (Hfit _ Hv). simpl a_msgs in Hfit.
  destruct (is_stream_expired (clk 0%nat) (e_config e)) eqn:Hx.
  - unfold append_with_producer_locked, st_bind, throw_if, get_entry; simpl. rewrite Hx. simpl.
    split; [by apply section_post_same|]. apply refined_same; [done|].
    unfold spec_append_with_producer, live_stream. rewrite Hv. simpl. by rewrite Hx.
  - pose proof (append_with_producer_tidied _ _ clk msgs ct p close seq _ e Hpre Hroom Hp Hfit Hx) as H.
    destruct (append_with_producer_locked _ _ _ _ _ _ _ _ _) as [l r]. destruct H as [Hpost H].
    split; [done|]. by eapply refined_produce.
Qed.

Lemma mem_append_with_producer_refined st clk name msgs ct p close seq :
  mem_inv st -> fits (mem_view st) name msgs ->
  let '(st', r) := mem_append_with_producer clk name msgs ct p close seq st in
  mem_inv st' /\
  refined clk name (spec_append_with_producer clk name msgs ct p close seq)
    (mem_view st) (mem_view st') r.
Proof.
  intros Hinv Hfit. unfold mem_append_with_producer.
  apply with_stream_refined;
    [done|by unfold spec_append_with_producer, live_stream; intros ->|].
  intros e Hv Hpre Hroom. by apply append_with_producer_section.
Qed.

(** ** The methods under the lock of the map *)

Lemma mem_view_delete st name st' :
  m_streams st' = delete name (m_streams st) -> mem_view st' = delete name (mem_view st).
Proof. unfold mem_view. intros ->. apply fmap_delete. Qed.

(** Taking a stream out of the map gives back exactly its bytes. *)
Lemma mem_inv_remove st name e :
  mem_inv st -> m_streams st !! name = Some e -> mem_inv (remove_expired name e st).
Proof.
  intros Hinv He. pose proof (mem_inv_entry_le _ _ _ Hinv He) as Hle.
  destruct Hinv as [H1 H2 H3 H4 H5]. unfold remove_expired, saturating_sub64.
  split; simpl; try done.
  - intros n' e' [_ Hn']%lookup_delete_Some. eauto.
  - unfold sum_bytes in *. rewrite H4, (map_sum_delete _ _ _ _ He) in *. lia.
  - lia.
Qed.

Lemma mem_delete_spec st name :
  mem_inv st ->
  let '(st', r) := mem_delete name st in
  mem_inv st' /\ (mem_view st', r) = spec_delete name (mem_view st).
Proof.
  intros Hinv. unfold mem_delete, spec_delete. rewrite mem_view_lookup.
  destruct (m_streams st !! name) as [e|] eqn:He; simpl; [|done]. split.
  - by apply (mem_inv_remove st name e).
  - f_equal. by apply mem_view_delete.
Qed.

(** An entry built outside the map and then inserted. *)
Lemma mem_inv_insert_new st name e :
  mem_inv st -> m_streams st !! name = None -> entry_ok e ->
  e_total_bytes e <= m_max_stream_bytes st ->
  m_total_bytes st + e_total_bytes e <= m_max_total_bytes st ->
  mem_inv (mkMem (<[name := e]> (m_streams st)) (m_total_bytes st + e_total_bytes e)
             (m_max_total_bytes st) (m_max_stream_bytes st)).
Proof.
  intros [H1 H2 H3 H4 H5] Hn Hok Hms Hmt. split; simpl; try done.
  - intros n' e' Hn'. destruct (decide (name = n')) as [->|Hne].
    + rewrite lookup_insert_eq in Hn'. by simplify_eq.
    + rewrite lookup_insert_ne in Hn' by done. eauto.
  - unfold sum_bytes in *. rewrite map_sum_insert_new by done. lia.
Qed.

(** A fresh entry satisfies what [commit_messages] assumes. *)
Lemma new_entry_pre mt ms t now config :
  0 <= t <= mt -> mt < two64 -> 0 <= ms -> section_pre mt ms t (StreamEntry_new now config).
Proof. intros Ht Hmt Hms. split; simpl; auto with entry lia. Qed.

(** The entry of a stream created with data. *)
Definition filled (e : StreamEntry) (close : bool) : StreamEntry := if close then set_closed e true else e.

Lemma fill_entry mt ms t clk config msgs close :
  let e := StreamEntry_new (clk 1%nat) config in
  0 <= t <= mt -> mt < two64 -> 0 <= ms -> payload msgs < two64 -> Z.of_nat (length msgs) < two64 ->
  (exists err, commit_messages mt ms msgs (mkLocked t e) = (mkLocked t e, Err err) /\ resource_error err = true) \/
  (exists e', commit_messages mt ms msgs (mkLocked t e) = (mkLocked (t + payload msgs) e', Ok tt) /\
     entry_ok (filled e' close) /\ abs_entry (filled e' close) = new_stream clk config msgs close /\
     e_total_bytes (filled e' close) = payload msgs /\ payload msgs <= ms /\ t + payload msgs <= mt /\
     entry_next_offset (filled e' close) = tail_offset msgs /\ e_closed (filled e' close) = close).
Proof.
  cbv zeta. intros Ht Hmt Hms Hp Hlen.
  destruct (commit_messages_outcome _ _ msgs _ _ (new_entry_pre mt ms t (clk 1%nat) config Ht Hmt Hms)
    ltac:(left; cbn; lia) Hp Hlen) as [(err & -> & Hres)|(e' & -> & Hpost & Habs)]; [left; eauto|right].
  exists e'. split; [done|]. destruct Hpost as (Hok & Htot & Hmt' & _ & Hms'). cbn [l_total l_entry] in *.
  assert (abs_entry (filled e' close) = new_stream clk config msgs close) as Habs2.
  { transitivity (if close then log_close (abs_entry e') else abs_entry e'); [by destruct close|].
    rewrite Habs. by destruct close. }
  assert (entry_ok (filled e' close)) as Hok2 by (unfold filled; destruct close; auto with entry).
  assert (e_total_bytes (filled e' close) = payload msgs) as Hb.
  { rewrite (eo_total _ Hok2). by injection Habs2 as _ ->. }
  assert (e_total_bytes (filled e' close) = e_total_bytes e') as Hb' by by destruct close.
  split_and!; [done..|lia|lia| |].
  - rewrite entry_next_offset_abs by done. by rewrite Habs2.
  - by injection Habs2 as _ _ ->.
Qed.

Lemma insert_new_stream_spec st clk name config msgs close :
  mem_inv st -> m_streams st !! name = None -> payload msgs < two64 ->
  Z.of_nat (length msgs) < two64 ->
  let '(st', r) := insert_new_stream clk name config msgs close st in
  mem_inv st' /\
  ((mem_view st' = mem_view st /\ exists err, r = Err err /\ resource_error err = true) \/
   (mem_view st' = <[name := new_stream clk config msgs close]> (mem_view st) /\
    r = Ok (mkCreateWithData StreamCreated (tail_offset msgs) close))).
Proof.
  intros Hinv Hn Hp Hlen. unfold insert_new_stream. destruct (mem_inv_bounds st Hinv) as (Ht & Hmt & Hms).
  destruct (fill_entry _ _ _ clk config msgs close Ht Hmt Hms Hp Hlen)
    as [(err & -> & Hres)|(e' & -> & Hok & Habs & Hb & Hle & Hlt & Hoff & Hcl)].
  { split; [by destruct st|]. left. split; [done|eauto]. }
  cbn [l_entry l_total]. fold (filled e' close). split.
  - rewrite <- Hb. apply mem_inv_insert_new; [done|done|done|lia..].
  - right. rewrite mem_view_insert, Habs, Hoff, Hcl. done.
Qed.

Lemma live_stream_mem clk name st :
  live_stream clk name (mem_view st) =
  match m_streams st !! name with
  | None => Err (NotFound name)
  | Some e => if is_stream_expired (clk 0%nat) (e_config e) then Err StreamExpired
              else Ok (abs_entry e)
  end.
Proof. unfold live_stream. rewrite mem_view_lookup. by destruct (m_streams st !! name). Qed.

Lemma mem_create_with_data_refined st clk name config msgs close :
  mem_inv st -> fits (mem_view st) name msgs ->
  let '(st', r) := mem_create_stream_with_data clk name config msgs close st in
  mem_inv st' /\
  refined clk name (spec_create_with_data clk name config msgs close) (mem_view st) (mem_view st') r.
Proof.
  intros Hinv (Hp & Hlen & _)%fits_u64.
  assert (forall st0, mem_inv st0 -> m_streams st0 !! name = None ->
    housekeeping clk name (mem_view st) (mem_view st0) ->
    let '(st', r) := insert_new_stream clk name config msgs close st0 in
    mem_inv st' /\ refined clk name (spec_create_with_data clk name config msgs close)
                     (mem_view st) (mem_view st') r) as Hnew.
  { intros st0 Hinv0 Hn Hhk.
    pose proof (insert_new_stream_spec st0 clk name config msgs close Hinv0 Hn Hp Hlen) as H.
    destruct (insert_new_stream _ _ _ _ _ _) as [st' r]. destruct H as [Hinv' H]. split; [done|].
    exists (mem_view st0). split; [done|]. destruct H as [[-> H]|[-> ->]]; [by right|left].
    unfold spec_create_with_data. rewrite live_stream_mem. by rewrite Hn. }
  unfold mem_create_stream_with_data. destruct (m_streams st !! name) as [e|] eqn:He.
  - pose proof (mem_view_lookup st name) as Hv. rewrite He in Hv. simpl in Hv.
    destruct (is_stream_expired (clk 0%nat) (e_config e)) eqn:Hx.
    + apply Hnew; [by apply mem_inv_remove|apply lookup_delete_eq|].
      rewrite (mem_view_delete st name (remove_expired name e st) eq_refl). by eapply hk_expired.
    + destruct (mi_entries _ Hinv _ _ He) as [Hok _].
      destruct (config_eq (e_config e) config) eqn:Hc; (split; [done|]); apply refined_exact;
        unfold spec_create_with_data; rewrite live_stream_mem, He, Hx; simpl; rewrite Hc;
        by rewrite ?entry_next_offset_abs.
  - apply Hnew; [done|done|constructor].
Qed.

Lemma mem_create_refined st clk name config :
  mem_inv st ->
  let '(st', r) := mem_create_stream clk name config st in
  mem_inv st' /\ refined clk name (spec_create clk name config) (mem_view st) (mem_view st') r.
Proof.
  intros Hinv.
  assert (forall st0, mem_inv st0 -> m_streams st0 !! name = None ->
    housekeeping clk name (mem_view st) (mem_view st0) ->
    let st' := set_streams st0 (<[name := StreamEntry_new (clk 1%nat) config]> (m_streams st0)) in
    mem_inv st' /\ refined clk name (spec_create clk name config)
                     (mem_view st) (mem_view st') (Ok StreamCreated)) as Hnew.
  { intros st0 Hinv0 Hn Hhk. destruct (mem_inv_bounds st0 Hinv0) as (Ht0 & _ & Hms0).
    split.
    - pose proof (mem_inv_insert_new st0 name (StreamEntry_new (clk 1%nat) config) Hinv0 Hn) as H.
      simpl in H. rewrite Z.add_0_r in H. apply H; simpl; auto with entry lia.
    - exists (mem_view st0). split; [done|left]. unfold spec_create, set_streams.
      rewrite live_stream_mem, Hn, mem_view_insert. done. }
  unfold mem_create_stream. destruct (m_streams st !! name) as [e|] eqn:He.
  - pose proof (mem_view_lookup st name) as Hv. rewrite He in Hv. simpl in Hv.
    destruct (is_stream_expired (clk 0%nat) (e_config e)) eqn:Hx.
    + apply Hnew; [by apply mem_inv_remove|apply lookup_delete_eq|].
      rewrite (mem_view_delete st name (remove_expired name e st) eq_refl). by eapply hk_expired.
    + destruct (config_eq (e_config e) config) eqn:Hc; (split; [done|]); apply refined_exact;
        unfold spec_create; rewrite live_stream_mem, He, Hx; simpl; by rewrite Hc.
  - apply Hnew; [done|done|constructor].
Qed.

(** ** The read-only methods *)

(** The binary search finds the messages at or after the offset, whether or not
    the offset is that of a message. *)
Lemma start_index_from e rs bo txt :
  entry_ok e ->
  map msg_data (drop (start_index e (Concrete rs bo txt)) (e_messages e)) =
  messages_from (Concrete rs bo txt) (entry_data e).
Proof.
  intros [Hm _ _ _ _]. rewrite (search_place msg_offset (e_messages e)).
  - unfold entry_data. by rewrite <- fmap_drop.
  - rewrite Hm at 1. unfold place_messages. by rewrite <- list_fmap_compose.
Qed.

Section ReadSections.
Context (e : StreamEntry) (clk : Clock) (name : string) (v : View).
Hypothesis Hok : entry_ok e.
Hypothesis Hv : v !! name = Some (abs_entry e).

Lemma read_locked_spec o : read_locked clk o e = spec_read clk name o v.
Proof using Hok Hv.
  unfold read_locked, spec_read, live_stream. rewrite Hv. cbn [abs_entry a_config].
  destruct (is_stream_expired _ _); [done|]. cbn [result_bind].
  rewrite entry_next_offset_abs by done.
  destruct o as [| |rs bo txt]; cbn [is_now]; [|done|].
  - cbn [start_index is_start drop]. rewrite (proj2 (Nat.leb_le _ _)); [done|].
    rewrite length_map. apply Nat.le_refl.
  - rewrite start_index_from by done. rewrite <- start_index_from by done.
    rewrite (proj2 (Nat.leb_le _ _)); [by rewrite start_index_from|].
    rewrite length_map, length_drop. lia.
Qed.

Lemma head_locked_spec : head_locked clk e = spec_head clk name v.
Proof using Hok Hv.
  unfold head_locked, spec_head, live_stream. rewrite Hv. cbn [abs_entry a_config].
  destruct (is_stream_expired _ _); [done|]. cbn [result_bind]. unfold entry_metadata.
  rewrite entry_next_offset_abs by done. pose proof Hok as [_ _ _ Ht Hc].
  do 2 f_equal; [done|]. unfold entry_data in *. rewrite length_fmap in Hc.
  simpl. unfold entry_data. rewrite length_fmap. by apply len_u64_small.
Qed.
End ReadSections.

Lemma mem_read_spec st clk name o :
  mem_inv st -> mem_read clk name o st = spec_read clk name o (mem_view st).
Proof.
  intros Hinv. unfold mem_read. pose proof (mem_view_lookup st name) as Hv.
  destruct (m_streams st !! name) as [e|] eqn:He.
  - apply read_locked_spec; [by apply (mi_entries _ Hinv name)|done].
  - unfold spec_read, live_stream. by rewrite Hv.
Qed.

Lemma mem_head_spec st clk name :
  mem_inv st -> mem_head clk name st = spec_head clk name (mem_view st).
Proof.
  intros Hinv. unfold mem_head. pose proof (mem_view_lookup st name) as Hv.
  destruct (m_streams st !! name) as [e|] eqn:He.
  - apply head_locked_spec; [by apply (mi_entries _ Hinv name)|done].
  - unfold spec_head, live_stream. by rewrite Hv.
Qed.

Lemma mem_exists_spec st clk name : mem_exists clk name st = spec_exists clk name (mem_view st).
Proof.
  unfold mem_exists, spec_exists. rewrite live_stream_mem.
  destruct (m_streams st !! name) as [e|]; [|done]. by destruct (is_stream_expired _ _).
Qed.

Lemma mem_subscribe_spec st clk name :
  mem_inv st ->
  let '(st', rx) := mem_subscribe clk name st in
  mem_inv st' /\ mem_view st' = mem_view st /\
  (is_Some rx <-> spec_exists clk name (mem_view st) = true).
Proof.
  intros Hinv. unfold mem_subscribe. split_and!; [done..|]. rewrite <- mem_exists_spec.
  unfold mem_exists. destruct (m_streams st !! name) as [e|]; [|by rewrite is_Some_alt].
  destruct (is_stream_expired _ _); by rewrite is_Some_alt.
Qed.

(** ** The contract *)

Lemma mem_bounded st name a :
  mem_inv st -> mem_view st !! name = Some a -> offset_wf (a_next_offset a).
Proof.
  intros Hinv Ha. rewrite mem_view_lookup in Ha. apply fmap_Some in Ha as (e & He & ->).
  destruct (mi_entries _ Hinv _ _ He) as [[_ _ _ Ht Hc] Hms]. destruct (mi_max_stream _ Hinv).
  apply Offset_new_wf; unfold u64; simpl; pose proof (payload_nonneg (entry_data e)); lia.
Qed.

#[global] Instance memory_lawful : LawfulStorage InMemoryStorage := {|
  backend_inv := mem_inv;
  view := mem_view;
  law_bounded := mem_bounded;
  law_read s clk name o Hinv _ := mem_read_spec s clk name o Hinv;
  law_head := mem_head_spec;
  law_exists s clk name _ := mem_exists_spec s clk name;
  law_subscribe := mem_subscribe_spec;
  law_delete := mem_delete_spec;
  law_close := mem_close_refined;
  law_append := mem_append_refined;
  law_batch_append := mem_batch_append_refined;
  law_append_with_producer := mem_append_with_producer_refined;
  law_create_with_data s clk name config msgs close Hinv Hfit _ :=
    mem_create_with_data_refined s clk name config msgs close Hinv Hfit;
  law_create := mem_create_refined
|}.
