(* ===== verification/MemoryProps.v ===== *)
(** * MemoryProps: the in-memory backend at work

    The invariant along every history that starts from an empty storage, the
    admission of a batch against the two byte limits, the notifications a
    subscriber gets, and the guarantees of [StorageTrace] instantiated. *)

From S2P Require Import Prelude Errors Offsets RustStd Headers StorageCore LogSpec StorageTrace.
From S2P Require Import MemoryStorage MemoryRefinement.

(** ** From the empty storage *)

Lemma mem_inv_new mt ms : u64 mt -> u64 ms -> mem_inv (InMemoryStorage_new mt ms).
Proof.
  intros Hmt Hms. split; simpl; try done. apply Hmt.
Qed.

(** The limits are set once and for all. *)
Definition limits (st : InMemoryStorage) : Z * Z := (m_max_total_bytes st, m_max_stream_bytes st).

Lemma with_stream_limits {A} name (section : ST Locked Error A) st :
  limits (with_stream name section st).1 = limits st.
Proof. unfold with_stream. destruct (m_streams st !! name); [|done]. by destruct (section _). Qed.

Lemma insert_new_stream_limits clk name config msgs close st :
  limits (insert_new_stream clk name config msgs close st).1 = limits st.
Proof. unfold insert_new_stream. destruct (commit_messages _ _ _ _) as [l [[]|err]]; done. Qed.

Lemma run_op_limits op (st : InMemoryStorage) : limits (run_op op st) = limits st.
Proof.
  destruct op; simpl; try apply with_stream_limits.
  - unfold mem_create_stream. by repeat case_match.
  - unfold mem_create_stream_with_data.
    repeat case_match; try done; by rewrite insert_new_stream_limits.
  - unfold mem_batch_append. case_match; [done|]. apply with_stream_limits.
  - unfold mem_delete. by case_match.
  - done.
Qed.

Lemma history_limits (st : InMemoryStorage) ops st' : history st ops st' -> limits st' = limits st.
Proof. induction 1 as [|s op ops s' _ _ _ IH]; [done|]. by rewrite IH, run_op_limits. Qed.

(** C24: the byte accounting of the in-memory storage is exact and bounded. After
    any history of calls on a fresh storage with limits [mt] and [ms], the global
    counter equals the sum of the payloads of the stored streams and is within
    [mt], and each stream has its counters equal to its number of messages and
    bytes, its payload within [ms] and its messages at consecutive offsets: no
    counter ever wraps, rolled-back reservations and deletions leak nothing. *)
Theorem memory_accounting_exact mt ms ops st :
  u64 mt -> u64 ms -> history (InMemoryStorage_new mt ms) ops st ->
  m_total_bytes st = map_fold (fun _ e acc => payload (map msg_data (e_messages e)) + acc) 0
                       (m_streams st) /\
  m_total_bytes st <= mt /\
  (forall name e, m_streams st !! name = Some e ->
     let data := map msg_data (e_messages e) in
     map msg_offset (e_messages e) = (place 0 0 data).*1 /\
     e_next_read_seq e = Z.of_nat (length (e_messages e)) /\
     e_next_byte_offset e = payload data /\ e_total_bytes e = payload data /\
     payload data <= ms).
Proof.
  intros Hmt Hms Hh. pose proof (mem_inv_new mt ms Hmt Hms) as Hinv.
  pose proof (history_limits _ _ _ Hh) as Hlim. unfold limits in Hlim; simpl in Hlim.
  destruct (history_ok _ _ _ Hh Hinv) as [[_ _ Hent Hsum Hle] _]. split_and!.
  - rewrite Hsum. unfold sum_bytes, map_sum.
    assert (forall n e, m_streams st !! n = Some e ->
              e_total_bytes e = payload (map msg_data (e_messages e))) as Hpay
      by (intros n e He; apply (Hent n e He)).
    revert Hpay. generalize (m_streams st). intros m.
    induction m as [|n e m Hn IH] using map_ind; intros Hpay; [by rewrite !map_fold_empty|].
    rewrite !map_fold_insert_L by (done || (intros; lia)). f_equal.
    + apply (Hpay n). apply lookup_insert_eq.
    + apply IH. intros n' e' Hn'. apply (Hpay n'). rewrite lookup_insert_ne; congruence.
  - simplify_eq. lia.
  - intros name e He. destruct (Hent name e He) as [[H1 H2 H3 H4 H5] H6]. simplify_eq.
    unfold entry_data in *. rewrite length_fmap in H2. split_and!; try done.
    + rewrite H1 at 1. unfold place_messages. rewrite map_map. done.
    + etrans; [apply Z.eq_le_incl; symmetry; exact H4|exact H6].
Qed.

(** ** Admission of a batch *)

(** The entry after an accepted batch. *)
Definition batch_appended (e : StreamEntry) (msgs : list bytes) (seq : option string)
  : StreamEntry :=
  let e' := notify_send (pushed e msgs) in
  match seq with Some q => set_last_seq e' (Some q) | None => e' end.

(** [batch_append] admits a batch exactly when it fits both limits. For a
    live, open stream and a batch that passes the content-type and [Stream-Seq]
    checks: if the global limit would be exceeded the answer is
    [MemoryLimitExceeded], else if the stream's limit would be exceeded it is
    [StreamSizeLimitExceeded], and in both cases the storage, counters included,
    is left exactly as it was; otherwise the whole batch is appended, both
    counters grow by its size, subscribers are notified once and the answer is
    the new tail. *)
Theorem batch_append_admission st clk name msgs ct seq e :
  mem_inv st -> m_streams st !! name = Some e -> msgs <> [] ->
  payload msgs < two64 -> Z.of_nat (length (e_messages e) + length msgs) < two64 ->
  is_stream_expired (clk 0%nat) (e_config e) = false -> e_closed e = false ->
  validate_content_type (content_type (e_config e)) ct = Ok tt ->
  validate_seq (e_last_seq e) seq = Ok seq ->
  mem_batch_append clk name msgs ct seq st =
  if m_max_total_bytes st <? m_total_bytes st + payload msgs then (st, Err MemoryLimitExceeded)
  else if m_max_stream_bytes st <? e_total_bytes e + payload msgs
  then (st, Err StreamSizeLimitExceeded)
  else (mkMem (<[name := batch_appended e msgs seq]> (m_streams st))
          (m_total_bytes st + payload msgs) (m_max_total_bytes st) (m_max_stream_bytes st),
        Ok (tail_offset (map msg_data (e_messages e) ++ msgs))).
Proof.
  intros Hinv He Hne Hp Hlen Hx Hc Hct Hseq.
  destruct (mem_inv_section _ _ _ Hinv He) as [Hpre Hroom].
  assert (Z.of_nat (length (entry_data e) + length msgs) < two64) as Hlen'
    by (unfold entry_data; by rewrite length_fmap).
  unfold mem_batch_append, with_stream. destruct msgs as [|m msgs]; [done|].
  rewrite He. unfold batch_append_locked, st_bind, throw_if, get_entry, st_lift; cbn [l_entry].
  rewrite Hx, Hc, Hct, Hseq. cbn -[commit_messages payload Z.add]. rewrite commit_messages_spec by done.
  unfold capacity. rewrite !(Z.leb_antisym _ (_ + _)).
  destruct (_ <? m_total_bytes st + _); simpl negb; cbn [l_entry l_total]; [|destruct (_ <? _)]; simpl negb; cbn [l_entry l_total].
  1,2: rewrite insert_id by done; by destruct st.
  pose proof (pushed_ok e (m :: msgs) (sp_ok _ _ _ _ Hpre) Hlen') as Hok.
  destruct seq as [q|]; cbn -[payload Z.add pushed];
    rewrite entry_next_offset_abs by auto with entry; unfold a_next_offset; simpl a_msgs;
    f_equal; f_equal; f_equal; apply (entry_data_pushed e (m :: msgs)).
Qed.

(** ** Refinement *)

(** C1: every method of [InMemoryStorage] implements the abstract log. From any
    state that satisfies the invariant, [read], [head] and [exists] return exactly
    what the log of the stream says; [delete] removes exactly that log; and each
    method that writes keeps the invariant and answers and changes the logs as its
    reference operation does, after at most dropping an expired stream or stale
    producers, unless it reports a resource limit and then changes nothing. *)
Theorem memory_refines_log st clk name :
  mem_inv st ->
  let ok {A} (spec : View -> View * Result Error A) (out : InMemoryStorage * Result Error A) :=
    mem_inv out.1 /\ refined clk name spec (mem_view st) (mem_view out.1) out.2 in
  (forall o, mem_read clk name o st = spec_read clk name o (mem_view st)) /\
  mem_head clk name st = spec_head clk name (mem_view st) /\
  mem_exists clk name st = spec_exists clk name (mem_view st) /\
  (mem_inv (mem_delete name st).1 /\
   (mem_view (mem_delete name st).1, (mem_delete name st).2) = spec_delete name (mem_view st)) /\
  ok (spec_close clk name) (mem_close_stream clk name st) /\
  (forall config, ok (spec_create clk name config) (mem_create_stream clk name config st)) /\
  (forall msgs, fits (mem_view st) name msgs ->
     (forall config close,
        ok (spec_create_with_data clk name config msgs close)
           (mem_create_stream_with_data clk name config msgs close st)) /\
     (forall ct seq, ok (spec_batch_append clk name msgs ct seq)
                        (mem_batch_append clk name msgs ct seq st)) /\
     (forall ct p close seq,
        ok (spec_append_with_producer clk name msgs ct p close seq)
           (mem_append_with_producer clk name msgs ct p close seq st)) /\
     (forall data ct, msgs = [data] ->
        ok (spec_append clk name data ct) (mem_append clk name data ct st))).
Proof.
  intros Hinv ok. split_and!; try apply mem_exists_spec.
  - intros o. by apply mem_read_spec.
  - by apply mem_head_spec.
  - pose proof (mem_delete_spec st name Hinv) as H. destruct (mem_delete name st). apply H.
  - pose proof (mem_delete_spec st name Hinv) as H. destruct (mem_delete name st). apply H.
  - pose proof (mem_close_refined st clk name Hinv) as H. destruct (mem_close_stream clk name st). exact H.
  - intros config. pose proof (mem_create_refined st clk name config Hinv) as H.
    destruct (mem_create_stream clk name config st). exact H.
  - intros msgs Hf. split_and!.
    + intros config close.
      pose proof (mem_create_with_data_refined st clk name config msgs close Hinv Hf) as H.
      destruct (mem_create_stream_with_data clk name config msgs close st). exact H.
    + intros ct seq. pose proof (mem_batch_append_refined st clk name msgs ct seq Hinv Hf) as H.
      destruct (mem_batch_append clk name msgs ct seq st). exact H.
    + intros ct p close seq.
      pose proof (mem_append_with_producer_refined st clk name msgs ct p close seq Hinv Hf) as H.
      destruct (mem_append_with_producer clk name msgs ct p close seq st). exact H.
    + intros data ct ->. pose proof (mem_append_refined st clk name data ct Hinv Hf) as H.
      destruct (mem_append clk name data ct st). exact H.
Qed.

(** ** Notifications *)

(** How many notifications the channel of stream [n] has sent. *)
Definition sent (st : InMemoryStorage) (n : string) : option Z := e_notify <$> m_streams st !! n.

Definition keeps_notify {A} (section : ST Locked Error A) : Prop :=
  forall l, e_notify (l_entry (section l).1) = e_notify (l_entry l).

Lemma with_stream_sent {A} name (section : ST Locked Error A) st n :
  keeps_notify section -> sent (with_stream name section st).1 n = sent st n.
Proof.
  intros Hk. unfold with_stream, sent. destruct (m_streams st !! name) as [e|] eqn:He; [|done].
  specialize (Hk (mkLocked (m_total_bytes st) e)). destruct (section _) as [l r]; simpl in *.
  destruct (decide (name = n)) as [->|]; [|by rewrite lookup_insert_ne].
  rewrite lookup_insert_eq, He. simpl. by rewrite Hk.
Qed.

Lemma keeps_notify_bind {A B} (x : ST Locked Error A) (f : A -> ST Locked Error B) :
  keeps_notify x -> (forall a, keeps_notify (f a)) -> keeps_notify (st_bind x f).
Proof.
  intros Hx Hf l. unfold st_bind. specialize (Hx l). destruct (x l) as [l' [a|err]]; [|done].
  rewrite Hf. done.
Qed.

Lemma keeps_notify_pure {A} (f : Locked -> Result Error A) : keeps_notify (fun s => (s, f s)).
Proof. by intros l. Qed.

Lemma keeps_notify_modify f :
  (forall e, e_notify (f e) = e_notify e) -> keeps_notify (modify_entry f).
Proof. intros Hf l. apply Hf. Qed.

Lemma keeps_notify_throw b err : keeps_notify (throw_if b err).
Proof. by destruct b; intros l. Qed.

Lemma keeps_notify_reserve mt b : keeps_notify (reserve_total mt b).
Proof. intros l. unfold reserve_total. by repeat case_match. Qed.

Create HintDb notify.
#[local] Hint Resolve keeps_notify_bind keeps_notify_pure keeps_notify_modify keeps_notify_throw
  keeps_notify_reserve : notify.
#[local] Hint Extern 5 (keeps_notify _) => (intros [? ?]; reflexivity) : notify.

(** Walk through a critical section, step by step. *)
Ltac keep_notify :=
  repeat match goal with
    | |- keeps_notify (st_bind _ _) => apply keeps_notify_bind; [|intros ?]
    | |- keeps_notify (if ?b then _ else _) => destruct b
    | |- keeps_notify (match ?x with _ => _ end) => destruct x
    | |- keeps_notify (producer_commit _ _ _ _ _ _ _) => unfold producer_commit
    end; auto with notify.

(** A single [append] wakes no subscriber. Whatever the state and the
    arguments, [InMemoryStorage::append] leaves the number of notifications of
    every stream unchanged, although it stores a message (compare
    [batch_append_admission], where the same channel counts one more). *)
Theorem append_sends_no_notification st clk name data ct n :
  sent (mem_append clk name data ct st).1 n = sent st n.
Proof.
  apply with_stream_sent. unfold append_locked. keep_notify.
Qed.

(** Closing through a producer request without messages wakes no subscriber
    either: whatever the state, the notification counts are unchanged, also when
    the request is accepted and closes the stream. *)
Theorem producer_close_sends_no_notification st clk name ct p close seq n :
  sent (mem_append_with_producer clk name [] ct p close seq st).1 n = sent st n.
Proof.
  apply with_stream_sent. unfold append_with_producer_locked. keep_notify.
  unfold store_pending_seq. keep_notify.
Qed.

(** ** A concrete run *)

Definition run_clock : Clock := fun _ => 1000.
Definition run_config : StreamConfig := mkStreamConfig "text/plain" None None false.
Definition run_producer : ProducerHeaders := mkProducerHeaders "p1" 0 0.
Definition run_batch : list bytes := [as_bytes "ab"; as_bytes "cde"].

(** An empty storage, then one stream with a first batch. *)
Definition run_store0 : InMemoryStorage := InMemoryStorage_new 100 10.
Definition run_store1 : InMemoryStorage :=
  (mem_create_stream_with_data run_clock "s" run_config run_batch false run_store0).1.

Lemma run_store1_inv : mem_inv run_store1.
Proof.
  refine (proj1 (run_op_ok (OpCreateWithData run_clock "s" run_config run_batch false) run_store0 _ _ _)).
  - apply mem_inv_new; apply u64_small; lia.
  - fits_run.
  - sized_run.
Qed.

Lemma memory_accounting_exact_witness : m_total_bytes run_store1 = 5.
Proof.
  destruct (memory_accounting_exact 100 10
    [OpCreateWithData run_clock "s" run_config run_batch false] run_store1) as [H _].
  - apply u64_small; lia.
  - apply u64_small; lia.
  - constructor; [fits_run|sized_run|constructor].
  - rewrite H. reflexivity.
Defined.

Lemma batch_append_admission_witness :
  mem_batch_append run_clock "s" [as_bytes "123456"] "text/plain" None run_store1 =
  (run_store1, Err StreamSizeLimitExceeded).
Proof.
  pose proof (batch_append_admission run_store1 run_clock "s" [as_bytes "123456"] "text/plain"
                None (default (StreamEntry_new 0 run_config) (m_streams run_store1 !! "s"))
                run_store1_inv) as H.
  rewrite H; try (vm_compute; first [reflexivity | done]).
Defined.

Lemma memory_refines_log_witness :
  mem_read run_clock "s" Start run_store1 = Ok (mkReadResult run_batch (Offset_new 2 5) true false).
Proof.
  destruct (memory_refines_log run_store1 run_clock "s" run_store1_inv) as [H _].
  rewrite H. vm_compute. reflexivity.
Defined.

Lemma resume_reads_the_rest_witness :
  exists r' full,
    mem_read run_clock "s" (Offset_new 2 5)
      (run_op (OpBatchAppend run_clock "s" [as_bytes "xyz"] "text/plain" None) run_store1) = Ok r' /\
    mem_read run_clock "s" Start
      (run_op (OpBatchAppend run_clock "s" [as_bytes "xyz"] "text/plain" None) run_store1) = Ok full /\
    rr_messages full = run_batch ++ rr_messages r'.
Proof.
  set (op := OpBatchAppend run_clock "s" [as_bytes "xyz"] "text/plain" None).
  destruct (resume_reads_the_rest run_store1 [op] (run_op op run_store1) run_clock run_clock "s"
              (mkReadResult run_batch (Offset_new 2 5) true false)
              (mkStreamMetadata run_config (Offset_new 2 5) false 5 2 1000))
    as (r' & full & Hr & Hf & Hcat & _).
  - apply run_store1_inv.
  - constructor; [fits_run|sized_run|constructor].
  - vm_compute. reflexivity.
  - vm_compute. reflexivity.
  - intros op' Hin _. apply list_elem_of_singleton in Hin as ->. reflexivity.
  - reflexivity.
  - exists r', full. split_and!; [exact Hr|exact Hf|exact Hcat].
Defined.

Lemma producer_append_all_or_nothing_witness :
  exists a, mem_view run_store1 !! "s" = Some a /\ a_closed a = false /\ a_msgs a = run_batch.
Proof.
  pose proof (producer_append_all_or_nothing run_store1 run_clock "s" [as_bytes "xyz"] "text/plain"
    run_producer true None
    (mkAStream run_config (run_batch ++ [as_bytes "xyz"]) true 1000
       {[ "p1" := mkProducerState 0 0 1000 ]} None) run_store1_inv ltac:(fits_run)) as H.
  destruct (Storage.append_with_producer _ _ _ _ _ _ _ _) as [s' r] eqn:Hrun.
  assert (r = Ok (Accepted 0 0 (Offset_new 3 8) true)) as Hr
    by (apply (f_equal snd) in Hrun; cbn [snd] in Hrun; rewrite <- Hrun; vm_compute; reflexivity).
  rewrite Hr in H. destruct H as (a & Ha & He).
  - apply (f_equal fst) in Hrun. cbn [fst] in Hrun. rewrite <- Hrun. vm_compute. reflexivity.
  - destruct He as (_ & _ & _ & _ & Hc & _ & Hm & _). exists a. split_and!; [done..|].
    change (run_batch ++ [as_bytes "xyz"] = a_msgs a ++ [as_bytes "xyz"]) in Hm.
    by apply app_inv_tail in Hm.
Defined.

