(* ===== verification/MemoryWakeups.v ===== *)
(** * MemoryWakeups: the notifications of the in-memory backend

    The in-memory backend keeps the promise of [RingingStorage]: what its calls add to a
    stream, and that they close it, rings the stream's channel under the stream's lock.
    Two kinds of call are outside it: [append], and a close through [append_with_producer]
    that brings no message. *)

From S2P Require Import Prelude Errors Offsets RustStd Headers StorageCore LogSpec StorageTrace.
From S2P Require Import Wakeups MemoryStorage MemoryRefinement MemoryProps.

(** ** Sections *)

Definition l_count (l : Locked) : Z := e_notify (l_entry l).
Abbreviation keeps_count := (never_back l_count).
Abbreviation rings_for := (Wakeups.rings_for l_count).

Lemma modify_entry_count f : (forall e, e_notify e <= e_notify (f e)) -> keeps_count (modify_entry f).
Proof. intros Hf l. apply Hf. Qed.

Lemma push_messages_notify batch e : e_notify (push_messages e batch) = e_notify e.
Proof. revert e. induction batch as [|[d n] batch IH]; intros e; simpl; [done|]. by rewrite IH. Qed.

Create HintDb ring.
#[local] Hint Extern 4 (never_back _ _) => (intros [? ?]; unfold l_count; cbn; lia) : ring.
#[local] Hint Extern 4 (_ <= _) => (rewrite ?push_messages_notify; cbn; lia) : ring.

Ltac ring_section :=
  repeat match goal with
    | |- never_back _ (st_bind _ _) => apply never_back_bind; [|intros ?]
    | |- never_back _ (modify_entry _) => apply modify_entry_count; intros ?
    | |- never_back _ (if ?b then _ else _) => destruct b
    | |- never_back _ (match ?x with _ => _ end) => destruct x
    | |- never_back _ (producer_commit _ _ _ _ _ _ _) => unfold producer_commit
    | |- never_back _ (store_pending_seq _) => unfold store_pending_seq
    | |- never_back _ (commit_messages _ _ ?msgs) => unfold commit_messages
    | |- never_back _ (reserve_total _ _) =>
        intros [? ?]; unfold reserve_total, l_count; repeat case_match; cbn; lia
    end; auto with ring.

(** A committed batch rings. *)
Lemma commit_messages_rings mt ms msgs : msgs <> [] -> rings_for (fun _ => true) (commit_messages mt ms msgs).
Proof.
  intros Hne. destruct msgs as [|m msgs]; [done|]. unfold commit_messages.
  apply rings_after; [ring_section|intros _]. apply rings_after; [ring_section|intros stream].
  destruct (ms <? _); [by intros [? ?]|]. apply rings_after; [ring_section|intros _].
  intros [? ?] _. unfold l_count. cbn. lia.
Qed.

Lemma batch_append_keeps mt ms clk msgs ct seq : keeps_count (batch_append_locked mt ms clk msgs ct seq).
Proof. unfold batch_append_locked. ring_section. Qed.
Lemma batch_append_rings mt ms clk msgs ct seq :
  msgs <> [] -> rings_for (fun _ => true) (batch_append_locked mt ms clk msgs ct seq).
Proof.
  intros Hne. unfold batch_append_locked. do 5 (apply rings_after; [ring_section|intros ?]).
  apply rings_before; [by apply commit_messages_rings|intros _; ring_section].
Qed.

Lemma producer_keeps mt ms clk msgs ct p close seq :
  keeps_count (append_with_producer_locked mt ms clk msgs ct p close seq).
Proof. unfold append_with_producer_locked. ring_section. Qed.
Lemma producer_rings mt ms clk msgs ct p close seq :
  msgs <> [] ->
  rings_for (fun r => match r with Accepted _ _ _ _ => true | Duplicate _ _ _ _ => false end)
    (append_with_producer_locked mt ms clk msgs ct p close seq).
Proof.
  intros Hne. unfold append_with_producer_locked. do 6 (apply rings_after; [ring_section|intros ?]).
  match goal with |- rings_for _ (match ?c with _ => _ end) => destruct c end; [|by intros ?].
  apply rings_after; [ring_section|intros ?].
  apply rings_before; [by apply commit_messages_rings|intros _; ring_section].
Qed.

Lemma close_keeps clk : keeps_count (close_stream_locked clk).
Proof. unfold close_stream_locked. ring_section. Qed.
Lemma close_rings clk : rings_for (fun _ => true) (close_stream_locked clk).
Proof.
  unfold close_stream_locked. do 3 (apply rings_after; [ring_section|intros ?]).
  intros [? ?] _. unfold l_count. cbn. lia.
Qed.

Lemma append_keeps mt ms clk data ct : keeps_count (append_locked mt ms clk data ct).
Proof. unfold append_locked. ring_section. Qed.

(** ** Calls *)

Lemma with_stream_keeps {A} n (section : ST Locked Error A) st name k :
  keeps_count section -> sent st name = Some k ->
  exists k', sent (with_stream n section st).1 name = Some k' /\ k <= k'.
Proof.
  intros Hs Hk. unfold with_stream, sent in *. destruct (m_streams st !! n) as [e|] eqn:He; [|by exists k].
  specialize (Hs (mkLocked (m_total_bytes st) e)). destruct (section _) as [l r]; cbn in *.
  destruct (decide (n = name)) as [->|Hne]; [|rewrite lookup_insert_ne by done; by exists k].
  rewrite lookup_insert_eq. rewrite He in Hk. injection Hk as <-. by exists (e_notify (l_entry l)).
Qed.

Lemma with_stream_rings {A} n (section : ST Locked Error A) P st x k k' :
  rings_for P section -> (with_stream n section st).2 = Ok x -> P x = true ->
  sent st n = Some k -> sent (with_stream n section st).1 n = Some k' -> k < k'.
Proof.
  intros Hs. unfold with_stream, sent in *. destruct (m_streams st !! n) as [e|] eqn:He; [|done].
  specialize (Hs (mkLocked (m_total_bytes st) e)). destruct (section _) as [l [y|err]]; cbn in *; [|done].
  intros [= ->] HP [= <-]. rewrite lookup_insert_eq. intros [= <-]. by apply Hs.
Qed.

Lemma insert_new_stream_other clk n config msgs close st name :
  n <> name ->
  m_streams (insert_new_stream clk n config msgs close st).1 !! name = m_streams st !! name.
Proof.
  intros Hne. unfold insert_new_stream. destruct (commit_messages _ _ _ _) as [l [[]|e]]; simpl; [|done].
  by rewrite lookup_insert_ne.
Qed.

(** Creating a stream touches no other entry, and not even its own if it is alive. *)
Lemma creates_keep_entry clk n config msgs close st name :
  (n = name -> forall e, m_streams st !! name = Some e -> is_stream_expired (clk 0%nat) (e_config e) = false) ->
  is_Some (m_streams st !! name) ->
  m_streams (mem_create_stream_with_data clk n config msgs close st).1 !! name = m_streams st !! name /\
  m_streams (mem_create_stream clk n config st).1 !! name = m_streams st !! name.
Proof.
  intros Hlive [e0 He0]. unfold mem_create_stream_with_data, mem_create_stream.
  destruct (decide (n = name)) as [->|Hne].
  - rewrite He0, (Hlive eq_refl e0 He0). by destruct (config_eq _ _).
  - destruct (m_streams st !! n) as [e|]; try (destruct (is_stream_expired _ _)); try (destruct (config_eq _ _));
      simpl; rewrite ?insert_new_stream_other, ?lookup_insert_ne by done; simpl;
      rewrite ?lookup_delete_ne by done; done.
Qed.

(** The calls that notify of what they change. *)
Definition mem_op_rings (op : StorageOp) : bool :=
  match op with
  | OpAppend _ _ _ _ => false
  | OpProducer _ _ msgs _ _ _ _ => negb (bool_decide (msgs = []))
  | _ => true
  end.

Lemma mem_keeps op (st : InMemoryStorage) name a k :
  mem_view st !! name = Some a -> (op_name op = name -> op_spares (a_config a) op = true) ->
  sent st name = Some k -> exists k', sent (run_op op st) name = Some k' /\ k <= k'.
Proof.
  intros Ha Hsp Hk. rewrite mem_view_lookup in Ha. apply fmap_Some in Ha as (e & He & ->).
  assert (forall st', m_streams st' !! name = m_streams st !! name ->
            exists k', sent st' name = Some k' /\ k <= k') as Hsame.
  { intros st' Heq. exists k. split; [|lia]. unfold sent. by rewrite Heq. }
  destruct op as [clk n c|clk n c msgs cl|clk n d ct|clk n msgs ct q
    |clk n msgs ct p cl q|clk n|n|clk n]; cbn in Hsp |- *; rewrite ?negb_true_iff in Hsp.
  - apply Hsame, (creates_keep_entry clk n c [] false); [intros Hn e1 He1; simplify_eq; auto|by rewrite He].
  - apply Hsame, creates_keep_entry; [intros Hn e1 He1; simplify_eq; auto|by rewrite He].
  - by apply with_stream_keeps; [apply append_keeps|].
  - unfold mem_batch_append. destruct msgs; [by apply Hsame|].
    by apply with_stream_keeps; [apply batch_append_keeps|].
  - by apply with_stream_keeps; [apply producer_keeps|].
  - by apply with_stream_keeps; [apply close_keeps|].
  - apply Hsame. unfold mem_delete. destruct (m_streams st !! n); [|done]. cbn.
    apply lookup_delete_ne. intros ->. by specialize (Hsp eq_refl).
  - by apply Hsame.
Qed.

Lemma mem_loud op (st : InMemoryStorage) k k' :
  mem_op_rings op = true -> op_loud op st = true -> sent st (op_name op) = Some k ->
  sent (run_op op st) (op_name op) = Some k' -> k < k'.
Proof.
  destruct op as [clk n c|clk n c msgs cl|clk n d ct|clk n msgs ct q
    |clk n msgs ct p cl q|clk n|n|clk n]; cbn; try done; intros Hr Hl.
  - unfold mem_batch_append in *. destruct msgs as [|m msgs]; [done|].
    destruct (with_stream _ _ _).2 as [o|err] eqn:Ho in Hl; [|done].
    intros Hk Hk'. by refine (with_stream_rings _ _ _ _ _ _ _ (batch_append_rings _ _ _ _ _ _ _) Ho _ Hk Hk').
  - apply negb_true_iff, bool_decide_eq_false in Hr. unfold mem_append_with_producer in *.
    destruct (with_stream _ _ _).2 as [[ep sq o c|ep sq o c]|err] eqn:Ho in Hl; try done.
    intros Hk Hk'. by refine (with_stream_rings _ _ _ _ _ _ _ (producer_rings _ _ _ _ _ _ _ _ Hr) Ho _ Hk Hk').
  - unfold mem_close_stream in *. destruct (with_stream _ _ _).2 as [[]|err] eqn:Ho in Hl; [|done].
    intros Hk Hk'. by refine (with_stream_rings _ _ _ _ _ _ _ (close_rings _) Ho _ Hk Hk').
Qed.

Lemma mem_subscribes (st st' : InMemoryStorage) clk name rx :
  mem_subscribe clk name st = (st', Some rx) -> sent st' name = Some rx.
Proof.
  unfold mem_subscribe, sent. destruct (m_streams st !! name) as [e|] eqn:He; [|done].
  destruct (is_stream_expired _ _); [done|]. intros [= <- <-]. by rewrite He.
Qed.

#[global] Instance memory_ringing : RingingStorage InMemoryStorage sent mem_op_rings := {|
  ring_subscribe := fun s clk name s' rx _ => mem_subscribes s s' clk name rx;
  ring_keeps := fun op s name a n _ _ _ => mem_keeps op s name a n;
  ring_loud := fun op s n n' _ _ => mem_loud op s n n'
|}.
