(* ===== verification/MemoryConcurrent.v ===== *)
(** * MemoryConcurrent: concurrent calls on the in-memory backend

    [streams: RwLock<HashMap<String, Arc<RwLock<StreamEntry>>>>]: the map holds handles of
    entries. Most methods clone the handle under the read lock of the map, release that
    lock, and only then lock the entry; [create_stream], [create_stream_with_data] and
    [delete] hold the write lock of the map throughout. The steps below are what a method
    does around one access to something other callers may be using at that moment: the
    map, or the byte counter (an entry is only used under its lock). A method that removes
    an expired stream reads its size, lets go of the entry and then removes it, the map
    being locked: whoever locks the entry in between finds it expired, too, and leaves it
    as it is, so the removal is one step. *)

From S2P Require Import Prelude Errors Offsets RustStd Headers StorageCore LogSpec StorageTrace Calls.
From S2P Require Import MemoryStorage MemoryRefinement.

(** ** Shared memory *)

(** [mg_heap] are the entries behind the handles, by handle; an entry that is no longer in
    the map lives on for those who hold its handle. *)
Record MShared : Type := mkShared {
  mg_heap : list StreamEntry;
  mg_map : gmap string nat;
  mg_total : Z;
  mg_max_total : Z;
  mg_max_stream : Z
}.

Definition mg_new (max_total_bytes max_stream_bytes : Z) : MShared :=
  mkShared [] ∅ 0 max_total_bytes max_stream_bytes.
Definition mg_set_total (g : MShared) (t : Z) : MShared :=
  mkShared (mg_heap g) (mg_map g) t (mg_max_total g) (mg_max_stream g).

(** The storage as one caller alone would find it. *)
Definition flat (g : MShared) : InMemoryStorage :=
  mkMem (omap (fun id => mg_heap g !! id) (mg_map g)) (mg_total g) (mg_max_total g) (mg_max_stream g).

(** What a critical section leaves in the entry and the counter. *)
Definition mg_unlock (g : MShared) (id : nat) (l : Locked) : MShared :=
  mkShared (<[id := l_entry l]> (mg_heap g)) (mg_map g) (l_total l) (mg_max_total g) (mg_max_stream g).
(** [streams.insert(name, Arc::new(RwLock::new(entry)))] *)
Definition mg_insert (g : MShared) (name : string) (e : StreamEntry) : MShared :=
  mkShared (mg_heap g ++ [e]) (<[name := length (mg_heap g)]> (mg_map g)) (mg_total g)
    (mg_max_total g) (mg_max_stream g).
(** [streams.remove(name)] and the release of the bytes of the entry. *)
Definition mg_remove (g : MShared) (name : string) (e : StreamEntry) : MShared :=
  mkShared (mg_heap g) (delete name (mg_map g)) (saturating_sub64 (mg_total g) (e_total_bytes e))
    (mg_max_total g) (mg_max_stream g).
(** The entry in the map. *)
Definition mg_entry (g : MShared) (name : string) : option StreamEntry :=
  id ← mg_map g !! name; mg_heap g !! id.

(** ** Threads *)

(** A lock that is held from one step to the next. *)
Inductive MLock : Type := OnMap | OnEntry (id : nat).

(** Where a call is: not begun; in possession of the handle of its stream; creating a
    stream with data, the map locked and an expired stream out of the way; refused for
    the stream limit, with [bytes] reserved that it is about to give back; over;
    returned. *)
Inductive MThread : Type :=
  | MCalling (q : Request)
  | MFound (q : Request) (id : nat)
  | MCreating (op : StorageOp)
  | MRefused (q : Request) (lock : MLock) (bytes : Z) (ans : Answer)
  | MDone (q : Request) (ans : Answer)
  | MReturned (q : Request) (ans : Answer).

Definition holds_lock (th : MThread) : option MLock :=
  match th with
  | MCreating _ => Some OnMap
  | MRefused _ lock _ _ => Some lock
  | _ => None
  end.

Definition request_name (q : Request) : string :=
  match q with Write op => op_name op | Read _ n _ | Head _ n => n end.
Definition request_msgs (q : Request) : list bytes :=
  match q with Write op => op_msgs op | _ => [] end.
Definition request_clock (q : Request) : option Clock :=
  match q with
  | Write (OpCreate clk _ _) | Write (OpCreateWithData clk _ _ _ _) | Write (OpAppend clk _ _ _)
  | Write (OpBatchAppend clk _ _ _ _) | Write (OpProducer clk _ _ _ _ _ _) | Write (OpClose clk _)
  | Write (OpSubscribe clk _) | Read clk _ _ | Head clk _ => Some clk
  | Write (OpDelete _) => None
  end.

(** The critical section of a call that first looks up its stream. *)
Definition section_of (mt ms : Z) (q : Request) : option (Locked -> Locked * Answer) :=
  match q with
  | Write (OpAppend clk _ data ct) => Some (fun l => with_answer AnsAppend (append_locked mt ms clk data ct l))
  | Write (OpBatchAppend clk _ ((_ :: _) as msgs) ct seq) =>
      Some (fun l => with_answer AnsAppend (batch_append_locked mt ms clk msgs ct seq l))
  | Write (OpProducer clk _ msgs ct p close seq) =>
      Some (fun l => with_answer AnsProducer (append_with_producer_locked mt ms clk msgs ct p close seq l))
  | Write (OpClose clk _) => Some (fun l => with_answer AnsUnit (close_stream_locked clk l))
  | Read clk _ from => Some (fun l => (l, AnsRead (read_locked clk from (l_entry l))))
  | Head clk _ => Some (fun l => (l, AnsHead (head_locked clk (l_entry l))))
  | _ => None
  end.

(** The answer of such a call when there is no stream. *)
Definition missing (q : Request) : Answer :=
  let e := NotFound (request_name q) in
  match q with
  | Write (OpProducer _ _ _ _ _ _ _) => AnsProducer (Err e)
  | Write (OpClose _ _) | Write (OpDelete _) => AnsUnit (Err e)
  | Write _ => AnsAppend (Err e)
  | Read _ _ _ => AnsRead (Err e)
  | Head _ _ => AnsHead (Err e)
  end.

(** The bytes a batch reserves. *)
Definition reserved_bytes (q : Request) : Z :=
  match q with Write (OpAppend _ _ data _) => len_u64 data | _ => batch_bytes 0 (request_msgs q) end.

(** Refused for the stream limit: the bytes were reserved before. *)
Definition size_refused (ans : Answer) : bool :=
  match answer_err ans with Some StreamSizeLimitExceeded => true | _ => false end.

(** After a section that leaves [l], the batch being refused or not: a refused batch has
    its bytes in the counter until they are given back, in another step. *)
Definition keep_reserved (q : Request) (t : Z) (ans : Answer) (l : Locked) : Locked :=
  if size_refused ans then mkLocked (t + reserved_bytes q) (l_entry l) else l.
Definition next_thread (q : Request) (lock : MLock) (ans : Answer) : MThread :=
  if size_refused ans then MRefused q lock (reserved_bytes q) ans else MDone q ans.

(** [create_stream] and [delete], under the lock of the map. *)
Definition mg_create_stream (clk : Clock) (name : string) (config : StreamConfig) (g : MShared)
  : MShared * Answer :=
  let insert_entry g := (mg_insert g name (StreamEntry_new (clk 1%nat) config), AnsCreate (Ok StreamCreated)) in
  match mg_entry g name with
  | Some stream =>
      if is_stream_expired (clk 0%nat) (e_config stream) then insert_entry (mg_remove g name stream)
      else if config_eq (e_config stream) config then (g, AnsCreate (Ok StreamAlreadyExists))
      else (g, AnsCreate (Err ConfigMismatch))
  | None => insert_entry g
  end.
Definition mg_delete (name : string) (g : MShared) : MShared * Answer :=
  match mg_entry g name with
  | Some stream => (mg_remove g name stream, AnsUnit (Ok tt))
  | None => (g, AnsUnit (Err (NotFound name)))
  end.

(** [create_stream_with_data] up to the new entry, and from there. *)
Definition mg_find_existing (clk : Clock) (name : string) (config : StreamConfig) (g : MShared)
  : MShared * option Answer :=
  match mg_entry g name with
  | Some stream =>
      if is_stream_expired (clk 0%nat) (e_config stream) then (mg_remove g name stream, None)
      else if config_eq (e_config stream) config then
        (g, Some (AnsCreateData (Ok (mkCreateWithData StreamAlreadyExists (entry_next_offset stream)
                                       (e_closed stream)))))
      else (g, Some (AnsCreateData (Err ConfigMismatch)))
  | None => (g, None)
  end.
Definition mg_insert_new (q : Request) (clk : Clock) (name : string) (config : StreamConfig) (messages : list bytes)
    (should_close : bool) (g : MShared) : MShared * Answer :=
  let entry := StreamEntry_new (clk 1%nat) config in
  let '(l, r) := commit_messages (mg_max_total g) (mg_max_stream g) messages (mkLocked (mg_total g) entry) in
  match r with
  | Err e =>
      let ans := AnsCreateData (Err e) in
      (mg_set_total g (l_total (keep_reserved q (mg_total g) ans l)), ans)
  | Ok _ =>
      let entry := if should_close then set_closed (l_entry l) true else l_entry l in
      (mg_insert (mg_set_total g (l_total l)) name entry,
       AnsCreateData (Ok (mkCreateWithData StreamCreated (entry_next_offset entry) (e_closed entry))))
  end.

(** ** Steps *)

Record MConf : Type := mkMConf { mc_mem : MShared; mc_threads : gmap string MThread }.

Definition mc_set (c : MConf) (tid : string) (g : MShared) (th : MThread) : MConf :=
  mkMConf g (<[tid := th]> (mc_threads c)).

Definition lock_free (c : MConf) (lock : MLock) : Prop :=
  forall tid th, mc_threads c !! tid = Some th -> holds_lock th <> Some lock.
(** The entry of a stream, if it is in the map, is not locked. *)
Definition stream_free (c : MConf) (name : string) : Prop :=
  forall id, mg_map (mc_mem c) !! name = Some id -> lock_free c (OnEntry id).

Definition m_idle (o : option MThread) : bool :=
  match o with None | Some (MReturned _ _) => true | _ => false end.

(** What is seen of a step: a label of a call; the effect of a call on a stream that is
    no longer in the map; the removal of an expired stream; nothing. *)
Inductive MLabel : Type :=
  | Seen (l : Label)
  | Stale (tid : string) (q : Request) (ans : Answer)
  | Dropped (clk : Clock) (name : string)
  | Quiet.

(** The messages of the entry and of the batch are in memory: they and their bytes can be
    counted. *)
Definition countable_in (e : StreamEntry) (q : Request) : Prop :=
  Z.of_nat (length (entry_data e) + length (request_msgs q)) < two64 /\
  payload (entry_data e) + payload (request_msgs q) < two64.

Inductive mem_step (c : MConf) : MLabel -> MConf -> Prop :=
  | mstep_call tid q :
      m_idle (mc_threads c !! tid) = true -> callable q -> Z.of_nat (length (request_msgs q)) < two64 ->
      mem_step c (Seen (Invoke tid q)) (mc_set c tid (mc_mem c) (MCalling q))
  | mstep_empty tid clk n ct seq :
      let q := Write (OpBatchAppend clk n [] ct seq) in
      mc_threads c !! tid = Some (MCalling q) ->
      let ans := AnsAppend (Err (InvalidHeader "Content-Length" "batch cannot be empty")) in
      mem_step c (Seen (Effect tid q ans)) (mc_set c tid (mc_mem c) (MDone q ans))
  | mstep_missing tid q :
      mc_threads c !! tid = Some (MCalling q) -> lock_free c OnMap ->
      is_Some (section_of (mg_max_total (mc_mem c)) (mg_max_stream (mc_mem c)) q) ->
      mg_map (mc_mem c) !! request_name q = None ->
      mem_step c (Seen (Effect tid q (missing q))) (mc_set c tid (mc_mem c) (MDone q (missing q)))
  | mstep_lookup tid q id :
      mc_threads c !! tid = Some (MCalling q) -> lock_free c OnMap ->
      is_Some (section_of (mg_max_total (mc_mem c)) (mg_max_stream (mc_mem c)) q) ->
      mg_map (mc_mem c) !! request_name q = Some id ->
      mem_step c Quiet (mc_set c tid (mc_mem c) (MFound q id))
  | mstep_section tid q id section e l ans :
      mc_threads c !! tid = Some (MFound q id) -> lock_free c (OnEntry id) ->
      section_of (mg_max_total (mc_mem c)) (mg_max_stream (mc_mem c)) q = Some section ->
      mg_heap (mc_mem c) !! id = Some e -> countable_in e q ->
      section (mkLocked (mg_total (mc_mem c)) e) = (l, ans) ->
      mem_step c
        (if decide (mg_map (mc_mem c) !! request_name q = Some id) then Seen (Effect tid q ans)
         else Stale tid q ans)
        (mc_set c tid (mg_unlock (mc_mem c) id (keep_reserved q (mg_total (mc_mem c)) ans l))
           (next_thread q (OnEntry id) ans))
  | mstep_create tid clk n config g ans :
      let q := Write (OpCreate clk n config) in
      mc_threads c !! tid = Some (MCalling q) -> lock_free c OnMap -> stream_free c n ->
      mg_create_stream clk n config (mc_mem c) = (g, ans) ->
      mem_step c (Seen (Effect tid q ans)) (mc_set c tid g (MDone q ans))
  | mstep_delete tid n g ans :
      let q := Write (OpDelete n) in
      mc_threads c !! tid = Some (MCalling q) -> lock_free c OnMap -> stream_free c n ->
      mg_delete n (mc_mem c) = (g, ans) ->
      mem_step c (Seen (Effect tid q ans)) (mc_set c tid g (MDone q ans))
  | mstep_existing tid clk n config msgs close g ans :
      let q := Write (OpCreateWithData clk n config msgs close) in
      mc_threads c !! tid = Some (MCalling q) -> lock_free c OnMap -> stream_free c n ->
      mg_find_existing clk n config (mc_mem c) = (g, Some ans) ->
      mem_step c (Seen (Effect tid q ans)) (mc_set c tid g (MDone q ans))
  | mstep_creating tid clk n config msgs close g :
      let op := OpCreateWithData clk n config msgs close in
      mc_threads c !! tid = Some (MCalling (Write op)) -> lock_free c OnMap -> stream_free c n ->
      mg_find_existing clk n config (mc_mem c) = (g, None) ->
      mem_step c (if decide (mg_map (mc_mem c) !! n = None) then Quiet else Dropped clk n)
        (mc_set c tid g (MCreating op))
  | mstep_insert tid clk n config msgs close g ans :
      let op := OpCreateWithData clk n config msgs close in
      mc_threads c !! tid = Some (MCreating op) ->
      mg_insert_new (Write op) clk n config msgs close (mc_mem c) = (g, ans) ->
      mem_step c (Seen (Effect tid (Write op) ans)) (mc_set c tid g (next_thread (Write op) OnMap ans))
  | mstep_rollback tid q lock bytes ans :
      mc_threads c !! tid = Some (MRefused q lock bytes ans) ->
      mem_step c Quiet
        (mc_set c tid (mg_set_total (mc_mem c) (saturating_sub64 (mg_total (mc_mem c)) bytes)) (MDone q ans))
  | mstep_return tid q ans :
      mc_threads c !! tid = Some (MDone q ans) ->
      mem_step c (Seen (Respond tid q ans)) (mc_set c tid (mc_mem c) (MReturned q ans)).

Inductive mem_steps : MConf -> list MLabel -> MConf -> Prop :=
  | msteps_nil c : mem_steps c [] c
  | msteps_snoc c tr c1 l c2 : mem_steps c tr c1 -> mem_step c1 l c2 -> mem_steps c (tr ++ [l]) c2.
