(* ===== verification/MemoryInterleaving.v ===== *)
(** * MemoryInterleaving: runs of concurrent calls on the in-memory backend

    Every step keeps the invariant of the shared memory and does to the logs what its
    label says. *)

From S2P Require Import Prelude Errors Offsets RustStd Headers StorageCore LogSpec StorageTrace Calls.
From S2P Require Import MemoryStorage MemoryRefinement MemoryConcurrent.

#[local] Arguments reserve_total : simpl never.
#[local] Arguments saturating_sub_total_bytes : simpl never.
#[local] Arguments commit_messages : simpl never.
#[local] Arguments cleanup_stale_producers : simpl never.

(** ** Refused batches *)

Lemma commit_refused mt ms msgs t e l :
  section_pre mt ms t e -> section_room t e (payload msgs) -> payload msgs < two64 ->
  Z.of_nat (length (entry_data e) + length msgs) < two64 ->
  commit_messages mt ms msgs (mkLocked t e) = (l, Err StreamSizeLimitExceeded) ->
  l = mkLocked t e /\ t + payload msgs <= mt.
Proof.
  intros Hpre Hroom Hp Hlen. rewrite commit_messages_spec by done. destruct msgs as [|m msgs]; [done|].
  unfold capacity. destruct (Z.leb_spec (t + payload (m :: msgs)) mt); [|done].
  destruct (_ <=? ms); [done|]. by intros [= <-].
Qed.

(** What is known of the outcome of a section that was refused. *)
Definition refused_post (mt t : Z) (e : StreamEntry) (msgs : list bytes) (l : Locked) : Prop :=
  l_total l = t /\ e_total_bytes (l_entry l) = e_total_bytes e /\ t + payload msgs <= mt.

Section Refused.
Context (mt ms t : Z) (e : StreamEntry) (clk : Clock) (msgs : list bytes) (ct : string) (l : Locked).
Hypothesis Hpre : section_pre mt ms t e.
Hypothesis Hroom : section_room t e (payload msgs).
Hypothesis Hp : payload msgs < two64.
Hypothesis Hlen : Z.of_nat (length (entry_data e) + length msgs) < two64.

Lemma append_refused data :
  msgs = [data] -> append_locked mt ms clk data ct (mkLocked t e) = (l, Err StreamSizeLimitExceeded) ->
  refused_post mt t e msgs l.
Proof using Hpre Hroom Hp Hlen.
  intros Hm. unfold append_locked, st_bind, throw_if, get_entry, st_lift; simpl.
  destruct (is_stream_expired _ _); [done|]. destruct (e_closed e); [done|].
  destruct (validate_content_type _ _) as [[]|err] eqn:Hct.
  2:{ revert Hct. unfold validate_content_type. destruct (negb _); [|done]. by intros [= <-]. }
  destruct Hpre as [Hok He0 Ht0 Hmt Hms Hm64]. rewrite Hm in *. cbn in Hp. rewrite len_u64_small by lia.
  rewrite reserve_total_spec by lia. destruct (Z.leb_spec (t + Z.of_nat (length data)) mt); [|done].
  destruct (ms <? _); [|done]. unfold st_fail. cbn [l_total l_entry].
  rewrite saturating_sub64_add by lia. intros [= <-]. split_and!; [done..|cbn; lia].
Qed.

Lemma batch_append_refused seq :
  batch_append_locked mt ms clk msgs ct seq (mkLocked t e) = (l, Err StreamSizeLimitExceeded) ->
  refused_post mt t e msgs l.
Proof using Hpre Hroom Hp Hlen.
  unfold batch_append_locked, st_bind, throw_if, get_entry, st_lift; simpl.
  destruct (is_stream_expired _ _); [done|]. destruct (e_closed e); [done|].
  destruct (validate_content_type _ _) as [[]|err] eqn:Hct.
  2:{ revert Hct. unfold validate_content_type. destruct (negb _); [|done]. by intros [= <-]. }
  destruct (validate_seq _ _) as [pending|err] eqn:Hseq.
  2:{ revert Hseq. unfold validate_seq. repeat case_match; try done; by intros [= <-]. }
  destruct (commit_messages _ _ _ _) as [l' [[]|err]] eqn:Hc; [by destruct pending|].
  intros [= -> ->]. by apply commit_refused in Hc as [-> Hle].
Qed.

Lemma producer_refused p close seq :
  append_with_producer_locked mt ms clk msgs ct p close seq (mkLocked t e) = (l, Err StreamSizeLimitExceeded) ->
  refused_post mt t e msgs l.
Proof using Hpre Hroom Hp Hlen.
  unfold append_with_producer_locked, st_bind, throw_if, get_entry, modify_entry, st_lift; simpl.
  destruct (is_stream_expired _ _); [done|]. set (e1 := set_producers e _).
  assert (section_pre mt ms t e1) as Hpre1 by (destruct Hpre; split; try done; by apply set_producers_ok).
  assert (forall k : ST Locked Error ProducerAppendResult,
    (let '(s', r) := (match msgs with [] => st_ret tt
       | _ :: _ => fun s => (s, validate_content_type (content_type (e_config e)) ct) end) (mkLocked t e1) in
     match r with Ok _ => k s' | Err err => (s', Err err) end) = (l, Err StreamSizeLimitExceeded) ->
    k (mkLocked t e1) = (l, Err StreamSizeLimitExceeded)) as Hvalid.
  { intros k. destruct msgs as [|m msgs']; cbn; [done|]. unfold validate_content_type. destruct (negb _); done. }
  intros H%Hvalid. revert H.
  destruct (check_producer _ _ _) as [[|ep q]|err] eqn:Hch; [|done|].
  2:{ revert Hch. unfold check_producer. repeat case_match; try done; by intros [= <-]. }
  destruct (validate_seq _ _) as [pending|err] eqn:Hseq.
  2:{ revert Hseq. unfold validate_seq. repeat case_match; try done; by intros [= <-]. }
  unfold producer_commit, st_bind.
  destruct (commit_messages _ _ _ _) as [l' [[]|err]] eqn:Hc; [by destruct pending, close|].
  intros [= -> ->]. by apply commit_refused in Hc as [-> Hle].
Qed.
End Refused.

(** ** What a section does *)

(** A call may tidy up the stream it touches. *)
Definition tidied (q : Request) (v v0 : View) : Prop :=
  match request_clock q with
  | Some clk => housekeeping clk (request_name q) v v0
  | None => v0 = v
  end.
Definition m_explains (v : View) (q : Request) (ans : Answer) (v' : View) : Prop :=
  exists v0, tidied q v v0 /\ explains v0 q ans v'.

Lemma explains_exact v q ans v' : (v', ans) = spec_request q v -> m_explains v q ans v'.
Proof. intros H. exists v. split; [|by left]. unfold tidied. destruct (request_clock q); constructor. Qed.

Lemma refined_explains {R} clk name (spec : View -> View * Result Error R) v v' r q f :
  refined clk name spec v v' r -> request_clock q = Some clk -> request_name q = name ->
  (forall v, spec_request q v = with_answer f (spec v)) -> (forall e, answer_err (f (Err e)) = Some e) ->
  m_explains v q (f r) v'.
Proof.
  intros (v0 & Hh & Hr) Hc <- Hq He. exists v0. split; [unfold tidied; by rewrite Hc|].
  destruct Hr as [Hr|(-> & e & -> & Hres)].
  - left. by rewrite Hq, <- Hr.
  - right. split; [done|]. eauto.
Qed.

Lemma callable_payload q : callable q -> payload (request_msgs q) <= ISIZE_MAX.
Proof.
  destruct q as [op| |]; [|by unfold ISIZE_MAX..]. cbn. destruct op; intros Hc; try apply Hc; done.
Qed.
Lemma reserved_bytes_payload q :
  callable q -> reserved_bytes q = payload (request_msgs q) /\ 0 <= payload (request_msgs q) < two64.
Proof.
  intros Hc%callable_payload. pose proof (payload_nonneg (request_msgs q)). unfold ISIZE_MAX in Hc.
  assert (payload (request_msgs q) < two64) as Hlt by (unfold two64; lia). split; [|lia].
  assert (batch_bytes 0 (request_msgs q) = payload (request_msgs q)) as Hb
    by (rewrite batch_bytes_payload; lia).
  destruct q as [[]| |]; try done. cbn in *. rewrite len_u64_small; lia.
Qed.

Lemma section_outcome mt ms t e q section l ans v :
  section_of mt ms q = Some section -> section_pre mt ms t e -> callable q ->
  Z.of_nat (length (request_msgs q)) < two64 -> countable_in e q ->
  v !! request_name q = Some (abs_entry e) -> section (mkLocked t e) = (l, ans) ->
  section_post mt ms t e l /\ m_explains v q ans (<[request_name q := abs_entry (l_entry l)]> v) /\
  (size_refused ans = true -> refused_post mt t e (request_msgs q) l).
Proof.
  intros Hsec Hpre Hc Hn Hcnt Hv Hrun. destruct (reserved_bytes_payload q Hc) as [_ [_ Hp]].
  pose proof (callable_payload q Hc) as Hi. destruct Hcnt as [Hcnt Hmem].
  assert (section_room t e (payload (request_msgs q))) as Hroom.
  { right. by rewrite (eo_total _ (sp_ok _ _ _ _ Hpre)). }
  assert (fits v (request_name q) (request_msgs q)) as Hfit.
  { split_and!; [done|done|]. rewrite Hv. by intros a [= <-]. }
  assert (forall R clk (spec : View -> View * Result Error R) f out,
    section_refines clk (request_name q) spec v mt ms t e out -> with_answer f out = (l, ans) ->
    request_clock q = Some clk -> (forall v, spec_request q v = with_answer f (spec v)) ->
    (forall e, answer_err (f (Err e)) = Some e) ->
    (out = (l, Err StreamSizeLimitExceeded) -> refused_post mt t e (request_msgs q) l) ->
    (forall x, size_refused (f (Ok x)) = false) ->
    section_post mt ms t e l /\ m_explains v q ans (<[request_name q := abs_entry (l_entry l)]> v) /\
    (size_refused ans = true -> refused_post mt t e (request_msgs q) l)) as Hwrap.
  { intros R clk spec f [l' r] [Hpost Href] [= -> <-] Hclk Hspec Herr Hrf Hok. split_and!; [done|by eapply refined_explains|].
    destruct r as [x|err]; [by rewrite Hok|]. unfold size_refused. rewrite Herr. destruct err; try done. auto. }
  assert (forall (f : Answer), (l, ans) = (mkLocked t e, f) -> spec_request q v = (v, f) -> size_refused f = false ->
    section_post mt ms t e l /\ m_explains v q ans (<[request_name q := abs_entry (l_entry l)]> v) /\
    (size_refused ans = true -> refused_post mt t e (request_msgs q) l)) as Hro.
  { intros f [= -> ->] Hspec Hf. split_and!; [by apply section_post_same| |by rewrite Hf].
    cbn. rewrite insert_id by done. apply explains_exact. by rewrite Hspec. }
  destruct q as [[clk n config|clk n config msgs close|clk n data ct|clk n [|m msgs] ct seq
    |clk n msgs ct p close seq|clk n|n|clk n]|clk n from|clk n]; cbn [section_of] in Hsec; simplify_eq;
    cbn [request_name request_msgs op_name op_msgs] in *.
  - eapply (Hwrap _ clk _ AnsAppend); [by apply append_section|exact Hrun|done..| |done].
    by apply append_refused.
  - eapply (Hwrap _ clk _ AnsAppend); [by apply batch_append_section|exact Hrun|done..| |done].
    by apply batch_append_refused.
  - eapply (Hwrap _ clk _ AnsProducer); [by apply append_with_producer_section|exact Hrun|done..| |done].
    by apply producer_refused.
  - eapply (Hwrap _ clk _ AnsUnit); [by apply close_section|exact Hrun|done..| |done].
    unfold close_stream_locked, st_bind, throw_if, get_entry, modify_entry; simpl. by destruct (is_stream_expired _ _).
  - destruct Hpre as [Hok ? ? ? ? ?]. eapply Hro; [done| |].
    + cbn. by rewrite (read_locked_spec e clk n v).
    + unfold size_refused, read_locked. by repeat case_match.
  - destruct Hpre as [Hok ? ? ? ? ?]. eapply Hro; [done| |].
    + cbn. by rewrite (head_locked_spec e clk n v).
    + unfold size_refused, head_locked. by repeat case_match.
Qed.

(** ** Shared memory *)

(** The entries are well formed and within their limit; handles in the map are those of
    entries, and no two names have the same. *)
Record shared_inv (g : MShared) : Prop := mkSharedInv {
  gi_max_total : u64 (mg_max_total g);
  gi_max_stream : u64 (mg_max_stream g);
  gi_entries : forall id e, mg_heap g !! id = Some e -> entry_ok e /\ e_total_bytes e <= mg_max_stream g;
  gi_valid : forall n id, mg_map g !! n = Some id -> (id < length (mg_heap g))%nat;
  gi_unique : forall n1 n2 id, mg_map g !! n1 = Some id -> mg_map g !! n2 = Some id -> n1 = n2
}.

Definition gview (g : MShared) : View := mem_view (flat g).
(** The bytes of the streams of the map. *)
Definition mapped_bytes (g : MShared) : Z := sum_bytes (m_streams (flat g)).

Lemma flat_lookup g n : m_streams (flat g) !! n = mg_entry g n.
Proof. apply lookup_omap. Qed.
Lemma gview_lookup g n : gview g !! n = abs_entry <$> mg_entry g n.
Proof. unfold gview. by rewrite mem_view_lookup, flat_lookup. Qed.
Lemma gview_streams g g' : m_streams (flat g') = m_streams (flat g) -> gview g' = gview g.
Proof. unfold gview, mem_view. by intros ->. Qed.

Lemma mapped_entry g n e :
  shared_inv g -> mg_entry g n = Some e ->
  (entry_ok e /\ e_total_bytes e <= mg_max_stream g) /\ 0 <= e_total_bytes e <= mapped_bytes g.
Proof.
  intros Hg He.
  assert (forall n e, mg_entry g n = Some e -> entry_ok e /\ e_total_bytes e <= mg_max_stream g) as Hok.
  { intros n' e' (id & _ & Hid)%bind_Some. by eapply gi_entries. }
  split; [by eapply Hok|]. apply (map_sum_lookup_le _ _ n); [|by rewrite flat_lookup].
  intros n' e' He'. rewrite flat_lookup in He'. by eapply entry_ok_bytes, Hok.
Qed.

Lemma mapped_nonneg g : shared_inv g -> 0 <= mapped_bytes g.
Proof.
  intros Hg. apply map_sum_nonneg. intros n e He. rewrite flat_lookup in He. by apply (mapped_entry g n).
Qed.

Lemma mg_entry_some g n : shared_inv g -> is_Some (mg_map g !! n) <-> is_Some (mg_entry g n).
Proof.
  intros Hg. unfold mg_entry. split; [|by destruct (mg_map g !! n); [|intros [? ?]]].
  intros [id Hid]. rewrite Hid. apply lookup_lt_is_Some, (gi_valid _ Hg n id Hid).
Qed.

Lemma mg_entry_none g n : shared_inv g -> mg_entry g n = None -> mg_map g !! n = None.
Proof. intros Hg He. apply eq_None_not_Some. rewrite mg_entry_some, He by done. apply is_Some_None. Qed.

(** The entry behind the handle of a stream changes. *)
Lemma flat_unlock g n id l :
  shared_inv g -> mg_map g !! n = Some id ->
  m_streams (flat (mg_unlock g id l)) = <[n := l_entry l]> (m_streams (flat g)).
Proof.
  intros Hg Hn. pose proof (gi_valid _ Hg _ _ Hn) as Hlt. apply map_eq. intros n'.
  rewrite flat_lookup. unfold mg_entry. cbn [mg_unlock mg_map mg_heap].
  destruct (decide (n' = n)) as [->|Hne].
  - rewrite lookup_insert_eq, Hn. cbn. by apply list_lookup_insert_eq.
  - rewrite lookup_insert_ne, flat_lookup by done. unfold mg_entry.
    destruct (mg_map g !! n') as [id'|] eqn:Hn'; [|done]. cbn. apply list_lookup_insert_ne. intros <-.
    by apply Hne, (gi_unique _ Hg _ _ id).
Qed.

(** An entry that is not in the map changes. *)
Lemma flat_unlock_stale g id l :
  (forall n, mg_map g !! n <> Some id) -> m_streams (flat (mg_unlock g id l)) = m_streams (flat g).
Proof.
  intros Hid. apply map_eq. intros n. rewrite !flat_lookup. unfold mg_entry. cbn [mg_unlock mg_map mg_heap].
  destruct (mg_map g !! n) as [id'|] eqn:Hn; [|done]. cbn. apply list_lookup_insert_ne. intros <-.
  by apply (Hid n).
Qed.

Lemma gview_unlock g n id l :
  shared_inv g -> mg_map g !! n = Some id -> gview (mg_unlock g id l) = <[n := abs_entry (l_entry l)]> (gview g).
Proof. intros Hg Hn. unfold gview, mem_view. rewrite (flat_unlock g n) by done. apply fmap_insert. Qed.

Lemma flat_insert g n e :
  shared_inv g -> m_streams (flat (mg_insert g n e)) = <[n := e]> (m_streams (flat g)).
Proof.
  intros Hg. apply map_eq. intros n'. rewrite flat_lookup. unfold mg_entry. cbn [mg_insert mg_map mg_heap].
  destruct (decide (n' = n)) as [->|Hne].
  - rewrite !lookup_insert_eq. cbn. by apply list_lookup_middle.
  - rewrite !lookup_insert_ne, flat_lookup by done. unfold mg_entry.
    destruct (mg_map g !! n') as [id'|] eqn:Hn'; [|done]. cbn. apply lookup_app_l. by eapply gi_valid.
Qed.

Lemma flat_remove g n e : m_streams (flat (mg_remove g n e)) = delete n (m_streams (flat g)).
Proof.
  apply map_eq. intros n'. rewrite flat_lookup. unfold mg_entry. cbn [mg_remove mg_map mg_heap].
  destruct (decide (n' = n)) as [->|Hne].
  - by rewrite !lookup_delete_eq.
  - by rewrite !lookup_delete_ne, flat_lookup.
Qed.

Lemma shared_inv_total g t : shared_inv g -> shared_inv (mg_set_total g t).
Proof. by intros []. Qed.

Lemma shared_inv_unlock g id l :
  shared_inv g -> entry_ok (l_entry l) -> e_total_bytes (l_entry l) <= mg_max_stream g ->
  shared_inv (mg_unlock g id l).
Proof.
  intros [H1 H2 H3 H4 H5] Hok Hle. split; cbn; try done.
  - intros id' e' [(_ & <- & _)|[_ He']]%list_lookup_insert_Some; [done|eauto].
  - intros n id' Hn. rewrite length_insert. eauto.
Qed.

Lemma shared_inv_insert g n e :
  shared_inv g -> entry_ok e -> e_total_bytes e <= mg_max_stream g -> shared_inv (mg_insert g n e).
Proof.
  intros [H1 H2 H3 H4 H5] Hok Hle. split; cbn; try done.
  - intros id e' [He'|[_ He']]%lookup_app_Some; [eauto|].
    by apply list_lookup_singleton_Some in He' as [_ <-].
  - intros n' id. rewrite length_app. cbn. intros [[<- <-]|[_ Hn']]%lookup_insert_Some; [lia|].
    specialize (H4 _ _ Hn'). lia.
  - intros n1 n2 id [[<- Hid1]|[Hne1 Hn1]]%lookup_insert_Some [[<- Hid2]|[Hne2 Hn2]]%lookup_insert_Some; [done|..].
    + specialize (H4 _ _ Hn2). lia.
    + specialize (H4 _ _ Hn1). lia.
    + by eapply H5.
Qed.

Lemma shared_inv_remove g n e : shared_inv g -> shared_inv (mg_remove g n e).
Proof.
  intros [H1 H2 H3 H4 H5]. split; cbn; try done.
  - intros n' id [_ Hn']%lookup_delete_Some. eauto.
  - intros n1 n2 id [_ Hn1]%lookup_delete_Some [_ Hn2]%lookup_delete_Some. eauto.
Qed.

Lemma mapped_unlock g n id e l :
  shared_inv g -> mg_map g !! n = Some id -> mg_heap g !! id = Some e ->
  mapped_bytes (mg_unlock g id l) = mapped_bytes g - e_total_bytes e + e_total_bytes (l_entry l).
Proof.
  intros Hg Hn He. unfold mapped_bytes, sum_bytes. rewrite (flat_unlock g n) by done.
  apply map_sum_update. rewrite flat_lookup. unfold mg_entry. by rewrite Hn.
Qed.
Lemma mapped_insert g n e :
  shared_inv g -> mg_entry g n = None -> mapped_bytes (mg_insert g n e) = mapped_bytes g + e_total_bytes e.
Proof.
  intros Hg Hn. unfold mapped_bytes, sum_bytes. rewrite flat_insert, map_sum_insert_new; [lia|by rewrite flat_lookup|done].
Qed.
Lemma mapped_remove g n e :
  mg_entry g n = Some e -> mapped_bytes (mg_remove g n e) = mapped_bytes g - e_total_bytes e.
Proof.
  intros He. unfold mapped_bytes, sum_bytes.
  rewrite flat_remove, (map_sum_delete _ (m_streams (flat g)) n e); [lia|by rewrite flat_lookup].
Qed.

(** ** Invariant *)

(** The bytes a call holds in the counter. *)
Definition m_held (th : MThread) : Z := match th with MRefused _ _ bytes _ => bytes | _ => 0 end.

(** A call made within the address space. *)
Definition m_callable (q : Request) : Prop := callable q /\ Z.of_nat (length (request_msgs q)) < two64.

Definition mthread_ok (g : MShared) (th : MThread) : Prop :=
  match th with
  | MCalling q => m_callable q
  | MFound q id =>
      m_callable q /\ is_Some (section_of (mg_max_total g) (mg_max_stream g) q) /\
      (id < length (mg_heap g))%nat /\ forall n, mg_map g !! n = Some id -> n = request_name q
  | MCreating (OpCreateWithData _ n _ _ _ as op) => m_callable (Write op) /\ mg_map g !! n = None
  | MCreating _ => False
  | MRefused _ _ bytes _ => 0 <= bytes
  | _ => True
  end.

(** [leak] is what was appended to streams that were no longer in the map. *)
Record mconc_inv (leak : Z) (c : MConf) : Prop := mkMConcInv {
  mx_shared : shared_inv (mc_mem c);
  mx_total : mg_total (mc_mem c) = mapped_bytes (mc_mem c) + map_sum m_held (mc_threads c) + leak;
  mx_leak : 0 <= leak;
  mx_limit : mg_total (mc_mem c) <= mg_max_total (mc_mem c);
  mx_threads : forall tid th, mc_threads c !! tid = Some th -> mthread_ok (mc_mem c) th;
  mx_holder : forall tid1 tid2 th1 th2, mc_threads c !! tid1 = Some th1 -> mc_threads c !! tid2 = Some th2 ->
    holds_lock th1 = Some OnMap -> holds_lock th2 = Some OnMap -> tid1 = tid2
}.

(** What may happen to the memory under a thread: new entries, names removed or given to
    new entries. *)
Definition grows (g g' : MShared) : Prop :=
  mg_max_total g' = mg_max_total g /\ mg_max_stream g' = mg_max_stream g /\
  (length (mg_heap g) <= length (mg_heap g'))%nat /\
  forall n id, (id < length (mg_heap g))%nat -> mg_map g' !! n = Some id -> mg_map g !! n = Some id.

Lemma mthread_ok_grows g g' th :
  grows g g' -> (holds_lock th = Some OnMap -> forall n, mg_map g !! n = None -> mg_map g' !! n = None) ->
  mthread_ok g th -> mthread_ok g' th.
Proof.
  intros (H1 & H2 & H3 & H4) Hmap. destruct th as [q|q id|op| | |]; cbn in *; try done.
  - rewrite H1, H2. intros (Hc & Hs & Hid & Hn). split_and!; [done|done|lia|]. intros n Hn'. eauto.
  - destruct op; try done. intros [Hc Hn]. split; [done|]. by apply Hmap.
Qed.

Definition m_old_held (c : MConf) (tid : string) : Z := from_option m_held 0 (mc_threads c !! tid).

Lemma mconc_nonneg leak c : mconc_inv leak c -> map_Forall (fun _ th => 0 <= m_held th) (mc_threads c).
Proof. intros Hinv tid th Hth. pose proof (mx_threads _ _ Hinv _ _ Hth) as Hok. by destruct th. Qed.

Lemma m_held_le leak c tid : mconc_inv leak c -> 0 <= m_old_held c tid <= map_sum m_held (mc_threads c).
Proof.
  intros Hinv. pose proof (mconc_nonneg _ _ Hinv) as Hall. unfold m_old_held.
  destruct (mc_threads c !! tid) as [th|] eqn:Hth; cbn; [by apply (map_sum_lookup_le _ _ tid)|].
  split; [done|]. by apply map_sum_nonneg.
Qed.

Lemma m_total_bounds leak c :
  mconc_inv leak c -> 0 <= mapped_bytes (mc_mem c) <= mg_total (mc_mem c) /\ mg_max_total (mc_mem c) < two64.
Proof.
  intros Hinv. pose proof (m_held_le leak c EmptyString Hinv). pose proof (mx_total _ _ Hinv).
  pose proof (mx_leak _ _ Hinv). pose proof (mapped_nonneg _ (mx_shared _ _ Hinv)).
  destruct (gi_max_total _ (mx_shared _ _ Hinv)). lia.
Qed.

(** The other threads are not disturbed by a step that changes the map only when no other
    thread has it locked. *)
Lemma mconc_set leak leak' c tid g th :
  mconc_inv leak c -> shared_inv g -> grows (mc_mem c) g ->
  mg_total g = mapped_bytes g + (map_sum m_held (mc_threads c) - m_old_held c tid + m_held th) + leak' ->
  0 <= leak' -> mg_total g <= mg_max_total g -> mthread_ok g th ->
  (mg_map g = mg_map (mc_mem c) /\ holds_lock th <> Some OnMap) \/
    (forall tid2 th2, tid2 <> tid -> mc_threads c !! tid2 = Some th2 -> holds_lock th2 <> Some OnMap) ->
  mconc_inv leak' (mc_set c tid g th).
Proof.
  intros Hinv Hg Hgr Htot Hlk Hlim Hok Hmap. split; cbn; [done| |done|done|..].
  - rewrite map_sum_set. unfold m_old_held in Htot. lia.
  - intros tid2 th2 [[<- <-]|[Hne Hth2]]%lookup_insert_Some; [done|].
    apply (mthread_ok_grows (mc_mem c)); [done| |by eapply mx_threads]. intros Hh.
    destruct Hmap as [[-> _]|Hfree]; [done|]. by destruct (Hfree tid2 th2).
  - intros tid1 tid2 th1 th2 [[<- <-]|[Hne1 Hth1]]%lookup_insert_Some
      [[<- <-]|[Hne2 Hth2]]%lookup_insert_Some Hh1 Hh2; [done|..].
    + destruct Hmap as [[_ Hn]|Hfree]; [done|]. by destruct (Hfree tid2 th2).
    + destruct Hmap as [[_ Hn]|Hfree]; [done|]. by destruct (Hfree tid1 th1).
    + by eapply mx_holder.
Qed.

Lemma grows_refl g g' :
  mg_max_total g' = mg_max_total g -> mg_max_stream g' = mg_max_stream g ->
  length (mg_heap g') = length (mg_heap g) -> mg_map g' = mg_map g -> grows g g'.
Proof. intros H1 H2 H3 H4. unfold grows. rewrite H4. split_and!; try done. lia. Qed.
Lemma grows_insert g g' n e : grows g g' -> grows g (mg_insert g' n e).
Proof.
  intros (H1 & H2 & H3 & H4). split_and!; cbn; [done|done|rewrite length_app; lia|].
  intros n' id Hid [[<- <-]|[_ Hn']]%lookup_insert_Some; [lia|eauto].
Qed.
Lemma grows_remove g n e : grows g (mg_remove g n e).
Proof. split_and!; cbn; try done. by intros n' id _ [_ Hn']%lookup_delete_Some. Qed.

(** A thread moves on and leaves the memory alone. *)
Lemma mconc_move leak c tid th :
  mconc_inv leak c -> m_held th = m_old_held c tid -> mthread_ok (mc_mem c) th ->
  holds_lock th <> Some OnMap -> mconc_inv leak (mc_set c tid (mc_mem c) th).
Proof.
  intros Hinv Hh Hok Hl. apply (mconc_set leak);
    [done|apply Hinv|by apply grows_refl| |apply Hinv|apply Hinv|done|by left].
  rewrite (mx_total _ _ Hinv). lia.
Qed.

(** ** Steps *)

(** What a step does to the logs, by its label. *)
Definition m_effect (l : MLabel) (v v' : View) : Prop :=
  match l with
  | Seen (Effect _ q ans) => m_explains v q ans v'
  | Dropped clk n => housekeeping clk n v v'
  | _ => v' = v
  end.
Definition is_stale (l : MLabel) : bool := match l with Stale _ _ _ => true | _ => false end.

(** What is shown of every step. *)
Definition step_ok (leak : Z) (c : MConf) (l : MLabel) (c' : MConf) : Prop :=
  m_effect l (gview (mc_mem c)) (gview (mc_mem c')) /\
  exists leak', leak <= leak' /\ (is_stale l = false -> leak' = leak) /\ mconc_inv leak' c'.

Lemma spec_missing mt ms q v :
  is_Some (section_of mt ms q) -> v !! request_name q = None -> spec_request q v = (v, missing q).
Proof.
  intros [sec Hs] Hn. destruct q as [[clk n config|clk n config msgs close|clk n data ct|clk n [|m msgs] ct seq
    |clk n msgs ct p close seq|clk n|n|clk n]|clk n from|clk n]; cbn in Hs, Hn; try done; cbn;
    unfold with_answer, spec_append, spec_batch_append, spec_append_with_producer, spec_close, spec_read, spec_head,
      appendable, live_stream; by rewrite Hn.
Qed.

Lemma m_old_held_eq c tid th : mc_threads c !! tid = Some th -> m_old_held c tid = m_held th.
Proof. intros Hth. unfold m_old_held. by rewrite Hth. Qed.

Lemma next_thread_held q lock ans : m_held (next_thread q lock ans) = if size_refused ans then reserved_bytes q else 0.
Proof. unfold next_thread. by destruct (size_refused ans). Qed.

Lemma step_section_ok leak c tid q id section e l ans :
  mconc_inv leak c -> mc_threads c !! tid = Some (MFound q id) ->
  section_of (mg_max_total (mc_mem c)) (mg_max_stream (mc_mem c)) q = Some section ->
  mg_heap (mc_mem c) !! id = Some e -> countable_in e q ->
  section (mkLocked (mg_total (mc_mem c)) e) = (l, ans) ->
  step_ok leak c
    (if decide (mg_map (mc_mem c) !! request_name q = Some id) then Seen (Effect tid q ans) else Stale tid q ans)
    (mc_set c tid (mg_unlock (mc_mem c) id (keep_reserved q (mg_total (mc_mem c)) ans l))
       (next_thread q (OnEntry id) ans)).
Proof.
  intros Hinv Hth Hsec He Hcnt Hrun. set (g := mc_mem c) in *.
  pose proof (mx_shared _ _ Hinv) as Hg. fold g in Hg.
  destruct (mx_threads _ _ Hinv _ _ Hth) as ((Hcall & Hn) & _ & Hid & Hname).
  destruct (gi_entries _ Hg _ _ He) as [Hok Hms]. destruct (m_total_bounds _ _ Hinv) as [Hbd Hmt]. fold g in Hbd, Hmt.
  destruct (reserved_bytes_payload q Hcall) as [Hres Hpay]. pose proof (mx_limit _ _ Hinv) as Hlim. fold g in Hlim.
  assert (section_pre (mg_max_total g) (mg_max_stream g) (mg_total g) e) as Hpre
    by (split; try done; [by apply entry_ok_bytes|lia]).
  assert (forall v, v !! request_name q = Some (abs_entry e) -> _) as Hout
    by (intros v Hv; exact (section_outcome _ _ _ _ _ _ _ _ v Hsec Hpre Hcall Hn Hcnt Hv Hrun)).
  destruct (Hout {[request_name q := abs_entry e]}) as ((Hok' & Ht' & Hmt' & Hgr & Hms') & _ & Href);
    [apply lookup_singleton_eq|].
  set (l1 := keep_reserved q (mg_total g) ans l). set (th := next_thread q (OnEntry id) ans).
  assert (l_entry l1 = l_entry l) as Hl1 by (unfold l1, keep_reserved; by destruct (size_refused ans)).
  assert (l_total l1 = mg_total g + (e_total_bytes (l_entry l) - e_total_bytes e) + m_held th /\
          l_total l1 <= mg_max_total g) as [Ht1 Hle1].
  { unfold l1, th, keep_reserved. rewrite next_thread_held. destruct (size_refused ans) eqn:Hs; [|cbn; lia].
    destruct (Href eq_refl) as (_ & He' & Hmax). cbn [l_total l_entry]. rewrite Hres. lia. }
  assert (mthread_ok (mg_unlock g id l1) th) as Hokt
    by (unfold th, next_thread; destruct (size_refused ans); cbn; [lia|done]).
  assert (holds_lock th <> Some OnMap) as Hnl by (unfold th, next_thread; by destruct (size_refused ans)).
  assert (shared_inv (mg_unlock g id l1)) as Hg' by (apply shared_inv_unlock; rewrite ?Hl1; [done|done|lia]).
  assert (grows g (mg_unlock g id l1)) as Hgrow by (apply grows_refl; try done; apply length_insert).
  pose proof (mx_total _ _ Hinv) as Htot. fold g in Htot. pose proof (mx_leak _ _ Hinv) as Hlk.
  pose proof (m_old_held_eq _ _ _ Hth) as Hold. cbn in Hold.
  destruct (decide (mg_map g !! request_name q = Some id)) as [Hlive|Hstale].
  - split.
    + change (m_explains (gview g) q ans (gview (mg_unlock g id l1))).
      rewrite (gview_unlock g (request_name q)), Hl1 by done.
      apply Hout. rewrite gview_lookup. unfold mg_entry. by rewrite Hlive; cbn; rewrite He.
    + exists leak. split_and!; [lia|done|]. apply (mconc_set leak); try done; [|by left]. fold g.
      rewrite (mapped_unlock g (request_name q) id e), Hl1 by done. cbn [mg_unlock mg_total]. lia.
  - assert (forall n, mg_map g !! n <> Some id) as Hnone.
    { intros n Hn'. apply Hstale. by rewrite <- (Hname n Hn'). }
    pose proof (flat_unlock_stale g id l1 Hnone) as Hflat. split.
    + exact (gview_streams _ _ Hflat).
    + exists (leak + (e_total_bytes (l_entry l) - e_total_bytes e)). split_and!; [lia|done|].
      apply (mconc_set leak); try done; [|lia|by left]. fold g. unfold mapped_bytes in *. rewrite Hflat.
      cbn [mg_unlock mg_total]. lia.
Qed.

(** ** Steps under the lock of the map *)

(** What the counter has beyond the streams of the map. *)
Definition slack (g : MShared) : Z := mg_total g - mapped_bytes g.

(** The memory after an operation that changes the map. *)
Definition remapped (g g' : MShared) : Prop :=
  shared_inv g' /\ grows g g' /\ slack g' = slack g /\ mg_total g' <= mg_max_total g'.

Definition mem_ok (g : MShared) : Prop :=
  shared_inv g /\ mapped_bytes g <= mg_total g /\ mg_total g <= mg_max_total g.

Lemma remapped_refl g : mem_ok g -> remapped g g.
Proof. intros (Hg & _ & Hle). split; [done|]. split; [by apply grows_refl|done]. Qed.

Lemma remapped_remove g n e : mem_ok g -> mg_entry g n = Some e -> remapped g (mg_remove g n e).
Proof.
  intros (Hg & Hle & Hmax) He. destruct (mapped_entry g n e Hg He) as [_ Hb].
  split_and!; [by apply shared_inv_remove|apply grows_remove| |]; unfold slack.
  - rewrite mapped_remove by done. cbn. unfold saturating_sub64. lia.
  - cbn. unfold saturating_sub64. lia.
Qed.

Lemma remapped_ok g g' : mem_ok g -> remapped g g' -> mem_ok g'.
Proof. intros (Hg & Hle & Hmax) (Hg' & _ & Hs & Hmax'). unfold slack in Hs. split_and!; [done|lia|done]. Qed.

Lemma remapped_insert g n e t :
  mem_ok g -> mg_entry g n = None -> entry_ok e -> e_total_bytes e <= mg_max_stream g ->
  t = mg_total g + e_total_bytes e -> t <= mg_max_total g ->
  remapped g (mg_insert (mg_set_total g t) n e).
Proof.
  intros (Hg & Hle & Hmax) Hn Hok Hms -> Ht. split_and!.
  - by apply shared_inv_insert; [apply shared_inv_total|..].
  - by apply grows_insert, grows_refl.
  - unfold slack. rewrite mapped_insert; [|by apply shared_inv_total|done]. cbn [mg_insert mg_set_total mg_total].
    change (mapped_bytes (mg_set_total g (mg_total g + e_total_bytes e))) with (mapped_bytes g). lia.
  - done.
Qed.

Lemma remapped_trans g1 g2 g3 : remapped g1 g2 -> remapped g2 g3 -> remapped g1 g3.
Proof.
  intros (_ & (A1 & A2 & A3 & A4) & Hs & _) (Hg3 & (B1 & B2 & B3 & B4) & Hs' & Hm).
  split_and!; [done| |congruence|done]. split_and!; [congruence|congruence|lia|].
  intros n id Hid Hn. apply A4; [done|]. apply B4; [lia|done].
Qed.

Lemma gview_insert g n e : shared_inv g -> gview (mg_insert g n e) = <[n := abs_entry e]> (gview g).
Proof. intros Hg. unfold gview, mem_view. rewrite flat_insert by done. apply fmap_insert. Qed.
Lemma gview_remove g n e : gview (mg_remove g n e) = delete n (gview g).
Proof. unfold gview, mem_view. rewrite flat_remove. apply fmap_delete. Qed.

Lemma live_stream_shared clk n g :
  live_stream clk n (gview g) =
  match mg_entry g n with
  | None => Err (NotFound n)
  | Some e => if is_stream_expired (clk 0%nat) (e_config e) then Err StreamExpired else Ok (abs_entry e)
  end.
Proof. unfold gview. by rewrite live_stream_mem, flat_lookup. Qed.

Lemma mg_delete_ok n g g' ans :
  mem_ok g -> mg_delete n g = (g', ans) ->
  remapped g g' /\ m_explains (gview g) (Write (OpDelete n)) ans (gview g').
Proof.
  intros Hg. unfold mg_delete. destruct (mg_entry g n) as [e|] eqn:He; intros [= <- <-]; split.
  - by apply remapped_remove.
  - apply explains_exact. unfold spec_request, spec_op, with_answer, spec_delete. rewrite gview_lookup, He.
    cbn [fmap option_fmap option_map]. by rewrite gview_remove.
  - by apply remapped_refl.
  - apply explains_exact. unfold spec_request, spec_op, with_answer, spec_delete. by rewrite gview_lookup, He.
Qed.

(** Out of the way of a new stream. *)
Definition cleared (clk : Clock) (n : string) (g g' : MShared) : Prop :=
  remapped g g' /\ mg_entry g' n = None /\ housekeeping clk n (gview g) (gview g').

Lemma cleared_expired clk n g e :
  mem_ok g -> mg_entry g n = Some e -> is_stream_expired (clk 0%nat) (e_config e) = true ->
  cleared clk n g (mg_remove g n e).
Proof.
  intros Hg He Hx. split_and!; [by apply remapped_remove| |].
  - unfold mg_entry. cbn. by rewrite lookup_delete_eq.
  - rewrite gview_remove. apply (hk_expired _ _ _ (abs_entry e)); [by rewrite gview_lookup, He|done].
Qed.
Lemma cleared_missing clk n g : mem_ok g -> mg_entry g n = None -> cleared clk n g g.
Proof. intros Hg He. split_and!; [by apply remapped_refl|done|constructor]. Qed.

Lemma mg_create_ok clk n config g g' ans :
  mem_ok g -> mg_create_stream clk n config g = (g', ans) ->
  remapped g g' /\ m_explains (gview g) (Write (OpCreate clk n config)) ans (gview g').
Proof.
  intros Hg. assert (forall g0, cleared clk n g g0 ->
    (mg_insert g0 n (StreamEntry_new (clk 1%nat) config), AnsCreate (Ok StreamCreated)) = (g', ans) ->
    remapped g g' /\ m_explains (gview g) (Write (OpCreate clk n config)) ans (gview g')) as Hnew.
  { intros g0 (Hr & Hn & Hh) [= <- <-]. pose proof (remapped_ok _ _ Hg Hr) as Hg0.
    destruct Hg0 as (Hs & Hle & Hmax). destruct (gi_max_stream _ Hs). split.
    - apply (remapped_trans _ g0); [done|].
      assert (mg_insert g0 n (StreamEntry_new (clk 1%nat) config) =
        mg_insert (mg_set_total g0 (mg_total g0)) n (StreamEntry_new (clk 1%nat) config)) as -> by by destruct g0.
      apply remapped_insert; cbn; auto with entry lia. done.
    - exists (gview g0). split; [done|]. left. rewrite gview_insert by done.
      unfold spec_request, spec_op, with_answer, spec_create. by rewrite live_stream_shared, Hn. }
  unfold mg_create_stream. destruct (mg_entry g n) as [e|] eqn:He; [|by apply Hnew, cleared_missing].
  destruct (is_stream_expired (clk 0%nat) (e_config e)) eqn:Hx; [by apply Hnew, cleared_expired|].
  destruct (config_eq (e_config e) config) eqn:Hc; intros [= <- <-]; (split; [by apply remapped_refl|]);
    apply explains_exact; unfold spec_request, spec_op, with_answer, spec_create; rewrite live_stream_shared, He, Hx;
    cbn [abs_entry a_config]; by rewrite Hc.
Qed.

Lemma mg_find_existing_ok clk n config msgs close g g' o :
  mem_ok g -> mg_find_existing clk n config g = (g', o) ->
  match o with
  | Some ans => g' = g /\ m_explains (gview g) (Write (OpCreateWithData clk n config msgs close)) ans (gview g')
  | None => cleared clk n g g' /\ (mg_map g !! n = None -> g' = g)
  end.
Proof.
  intros Hg. unfold mg_find_existing. destruct (mg_entry g n) as [e|] eqn:He.
  - destruct (is_stream_expired (clk 0%nat) (e_config e)) eqn:Hx.
    + intros [= <- <-]. split; [by apply cleared_expired|]. intros Hn. unfold mg_entry in He. by rewrite Hn in He.
    + destruct (gi_entries _ (proj1 Hg)) with (id := default 0%nat (mg_map g !! n)) (e := e) as [Hok _].
      { unfold mg_entry in He. by destruct (mg_map g !! n). }
      destruct (config_eq (e_config e) config) eqn:Hc; intros [= <- <-]; (split; [done|]);
        apply explains_exact; unfold spec_request, spec_op, with_answer, spec_create_with_data;
        rewrite live_stream_shared, He, Hx; cbn [abs_entry a_config]; rewrite Hc; by rewrite ?entry_next_offset_abs.
  - intros [= <- <-]. split; [by apply cleared_missing|done].
Qed.

Lemma mg_insert_new_ok clk n config msgs close g g' ans :
  let q := Write (OpCreateWithData clk n config msgs close) in
  mem_ok g -> mg_entry g n = None -> m_callable q ->
  mg_insert_new q clk n config msgs close g = (g', ans) ->
  shared_inv g' /\ grows g g' /\ slack g' = slack g + (if size_refused ans then reserved_bytes q else 0) /\
  mg_total g' <= mg_max_total g' /\ m_explains (gview g) q ans (gview g').
Proof.
  intros q Hg Hn [Hc Hl]. destruct (reserved_bytes_payload q Hc) as [Hres Hp]. cbn [request_msgs op_msgs q] in *.
  pose proof Hg as (Hs & Hle & Hmax). pose proof (mapped_nonneg g Hs). destruct (gi_max_total _ Hs) as [_ Hmt].
  destruct (gi_max_stream _ Hs) as [Hms _]. unfold mg_insert_new.
  destruct (fill_entry (mg_max_total g) (mg_max_stream g) (mg_total g) clk config msgs close)
    as [(err & Hrun & Herr)|(e' & Hrun & Hok & Habs & Hb & Hlim & Hlt & Hoff & Hcl)]; [lia..| |]; rewrite Hrun.
  - intros [= <- <-]. set (l := keep_reserved _ _ _ _).
    assert (l_total l = mg_total g + (if size_refused (AnsCreateData (Err err)) then reserved_bytes q else 0) /\
            l_total l <= mg_max_total g) as [Hl1 Hl2].
    { unfold l, keep_reserved. destruct (size_refused _) eqn:Hsr; [|cbn; lia]. cbn [l_total].
      assert (err = StreamSizeLimitExceeded) as -> by (unfold size_refused in Hsr; by destruct err).
      apply commit_refused in Hrun as [_ Hle2]; [|by apply new_entry_pre; lia|left; cbn; lia|lia|cbn; lia]. lia. }
    split_and!; [by apply shared_inv_total|by apply grows_refl| |done|].
    + unfold slack. change (mapped_bytes (mg_set_total g (l_total l))) with (mapped_bytes g). cbn [mg_set_total mg_total]. lia.
    + exists (gview g). split; [unfold tidied; constructor|]. right. split; [done|]. by exists err.
  - intros [= <- <-]. cbn [l_total l_entry]. fold (filled e' close).
    destruct (remapped_insert g n (filled e' close) (mg_total g + payload msgs) Hg Hn Hok) as (H1 & H2 & H3 & H4); [lia..|].
    split_and!; [done|done|cbn [size_refused answer_err]; lia|done|].
    apply explains_exact. rewrite gview_insert by by apply shared_inv_total.
    change (gview (mg_set_total g (mg_total g + payload msgs))) with (gview g). rewrite Habs, Hoff, Hcl.
    unfold spec_request, q, spec_op, with_answer, spec_create_with_data. by rewrite live_stream_shared, Hn.
Qed.

Lemma mconc_mem_ok leak c : mconc_inv leak c -> mem_ok (mc_mem c).
Proof.
  intros Hinv. destruct (m_total_bounds _ _ Hinv). split_and!; [apply Hinv|lia|apply Hinv].
Qed.

(** A step of a caller that may change the map because nobody else has it locked. *)
Lemma mconc_remap leak c tid g th :
  mconc_inv leak c -> shared_inv g -> grows (mc_mem c) g ->
  slack g = slack (mc_mem c) - m_old_held c tid + m_held th -> mg_total g <= mg_max_total g ->
  mthread_ok g th ->
  (forall tid2 th2, tid2 <> tid -> mc_threads c !! tid2 = Some th2 -> holds_lock th2 <> Some OnMap) ->
  mconc_inv leak (mc_set c tid g th).
Proof.
  intros Hinv Hg Hgr Hs Hle Hok Hfree. apply (mconc_set leak); try done; [|apply Hinv|by right].
  pose proof (mx_total _ _ Hinv). unfold slack in Hs. lia.
Qed.

Lemma lock_free_others c tid :
  lock_free c OnMap ->
  forall tid2 th2, tid2 <> tid -> mc_threads c !! tid2 = Some th2 -> holds_lock th2 <> Some OnMap.
Proof. intros Hfree tid2 th2 _. apply Hfree. Qed.

Lemma step_ok_intro leak c l c' :
  m_effect l (gview (mc_mem c)) (gview (mc_mem c')) -> mconc_inv leak c' -> step_ok leak c l c'.
Proof. intros He Hi. split; [done|]. exists leak. by split_and!. Qed.

Lemma mem_step_ok leak c l c' : mconc_inv leak c -> mem_step c l c' -> step_ok leak c l c'.
Proof.
  intros Hinv Hstep. pose proof (mconc_mem_ok _ _ Hinv) as Hg.
  destruct Hstep as [tid q Hid Hc Hl|tid clk n ct seq q Hth ans|tid q Hth Hfree Hs Hn|tid q id Hth Hfree Hs Hn
    |tid q id section e l ans Hth Hfree Hs He Hcnt Hrun|tid clk n config g ans q Hth Hfree Hsf Hrun
    |tid n g ans q Hth Hfree Hsf Hrun|tid clk n config msgs close g ans q Hth Hfree Hsf Hrun
    |tid clk n config msgs close g op Hth Hfree Hsf Hrun|tid clk n config msgs close g ans op Hth Hrun
    |tid q lock bytes ans Hth|tid q ans Hth];
    try (pose proof (mx_threads _ _ Hinv _ _ Hth) as Hok; pose proof (m_old_held_eq _ _ _ Hth) as Hold;
         cbn in Hok, Hold).
  - apply step_ok_intro; [done|]. apply mconc_move; try done. unfold m_old_held.
    by destruct (mc_threads c !! tid) as [[]|].
  - apply step_ok_intro; [|by apply mconc_move]. by apply explains_exact.
  - apply step_ok_intro; [|by apply mconc_move]. apply explains_exact. cbn [mc_set mc_mem]. symmetry.
    eapply spec_missing; [done|]. rewrite gview_lookup. unfold mg_entry. by rewrite Hn.
  - apply step_ok_intro; [done|]. apply mconc_move; try done. cbn. split_and!; [done|done|by eapply gi_valid; [apply Hg|]|].
    intros n Hn'. by apply (gi_unique _ (proj1 Hg) n (request_name q) id).
  - by eapply step_section_ok.
  - destruct (mg_create_ok _ _ _ _ _ _ Hg Hrun) as [(Hg' & Hgr & Hsl & Hle) Hex].
    apply step_ok_intro; [done|]. apply mconc_remap; try done; [cbn; lia|by apply lock_free_others].
  - destruct (mg_delete_ok _ _ _ _ Hg Hrun) as [(Hg' & Hgr & Hsl & Hle) Hex].
    apply step_ok_intro; [done|]. apply mconc_remap; try done; [cbn; lia|by apply lock_free_others].
  - destruct (mg_find_existing_ok clk n config msgs close _ _ _ Hg Hrun) as [-> Hex].
    apply step_ok_intro; [done|]. by apply mconc_move.
  - destruct (mg_find_existing_ok clk n config msgs close _ _ _ Hg Hrun) as [((Hg' & Hgr & Hsl & Hle) & Hn & Hh) Hsame].
    apply step_ok_intro.
    + destruct (decide _) as [Hnone|]; [by rewrite (Hsame Hnone)|done].
    + apply mconc_remap; try done; [cbn; lia| |by apply lock_free_others].
      cbn. split; [done|]. by apply mg_entry_none.
  - cbn in Hok. destruct Hok as [Hc Hn].
    assert (mg_entry (mc_mem c) n = None) as He by (unfold mg_entry; by rewrite Hn).
    destruct (mg_insert_new_ok _ _ _ _ _ _ _ _ Hg He Hc Hrun) as (Hg' & Hgr & Hsl & Hle & Hex).
    destruct (reserved_bytes_payload _ (proj1 Hc)) as [Hres Hp].
    apply step_ok_intro; [done|]. apply mconc_remap; try done.
    + rewrite next_thread_held, Hold. unfold op in *. lia.
    + unfold next_thread. destruct (size_refused ans); [|done].
      change (0 <= reserved_bytes (Write op)). unfold op in *. lia.
    + intros tid2 th2 Hne Hth2 Hh. by apply Hne, (mx_holder _ _ Hinv tid2 tid th2 (MCreating op)).
  - pose proof (m_held_le _ _ tid Hinv) as Hle. pose proof (mx_total _ _ Hinv) as Htot. pose proof (mx_leak _ _ Hinv).
    pose proof (mapped_nonneg _ (proj1 Hg)). pose proof (mx_limit _ _ Hinv).
    apply step_ok_intro; [done|].
    apply (mconc_set leak); [done|by apply shared_inv_total, Hg|by apply grows_refl| |done| |done|by left].
    + change (mapped_bytes (mg_set_total (mc_mem c) (saturating_sub64 (mg_total (mc_mem c)) bytes)))
        with (mapped_bytes (mc_mem c)). cbn [mg_set_total mg_total m_held]. unfold saturating_sub64. lia.
    + cbn. unfold saturating_sub64. lia.
  - apply step_ok_intro; [done|]. by apply mconc_move.
Qed.
