(* ===== verification/MemoryAlone.v ===== *)
(** * MemoryAlone: one call on the in-memory backend

    The steps of a call that is not interrupted do what the method does. *)

From S2P Require Import Prelude Errors Offsets RustStd Headers StorageCore LogSpec StorageTrace Calls.
From S2P Require Import MemoryStorage MemoryRefinement MemoryConcurrent MemoryInterleaving.

#[local] Arguments commit_messages : simpl never.

(** The methods, as one function. *)
Definition mem_op (op : StorageOp) (st : InMemoryStorage) : InMemoryStorage * Answer :=
  match op with
  | OpCreate clk n config => with_answer AnsCreate (mem_create_stream clk n config st)
  | OpCreateWithData clk n config msgs close =>
      with_answer AnsCreateData (mem_create_stream_with_data clk n config msgs close st)
  | OpAppend clk n data ct => with_answer AnsAppend (mem_append clk n data ct st)
  | OpBatchAppend clk n msgs ct seq => with_answer AnsAppend (mem_batch_append clk n msgs ct seq st)
  | OpProducer clk n msgs ct p close seq =>
      with_answer AnsProducer (mem_append_with_producer clk n msgs ct p close seq st)
  | OpClose clk n => with_answer AnsUnit (mem_close_stream clk n st)
  | OpDelete n => with_answer AnsUnit (mem_delete n st)
  | OpSubscribe _ _ => (st, AnsUnit (Ok tt))
  end.
Definition mem_request (q : Request) (st : InMemoryStorage) : InMemoryStorage * Answer :=
  match q with
  | Write op => mem_op op st
  | Read clk n from => (st, AnsRead (mem_read clk n from st))
  | Head clk n => (st, AnsHead (mem_head clk n st))
  end.

(** Nothing is in the way of the call. *)
Definition undisturbed (c : MConf) (q : Request) : Prop :=
  lock_free c OnMap /\ stream_free c (request_name q) /\
  forall e, mg_entry (mc_mem c) (request_name q) = Some e -> countable_in e q.

Section Alone.
Context (leak : Z) (c : MConf) (tid : string) (q : Request).
Hypothesis Hinv : mconc_inv leak c.
Hypothesis Hidle : m_idle (mc_threads c !! tid) = true.
Hypothesis Hcall : m_callable q.
Hypothesis Hfree : undisturbed c q.

(** The call has come from [c] to memory [g] and thread [th]. *)
Definition reaches (g : MShared) (th : MThread) : Prop := exists tr, mem_steps c tr (mc_set c tid g th).

Lemma reaches_call : reaches (mc_mem c) (MCalling q).
Proof using Hidle Hcall.
  exists [Seen (Invoke tid q)]. destruct Hcall. apply (msteps_snoc c [] c); [constructor|by constructor].
Qed.

Lemma reaches_step g th l g' th' :
  reaches g th ->
  (mc_threads (mc_set c tid g th) !! tid = Some th ->
   mem_step (mc_set c tid g th) l (mc_set (mc_set c tid g th) tid g' th')) ->
  reaches g' th'.
Proof using.
  intros [tr Hs] Hl. exists (tr ++ [l]). eapply msteps_snoc; [exact Hs|].
  replace (mc_set c tid g' th') with (mc_set (mc_set c tid g th) tid g' th').
  - apply Hl, lookup_insert_eq.
  - unfold mc_set. cbn. by rewrite insert_insert_eq.
Qed.

Lemma free_set lock g th : holds_lock th <> Some lock -> lock_free c lock -> lock_free (mc_set c tid g th) lock.
Proof using.
  intros Hh Hf tid2 th2. cbn. intros [[<- <-]|[_ Hth2]]%lookup_insert_Some; [done|by eapply Hf].
Qed.

Definition outcome (g : MShared) (th : MThread) (st : InMemoryStorage) (ans : Answer) : Prop :=
  reaches g th /\
  match th with
  | MDone q' a => q' = q /\ a = ans /\ flat g = st
  | MRefused q' _ bytes a => q' = q /\ a = ans /\
      flat (mg_set_total g (saturating_sub64 (mg_total g) bytes)) = st
  | _ => False
  end.

Lemma flat_eq g : flat g = mkMem (m_streams (flat g)) (mg_total g) (mg_max_total g) (mg_max_stream g).
Proof using. done. Qed.

(** From the end of the work to the return. *)
Lemma outcome_returns g th st ans :
  outcome g th st ans -> exists g', reaches g' (MReturned q ans) /\ flat g' = st.
Proof using.
  assert (forall g, reaches g (MDone q ans) -> exists g', reaches g' (MReturned q ans) /\ flat g' = flat g) as Hdone.
  { intros g0 Hr. exists g0. split; [|done]. eapply reaches_step; [exact Hr|]. apply mstep_return. }
  intros [Hr Ho]. destruct th as [| | |q' lock bytes a|q' a|]; try done.
  - destruct Ho as (-> & -> & <-). apply Hdone. eapply reaches_step; [exact Hr|]. apply mstep_rollback.
  - destruct Ho as (-> & -> & <-). by apply Hdone.
Qed.

(** A call that first looks its stream up. *)
Lemma section_outcome_flat section :
  section_of (mg_max_total (mc_mem c)) (mg_max_stream (mc_mem c)) q = Some section ->
  let st := flat (mc_mem c) in
  exists g th, match m_streams st !! request_name q with
    | None => outcome g th st (missing q)
    | Some e =>
        let '(l, ans) := section (mkLocked (m_total_bytes st) e) in
        outcome g th (mkMem (<[request_name q := l_entry l]> (m_streams st)) (l_total l)
                        (m_max_total_bytes st) (m_max_stream_bytes st)) ans
    end.
Proof using Hinv Hidle Hcall Hfree.
  intros Hsec st. unfold st. rewrite flat_lookup. destruct Hfree as (Hmap & Hent & Hcnt).
  pose proof (mx_shared _ _ Hinv) as Hg. destruct (mg_entry (mc_mem c) (request_name q)) as [e|] eqn:He.
  - destruct (section _) as [l ans] eqn:Hrun. unfold mg_entry in He.
    destruct (mg_map (mc_mem c) !! request_name q) as [id|] eqn:Hid; [|done]. cbn in He.
    assert (reaches (mc_mem c) (MFound q id)) as Hfound.
    { eapply reaches_step; [apply reaches_call|]. intros Hth.
      apply (mstep_lookup (mc_set c tid (mc_mem c) (MCalling q))); [done|by apply free_set|by eexists|done]. }
    eexists _, _. split; [eapply reaches_step; [exact Hfound|]; intros Hth;
      eapply (mstep_section (mc_set c tid (mc_mem c) (MFound q id))); [done|by apply free_set; [|apply Hent]|done|exact He
        |by apply Hcnt|exact Hrun]|].
    cbn [mc_set mc_mem]. unfold next_thread, keep_reserved. destruct (size_refused ans) eqn:Href.
    + destruct (m_total_bounds _ _ Hinv) as [Hbd Hmt]. pose proof (mx_limit _ _ Hinv).
      destruct (gi_entries _ Hg _ _ He) as [Hok Hms]. destruct Hcall as [Hc Hn].
      assert (section_pre (mg_max_total (mc_mem c)) (mg_max_stream (mc_mem c)) (mg_total (mc_mem c)) e) as Hpre
        by (split; try done; [by apply entry_ok_bytes|lia]).
      destruct (section_outcome _ _ _ _ _ _ _ _ {[request_name q := abs_entry e]} Hsec Hpre
        Hc Hn (Hcnt _ eq_refl) ltac:(apply lookup_singleton_eq) Hrun) as (_ & _ & Hrp).
      destruct (Hrp Href) as (Ht & _ & _). split_and!; [done..|].
      destruct (reserved_bytes_payload q Hc) as [-> Hp].
      set (l1 := mkLocked (mg_total (mc_mem c) + payload (request_msgs q)) (l_entry l)).
      rewrite (flat_eq (mg_set_total _ _)).
      change (m_streams (flat (mg_set_total (mg_unlock (mc_mem c) id l1) _)))
        with (m_streams (flat (mg_unlock (mc_mem c) id l1))).
      rewrite (flat_unlock _ (request_name q)) by done. cbn [l1 mg_set_total mg_unlock mg_total l_total l_entry].
      rewrite saturating_sub64_add by lia. by rewrite Ht.
    + split_and!; [done..|]. rewrite flat_eq. by rewrite (flat_unlock _ (request_name q)).
  - pose proof (mg_entry_none _ _ Hg He) as Hn. exists (mc_mem c), (MDone q (missing q)). split; [|done].
    eapply reaches_step; [apply reaches_call|]. intros Hth.
    apply (mstep_missing (mc_set c tid (mc_mem c) (MCalling q))); [done|by apply free_set|by eexists|done].
Qed.

Lemma with_stream_outcome {R} (f : Result Error R -> Answer) sec :
  section_of (mg_max_total (mc_mem c)) (mg_max_stream (mc_mem c)) q = Some (fun l => with_answer f (sec l)) ->
  missing q = f (Err (NotFound (request_name q))) ->
  let out := with_answer f (with_stream (request_name q) sec (flat (mc_mem c))) in
  exists g th, outcome g th out.1 out.2.
Proof using Hinv Hidle Hcall Hfree.
  intros Hsec Hmiss out. destruct (section_outcome_flat _ Hsec) as (g & th & Ho). exists g, th.
  unfold out, with_stream. destruct (m_streams (flat (mc_mem c)) !! request_name q) as [e|].
  - cbn in Ho. by destruct (sec _) as [l r].
  - cbn [with_answer fst snd]. by rewrite <- Hmiss.
Qed.

Lemma read_outcome (f : StreamEntry -> Answer) :
  section_of (mg_max_total (mc_mem c)) (mg_max_stream (mc_mem c)) q = Some (fun l => (l, f (l_entry l))) ->
  exists g th, outcome g th (flat (mc_mem c))
    (match m_streams (flat (mc_mem c)) !! request_name q with Some e => f e | None => missing q end).
Proof using Hinv Hidle Hcall Hfree.
  intros Hsec. destruct (section_outcome_flat _ Hsec) as (g & th & Ho). exists g, th.
  destruct (m_streams (flat (mc_mem c)) !! request_name q) as [e|] eqn:He; [|done].
  cbn [l_entry l_total] in Ho. by rewrite insert_id in Ho.
Qed.

(** A call that is one step under the lock of the map. *)
Lemma mapped_outcome l g ans st :
  flat g = st ->
  (forall c0, c0 = mc_set c tid (mc_mem c) (MCalling q) -> mc_threads c0 !! tid = Some (MCalling q) ->
     lock_free c0 OnMap -> stream_free c0 (request_name q) -> mem_step c0 l (mc_set c0 tid g (MDone q ans))) ->
  exists g th, outcome g th st ans.
Proof using Hidle Hcall Hfree.
  intros <- Hl. exists g, (MDone q ans). split; [|done]. eapply reaches_step; [apply reaches_call|]. intros Hth.
  apply Hl; [done|done|by apply free_set; [|apply Hfree]|].
  intros id Hid. apply free_set; [done|]. by apply Hfree.
Qed.
End Alone.

(** The operations on the map, on the flat storage. *)
Lemma flat_remove_expired g n e : flat (mg_remove g n e) = remove_expired n e (flat g).
Proof. rewrite flat_eq, flat_remove. done. Qed.

Lemma flat_insert_entry g n e :
  shared_inv g -> flat (mg_insert g n e) = set_streams (flat g) (<[n := e]> (m_streams (flat g))).
Proof. intros Hg. rewrite flat_eq, flat_insert by done. done. Qed.

Lemma mg_create_flat clk n config g :
  shared_inv g ->
  let out := mem_op (OpCreate clk n config) (flat g) in
  mg_create_stream clk n config g = ((mg_create_stream clk n config g).1, out.2) /\
  flat (mg_create_stream clk n config g).1 = out.1.
Proof.
  intros Hg out. unfold out, mem_op, mem_create_stream, mg_create_stream, with_answer. rewrite flat_lookup.
  destruct (mg_entry g n) as [e|]; [destruct (is_stream_expired _ _); [|by destruct (config_eq _ _)]|]; cbn [fst snd];
    (split; [done|]).
  - rewrite flat_insert_entry by by apply shared_inv_remove. by rewrite flat_remove_expired.
  - by rewrite flat_insert_entry.
Qed.

Lemma mg_delete_flat n g :
  let out := mem_op (OpDelete n) (flat g) in
  mg_delete n g = ((mg_delete n g).1, out.2) /\ flat (mg_delete n g).1 = out.1.
Proof.
  intros out. unfold out, mem_op, mem_delete, mg_delete, with_answer. rewrite flat_lookup.
  destruct (mg_entry g n) as [e|]; [|done]. cbn [fst snd]. split; [done|]. by rewrite flat_remove_expired.
Qed.

Section AloneRequest.
Context (leak : Z) (c : MConf) (tid : string).
Hypothesis Hinv : mconc_inv leak c.
Hypothesis Hidle : m_idle (mc_threads c !! tid) = true.

(** The second half of a create with data: the map is locked, the name is free. *)
Lemma insert_new_outcome clk n config msgs close g :
  let q := Write (OpCreateWithData clk n config msgs close) in
  m_callable q -> mem_ok g -> mg_entry g n = None ->
  reaches c tid g (MCreating (OpCreateWithData clk n config msgs close)) ->
  let out := with_answer AnsCreateData (insert_new_stream clk n config msgs close (flat g)) in
  exists g' th, outcome c tid q g' th out.1 out.2.
Proof using.
  intros q Hc Hg Hn Hr out. destruct (mg_insert_new q clk n config msgs close g) as [g' ans] eqn:Hrun.
  exists g', (next_thread q OnMap ans). split.
  { eapply reaches_step; [exact Hr|]. intros Hth. by apply (mstep_insert (mc_set c tid g _)). }
  destruct (reserved_bytes_payload q (proj1 Hc)) as [Hres Hp]. pose proof Hg as (Hs & Hle & _).
  pose proof (mapped_nonneg _ Hs). unfold mg_insert_new in Hrun. unfold out, insert_new_stream. cbn [flat m_max_total_bytes
    m_max_stream_bytes m_total_bytes].
  destruct (commit_messages _ _ _ _) as [l [[]|err]] eqn:Hcm; simplify_eq; cbn [with_answer fst snd].
  - split_and!; [done..|]. rewrite flat_insert_entry by by apply shared_inv_total. done.
  - unfold next_thread, keep_reserved. destruct (size_refused _) eqn:Hsr; [|by split_and!].
    split_and!; [done..|]. rewrite flat_eq. cbn [mg_set_total mg_total l_total].
    assert (err = StreamSizeLimitExceeded) as -> by (unfold size_refused in Hsr; by destruct err).
    destruct (gi_max_stream _ Hs), (gi_max_total _ Hs). destruct Hg as (_ & _ & Hmax).
    apply commit_refused in Hcm as [-> _]; [|by apply new_entry_pre; lia|left; cbn; lia|cbn in Hp; lia|apply Hc].
    rewrite saturating_sub64_add by lia. done.
Qed.

Lemma create_with_data_outcome clk n config msgs close :
  let q := Write (OpCreateWithData clk n config msgs close) in
  m_callable q -> undisturbed c q ->
  let out := mem_request q (flat (mc_mem c)) in
  exists g th, outcome c tid q g th out.1 out.2.
Proof using Hinv Hidle.
  intros q Hc Hfree out. pose proof (mconc_mem_ok _ _ Hinv) as Hg. pose proof Hfree as (Hmap & Hent & _).
  destruct (mg_find_existing clk n config (mc_mem c)) as [g o] eqn:Hrun.
  pose proof (mg_find_existing_ok clk n config msgs close _ _ _ Hg Hrun) as Hok.
  assert (lock_free (mc_set c tid (mc_mem c) (MCalling q)) OnMap /\
          stream_free (mc_set c tid (mc_mem c) (MCalling q)) n) as [Hf1 Hf2].
  { split; [by apply free_set|]. intros id Hid. by apply free_set; [|apply Hent]. }
  destruct o as [ans|].
  - destruct Hok as [-> _]. assert (out = (flat (mc_mem c), ans)) as ->.
    { unfold out, mem_request, q, mem_op, mem_create_stream_with_data. rewrite flat_lookup.
      unfold mg_find_existing in Hrun. destruct (mg_entry (mc_mem c) n) as [e|]; [|done].
      destruct (is_stream_expired _ _); [done|]. by destruct (config_eq _ _); simplify_eq. }
    apply (mapped_outcome c tid q Hidle Hc Hfree (Seen (Effect tid q ans)) (mc_mem c)); [done|].
    intros c0 -> Hth _ _. by apply (mstep_existing (mc_set c tid (mc_mem c) (MCalling q))).
  - destruct Hok as [(Hr & Hn & _) _].
    assert (reaches c tid g (MCreating (OpCreateWithData clk n config msgs close))) as Hreach.
    { eapply reaches_step; [by apply (reaches_call c tid q)|]. intros Hth.
      by apply (mstep_creating (mc_set c tid (mc_mem c) (MCalling q))). }
    pose proof (insert_new_outcome clk n config msgs close g Hc (remapped_ok _ _ Hg Hr) Hn Hreach) as Ho.
    replace out with (with_answer AnsCreateData (insert_new_stream clk n config msgs close (flat g))); [exact Ho|].
    unfold out, mem_request, q, mem_op, mem_create_stream_with_data. rewrite flat_lookup.
    unfold mg_find_existing in Hrun. destruct (mg_entry (mc_mem c) n) as [e|]; [|by simplify_eq].
    destruct (is_stream_expired _ _); [|by destruct (config_eq _ _)]. simplify_eq. by rewrite flat_remove_expired.
Qed.

Lemma request_outcome q :
  m_callable q -> undisturbed c q ->
  let out := mem_request q (flat (mc_mem c)) in
  exists g th, outcome c tid q g th out.1 out.2.
Proof using Hinv Hidle.
  intros Hc Hfree. pose proof (mx_shared _ _ Hinv) as Hg.
  destruct q as [[clk n config|clk n config msgs close|clk n data ct|clk n [|m msgs] ct seq
    |clk n msgs ct p close seq|clk n|n|clk n]|clk n from|clk n]; [..|by destruct Hc| |].
  - destruct (mg_create_flat clk n config (mc_mem c) Hg) as [Hrun Hflat].
    eapply (mapped_outcome c tid _ Hidle Hc Hfree); [exact Hflat|]. intros c0 -> Hth Hf1 Hf2.
    by apply (mstep_create (mc_set c tid (mc_mem c) _)).
  - by apply create_with_data_outcome.
  - by apply (with_stream_outcome leak c tid _ Hinv Hidle Hc Hfree AnsAppend
      (append_locked (mg_max_total (mc_mem c)) (mg_max_stream (mc_mem c)) clk data ct)).
  - eapply (mapped_outcome c tid _ Hidle Hc Hfree); [done|]. intros c0 -> Hth _ _.
    by apply (mstep_empty (mc_set c tid (mc_mem c) _)).
  - by apply (with_stream_outcome leak c tid _ Hinv Hidle Hc Hfree AnsAppend
      (batch_append_locked (mg_max_total (mc_mem c)) (mg_max_stream (mc_mem c)) clk (m :: msgs) ct seq)).
  - by apply (with_stream_outcome leak c tid _ Hinv Hidle Hc Hfree AnsProducer
      (append_with_producer_locked (mg_max_total (mc_mem c)) (mg_max_stream (mc_mem c)) clk msgs ct p close seq)).
  - by apply (with_stream_outcome leak c tid _ Hinv Hidle Hc Hfree AnsUnit (close_stream_locked clk)).
  - destruct (mg_delete_flat n (mc_mem c)) as [Hrun Hflat].
    eapply (mapped_outcome c tid _ Hidle Hc Hfree); [exact Hflat|]. intros c0 -> Hth Hf1 Hf2.
    by apply (mstep_delete (mc_set c tid (mc_mem c) _)).
  - destruct (read_outcome leak c tid _ Hinv Hidle Hc Hfree (fun e => AnsRead (read_locked clk from e)) eq_refl)
      as (g & th & Ho). exists g, th. cbn [mem_request fst snd request_name] in *. unfold mem_read.
    by destruct (m_streams (flat (mc_mem c)) !! n).
  - destruct (read_outcome leak c tid _ Hinv Hidle Hc Hfree (fun e => AnsHead (head_locked clk e)) eq_refl)
      as (g & th & Ho). exists g, th. cbn [mem_request fst snd request_name] in *. unfold mem_head.
    by destruct (m_streams (flat (mc_mem c)) !! n).
Qed.
End AloneRequest.
