(* ===== verification/MemoryConcurrentProps.v ===== *)
(** * MemoryConcurrentProps: theorems on concurrent calls of the in-memory backend

    Calls are linearizable, except those whose stream is removed from the map between
    their lookup and their lock; the byte limit holds in every case; what a call that was
    overtaken appends is never given back. *)

From S2P Require Import Prelude Errors Offsets RustStd Headers StorageCore LogSpec StorageTrace Calls.
From S2P Require Import MemoryStorage MemoryRefinement MemoryConcurrent MemoryInterleaving MemoryAlone.

(** ** Runs *)

(** The steps one after the other on the logs. *)
Inductive m_linear : View -> list MLabel -> View -> Prop :=
  | m_linear_nil v : m_linear v [] v
  | m_linear_snoc v tr v1 l v2 : m_linear v tr v1 -> m_effect l v1 v2 -> m_linear v (tr ++ [l]) v2.

(** What the callers see; they cannot tell a stale effect from another. *)
Definition visible (l : MLabel) : option Label :=
  match l with
  | Seen l => Some l
  | Stale tid q ans => Some (Effect tid q ans)
  | Dropped _ _ | Quiet => None
  end.

Definition m_phase_of (o : option MThread) : Phase :=
  match o with
  | None | Some (MReturned _ _) => Idle
  | Some (MCalling q) | Some (MFound q _) => Waiting q
  | Some (MCreating op) => Waiting (Write op)
  | Some (MRefused q _ _ ans) | Some (MDone q ans) => Answered q ans
  end.

(** Does the step take the stream out of the map, or put a new one in its place? *)
Definition removes (name : string) (l : MLabel) : Prop :=
  match l with
  | Seen (Effect _ (Write (OpDelete n)) _) | Seen (Effect _ (Write (OpCreate _ n _)) _) | Dropped _ n => n = name
  | _ => False
  end.

(** [tr'] is what happened since the caller made its call [q]. *)
Definition since (tid : string) (q : Request) (tr tr' : list MLabel) : Prop :=
  exists tr0, tr = tr0 ++ Seen (Invoke tid q) :: tr' /\ forall q', Seen (Invoke tid q') ∉ tr'.

(** The stream of a call was removed during the call. *)
Definition overtaken (tid : string) (q : Request) (tr : list MLabel) : Prop :=
  exists tr', since tid q tr tr' /\ Exists (removes (request_name q)) tr'.

Definition start_ok (g : MShared) : Prop := mconc_inv 0 (mkMConf g ∅).

Lemma mg_new_ok mt ms : u64 mt -> u64 ms -> start_ok (mg_new mt ms).
Proof. intros [Hm0 Hm1] Hms. by split. Qed.

Lemma mem_steps_inv g tr c :
  start_ok g -> mem_steps (mkMConf g ∅) tr c ->
  m_linear (gview g) tr (gview (mc_mem c)) /\
  exists leak, mconc_inv leak c /\ (Forall (fun l => is_stale l = false) tr -> leak = 0).
Proof.
  intros Hg Hs. remember (mkMConf g ∅) as c0 eqn:Hc0. induction Hs as [c|c tr c1 l c2 Hs IH Hl]; subst.
  - split; [constructor|]. by exists 0.
  - destruct (IH eq_refl) as (Hlin & leak & Hinv & Hz).
    destruct (mem_step_ok _ _ _ _ Hinv Hl) as [Heff (leak' & Hle & Hst & Hinv')]. split; [by econstructor|].
    exists leak'. split; [done|]. intros [Htr Hq]%Forall_app. rewrite Forall_singleton in Hq.
    rewrite Hst by done. by apply Hz.
Qed.

(** The removal of a handle from the map shows. *)
Lemma mem_step_removes leak c l c' n id :
  mconc_inv leak c -> mem_step c l c' -> mg_map (mc_mem c) !! n = Some id ->
  mg_map (mc_mem c') !! n <> Some id -> removes n l.
Proof.
  intros Hinv Hstep Hn Hn'. destruct Hstep as [| | | | |tid clk n' config g ans q Hth Hfree Hsf Hrun
    |tid n' g ans q Hth Hfree Hsf Hrun|tid clk n' config msgs close g ans q Hth Hfree Hsf Hrun
    |tid clk n' config msgs close g op Hth Hfree Hsf Hrun|tid clk n' config msgs close g ans op Hth Hrun| |];
    cbn in Hn'; try done.
  - cbn. destruct (decide (n' = n)) as [|Hne]; [done|]. exfalso. apply Hn'. revert Hrun. unfold mg_create_stream.
    repeat case_match; intros [= <- <-]; cbn; rewrite ?lookup_insert_ne, ?lookup_delete_ne by done; done.
  - cbn. destruct (decide (n' = n)) as [|Hne]; [done|]. exfalso. apply Hn'. revert Hrun. unfold mg_delete.
    case_match; intros [= <- <-]; cbn; rewrite ?lookup_delete_ne by done; done.
  - exfalso. apply Hn'. revert Hrun. unfold mg_find_existing. repeat case_match; by intros [= <- <-].
  - destruct (decide (n' = n)) as [->|Hne].
    + rewrite decide_False by by rewrite Hn. done.
    + exfalso. apply Hn'. revert Hrun. unfold mg_find_existing.
      repeat case_match; intros [= <-]; cbn; rewrite ?lookup_delete_ne by done; done.
  - exfalso. pose proof (mx_threads _ _ Hinv _ _ Hth) as [_ Hnone]. cbn in Hnone.
    assert (n' <> n) as Hne by congruence. apply Hn'. revert Hrun. unfold mg_insert_new.
    repeat case_match; intros [= <- <-]; cbn; rewrite ?lookup_insert_ne by done; done.
Qed.

(** The call a thread is about to carry out, and the handle it has found. *)
Definition pending_call (th : MThread) : option (Request * option nat) :=
  match th with MCalling q => Some (q, None) | MFound q id => Some (q, Some id) | _ => None end.

(** What a step does to the threads: one moves; if it has a call to carry out, it has just
    made it, or just found its handle. *)
Lemma mem_step_threads c l c' :
  mem_step c l c' ->
  exists tid th, mc_threads c' = <[tid := th]> (mc_threads c) /\
    (forall tid' q, l = Seen (Invoke tid' q) -> tid' = tid) /\
    match pending_call th with
    | None => True
    | Some (q, None) => l = Seen (Invoke tid q)
    | Some (q, Some id) => l = Quiet /\ mc_threads c !! tid = Some (MCalling q) /\
                           mg_map (mc_mem c') !! request_name q = Some id
    end.
Proof.
  intros Hs. destruct Hs; (eexists _, _; split; [reflexivity|]; split; [|try done]); try done; try (by intros ? ? [= -> ->]);
    try (intros ? ?; by case_decide); unfold next_thread; by destruct (size_refused _).
Qed.

Lemma since_snoc tid q tr tr' l :
  since tid q tr tr' -> (forall q', l <> Seen (Invoke tid q')) -> since tid q (tr ++ [l]) (tr' ++ [l]).
Proof.
  intros (tr0 & -> & Hno) Hl. exists tr0. rewrite <- app_assoc. split; [done|].
  intros q' [Hin|Hin]%elem_of_app; [by apply (Hno q')|]. apply list_elem_of_singleton in Hin. by apply (Hl q').
Qed.

(** Whoever holds a handle that is no longer in the map was overtaken. *)
Lemma mem_steps_since g tr c tid th q o :
  start_ok g -> mem_steps (mkMConf g ∅) tr c -> mc_threads c !! tid = Some th ->
  pending_call th = Some (q, o) ->
  exists tr', since tid q tr tr' /\
    forall id, o = Some id -> mg_map (mc_mem c) !! request_name q = Some id \/ Exists (removes (request_name q)) tr'.
Proof.
  intros Hg Hs. remember (mkMConf g ∅) as c0 eqn:Hc0. revert tid th q o.
  induction Hs as [c|c tr c1 l c2 Hs IH Hl]; intros tid th q o Hth Hp; subst; [cbn in Hth; by rewrite lookup_empty in Hth|].
  specialize (IH eq_refl). destruct (mem_steps_inv _ _ _ Hg Hs) as (_ & leak & Hinv & _).
  destruct (mem_step_threads _ _ _ Hl) as (tid0 & th0 & Hc2 & Hinvoke & Hth0). rewrite Hc2 in Hth.
  apply lookup_insert_Some in Hth as [[<- <-]|[Hne Hth]].
  - rewrite Hp in Hth0. destruct o as [id|].
    + destruct Hth0 as (-> & Hcall & Hmap). destruct (IH _ _ q None Hcall eq_refl) as (tr' & Hsince & _).
      exists (tr' ++ [Quiet]). split; [by apply since_snoc|]. intros id' [= <-]. by left.
    + subst l. exists []. split; [|done]. exists tr. split; [done|]. intros q'. apply not_elem_of_nil.
  - destruct (IH _ _ q o Hth Hp) as (tr' & Hsince & Hid). exists (tr' ++ [l]). split.
    + apply since_snoc; [done|]. intros q' ->. by apply Hne; rewrite (Hinvoke tid q').
    + intros id ->. rewrite Exists_app. destruct (Hid id eq_refl) as [Hmap|Hex]; [|by right; left].
      destruct (decide (mg_map (mc_mem c2) !! request_name q = Some id)) as [|Hn]; [by left|].
      right. right. left. by eapply mem_step_removes.
Qed.

Lemma mem_step_stale c tid q ans c' :
  mem_step c (Stale tid q ans) c' ->
  exists id, mc_threads c !! tid = Some (MFound q id) /\ mg_map (mc_mem c) !! request_name q <> Some id.
Proof.
  intros Hs. inversion Hs as [| | | |tid' q' id section e l ans' Hth Hf Hsec He Hc Hrun Hlab| | | |
    tid' clk n config msgs close g op Hth Hf Hsf Hrun Hlab| | |]; case_decide; simplify_eq. eauto.
Qed.

(** The phases of the callers follow what they see. *)
Lemma mem_step_phase c l c' tid tr :
  mem_step c l c' -> follows Idle (labels_of tid (omap visible tr)) (m_phase_of (mc_threads c !! tid)) ->
  follows Idle (labels_of tid (omap visible (tr ++ [l]))) (m_phase_of (mc_threads c' !! tid)).
Proof.
  intros Hs. unfold labels_of. rewrite omap_app, filter_app.
  assert (forall tid0 g th l0, c' = mc_set c tid0 g th -> omap visible [l] = option_list l0 ->
    match l0 with Some l0 => label_tid l0 = tid0 | None => True end ->
    (forall tr, follows Idle tr (m_phase_of (mc_threads c !! tid0)) -> follows Idle (tr ++ option_list l0) (m_phase_of (Some th))) ->
    follows Idle (filter (fun l => label_tid l = tid) (omap visible tr)) (m_phase_of (mc_threads c !! tid)) ->
    follows Idle (filter (fun l => label_tid l = tid) (omap visible tr) ++
                  filter (fun l => label_tid l = tid) (omap visible [l])) (m_phase_of (mc_threads c' !! tid))) as Hset.
  { intros tid0 g th l0 -> -> Hl0 Hph Hf. cbn [mc_set mc_threads]. destruct (decide (tid0 = tid)) as [<-|Hne].
    - rewrite lookup_insert_eq. rewrite (filter_all _ (option_list l0)); [by apply Hph|]. destruct l0; cbn; auto.
    - rewrite lookup_insert_ne by done. destruct l0 as [l0|]; cbn; [|by rewrite app_nil_r].
      rewrite decide_False by congruence. by rewrite app_nil_r. }
  destruct Hs as [tid0 q Hid Hc Hl|tid0 clk n ct seq q Hth ans|tid0 q Hth Hfree Hs Hn|tid0 q id Hth Hfree Hs Hn
    |tid0 q id section e l ans Hth Hfree Hs He Hcnt Hrun|tid0 clk n config g ans q Hth Hfree Hsf Hrun
    |tid0 n g ans q Hth Hfree Hsf Hrun|tid0 clk n config msgs close g ans q Hth Hfree Hsf Hrun
    |tid0 clk n config msgs close g op Hth Hfree Hsf Hrun|tid0 clk n config msgs close g ans op Hth Hrun
    |tid0 q lock bytes ans Hth|tid0 q ans Hth].
  - eapply (Hset _ _ _ (Some _)); [reflexivity|reflexivity|done|]. intros tr' Hf.
    assert (m_phase_of (mc_threads c !! tid0) = Idle) as Hi by by destruct (mc_threads c !! tid0) as [[]|].
    rewrite Hi in Hf. by constructor.
  - eapply (Hset _ _ _ (Some _)); [reflexivity|reflexivity|done|]. intros tr'. rewrite Hth. by constructor.
  - eapply (Hset _ _ _ (Some _)); [reflexivity|reflexivity|done|]. intros tr'. rewrite Hth. by constructor.
  - eapply (Hset _ _ _ None); [reflexivity|reflexivity|done|]. intros tr'. by rewrite Hth, app_nil_r.
  - eapply (Hset _ _ _ (Some (Effect tid0 q ans))); [reflexivity|by case_decide|done|]. intros tr'. rewrite Hth.
    unfold next_thread. destruct (size_refused ans); by constructor.
  - eapply (Hset _ _ _ (Some _)); [reflexivity|reflexivity|done|]. intros tr'. rewrite Hth. by constructor.
  - eapply (Hset _ _ _ (Some _)); [reflexivity|reflexivity|done|]. intros tr'. rewrite Hth. by constructor.
  - eapply (Hset _ _ _ (Some _)); [reflexivity|reflexivity|done|]. intros tr'. rewrite Hth. by constructor.
  - eapply (Hset _ _ _ None); [reflexivity|by case_decide|done|]. intros tr'. by rewrite Hth, app_nil_r.
  - eapply (Hset _ _ _ (Some (Effect tid0 (Write op) ans))); [reflexivity|reflexivity|done|]. intros tr'. rewrite Hth.
    unfold next_thread. destruct (size_refused ans); by constructor.
  - eapply (Hset _ _ _ None); [reflexivity|reflexivity|done|]. intros tr'. by rewrite Hth, app_nil_r.
  - eapply (Hset _ _ _ (Some _)); [reflexivity|reflexivity|done|]. intros tr'. rewrite Hth. by constructor.
Qed.

Lemma mem_steps_follow g tr c tid :
  mem_steps (mkMConf g ∅) tr c ->
  follows Idle (labels_of tid (omap visible tr)) (m_phase_of (mc_threads c !! tid)).
Proof.
  intros Hs. remember (mkMConf g ∅) as c0 eqn:Hc0. induction Hs as [c|c tr c1 l c2 Hs IH Hl]; subst.
  - cbn. rewrite lookup_empty. constructor.
  - by eapply mem_step_phase, IH.
Qed.

Lemma mem_steps_stale g tr c tr1 tid q ans tr2 :
  start_ok g -> mem_steps (mkMConf g ∅) tr c -> tr = tr1 ++ Stale tid q ans :: tr2 -> overtaken tid q tr1.
Proof.
  intros Hg Hs. remember (mkMConf g ∅) as c0 eqn:Hc0. revert tr2.
  induction Hs as [c|c tr c1 l c2 Hs IH Hl]; intros tr2 Htr; subst; [by destruct tr1|].
  destruct (decide (tr2 = [])) as [->|Hne].
  - apply app_inj_tail in Htr as [-> ->]. destruct (mem_step_stale _ _ _ _ _ Hl) as (id & Hth & Hn).
    destruct (mem_steps_since _ _ _ _ _ q (Some id) Hg Hs Hth eq_refl) as (tr' & Hsince & Hid).
    exists tr'. split; [done|]. by destruct (Hid id eq_refl).
  - destruct (exists_last Hne) as (tr3 & l' & ->). rewrite app_comm_cons, app_assoc in Htr.
    apply app_inj_tail in Htr as [-> _]. by apply (IH eq_refl tr3).
Qed.

(** ** Theorems *)

(** C8: the in-memory backend is linearizable but for calls that are overtaken. In every
    run of any number of concurrent callers the steps, in their order, are calls on the
    abstract log made one after the other (up to the housekeeping of expired streams and
    stale producers, and refusals for lack of resources), and each caller sees each of its
    calls take effect once, between the call and its return, with the answer it is given;
    except that a call may be carried out on a stream that is no longer in the map, without
    any effect on the logs, and only if a delete or a create of that name took effect during
    the call. *)
Theorem memory_linearizable g tr c :
  start_ok g -> mem_steps (mkMConf g ∅) tr c ->
  m_linear (gview g) tr (gview (mc_mem c)) /\
  (forall tid, follows Idle (labels_of tid (omap visible tr)) (m_phase_of (mc_threads c !! tid))) /\
  (forall tr1 tid q ans tr2, tr = tr1 ++ Stale tid q ans :: tr2 -> overtaken tid q tr1).
Proof.
  intros Hg Hs. split_and!.
  - by apply mem_steps_inv.
  - intros tid. by eapply mem_steps_follow.
  - intros tr1 tid q ans tr2 Htr. by eapply mem_steps_stale.
Qed.

Lemma flat_inv g : shared_inv g -> mg_total g = mapped_bytes g -> mg_total g <= mg_max_total g -> mem_inv (flat g).
Proof.
  intros Hg Ht Hle. split; cbn [flat m_max_total_bytes m_max_stream_bytes m_total_bytes]; [apply Hg|apply Hg| |done|done].
  intros n e He. change (m_streams (flat g) !! n = Some e) in He. rewrite flat_lookup in He.
  by apply (mapped_entry g n e Hg He).
Qed.

(** C9: the global limit holds under any interleaving of calls on the in-memory backend: at
    every moment the streams hold at most what the counter says, and the counter at most
    the limit. If no call was overtaken and none is under way, the counter is exact and the
    storage satisfies the invariant of the sequential theorems. *)
Theorem memory_cap_concurrent g tr c :
  start_ok g -> mem_steps (mkMConf g ∅) tr c ->
  mapped_bytes (mc_mem c) <= mg_total (mc_mem c) <= mg_max_total (mc_mem c) /\
  (Forall (fun l => is_stale l = false) tr -> (forall tid, m_idle (mc_threads c !! tid) = true) ->
   mem_inv (flat (mc_mem c))).
Proof.
  intros Hg Hs. destruct (mem_steps_inv _ _ _ Hg Hs) as (_ & leak & Hinv & Hz).
  destruct (m_total_bounds _ _ Hinv) as [Hb _]. pose proof (mx_limit _ _ Hinv) as Hl. split; [lia|]. intros Hns Hidle.
  rewrite (Hz Hns) in Hinv. pose proof (mx_total _ _ Hinv) as Ht.
  assert (map_sum m_held (mc_threads c) = 0) as H0.
  { apply map_sum_zero. intros tid th Hth. specialize (Hidle tid). rewrite Hth in Hidle. by destruct th. }
  apply flat_inv; [apply Hinv|lia|done].
Qed.

(** C11: the steps of a call are its method, on the in-memory backend. A call that nobody
    interrupts or blocks, among any other callers, returns what the method computes as one
    function, and leaves the storage the method leaves. *)
Theorem memory_call_alone g tr c tid q :
  start_ok g -> mem_steps (mkMConf g ∅) tr c ->
  m_idle (mc_threads c !! tid) = true -> m_callable q -> undisturbed c q ->
  let out := mem_request q (flat (mc_mem c)) in
  exists tr' c', mem_steps c tr' c' /\ mc_threads c' !! tid = Some (MReturned q out.2) /\
    flat (mc_mem c') = out.1.
Proof.
  intros Hg Hs Hid Hc Hfree out. destruct (mem_steps_inv _ _ _ Hg Hs) as (_ & leak & Hinv & _).
  destruct (request_outcome leak c tid Hinv Hid q Hc Hfree) as (g1 & th & Ho).
  destruct (outcome_returns _ _ _ _ _ _ _ Ho) as (g' & [tr' Hr] & Hflat).
  exists tr', (mc_set c tid g' (MReturned q out.2)). split_and!; [done|apply lookup_insert_eq|done].
Qed.

(** No step changes the limit. *)
Lemma mem_step_limits c l c' : mem_step c l c' -> mg_max_total (mc_mem c') = mg_max_total (mc_mem c).
Proof.
  intros Hs. destruct Hs as [| | | | |tid clk n config g ans q Hth Hfree Hsf Hrun
    |tid n g ans q Hth Hfree Hsf Hrun|tid clk n config msgs close g ans q Hth Hfree Hsf Hrun
    |tid clk n config msgs close g op Hth Hfree Hsf Hrun|tid clk n config msgs close g ans op Hth Hrun| |];
    try done; cbn [mc_set mc_mem].
  - unfold mg_create_stream in Hrun. destruct (mg_entry _ _); repeat case_match; by simplify_eq.
  - unfold mg_delete in Hrun. destruct (mg_entry _ _); by simplify_eq.
  - unfold mg_find_existing in Hrun. destruct (mg_entry _ _); repeat case_match; by simplify_eq.
  - unfold mg_find_existing in Hrun. destruct (mg_entry _ _); repeat case_match; by simplify_eq.
  - unfold mg_insert_new in Hrun. destruct (commit_messages _ _ _ _) as [lk [[]|]]; by simplify_eq.
Qed.

(** What was appended to a stream that is gone is counted for good. *)
Lemma mem_steps_leak leak c tr c' :
  mconc_inv leak c -> mem_steps c tr c' ->
  exists leak', leak <= leak' /\ mconc_inv leak' c' /\ mg_max_total (mc_mem c') = mg_max_total (mc_mem c).
Proof.
  intros Hinv Hs. induction Hs as [c|c tr c1 l c2 Hs IH Hl]; [by exists leak|].
  destruct (IH Hinv) as (leak1 & Hle1 & Hinv1 & Hmax).
  destruct (mem_step_ok _ _ _ _ Hinv1 Hl) as [_ (leak2 & Hle2 & _ & Hinv2)]. exists leak2.
  split_and!; [lia|done|]. rewrite <- Hmax. by eapply mem_step_limits.
Qed.

(** ** An overtaken append *)

(** Runs that grow by one step of a caller. *)
Section Runs.
Context (c0 : MConf) (tr : list MLabel) (c : MConf) (tid : string).
Hypothesis Hrun : mem_steps c0 tr c.

Lemma m_run_call q :
  m_idle (mc_threads c !! tid) = true -> m_callable q ->
  mem_steps c0 (tr ++ [Seen (Invoke tid q)]) (mc_set c tid (mc_mem c) (MCalling q)).
Proof using Hrun. intros Hid [Hc Hl]. apply (msteps_snoc _ _ _ _ _ Hrun). by constructor. Qed.

Lemma m_run_return q ans :
  mc_threads c !! tid = Some (MDone q ans) ->
  mem_steps c0 (tr ++ [Seen (Respond tid q ans)]) (mc_set c tid (mc_mem c) (MReturned q ans)).
Proof using Hrun. intros Hth. apply (msteps_snoc _ _ _ _ _ Hrun). by constructor. Qed.

Lemma m_run_create clk n config :
  let q := Write (OpCreate clk n config) in
  let out := mg_create_stream clk n config (mc_mem c) in
  mc_threads c !! tid = Some (MCalling q) -> (forall lock, lock_free c lock) ->
  mem_steps c0 (tr ++ [Seen (Effect tid q out.2)]) (mc_set c tid out.1 (MDone q out.2)).
Proof using Hrun.
  intros q out Hth Hf. apply (msteps_snoc _ _ _ _ _ Hrun).
  apply mstep_create; [done|done|by intros id _|apply surjective_pairing].
Qed.

Lemma m_run_delete n :
  let q := Write (OpDelete n) in
  let out := mg_delete n (mc_mem c) in
  mc_threads c !! tid = Some (MCalling q) -> (forall lock, lock_free c lock) ->
  mem_steps c0 (tr ++ [Seen (Effect tid q out.2)]) (mc_set c tid out.1 (MDone q out.2)).
Proof using Hrun.
  intros q out Hth Hf. apply (msteps_snoc _ _ _ _ _ Hrun).
  apply mstep_delete; [done|done|by intros id _|apply surjective_pairing].
Qed.

Lemma m_run_lookup q id :
  mc_threads c !! tid = Some (MCalling q) -> (forall lock, lock_free c lock) ->
  is_Some (section_of (mg_max_total (mc_mem c)) (mg_max_stream (mc_mem c)) q) ->
  mg_map (mc_mem c) !! request_name q = Some id ->
  mem_steps c0 (tr ++ [Quiet]) (mc_set c tid (mc_mem c) (MFound q id)).
Proof using Hrun. intros Hth Hf Hs Hid. apply (msteps_snoc _ _ _ _ _ Hrun). by constructor. Qed.

Lemma m_run_stale q id section e :
  mc_threads c !! tid = Some (MFound q id) -> (forall lock, lock_free c lock) ->
  section_of (mg_max_total (mc_mem c)) (mg_max_stream (mc_mem c)) q = Some section ->
  mg_heap (mc_mem c) !! id = Some e -> countable_in e q -> mg_map (mc_mem c) !! request_name q = None ->
  let out := section (mkLocked (mg_total (mc_mem c)) e) in
  size_refused out.2 = false ->
  mem_steps c0 (tr ++ [Stale tid q out.2]) (mc_set c tid (mg_unlock (mc_mem c) id out.1) (MDone q out.2)).
Proof using Hrun.
  intros Hth Hf Hs He Hcnt Hn out Hr. apply (msteps_snoc _ _ _ _ _ Hrun).
  pose proof (mstep_section c tid q id section e out.1 out.2 Hth (Hf _) Hs He Hcnt (surjective_pairing _)) as Hl.
  rewrite decide_False in Hl by by rewrite Hn. unfold keep_reserved, next_thread in Hl. by rewrite Hr in Hl.
Qed.
End Runs.

Definition race_clock : Clock := fun _ => 1000.
Definition race_config : StreamConfig := StreamConfig_new "text/plain".
Definition race_data : bytes := replicate 10 x61.
Definition race_create : Request := Write (OpCreate race_clock "s" race_config).
Definition race_append : Request := Write (OpAppend race_clock "s" race_data "text/plain").
Definition race_delete : Request := Write (OpDelete "s").
Definition race_entry : StreamEntry := StreamEntry_new 1000 race_config.

(** In a storage with room for ten bytes [b] creates the stream, [a] gets the handle of its
    entry, [b] deletes the stream, and only then [a] takes the lock of the entry. *)
Definition race_start : MConf := mkMConf (mg_new 10 10) ∅.
Definition race_c1 : MConf := mc_set race_start "b" (mc_mem race_start) (MCalling race_create).
Definition created_out : MShared * Answer := mg_create_stream race_clock "s" race_config (mc_mem race_c1).
Definition race_c2 : MConf := mc_set race_c1 "b" created_out.1 (MDone race_create created_out.2).
Definition race_created : MConf := mc_set race_c2 "b" (mc_mem race_c2) (MReturned race_create created_out.2).
Definition race_c4 : MConf := mc_set race_created "a" (mc_mem race_created) (MCalling race_append).
Definition race_found : MConf := mc_set race_c4 "a" (mc_mem race_c4) (MFound race_append 0).
Definition race_c6 : MConf := mc_set race_found "b" (mc_mem race_found) (MCalling race_delete).
Definition deleted_out : MShared * Answer := mg_delete "s" (mc_mem race_c6).
Definition race_deleted : MConf := mc_set race_c6 "b" deleted_out.1 (MDone race_delete deleted_out.2).
Definition appended_out : Locked * Answer :=
  with_answer AnsAppend (append_locked 10 10 race_clock race_data "text/plain"
    (mkLocked (mg_total (mc_mem race_deleted)) race_entry)).
Definition race_c8 : MConf :=
  mc_set race_deleted "a" (mg_unlock (mc_mem race_deleted) 0 appended_out.1) (MDone race_append appended_out.2).
Definition race_over : MConf := mc_set race_c8 "a" (mc_mem race_c8) (MReturned race_append appended_out.2).

Definition created_trace : list MLabel :=
  (([] ++ [Seen (Invoke "b" race_create)]) ++ [Seen (Effect "b" race_create created_out.2)])
    ++ [Seen (Respond "b" race_create created_out.2)].
Definition deleted_trace : list MLabel :=
  (((created_trace ++ [Seen (Invoke "a" race_append)]) ++ [Quiet]) ++ [Seen (Invoke "b" race_delete)])
    ++ [Seen (Effect "b" race_delete deleted_out.2)].
Definition race_trace : list MLabel :=
  (deleted_trace ++ [Stale "a" race_append appended_out.2]) ++ [Seen (Respond "a" race_append appended_out.2)].

Ltac race_thread :=
  cbn [mc_threads mc_set race_start race_c1 race_c2 race_created race_c4 race_found race_c6 race_deleted race_c8];
  repeat (rewrite lookup_insert_ne by done); apply lookup_insert_eq.
Ltac race_free :=
  let H := fresh in
  intros ? ? ? H;
  cbn [mc_threads mc_set race_start race_c1 race_c2 race_created race_c4 race_found race_c6 race_deleted race_c8] in H;
  repeat (apply lookup_insert_Some in H as [[<- <-]|[_ H]]; [done|]); by rewrite lookup_empty in H.

Lemma race_start_ok : start_ok (mg_new 10 10).
Proof. apply mg_new_ok; unfold u64, two64; lia. Qed.

Lemma race_created_run : mem_steps race_start created_trace race_created.
Proof.
  apply (m_run_return _ _ race_c2 "b"); [|race_thread].
  apply (m_run_create _ _ race_c1 "b"); [|race_thread|race_free].
  apply (m_run_call _ _ race_start "b"); [constructor|done|done].
Qed.

Lemma race_free_of_created lock : lock_free race_created lock.
Proof. revert lock. race_free. Qed.

Lemma race_deleted_run : mem_steps race_start deleted_trace race_deleted.
Proof.
  apply (m_run_delete _ _ race_c6 "b"); [|race_thread|race_free].
  apply (m_run_call _ _ race_found "b"); [|vm_compute; reflexivity|done].
  apply (m_run_lookup _ _ race_c4 "a"); [|race_thread|race_free|by eexists|vm_compute; reflexivity].
  apply (m_run_call _ _ race_created "a"); [apply race_created_run|vm_compute; reflexivity|by split; [vm_compute|]].
Qed.

Lemma race_over_run : mem_steps race_start race_trace race_over.
Proof.
  apply (m_run_return _ _ race_c8 "a"); [|race_thread].
  apply (m_run_stale _ _ race_deleted "a" race_deleted_run race_append 0
    (fun l => with_answer AnsAppend (append_locked 10 10 race_clock race_data "text/plain" l)) race_entry);
    [race_thread|race_free|reflexivity|vm_compute; reflexivity|by split; vm_compute
    |vm_compute; reflexivity..].
Qed.

(** The bytes the append left in the counter belong to no stream. *)
Lemma race_over_leak : mconc_inv 10 race_over.
Proof.
  destruct (mem_steps_inv _ _ _ race_start_ok race_over_run) as (_ & leak & Hinv & _).
  pose proof (mx_total _ _ Hinv) as Ht.
  assert (mg_total (mc_mem race_over) = 10) as H1 by (vm_compute; reflexivity).
  assert (mapped_bytes (mc_mem race_over) = 0) as H2 by (vm_compute; reflexivity).
  assert (map_sum m_held (mc_threads race_over) = 0) as H3 by (vm_compute; reflexivity).
  rewrite H1, H2, H3 in Ht. assert (leak = 10) as -> by lia. done.
Qed.

(** C10: an append that a delete overtakes is acknowledged, lost, and charged for good. In a
    storage with room for ten bytes there is a run in which [a] gets the handle of a
    stream, [b] deletes the stream, and [a]'s append of ten bytes is then answered with
    success though no stream is left; its bytes stay in the counter however the run goes
    on, so that no stream of this storage ever holds a byte again. *)
Theorem memory_append_overtaken :
  exists tr c next, mem_steps (mkMConf (mg_new 10 10) ∅) tr c /\
    mc_threads c !! "a" = Some (MReturned race_append (AnsAppend (Ok next))) /\
    mem_exists race_clock "s" (flat (mc_mem c)) = false /\
    mapped_bytes (mc_mem c) = 0 /\ mg_total (mc_mem c) = 10 /\
    forall tr' c', mem_steps c tr' c' -> mapped_bytes (mc_mem c') = 0.
Proof.
  exists race_trace, race_over, (Offset_new 0 0).
  split; [apply race_over_run|]. split_and!; [vm_compute; reflexivity..|].
  intros tr' c' Hs. destruct (mem_steps_leak _ _ _ _ race_over_leak Hs) as (leak & Hle & Hinv & Hmax).
  destruct (m_total_bounds _ _ Hinv) as [Hb _]. pose proof (mx_total _ _ Hinv) as Ht. pose proof (mx_limit _ _ Hinv) as Hl.
  pose proof (m_held_le leak c' EmptyString Hinv). rewrite Hmax in Hl. change (mg_max_total (mc_mem race_over)) with 10 in Hl.
  lia.
Qed.

Lemma memory_linearizable_witness :
  overtaken "a" race_append deleted_trace /\
  m_linear (gview (mg_new 10 10)) race_trace (gview (mc_mem race_over)).
Proof.
  destruct (memory_linearizable (mg_new 10 10) _ _ race_start_ok race_over_run) as (Hl & _ & Ho).
  split; [|exact Hl]. apply (Ho deleted_trace "a" race_append appended_out.2
    [Seen (Respond "a" race_append appended_out.2)]). unfold race_trace. by rewrite <- app_assoc.
Defined.

Lemma memory_cap_concurrent_witness :
  mem_inv (flat (mc_mem race_created)) /\ mg_total (mc_mem race_over) <= mg_max_total (mc_mem race_over).
Proof.
  destruct (memory_cap_concurrent (mg_new 10 10) _ _ race_start_ok race_over_run) as [[_ Hle] _].
  destruct (memory_cap_concurrent (mg_new 10 10) _ _ race_start_ok race_created_run) as [_ Hinv].
  split; [apply Hinv|exact Hle].
  - by repeat constructor.
  - intros tid. cbn [mc_threads mc_set race_start race_c1 race_c2 race_created].
    rewrite !insert_insert_eq. destruct (decide (tid = "b")) as [->|Hne].
    + by rewrite lookup_insert_eq.
    + rewrite lookup_insert_ne by done. by rewrite lookup_empty.
Defined.

Lemma memory_call_alone_witness :
  exists tr c, mem_steps race_created tr c /\
    mc_threads c !! "a" = Some (MReturned race_append (AnsAppend (Ok (Offset_new 0 0)))) /\
    m_total_bytes (flat (mc_mem c)) = 10.
Proof.
  destruct (memory_call_alone (mg_new 10 10) _ race_created "a" race_append race_start_ok race_created_run)
    as (tr & c & Hs & Hth & Hflat).
  - vm_compute; reflexivity.
  - by split; [vm_compute|].
  - split_and!; [apply race_free_of_created|intros id _; apply race_free_of_created|].
    intros e He. assert (mg_entry (mc_mem race_created) "s" = Some race_entry) as Hs by (vm_compute; reflexivity).
    change (request_name race_append) with "s" in He. rewrite Hs in He. injection He as <-. by split; vm_compute.
  - exists tr, c. split; [exact Hs|]. rewrite Hth, Hflat. split; vm_compute; reflexivity.
Defined.
