(* ===== verification/HandlerProps.v ===== *)
(** * HandlerProps: what the HTTP interface guarantees

    Theorems on the handlers, for any backend that satisfies [LawfulStorage]
    where they do not need a particular one. *)

From S2P Require Import Prelude Errors Offsets RustStd Headers Cursor StorageCore JsonMode Sse.
From S2P Require Import Http WriteHandlers ReadHandlers LogSpec StorageTrace ProducerTrace.

Section Get.
Context {S : Type} `{!Storage.StorageOps S} `{!LawfulStorage S} `{!SerdeJson} `{!HttpLib}.

(** ** Entity tags *)

Lemma string_app_inj_l (p s t : string) : p +:+ s = p +:+ t -> s = t.
Proof. induction p as [|c p IH]; simpl; [done|]. intros [= Hs]. auto. Qed.

Lemma string_app_inj_len (s s' t t' : string) :
  String.length s = String.length s' -> s +:+ t = s' +:+ t' -> s = s' /\ t = t'.
Proof.
  revert s'. induction s as [|c s IH]; intros [|c' s'] Hl He; simpl in *; try done.
  injection He as -> He. injection Hl as Hl. by destruct (IH s' Hl He) as [-> ->].
Qed.

Lemma length_of_bytes b : String.length (of_bytes b) = length b.
Proof. induction b as [|c b IH]; [done|]. simpl. by f_equal. Qed.

Lemma length_as_str_tail msgs : String.length (as_str (tail_offset msgs)) = 33%nat.
Proof. cbn [tail_offset Offset_new as_str]. by rewrite length_of_bytes, length_encode_offset. Qed.

(** The tags of two reads with the same start are equal exactly if the reads end
    at the same offset and agree on being closed at the tail. *)
Lemma generate_etag_inj raw r r' msgs msgs' :
  rr_next_offset r = tail_offset msgs -> rr_next_offset r' = tail_offset msgs' ->
  generate_etag raw r = generate_etag raw r' ->
  as_str (tail_offset msgs) = as_str (tail_offset msgs').
Proof.
  intros Hr Hr'. unfold generate_etag. rewrite Hr, Hr'.
  destruct (rr_closed r && rr_at_tail r), (rr_closed r' && rr_at_tail r'); intros He;
    apply string_app_inj_l, string_app_inj_l, string_app_inj_l in He;
    apply string_app_inj_len in He as [He _]; try done; by rewrite !length_as_str_tail.
Qed.

(** *** Inversion of a catch-up read *)

Lemma build_data_response_ok r ct etag c (s s' : Server S) resp :
  build_data_response r ct etag c s = (s', Done (Ok resp)) ->
  exists body, build_body r ct = Ok body /\ resp_status resp = 200 /\
    resp_body resp = BytesBody body /\ get_header "etag" (resp_headers resp) = Some etag /\
    get_header STREAM_NEXT_OFFSET (resp_headers resp) = Some (as_str (rr_next_offset r)).
Proof.
  unfold build_data_response. intros Hh. do 7 h_step Hh. h_inv Hh.
  destruct (rr_closed r && rr_at_tail r); [h_step Hc0|]; h_inv Hc0;
    (destruct c as [c|]; [h_step Hc1|]); h_inv Hc1; exists x0; (split; [exact Hc|]);
    cbn [resp_status resp_body resp_headers]; split_and!; try done;
    by repeat (rewrite get_insert_header || (rewrite get_insert_header_ne by done)).
Qed.

Lemma build_304_response_ok r (s s' : Server S) resp :
  build_304_response r s = (s', Done (Ok resp)) -> resp_status resp = 304.
Proof. unfold build_304_response. intros Hh. do 2 h_step Hh. by h_inv Hh. Qed.

Lemma read_catch_up_ok clk name o raw inm ct (s s' : Server S) resp :
  read_catch_up clk name o raw inm ct s = (s', Done (Ok resp)) ->
  exists r, Storage.read clk name o (srv_storage s) = Ok r /\
    let etag := generate_etag raw r in
    if etag_matches inm etag then resp_status resp = 304
    else exists body, build_body r ct = Ok body /\ resp_status resp = 200 /\
           resp_body resp = BytesBody body /\
           get_header "etag" (resp_headers resp) = Some etag /\
           get_header STREAM_NEXT_OFFSET (resp_headers resp) = Some (as_str (rr_next_offset r)).
Proof.
  unfold read_catch_up. intros Hh. h_step Hh. eexists. split; [exact Hc|]. cbv zeta.
  destruct (etag_matches _ _); [by eapply build_304_response_ok|by eapply build_data_response_ok].
Qed.

Lemma tail_offset_inj msgs more : tail_offset msgs = tail_offset (msgs ++ more) -> more = [].
Proof.
  intros [= Hl _ _]. rewrite length_app in Hl. destruct more; [done|simpl in Hl; lia].
Qed.

(** C32: [304 Not Modified] is sound. If a catch-up GET answered 200 with an entity
    tag, and later calls neither deleted the stream nor found it expired, then
    whenever the same GET with that tag in [If-None-Match] answers 304, the GET
    without it would return the very same body: a cached copy is never stale. *)
Theorem not_modified_sound srv srv1 resp etag ops st c clk clk' name raw o ct m resp2 srv2 resp3 srv3 :
  backend_inv (srv_storage srv) -> from_str raw = Ok o ->
  Storage.head clk name (srv_storage srv) = Ok m ->
  read_catch_up clk name o raw None ct srv = (srv1, Done (Ok resp)) ->
  get_header "etag" (resp_headers resp) = Some etag ->
  history (srv_storage srv) ops st ->
  (forall op, op ∈ ops -> op_name op = name -> op_spares (sm_config m) op = true) ->
  read_catch_up clk' name o raw (Some etag) ct (mkServer st c) = (srv2, Done (Ok resp2)) ->
  resp_status resp2 = 304 ->
  read_catch_up clk' name o raw None ct (mkServer st c) = (srv3, Done (Ok resp3)) ->
  resp_status resp3 = 200 /\ resp_body resp3 = resp_body resp.
Proof.
  intros Hinv Hraw Hm Hg1 Htag Hh Hsp Hg2 H304 Hg3.
  assert (offset_wf o) as Hwf by (by apply from_str_inv in Hraw as [? _]).
  apply read_catch_up_ok in Hg1 as (r & Hr & b & Hb & _ & Hbody & Htag' & _).
  apply read_catch_up_ok in Hg2 as (r2 & Hr2 & Hg2).
  apply read_catch_up_ok in Hg3 as (r3 & Hr3 & b3 & Hb3 & Hs3 & Hbody3 & _ & _).
  simpl in Hr2, Hr3. rewrite Hr2 in Hr3. injection Hr3 as <-.
  rewrite Htag in Htag'. injection Htag' as ->. cbv zeta in Hg2.
  unfold etag_matches in Hg2. case_bool_decide as Heq; [|destruct Hg2 as (? & _ & ? & _); congruence].
  injection Heq as Heq. split; [done|]. rewrite Hbody3, Hbody. f_equal.
  assert (rr_messages r2 = rr_messages r) as Hmsgs; [|unfold build_body in *; rewrite Hmsgs in *; congruence].
  destruct (read_ok_live _ _ _ _ _ Hinv Hwf Hr) as [a Ha].
  destruct (history_ok _ _ _ Hh Hinv) as [Hinv' Hev].
  destruct (read_ok_live _ _ _ _ _ Hinv' Hwf Hr2) as [a2 Ha2].
  rewrite law_head in Hm by done. unfold spec_head in Hm. rewrite Ha in Hm. injection Hm as <-.
  rewrite (read_live _ _ _ _ _ Hinv Hwf Ha) in Hr. injection Hr as <-.
  rewrite (read_live _ _ _ _ _ Hinv' Hwf Ha2) in Hr2. injection Hr2 as <-.
  apply live_stream_ok in Ha as [Ha _], Ha2 as [Ha2 _].
  destruct (Hev name a Ha Hsp) as (a2' & Ha2' & [_ _ [more Hmore] _]).
  assert (a2' = a2) as -> by congruence.
  assert (tail_offset (a_msgs a) = tail_offset (a_msgs a2)) as Htail.
  { apply as_str_inj; [exact (law_bounded _ _ _ Hinv Ha)|exact (law_bounded _ _ _ Hinv' Ha2)|].
    refine (generate_etag_inj raw _ _ _ _ _ _ Heq); done. }
  rewrite Hmore in Htail. apply tail_offset_inj in Htail as ->. rewrite app_nil_r in Hmore.
  simpl. by rewrite Hmore.
Qed.
End Get.

(** ** Header values *)

Lemma visible_hex_digit d : 0 <= d < 16 -> (32 <=? byte_val (hex_digit d)) && (byte_val (hex_digit d) <=? 126) = true.
Proof.
  intros Hd. assert (Forall (fun d => (32 <=? byte_val (hex_digit d)) && (byte_val (hex_digit d) <=? 126) = true)
    (map Z.of_nat (seq 0 16))) as Hall by (by repeat constructor).
  rewrite Forall_forall in Hall. apply Hall. apply list_elem_of_In, in_map_iff.
  exists (Z.to_nat d). split; [lia|]. apply in_seq. lia.
Qed.

Lemma visible_encode_hex v : forallb (fun b => (32 <=? byte_val b) && (byte_val b <=? 126)) (encode_hex_16 v) = true.
Proof.
  unfold encode_hex_16. apply forallb_forall. intros b Hb. apply in_map_iff in Hb as (i & <- & _).
  apply visible_hex_digit. generalize (Z.shiftr v ((15 - Z.of_nat i) * 4)). intros x.
  change 15 with (Z.ones 4). rewrite Z.land_ones by lia. by apply Z.mod_pos_bound.
Qed.

(** Tail offsets are always valid header values. *)
Lemma visible_tail msgs : visible_ascii (as_str (tail_offset msgs)) = true.
Proof.
  unfold visible_ascii. cbn [tail_offset Offset_new as_str]. rewrite as_of_bytes.
  unfold encode_offset. rewrite !forallb_app, !visible_encode_hex. done.
Qed.

Section Post.
Context {S : Type} `{!Storage.StorageOps S} `{!LawfulStorage S} `{!SerdeJson}.
Context `{!HttpLib} `{!HttpLibLaws}.

Lemma with_next_offset_tail a h (s : Server S) :
  with_next_offset (a_next_offset a) h s =
  (s, Done (Ok (insert_header STREAM_NEXT_OFFSET (as_str (a_next_offset a)) h))).
Proof. unfold with_next_offset, h_bind. by rewrite bytes_value_visible by apply visible_tail. Qed.

Lemma with_header_visible name value h (s : Server S) :
  visible_ascii value = true ->
  with_header name value h s = (s, Done (Ok (insert_header name value h))).
Proof. intros Hv. unfold with_header, h_bind. by rewrite parse_value_visible. Qed.

(** How a plain append ended, as its client sees it, and what it did to the log. *)
Inductive post_outcome (name : string) (msgs : list bytes) (close : bool) (v v' : View)
  : Outcome Response -> Prop :=
  | post_appended a a' resp :
      v !! name = Some a -> v' !! name = Some a' -> a_msgs a' = a_msgs a ++ msgs ->
      (close = true -> a_closed a' = true) -> (msgs <> [] -> a_closed a = false) ->
      resp_status resp = 204 -> resp_body resp = NoBody ->
      get_header STREAM_NEXT_OFFSET (resp_headers resp) = Some (as_str (a_next_offset a')) ->
      get_header STREAM_CLOSED (resp_headers resp) = (if close then Some "true" else None) ->
      post_outcome name msgs close v v' (Done (Ok resp))
  | post_closed a' resp :
      v' !! name = Some a' -> untouched v v' name ->
      resp_status resp = 409 ->
      get_header STREAM_CLOSED (resp_headers resp) = Some "true" ->
      get_header STREAM_NEXT_OFFSET (resp_headers resp) = Some (as_str (a_next_offset a')) ->
      post_outcome name msgs close v v' (Done (Ok resp))
  | post_refused e :
      untouched v v' name -> post_outcome name msgs close v v' (Done (Err e))
  | post_not_closed a a1 e :
      close = true -> msgs <> [] -> v !! name = Some a -> a_msgs a1 = a_msgs a ++ msgs ->
      (forall a', v' !! name = Some a' -> same_log a1 a') ->
      post_outcome name msgs close v v' (Done (Err e)).

Lemma head_live s clk name :
  backend_inv s ->
  match Storage.head clk name s with
  | Ok m => exists a, view s !! name = Some a /\ sm_next_offset m = a_next_offset a
  | Err _ => True
  end.
Proof.
  intros Hinv. rewrite law_head by done. unfold spec_head.
  destruct (live_stream clk name (view s)) as [a|] eqn:Ha; [|done]. simpl.
  apply live_stream_ok in Ha as [Ha _]. eauto.
Qed.

(** The tail of [handle_non_producer_append], after the messages are in. *)
Lemma post_finish_outcome clk name msgs close v srv a a1 :
  backend_inv (srv_storage srv) ->
  v !! name = Some a -> view (srv_storage srv) !! name = Some a1 ->
  a_msgs a1 = a_msgs a ++ msgs -> (msgs = [] -> untouched v (view (srv_storage srv)) name) ->
  (msgs <> [] -> a_closed a = false) ->
  let '(srv', out) := finish_append clk name close (a_next_offset a1) srv in
  backend_inv (srv_storage srv') /\ post_outcome name msgs close v (view (srv_storage srv')) out.
Proof.
  intros Hinv Ha Ha1 Hm Hun Hopen. unfold finish_append. destruct close.
  - pose proof (close_effect (srv_storage srv) clk name Hinv) as Hc. unfold h_bind at 1, store.
    destruct (Storage.close_stream clk name (srv_storage srv)) as [st [[]|e]]; destruct Hc as [Hinv' Hc].
    + destruct Hc as (b & b' & Hb & Hb' & Hcl & Hbm). assert (b = a1) as -> by congruence.
      unfold h_bind. rewrite with_next_offset_tail, with_header_visible by done. split; [done|].
      apply (post_appended _ _ _ _ _ a b'); cbn [resp_headers resp_status resp_body];
        try done; [congruence|].
      rewrite get_insert_header_ne, get_insert_header by done. unfold a_next_offset. by rewrite Hbm.
    + split; [done|]. destruct (decide (msgs = [])) as [->|Hne].
      * apply post_refused. intros a' Ha'. destruct (Hc a' Ha') as (b & Hb & Hs).
        destruct (Hun eq_refl b Hb) as (a0 & ? & ?). exists a0. split; [done|]. by etrans.
      * apply (post_not_closed _ _ _ _ _ a a1); try done.
        intros a' Ha'. destruct (Hc a' Ha') as (b & Hb & Hs). congruence.
  - unfold h_bind. simpl. rewrite with_next_offset_tail. split; [done|].
    apply (post_appended _ _ _ _ _ a a1); simpl; try done.
Qed.

Lemma stream_closed_outcome clk name msgs close v srv :
  backend_inv (srv_storage srv) -> untouched v (view (srv_storage srv)) name ->
  let '(srv', out) := stream_closed_response clk name srv in
  backend_inv (srv_storage srv') /\ post_outcome name msgs close v (view (srv_storage srv')) out.
Proof.
  intros Hinv Hun. unfold stream_closed_response, h_bind, query.
  pose proof (head_live (srv_storage srv) clk name Hinv) as Hh.
  destruct (Storage.head clk name (srv_storage srv)) as [m|e]; [|split; [done|by apply post_refused]].
  destruct Hh as (a & Ha & ->). rewrite with_header_visible by done.
  rewrite with_next_offset_tail. split; [done|].
  apply (post_closed _ _ _ _ _ a); by simpl.
Qed.

(** A POST without producer headers does what its answer says. It never
    panics; 204 means the whole batch is at the tail, the stream is closed if that
    was asked, and [Stream-Next-Offset] is the new tail; 409 with [Stream-Closed]
    means nothing was appended and reports the tail; an error means nothing was
    appended, except that when the request asked to append and close, and closing
    fails after the append (the stream expired in between), the messages stay. *)
Theorem post_does_what_it_says clk clk_close clk_head name msgs ct close seq srv :
  backend_inv (srv_storage srv) -> fits (view (srv_storage srv)) name msgs ->
  let '(srv', out) :=
    handle_non_producer_append clk clk_close clk_head name msgs ct close seq srv in
  backend_inv (srv_storage srv') /\
  post_outcome name msgs close (view (srv_storage srv)) (view (srv_storage srv')) out.
Proof.
  intros Hinv Hfit. unfold handle_non_producer_append.
  assert (untouched (view (srv_storage srv)) (view (srv_storage srv)) name) as Hself
    by (intros a Ha; by exists a).
  destruct msgs as [|m0 msgs0].
  - pose proof (head_live (srv_storage srv) clk name Hinv) as Hh. unfold h_bind at 1, query.
    destruct (Storage.head clk name (srv_storage srv)) as [m|e]; [|split; [done|by apply post_refused]].
    destruct Hh as (a & Ha & ->). apply (post_finish_outcome _ _ _ _ _ _ a); try done.
    by rewrite app_nil_r.
  - set (all := m0 :: msgs0) in *. unfold h_bind at 1, try_store.
    pose proof (batch_append_effect (srv_storage srv) clk name all ct seq Hinv Hfit) as Hb.
    destruct (Storage.batch_append clk name all ct seq (srv_storage srv)) as [st [off|e]];
      destruct Hb as [Hinv' Hb].
    + destruct Hb as (a & a1 & Ha & Ha1 & Hc & _ & Hm & ->).
      by apply (post_finish_outcome _ _ _ _ _ (mkServer st (srv_cursor srv)) a).
    + destruct e; try (split; [done|by apply post_refused]).
      by apply (stream_closed_outcome _ _ _ _ _ (mkServer st (srv_cursor srv))).
Qed.

(** DELETE removes exactly the named stream. It answers 204 if and only if the
    stream was there and [NotFound] (404) otherwise; no other stream changes; and
    every valid GET that follows answers [NotFound]. *)
Theorem delete_then_gone name srv :
  backend_inv (srv_storage srv) ->
  let '(srv', out) := delete_stream name srv in
  backend_inv (srv_storage srv') /\
  view (srv_storage srv') = delete name (view (srv_storage srv)) /\
  out = (match view (srv_storage srv) !! name with
         | Some _ => Done (Ok (mkResponse 204 ∅ NoBody))
         | None => Done (Err (NotFound name))
         end) /\
  (forall clk clk1 clk2 q headers raw o,
     resolve_offset q = Ok raw -> from_str raw = Ok o ->
     read_stream clk clk1 clk2 name q headers srv' = (srv', Done (Err (NotFound name)))).
Proof.
  intros Hinv. unfold delete_stream, h_bind at 1, store.
  pose proof (law_delete (srv_storage srv) name Hinv) as Hl.
  destruct (Storage.delete name (srv_storage srv)) as [st r]. destruct Hl as [Hinv' Hl].
  assert (view st = delete name (view (srv_storage srv))) as Hv.
  { unfold spec_delete in Hl. destruct (view (srv_storage srv) !! name) eqn:Hn; injection Hl as -> _; [done|].
    symmetry. by apply delete_id. }
  assert (r = match view (srv_storage srv) !! name with Some _ => Ok tt | None => Err (NotFound name) end)
    as -> by (unfold spec_delete in Hl; by destruct (view (srv_storage srv) !! name); injection Hl as _ ->).
  assert (forall c clk clk1 clk2 q headers raw o, resolve_offset q = Ok raw -> from_str raw = Ok o ->
    read_stream clk clk1 clk2 name q headers (mkServer st c) =
    (mkServer st c, Done (Err (NotFound name)))) as Hget.
  { intros c clk clk1 clk2 q headers raw o Hraw Ho. unfold read_stream, h_bind, h_lift, query.
    rewrite Hraw, Ho. simpl. rewrite law_head by done. unfold spec_head, live_stream.
    by rewrite Hv, lookup_delete_eq. }
  destruct (view (srv_storage srv) !! name); simpl; split_and!; try done; intros; by eapply Hget.
Qed.
End Post.

(** ** PUT *)

Section Put.
Context {S : Type} `{!Storage.StorageOps S} `{!LawfulStorage S} `{!SerdeJson} `{!HttpLib} `{!HttpLibLaws}.

(** When the stream of a PUT at [now] expires: so many seconds from now, or at the
    given time, or never. *)
Definition put_expires_at (now : Z) (ttl exp : option Z) : option Z :=
  match ttl with
  | Some n => Some (now + Z.min n I64_MAX * NANOS_PER_SEC)
  | None => exp
  end.

(** What a PUT found or left at the name, and what it says about it. *)
Inductive put_outcome (clk : Clock) (name : string) (cfg : StreamConfig) (msgs : list bytes)
    (v v' : View) (resp : Response) : Prop :=
  | put_created a' :
      resp_status resp = 201 -> v' !! name = Some a' ->
      (forall a, v !! name = Some a -> is_stream_expired (clk 0%nat) (a_config a) = true) ->
      a_config a' = cfg -> a_msgs a' = msgs -> a_closed a' = created_closed cfg ->
      a_producers a' = ∅ ->
      get_header STREAM_NEXT_OFFSET (resp_headers resp) = Some (as_str (tail_offset msgs)) ->
      put_outcome clk name cfg msgs v v' resp
  | put_existed a a' :
      resp_status resp = 200 -> v !! name = Some a -> v' !! name = Some a' -> same_log a a' ->
      is_stream_expired (clk 0%nat) (a_config a) = false -> config_eq (a_config a) cfg = true ->
      get_header STREAM_NEXT_OFFSET (resp_headers resp) = Some (as_str (a_next_offset a)) ->
      put_outcome clk name cfg msgs v v' resp.

Lemma put_response_ok headers name ct r (s s' : Server S) resp :
  put_response headers name ct r s = (s', Done (Ok resp)) ->
  s' = s /\ resp_status resp = (match cw_status r with StreamCreated => 201 | StreamAlreadyExists => 200 end) /\
  get_header STREAM_NEXT_OFFSET (resp_headers resp) = Some (as_str (cw_next_offset r)) /\
  get_header "location" (resp_headers resp) = Some (build_location_url headers name).
Proof.
  unfold put_response. intros Hh. do 4 h_step Hh. h_inv Hh.
  destruct (cw_closed r); [h_step Hc|]; h_inv Hc; cbn [resp_status resp_headers]; split_and!; try done;
    by repeat (rewrite get_insert_header || (rewrite get_insert_header_ne by done)).
Qed.

Lemma put_config_ok now ct ttl exp closed (s s' : Server S) cfg :
  put_config now ct ttl exp closed s = (s', Done (Ok cfg)) ->
  s' = s /\ content_type cfg = ct /\ ttl_seconds cfg = ttl /\ created_closed cfg = closed /\
  expires_at cfg = put_expires_at now ttl exp.
Proof.
  unfold put_config. intros Hh. h_step Hh. h_inv Hh.
  destruct ttl as [ttl|]; [destruct (add_seconds _ _) as [t|] eqn:Ht; [|done]|destruct exp as [t|]];
    h_inv Hc; [|by destruct closed..].
  apply law_add_seconds in Ht as ->. cbn [put_expires_at].
  replace (Z.min ttl I64_MAX) with (if ttl <=? I64_MAX then ttl else I64_MAX); [by destruct closed|].
  destruct (Z.leb_spec ttl I64_MAX); lia.
Qed.

Lemma create_with_data_effect s s' clk name cfg msgs r :
  backend_inv s -> fits (view s) name msgs -> sized msgs ->
  Storage.create_stream_with_data clk name cfg msgs (created_closed cfg) s = (s', Ok r) ->
  backend_inv s' /\ forall resp,
  resp_status resp = (match cw_status r with StreamCreated => 201 | StreamAlreadyExists => 200 end) ->
  get_header STREAM_NEXT_OFFSET (resp_headers resp) = Some (as_str (cw_next_offset r)) ->
  put_outcome clk name cfg msgs (view s) (view s') resp.
Proof.
  intros Hinv Hfit Hsz Hrun.
  pose proof (law_create_with_data s clk name cfg msgs (created_closed cfg) Hinv Hfit Hsz) as Hl.
  rewrite Hrun in Hl. destruct Hl as (Hinv' & v0 & Hhk & [Hs|(_ & ? & ? & _)]); [|done].
  split; [done|]. intros resp Hst Hoff. revert Hs. unfold spec_create_with_data.
  destruct (live_stream clk name v0) as [a0|e] eqn:Ha0.
  - apply live_stream_ok in Ha0 as [Ha0 Hx]. destruct (config_eq (a_config a0) cfg) eqn:Hc; [|done].
    intros [= -> ->]. destruct (housekeeping_lookup _ _ _ _ _ Hhk Ha0) as (a & Ha & Hsame).
    rewrite Hsame in Hx, Hc. eapply (put_existed _ _ _ _ _ _ _ a a0); try done.
    rewrite Hoff. by rewrite Hsame.
  - intros [= -> ->]. eapply put_created; try done; [apply lookup_insert_eq|..]; try done.
    intros a Ha. destruct (is_stream_expired (clk 0%nat) (a_config a)) eqn:Hx; [done|]. exfalso.
    destruct (housekeeping_live clk name (view s) v0 a Hhk) as (b & Hb & _);
      [by apply live_stream_ok|congruence].
Qed.

(** C34: PUT creates the stream the request describes, or finds it. If it answers,
    the content type, the TTL and the messages are those the headers and the body stand
    for, the stream expires the given number of seconds from now, at the given time, or
    never, and the answer is 201 with the new log (exactly those
    messages, closed if asked, no producers) when no live stream had the name, or
    200 with the existing log untouched when one had it with an equal
    configuration; [Stream-Next-Offset] is the tail in both cases, and [Location]
    the URL of the stream. *)
Theorem put_creates_or_finds now clk name headers body srv srv' resp :
  backend_inv (srv_storage srv) ->
  (forall ct msgs, put_content_type headers = Ok ct -> put_messages ct body = Ok msgs ->
     fits (view (srv_storage srv)) name msgs /\ sized msgs) ->
  put_create_stream now clk name headers (Ok body) srv = (srv', Done (Ok resp)) ->
  exists ct ttl exp cfg msgs,
    put_content_type headers = Ok ct /\ put_expiration headers = Ok (ttl, exp) /\
    put_messages ct body = Ok msgs /\
    content_type cfg = ct /\ ttl_seconds cfg = ttl /\ expires_at cfg = put_expires_at now ttl exp /\
    created_closed cfg = closed_requested headers /\
    backend_inv (srv_storage srv') /\
    put_outcome clk name cfg msgs (view (srv_storage srv)) (view (srv_storage srv')) resp /\
    get_header "location" (resp_headers resp) = Some (build_location_url headers name).
Proof.
  intros Hinv Hfit Hh. unfold put_create_stream in Hh. h_step Hh. h_step Hh. h_step Hh.
  destruct x1 as [ttl exp]. apply h_bind_ok in Hh as (s1 & cfg & Hcfg & Hh).
  apply put_config_ok in Hcfg as (-> & Hct & Httl & Hcl & Hexp).
  apply h_bind_ok in Hh as (s3 & msgs & Hm & Hh). h_inv Hm.
  apply h_bind_ok in Hh as (s2 & r & Hst & Hh). apply store_ok in Hst as [Hst _].
  rewrite <- Hcl in Hst. apply put_response_ok in Hh as (-> & Hs & Hoff & Hloc).
  destruct (Hfit x0 msgs) as [Hfits Hsz]; [done..|].
  destruct (create_with_data_effect _ _ clk name cfg msgs r Hinv Hfits Hsz Hst) as [Hinv' Hput].
  exists x0, ttl, exp, cfg, msgs. split_and!; try done. by apply Hput.
Qed.
End Put.

(** ** POST with producer headers, and HEAD *)

Section Producer.
Context {S : Type} `{!Storage.StorageOps S} `{!LawfulStorage S} `{!SerdeJson} `{!HttpLib}.

Lemma with_header_ok name value h (s s' : Server S) h' :
  with_header name value h s = (s', Done (Ok h')) -> s' = s /\ h' = insert_header name value h.
Proof. unfold with_header. intros Hh. h_step Hh. by h_inv Hh. Qed.

Lemma with_next_offset_ok o h (s s' : Server S) h' :
  with_next_offset o h s = (s', Done (Ok h')) ->
  s' = s /\ h' = insert_header STREAM_NEXT_OFFSET (as_str o) h.
Proof. unfold with_next_offset. intros Hh. h_step Hh. by h_inv Hh. Qed.

(** A body that only builds header values never returns an error and leaves the
    server alone. *)
Definition builds {A} (c : HM S A) : Prop :=
  forall s, (c s).1 = s /\ (forall e, (c s).2 <> Done (Err e)).

Lemma builds_bind {A B} (c : HM S A) (k : A -> HM S B) :
  builds c -> (forall a, builds (k a)) -> builds (h_bind c k).
Proof.
  intros Hc Hk s. unfold h_bind. destruct (Hc s) as [Hs He].
  destruct (c s) as [s1 [[a|e]|]]; simpl in *; [subst s1; apply Hk|by destruct (He e)|done].
Qed.

Lemma builds_ret {A} (a : A) : builds (h_ret a).
Proof. by intros s. Qed.

Lemma builds_parse_value v : builds (parse_value v).
Proof. unfold parse_value. by destruct (hv_from_str v); intros s. Qed.

Lemma builds_bytes_value v : builds (bytes_value v).
Proof. unfold bytes_value. by destruct (hv_from_bytes v); intros s. Qed.

Lemma builds_with_header name value h : builds (with_header name value h).
Proof. apply builds_bind; [apply builds_parse_value|]. intros. apply builds_ret. Qed.

Lemma builds_with_next_offset o h : builds (with_next_offset o h).
Proof. apply builds_bind; [apply builds_bytes_value|]. intros. apply builds_ret. Qed.

Create HintDb builds.
#[local] Hint Resolve builds_bind builds_ret builds_with_header builds_with_next_offset : builds.

Lemma builds_producer_response close_only r : builds (producer_response close_only r).
Proof.
  unfold producer_response. destruct r as [e q o cl|e q o cl]; destruct cl; auto 10 with builds.
Qed.

Lemma stream_closed_response_server clk name (s : Server S) :
  (stream_closed_response clk name s).1 = s.
Proof.
  unfold stream_closed_response. unfold h_bind at 1, query.
  destruct (Storage.head clk name (srv_storage s)) as [m|]; [|done].
  match goal with |- (?c s).1 = s => assert (builds c) as Hb by auto 10 with builds; apply Hb end.
Qed.

(** What the refusals of [check_producer] say about the recorded state. *)
Lemma check_fenced existing p closed current e :
  check_producer existing p closed = Err (EpochFenced current e) ->
  exists st, existing = Some st /\ current = ps_epoch st /\ ph_epoch p < ps_epoch st.
Proof.
  unfold check_producer. intros Hc. repeat case_match; simplify_eq. eexists. split_and!; [done..|].
  by apply Z.ltb_lt.
Qed.

(** The sequence number the backend waits for, given what it has recorded. *)
Definition expected_seq (existing : option ProducerState) : Z :=
  match existing with Some st => add64 (ps_last_seq st) 1 | None => 0 end.

Lemma check_gap existing p closed expected actual :
  check_producer existing p closed = Err (SequenceGap expected actual) ->
  closed = false /\ expected = expected_seq existing /\ actual = ph_seq p /\ ph_seq p <> expected /\
  forall st, existing = Some st -> ps_epoch st = ph_epoch p.
Proof.
  unfold check_producer. intros Hc. repeat case_match; simplify_eq; cbn; split_and!; try done; try lia.
  intros st [= <-]. lia.
Qed.

Lemma check_closed existing p closed : check_producer existing p closed = Err StreamClosed -> closed = true.
Proof. unfold check_producer. intros Hc. by repeat case_match; simplify_eq. Qed.

Lemma check_duplicate existing p closed e q :
  check_producer existing p closed = Ok (CheckDuplicate e q) ->
  exists st, existing = Some st /\ e = ps_epoch st /\ q = ps_last_seq st.
Proof. unfold check_producer. intros Hc. repeat case_match; simplify_eq; eauto. Qed.

(** The [Stream-Closed] header of an answer that describes a log. *)
Definition closed_header (a : AStream) : option string := if a_closed a then Some "true" else None.

(** The answers to a producer request, with what each says about the log and about what
    the backend had recorded for the producer. *)
Inductive producer_answer (clk : Clock) (name : string) (msgs : list bytes) (p : ProducerHeaders)
    (close close_only : bool) (v v' : View) (resp : Response) : Prop :=
  | answer_accepted a a' :
      v !! name = Some a -> v' !! name = Some a' ->
      check_producer (recorded clk name (ph_id p) v) p false = Ok CheckAccept ->
      a_closed a = false -> a_msgs a' = a_msgs a ++ msgs -> a_closed a' = close ->
      a_producers a' !! ph_id p = Some (mkProducerState (ph_epoch p) (ph_seq p) (clk 2%nat)) ->
      resp_status resp = (if close_only then 204 else 200) ->
      get_header PRODUCER_EPOCH (resp_headers resp) = Some (u64_to_string (ph_epoch p)) ->
      get_header PRODUCER_SEQ (resp_headers resp) = Some (u64_to_string (ph_seq p)) ->
      get_header STREAM_NEXT_OFFSET (resp_headers resp) = Some (as_str (a_next_offset a')) ->
      get_header STREAM_CLOSED (resp_headers resp) = closed_header a' ->
      producer_answer clk name msgs p close close_only v v' resp
  | answer_duplicate a a' st :
      v !! name = Some a -> v' !! name = Some a' -> same_log a a' ->
      recorded clk name (ph_id p) v = Some st -> ps_epoch st = ph_epoch p -> ph_seq p <= ps_last_seq st ->
      resp_status resp = 204 ->
      get_header PRODUCER_EPOCH (resp_headers resp) = Some (u64_to_string (ph_epoch p)) ->
      get_header PRODUCER_SEQ (resp_headers resp) = Some (u64_to_string (ps_last_seq st)) ->
      get_header STREAM_NEXT_OFFSET (resp_headers resp) = Some (as_str (a_next_offset a')) ->
      get_header STREAM_CLOSED (resp_headers resp) = closed_header a' ->
      producer_answer clk name msgs p close close_only v v' resp
  | answer_closed a a' :
      v !! name = Some a -> v' !! name = Some a' -> same_log a a' -> a_closed a = true ->
      resp_status resp = 409 ->
      get_header STREAM_CLOSED (resp_headers resp) = Some "true" ->
      get_header STREAM_NEXT_OFFSET (resp_headers resp) = Some (as_str (a_next_offset a)) ->
      producer_answer clk name msgs p close close_only v v' resp
  | answer_fenced st :
      untouched v v' name ->
      recorded clk name (ph_id p) v = Some st -> ph_epoch p < ps_epoch st ->
      resp_status resp = 403 ->
      get_header PRODUCER_EPOCH (resp_headers resp) = Some (u64_to_string (ps_epoch st)) ->
      producer_answer clk name msgs p close close_only v v' resp
  | answer_gap a :
      untouched v v' name -> v !! name = Some a -> a_closed a = false ->
      (forall st, recorded clk name (ph_id p) v = Some st -> ps_epoch st = ph_epoch p) ->
      ph_seq p <> expected_seq (recorded clk name (ph_id p) v) ->
      resp_status resp = 409 ->
      get_header PRODUCER_EXPECTED_SEQ (resp_headers resp) =
        Some (u64_to_string (expected_seq (recorded clk name (ph_id p) v))) ->
      get_header PRODUCER_RECEIVED_SEQ (resp_headers resp) = Some (u64_to_string (ph_seq p)) ->
      producer_answer clk name msgs p close close_only v v' resp.

Ltac headers_done := by repeat (rewrite get_insert_header || (rewrite get_insert_header_ne by done)).

Lemma producer_response_ok close_only r (s s' : Server S) resp :
  producer_response close_only r s = (s', Done (Ok resp)) ->
  s' = s /\
  let '(st, e, q, o, c) := match r with
                        | Accepted e q o c => (if close_only then 204 else 200, e, q, o, c)
                        | Duplicate e q o c => (204, e, q, o, c)
                        end in
  resp_status resp = st /\
  get_header PRODUCER_EPOCH (resp_headers resp) = Some (u64_to_string e) /\
  get_header PRODUCER_SEQ (resp_headers resp) = Some (u64_to_string q) /\
  get_header STREAM_NEXT_OFFSET (resp_headers resp) = Some (as_str o) /\
  get_header STREAM_CLOSED (resp_headers resp) = if c then Some "true" else None.
Proof.
  unfold producer_response. intros Hh. destruct r as [e q o cl|e q o cl];
    (apply h_bind_ok in Hh as (s1 & h1 & H1' & Hh); apply with_next_offset_ok in H1' as [-> ->];
     apply h_bind_ok in Hh as (s2 & h2 & H2' & Hh); apply with_header_ok in H2' as [-> ->];
     apply h_bind_ok in Hh as (s3 & h3 & H3' & Hh); apply with_header_ok in H3' as [-> ->];
     apply h_bind_ok in Hh as (s4 & h4 & H4' & Hh); h_inv Hh;
     assert (s4 = s) as -> by (destruct cl; [by apply with_header_ok in H4' as [-> _]|by h_inv H4']);
     split; [done|]; split; [done|];
     destruct cl; [apply with_header_ok in H4' as [_ ->]|apply h_ret_ok in H4' as [_ ->]];
     cbn [resp_headers]; split_and!; headers_done).
Qed.

Lemma stream_closed_response_ok clk name (s s' : Server S) resp :
  backend_inv (srv_storage s) ->
  stream_closed_response clk name s = (s', Done (Ok resp)) ->
  s' = s /\ resp_status resp = 409 /\ get_header STREAM_CLOSED (resp_headers resp) = Some "true" /\
  exists a, view (srv_storage s) !! name = Some a /\
    get_header STREAM_NEXT_OFFSET (resp_headers resp) = Some (as_str (a_next_offset a)).
Proof.
  intros Hinv. unfold stream_closed_response. intros Hh.
  apply h_bind_ok in Hh as (s1 & m & H1' & Hh). unfold query in H1'.
  rewrite law_head in H1' by done. unfold spec_head in H1'.
  destruct (live_stream clk name _) as [a|] eqn:Ha; [|done]. injection H1' as <- <-.
  apply live_stream_ok in Ha as [Ha _].
  apply h_bind_ok in Hh as (s2 & h2 & H2' & Hh). apply with_header_ok in H2' as [-> ->].
  apply h_bind_ok in Hh as (s3 & h3 & H3' & Hh). apply with_next_offset_ok in H3' as [-> ->].
  h_inv Hh. split_and!; [done..| |]; cbn [resp_headers]; [headers_done|]. exists a. split; [done|]. headers_done.
Qed.

(** An answer that only builds headers leaves the server alone. *)
Lemma built_answer (c : HM S Response) s s' r :
  c s = (s', Done r) -> builds c -> s' = s /\ exists resp, r = Ok resp /\ c s = (s, Done (Ok resp)).
Proof.
  intros Hrun Hc. destruct (Hc s) as [Hs Hn]. rewrite Hrun in Hs, Hn. cbn in Hs, Hn. subst s'.
  split; [done|]. destruct r as [resp|err]; [eauto|by destruct (Hn err)].
Qed.

(** The 200 and 204 answers. *)
Lemma accepted_or_duplicate clk name msgs p close (close_only : bool) seq (s : S) v' resp x a a' :
  view s !! name = Some a -> v' !! name = Some a' ->
  producer_effect msgs p close seq (clk 2%nat) a a' (Ok x) ->
  match x with
  | Accepted _ _ _ _ => decided clk name p (view s) (Ok CheckAccept)
  | Duplicate e q _ _ => decided clk name p (view s) (Ok (CheckDuplicate e q))
  end ->
  (let '(st, e, q, o, c) := match x with
                            | Accepted e q o c => (if close_only then 204 else 200, e, q, o, c)
                            | Duplicate e q o c => (204, e, q, o, c)
                            end in
   resp_status resp = st /\
   get_header PRODUCER_EPOCH (resp_headers resp) = Some (u64_to_string e) /\
   get_header PRODUCER_SEQ (resp_headers resp) = Some (u64_to_string q) /\
   get_header STREAM_NEXT_OFFSET (resp_headers resp) = Some (as_str o) /\
   get_header STREAM_CLOSED (resp_headers resp) = if c then Some "true" else None) ->
  producer_answer clk name msgs p close close_only (view s) v' resp.
Proof.
  intros Ha Ha' He Hd Hh.
  destruct x as [e q o cl|e q o cl]; destruct Hh as (Hst & Hep & Hsq & Hoff & Hc); cbn in He;
    destruct Hd as (b & Hb & Hck); assert (b = a) as -> by congruence.
  - destruct He as (-> & -> & -> & -> & Hop & Hcl & Hm & Hps). rewrite Hop in Hck.
    apply (answer_accepted _ _ _ _ _ _ _ _ _ a a'); try done. unfold closed_header. by rewrite Hcl.
  - destruct He as (Hs & -> & -> & -> & Hq). pose proof Hck as (st & Hst' & Hep' & ->)%check_duplicate.
    apply (answer_duplicate _ _ _ _ _ _ _ _ _ a a' st); try done; unfold closed_header; by rewrite Hs.
Qed.

(** C33: a POST with producer headers reports exactly what happened and why. 200 (204 for a
    close-only request) means the request was the producer's next one: the whole batch was
    appended to an open stream, the producer's state is the request's epoch and sequence,
    which the answer echoes. 204 for a sequence the recorded state covers means a
    duplicate and an unchanged log, with the recorded sequence. In both, [Stream-Next-Offset]
    and [Stream-Closed] are those of the log afterwards. 409 with [Stream-Closed] means the
    stream was closed, with its tail; 403 that the recorded epoch, which it carries, is later;
    409 otherwise a gap, with the sequence the recorded state waits for and the one received.
    These, and every error, leave the log as it was. *)
Theorem producer_post_reports clk clk_head name msgs ct p close close_only seq srv srv' r :
  backend_inv (srv_storage srv) -> fits (view (srv_storage srv)) name msgs ->
  handle_producer_append clk clk_head name msgs ct p close close_only seq srv = (srv', Done r) ->
  backend_inv (srv_storage srv') /\
  match r with
  | Ok resp => producer_answer clk name msgs p close close_only
                 (view (srv_storage srv)) (view (srv_storage srv')) resp
  | Err _ => untouched (view (srv_storage srv)) (view (srv_storage srv')) name
  end.
Proof.
  intros Hinv Hfit. unfold handle_producer_append, h_bind at 1, try_store.
  pose proof (append_with_producer_effect (srv_storage srv) clk name msgs ct p close seq Hinv Hfit) as He.
  pose proof (producer_decided (srv_storage srv) clk name msgs ct p close seq Hinv Hfit) as Hd.
  destruct (Storage.append_with_producer _ _ _ _ _ _ _ _) as [st [x|e]]; destruct He as [Hinv' He]; cbn in Hd.
  - destruct He as (a & a' & Ha & Ha' & He). intros Hh. destruct r as [resp|err].
    + apply producer_response_ok in Hh as [-> Hh]. split; [done|].
      by apply (accepted_or_duplicate clk name msgs p close close_only seq _ _ resp x a a').
    + exfalso. pose proof (builds_producer_response close_only x (mkServer st (srv_cursor srv))) as [_ Hn].
      apply (Hn err). by rewrite Hh.
  - destruct e; try (intros Hh; injection Hh as <- <-; split; done); cbn in Hinv', He; intros Hh.
    + pose proof (stream_closed_response_server clk_head name (mkServer st (srv_cursor srv))) as Hs.
      rewrite Hh in Hs. simpl in Hs. subst srv'. split; [done|]. destruct r as [resp|]; [|done].
      apply stream_closed_response_ok in Hh as (_ & Hst & Hcl & a' & Ha' & Hoff); [|done].
      destruct (He a' Ha') as (a & Ha & Hs). destruct Hd as (b & Hb & Hck%check_closed). assert (b = a) as -> by congruence.
      rewrite Hs in Hoff. by apply (answer_closed _ _ _ _ _ _ _ _ _ a a').
    + apply built_answer in Hh as (-> & resp & -> & Hh); [|auto 10 with builds]. split; [done|].
      apply h_bind_ok in Hh as (s1 & h1 & H1' & Hh). apply with_header_ok in H1' as [-> ->].
      apply h_bind_ok in Hh as (s2 & h2 & H2' & Hh). apply with_header_ok in H2' as [-> ->].
      apply h_ret_ok in Hh as [_ ->]. destruct Hd as (a & Ha & (Hop & -> & -> & Hne & Hep)%check_gap).
      apply (answer_gap _ _ _ _ _ _ _ _ _ a); try done; cbn [resp_headers]; headers_done.
    + apply built_answer in Hh as (-> & resp & -> & Hh); [|auto 10 with builds]. split; [done|].
      apply h_bind_ok in Hh as (s1 & h1 & H1' & Hh). apply with_header_ok in H1' as [-> ->].
      apply h_ret_ok in Hh as [_ ->]. destruct Hd as (a & Ha & (st' & Hst & -> & Hlt)%check_fenced).
      apply (answer_fenced _ _ _ _ _ _ _ _ _ st'); try done.
Qed.

(** A positive number of whole seconds. *)
Lemma num_seconds_pos t now :
  (0 <? num_seconds t now) = (NANOS_PER_SEC <=? t - now) /\
  (NANOS_PER_SEC <= t - now -> num_seconds t now = (t - now) / NANOS_PER_SEC).
Proof.
  unfold num_seconds, NANOS_PER_SEC. generalize (t - now). intros d. split.
  - destruct (Z.leb_spec 1000000000 d), (Z.ltb_spec 0 (Z.quot d 1000000000)); try done; exfalso.
    + rewrite Z.quot_div_nonneg in * by lia. pose proof (Z.div_le_lower_bound d 1000000000 1). lia.
    + destruct (Z.le_gt_cases 0 d).
      * rewrite Z.quot_small in * by lia. lia.
      * pose proof (Z.quot_opp_l d 1000000000 ltac:(lia)).
        pose proof (Z.quot_pos (- d) 1000000000 ltac:(lia) ltac:(lia)). lia.
  - intros Hd. apply Z.quot_div_nonneg; lia.
Qed.

(** HEAD reports the stream. If it answers 200, the stream is there;
    [Stream-Next-Offset] is its tail, [Content-Type] its content type,
    [Stream-Closed] is present exactly if it is closed, and [Stream-TTL] exactly if
    a full second of its life is left, with the whole seconds that remain. *)
Theorem head_reports_log now clk name srv srv' resp :
  backend_inv (srv_storage srv) ->
  stream_metadata now clk name srv = (srv', Done (Ok resp)) ->
  srv' = srv /\ resp_status resp = 200 /\
  exists a, view (srv_storage srv) !! name = Some a /\
    get_header "content-type" (resp_headers resp) = Some (content_type (a_config a)) /\
    get_header STREAM_NEXT_OFFSET (resp_headers resp) = Some (as_str (a_next_offset a)) /\
    get_header STREAM_CLOSED (resp_headers resp) = (if a_closed a then Some "true" else None) /\
    get_header STREAM_TTL (resp_headers resp) =
      (match expires_at (a_config a) with
       | Some t => if NANOS_PER_SEC <=? t - now
                   then Some (u64_to_string ((t - now) / NANOS_PER_SEC)) else None
       | None => None
       end).
Proof.
  intros Hinv Hh. unfold stream_metadata in Hh. h_step Hh. rewrite law_head in Hc by done.
  unfold spec_head in Hc. destruct (live_stream clk name (view (srv_storage srv))) as [a|] eqn:Ha; [|done].
  injection Hc as <-. cbn [sm_config sm_next_offset sm_closed] in Hh. apply live_stream_ok in Ha as [Ha _].
  h_step Hh. h_step Hh.
  apply h_bind_ok in Hh as (s1 & h1 & H1' & Hh). apply h_bind_ok in Hh as (s2 & h2 & H2' & Hh). h_inv Hh.
  assert (s1 = srv /\ h1 = (let h := insert_header STREAM_NEXT_OFFSET (as_str (a_next_offset a))
      (insert_header "content-type" (content_type (a_config a)) ∅) in
      if a_closed a then insert_header STREAM_CLOSED "true" h else h)) as [-> ->].
  { destruct (a_closed a); [h_step H1'|]; by apply h_ret_ok in H1' as [-> ->]. }
  destruct (expires_at (a_config a)) as [t|] eqn:Hexp.
  - destruct (num_seconds_pos t now) as [Hpos Hdiv]. rewrite Hpos in H2'.
    destruct (Z.leb_spec NANOS_PER_SEC (t - now)) as [Hle|Hgt].
    + do 2 h_step H2'. apply h_ret_ok in H2' as [-> ->]. rewrite Hdiv by done. split_and!; [done..|].
      exists a. rewrite Hexp, (proj2 (Z.leb_le _ _)) by done.
      destruct (a_closed a); cbn [resp_headers]; split_and!; headers_done.
    + apply h_ret_ok in H2' as [-> ->]. split_and!; [done..|]. exists a. rewrite Hexp.
      rewrite (proj2 (Z.leb_gt _ _)) by done.
      destruct (a_closed a); cbn [resp_headers]; split_and!; headers_done.
  - apply h_ret_ok in H2' as [-> ->]. split_and!; [done..|]. exists a. rewrite Hexp.
    destruct (a_closed a); cbn [resp_headers]; split_and!; headers_done.
Qed.
End Producer.
