(* ===== verification/HandlerRuns.v ===== *)
(** * HandlerRuns: requests on the in-memory server

    The theorems on the handlers at work on concrete requests, and three
    behaviours of the handlers that a client may not expect. *)

From S2P Require Import Prelude Errors Offsets RustStd Headers Cursor StorageCore JsonMode Sse.
From S2P Require Import Http WriteHandlers ReadHandlers LogSpec StorageTrace SseStream.
From S2P Require Import MemoryStorage MemoryRefinement MemoryProps HandlerProps.

(** ** A concrete library *)

(** Header values are visible ASCII; times end where [chrono]'s [DateTime<Utc>]
    does (the last second of the year 262142). *)
#[export] Instance strict_http : HttpLib := {|
  hv_from_str := visible_ascii;
  hv_from_bytes := visible_ascii;
  parse_datetime _ := Err "input contains invalid characters";
  add_seconds now n :=
    if now + n * NANOS_PER_SEC <=? 8210266876799 * NANOS_PER_SEC
    then Some (now + n * NANOS_PER_SEC) else None;
  to_rfc3339 _ := "1970-01-01T00:00:00+00:00"
|}.

#[export] Instance strict_http_laws : HttpLibLaws.
Proof. split; [done..|]. intros now n t. cbn. destruct (_ <=? _); [by intros [= <-]|done]. Qed.

#[export] Existing Instance Digits.json.

(** ** Requests *)

Definition text_headers : HeaderMap :=
  fun n => if decide (n = "content-type") then Some "text/plain" else None.
Definition ttl_headers : HeaderMap :=
  fun n => if decide (n = STREAM_TTL) then Some "9223372036854775807" else text_headers n.

Definition empty_server : Server InMemoryStorage := mkServer (InMemoryStorage_new 100 10) 0.

Definition put (name text : string) : HM InMemoryStorage Response :=
  put_create_stream 1000 run_clock name text_headers (Ok (as_bytes text)).
Definition get_all (if_none_match : option string) : HM InMemoryStorage Response :=
  read_catch_up run_clock "s" Start "-1" if_none_match "text/plain".

(** The server with a stream of one message, and the same after the stream was
    deleted and created again with another message of the same length. *)
Definition server_aa : Server InMemoryStorage := (put "s" "aa" empty_server).1.
Definition server_bb : Server InMemoryStorage := (put "s" "bb" (delete_stream "s" server_aa).1).1.

Definition response_of {A} (x : Server InMemoryStorage * Outcome A) : option A :=
  match x.2 with Done (Ok r) => Some r | _ => None end.

(** An entity tag does not identify the stream, only positions in it. After
    DELETE and PUT, a stream with other content but messages of the same lengths
    has the same tag: the server answers 304 to the tag of the deleted stream
    although the body differs. *)
Theorem etag_blind_to_recreation :
  exists tag,
    (resp_headers <$> response_of (get_all None server_aa)) ≫= get_header "etag" = Some tag /\
    resp_body <$> response_of (get_all None server_aa) = Some (BytesBody (as_bytes "aa")) /\
    resp_status <$> response_of (get_all (Some tag) server_bb) = Some 304 /\
    resp_body <$> response_of (get_all None server_bb) = Some (BytesBody (as_bytes "bb")).
Proof. eexists. split; [vm_compute; reflexivity|]. split_and!; vm_compute; reflexivity. Qed.

(** A PUT whose (percent-decoded) stream name contains a control character
    panics when it builds the [Location] header, but only after the stream was
    created: the client sees no answer and the stream exists. *)
Theorem put_panics_after_create :
  let name := of_bytes [Byte.x61; Byte.x0a] in
  let '(srv, out) := put name "aa" empty_server in
  out = Panicked /\ mem_exists run_clock name (srv_storage srv) = true.
Proof. vm_compute. split; reflexivity. Qed.

(** A PUT with a TTL that [parse_ttl] accepts but the calendar cannot hold
    panics instead of being refused; no stream is created. *)
Theorem put_panics_on_large_ttl :
  is_ok (parse_ttl "9223372036854775807") = true /\
  put_create_stream 1000 run_clock "s" ttl_headers (Ok []) empty_server = (empty_server, Panicked).
Proof. split; vm_compute; reflexivity. Qed.

(** ** Witnesses *)

Lemma empty_server_inv : backend_inv (srv_storage empty_server).
Proof. apply mem_inv_new; apply u64_small; lia. Qed.

Lemma server_aa_inv : backend_inv (srv_storage server_aa).
Proof.
  refine (proj1 (run_op_ok (OpCreateWithData run_clock "s" (StreamConfig_new "text/plain")
                              [as_bytes "aa"] false) (srv_storage empty_server) _ _ _)).
  - apply empty_server_inv.
  - fits_run.
  - sized_run.
Qed.

Lemma put_creates_or_finds_witness :
  exists a', mem_view (srv_storage server_aa) !! "s" = Some a' /\ a_msgs a' = [as_bytes "aa"].
Proof.
  destruct (put_creates_or_finds 1000 run_clock "s" text_headers (as_bytes "aa") empty_server
    server_aa (default (mkResponse 0 ∅ NoBody) (response_of (put "s" "aa" empty_server))))
    as (ct & ttl & exp & cfg & msgs & Hct & _ & Hm & _ & _ & _ & _ & _ & Hout & _).
  - apply empty_server_inv.
  - intros ct msgs Hct Hm. vm_compute in Hct. injection Hct as <-. vm_compute in Hm.
    injection Hm as <-. split; [fits_run|sized_run].
  - vm_compute. reflexivity.
  - vm_compute in Hct. injection Hct as <-. vm_compute in Hm. injection Hm as <-.
    destruct Hout as [a' _ Ha' _ _ Hmsgs _ _ _|a a' Hst _ _ _ _ _ _].
    + exists a'. split; [exact Ha'|exact Hmsgs].
    + vm_compute in Hst. discriminate.
Defined.

Lemma not_modified_sound_witness :
  exists resp3 srv3, get_all None server_aa = (srv3, Done (Ok resp3)) /\
    resp_body resp3 = BytesBody (as_bytes "aa").
Proof.
  set (first := default (mkResponse 0 ∅ NoBody) (response_of (get_all None server_aa))).
  set (tag := default "" (get_header "etag" (resp_headers first))).
  exists first, server_aa. split; [vm_compute; reflexivity|].
  destruct (not_modified_sound server_aa server_aa first tag [] (srv_storage server_aa) 0
    run_clock run_clock "s" "-1" Start "text/plain"
    (mkStreamMetadata (StreamConfig_new "text/plain") (Offset_new 1 2) false 2 1 1000)
    (default (mkResponse 0 ∅ NoBody) (response_of (get_all (Some tag) server_aa))) server_aa
    first server_aa) as [_ Hb].
  - apply server_aa_inv.
  - vm_compute. reflexivity.
  - vm_compute. reflexivity.
  - vm_compute. reflexivity.
  - vm_compute. reflexivity.
  - constructor.
  - intros op Hin. by apply not_elem_of_nil in Hin.
  - vm_compute. reflexivity.
  - vm_compute. reflexivity.
  - vm_compute. reflexivity.
  - vm_compute. reflexivity.
Defined.

Lemma post_does_what_it_says_witness :
  let '(srv', out) := handle_non_producer_append run_clock run_clock run_clock "s" [as_bytes "bcd"]
                        "text/plain" true None server_aa in
  backend_inv (srv_storage srv') /\
  post_outcome "s" [as_bytes "bcd"] true (view (srv_storage server_aa)) (view (srv_storage srv')) out.
Proof.
  apply (post_does_what_it_says run_clock run_clock run_clock "s" [as_bytes "bcd"] "text/plain" true
           None server_aa).
  - apply server_aa_inv.
  - fits_run.
Defined.

Lemma delete_then_gone_witness : (delete_stream "s" server_aa).2 = Done (Ok (mkResponse 204 ∅ NoBody)).
Proof.
  pose proof (delete_then_gone "s" server_aa server_aa_inv) as H.
  destruct (delete_stream "s" server_aa) as [srv' out]. destruct H as (_ & _ & H & _).
  rewrite H. vm_compute. reflexivity.
Defined.

(** An SSE connection on an open stream, a batch by someone else, a wake-up. *)
Lemma sse_delivers_exactly_once_witness :
  exists pre a unread : list bytes,
    [as_bytes "aa"] = pre ++ [as_bytes "aa"] /\ a = pre ++ concat [[as_bytes "aa"]; [as_bytes "xyz"]] ++ unread.
Proof.
  set (js := fun _ : string => as_bytes "0"). set (b64 := fun b : bytes => b).
  set (r0 := mkReadResult [as_bytes "aa"] (Offset_new 1 2) true false).
  set (start := sse_start (S := InMemoryStorage) b64 js false false 0 0 r0 server_aa).
  set (op := OpBatchAppend run_clock "s" [as_bytes "xyz"] "text/plain" None).
  set (srv2 := mkServer (run_op op (srv_storage start.1)) 0 : Server InMemoryStorage).
  set (loop := mkSseLoop (Offset_new 1 2) None).
  set (out0 := match start.2 with Done (Ok (o, _)) => o | _ => [] end).
  set (round := sse_round (S := InMemoryStorage) b64 js false false 0 0 run_clock "s" Received loop srv2).
  set (res := match round.2 with Done (Ok x) => x | _ => ([], None) end).
  destruct (sse_delivers_exactly_once b64 js false false 0 "s"
    (default (new_stream run_clock run_config [] false) (view (srv_storage server_aa) !! "s"))
    run_clock Start 0 r0 server_aa start.1 out0 (Some loop)
    (mkConnection round.1 res.2 (out0 ++ res.1)
       ([[as_bytes "aa"]] ++ round_batch run_clock "s" Received loop (srv_storage srv2))))
    as (pre & a & unread & Hpre & _ & Hm & _).
  - intros s. solve_plain.
  - apply server_aa_inv.
  - exact I.
  - vm_compute. reflexivity.
  - vm_compute. reflexivity.
  - vm_compute. reflexivity.
  - eapply rtc_l; [apply (sse_env _ _ _ _ _ _ _ op _ _ _ _ 0); [fits_run|sized_run|intros _; vm_compute; reflexivity]|].
    eapply rtc_l; [|apply rtc_refl].
    refine (sse_wake _ _ _ _ _ _ _ 0 run_clock Received srv2 loop round.1 res.1 res.2 out0 [[as_bytes "aa"]] _ _).
    + exact I.
    + vm_compute. reflexivity.
  - exists pre, (a_msgs a), unread. split; [exact Hpre|].
    assert (round_batch run_clock "s" Received loop (srv_storage srv2) = [[as_bytes "xyz"]]) as Hb
      by (vm_compute; reflexivity).
    cbn [cn_batches] in Hm. rewrite Hb in Hm. exact Hm.
Defined.

(** A first producer request that also closes the stream. *)
Lemma producer_post_reports_witness :
  exists srv' resp,
    handle_producer_append run_clock run_clock "s" [as_bytes "bcd"] "text/plain"
      run_producer true false None server_aa = (srv', Done (Ok resp)) /\
    producer_answer run_clock "s" [as_bytes "bcd"] run_producer true false
      (mem_view (srv_storage server_aa)) (mem_view (srv_storage srv')) resp.
Proof.
  destruct (handle_producer_append run_clock run_clock "s" [as_bytes "bcd"] "text/plain"
              run_producer true false None server_aa) as [srv' out] eqn:Hrun.
  assert (exists resp, out = Done (Ok resp)) as [resp Hr].
  { apply (f_equal snd) in Hrun. cbn [snd] in Hrun. rewrite <- Hrun. eexists. vm_compute. reflexivity. }
  rewrite Hr in Hrun. exists srv', resp. split; [by rewrite Hr|].
  refine (proj2 (producer_post_reports run_clock run_clock "s" [as_bytes "bcd"] "text/plain" run_producer true
           false None server_aa srv' (Ok resp) _ _ _)); [apply server_aa_inv|fits_run|exact Hrun].
Defined.

Lemma head_reports_log_witness :
  exists a, mem_view (srv_storage server_aa) !! "s" = Some a /\
    Some "0000000000000001_0000000000000002" = Some (as_str (a_next_offset a)).
Proof.
  destruct (head_reports_log 1000 run_clock "s" server_aa server_aa
    (default (mkResponse 0 ∅ NoBody) (response_of (stream_metadata 1000 run_clock "s" server_aa))))
    as (_ & _ & a & Ha & _ & Hoff & _).
  - apply server_aa_inv.
  - vm_compute. reflexivity.
  - exists a. split; [exact Ha|]. rewrite <- Hoff. vm_compute. reflexivity.
Defined.
