(* ===== verification/FileRecords.v ===== *)
(** * FileRecords: the log format of src/storage/file.rs

    A stream of the file backend is an append-only log of records, a little-endian
    [u32] length followed by the payload. This file holds the record codec, the
    in-memory index over a log, the scan that rebuilds the index at start-up and the
    ranged read that serves a slice of the index. *)

From S2P Require Import Prelude Errors Offsets RustStd Headers StorageCore LogSpec.

(** ** Failing I/O *)

(** Which caller of [validate_stream_dir] a call site is in. *)
Inductive Caller := InCreate | InOpen | InMeta | InRemove | InLoad.

(** The call sites of system calls that can fail. *)
Inductive IoSite :=
  | CreateRoot | CanonicalizeRoot | ReadRoot | DirEntry
  | CreateDir | StatDir (c : Caller) | Canonicalize (c : Caller) | RemoveDir
  | OpenLog | StatNewLog
  | MetaWrite | MetaRename | ReadMeta
  | LogWrite | LogSync | StatLog
  | CloneHandle | SeekLog | ReadLog
  | StatRebuild | SeekRecord (cursor : Z) | ReadHeader (cursor : Z) | TruncateLog | SeekEnd
  | StatLoaded.

(** The outcome of the system calls of one operation: which fail, and what a
    failing one leaves behind: how many bytes of a log write or of a temporary
    file reached the disk, which files of a directory survive its removal. *)
Record Io : Type := mkIo {
  io_fails : IoSite -> bool;
  io_log_written : nat;
  io_tmp_written : nat;
  io_left : bool * bool * bool
}.

Definition io_ok : Io := mkIo (fun _ => false) 0 0 (true, true, true).

(** ** Records *)

Definition U32_MAX : Z := 4294967295.
(** [RECORD_HEADER_BYTES] *)
Definition RECORD_HEADER_BYTES : Z := 4.

(** [z as u8] *)
Definition byte_of (z : Z) : Byte.byte := default x00 (Byte.of_N (Z.to_N (z mod 256))).

(** [u32::to_le_bytes] and [u32::from_le_bytes] *)
Definition u32_to_le (n : Z) : bytes :=
  map (fun k => byte_of (Z.shiftr n (8 * k))) [0; 1; 2; 3].
Fixpoint u32_from_le (bs : bytes) : Z :=
  match bs with [] => 0 | b :: rest => byte_val b + Z.shiftl (u32_from_le rest) 8 end.

(** [u32::try_from(msg.len()).unwrap_or(u32::MAX)] *)
Definition len_u32 (msg : bytes) : Z :=
  if Z.of_nat (length msg) <=? U32_MAX then Z.of_nat (length msg) else U32_MAX.

(** The loop that fills [write_buf]. *)
Fixpoint encode_records (messages : list bytes) : bytes :=
  match messages with
  | [] => []
  | msg :: rest => u32_to_le (len_u32 msg) ++ msg ++ encode_records rest
  end.

(** [MessageIndex] *)
Record MessageIndex : Type := mkIndex {
  ix_offset : Offset;
  ix_file_pos : Z;
  ix_byte_len : Z
}.

(** ** Rebuilding the index *)

(** [file.read(&mut buf)] at a position of a regular file: as many of the [n]
    bytes as there are. *)
Definition file_read (log : bytes) (pos n : Z) : bytes :=
  take (Z.to_nat n) (drop (Z.to_nat pos) log).

(** [file.set_len(n)] for an [n] within the file. *)
Definition file_truncate (log : bytes) (n : Z) : bytes := take (Z.to_nat n) log.

(** The variables of the loop of [rebuild_index]. *)
Record Scan : Type := mkScan {
  sc_index : list MessageIndex;
  sc_read_seq : Z;
  sc_byte_offset : Z;
  sc_cursor : Z
}.

(** How a round of the loop ends: go on, break with the file as it is now, or
    return an error. *)
Inductive Round := RContinue (s : Scan) | RBreak (log : bytes) (s : Scan) | RFail (e : Error).

(** [file.set_len(cursor)?; break] *)
Definition truncate_and_break (io : Io) (log : bytes) (s : Scan) : Round :=
  if io_fails io TruncateLog then RFail (StorageError "failed to truncate partial record")
  else RBreak (file_truncate log (sc_cursor s)) s.

(** The body of [while cursor < file_len]. *)
Definition rebuild_round (io : Io) (file_len : Z) (log : bytes) (s : Scan) : Round :=
  let cursor := sc_cursor s in
  if io_fails io (SeekRecord cursor) then RFail (StorageError "failed to seek stream log")
  else if io_fails io (ReadHeader cursor) then
    RFail (StorageError "failed to read stream log header")
  else
    let header := file_read log cursor RECORD_HEADER_BYTES in
    let read := Z.of_nat (length header) in
    if read =? 0 then RBreak log s
    else if read <? RECORD_HEADER_BYTES then truncate_and_break io log s
    else
      let record_len := u32_from_le header in
      let record_end := add64 (add64 cursor RECORD_HEADER_BYTES) record_len in
      if file_len <? record_end then truncate_and_break io log s
      else RContinue (mkScan
        (sc_index s ++ [mkIndex (Offset_new (sc_read_seq s) (sc_byte_offset s))
                          (add64 cursor RECORD_HEADER_BYTES) record_len])
        (add64 (sc_read_seq s) 1) (add64 (sc_byte_offset s) record_len) record_end).

(** The loop; [None] when the fuel runs out. *)
Fixpoint rebuild_loop (fuel : nat) (io : Io) (file_len : Z) (log : bytes) (s : Scan)
  : option (bytes * Result Error Scan) :=
  if sc_cursor s <? file_len then
    match fuel with
    | O => None
    | S fuel =>
        match rebuild_round io file_len log s with
        | RContinue s => rebuild_loop fuel io file_len log s
        | RBreak log s => Some (log, Ok s)
        | RFail e => Some (log, Err e)
        end
    end
  else Some (log, Ok s).

(** [FileStorage::rebuild_index]: the file afterwards and the index with the next
    sequence and byte offset. *)
Definition rebuild_index (io : Io) (log : bytes)
  : option (bytes * Result Error (list MessageIndex * Z * Z)) :=
  if io_fails io StatRebuild then Some (log, Err (StorageError "failed to stat stream log"))
  else
    match rebuild_loop (length log) io (Z.of_nat (length log)) log (mkScan [] 0 0 0) with
    | None => None
    | Some (log, Err e) => Some (log, Err e)
    | Some (log, Ok s) =>
        if io_fails io SeekEnd then
          Some (log, Err (StorageError "failed to seek end of stream log"))
        else Some (log, Ok (sc_index s, sc_read_seq s, sc_byte_offset s))
    end.

(** ** Reading a slice of the index *)

(** [shared.slice(rel_start..rel_end)] *)
Definition bytes_slice (raw : bytes) (rel_start rel_end : Z) : bytes :=
  take (Z.to_nat (rel_end - rel_start)) (drop (Z.to_nat rel_start) raw).

(** The byte range of an index entry relative to the first one. *)
Definition rel_range (first_pos : Z) (idx : MessageIndex) : Z * Z :=
  let rel_start := saturating_sub64 (ix_file_pos idx) first_pos in
  (rel_start, add64 rel_start (ix_byte_len idx)).

(** [reader.read_exact(&mut raw)] after the seek. *)
Definition read_exact (io : Io) (log : bytes) (pos n : Z) : Result Error bytes :=
  let raw := file_read log pos n in
  if io_fails io ReadLog || negb (Z.of_nat (length raw) =? n)
  then Err (StorageError "failed to read message data") else Ok raw.

(** [FileStorage::read_messages], [log] being the contents of the file. *)
Definition read_messages (io : Io) (log : bytes) (index_slice : list MessageIndex)
  : Result Error (list bytes) :=
  match index_slice with
  | [] => Ok []
  | first :: _ =>
      if io_fails io CloneHandle then Err (StorageError "failed to clone stream file handle")
      else
        let first_pos := ix_file_pos first in
        let last := List.last index_slice first in
        let read_end := add64 (ix_file_pos last) (ix_byte_len last) in
        let read_len := saturating_sub64 read_end first_pos in
        if io_fails io SeekLog then Err (StorageError "failed to seek message data")
        else
          let? raw := read_exact io log first_pos read_len in
          Ok (map (fun idx => let '(a, b) := rel_range first_pos idx in bytes_slice raw a b)
                index_slice)
  end.

Example record_test :
  encode_records [[x61; x62]; []] = [x02; x00; x00; x00; x61; x62; x00; x00; x00; x00].
Proof. reflexivity. Qed.

Example rebuild_torn_test :
  rebuild_index io_ok ([x01; x00; x00; x00; x61] ++ [x05; x00; x00; x00; x62]) =
  Some ([x01; x00; x00; x00; x61], Ok ([mkIndex (Offset_new 0 0) 4 1], 1, 1)).
Proof. vm_compute. reflexivity. Qed.

(** ** The codec *)

Lemma byte_val_of z : byte_val (byte_of z) = z mod 256.
Proof.
  unfold byte_of, byte_val. pose proof (Z.mod_pos_bound z 256 ltac:(lia)).
  destruct (Byte.of_N (Z.to_N (z mod 256))) as [b|] eqn:Hb; simpl.
  - apply Byte.to_of_N in Hb. rewrite Hb. lia.
  - apply Byte.of_N_None_iff in Hb. lia.
Qed.

Lemma u32_roundtrip n : 0 <= n <= U32_MAX -> u32_from_le (u32_to_le n) = n.
Proof.
  intros Hn. unfold U32_MAX in Hn. unfold u32_to_le. cbn [map u32_from_le].
  rewrite !byte_val_of, !Z.shiftl_mul_pow2, !Z.shiftr_div_pow2 by lia.
  change (2 ^ (8 * 0)) with 1. change (2 ^ (8 * 1)) with 256. change (2 ^ (8 * 2)) with 65536.
  change (2 ^ (8 * 3)) with 16777216. change (2 ^ 8) with 256.
  Z.to_euclidean_division_equations. lia.
Qed.

Lemma u32_from_le_range bs : (length bs <= 4)%nat -> 0 <= u32_from_le bs <= U32_MAX.
Proof.
  intros Hl. assert (0 <= u32_from_le bs < 256 ^ Z.of_nat (length bs)) as Hb.
  { clear Hl. induction bs as [|b bs IH]; [done|]. cbn [u32_from_le length].
    rewrite Nat2Z.inj_succ, Z.pow_succ_r, Z.shiftl_mul_pow2 by lia. change (2 ^ 8) with 256.
    pose proof (Byte.to_N_bounded b). unfold byte_val. lia. }
  assert (256 ^ Z.of_nat (length bs) <= 256 ^ 4) by (apply Z.pow_le_mono_r; lia).
  unfold U32_MAX. lia.
Qed.

(** A message a record can hold. *)
Definition small (msg : bytes) : Prop := Z.of_nat (length msg) <= U32_MAX.

Lemma len_u32_small msg : small msg -> len_u32 msg = Z.of_nat (length msg).
Proof. intros Hs. unfold len_u32. by rewrite (proj2 (Z.leb_le _ _) Hs). Qed.

Lemma encode_records_app l1 l2 : encode_records (l1 ++ l2) = encode_records l1 ++ encode_records l2.
Proof. induction l1 as [|m l IH]; simpl; [done|]. by rewrite IH, !app_assoc. Qed.

Lemma encode_records_length msgs :
  Z.of_nat (length (encode_records msgs)) = RECORD_HEADER_BYTES * Z.of_nat (length msgs) + payload msgs.
Proof.
  unfold RECORD_HEADER_BYTES. induction msgs as [|m l IH]; simpl; [done|].
  rewrite !length_app. lia.
Qed.

Lemma byte_of_val b z : z mod 256 = byte_val b -> byte_of z = b.
Proof. intros Hz. unfold byte_of, byte_val in *. rewrite Hz, N2Z.id, Byte.of_to_N. done. Qed.

Lemma u32_to_from_le bs : length bs = 4%nat -> u32_to_le (u32_from_le bs) = bs.
Proof.
  intros Hl. do 5 (destruct bs as [|? bs]; try done). cbn [u32_from_le].
  unfold u32_to_le. cbn [map]. rewrite !Z.shiftl_mul_pow2, !Z.shiftr_div_pow2 by lia.
  change (2 ^ (8 * 0)) with 1. change (2 ^ (8 * 1)) with 256. change (2 ^ (8 * 2)) with 65536.
  change (2 ^ (8 * 3)) with 16777216. change (2 ^ 8) with 256.
  assert (forall b, 0 <= byte_val b < 256) as Hb
    by (intros b'; pose proof (Byte.to_N_bounded b'); unfold byte_val; lia).
  pose proof (Hb b). pose proof (Hb b0). pose proof (Hb b1). pose proof (Hb b2).
  repeat apply f_equal2; try done; apply byte_of_val; Z.to_euclidean_division_equations; lia.
Qed.

(** ** The scan *)

(** The index of a log that is exactly a list of records. *)
Fixpoint index_from (seq off pos : Z) (msgs : list bytes) : list MessageIndex :=
  match msgs with
  | [] => []
  | m :: rest =>
      let len := Z.of_nat (length m) in
      mkIndex (Offset_new seq off) (pos + RECORD_HEADER_BYTES) len
      :: index_from (seq + 1) (off + len) (pos + RECORD_HEADER_BYTES + len) rest
  end.

(** Bytes that do not begin with a complete record. *)
Definition torn (rest : bytes) : Prop :=
  Z.of_nat (length rest) < RECORD_HEADER_BYTES \/
  Z.of_nat (length rest) < RECORD_HEADER_BYTES + u32_from_le (take 4 rest).

Lemma file_read_at pre rest n :
  file_read (pre ++ rest) (Z.of_nat (length pre)) n = take (Z.to_nat n) rest.
Proof. unfold file_read. rewrite Nat2Z.id. by rewrite drop_app_length. Qed.

(** Every byte string is a list of records followed by a torn one, in one way. *)
Lemma records_decompose log :
  exists msgs rest, log = encode_records msgs ++ rest /\ Forall small msgs /\ torn rest.
Proof.
  induction log as [log IH] using (well_founded_induction (well_founded_ltof _ (@length _))).
  destruct (decide (Z.of_nat (length log) < 4)) as [Hs|Hs].
  { exists [], log. split_and!; [done|constructor|by left]. }
  set (n := u32_from_le (take 4 log)).
  destruct (decide (Z.of_nat (length log) < 4 + n)) as [Ht|Ht].
  { exists [], log. split_and!; [done|constructor|by right]. }
  assert (0 <= n <= U32_MAX) as Hn by (apply u32_from_le_range; rewrite length_take; lia).
  set (m := take (Z.to_nat n) (drop 4 log)).
  assert (Z.of_nat (length m) = n) as Hm by (unfold m; rewrite length_take, length_drop; lia).
  destruct (IH (drop (Z.to_nat n) (drop 4 log))) as (msgs & rest & Heq & Hall & Htorn).
  { unfold ltof. rewrite !length_drop. lia. }
  exists (m :: msgs), rest. split_and!; [|constructor; [unfold small; lia|done]|done].
  cbn [encode_records]. rewrite len_u32_small, Hm by (unfold small; lia).
  rewrite <- !app_assoc, <- Heq. unfold m. rewrite take_drop.
  rewrite <- (take_drop 4 log) at 1. f_equal. symmetry. apply u32_to_from_le.
  rewrite length_take. lia.
Qed.

Lemma u32_to_le_length n : length (u32_to_le n) = 4%nat.
Proof. done. Qed.

(** One complete record at the cursor is indexed and skipped. *)
Lemma rebuild_round_record s pre m tail :
  let log := pre ++ u32_to_le (len_u32 m) ++ m ++ tail in
  small m -> Z.of_nat (length log) <= ISIZE_MAX ->
  sc_cursor s = Z.of_nat (length pre) ->
  0 <= sc_read_seq s -> sc_read_seq s + 1 < two64 ->
  0 <= sc_byte_offset s -> sc_byte_offset s + Z.of_nat (length m) < two64 ->
  rebuild_round io_ok (Z.of_nat (length log)) log s =
  RContinue (mkScan
    (sc_index s ++ index_from (sc_read_seq s) (sc_byte_offset s) (sc_cursor s) [m])
    (sc_read_seq s + 1) (sc_byte_offset s + Z.of_nat (length m))
    (sc_cursor s + RECORD_HEADER_BYTES + Z.of_nat (length m))).
Proof.
  intros log Hm Hlog Hcur Hs1 Hs2 Ho1 Ho2. unfold rebuild_round, log. rewrite Hcur. cbn [io_fails io_ok].
  rewrite file_read_at, take_app_length' by done. rewrite u32_to_le_length.
  rewrite len_u32_small, u32_roundtrip by first [done | unfold small in Hm; lia].
  unfold log in Hlog. rewrite !length_app, u32_to_le_length in *. cbv beta zeta iota delta [RECORD_HEADER_BYTES] in *.
  unfold ISIZE_MAX, two64 in *. unfold small, U32_MAX in Hm.
  rewrite (add64_small (Z.of_nat (length pre))), !add64_small by (unfold two64; lia).
  change (Z.of_nat 4 =? 0) with false. change (Z.of_nat 4 <? 4) with false. cbv iota.
  rewrite (proj2 (Z.ltb_ge _ _)) by lia. done.
Qed.

(** A torn record at the cursor is cut off and ends the scan. *)
Lemma rebuild_round_torn s pre rest :
  let log := pre ++ rest in
  rest <> [] -> torn rest -> Z.of_nat (length log) <= ISIZE_MAX ->
  sc_cursor s = Z.of_nat (length pre) ->
  rebuild_round io_ok (Z.of_nat (length log)) log s = RBreak pre s.
Proof.
  intros log Hne Htorn Hlog Hcur. unfold rebuild_round, log, truncate_and_break. rewrite Hcur. cbn [io_fails io_ok].
  rewrite file_read_at. change (Z.to_nat RECORD_HEADER_BYTES) with 4%nat.
  assert (file_truncate (pre ++ rest) (Z.of_nat (length pre)) = pre) as ->.
  { unfold file_truncate. by rewrite Nat2Z.id, take_app_length. }
  rewrite length_take. assert (length rest <> 0)%nat by (by destruct rest).
  unfold torn, RECORD_HEADER_BYTES in *.
  destruct (Z.eqb_spec (Z.of_nat (4 `min` length rest)) 0); [lia|].
  destruct (Z.ltb_spec (Z.of_nat (4 `min` length rest)) 4); [done|].
  pose proof (u32_from_le_range (take 4 rest)) as Hr. rewrite length_take in Hr.
  specialize (Hr ltac:(lia)). unfold log in Hlog. rewrite length_app in *.
  unfold ISIZE_MAX, U32_MAX in *. rewrite (add64_small (Z.of_nat (length pre))), !add64_small by (unfold two64; lia).
  rewrite (proj2 (Z.ltb_lt _ _)) by lia. done.
Qed.

Lemma rebuild_loop_records msgs : forall fuel pre rest s,
  let log := pre ++ encode_records msgs ++ rest in
  Forall small msgs -> torn rest -> Z.of_nat (length log) <= ISIZE_MAX ->
  sc_cursor s = Z.of_nat (length pre) ->
  0 <= sc_read_seq s -> sc_read_seq s + Z.of_nat (length msgs) < two64 ->
  0 <= sc_byte_offset s -> sc_byte_offset s + payload msgs < two64 ->
  (length (encode_records msgs ++ rest) <= fuel)%nat ->
  rebuild_loop fuel io_ok (Z.of_nat (length log)) log s =
  Some (pre ++ encode_records msgs, Ok (mkScan
    (sc_index s ++ index_from (sc_read_seq s) (sc_byte_offset s) (sc_cursor s) msgs)
    (sc_read_seq s + Z.of_nat (length msgs)) (sc_byte_offset s + payload msgs)
    (sc_cursor s + Z.of_nat (length (encode_records msgs))))).
Proof.
  induction msgs as [|m msgs IH]; intros fuel pre rest s log Hall Htorn Hlog Hcur Hs1 Hs2 Ho1 Ho2 Hfuel.
  - cbn [encode_records app index_from length payload] in *. rewrite !Z.add_0_r, !app_nil_r.
    destruct s as [idx rs bo c]; cbn [sc_index sc_read_seq sc_byte_offset sc_cursor] in *.
    destruct rest as [|b rest].
    + destruct fuel; cbn [rebuild_loop sc_cursor]; subst log; rewrite app_nil_r, Hcur, Z.ltb_irrefl; done.
    + destruct fuel as [|fuel]; [simpl in Hfuel; lia|]. cbn [rebuild_loop sc_cursor].
      subst log. rewrite rebuild_round_torn by done.
      rewrite (proj2 (Z.ltb_lt _ _)); [done|]. rewrite length_app; simpl; lia.
  - inversion Hall as [|? ? Hm Hall']; subst. cbn [encode_records] in *.
    rewrite length_app, !length_app, u32_to_le_length in Hfuel. destruct fuel as [|fuel]; [lia|].
    pose proof (payload_nonneg msgs). cbn [payload length] in Hs2, Ho2.
    assert (log = pre ++ u32_to_le (len_u32 m) ++ m ++ (encode_records msgs ++ rest)) as Hl
      by (unfold log; by rewrite <- !app_assoc).
    cbn [rebuild_loop]. rewrite (proj2 (Z.ltb_lt _ _)).
    2:{ rewrite Hl, !length_app, u32_to_le_length. lia. }
    rewrite Hl in *. rewrite rebuild_round_record by first [done | lia].
    assert (pre ++ u32_to_le (len_u32 m) ++ m ++ encode_records msgs ++ rest =
            (pre ++ u32_to_le (len_u32 m) ++ m) ++ encode_records msgs ++ rest) as Hl2
      by by rewrite <- !app_assoc.
    rewrite Hl2 in *.
    specialize (IH fuel (pre ++ u32_to_le (len_u32 m) ++ m) rest (mkScan
      (sc_index s ++ index_from (sc_read_seq s) (sc_byte_offset s) (sc_cursor s) [m])
      (sc_read_seq s + 1) (sc_byte_offset s + Z.of_nat (length m))
      (sc_cursor s + RECORD_HEADER_BYTES + Z.of_nat (length m)))).
    cbn [sc_index sc_read_seq sc_byte_offset sc_cursor] in IH.
    rewrite IH; try done; try (rewrite ?length_app, ?u32_to_le_length in *; unfold RECORD_HEADER_BYTES; lia).
    f_equal. f_equal; [by rewrite <- !app_assoc|]. do 2 f_equal.
    + rewrite <- app_assoc. done.
    + cbn [length]. lia.
    + cbn [payload]. lia.
    + rewrite !length_app, u32_to_le_length. unfold RECORD_HEADER_BYTES. lia.
Qed.

(** The index of a log, and the log without its torn end. *)
Lemma rebuild_index_records msgs rest :
  let log := encode_records msgs ++ rest in
  Forall small msgs -> torn rest -> Z.of_nat (length log) <= ISIZE_MAX ->
  rebuild_index io_ok log =
  Some (encode_records msgs,
        Ok (index_from 0 0 0 msgs, Z.of_nat (length msgs), payload msgs)).
Proof.
  intros log Hall Htorn Hlog. unfold rebuild_index. cbn [io_fails io_ok].
  pose proof (encode_records_length msgs) as Hlen. unfold RECORD_HEADER_BYTES in Hlen.
  pose proof (payload_nonneg msgs).
  assert (Z.of_nat (length (encode_records msgs)) <= ISIZE_MAX)
    by (unfold log in Hlog; rewrite length_app in Hlog; lia).
  pose proof (rebuild_loop_records msgs (length log) [] rest (mkScan [] 0 0 0)) as Hloop.
  cbn [app sc_index sc_read_seq sc_byte_offset sc_cursor] in Hloop. fold log in Hloop.
  rewrite Hloop; try done; unfold ISIZE_MAX, two64 in *; lia.
Qed.

(** ** Termination of the scan *)

(** A round that goes on has moved past a header. *)
Lemma rebuild_round_advances io file_len log s s' :
  file_len <= ISIZE_MAX -> 0 <= sc_cursor s < file_len ->
  rebuild_round io file_len log s = RContinue s' ->
  sc_cursor s + RECORD_HEADER_BYTES <= sc_cursor s' <= file_len.
Proof.
  intros Hlen Hcur. unfold rebuild_round, truncate_and_break.
  pose proof (u32_from_le_range (file_read log (sc_cursor s) RECORD_HEADER_BYTES)) as Hr.
  unfold file_read in Hr at 1. rewrite length_take in Hr.
  specialize (Hr ltac:(unfold RECORD_HEADER_BYTES; lia)).
  unfold ISIZE_MAX, U32_MAX, RECORD_HEADER_BYTES in *.
  rewrite (add64_small (sc_cursor s)), (add64_small (sc_cursor s + 4)) by (unfold two64; lia).
  repeat case_match; intros; simplify_eq; simpl. lia.
Qed.

Lemma rebuild_loop_terminates fuel io file_len log s :
  file_len <= ISIZE_MAX -> 0 <= sc_cursor s ->
  file_len - sc_cursor s <= RECORD_HEADER_BYTES * Z.of_nat fuel ->
  is_Some (rebuild_loop fuel io file_len log s).
Proof.
  intros Hlen. revert s. induction fuel as [|fuel IH]; intros s Hcur Hfuel; cbn [rebuild_loop];
    (destruct (Z.ltb_spec (sc_cursor s) file_len); [|eauto]).
  - unfold RECORD_HEADER_BYTES in *. lia.
  - destruct (rebuild_round io file_len log s) as [s'|log' s'|e] eqn:Hr; [|eauto..].
    apply rebuild_round_advances in Hr; [|lia..]. apply IH; unfold RECORD_HEADER_BYTES in *; lia.
Qed.

(** The scan takes nothing from a log but its end. *)
Lemma rebuild_loop_prefix fuel io file_len log s log' r :
  rebuild_loop fuel io file_len log s = Some (log', r) -> log' `prefix_of` log.
Proof.
  revert s. induction fuel as [|fuel IH]; intros s; cbn [rebuild_loop]; destruct (sc_cursor s <? file_len);
    try done; try (by intros [= <- _]).
  destruct (rebuild_round io file_len log s) as [s'|log1 s'|e] eqn:Hr; [apply IH| |by intros [= <- _]].
  intros [= <- _]. revert Hr. unfold rebuild_round, truncate_and_break, file_truncate.
  repeat case_match; intros; simplify_eq; done || apply prefix_take.
Qed.

(** C27: the scan of a log at start-up terminates, and takes nothing but an end of it.
    Whatever bytes the file holds and whichever of the system calls fail, the loop of
    [rebuild_index] returns within one round per four bytes of the file: each round that
    goes on moves the cursor past at least a record header, because the record end cannot
    wrap. What it leaves in the file is a prefix of what it found. *)
Theorem rebuild_index_terminates io log :
  Z.of_nat (length log) <= ISIZE_MAX ->
  (exists log' r, rebuild_index io log = Some (log', r) /\ log' `prefix_of` log) /\
  forall fuel, Z.of_nat (length log) <= RECORD_HEADER_BYTES * Z.of_nat fuel ->
    is_Some (rebuild_loop fuel io (Z.of_nat (length log)) log (mkScan [] 0 0 0)).
Proof.
  intros Hlen.
  assert (forall fuel, Z.of_nat (length log) <= RECORD_HEADER_BYTES * Z.of_nat fuel ->
    is_Some (rebuild_loop fuel io (Z.of_nat (length log)) log (mkScan [] 0 0 0))) as Hloop
    by (intros fuel Hf; apply rebuild_loop_terminates; simpl; lia).
  split; [|exact Hloop]. unfold rebuild_index. destruct (io_fails io StatRebuild); [eauto|].
  destruct (Hloop (length log)) as [[log' r] Hr]; [unfold RECORD_HEADER_BYTES; lia|].
  rewrite Hr. apply rebuild_loop_prefix in Hr. destruct r as [s|e]; [destruct (io_fails io SeekEnd)|]; eauto.
Qed.

(** A log of two records, the second torn. *)
Definition demo_log : bytes := encode_records [[x61]; [x62; x63]] ++ [x09; x00; x00; x00; x64].

Lemma rebuild_index_terminates_witness :
  (exists log' r, rebuild_index io_ok demo_log = Some (log', r) /\ log' `prefix_of` demo_log) /\
  is_Some (rebuild_loop 4 io_ok 16 demo_log (mkScan [] 0 0 0)).
Proof.
  destruct (rebuild_index_terminates io_ok demo_log) as [H1 H2]; [vm_compute; discriminate|].
  split; [exact H1|]. apply (H2 4%nat). vm_compute. discriminate.
Defined.

(** ** Uniqueness of the decomposition *)

Lemma record_not_torn m tail : small m -> ~ torn (u32_to_le (len_u32 m) ++ m ++ tail).
Proof.
  intros Hm. unfold torn. rewrite take_app_length' by done. rewrite !length_app, u32_to_le_length.
  rewrite len_u32_small, u32_roundtrip by first [done | unfold small in Hm; lia].
  unfold RECORD_HEADER_BYTES. lia.
Qed.

Lemma record_head_inj m m' t t' :
  small m -> small m' ->
  u32_to_le (len_u32 m) ++ m ++ t = u32_to_le (len_u32 m') ++ m' ++ t' -> m = m' /\ t = t'.
Proof.
  intros Hm Hm' Heq. apply app_inj_1 in Heq as [Hh Heq]; [|done].
  apply (f_equal u32_from_le) in Hh.
  rewrite !len_u32_small, !u32_roundtrip in Hh by first [done | unfold small in *; lia].
  apply app_inj_1 in Heq; [done|lia].
Qed.

(** Records found in front of a log are the first of its complete records. *)
Lemma records_align msgs' : forall msgs rest rest',
  Forall small msgs -> Forall small msgs' -> torn rest ->
  encode_records msgs ++ rest = encode_records msgs' ++ rest' ->
  exists more, msgs = msgs' ++ more /\ rest' = encode_records more ++ rest.
Proof.
  induction msgs' as [|m' msgs' IH]; intros msgs rest rest' Hall Hall' Htorn Heq; [by exists msgs|].
  inversion Hall' as [|? ? Hm' Hall'']; subst. cbn [encode_records] in Heq.
  rewrite <- !app_assoc in Heq. destruct msgs as [|m msgs]; cbn [encode_records] in Heq.
  - rewrite app_nil_l in Heq. subst rest. by apply record_not_torn in Htorn.
  - inversion Hall as [|? ? Hm Hall3]; subst. rewrite <- !app_assoc in Heq.
    apply record_head_inj in Heq as [-> Heq]; [|done..].
    destruct (IH msgs rest rest' Hall3 Hall'' Htorn Heq) as (more & -> & ->). by exists more.
Qed.

(** C26: the record format is self-describing and a torn tail is harmless. Every byte
    string splits in exactly one way into complete records and a torn remainder; the
    scan recovers exactly the messages of the complete records, with the offsets they
    were given when they were appended, and cuts the remainder off. In particular a
    crash that leaves any prefix of an appended batch behind a log of acknowledged
    messages loses none of them and keeps a prefix of the batch. *)
Theorem rebuild_index_recovers log :
  Z.of_nat (length log) <= ISIZE_MAX ->
  exists msgs rest,
    log = encode_records msgs ++ rest /\ Forall small msgs /\ torn rest /\
    rebuild_index io_ok log =
      Some (encode_records msgs, Ok (index_from 0 0 0 msgs, Z.of_nat (length msgs), payload msgs)) /\
    (forall msgs' rest', log = encode_records msgs' ++ rest' -> Forall small msgs' ->
       (exists more, msgs = msgs' ++ more /\ encode_records more `prefix_of` rest') /\
       (torn rest' -> msgs' = msgs /\ rest' = rest)).
Proof.
  intros Hlen. destruct (records_decompose log) as (msgs & rest & -> & Hall & Htorn).
  exists msgs, rest. split_and!; [done..|by apply rebuild_index_records|].
  intros msgs' rest' Heq Hall'.
  destruct (records_align msgs' msgs rest rest' Hall Hall' Htorn Heq) as (more & -> & ->). split.
  - exists more. split; [done|]. by exists rest.
  - intros Htorn'. destruct more as [|m more]; [by rewrite !app_nil_r|exfalso].
    apply Forall_app in Hall as [_ Hmore]. inversion Hmore; subst.
    cbn [encode_records] in Htorn'. rewrite <- !app_assoc in Htorn'. by apply record_not_torn in Htorn'.
Qed.

Lemma rebuild_index_recovers_witness :
  rebuild_index io_ok demo_log =
    Some (encode_records [[x61]; [x62; x63]], Ok (index_from 0 0 0 [[x61]; [x62; x63]], 2, 3)).
Proof.
  destruct (rebuild_index_recovers demo_log) as (msgs & rest & _ & _ & _ & Hr & Hu);
    [vm_compute; discriminate|].
  destruct (Hu [[x61]; [x62; x63]] [x09; x00; x00; x00; x64]) as [_ Ht]; [done| |].
  { repeat constructor; unfold small, U32_MAX; simpl; lia. }
  destruct Ht as [<- <-]; [right; vm_compute; done|exact Hr].
Defined.

(** ** Ranged reads *)

(** The payload an index entry points to. *)
Definition slice_at (log : bytes) (idx : MessageIndex) : bytes :=
  file_read log (ix_file_pos idx) (ix_byte_len idx).

(** The entries lie one after the other between [lo] and [hi]. *)
Fixpoint well_placed (lo hi : Z) (index : list MessageIndex) : Prop :=
  match index with
  | [] => lo <= hi
  | idx :: rest =>
      lo <= ix_file_pos idx /\ 0 <= ix_byte_len idx /\
      well_placed (ix_file_pos idx + ix_byte_len idx) hi rest
  end.

Lemma well_placed_bounds lo hi index : well_placed lo hi index -> lo <= hi.
Proof. revert lo. induction index as [|idx index IH]; intros lo; simpl; [done|]. intros (? & ? & Hw%IH). lia. Qed.

Lemma well_placed_weaken lo lo' hi hi' index :
  well_placed lo hi index -> lo' <= lo -> hi <= hi' -> well_placed lo' hi' index.
Proof.
  revert lo lo'. induction index as [|idx index IH]; intros lo lo'; simpl; [lia|].
  intros (? & ? & Hw) ? ?. split_and!; [lia|lia|]. by eapply IH.
Qed.

Lemma well_placed_drop lo hi index i : 0 <= lo -> well_placed lo hi index -> well_placed 0 hi (drop i index).
Proof.
  revert lo index. induction i as [|i IH]; intros lo [|idx index] Hlo Hw; simpl in *.
  - lia.
  - destruct Hw as (? & ? & Hw). split_and!; [lia..|done].
  - lia.
  - destruct Hw as (? & ? & Hw). by eapply (IH (ix_file_pos idx + ix_byte_len idx)); [lia|].
Qed.

Lemma well_placed_app lo mid hi l1 l2 :
  well_placed lo mid l1 -> well_placed mid hi l2 -> well_placed lo hi (l1 ++ l2).
Proof.
  revert lo. induction l1 as [|idx l1 IH]; intros lo; simpl.
  - intros Hle Hw. by apply (well_placed_weaken mid lo hi hi); [|lia..].
  - intros (? & ? & Hw) Hw2. split_and!; [done..|]. by apply IH.
Qed.

Lemma last_default {A} (x : A) l d d' : List.last (x :: l) d = List.last (x :: l) d'.
Proof. revert x. induction l as [|y l IH]; intros x; [done|]. exact (IH y). Qed.

(** Where the last entry of a non-empty slice ends. *)
Definition slice_end (first : MessageIndex) (index : list MessageIndex) : Z :=
  let last := List.last index first in ix_file_pos last + ix_byte_len last.

Lemma well_placed_last lo hi first index :
  well_placed lo hi (first :: index) ->
  lo <= slice_end first (first :: index) <= hi /\
  well_placed lo (slice_end first (first :: index)) (first :: index).
Proof.
  revert lo first. induction index as [|idx index IH]; intros lo first Hw.
  - simpl in Hw. unfold slice_end. cbn [List.last well_placed]. lia.
  - destruct Hw as (Hlo & Hlen & Hw). destruct (IH _ _ Hw) as [Hb Hw'].
    assert (slice_end first (first :: idx :: index) = slice_end idx (idx :: index)) as ->.
    { unfold slice_end. change (List.last (first :: idx :: index) first) with (List.last (idx :: index) first).
      by rewrite (last_default idx index first idx). }
    split; [lia|]. exact (conj Hlo (conj Hlen Hw')).
Qed.

(** The ranges sliced out of one read lie inside it, so [Bytes::slice] cannot panic,
    and hold the payloads. *)
Lemma slices_in_range log first_pos hi lo index :
  0 <= first_pos <= lo -> hi <= Z.of_nat (length log) -> Z.of_nat (length log) <= ISIZE_MAX ->
  well_placed lo hi index ->
  Forall (fun idx => let '(a, b) := rel_range first_pos idx in
            0 <= a <= b /\ b <= hi - first_pos /\
            bytes_slice (file_read log first_pos (hi - first_pos)) a b = slice_at log idx) index.
Proof.
  intros Hfp Hhi Hmax. revert lo Hfp. induction index as [|idx index IH]; intros lo Hfp Hw; [constructor|].
  destruct Hw as (Hlo & Hlen & Hw). constructor; [|by eapply IH; [|exact Hw]; lia].
  apply well_placed_bounds in Hw. unfold rel_range, saturating_sub64.
  rewrite Z.max_r by lia. rewrite add64_small by (unfold ISIZE_MAX, two64 in *; lia).
  split_and!; [lia..|]. unfold bytes_slice, slice_at, file_read.
  rewrite skipn_firstn_comm, drop_drop, take_take. f_equal; [lia|]. f_equal. lia.
Qed.

(** A ranged read of well placed entries returns their payloads. *)
Lemma read_messages_spec io log index :
  io_fails io CloneHandle = false -> io_fails io SeekLog = false -> io_fails io ReadLog = false ->
  Z.of_nat (length log) <= ISIZE_MAX -> well_placed 0 (Z.of_nat (length log)) index ->
  read_messages io log index = Ok (map (slice_at log) index).
Proof.
  intros Hc Hs Hr Hmax Hw. unfold read_messages. destruct index as [|first index]; [done|].
  rewrite Hc, Hs. destruct (well_placed_last _ _ _ _ Hw) as [Hend Hw'].
  remember (slice_end first (first :: index)) as hi eqn:Hhi.
  assert (0 <= ix_file_pos first <= hi) as Hfp.
  { destruct Hw' as (? & ? & Hb%well_placed_bounds). lia. }
  assert (add64 (ix_file_pos (List.last (first :: index) first))
            (ix_byte_len (List.last (first :: index) first)) = hi) as ->.
  { rewrite Hhi. apply add64_small. fold (slice_end first (first :: index)). rewrite <- Hhi.
    unfold ISIZE_MAX, two64 in *. lia. }
  unfold saturating_sub64. rewrite Z.max_r by lia. unfold read_exact. rewrite Hr.
  assert (Z.of_nat (length (file_read log (ix_file_pos first) (hi - ix_file_pos first))) =
          hi - ix_file_pos first) as Hl.
  { unfold file_read. rewrite length_take, length_drop. lia. }
  rewrite Hl, Z.eqb_refl. cbn [negb orb result_bind]. f_equal.
  assert (well_placed (ix_file_pos first) hi (first :: index)) as Hw2.
  { destruct Hw' as (? & ? & ?). by split_and!. }
  pose proof (slices_in_range log (ix_file_pos first) hi (ix_file_pos first) (first :: index)
    ltac:(lia) ltac:(lia) Hmax Hw2) as Hall.
  apply map_ext_Forall. eapply Forall_impl; [exact Hall|]. intros idx Hx. cbv beta in *.
  destruct (rel_range (ix_file_pos first) idx) as [a b]. apply Hx.
Qed.
