(* ===== verification/FileStorage.v ===== *)
(** * FileStorage: src/storage/file.rs

    The file backend over a model of the directory it owns. [Disk] is the root
    directory: its entries by name, each stream directory with its log, its metadata
    file and the temporary file the metadata is written to. Every method takes the
    outcome of its system calls as an [Io]; what it did to the disk and to its own
    state before a failing call is kept. The file handle of an entry is the log in
    the directory of the entry. Error messages keep their fixed part. *)

From S2P Require Import Prelude Errors Offsets RustStd Headers StorageCore LogSpec.
From S2P Require Import FileRecords.

(** ** The disk *)

(** A stream directory: [data.log], [meta.json] and [meta.json.tmp], and how many bytes
    of the log a [sync_data] has made durable. *)
Record Dir : Type := mkDir {
  d_log : option bytes;
  d_meta : option bytes;
  d_tmp : option bytes;
  d_durable : nat
}.
Definition empty_dir : Dir := mkDir None None None 0.
Definition set_log (d : Dir) (log : bytes) : Dir := mkDir (Some log) (d_meta d) (d_tmp d) (d_durable d).
(** [sync_data] on the log. *)
Definition sync_dir (d : Dir) : Dir :=
  mkDir (d_log d) (d_meta d) (d_tmp d) (length (default [] (d_log d))).
(** The log cut down to a prefix. *)
Definition shrink_log (d : Dir) (log : bytes) : Dir :=
  mkDir (Some log) (d_meta d) (d_tmp d) (Nat.min (d_durable d) (length log)).

(** A directory entry; a symbolic link knows whether its target exists and is a
    directory. *)
Inductive Node := NDir (d : Dir) | NFile | NSymlink (target_is_dir : option bool).

(** The entries of the root directory. *)
Abbreviation Disk := (gmap string Node).

(** [Path::exists] and [Path::is_dir] follow links. *)
Definition node_exists (n : option Node) : bool :=
  match n with None | Some (NSymlink None) => false | _ => true end.
Definition node_is_dir (n : option Node) : bool :=
  match n with Some (NDir _) | Some (NSymlink (Some true)) => true | _ => false end.

(** A path is the list of its components. *)
Abbreviation Path := (list string).

Definition path_starts_with (p root : Path) : bool := bool_decide (root `prefix_of` p).
Definition path_strip_prefix (p root : Path) : option Path :=
  if path_starts_with p root then Some (drop (length root) p) else None.
(** [root.join(c)] for a [c] without separators. *)
Definition path_join (root : Path) (c : string) : Path :=
  if bool_decide (c = "") then root else root ++ [c].

(** ** Data *)

(** [StreamMeta] *)
Record StreamMeta : Type := mkMeta {
  fm_name : string;
  fm_config : StreamConfig;
  fm_closed : bool;
  fm_created_at : Z;
  fm_last_seq : option string;
  fm_producers : gmap string ProducerState
}.

(** [base64] and [serde_json], as far as this module uses them. *)
Class FileLib : Type := {
  base64url : bytes -> string;
  meta_to_vec : StreamMeta -> option bytes;
  meta_from_slice : bytes -> option StreamMeta
}.

(** What the module relies on: an encoding is decodable; a struct of strings, numbers
    and string-keyed maps always serializes, and is read back unchanged. *)
Class FileLibLaws (F : FileLib) : Prop := {
  base64url_inj b1 b2 : base64url b1 = base64url b2 -> b1 = b2;
  meta_serializes m : is_Some (meta_to_vec m);
  meta_roundtrip m p : meta_to_vec m = Some p -> meta_from_slice p = Some m
}.

(** [StreamEntry]; the log of [fe_dir] is its [file]. *)
Record FileEntry : Type := mkFileEntry {
  fe_config : StreamConfig;
  fe_index : list MessageIndex;
  fe_closed : bool;
  fe_next_read_seq : Z;
  fe_next_byte_offset : Z;
  fe_total_bytes : Z;
  fe_created_at : Z;
  fe_producers : gmap string ProducerState;
  fe_notify : Z;
  fe_last_seq : option string;
  fe_file_len : Z;
  fe_dir : Path
}.

(** The fields of [FileStorage] that never change. *)
Record FileSettings : Type := mkSettings {
  max_total_bytes : Z;
  max_stream_bytes : Z;
  root_dir : Path;
  root_dir_canonical : Path;
  sync_on_append : bool
}.

(** [FileStorage] with the directory it works on. *)
Record FileStorage : Type := mkFile {
  f_settings : FileSettings;
  f_streams : gmap string FileEntry;
  f_total_bytes : Z;
  f_disk : Disk
}.

(** Field updates. *)
Definition fe_set_closed (e : FileEntry) (b : bool) : FileEntry :=
  mkFileEntry (fe_config e) (fe_index e) b (fe_next_read_seq e) (fe_next_byte_offset e)
    (fe_total_bytes e) (fe_created_at e) (fe_producers e) (fe_notify e) (fe_last_seq e)
    (fe_file_len e) (fe_dir e).
Definition fe_set_producers (e : FileEntry) (p : gmap string ProducerState) : FileEntry :=
  mkFileEntry (fe_config e) (fe_index e) (fe_closed e) (fe_next_read_seq e)
    (fe_next_byte_offset e) (fe_total_bytes e) (fe_created_at e) p (fe_notify e)
    (fe_last_seq e) (fe_file_len e) (fe_dir e).
Definition fe_set_last_seq (e : FileEntry) (s : option string) : FileEntry :=
  mkFileEntry (fe_config e) (fe_index e) (fe_closed e) (fe_next_read_seq e)
    (fe_next_byte_offset e) (fe_total_bytes e) (fe_created_at e) (fe_producers e) (fe_notify e)
    s (fe_file_len e) (fe_dir e).
Definition fe_set_file_len (e : FileEntry) (n : Z) : FileEntry :=
  mkFileEntry (fe_config e) (fe_index e) (fe_closed e) (fe_next_read_seq e)
    (fe_next_byte_offset e) (fe_total_bytes e) (fe_created_at e) (fe_producers e) (fe_notify e)
    (fe_last_seq e) n (fe_dir e).
Definition fe_notify_send (e : FileEntry) : FileEntry :=
  mkFileEntry (fe_config e) (fe_index e) (fe_closed e) (fe_next_read_seq e)
    (fe_next_byte_offset e) (fe_total_bytes e) (fe_created_at e) (fe_producers e)
    (fe_notify e + 1) (fe_last_seq e) (fe_file_len e) (fe_dir e).

Definition fe_next_offset (e : FileEntry) : Offset :=
  Offset_new (fe_next_read_seq e) (fe_next_byte_offset e).

Definition set_disk (st : FileStorage) (d : Disk) : FileStorage :=
  mkFile (f_settings st) (f_streams st) (f_total_bytes st) d.

(** ** Stream directories *)

Definition is_ascii_alphanumeric (b : Byte.byte) : bool :=
  let n := byte_val b in
  ((48 <=? n) && (n <=? 57)) || ((65 <=? n) && (n <=? 90)) || ((97 <=? n) && (n <=? 122)).

(** [s.contains(p)] *)
Fixpoint contains_bytes (p s : bytes) : bool :=
  match strip_prefix p s with
  | Some _ => true
  | None => match s with [] => false | _ :: rest => contains_bytes p rest end
  end.

Section FileBackend.
Context {F : FileLib} (cfg : FileSettings).

(** [FileStorage::stream_dir_for_name] *)
Definition stream_dir_for_name (name : string) : Result Error Path :=
  let encoded := base64url (as_bytes name) in
  if contains_bytes (as_bytes "..") (as_bytes encoded) || contains_char encoded "/"
     || contains_char encoded "\"
  then Err (StorageError "encoded stream name contains path traversal characters")
  else if negb (forallb (fun c => is_ascii_alphanumeric c || bool_decide (c = "-"%byte)
                                  || bool_decide (c = "_"%byte)) (as_bytes encoded))
  then Err (StorageError "encoded stream directory contains invalid characters")
  else
    let dir := path_join (root_dir cfg) encoded in
    if negb (path_starts_with dir (root_dir cfg))
    then Err (StorageError "stream directory escapes storage root") else Ok dir.

(** [FileStorage::validate_stream_dir]; a directory of the root that is not a link
    has the canonical path of the root as its canonical parent. *)
Definition validate_stream_dir (io : Io) (caller : Caller) (dir : Path) (disk : Disk)
  : Result Error unit :=
  if negb (path_starts_with dir (root_dir cfg)) then Err (StorageError "path escapes storage root")
  else
    match path_strip_prefix dir (root_dir cfg) with
    | None => Err (StorageError "failed to validate storage path")
    | Some [c] =>
        if node_exists (disk !! c) then
          if io_fails io (StatDir caller) then
            Err (StorageError "failed to stat stream directory")
          else
            match disk !! c with
            | Some (NSymlink _) => Err (StorageError "stream directory cannot be a symlink")
            | Some (NDir _) =>
                if io_fails io (Canonicalize caller) then
                  Err (StorageError "failed to canonicalize stream directory")
                else if negb (path_starts_with (root_dir_canonical cfg ++ [c])
                                (root_dir_canonical cfg))
                then Err (StorageError "stream directory resolves outside storage root")
                else Ok tt
            | _ => Err (StorageError "stream path is not a directory")
            end
        else Ok tt
    | Some _ => Err (StorageError "invalid stream path depth")
    end.

(** The stream directory at a path of depth one, and its replacement. *)
Definition dir_key (dir : Path) : option string :=
  match path_strip_prefix dir (root_dir cfg) with Some [c] => Some c | _ => None end.
Definition lookup_dir (dir : Path) (disk : Disk) : option Dir :=
  match dir_key dir with
  | Some c => match disk !! c with Some (NDir d) => Some d | _ => None end
  | None => None
  end.
Definition update_dir (dir : Path) (d : Dir) (disk : Disk) : Disk :=
  match dir_key dir with Some c => <[c := NDir d]> disk | None => disk end.

(** The contents of the file an entry has open. *)
Definition log_of (dir : Path) (disk : Disk) : bytes :=
  match lookup_dir dir disk with Some d => default [] (d_log d) | None => [] end.

(** [fs::create_dir_all(&dir)] under an existing root. *)
Definition create_dir_all (io : Io) (dir : Path) : ST Disk Error unit :=
  fun disk =>
    if io_fails io CreateDir then (disk, Err (StorageError "failed to create stream directory"))
    else
      match path_strip_prefix dir (root_dir cfg) with
      | Some [c] =>
          match disk !! c with
          | None => (<[c := NDir empty_dir]> disk, Ok tt)
          | n => (disk, if node_is_dir n then Ok tt
                        else Err (StorageError "failed to create stream directory"))
          end
      | _ => (disk, Ok tt)
      end.

(** [FileStorage::write_metadata_for] *)
Definition write_metadata_for (io : Io) (name : string) (entry : FileEntry) : ST Disk Error unit :=
  fun disk =>
    match validate_stream_dir io InMeta (fe_dir entry) disk with
    | Err e => (disk, Err e)
    | Ok _ =>
        let meta := mkMeta name (fe_config entry) (fe_closed entry) (fe_created_at entry)
                      (fe_last_seq entry) (fe_producers entry) in
        match meta_to_vec meta with
        | None => (disk, Err (StorageError "failed to serialize stream metadata"))
        | Some payload =>
            match lookup_dir (fe_dir entry) disk with
            | None => (disk, Err (StorageError "failed to write metadata temp file"))
            | Some d =>
                if io_fails io MetaWrite then
                  (update_dir (fe_dir entry)
                     (mkDir (d_log d) (d_meta d) (Some (take (io_tmp_written io) payload)) (d_durable d)) disk,
                   Err (StorageError "failed to write metadata temp file"))
                else if io_fails io MetaRename then
                  (update_dir (fe_dir entry) (mkDir (d_log d) (d_meta d) (Some payload) (d_durable d)) disk,
                   Err (StorageError "failed to atomically replace metadata"))
                else (update_dir (fe_dir entry) (mkDir (d_log d) (Some payload) None (d_durable d)) disk, Ok tt)
            end
        end
    end.

(** [FileStorage::open_stream_file]: creates the log when there is none. *)
Definition open_stream_file (io : Io) (dir : Path) : ST Disk Error unit :=
  fun disk =>
    match validate_stream_dir io InOpen dir disk with
    | Err e => (disk, Err e)
    | Ok _ =>
        match lookup_dir dir disk with
        | Some d =>
            if io_fails io OpenLog then (disk, Err (StorageError "failed to open stream log"))
            else (update_dir dir (set_log d (default [] (d_log d))) disk, Ok tt)
        | None => (disk, Err (StorageError "failed to open stream log"))
        end
    end.

(** [FileStorage::remove_stream_dir] *)
Definition remove_stream_dir (io : Io) (dir : Path) : ST Disk Error unit :=
  fun disk =>
    match validate_stream_dir io InRemove dir disk with
    | Err e => (disk, Err e)
    | Ok _ =>
        match dir_key dir, lookup_dir dir disk with
        | Some c, Some d =>
            if io_fails io RemoveDir then
              let '(log, meta, tmp) := io_left io in
              (update_dir dir (mkDir (if log : bool then d_log d else None)
                                 (if meta : bool then d_meta d else None)
                                 (if tmp : bool then d_tmp d else None)
                                 (if log : bool then d_durable d else 0%nat)) disk,
               Err (StorageError "failed to remove stream directory"))
            else (delete c disk, Ok tt)
        | _, _ => (disk, Err (StorageError "failed to remove stream directory"))
        end
    end.

(** [StreamEntry::new]; [now] is its [Utc::now()]. *)
Definition FileEntry_new (io : Io) (now : Z) (config : StreamConfig) (dir : Path) (disk : Disk)
  : FileEntry :=
  mkFileEntry config [] false 0 0 0 now ∅ 0 None
    (if io_fails io StatNewLog then 0 else Z.of_nat (length (log_of dir disk))) dir.

(** ** Appending records *)

(** What a method can change while it holds the write lock of one stream. *)
Record FLocked : Type := mkFLocked { fl_total : Z; fl_entry : FileEntry; fl_disk : Disk }.

Definition fl_get : ST FLocked Error FileEntry := fun s => (s, Ok (fl_entry s)).
Definition fl_modify (f : FileEntry -> FileEntry) : ST FLocked Error unit :=
  fun s => (mkFLocked (fl_total s) (f (fl_entry s)) (fl_disk s), Ok tt).
(** A call that changes the disk only, and what the method makes of its result. *)
Definition fl_on_disk {A} (c : ST Disk Error A) : ST FLocked Error A :=
  fun s => let '(disk, r) := c (fl_disk s) in (mkFLocked (fl_total s) (fl_entry s) disk, r).
Definition fl_ignore {A} (c : ST FLocked Error A) : ST FLocked Error unit :=
  fun s => let '(s', _) := c s in (s', Ok tt).

(** The sizing loop: the batch total and the sizes, or an early return. *)
Fixpoint batch_sizes (total : Z) (sizes : list Z) (messages : list bytes)
  : Result Error (Z * list Z) :=
  match messages with
  | [] => Ok (total, sizes)
  | msg :: rest =>
      let len := len_u64 msg in
      if U32_MAX <? len then
        Err (InvalidHeader "Content-Length" "message too large for file record format")
      else batch_sizes (add64 total len) (sizes ++ [len]) rest
  end.

(** The check and reservation under the lock of [total_bytes]. *)
Definition check_and_reserve (total_batch_bytes : Z) : ST FLocked Error unit :=
  fun s =>
    if max_total_bytes cfg <? add64 (fl_total s) total_batch_bytes then (s, Err MemoryLimitExceeded)
    else if max_stream_bytes cfg <? add64 (fe_total_bytes (fl_entry s)) total_batch_bytes then
      (s, Err StreamSizeLimitExceeded)
    else (mkFLocked (add64 (fl_total s) total_batch_bytes) (fl_entry s) (fl_disk s), Ok tt).

(** [rollback_total_bytes] *)
Definition rollback_total_bytes (bytes : Z) : ST FLocked Error unit :=
  fun s => (mkFLocked (saturating_sub64 (fl_total s) bytes) (fl_entry s) (fl_disk s), Ok tt).

(** [stream.file.write_all(&write_buf)] on a file opened for appending: [false] when
    it fails, after some of the bytes reached the file; no file outgrows [i64::MAX]. *)
Definition write_all (io : Io) (write_buf : bytes) : ST FLocked Error bool :=
  fun s =>
    let dir := fe_dir (fl_entry s) in
    let log := log_of dir (fl_disk s) in
    let room := ISIZE_MAX - Z.of_nat (length log) in
    let fails := io_fails io LogWrite || (room <? Z.of_nat (length write_buf)) in
    let n := if fails then Z.to_nat (Z.min (Z.of_nat (io_log_written io)) room)
             else length write_buf in
    let disk :=
      match lookup_dir dir (fl_disk s) with
      | Some d => update_dir dir (set_log d (log ++ take n write_buf)) (fl_disk s)
      | None => fl_disk s
      end in
    (mkFLocked (fl_total s) (fl_entry s) disk, Ok (negb fails)).

(** [stream.file.sync_data()]: [false] when it fails. *)
Definition sync_data (io : Io) : ST FLocked Error bool :=
  fun s =>
    if io_fails io LogSync then (s, Ok false)
    else
      let dir := fe_dir (fl_entry s) in
      let disk :=
        match lookup_dir dir (fl_disk s) with
        | Some d => update_dir dir (sync_dir d) (fl_disk s)
        | None => fl_disk s
        end in
      (mkFLocked (fl_total s) (fl_entry s) disk, Ok true).

(** [if let Ok(m) = stream.file.metadata() { stream.file_len = m.len(); }] *)
Definition refresh_file_len (io : Io) : ST FLocked Error unit :=
  fun s =>
    if io_fails io StatLog then (s, Ok tt)
    else fl_modify (fun e => fe_set_file_len e
           (Z.of_nat (length (log_of (fe_dir e) (fl_disk s))))) s.

(** The body of [for len in sizes]: one index entry and the counters. *)
Definition push_index (ec : FileEntry * Z) (len : Z) : FileEntry * Z :=
  let '(e, cursor) := ec in
  (mkFileEntry (fe_config e)
     (fe_index e ++ [mkIndex (fe_next_offset e) (add64 cursor RECORD_HEADER_BYTES) len])
     (fe_closed e) (add64 (fe_next_read_seq e) 1) (add64 (fe_next_byte_offset e) len)
     (add64 (fe_total_bytes e) len) (fe_created_at e) (fe_producers e) (fe_notify e)
     (fe_last_seq e) (fe_file_len e) (fe_dir e),
   add64 cursor (add64 RECORD_HEADER_BYTES len)).

Definition push_indexes (before_len : Z) (sizes : list Z) (e : FileEntry) : FileEntry :=
  let '(e, cursor) := fold_left push_index sizes (e, before_len) in
  fe_set_file_len e cursor.

(** [FileStorage::append_records] *)
Definition append_records (io : Io) (messages : list bytes) : ST FLocked Error unit :=
  match messages with
  | [] => st_ret tt
  | _ :: _ =>
      let* batch := st_lift (batch_sizes 0 [] messages) in
      let total_batch_bytes := batch.1 in
      let sizes := batch.2 in
      let* _ := check_and_reserve total_batch_bytes in
      let write_buf := encode_records messages in
      let* stream := fl_get in
      let before_len := fe_file_len stream in
      let* written := write_all io write_buf in
      if negb written then
        let* _ := refresh_file_len io in
        let* _ := rollback_total_bytes total_batch_bytes in
        st_fail (StorageError "failed to append stream log")
      else
        let* synced := (if sync_on_append cfg then sync_data io else st_ret true) in
        if negb synced then
          let* _ := refresh_file_len io in
          let* _ := rollback_total_bytes total_batch_bytes in
          st_fail (StorageError "failed to sync stream log")
        else
          let* _ := fl_modify (push_indexes before_len sizes) in
          fl_modify fe_notify_send
  end.

(** ** Critical sections *)

Definition fl_store_pending_seq (pending_seq : option string) : ST FLocked Error unit :=
  match pending_seq with
  | Some new_seq => fl_modify (fun e => fe_set_last_seq e (Some new_seq))
  | None => st_ret tt
  end.

Definition fl_write_metadata (io : Io) (name : string) : ST FLocked Error unit :=
  let* stream := fl_get in fl_on_disk (write_metadata_for io name stream).

(** [append] after [get_stream]. *)
Definition file_append_locked (io : Io) (clk : Clock) (data : bytes) (ct : string)
  : ST FLocked Error Offset :=
  let* stream := fl_get in
  let* _ := throw_if (is_stream_expired (clk 0%nat) (fe_config stream)) StreamExpired in
  let* _ := throw_if (fe_closed stream) StreamClosed in
  let* _ := st_lift (validate_content_type (content_type (fe_config stream)) ct) in
  let offset := fe_next_offset stream in
  let* _ := append_records io [data] in
  st_ret offset.

(** [batch_append] after [get_stream]: metadata is persisted when [Stream-Seq]
    changed, and a failure to do so is only logged. *)
Definition file_batch_append_locked (io : Io) (clk : Clock) (name : string)
    (messages : list bytes) (ct : string) (seq : option string) : ST FLocked Error Offset :=
  let* stream := fl_get in
  let* _ := throw_if (is_stream_expired (clk 0%nat) (fe_config stream)) StreamExpired in
  let* _ := throw_if (fe_closed stream) StreamClosed in
  let* _ := st_lift (validate_content_type (content_type (fe_config stream)) ct) in
  let* pending_seq := st_lift (validate_seq (fe_last_seq stream) seq) in
  let* _ := append_records io messages in
  let* _ := match pending_seq with
            | Some new_seq =>
                let* _ := fl_modify (fun e => fe_set_last_seq e (Some new_seq)) in
                fl_ignore (fl_write_metadata io name)
            | None => st_ret tt
            end in
  let* stream := fl_get in
  st_ret (fe_next_offset stream).

(** [close_stream] after [get_stream]. *)
Definition file_close_locked (io : Io) (clk : Clock) (name : string) : ST FLocked Error unit :=
  let* stream := fl_get in
  let* _ := throw_if (is_stream_expired (clk 0%nat) (fe_config stream)) StreamExpired in
  let* _ := fl_modify (fun e => fe_set_closed e true) in
  let* _ := fl_write_metadata io name in
  fl_modify fe_notify_send.

(** The accepting branch of [append_with_producer], from [append_records] on. *)
Definition file_producer_commit (io : Io) (now : Z) (name : string) (messages : list bytes)
    (producer : ProducerHeaders) (should_close : bool) (pending_seq : option string)
  : ST FLocked Error ProducerAppendResult :=
  let* _ := append_records io messages in
  let* _ := fl_store_pending_seq pending_seq in
  let* _ := (if should_close then fl_modify (fun e => fe_set_closed e true) else st_ret tt) in
  let* _ := fl_modify
              (fun e => fe_set_producers e
                 (<[ph_id producer := mkProducerState (ph_epoch producer) (ph_seq producer) now]>
                    (fe_producers e))) in
  let* _ := fl_ignore (fl_write_metadata io name) in
  let* stream := fl_get in
  st_ret (Accepted (ph_epoch producer) (ph_seq producer) (fe_next_offset stream)
            (fe_closed stream)).

(** [append_with_producer] after [get_stream]. *)
Definition file_producer_locked (io : Io) (clk : Clock) (name : string) (messages : list bytes)
    (ct : string) (producer : ProducerHeaders) (should_close : bool) (seq : option string)
  : ST FLocked Error ProducerAppendResult :=
  let* stream := fl_get in
  let* _ := throw_if (is_stream_expired (clk 0%nat) (fe_config stream)) StreamExpired in
  let* _ := fl_modify
              (fun e => fe_set_producers e (cleanup_stale_producers (clk 1%nat) (fe_producers e))) in
  let* _ := match messages with
            | [] => st_ret tt
            | _ :: _ => st_lift (validate_content_type (content_type (fe_config stream)) ct)
            end in
  let now := clk 2%nat in
  let* stream := fl_get in
  let* check := st_lift (check_producer (fe_producers stream !! ph_id producer) producer
                           (fe_closed stream)) in
  match check with
  | CheckDuplicate epoch seq =>
      st_ret (Duplicate epoch seq (fe_next_offset stream) (fe_closed stream))
  | CheckAccept =>
      let* pending_seq := st_lift (validate_seq (fe_last_seq stream) seq) in
      file_producer_commit io now name messages producer should_close pending_seq
  end.

(** ** Loading *)

(** The body of the loop of [load_existing_streams] for one directory entry [c]:
    the streams and the restored total so far, and the disk. *)
Definition load_entry (io : Io) (now : Z) (c : string) (acc : gmap string FileEntry * Z)
  : ST Disk Error (gmap string FileEntry * Z) :=
  fun disk =>
    let path := root_dir cfg ++ [c] in
    if io_fails io DirEntry then (disk, Err (StorageError "failed to inspect storage entry"))
    else if negb (node_is_dir (disk !! c)) then (disk, Ok acc)
    else if negb (is_ok (validate_stream_dir io InLoad path disk)) then (disk, Ok acc)
    else
      match lookup_dir path disk with
      | None => (disk, Ok acc)
      | Some d =>
          match d_meta d with
          | None => (disk, Ok acc)
          | Some meta_payload =>
              if io_fails io ReadMeta then
                (disk, Err (StorageError "failed to read stream metadata"))
              else
                match meta_from_slice meta_payload with
                | None => (disk, Err (StorageError "failed to parse stream metadata"))
                | Some meta =>
                    st_bind (open_stream_file io path) (fun _ disk =>
                      match rebuild_index io (log_of path disk) with
                      | None => (disk, Err (StorageError "unreachable"))
                      | Some (log, r) =>
                          let disk :=
                            match lookup_dir path disk with
                            | Some d => update_dir path (shrink_log d log) disk
                            | None => disk
                            end in
                          match r with
                          | Err e => (disk, Err e)
                          | Ok (index, next_read_seq, next_byte_offset) =>
                              if io_fails io StatLoaded then
                                (disk, Err (StorageError "failed to stat stream log"))
                              else
                                let entry :=
                                  mkFileEntry (fm_config meta) index (fm_closed meta) next_read_seq
                                    next_byte_offset next_byte_offset (fm_created_at meta)
                                    (fm_producers meta) 0 (fm_last_seq meta)
                                    (Z.of_nat (length log)) path in
                                if is_stream_expired now (fe_config entry) then
                                  st_bind (remove_stream_dir io (fe_dir entry))
                                    (fun _ => st_ret acc) disk
                                else
                                  (disk, Ok (<[fm_name meta := entry]> acc.1,
                                             saturating_add64 acc.2 (fe_total_bytes entry)))
                          end
                      end) disk
                end
          end
      end.

(** [for dir_entry in entries] *)
Fixpoint load_entries (io : string -> Io) (now : string -> Z) (entries : list string)
    (acc : gmap string FileEntry * Z) : ST Disk Error (gmap string FileEntry * Z) :=
  match entries with
  | [] => st_ret acc
  | c :: rest =>
      let* acc := load_entry (io c) (now c) c acc in
      load_entries io now rest acc
  end.
End FileBackend.

(** [FileStorage::new] and [load_existing_streams]: [entries] is the listing of the
    root directory, in the order the system returns it, [io0] the outcome of the calls
    on the root and [io c], [now c] those of the round of entry [c]. *)
Definition FileStorage_new {F : FileLib} (io0 : Io) (io : string -> Io) (now : string -> Z)
    (entries : list string) (cfg : FileSettings) : ST Disk Error FileStorage :=
  fun disk =>
    if io_fails io0 CreateRoot then
      (disk, Err (StorageError "failed to create storage directory"))
    else if io_fails io0 CanonicalizeRoot then
      (disk, Err (StorageError "failed to canonicalize storage directory"))
    else if io_fails io0 ReadRoot then
      (disk, Err (StorageError "failed to read storage directory"))
    else
      let '(disk, r) := load_entries cfg io now entries (∅, 0) disk in
      match r with
      | Err e => (disk, Err e)
      | Ok (streams, restored_total) => (disk, Ok (mkFile cfg streams restored_total disk))
      end.

(** ** Methods *)

Section Methods.
Context {F : FileLib}.

(** [get_stream(name).ok_or_else(|| Error::NotFound(..))?] followed by a critical
    section under the stream's write lock. *)
Definition with_file_stream {A} (name : string) (section : FileSettings -> ST FLocked Error A)
  : ST FileStorage Error A :=
  fun st =>
    match f_streams st !! name with
    | None => (st, Err (NotFound name))
    | Some e =>
        let '(l, r) := section (f_settings st) (mkFLocked (f_total_bytes st) e (f_disk st)) in
        (mkFile (f_settings st) (<[name := fl_entry l]> (f_streams st)) (fl_total l) (fl_disk l), r)
    end.

(** [Storage::append] *)
Definition file_append (io : Io) (clk : Clock) (name : string) (data : bytes) (ct : string)
  : ST FileStorage Error Offset :=
  with_file_stream name (fun cfg => file_append_locked cfg io clk data ct).

(** [Storage::batch_append] *)
Definition file_batch_append (io : Io) (clk : Clock) (name : string) (messages : list bytes)
    (ct : string) (seq : option string) : ST FileStorage Error Offset :=
  match messages with
  | [] => st_fail (InvalidHeader "Content-Length" "batch cannot be empty")
  | _ :: _ =>
      with_file_stream name (fun cfg => file_batch_append_locked cfg io clk name messages ct seq)
  end.

(** [Storage::close_stream] *)
Definition file_close_stream (io : Io) (clk : Clock) (name : string)
  : ST FileStorage Error unit :=
  with_file_stream name (fun cfg => file_close_locked cfg io clk name).

(** [Storage::append_with_producer] *)
Definition file_append_with_producer (io : Io) (clk : Clock) (name : string)
    (messages : list bytes) (ct : string) (producer : ProducerHeaders) (should_close : bool)
    (seq : option string) : ST FileStorage Error ProducerAppendResult :=
  with_file_stream name
    (fun cfg => file_producer_locked cfg io clk name messages ct producer should_close seq).

Definition file_start_index (e : FileEntry) (from_offset : Offset) : nat :=
  if is_start from_offset then O
  else search_index (fun m => offset_cmp (ix_offset m) from_offset) (fe_index e).

(** [Storage::read] *)
Definition file_read_stream (io : Io) (clk : Clock) (name : string) (from_offset : Offset)
    (st : FileStorage) : Result Error ReadResult :=
  match f_streams st !! name with
  | None => Err (NotFound name)
  | Some stream =>
      if is_stream_expired (clk 0%nat) (fe_config stream) then Err StreamExpired
      else if is_now from_offset then
        Ok (mkReadResult [] (fe_next_offset stream) true (fe_closed stream))
      else
        let start_idx := file_start_index stream from_offset in
        let index_slice := drop start_idx (fe_index stream) in
        let? messages :=
          read_messages io (log_of (f_settings st) (fe_dir stream) (f_disk st)) index_slice in
        let at_tail := (length (fe_index stream) <=? start_idx + length messages)%nat in
        Ok (mkReadResult messages (fe_next_offset stream) at_tail (fe_closed stream))
  end.

(** [streams.remove(name)], the release of the bytes of the stream and the removal
    of its directory. *)
Definition remove_stream (io : Io) (name : string) (stream : FileEntry)
  : ST FileStorage Error unit :=
  fun st =>
    let '(disk, r) := remove_stream_dir (f_settings st) io (fe_dir stream) (f_disk st) in
    (mkFile (f_settings st) (delete name (f_streams st))
       (saturating_sub64 (f_total_bytes st) (fe_total_bytes stream)) disk, r).

(** [Storage::delete] *)
Definition file_delete (io : Io) (name : string) : ST FileStorage Error unit :=
  fun st =>
    match f_streams st !! name with
    | Some stream => remove_stream io name stream st
    | None => (st, Err (NotFound name))
    end.

(** [Storage::head] *)
Definition file_head (clk : Clock) (name : string) (st : FileStorage)
  : Result Error StreamMetadata :=
  match f_streams st !! name with
  | None => Err (NotFound name)
  | Some stream =>
      if is_stream_expired (clk 0%nat) (fe_config stream) then Err StreamExpired
      else Ok (mkStreamMetadata (fe_config stream) (fe_next_offset stream) (fe_closed stream)
                 (fe_total_bytes stream) (len_u64 (fe_index stream)) (fe_created_at stream))
  end.

Definition on_disk {A} (c : FileSettings -> ST Disk Error A) : ST FileStorage Error A :=
  fun st => let '(disk, r) := c (f_settings st) (f_disk st) in (set_disk st disk, r).

(** The steps of both create methods up to the new entry. *)
Definition open_new_entry (io : Io) (clk : Clock) (name : string) (config : StreamConfig)
  : ST FileStorage Error FileEntry :=
  let* dir := (fun st => (st, stream_dir_for_name (f_settings st) name)) in
  let* _ := on_disk (fun cfg => create_dir_all cfg io dir) in
  let* _ := (fun st => (st, validate_stream_dir (f_settings st) io InCreate dir (f_disk st))) in
  let* _ := on_disk (fun cfg => open_stream_file cfg io dir) in
  fun st => (st, Ok (FileEntry_new (f_settings st) io (clk 1%nat) config dir (f_disk st))).

(** [self.write_metadata_for(name, &entry)?; streams.insert(..)] *)
Definition persist_and_insert (io : Io) (name : string) (entry : FileEntry)
  : ST FileStorage Error unit :=
  let* _ := on_disk (fun cfg => write_metadata_for cfg io name entry) in
  fun st => (mkFile (f_settings st) (<[name := entry]> (f_streams st)) (f_total_bytes st)
               (f_disk st), Ok tt).

(** The part of [create_stream] after the lookup. *)
Definition create_new (io : Io) (clk : Clock) (name : string) (config : StreamConfig)
  : ST FileStorage Error CreateStreamResult :=
  let* entry := open_new_entry io clk name config in
  let* _ := persist_and_insert io name entry in
  st_ret StreamCreated.

(** [Storage::create_stream] *)
Definition file_create_stream (io : Io) (clk : Clock) (name : string) (config : StreamConfig)
  : ST FileStorage Error CreateStreamResult :=
  fun st =>
    match f_streams st !! name with
    | Some stream =>
        if is_stream_expired (clk 0%nat) (fe_config stream) then
          (let* _ := remove_stream io name stream in create_new io clk name config) st
        else if config_eq (fe_config stream) config then (st, Ok StreamAlreadyExists)
        else (st, Err ConfigMismatch)
    | None => create_new io clk name config st
    end.

(** [append_records] on an entry that is not in the map yet. *)
Definition append_to_new (io : Io) (entry : FileEntry) (messages : list bytes)
  : ST FileStorage Error FileEntry :=
  fun st =>
    let '(l, r) := append_records (f_settings st) io messages
                     (mkFLocked (f_total_bytes st) entry (f_disk st)) in
    (mkFile (f_settings st) (f_streams st) (fl_total l) (fl_disk l),
     match r with Ok _ => Ok (fl_entry l) | Err e => Err e end).

(** The part of [create_stream_with_data] after the lookup. *)
Definition create_new_with_data (io : Io) (clk : Clock) (name : string) (config : StreamConfig)
    (messages : list bytes) (should_close : bool) : ST FileStorage Error CreateWithDataResult :=
  let* entry := open_new_entry io clk name config in
  let* entry := (match messages with [] => st_ret entry
                 | _ :: _ => append_to_new io entry messages end) in
  let entry := if should_close then fe_set_closed entry true else entry in
  let next_offset := fe_next_offset entry in
  let closed := fe_closed entry in
  let* _ := persist_and_insert io name entry in
  st_ret (mkCreateWithData StreamCreated next_offset closed).

(** [Storage::create_stream_with_data] *)
Definition file_create_stream_with_data (io : Io) (clk : Clock) (name : string)
    (config : StreamConfig) (messages : list bytes) (should_close : bool)
  : ST FileStorage Error CreateWithDataResult :=
  fun st =>
    match f_streams st !! name with
    | Some stream =>
        if is_stream_expired (clk 0%nat) (fe_config stream) then
          (let* _ := remove_stream io name stream in
           create_new_with_data io clk name config messages should_close) st
        else if config_eq (fe_config stream) config then
          (st, Ok (mkCreateWithData StreamAlreadyExists (fe_next_offset stream)
                     (fe_closed stream)))
        else (st, Err ConfigMismatch)
    | None => create_new_with_data io clk name config messages should_close st
    end.

(** [Storage::exists] *)
Definition file_exists (clk : Clock) (name : string) (st : FileStorage) : bool :=
  match f_streams st !! name with
  | Some stream => negb (is_stream_expired (clk 0%nat) (fe_config stream))
  | None => false
  end.

(** [Storage::subscribe] *)
Definition file_subscribe (clk : Clock) (name : string) (st : FileStorage) : option Receiver :=
  match f_streams st !! name with
  | Some stream =>
      if is_stream_expired (clk 0%nat) (fe_config stream) then None
      else Some (fe_notify stream)
  | None => None
  end.
End Methods.
