(* ===== verification/FileDemo.v ===== *)
(** * FileDemo: a concrete encoding for the file backend

    An instance of [FileLib] that satisfies its laws: names in hexadecimal, metadata
    as the bits of a countable encoding. Concrete runs of the backend use it. *)

From S2P Require Import Prelude Errors Offsets RustStd Headers StorageCore LogSpec.
From S2P Require Import FileRecords FileStorage.

(** ** Names *)

Definition demo_digit (n : Z) : Byte.byte := nth (Z.to_nat n) (as_bytes "0123456789abcdef") x00.
Definition demo_value (b : Byte.byte) : Z :=
  let n := byte_val b in if n <? 58 then n - 48 else n - 87.

Fixpoint hex_bytes (bs : bytes) : bytes :=
  match bs with
  | [] => []
  | b :: rest => demo_digit (byte_val b / 16) :: demo_digit (byte_val b mod 16) :: hex_bytes rest
  end.
Fixpoint unhex_bytes (bs : bytes) : bytes :=
  match bs with
  | h :: l :: rest => byte_of (16 * demo_value h + demo_value l) :: unhex_bytes rest
  | _ => []
  end.

Lemma unhex_hex bs : unhex_bytes (hex_bytes bs) = bs.
Proof.
  induction bs as [|b bs IH]; [done|]. cbn [hex_bytes unhex_bytes]. rewrite IH. f_equal.
  by destruct b; vm_compute.
Qed.

(** ** Metadata *)

#[global] Instance StreamConfig_countable : Countable StreamConfig.
Proof.
  refine (inj_countable' (fun c => (content_type c, (ttl_seconds c, (expires_at c, created_closed c))))
    (fun '(a, (b, (c, d))) => mkStreamConfig a b c d) _). by intros [].
Defined.

#[global] Instance ProducerState_eq_dec : EqDecision ProducerState.
Proof. solve_decision. Defined.
#[global] Instance ProducerState_countable : Countable ProducerState.
Proof.
  refine (inj_countable' (fun s => (ps_epoch s, ps_last_seq s, ps_updated_at s))
    (fun t => mkProducerState t.1.1 t.1.2 t.2) _). by intros [].
Defined.

#[global] Instance StreamMeta_eq_dec : EqDecision StreamMeta.
Proof. solve_decision. Defined.
#[global] Instance StreamMeta_countable : Countable StreamMeta.
Proof.
  refine (inj_countable'
    (fun m => (fm_name m, fm_config m, fm_closed m, fm_created_at m, fm_last_seq m,
               map_to_list (fm_producers m)))
    (fun t => mkMeta t.1.1.1.1.1 t.1.1.1.1.2 t.1.1.1.2 t.1.1.2 t.1.2 (list_to_map t.2)) _).
  intros []; cbn. by rewrite list_to_map_to_list.
Defined.

Fixpoint pos_bytes (p : positive) : bytes :=
  match p with xH => [] | xO p => x00 :: pos_bytes p | xI p => x01 :: pos_bytes p end.
Fixpoint bytes_pos (bs : bytes) : positive :=
  match bs with [] => xH | x00 :: bs => xO (bytes_pos bs) | _ :: bs => xI (bytes_pos bs) end.

Lemma bytes_pos_bytes p : bytes_pos (pos_bytes p) = p.
Proof. induction p as [p IH|p IH|]; cbn; by rewrite ?IH. Qed.

#[global] Instance demo_lib : FileLib := {|
  base64url bs := of_bytes (hex_bytes bs);
  meta_to_vec m := Some (pos_bytes (encode m));
  meta_from_slice bs := decode (bytes_pos bs)
|}.

#[global] Instance demo_laws : FileLibLaws demo_lib.
Proof.
  split.
  - intros b1 b2 Heq. apply (f_equal as_bytes) in Heq.
    change (as_bytes (of_bytes (hex_bytes b1)) = as_bytes (of_bytes (hex_bytes b2))) in Heq.
    rewrite !as_of_bytes in Heq.
    by rewrite <- (unhex_hex b1), Heq, unhex_hex.
  - intros m. eauto.
  - intros m p [= <-]. cbn. by rewrite bytes_pos_bytes, decode_encode.
Qed.

(** ** Runs *)

Definition demo_settings : FileSettings := mkSettings 1000 100 ["srv"] ["srv"] true.
Definition demo_clock : Clock := fun _ => 1000.
Definition demo_config : StreamConfig := StreamConfig_new "text/plain".
Definition demo_empty : FileStorage := mkFile demo_settings ∅ 0 ∅.

(** The directory entries of a disk, as the root is listed. *)
Definition listing (disk : Disk) : list string := (map_to_list disk).*1.

Lemma listing_nodup disk : NoDup (listing disk).
Proof. apply NoDup_fst_map_to_list. Qed.

Lemma listing_spec disk c : c ∈ listing disk <-> is_Some (disk !! c).
Proof.
  unfold listing. rewrite list_elem_of_fmap. split.
  - intros ([c' n] & -> & Hin%elem_of_map_to_list). eauto.
  - intros [n Hn]. exists (c, n). by rewrite elem_of_map_to_list.
Qed.

(** Starting the server on a disk with working system calls. *)
Definition restart (disk : Disk) : Disk * Result Error FileStorage :=
  FileStorage_new io_ok (fun _ => io_ok) (fun _ => 1000) (listing disk) demo_settings disk.

(** The bodies a reader gets from the start of a stream. *)
Definition read_all (name : string) (st : FileStorage) : Result Error (list bytes) :=
  let? r := file_read_stream io_ok demo_clock name Start st in Ok (rr_messages r).
