(* ===== verification/FileSections.v ===== *)
(** * FileSections: the file backend under the lock of one stream

    The invariant of [FileStorage] against its disk, and what the steps of a critical
    section do to the log of the locked stream, failing system calls included. *)

From S2P Require Import Prelude Errors Offsets RustStd Headers StorageCore LogSpec.
From S2P Require Import FileRecords FileStorage.

#[local] Arguments cleanup_stale_producers : simpl never.
#[local] Arguments append_records : simpl never.

(** ** Logs and their index *)

Lemma slice_at_app log more idx :
  0 <= ix_file_pos idx -> 0 <= ix_byte_len idx ->
  ix_file_pos idx + ix_byte_len idx <= Z.of_nat (length log) ->
  slice_at (log ++ more) idx = slice_at log idx.
Proof.
  intros Hp Hl Hb. unfold slice_at, file_read. rewrite drop_app_le by lia.
  rewrite take_app_le; [done|]. rewrite length_drop. lia.
Qed.

Lemma slices_app lo log more index :
  0 <= lo -> well_placed lo (Z.of_nat (length log)) index ->
  map (slice_at (log ++ more)) index = map (slice_at log) index.
Proof.
  revert lo. induction index as [|idx index IH]; intros lo Hlo Hw; [done|].
  destruct Hw as (? & ? & Hw). pose proof (well_placed_bounds _ _ _ Hw). simpl. f_equal.
  - apply slice_at_app; lia.
  - apply (IH (ix_file_pos idx + ix_byte_len idx)); [lia|done].
Qed.

(** The index entries of appended records point at their payloads. *)
Lemma index_from_placed seq off pos msgs :
  0 <= pos -> well_placed pos (pos + Z.of_nat (length (encode_records msgs))) (index_from seq off pos msgs).
Proof.
  revert seq off pos. induction msgs as [|m msgs IH]; intros seq off pos Hpos; simpl; [lia|].
  unfold RECORD_HEADER_BYTES in *. split_and!; [lia..|].
  specialize (IH (seq + 1) (off + Z.of_nat (length m)) (pos + 4 + Z.of_nat (length m)) ltac:(lia)).
  eapply well_placed_weaken; [exact IH|lia|].
  rewrite !length_app. lia.
Qed.

Lemma index_from_slices seq off pre msgs post :
  map (slice_at (pre ++ encode_records msgs ++ post)) (index_from seq off (Z.of_nat (length pre)) msgs) = msgs.
Proof.
  revert seq off pre. induction msgs as [|m msgs IH]; intros seq off pre; [done|].
  cbn [index_from map encode_records]. f_equal.
  - unfold slice_at, file_read; cbn [ix_file_pos ix_byte_len]. unfold RECORD_HEADER_BYTES.
    rewrite Nat2Z.id, Z2Nat.inj_add, Nat2Z.id by lia. rewrite <- drop_drop, drop_app_length.
    rewrite <- !app_assoc. rewrite drop_app_length' by done. by rewrite take_app_length.
  - specialize (IH (seq + 1) (off + Z.of_nat (length m)) (pre ++ u32_to_le (len_u32 m) ++ m)).
    rewrite !length_app, u32_to_le_length in IH. rewrite <- !app_assoc in *.
    unfold RECORD_HEADER_BYTES.
    replace (Z.of_nat (length pre) + 4 + Z.of_nat (length m))
      with (Z.of_nat (length pre + (4 + length m))) by lia. exact IH.
Qed.

Lemma index_from_offsets seq off pos msgs :
  map ix_offset (index_from seq off pos msgs) = (place seq off msgs).*1.
Proof. revert seq off pos. induction msgs as [|m l IH]; intros; simpl; [done|by rewrite IH]. Qed.

Lemma index_from_length seq off pos msgs : length (index_from seq off pos msgs) = length msgs.
Proof. revert seq off pos. induction msgs as [|m l IH]; intros; simpl; [done|by rewrite IH]. Qed.

(** ** Abstraction and invariant *)

(** The messages an entry finds in its log. *)
Definition file_msgs (log : bytes) (e : FileEntry) : list bytes := map (slice_at log) (fe_index e).

Definition abs_file (log : bytes) (e : FileEntry) : AStream :=
  mkAStream (fe_config e) (file_msgs log e) (fe_closed e) (fe_created_at e) (fe_producers e)
    (fe_last_seq e).

(** An entry against the contents of its log: the index entries lie one after the
    other inside the log and carry the canonical offsets, the counters are exact and
    the cached length is the length of the file. The log may hold bytes no entry
    points to, left by failed writes. *)
Record log_ok (log : bytes) (e : FileEntry) : Prop := mkLogOk {
  lo_len : fe_file_len e = Z.of_nat (length log);
  lo_max : Z.of_nat (length log) <= ISIZE_MAX;
  lo_placed : well_placed 0 (Z.of_nat (length log)) (fe_index e);
  lo_offsets : map ix_offset (fe_index e) = (place 0 0 (file_msgs log e)).*1;
  lo_read_seq : fe_next_read_seq e = Z.of_nat (length (fe_index e));
  lo_byte_offset : fe_next_byte_offset e = payload (file_msgs log e);
  lo_total : fe_total_bytes e = payload (file_msgs log e);
  lo_count : Z.of_nat (length (fe_index e)) < two64
}.

Section Backend.
Context {F : FileLib} {L : FileLibLaws F}.

(** The directory of a stream under the root. *)
Definition key_of (name : string) : string := base64url (as_bytes name).

Lemma key_of_inj n1 n2 : key_of n1 = key_of n2 -> n1 = n2.
Proof using L. intros H%base64url_inj. by rewrite <- (of_as_bytes n1), H, of_as_bytes. Qed.

(** The entry [e] of stream [name] and its directory on the disk. *)
Definition entry_on (cfg : FileSettings) (disk : Disk) (name : string) (e : FileEntry) : Prop :=
  fe_dir e = root_dir cfg ++ [key_of name] /\
  exists d log, disk !! key_of name = Some (NDir d) /\ d_log d = Some log /\ log_ok log e.

(** What a storage stands for. *)
Definition file_view (st : FileStorage) : View :=
  (fun e => abs_file (log_of (f_settings st) (fe_dir e) (f_disk st)) e) <$> f_streams st.

(** No file is larger than a file can be. *)
Definition disk_ok (disk : Disk) : Prop :=
  forall c d log, disk !! c = Some (NDir d) -> d_log d = Some log ->
    Z.of_nat (length log) <= ISIZE_MAX.

(** The invariant of the storage: every entry agrees with its log on the disk and is
    within the per-stream limit; the global counter is exactly the sum of the entries
    and within the global limit. *)
Record file_inv (st : FileStorage) : Prop := mkFileInv {
  fi_disk : disk_ok (f_disk st);
  fi_max_total : 0 <= max_total_bytes (f_settings st) <= ISIZE_MAX;
  fi_max_stream : u64 (max_stream_bytes (f_settings st));
  fi_entries : forall name e, f_streams st !! name = Some e ->
    entry_on (f_settings st) (f_disk st) name e /\
    fe_total_bytes e <= max_stream_bytes (f_settings st);
  fi_sum : f_total_bytes st = map_sum fe_total_bytes (f_streams st);
  fi_limit : f_total_bytes st <= max_total_bytes (f_settings st)
}.

(** The failures a run may meet: log writes and syncs. *)
Definition log_faults_only (io : Io) : Prop :=
  forall site, io_fails io site = true -> site = LogWrite \/ site = LogSync.

Lemma log_faults_site io site :
  log_faults_only io -> site <> LogWrite -> site <> LogSync -> io_fails io site = false.
Proof. intros Hio H1 H2. destruct (io_fails io site) eqn:Hs; [|done]. by destruct (Hio _ Hs). Qed.

(** ** Paths *)

Section Paths.
Context (cfg : FileSettings) (c : string).

Lemma strip_prefix_child : path_strip_prefix (root_dir cfg ++ [c]) (root_dir cfg) = Some [c].
Proof.
  unfold path_strip_prefix, path_starts_with. rewrite bool_decide_eq_true_2 by (by exists [c]).
  by rewrite drop_app_length.
Qed.

Lemma dir_key_child : dir_key cfg (root_dir cfg ++ [c]) = Some c.
Proof. unfold dir_key. by rewrite strip_prefix_child. Qed.

Lemma update_dir_child d disk : update_dir cfg (root_dir cfg ++ [c]) d disk = <[c := NDir d]> disk.
Proof. unfold update_dir. by rewrite dir_key_child. Qed.

Lemma lookup_dir_child d disk :
  disk !! c = Some (NDir d) -> lookup_dir cfg (root_dir cfg ++ [c]) disk = Some d.
Proof. intros Hd. unfold lookup_dir. by rewrite dir_key_child, Hd. Qed.

Lemma log_of_child d log disk :
  disk !! c = Some (NDir d) -> d_log d = Some log -> log_of cfg (root_dir cfg ++ [c]) disk = log.
Proof. intros Hd Hl. unfold log_of. by rewrite (lookup_dir_child d), Hl. Qed.

Lemma validate_child io caller d disk :
  io_fails io (StatDir caller) = false -> io_fails io (Canonicalize caller) = false ->
  disk !! c = Some (NDir d) ->
  validate_stream_dir cfg io caller (root_dir cfg ++ [c]) disk = Ok tt.
Proof.
  intros Hs Hc Hd. unfold validate_stream_dir. rewrite strip_prefix_child.
  assert (path_starts_with (root_dir cfg ++ [c]) (root_dir cfg) = true) as ->
    by (apply bool_decide_eq_true_2; by exists [c]).
  assert (path_starts_with (root_dir_canonical cfg ++ [c]) (root_dir_canonical cfg) = true) as ->
    by (apply bool_decide_eq_true_2; by exists [c]).
  rewrite Hd. cbn [node_exists negb]. by rewrite Hs, Hc.
Qed.
End Paths.

(** ** Appending to one entry *)

(** What pushing a batch leaves in the entry. *)
Definition fpushed (e : FileEntry) (msgs : list bytes) : FileEntry :=
  mkFileEntry (fe_config e)
    (fe_index e ++ index_from (fe_next_read_seq e) (fe_next_byte_offset e) (fe_file_len e) msgs)
    (fe_closed e) (fe_next_read_seq e + Z.of_nat (length msgs))
    (fe_next_byte_offset e + payload msgs) (fe_total_bytes e + payload msgs) (fe_created_at e)
    (fe_producers e) (fe_notify e) (fe_last_seq e)
    (fe_file_len e + Z.of_nat (length (encode_records msgs))) (fe_dir e).

#[local] Instance small_dec m : Decision (small m).
Proof. unfold small. apply _. Defined.

Lemma batch_sizes_spec t sizes msgs :
  0 <= t -> t + payload msgs < two64 ->
  batch_sizes t sizes msgs =
  if decide (Forall small msgs)
  then Ok (t + payload msgs, sizes ++ map (fun m => Z.of_nat (length m)) msgs)
  else Err (InvalidHeader "Content-Length" "message too large for file record format").
Proof.
  revert t sizes. induction msgs as [|m msgs IH]; intros t sizes Ht Hlt; cbn [batch_sizes payload map] in *.
  - rewrite decide_True by constructor. by rewrite Z.add_0_r, app_nil_r.
  - pose proof (payload_nonneg msgs). rewrite len_u64_small by lia.
    destruct (Z.ltb_spec U32_MAX (Z.of_nat (length m))) as [Hb|Hb].
    { rewrite decide_False; [done|]. intros Hall. inversion Hall as [|? ? Hm ?]. unfold small in Hm. lia. }
    rewrite add64_small by lia. rewrite IH by lia.
    destruct (decide (Forall small msgs)) as [Hall|Hall].
    + rewrite decide_True by (by constructor). rewrite <- app_assoc. do 2 f_equal. lia.
    + rewrite decide_False; [done|]. intros Hall'. by inversion Hall'.
Qed.

Lemma push_indexes_fold e cursor msgs :
  0 <= cursor -> cursor + Z.of_nat (length (encode_records msgs)) < two64 ->
  0 <= fe_next_read_seq e -> fe_next_read_seq e + Z.of_nat (length msgs) < two64 ->
  0 <= fe_next_byte_offset e -> fe_next_byte_offset e + payload msgs < two64 ->
  0 <= fe_total_bytes e -> fe_total_bytes e + payload msgs < two64 ->
  fold_left push_index (map (fun m => Z.of_nat (length m)) msgs) (e, cursor) =
  (fe_set_file_len (fpushed (fe_set_file_len e cursor) msgs) (fe_file_len e),
   cursor + Z.of_nat (length (encode_records msgs))).
Proof.
  revert e cursor. induction msgs as [|m msgs IH]; intros e cursor Hc Hc' Hr Hr' Hb Hb' Ht Ht'.
  - unfold fpushed, fe_set_file_len. simpl. rewrite !Z.add_0_r, app_nil_r. by destruct e.
  - cbn [map fold_left length payload encode_records] in *. rewrite !length_app, u32_to_le_length in *.
    pose proof (payload_nonneg msgs). unfold push_index at 2.
    rewrite (add64_small RECORD_HEADER_BYTES) by (unfold RECORD_HEADER_BYTES, two64 in *; lia).
    unfold RECORD_HEADER_BYTES. rewrite !add64_small by lia.
    rewrite IH; cbn [fe_next_read_seq fe_next_byte_offset fe_total_bytes]; try lia.
    unfold fpushed, fe_set_file_len, fe_next_offset; cbn. f_equal; [|lia].
    f_equal; try lia. rewrite <- app_assoc. unfold RECORD_HEADER_BYTES. do 3 f_equal; lia.
Qed.

Lemma push_indexes_spec e msgs :
  0 <= fe_file_len e -> fe_file_len e + Z.of_nat (length (encode_records msgs)) < two64 ->
  0 <= fe_next_read_seq e -> fe_next_read_seq e + Z.of_nat (length msgs) < two64 ->
  0 <= fe_next_byte_offset e -> fe_next_byte_offset e + payload msgs < two64 ->
  0 <= fe_total_bytes e -> fe_total_bytes e + payload msgs < two64 ->
  push_indexes (fe_file_len e) (map (fun m => Z.of_nat (length m)) msgs) e = fpushed e msgs.
Proof.
  intros. unfold push_indexes. rewrite push_indexes_fold by done.
  unfold fpushed, fe_set_file_len; cbn. by destruct e.
Qed.

Lemma file_msgs_fpushed log e msgs :
  log_ok log e -> file_msgs (log ++ encode_records msgs) (fpushed e msgs) = file_msgs log e ++ msgs.
Proof.
  intros Hok. unfold file_msgs, fpushed; cbn [fe_index]. rewrite map_app. f_equal.
  - apply (slices_app 0); [lia|]. apply Hok.
  - rewrite (lo_len _ _ Hok). rewrite <- (app_nil_r (encode_records msgs)). apply index_from_slices.
Qed.

Lemma file_msgs_length log e : length (file_msgs log e) = length (fe_index e).
Proof. apply length_map. Qed.

Lemma fpushed_ok log e msgs :
  log_ok log e -> Z.of_nat (length (fe_index e) + length msgs) < two64 ->
  Z.of_nat (length (log ++ encode_records msgs)) <= ISIZE_MAX ->
  log_ok (log ++ encode_records msgs) (fpushed e msgs).
Proof.
  intros Hok Hc Hmax. pose proof (file_msgs_fpushed log e msgs Hok) as Hm.
  destruct Hok as [Hl Hx Hp Ho Hr Hb Ht Hn].
  split; rewrite ?Hm, ?payload_app; unfold fpushed; cbn; rewrite ?length_app in *; try lia.
  - rewrite Nat2Z.inj_add. apply (well_placed_app _ (Z.of_nat (length log))); [done|].
    rewrite Hl. apply index_from_placed. lia.
  - rewrite map_app, Ho, index_from_offsets, place_app, fmap_app. f_equal.
    rewrite file_msgs_length, Hr, Hb. done.
  - rewrite index_from_length. lia.
  - rewrite index_from_length. lia.
Qed.

(** Bytes no entry points to do not matter. *)
Lemma log_ok_junk log junk e :
  log_ok log e -> Z.of_nat (length (log ++ junk)) <= ISIZE_MAX ->
  log_ok (log ++ junk) (fe_set_file_len e (Z.of_nat (length (log ++ junk)))) /\
  file_msgs (log ++ junk) e = file_msgs log e.
Proof.
  intros Hok Hmax. assert (file_msgs (log ++ junk) e = file_msgs log e) as Hm
    by (apply (slices_app 0); [lia|apply Hok]).
  split; [|done]. destruct Hok as [Hl Hx Hp Ho Hr Hb Ht Hn].
  split; try done; unfold file_msgs in *; cbn; rewrite ?Hm; try done.
  eapply well_placed_weaken; [exact Hp|lia|]. rewrite length_app. lia.
Qed.

(** ** Critical sections *)

(** The state of a section that locks stream [name]: [base] bytes belong to the other
    streams, whose directories are those of [disk0], and [a] is the log the entry
    stands for. *)
Record locked_ok (cfg : FileSettings) (name : string) (disk0 : Disk) (base : Z) (l : FLocked)
    (a : AStream) : Prop := mkLockedOk {
  lk_dir : fe_dir (fl_entry l) = root_dir cfg ++ [key_of name];
  lk_log : exists d log, fl_disk l !! key_of name = Some (NDir d) /\ d_log d = Some log /\
             log_ok log (fl_entry l) /\ abs_file log (fl_entry l) = a;
  lk_frame : forall c, c <> key_of name -> fl_disk l !! c = disk0 !! c;
  lk_base : 0 <= base;
  lk_total : fl_total l = base + fe_total_bytes (fl_entry l);
  lk_max_total : max_total_bytes cfg <= ISIZE_MAX;
  lk_global : fl_total l <= max_total_bytes cfg;
  lk_stream : fe_total_bytes (fl_entry l) <= max_stream_bytes cfg
}.

Lemma locked_bytes cfg name disk0 base l a :
  locked_ok cfg name disk0 base l a ->
  0 <= fe_total_bytes (fl_entry l) <= fl_total l /\
  fe_next_offset (fl_entry l) = a_next_offset a /\
  fe_config (fl_entry l) = a_config a /\ fe_closed (fl_entry l) = a_closed a /\
  fe_producers (fl_entry l) = a_producers a /\ fe_last_seq (fl_entry l) = a_last_seq a /\
  length (a_msgs a) = length (fe_index (fl_entry l)).
Proof.
  intros [Hd (d & log & Hn & Hl & Hok & <-) Hf Hb Ht Hm Hg Hs].
  pose proof (payload_nonneg (file_msgs log (fl_entry l))). rewrite <- (lo_total _ _ Hok) in *.
  split_and!; try done; try lia; [|apply file_msgs_length].
  unfold fe_next_offset, a_next_offset, tail_offset. simpl.
  by rewrite (lo_read_seq _ _ Hok), (lo_byte_offset _ _ Hok), file_msgs_length.
Qed.

(** Updates of the fields that are not about the log. *)
Lemma locked_modify cfg name disk0 base l a f g :
  (forall log e, log_ok log e -> log_ok log (f e) /\ abs_file log (f e) = g (abs_file log e)) ->
  (forall e, fe_dir (f e) = fe_dir e /\ fe_total_bytes (f e) = fe_total_bytes e) ->
  locked_ok cfg name disk0 base l a ->
  locked_ok cfg name disk0 base (mkFLocked (fl_total l) (f (fl_entry l)) (fl_disk l)) (g a).
Proof.
  intros Hf Hk [Hd (d & log & Hn & Hl & Hok & <-) Hfr Hb Ht Hm Hg Hs].
  destruct (Hk (fl_entry l)) as [Hkd Hkt], (Hf log (fl_entry l) Hok) as [Hok' Ha].
  split; simpl; rewrite ?Hkd, ?Hkt; try done. exists d, log. by rewrite Ha.
Qed.

Lemma locked_closed cfg name disk0 base l a :
  locked_ok cfg name disk0 base l a ->
  locked_ok cfg name disk0 base (mkFLocked (fl_total l) (fe_set_closed (fl_entry l) true) (fl_disk l))
    (log_close a).
Proof. apply (locked_modify _ _ _ _ _ _ (fun e => fe_set_closed e true)); [|done]. intros log e []. by split. Qed.

Lemma locked_producers cfg name disk0 base l a p :
  locked_ok cfg name disk0 base l a ->
  locked_ok cfg name disk0 base (mkFLocked (fl_total l) (fe_set_producers (fl_entry l) p) (fl_disk l))
    (log_set_producers a p).
Proof.
  apply (locked_modify _ _ _ _ _ _ (fun e => fe_set_producers e p) (fun a => log_set_producers a p)); [|done].
  intros log e []. by split.
Qed.

Lemma locked_seq cfg name disk0 base l a s :
  locked_ok cfg name disk0 base l a ->
  locked_ok cfg name disk0 base (mkFLocked (fl_total l) (fe_set_last_seq (fl_entry l) (Some s)) (fl_disk l))
    (log_append a [] (Some s)).
Proof.
  intros Hl. apply (locked_modify _ _ _ _ _ _ (fun e => fe_set_last_seq e (Some s)) (fun a => log_append a [] (Some s)));
    [|done|done].
  intros log e []. split; [done|]. unfold log_append; simpl. by rewrite app_nil_r.
Qed.

Lemma locked_notify cfg name disk0 base l a :
  locked_ok cfg name disk0 base l a ->
  locked_ok cfg name disk0 base (mkFLocked (fl_total l) (fe_notify_send (fl_entry l)) (fl_disk l)) a.
Proof. apply (locked_modify _ _ _ _ _ _ fe_notify_send (fun a => a)); [|done]. intros log e []. by split. Qed.

(** Replacing the directory of the stream by one with the same log. *)
Lemma locked_same_log cfg name disk0 base l a d d' :
  locked_ok cfg name disk0 base l a -> fl_disk l !! key_of name = Some (NDir d) ->
  d_log d' = d_log d ->
  locked_ok cfg name disk0 base
    (mkFLocked (fl_total l) (fl_entry l) (<[key_of name := NDir d']> (fl_disk l))) a.
Proof.
  intros [Hd (d0 & log & Hn & Hl & Hok & Ha) Hfr Hb Ht Hm Hg Hs] Hd0 Hlog.
  split; simpl; try done.
  - exists d', log. rewrite lookup_insert_eq. split_and!; try done. congruence.
  - intros c Hc. rewrite lookup_insert_ne by done. auto.
Qed.

(** Writing the metadata never touches the log; it succeeds when its system calls do. *)
Lemma locked_metadata cfg io name disk0 base l a :
  locked_ok cfg name disk0 base l a ->
  let '(l', r) := fl_write_metadata cfg io name l in
  locked_ok cfg name disk0 base l' a /\ fl_entry l' = fl_entry l /\
  (io_fails io (StatDir InMeta) = false -> io_fails io (Canonicalize InMeta) = false ->
   io_fails io MetaWrite = false -> io_fails io MetaRename = false -> r = Ok tt).
Proof using L.
  intros Hl. pose proof Hl as [Hd (d & log & Hn & Hlog & Hok & Ha) Hfr Hb Ht Hm Hg Hs].
  unfold fl_write_metadata, st_bind, fl_get, fl_on_disk, write_metadata_for. rewrite Hd.
  assert (forall d', d_log d' = d_log d -> locked_ok cfg name disk0 base
    (mkFLocked (fl_total l) (fl_entry l)
       (update_dir cfg (root_dir cfg ++ [key_of name]) d' (fl_disk l))) a) as Hup.
  { intros d' Hd'. rewrite update_dir_child. by eapply locked_same_log. }
  rewrite (lookup_dir_child cfg _ d) by done.
  assert (mkFLocked (fl_total l) (fl_entry l) (fl_disk l) = l) as Heta by by destruct l.
  destruct (validate_stream_dir _ _ _ _ _) as [[]|e] eqn:Hv; rewrite ?Heta.
  2:{ split_and!; [done..|]. intros H1 H2. rewrite (validate_child cfg _ io InMeta d) in Hv; done. }
  destruct (meta_serializes (mkMeta name (fe_config (fl_entry l)) (fe_closed (fl_entry l))
    (fe_created_at (fl_entry l)) (fe_last_seq (fl_entry l)) (fe_producers (fl_entry l)))) as [p ->].
  destruct (io_fails io MetaWrite); [split_and!; [by apply Hup|done|done]|].
  destruct (io_fails io MetaRename); (split_and!; [by apply Hup|done|done]).
Qed.

(** A write leaves the log followed by what reached the disk: everything, or some of
    it when it reports a failure. *)
Lemma write_all_spec cfg io name t e disk d log buf :
  fe_dir e = root_dir cfg ++ [key_of name] -> disk !! key_of name = Some (NDir d) ->
  d_log d = Some log -> Z.of_nat (length log) <= ISIZE_MAX ->
  exists ok junk,
    write_all cfg io buf (mkFLocked t e disk) =
      (mkFLocked t e (<[key_of name := NDir (set_log d (log ++ junk))]> disk), Ok ok) /\
    Z.of_nat (length (log ++ junk)) <= ISIZE_MAX /\ junk `prefix_of` buf /\
    (ok = true -> junk = buf) /\ (ok = false -> io_log_written io = 0%nat -> junk = []) /\
    (ok = false -> junk = take (Z.to_nat (Z.min (Z.of_nat (io_log_written io)) (ISIZE_MAX - Z.of_nat (length log)))) buf).
Proof.
  intros Hd Hn Hl Hmax. unfold write_all; cbn [fl_entry fl_disk fl_total].
  rewrite Hd, (log_of_child cfg _ d log), (lookup_dir_child cfg _ d), update_dir_child by done.
  set (room := ISIZE_MAX - Z.of_nat (length log)).
  destruct (io_fails io LogWrite || (room <? Z.of_nat (length buf))) eqn:Hf; do 2 eexists;
    (split; [reflexivity|]); rewrite length_app, length_take; split_and!.
  - unfold room. lia.
  - apply prefix_take.
  - done.
  - intros _ ->. by rewrite Z.min_l by (unfold room; lia).
  - done.
  - apply orb_false_iff in Hf as [_ Hf%Z.ltb_ge]. unfold room in *. lia.
  - apply prefix_take.
  - intros _. by rewrite firstn_all.
  - done.
  - done.
Qed.

(** The section after a failed append: the reservation is given back and the cached
    length follows the file, so [junk] is out of the way of later appends. *)
Definition after_failure (name : string) (l : FLocked) (d : Dir) (log junk : bytes) : FLocked :=
  mkFLocked (fl_total l) (fe_set_file_len (fl_entry l) (Z.of_nat (length (log ++ junk))))
    (<[key_of name := NDir (set_log d (log ++ junk))]> (fl_disk l)).

(** A directory after an append: its log has grown, and is synced if so configured. *)
Definition grow_log (cfg : FileSettings) (d : Dir) (log : bytes) : Dir :=
  if sync_on_append cfg then sync_dir (set_log d log) else set_log d log.
Lemma grow_log_files cfg d log :
  d_log (grow_log cfg d log) = Some log /\ d_meta (grow_log cfg d log) = d_meta d /\
  d_tmp (grow_log cfg d log) = d_tmp d.
Proof. unfold grow_log. by destruct (sync_on_append cfg). Qed.

(** The section after an append that was acknowledged. *)
Definition after_append (cfg : FileSettings) (name : string) (l : FLocked) (d : Dir) (log : bytes) (msgs : list bytes)
  : FLocked :=
  mkFLocked (fl_total l + payload msgs) (fe_notify_send (fpushed (fl_entry l) msgs))
    (<[key_of name := NDir (grow_log cfg d (log ++ encode_records msgs))]> (fl_disk l)).

Lemma after_failure_nothing name l d log :
  fl_disk l !! key_of name = Some (NDir d) -> d_log d = Some log ->
  fe_file_len (fl_entry l) = Z.of_nat (length log) -> after_failure name l d log [] = l.
Proof.
  intros Hn Hl Hlen. unfold after_failure. rewrite app_nil_r, <- Hlen.
  assert (set_log d log = d) as -> by (unfold set_log; rewrite <- Hl; by destruct d).
  rewrite insert_id by done. by destruct l as [? [] ?].
Qed.

Lemma failed_append_run cfg io name l d log junk p msg :
  fe_dir (fl_entry l) = root_dir cfg ++ [key_of name] -> 0 <= fl_total l ->
  io_fails io StatLog = false ->
  (let* _ := refresh_file_len cfg io in
   let* _ := rollback_total_bytes p in st_fail (A:=unit) (StorageError msg))
    (mkFLocked (fl_total l + p) (fl_entry l)
       (<[key_of name := NDir (set_log d (log ++ junk))]> (fl_disk l))) =
  (after_failure name l d log junk, Err (StorageError msg)).
Proof.
  intros Hd Ht Hst. unfold st_bind, refresh_file_len, fl_modify, rollback_total_bytes, st_fail.
  rewrite Hst. cbn [fl_entry fl_disk fl_total]. rewrite saturating_sub64_add by done.
  rewrite Hd, (log_of_child cfg _ (set_log d (log ++ junk)) (log ++ junk)); [done| |done].
  apply lookup_insert_eq.
Qed.

(** The sync of an append: the directory of the stream, synced if so configured. *)
Lemma sync_step_spec cfg io name t e disk d log :
  fe_dir e = root_dir cfg ++ [key_of name] ->
  (if sync_on_append cfg then sync_data cfg io else st_ret true)
    (mkFLocked t e (<[key_of name := NDir (set_log d log)]> disk)) =
  if sync_on_append cfg && io_fails io LogSync
  then (mkFLocked t e (<[key_of name := NDir (set_log d log)]> disk), Ok false)
  else (mkFLocked t e (<[key_of name := NDir (grow_log cfg d log)]> disk), Ok true).
Proof.
  intros Hd. unfold grow_log. destruct (sync_on_append cfg); [|done]. cbn [andb]. unfold sync_data.
  destruct (io_fails io LogSync); [done|]. cbn [fl_entry fl_disk fl_total].
  rewrite Hd, (lookup_dir_child cfg _ (set_log d log)), update_dir_child by apply lookup_insert_eq.
  by rewrite insert_insert_eq.
Qed.

(** What [append_records] does to a well-formed section: it fails with a resource
    error, after some of the batch may have reached the file, or appends the batch. *)
Lemma append_records_run cfg io name disk0 base l a d log msgs :
  locked_ok cfg name disk0 base l a -> fl_disk l !! key_of name = Some (NDir d) ->
  d_log d = Some log -> io_fails io StatLog = false -> msgs <> [] ->
  payload msgs <= ISIZE_MAX -> Z.of_nat (length (a_msgs a) + length msgs) < two64 ->
  (exists err junk, append_records cfg io msgs l = (after_failure name l d log junk, Err err) /\
     resource_error err = true /\ junk `prefix_of` encode_records msgs /\
     Z.of_nat (length (log ++ junk)) <= ISIZE_MAX /\
     (io_fails io LogWrite = false -> io_fails io LogSync = false -> io_log_written io = 0%nat ->
      junk = []) /\
     (junk = [] \/ (Forall small msgs /\ fl_total l + payload msgs <= max_total_bytes cfg /\
                     fe_total_bytes (fl_entry l) + payload msgs <= max_stream_bytes cfg))) \/
  (append_records cfg io msgs l = (after_append cfg name l d log msgs, Ok tt) /\ Forall small msgs /\
   Z.of_nat (length (log ++ encode_records msgs)) <= ISIZE_MAX /\
   fl_total l + payload msgs <= max_total_bytes cfg /\
   fe_total_bytes (fl_entry l) + payload msgs <= max_stream_bytes cfg).
Proof.
  intros Hl Hnode Hlog Hst Hne Hp Hc.
  pose proof (locked_bytes _ _ _ _ _ _ Hl) as (Hb & _ & _ & _ & _ & _ & Hn).
  pose proof Hl as [Hd (d0 & log0 & Hn0 & Hl0 & Hok & Ha) Hfr Hbase Ht Hmt Hg Hs].
  assert (d0 = d) as -> by congruence. assert (log0 = log) as -> by congruence. clear Hn0 Hl0.
  assert (forall err, resource_error err = true ->
    exists err' junk, (l, Err (A:=unit) err) = (after_failure name l d log junk, Err err') /\
      resource_error err' = true /\ junk `prefix_of` encode_records msgs /\
      Z.of_nat (length (log ++ junk)) <= ISIZE_MAX /\
      (io_fails io LogWrite = false -> io_fails io LogSync = false -> io_log_written io = 0%nat ->
       junk = []) /\
      (junk = [] \/ (Forall small msgs /\ fl_total l + payload msgs <= max_total_bytes cfg /\
                      fe_total_bytes (fl_entry l) + payload msgs <= max_stream_bytes cfg))) as Hearly.
  { intros err Hres. exists err, []. rewrite after_failure_nothing by (done || apply Hok).
    split_and!; [done|done|apply prefix_nil| |done|by left]. rewrite app_nil_r. apply Hok. }
  destruct msgs as [|m0 ms]; [done|]. set (msgs := m0 :: ms) in *.
  destruct (append_records cfg io msgs l) as [l' r] eqn:Hrun.
  unfold append_records in Hrun. unfold msgs at 1 in Hrun.
  unfold st_bind at 1, st_lift in Hrun. pose proof (payload_nonneg msgs) as Hp0.
  rewrite batch_sizes_spec in Hrun by (unfold ISIZE_MAX, two64 in *; lia).
  destruct (decide (Forall small msgs)) as [Hsm|Hsm]; [|injection Hrun as <- <-; left; by apply Hearly].
  cbn [fst snd app] in Hrun. rewrite Z.add_0_l in Hrun. unfold st_bind at 1, check_and_reserve in Hrun.
  rewrite !add64_small in Hrun by (unfold ISIZE_MAX, two64 in *; lia).
  destruct (Z.ltb_spec (max_total_bytes cfg) (fl_total l + payload msgs));
    [injection Hrun as <- <-; left; by apply Hearly|].
  destruct (Z.ltb_spec (max_stream_bytes cfg) (fe_total_bytes (fl_entry l) + payload msgs));
    [injection Hrun as <- <-; left; by apply Hearly|].
  unfold st_bind at 1, fl_get in Hrun; cbn [fl_entry] in Hrun. unfold st_bind at 1 in Hrun.
  destruct (write_all_spec cfg io name (fl_total l + payload msgs) (fl_entry l) (fl_disk l) d log
              (encode_records msgs) Hd Hnode Hlog (lo_max _ _ Hok))
    as (ok & junk & Hw & Hmax & Hpre & Hall & Hnone & _).
  rewrite Hw in Hrun. destruct ok; cbn [negb] in Hrun.
  2:{ left. rewrite failed_append_run in Hrun by (done || lia). injection Hrun as <- <-. do 2 eexists.
      split_and!; [reflexivity|done|done|done| |right; by split_and!].
      intros H1 H2 H3. by apply Hnone. }
  unfold st_bind at 1 in Hrun. rewrite (sync_step_spec cfg io name _ _ (fl_disk l) d) in Hrun by done.
  destruct (sync_on_append cfg && io_fails io LogSync) eqn:Hsync; cbn [negb] in Hrun.
  { left. rewrite failed_append_run in Hrun by (done || lia). injection Hrun as <- <-. do 2 eexists.
    split_and!; [reflexivity|done|done|done| |right; by split_and!]. intros H1 H2 H3.
    apply andb_true_iff in Hsync as [_ Hsync]. congruence. }
  right. specialize (Hall eq_refl). subst junk.
  unfold st_bind, fl_modify in Hrun; cbn [fl_entry fl_disk fl_total] in Hrun.
  rewrite length_app in Hmax.
  rewrite push_indexes_spec in Hrun; rewrite ?(lo_len _ _ Hok), ?(lo_read_seq _ _ Hok),
    ?(lo_byte_offset _ _ Hok), ?(lo_total _ _ Hok);
    try (rewrite (lo_total _ _ Hok) in *; unfold ISIZE_MAX, two64 in *; lia).
  rewrite (lo_total _ _ Hok) in *. rewrite length_app. split_and!; done || lia.
Qed.

Lemma locked_after_failure cfg name disk0 base l a d log junk :
  locked_ok cfg name disk0 base l a -> fl_disk l !! key_of name = Some (NDir d) ->
  d_log d = Some log -> Z.of_nat (length (log ++ junk)) <= ISIZE_MAX ->
  locked_ok cfg name disk0 base (after_failure name l d log junk) a.
Proof.
  intros [Hd (d0 & log0 & Hn0 & Hlog0 & Hok & Ha) Hfr Hbase Ht Hm Hg Hs] Hn Hlog Hmax.
  assert (d0 = d) as -> by congruence. assert (log0 = log) as -> by congruence.
  destruct (log_ok_junk log junk (fl_entry l) Hok Hmax) as [Hok' Hmsgs]. unfold after_failure.
  split; cbn [fl_entry fl_disk fl_total fe_dir fe_set_file_len fe_total_bytes]; try done.
  - exists (set_log d (log ++ junk)), (log ++ junk). rewrite lookup_insert_eq.
    split_and!; try done. rewrite <- Ha. unfold abs_file.
    change (file_msgs (log ++ junk) (fe_set_file_len _ _)) with (file_msgs (log ++ junk) (fl_entry l)).
    by rewrite Hmsgs.
  - intros c Hc. rewrite lookup_insert_ne by done. auto.
Qed.

Lemma locked_after_append cfg name disk0 base l a d log msgs :
  locked_ok cfg name disk0 base l a -> fl_disk l !! key_of name = Some (NDir d) ->
  d_log d = Some log -> Z.of_nat (length (a_msgs a) + length msgs) < two64 ->
  Z.of_nat (length (log ++ encode_records msgs)) <= ISIZE_MAX ->
  fl_total l + payload msgs <= max_total_bytes cfg ->
  fe_total_bytes (fl_entry l) + payload msgs <= max_stream_bytes cfg ->
  locked_ok cfg name disk0 base (after_append cfg name l d log msgs) (log_append a msgs None).
Proof.
  intros Hl Hnode Hlog Hc Hmax Hg' Hs'.
  pose proof (locked_bytes _ _ _ _ _ _ Hl) as (Hb & _ & _ & _ & _ & _ & Hn).
  destruct Hl as [Hd (d0 & log0 & Hn0 & Hl0 & Hok & Ha) Hfr Hbase Ht Hmt Hg Hs].
  assert (d0 = d) as -> by congruence. assert (log0 = log) as -> by congruence.
  unfold after_append. set (disk1 := <[key_of name := _]> (fl_disk l)).
  apply (locked_notify _ _ _ _ (mkFLocked (fl_total l + payload msgs) (fpushed (fl_entry l) msgs) disk1)).
  split; cbn [fl_entry fl_disk fl_total fpushed fe_dir fe_total_bytes]; try done; try lia.
  - exists (grow_log cfg d (log ++ encode_records msgs)), (log ++ encode_records msgs).
    unfold disk1. rewrite lookup_insert_eq. split_and!; [done|apply grow_log_files|..].
    + apply fpushed_ok; [done|lia|done].
    + unfold abs_file. rewrite file_msgs_fpushed by done. by rewrite <- Ha.
  - intros c Hc'. unfold disk1. rewrite lookup_insert_ne by done. auto.
Qed.

(** What [append_records] does to the log: nothing, with a resource error, or it adds
    the batch at its tail. *)
Lemma locked_append cfg io name disk0 base l a msgs :
  locked_ok cfg name disk0 base l a -> io_fails io StatLog = false ->
  payload msgs <= ISIZE_MAX -> Z.of_nat (length (a_msgs a) + length msgs) < two64 ->
  let '(l', r) := append_records cfg io msgs l in
  (locked_ok cfg name disk0 base l' a /\ exists err, r = Err err /\ resource_error err = true) \/
  (locked_ok cfg name disk0 base l' (log_append a msgs None) /\ r = Ok tt).
Proof.
  intros Hl Hst Hp Hc. destruct msgs as [|m0 ms].
  { right. cbn. split; [|done]. unfold log_append. rewrite app_nil_r. by destruct a. }
  destruct (lk_log _ _ _ _ _ _ Hl) as (d & log & Hn & Hlog & _ & _).
  destruct (append_records_run cfg io name disk0 base l a d log (m0 :: ms) Hl Hn Hlog Hst ltac:(done) Hp Hc)
    as [(err & junk & -> & Hres & _ & Hmax & _ & _)|(-> & _ & Hmax & Hg & Hs)].
  - left. split; [by apply locked_after_failure|eauto].
  - right. split; [by apply locked_after_append|done].
Qed.
End Backend.
