(* ===== verification/FileRefinement.v ===== *)
(** * FileRefinement: the file backend implements the log contract

    Every method of [FileStorage] keeps its invariant and refines the reference
    operation, whatever log writes and syncs fail. *)

From S2P Require Import Prelude Errors Offsets RustStd Headers StorageCore LogSpec.
From S2P Require Import FileRecords FileStorage FileSections.

#[local] Arguments cleanup_stale_producers : simpl never.
#[local] Arguments append_records : simpl never.

Section Backend.
Context {F : FileLib} {L : FileLibLaws F}.

(** ** From a section to a method *)

Lemma entry_on_log cfg disk name e :
  entry_on cfg disk name e -> log_ok (log_of cfg (fe_dir e) disk) e.
Proof. intros (-> & d & log & Hn & Hl & Hok). by rewrite (log_of_child cfg _ d log). Qed.

(** An entry only depends on its own directory. *)
Lemma entry_on_frame cfg disk disk' name e :
  disk' !! key_of name = disk !! key_of name -> entry_on cfg disk name e ->
  entry_on cfg disk' name e /\
  log_of cfg (fe_dir e) disk' = log_of cfg (fe_dir e) disk.
Proof.
  intros Hk (Hd & d & log & Hn & Hl & Hok). split.
  - split; [done|]. exists d, log. by rewrite Hk.
  - rewrite Hd, !(log_of_child cfg _ d log); congruence.
Qed.

Lemma file_view_lookup st name :
  file_view st !! name =
  (fun e => abs_file (log_of (f_settings st) (fe_dir e) (f_disk st)) e) <$> f_streams st !! name.
Proof. apply lookup_fmap. Qed.

Lemma file_inv_nonneg st :
  file_inv st -> map_Forall (fun _ e => 0 <= fe_total_bytes e) (f_streams st).
Proof.
  intros Hinv name e He. destruct (fi_entries _ Hinv _ _ He) as [Hon _].
  rewrite (lo_total _ _ (entry_on_log _ _ _ _ Hon)). apply payload_nonneg.
Qed.

(** The bytes of the streams other than [name]. *)
Definition other_bytes (st : FileStorage) (name : string) : Z :=
  map_sum fe_total_bytes (delete name (f_streams st)).

Lemma other_bytes_nonneg st name : file_inv st -> 0 <= other_bytes st name.
Proof. intros Hinv. by apply map_sum_nonneg, map_Forall_delete, file_inv_nonneg. Qed.

Lemma locked_start st name e :
  file_inv st -> f_streams st !! name = Some e ->
  exists a, file_view st !! name = Some a /\
    locked_ok (f_settings st) name (f_disk st) (other_bytes st name)
      (mkFLocked (f_total_bytes st) e (f_disk st)) a.
Proof.
  intros Hinv He. eexists. rewrite file_view_lookup, He. split; [done|].
  pose proof (other_bytes_nonneg st name Hinv).
  destruct Hinv as [_ [? ?] ? Hent Hsum Hlim]. destruct (Hent _ _ He) as [Hon Hms].
  pose proof Hon as (Hd & d & log & Hn & Hl & Hok).
  split; cbn; try done.
  - exists d, log. rewrite Hd, (log_of_child _ _ d log); done.
  - rewrite Hsum. apply Z.eq_trans with (1 := map_sum_delete _ _ _ _ He). unfold other_bytes. lia.
Qed.

Lemma file_view_insert st name e disk t a :
  file_inv st -> (forall c, c <> key_of name -> disk !! c = f_disk st !! c) ->
  abs_file (log_of (f_settings st) (fe_dir e) disk) e = a ->
  file_view (mkFile (f_settings st) (<[name := e]> (f_streams st)) t disk) =
  <[name := a]> (file_view st).
Proof using L.
  intros Hinv Hfr Ha. apply map_eq. intros n'. rewrite file_view_lookup. cbn.
  destruct (decide (name = n')) as [<-|Hne].
  - rewrite !lookup_insert_eq. cbn. by rewrite Ha.
  - rewrite !lookup_insert_ne, file_view_lookup by done.
    destruct (f_streams st !! n') as [e'|] eqn:He'; [|done]. cbn. do 2 f_equal.
    destruct (fi_entries _ Hinv _ _ He') as [Hon _].
    apply (entry_on_frame _ (f_disk st) disk n'); [|done]. apply Hfr. by intros ->%key_of_inj.
Qed.

(** Putting an entry (back) into the map. *)
Lemma locked_finish st name l a :
  file_inv st ->
  locked_ok (f_settings st) name (f_disk st) (other_bytes st name) l a ->
  let st' := mkFile (f_settings st) (<[name := fl_entry l]> (f_streams st)) (fl_total l) (fl_disk l) in
  file_inv st' /\ file_view st' = <[name := a]> (file_view st).
Proof using L.
  intros Hinv [Hd (d & log & Hn & Hl & Hok & Ha) Hfr Hb Ht Hm Hg Hs] st'. split.
  - destruct Hinv as [Hdk ? ? Hent Hsum Hlim]. split; cbn; try done.
    + intros c d' log' Hc Hl'. destruct (decide (c = key_of name)) as [->|Hne].
      * assert (log' = log) as -> by congruence. apply Hok.
      * rewrite Hfr in Hc by done. by eapply Hdk.
    + intros n' e'. destruct (decide (name = n')) as [<-|Hne].
      * rewrite lookup_insert_eq. intros [= <-]. split; [|done]. split; [done|]. by exists d, log.
      * rewrite lookup_insert_ne by done. intros He'. destruct (Hent _ _ He') as [Hon ?].
        split; [|done]. apply (entry_on_frame _ (f_disk st)); [|done]. apply Hfr.
        by intros ->%key_of_inj.
    + rewrite Ht, <- insert_delete_eq, map_sum_insert_new by apply lookup_delete_eq.
      unfold other_bytes. lia.
  - apply file_view_insert; [done..|]. by rewrite Hd, (log_of_child _ _ d log).
Qed.

Lemma with_file_stream_refined {A} (section : FileSettings -> ST FLocked Error A) spec st clk name :
  file_inv st ->
  (file_view st !! name = None -> spec (file_view st) = (file_view st, Err (NotFound name))) ->
  (forall l a, file_view st !! name = Some a ->
     locked_ok (f_settings st) name (f_disk st) (other_bytes st name) l a ->
     let '(l', r) := section (f_settings st) l in
     exists a', locked_ok (f_settings st) name (f_disk st) (other_bytes st name) l' a' /\
       refined clk name spec (file_view st) (<[name := a']> (file_view st)) r) ->
  let '(st', r) := with_file_stream name section st in
  file_inv st' /\ refined clk name spec (file_view st) (file_view st') r.
Proof using L.
  intros Hinv Hnone Hsome. unfold with_file_stream.
  destruct (f_streams st !! name) as [e|] eqn:He.
  - destruct (locked_start st name e Hinv He) as (a & Hv & Hl). specialize (Hsome _ _ Hv Hl).
    destruct (section _ _) as [l' r]. destruct Hsome as (a' & Hl' & Href).
    destruct (locked_finish st name l' a' Hinv Hl') as [Hinv' Hv']. split; [done|]. by rewrite Hv'.
  - split; [done|]. apply refined_exact. rewrite Hnone; [done|]. by rewrite file_view_lookup, He.
Qed.

(** ** The methods under the lock of one stream *)

(** The metadata can be written. *)
Definition metadata_calls_ok (io : Io) : Prop :=
  io_fails io (StatDir InMeta) = false /\ io_fails io (Canonicalize InMeta) = false /\
  io_fails io MetaWrite = false /\ io_fails io MetaRename = false.

Lemma file_close_refined st io clk name :
  file_inv st -> metadata_calls_ok io ->
  let '(st', r) := file_close_stream io clk name st in
  file_inv st' /\ refined clk name (spec_close clk name) (file_view st) (file_view st') r.
Proof using L.
  intros Hinv (H1 & H2 & H3 & H4). unfold file_close_stream.
  apply with_file_stream_refined; [done|by unfold spec_close, live_stream; intros ->|].
  intros l a Hv Hl. destruct (locked_bytes _ _ _ _ _ _ Hl) as (_ & _ & Hcfg & _).
  unfold file_close_locked, st_bind, throw_if, fl_get. rewrite Hcfg.
  destruct (is_stream_expired (clk 0%nat) (a_config a)) eqn:Hx.
  - exists a. split; [done|]. apply refined_same; [done|]. unfold spec_close, live_stream.
    by rewrite Hv, Hx.
  - unfold fl_modify. apply locked_closed in Hl.
    pose proof (locked_metadata (f_settings st) io name _ _ _ _ Hl) as Hm.
    destruct (fl_write_metadata _ _ _ _) as [l' r]. destruct Hm as (Hl' & _ & Hr).
    rewrite Hr by done. exists (log_close a). split; [by apply locked_notify|].
    apply refined_exact. unfold spec_close, live_stream. by rewrite Hv, Hx.
Qed.

Lemma file_append_refined st io clk name data ct :
  file_inv st -> io_fails io StatLog = false -> fits (file_view st) name [data] ->
  let '(st', r) := file_append io clk name data ct st in
  file_inv st' /\ refined clk name (spec_append clk name data ct) (file_view st) (file_view st') r.
Proof using L.
  intros Hinv Hst (Hp & _ & Hfit). unfold file_append.
  apply with_file_stream_refined; [done|by unfold spec_append, appendable, live_stream; intros ->|].
  intros l a Hv Hl. specialize (Hfit _ Hv).
  destruct (locked_bytes _ _ _ _ _ _ Hl) as (_ & Hoff & Hcfg & Hcl & _).
  pose proof (spec_append_at clk name ct _ _ Hv data) as Hspec.
  unfold file_append_locked, st_bind, throw_if, fl_get, st_lift. rewrite Hcfg, Hcl.
  destruct (is_stream_expired _ _); [exists a; split; [done|by apply refined_same]|].
  destruct (a_closed a); [exists a; split; [done|by apply refined_same]|].
  destruct (validate_content_type _ _) as [[]|err]; [|exists a; split; [done|by apply refined_same]].
  pose proof (locked_append (f_settings st) io name _ _ _ _ [data] Hl Hst Hp Hfit) as Happ.
  destruct (append_records _ _ _ _) as [l' r].
  destruct Happ as [(Hl' & err & -> & Hres)|(Hl' & ->)].
  - exists a. split; [done|by apply refined_resource].
  - eexists. split; [exact Hl'|]. apply refined_exact. rewrite Hspec. cbn. by rewrite Hoff.
Qed.

Lemma file_batch_append_refined st io clk name msgs ct seq :
  file_inv st -> io_fails io StatLog = false -> fits (file_view st) name msgs ->
  let '(st', r) := file_batch_append io clk name msgs ct seq st in
  file_inv st' /\
  refined clk name (spec_batch_append clk name msgs ct seq) (file_view st) (file_view st') r.
Proof using L.
  intros Hinv Hst (Hp & _ & Hfit). unfold file_batch_append.
  destruct msgs as [|m0 ms]; [split; [done|by apply refined_exact]|]. set (msgs := m0 :: ms) in *.
  apply with_file_stream_refined; [done|by unfold spec_batch_append, appendable, live_stream; intros ->|].
  intros l a Hv Hl. specialize (Hfit _ Hv).
  destruct (locked_bytes _ _ _ _ _ _ Hl) as (_ & _ & Hcfg & Hcl & _ & Hseq & _).
  pose proof (spec_batch_append_at clk name ct _ _ Hv msgs seq ltac:(done)) as Hspec.
  unfold file_batch_append_locked, st_bind at 1 2 3 4 5 6, throw_if, fl_get, st_lift.
  rewrite Hcfg, Hcl, Hseq.
  destruct (is_stream_expired _ _); [exists a; split; [done|by apply refined_same]|].
  destruct (a_closed a); [exists a; split; [done|by apply refined_same]|].
  destruct (validate_content_type _ _) as [[]|err]; [|exists a; split; [done|by apply refined_same]].
  destruct (validate_seq (a_last_seq a) seq) as [pending|err] eqn:Hvs;
    [|exists a; split; [done|by apply refined_same]].
  apply validate_seq_ok in Hvs as [-> _]. cbn in Hspec.
  pose proof (locked_append (f_settings st) io name _ _ _ _ msgs Hl Hst Hp Hfit) as Happ.
  destruct (append_records _ _ _ _) as [l' r].
  destruct Happ as [(Hl' & err & -> & Hres)|(Hl' & ->)];
    [exists a; split; [done|by apply refined_resource]|].
  destruct seq as [q|].
  - unfold st_bind at 1. cbn. apply (locked_seq _ _ _ _ _ _ q) in Hl'. unfold fl_ignore.
    pose proof (locked_metadata (f_settings st) io name _ _ _ _ Hl') as Hm.
    destruct (fl_write_metadata _ _ _ _) as [l2 r2]. destruct Hm as (Hl2 & _ & _).
    eexists. split; [exact Hl2|]. destruct (locked_bytes _ _ _ _ _ _ Hl2) as (_ & -> & _).
    apply refined_exact. rewrite Hspec. unfold log_append; cbn. by rewrite app_nil_r.
  - cbn. eexists. split; [exact Hl'|]. destruct (locked_bytes _ _ _ _ _ _ Hl') as (_ & -> & _).
    by apply refined_exact.
Qed.

(** [log_accept] adds the batch first, then the rest. *)
Lemma log_accept_steps a msgs p close seq now :
  log_accept a msgs p close seq now = log_accept (log_append a msgs None) [] p close seq now.
Proof. unfold log_accept, log_append; simpl. by rewrite app_nil_r. Qed.

(** What an accepted producer request changes besides the log. *)
Definition accept_entry (p : ProducerHeaders) (close : bool) (seq : option string) (now : Z)
    (e : FileEntry) : FileEntry :=
  let e := match seq with Some q => fe_set_last_seq e (Some q) | None => e end in
  let e := if close then fe_set_closed e true else e in
  fe_set_producers e (<[ph_id p := mkProducerState (ph_epoch p) (ph_seq p) now]> (fe_producers e)).

Lemma producer_commit_run cfg io now name msgs p close seq l :
  file_producer_commit cfg io now name msgs p close seq l =
  (let* _ := append_records cfg io msgs in
   let* _ := fl_modify (accept_entry p close seq now) in
   let* _ := fl_ignore (fl_write_metadata cfg io name) in
   let* stream := fl_get in
   st_ret (Accepted (ph_epoch p) (ph_seq p) (fe_next_offset stream) (fe_closed stream))) l.
Proof.
  unfold file_producer_commit, st_bind. destruct (append_records _ _ _ _) as [l' [[]|e]]; [|done].
  by destruct l', seq, close.
Qed.

Lemma locked_accept cfg name disk0 base l a p close seq now :
  locked_ok cfg name disk0 base l a ->
  locked_ok cfg name disk0 base
    (mkFLocked (fl_total l) (accept_entry p close seq now (fl_entry l)) (fl_disk l))
    (log_accept a [] p close seq now).
Proof.
  intros Hl. assert (exists l2, fl_total l2 = fl_total l /\ fl_disk l2 = fl_disk l /\
    fl_entry l2 = match seq with Some q => fe_set_last_seq (fl_entry l) (Some q) | None => fl_entry l end /\
    locked_ok cfg name disk0 base l2 (log_append a [] seq)) as (l2 & Ht2 & Hk2 & He2 & Hl2).
  { destruct seq as [q|].
    - eexists. split_and!; [..|by apply locked_seq]; done.
    - exists l. split_and!; try done. unfold log_append. rewrite app_nil_r. by destruct a. }
  assert (exists l3, fl_total l3 = fl_total l /\ fl_disk l3 = fl_disk l /\
    fl_entry l3 = (if close then fe_set_closed (fl_entry l2) true else fl_entry l2) /\
    locked_ok cfg name disk0 base l3 (if close then log_close (log_append a [] seq) else log_append a [] seq))
    as (l3 & Ht3 & Hk3 & He3 & Hl3).
  { destruct close; [|by exists l2]. eexists. split_and!; [..|by apply locked_closed]; done. }
  unfold accept_entry. rewrite <- He2, <- He3, <- Ht3, <- Hk3.
  assert (log_accept a [] p close seq now =
    log_set_producers (if close then log_close (log_append a [] seq) else log_append a [] seq)
      (<[ph_id p := mkProducerState (ph_epoch p) (ph_seq p) now]> (fe_producers (fl_entry l3)))) as ->;
    [|by apply locked_producers].
  destruct (locked_bytes _ _ _ _ _ _ Hl3) as (_ & _ & _ & _ & -> & _). by destruct close.
Qed.

Lemma locked_producer_commit cfg io now name msgs p close seq disk0 base l a :
  locked_ok cfg name disk0 base l a -> io_fails io StatLog = false ->
  payload msgs <= ISIZE_MAX -> Z.of_nat (length (a_msgs a) + length msgs) < two64 ->
  let '(l', r) := file_producer_commit cfg io now name msgs p close seq l in
  (locked_ok cfg name disk0 base l' a /\ exists err, r = Err err /\ resource_error err = true) \/
  (let a' := log_accept a msgs p close seq now in
   locked_ok cfg name disk0 base l' a' /\
   r = Ok (Accepted (ph_epoch p) (ph_seq p) (a_next_offset a') (a_closed a'))).
Proof using L.
  intros Hl Hst Hp Hc. rewrite producer_commit_run. unfold st_bind at 1.
  pose proof (locked_append cfg io name _ _ _ _ msgs Hl Hst Hp Hc) as Happ.
  destruct (append_records _ _ _ _) as [l1 r1].
  destruct Happ as [(Hl1 & err & -> & Hres)|(Hl1 & ->)]; [left; eauto|].
  rewrite log_accept_steps. apply (locked_accept _ _ _ _ _ _ p close seq now) in Hl1.
  unfold st_bind, fl_modify, fl_ignore, fl_get, st_ret.
  pose proof (locked_metadata cfg io name _ _ _ _ Hl1) as Hm.
  destruct (fl_write_metadata _ _ _ _) as [l4 r4]. destruct Hm as (Hl4 & _ & _).
  right. split; [exact Hl4|]. destruct (locked_bytes _ _ _ _ _ _ Hl4) as (_ & -> & _ & -> & _). done.
Qed.

(** After the stale producers are gone, the section decides on the tidied log. *)
Lemma locked_producer_tidied cfg io clk name msgs ct p close seq disk0 base l a :
  locked_ok cfg name disk0 base l a -> io_fails io StatLog = false ->
  payload msgs <= ISIZE_MAX -> Z.of_nat (length (a_msgs a) + length msgs) < two64 ->
  is_stream_expired (clk 0%nat) (a_config a) = false ->
  let '(l', r) := file_producer_locked cfg io clk name msgs ct p close seq l in
  exists a', locked_ok cfg name disk0 base l' a' /\
    (match log_produce (log_tidy clk a) msgs ct p close seq (clk 2%nat) with
     | Ok (b, x) => a' = b /\ r = Ok x
     | Err err => a' = log_tidy clk a /\ r = Err err
     end \/ (a' = log_tidy clk a /\ exists err, r = Err err /\ resource_error err = true)).
Proof using L.
  intros Hl Hst Hp Hc Hx. destruct (locked_bytes _ _ _ _ _ _ Hl) as (_ & _ & Hcfg & _ & Hps & _).
  unfold file_producer_locked, st_bind at 1 2 3, fl_get, throw_if, fl_modify. rewrite Hcfg, Hx.
  apply (locked_producers _ _ _ _ _ _ (cleanup_stale_producers (clk 1%nat) (fe_producers (fl_entry l)))) in Hl.
  rewrite Hps in Hl at 2. change (log_set_producers a _) with (log_tidy clk a) in Hl.
  set (l1 := mkFLocked _ _ _) in *. set (a1 := log_tidy clk a) in *.
  destruct (locked_bytes _ _ _ _ _ _ Hl) as (_ & Hoff & _ & Hcl & Hps1 & Hsq & _).
  unfold st_bind at 1.
  assert ((match msgs with [] => st_ret tt
           | _ :: _ => st_lift (validate_content_type (content_type (a_config a)) ct) end) l1 =
          (l1, if decide (msgs = []) then Ok tt
             else validate_content_type (content_type (a_config a)) ct)) as ->
    by by destruct msgs.
  unfold log_produce. change (a_config a1) with (a_config a).
  destruct (if decide (msgs = []) then _ else _) as [[]|err]; [|by exists a1; split; [|left]]. cbn [result_bind].
  unfold st_bind at 1 2, st_lift. rewrite Hps1, Hcl.
  destruct (check_producer _ _ _) as [[|ep q]|err]; cbn [result_bind]; [| |by exists a1; split; [|left]].
  2:{ unfold st_ret. rewrite Hoff. by exists a1; split; [|left]. }
  unfold st_bind at 1. rewrite Hsq.
  destruct (validate_seq (a_last_seq a1) seq) as [pending|err] eqn:Hvs; cbn [result_bind];
    [|by exists a1; split; [|left]].
  apply validate_seq_ok in Hvs as [-> _].
  pose proof (locked_producer_commit cfg io (clk 2%nat) name msgs p close seq _ _ _ _ Hl Hst Hp Hc) as Hcm.
  destruct (file_producer_commit _ _ _ _ _ _ _ _ _) as [l2 r2].
  destruct Hcm as [(Hl2 & Hr)|[Hl2 ->]]; eexists; (split; [exact Hl2|]); [by right|by left].
Qed.

Lemma file_append_with_producer_refined st io clk name msgs ct p close seq :
  file_inv st -> io_fails io StatLog = false -> fits (file_view st) name msgs ->
  let '(st', r) := file_append_with_producer io clk name msgs ct p close seq st in
  file_inv st' /\
  refined clk name (spec_append_with_producer clk name msgs ct p close seq)
    (file_view st) (file_view st') r.
Proof using L.
  intros Hinv Hst (Hp & _ & Hfit). unfold file_append_with_producer.
  apply with_file_stream_refined;
    [done|by unfold spec_append_with_producer, live_stream; intros ->|].
  intros l a Hv Hl. specialize (Hfit _ Hv).
  destruct (is_stream_expired (clk 0%nat) (a_config a)) eqn:Hx.
  - destruct (locked_bytes _ _ _ _ _ _ Hl) as (_ & _ & Hcfg & _).
    unfold file_producer_locked, st_bind at 1 2, throw_if, fl_get. rewrite Hcfg, Hx.
    exists a. split; [done|]. apply refined_same; [done|].
    unfold spec_append_with_producer, live_stream. by rewrite Hv, Hx.
  - pose proof (locked_producer_tidied (f_settings st) io clk name msgs ct p close seq _ _ _ _
      Hl Hst Hp Hfit Hx) as H.
    destruct (file_producer_locked _ _ _ _ _ _ _ _ _ _) as [l' r]. destruct H as (a' & Hl' & H).
    exists a'. split; [done|]. by eapply refined_produce.
Qed.

(** ** The methods under the lock of the map *)

Lemma file_view_delete st name disk t :
  file_inv st -> (forall c, c <> key_of name -> disk !! c = f_disk st !! c) ->
  file_view (mkFile (f_settings st) (delete name (f_streams st)) t disk) = delete name (file_view st).
Proof using L.
  intros Hinv Hfr. apply map_eq. intros n'. rewrite file_view_lookup. cbn.
  destruct (decide (name = n')) as [<-|Hne]; [by rewrite !lookup_delete_eq|].
  rewrite !lookup_delete_ne, file_view_lookup by done.
  destruct (f_streams st !! n') as [e'|] eqn:He'; [|done]. cbn. do 2 f_equal.
  destruct (fi_entries _ Hinv _ _ He') as [Hon _].
  apply (entry_on_frame _ (f_disk st) disk n'); [|done]. apply Hfr. by intros ->%key_of_inj.
Qed.

(** The directory can be removed. *)
Definition remove_calls_ok (io : Io) : Prop :=
  io_fails io (StatDir InRemove) = false /\ io_fails io (Canonicalize InRemove) = false /\
  io_fails io RemoveDir = false.

(** Taking a stream out gives back exactly its bytes and its directory. *)
Lemma remove_stream_spec st io name e :
  file_inv st -> remove_calls_ok io -> f_streams st !! name = Some e ->
  exists st', remove_stream io name e st = (st', Ok tt) /\ file_inv st' /\
    file_view st' = delete name (file_view st) /\ f_streams st' = delete name (f_streams st) /\
    f_settings st' = f_settings st /\ f_disk st' = delete (key_of name) (f_disk st).
Proof using L.
  intros Hinv (H1 & H2 & H3) He. destruct (fi_entries _ Hinv _ _ He) as [Hon _].
  pose proof Hon as (Hd & d & log & Hn & Hl & Hok). unfold remove_stream, remove_stream_dir.
  rewrite Hd, (validate_child _ _ _ _ d), dir_key_child, (lookup_dir_child _ _ d), H3 by done.
  eexists. split; [reflexivity|]. split; [|split_and!; try done].
  - pose proof (map_sum_lookup_le _ _ _ _ (file_inv_nonneg _ Hinv) He) as Hle.
    rewrite <- (fi_sum _ Hinv) in Hle. unfold saturating_sub64.
    destruct Hinv as [Hdk ? ? Hent Hsum Hlim]. split; cbn; try done.
    + intros c d' log' Hc. apply lookup_delete_Some in Hc as [_ Hc]. by eapply Hdk.
    + intros n' e' [Hne He']%lookup_delete_Some. destruct (Hent _ _ He') as [Hon' ?].
      split; [|done]. apply (entry_on_frame _ (f_disk st)); [|done].
      apply lookup_delete_ne. by intros ->%key_of_inj.
    + rewrite Hsum, (map_sum_delete _ _ _ _ He) in *. lia.
    + lia.
  - apply file_view_delete; [done|]. intros c Hc. by apply lookup_delete_ne.
Qed.

Lemma file_delete_spec st io name :
  file_inv st -> remove_calls_ok io ->
  let '(st', r) := file_delete io name st in
  file_inv st' /\ (file_view st', r) = spec_delete name (file_view st).
Proof using L.
  intros Hinv Hio. unfold file_delete, spec_delete. rewrite file_view_lookup.
  destruct (f_streams st !! name) as [e|] eqn:He; cbn; [|done].
  destruct (remove_stream_spec st io name e Hinv Hio He) as (st' & -> & Hinv' & Hv & _).
  by rewrite Hv.
Qed.

(** An entry that is being built and then given up leaves nothing in the map and no
    bytes in the counter. *)
Lemma locked_abandon st name l a :
  file_inv st -> f_streams st !! name = None -> a_msgs a = [] ->
  locked_ok (f_settings st) name (f_disk st) (other_bytes st name) l a ->
  let st' := mkFile (f_settings st) (f_streams st) (fl_total l) (fl_disk l) in
  file_inv st' /\ file_view st' = file_view st.
Proof using L.
  intros Hinv Hnone Ha Hl st'. destruct (locked_finish st name l a Hinv Hl) as [Hinv' _].
  destruct Hl as [Hd (d & log & Hn & Hlog & Hok & Habs) Hfr Hb Ht _ _ _].
  assert (fe_total_bytes (fl_entry l) = 0) as Hz.
  { rewrite (lo_total _ _ Hok). rewrite <- Habs in Ha. cbn in Ha. by rewrite Ha. }
  unfold other_bytes in Ht. rewrite delete_id in Ht by done. split.
  - destruct Hinv as [Hdk ? ? Hent Hsum Hlim], Hinv' as [Hdk' _ _ Hent' _ Hlim'].
    split; cbn in *; try done; [|lia].
    intros n' e' He'. apply Hent'. rewrite lookup_insert_ne; [done|]. by intros ->; rewrite Hnone in He'.
  - pose proof (file_view_delete st name (fl_disk l) (fl_total l) Hinv Hfr) as Hv.
    rewrite !delete_id in Hv; [done| |done]. by rewrite file_view_lookup, Hnone.
Qed.

(** A directory no entry uses may change. *)
Lemma file_inv_disk st name disk :
  file_inv st -> f_streams st !! name = None -> disk_ok disk ->
  (forall c, c <> key_of name -> disk !! c = f_disk st !! c) ->
  file_inv (set_disk st disk) /\ file_view (set_disk st disk) = file_view st.
Proof using L.
  intros Hinv Hnone Hdk Hfr. split.
  - destruct Hinv as [_ ? ? Hent Hsum Hlim]. split; cbn; try done.
    intros n' e' He'. destruct (Hent _ _ He') as [Hon ?]. split; [|done].
    apply (entry_on_frame _ (f_disk st)); [|done]. apply Hfr. intros ->%key_of_inj. congruence.
  - pose proof (file_view_delete st name disk (f_total_bytes st) Hinv Hfr) as Hv.
    rewrite !delete_id in Hv; [done| |done]. by rewrite file_view_lookup, Hnone.
Qed.

Lemma stream_dir_for_name_spec cfg name :
  (exists msg, stream_dir_for_name cfg name = Err (StorageError msg)) \/
  stream_dir_for_name cfg name = Ok (path_join (root_dir cfg) (key_of name)).
Proof. unfold stream_dir_for_name. fold (key_of name). repeat case_match; eauto. Qed.

(** Every failure of a validation is a storage error. *)
Lemma validate_stream_dir_err cfg io caller dir disk e :
  validate_stream_dir cfg io caller dir disk = Err e -> exists msg, e = StorageError msg.
Proof. unfold validate_stream_dir. repeat case_match; intros; simplify_eq; eauto. Qed.

(** A path passes validation with an existing target only as a plain directory right
    below the root. *)
Lemma validate_stream_dir_dir cfg io caller c disk :
  validate_stream_dir cfg io caller (root_dir cfg ++ [c]) disk = Ok tt ->
  disk !! c = None \/ disk !! c = Some (NSymlink None) \/ exists d, disk !! c = Some (NDir d).
Proof.
  unfold validate_stream_dir. rewrite strip_prefix_child.
  destruct (disk !! c) as [[d| |[]]|]; cbn; repeat case_match; intros; simplify_eq; eauto.
Qed.

Lemma disk_ok_insert disk c d :
  disk_ok disk -> (forall log, d_log d = Some log -> Z.of_nat (length log) <= ISIZE_MAX) ->
  disk_ok (<[c := NDir d]> disk).
Proof.
  intros Hdk Hd c' d' log'. destruct (decide (c = c')) as [<-|Hne].
  - rewrite lookup_insert_eq. intros [= <-]. apply Hd.
  - rewrite lookup_insert_ne by done. apply Hdk.
Qed.

Lemma create_dir_all_spec cfg io c disk :
  disk_ok disk ->
  let '(disk1, r) := create_dir_all cfg io (root_dir cfg ++ [c]) disk in
  disk_ok disk1 /\ (forall c', c' <> c -> disk1 !! c' = disk !! c') /\
  ((exists msg, r = Err (StorageError msg)) \/ (r = Ok tt /\ node_is_dir (disk1 !! c) = true)).
Proof.
  intros Hdk. unfold create_dir_all. rewrite strip_prefix_child.
  destruct (io_fails io CreateDir); [by eauto 10|].
  destruct (disk !! c) as [n|] eqn:Hn.
  - split_and!; [done..|]. rewrite Hn. destruct (node_is_dir _); eauto.
  - split_and!; [by apply disk_ok_insert|intros c' Hc; by apply lookup_insert_ne|].
    right. by rewrite lookup_insert_eq.
Qed.

(** A fresh entry over a log nobody points into. *)
Lemma locked_new st io now config name disk d log :
  file_inv st -> f_streams st !! name = None -> io_fails io StatNewLog = false ->
  (forall c, c <> key_of name -> disk !! c = f_disk st !! c) ->
  disk !! key_of name = Some (NDir d) -> d_log d = Some log -> Z.of_nat (length log) <= ISIZE_MAX ->
  locked_ok (f_settings st) name (f_disk st) (other_bytes st name)
    (mkFLocked (f_total_bytes st)
       (FileEntry_new (f_settings st) io now config (root_dir (f_settings st) ++ [key_of name]) disk)
       disk)
    (mkAStream config [] false now ∅ None).
Proof.
  intros Hinv Hnone Hst Hfr Hn Hlog Hmax. pose proof (other_bytes_nonneg st name Hinv).
  destruct Hinv as [Hdk [? ?] [? ?] Hent Hsum Hlim]. unfold FileEntry_new. rewrite Hst.
  split; cbn; try done.
  - exists d, log. split_and!; try done. rewrite (log_of_child _ _ d log) by done.
    split; cbn; try done; lia.
  - unfold other_bytes. rewrite delete_id by done. lia.
Qed.

Lemma open_new_entry_spec st io clk name config :
  file_inv st -> f_streams st !! name = None -> io_fails io StatNewLog = false ->
  let '(st1, r) := open_new_entry io clk name config st in
  st1 = set_disk st (f_disk st1) /\
  ((exists err, r = Err err /\ resource_error err = true /\
      file_inv st1 /\ file_view st1 = file_view st) \/
   (exists e, r = Ok e /\
      locked_ok (f_settings st) name (f_disk st) (other_bytes st name)
        (mkFLocked (f_total_bytes st) e (f_disk st1)) (new_stream clk config [] false))).
Proof using L.
  intros Hinv Hnone Hst. set (cfg := f_settings st).
  assert (forall disk msg, disk_ok disk -> (forall c, c <> key_of name -> disk !! c = f_disk st !! c) ->
    exists err, Err (A:=FileEntry) (StorageError msg) = Err err /\ resource_error err = true /\
      file_inv (set_disk st disk) /\ file_view (set_disk st disk) = file_view st) as Hfail.
  { intros disk msg Hdk Hfr. eexists. split_and!; [done|done|..]; by eapply (file_inv_disk st name). }
  assert (set_disk st (f_disk st) = st) as Heta by by destruct st.
  unfold open_new_entry, st_bind at 1. fold cfg.
  destruct (stream_dir_for_name_spec cfg name) as [[msg ->]| ->].
  { split; [done|left]. exists (StorageError msg). by split_and!. }
  unfold path_join. destruct (bool_decide_reflect (key_of name = "")) as [Hk|Hk].
  - (* the root itself has depth zero *)
    assert (path_strip_prefix (root_dir cfg) (root_dir cfg) = Some []) as Hsp.
    { unfold path_strip_prefix, path_starts_with. rewrite bool_decide_eq_true_2 by done.
      by rewrite drop_all. }
    assert (path_starts_with (root_dir cfg) (root_dir cfg) = true) as Hsw
      by by apply bool_decide_eq_true_2.
    unfold st_bind, on_disk, create_dir_all. fold cfg. rewrite Hsp.
    destruct (io_fails io CreateDir); rewrite Heta.
    { split; [done|left]. eexists. by split_and!. }
    unfold validate_stream_dir. fold cfg. rewrite Hsw, Hsp. cbn.
    split; [done|left]. eexists. by split_and!.
  - unfold st_bind at 1, on_disk at 1. fold cfg.
    pose proof (create_dir_all_spec cfg io (key_of name) (f_disk st) (fi_disk _ Hinv)) as Hc.
    destruct (create_dir_all _ _ _ _) as [disk1 r1]. destruct Hc as (Hdk1 & Hfr1 & Hr1).
    destruct Hr1 as [[msg ->]|[-> Hdir]]; [split; [done|left; by apply Hfail]|].
    unfold st_bind at 1. cbn [f_settings f_disk set_disk]. fold cfg.
    destruct (validate_stream_dir cfg io InCreate _ _) as [[]|err] eqn:Hv.
    2:{ destruct (validate_stream_dir_err _ _ _ _ _ _ Hv) as [msg ->].
        split; [done|left; by apply Hfail]. }
    apply validate_stream_dir_dir in Hv.
    assert (exists d, disk1 !! key_of name = Some (NDir d)) as [d Hd].
    { destruct Hv as [Hv|[Hv|?]]; [by rewrite Hv in Hdir..|done]. }
    unfold st_bind at 1, on_disk at 1, open_stream_file. cbn [f_settings f_disk set_disk]. fold cfg.
    destruct (validate_stream_dir cfg io InOpen _ _) as [[]|err] eqn:Hv2.
    2:{ destruct (validate_stream_dir_err _ _ _ _ _ _ Hv2) as [msg ->].
        split; [done|left; by apply Hfail]. }
    rewrite (lookup_dir_child cfg _ d) by done.
    destruct (io_fails io OpenLog); [split; [done|left; by apply Hfail]|].
    rewrite update_dir_child. cbn [set_disk f_settings f_disk]. split; [done|right].
    eexists. split; [done|].
    apply (locked_new st io (clk 1%nat) config name _ (set_log d (default [] (d_log d))) (default [] (d_log d)));
      try done.
    + intros c Hc. rewrite lookup_insert_ne by done. auto.
    + apply lookup_insert_eq.
    + destruct (d_log d) as [log|] eqn:Hl; [by eapply Hdk1|done].
Qed.

Lemma persist_and_insert_spec st io name t e disk a :
  file_inv st -> metadata_calls_ok io ->
  locked_ok (f_settings st) name (f_disk st) (other_bytes st name) (mkFLocked t e disk) a ->
  exists disk', persist_and_insert io name e (mkFile (f_settings st) (f_streams st) t disk) =
    (mkFile (f_settings st) (<[name := e]> (f_streams st)) t disk', Ok tt) /\
    let st' := mkFile (f_settings st) (<[name := e]> (f_streams st)) t disk' in
    file_inv st' /\ file_view st' = <[name := a]> (file_view st).
Proof using L.
  intros Hinv (H1 & H2 & H3 & H4) Hl.
  pose proof (locked_metadata (f_settings st) io name _ _ _ _ Hl) as Hm.
  unfold fl_write_metadata, st_bind, fl_get, fl_on_disk in Hm; cbn in Hm.
  unfold persist_and_insert, st_bind, on_disk; cbn.
  destruct (write_metadata_for _ _ _ _ _) as [disk' r]. destruct Hm as (Hl' & _ & Hr).
  rewrite Hr by done. exists disk'. split; [done|].
  exact (locked_finish st name (mkFLocked t e disk') a Hinv Hl').
Qed.

(** The calls of the create methods other than those on the log. *)
Definition create_calls_ok (io : Io) : Prop :=
  metadata_calls_ok io /\ remove_calls_ok io /\ io_fails io StatNewLog = false /\
  io_fails io StatLog = false.

Lemma create_new_refined st0 st io clk name config :
  file_inv st -> f_streams st !! name = None -> create_calls_ok io ->
  housekeeping clk name (file_view st0) (file_view st) ->
  let '(st', r) := create_new io clk name config st in
  file_inv st' /\ refined clk name (spec_create clk name config) (file_view st0) (file_view st') r.
Proof using L.
  intros Hinv Hnone (Hm & _ & Hst & _) Hhk. unfold create_new, st_bind at 1.
  pose proof (open_new_entry_spec st io clk name config Hinv Hnone Hst) as Ho.
  destruct (open_new_entry _ _ _ _ _) as [st1 r]. destruct Ho as [-> [Ho|Ho]].
  - destruct Ho as (err & -> & Hres & Hinv1 & Hv1). split; [done|].
    exists (file_view st). split; [done|right]. rewrite Hv1. eauto.
  - destruct Ho as (e & -> & Hl). cbn [f_disk set_disk] in Hl. unfold st_bind at 1.
    destruct (persist_and_insert_spec st io name _ e _ _ Hinv Hm Hl) as (disk' & Hp & Hinv' & Hv').
    unfold set_disk. rewrite Hp. unfold st_ret. split; [done|]. exists (file_view st). split; [done|left].
    rewrite Hv'. unfold spec_create, live_stream. by rewrite file_view_lookup, Hnone.
Qed.

Lemma live_stream_file clk name st :
  live_stream clk name (file_view st) =
  match f_streams st !! name with
  | None => Err (NotFound name)
  | Some e => if is_stream_expired (clk 0%nat) (fe_config e) then Err StreamExpired
              else Ok (abs_file (log_of (f_settings st) (fe_dir e) (f_disk st)) e)
  end.
Proof. unfold live_stream. rewrite file_view_lookup. by destruct (f_streams st !! name). Qed.

(** Making room for a new stream: an expired one of the same name goes first. *)
Lemma remove_expired_housekeeping st io clk name e :
  file_inv st -> remove_calls_ok io -> f_streams st !! name = Some e ->
  is_stream_expired (clk 0%nat) (fe_config e) = true ->
  exists st1, remove_stream io name e st = (st1, Ok tt) /\ file_inv st1 /\
    f_streams st1 !! name = None /\ housekeeping clk name (file_view st) (file_view st1).
Proof using L.
  intros Hinv Hio He Hx.
  destruct (remove_stream_spec st io name e Hinv Hio He) as (st1 & Hr & Hinv1 & Hv1 & Hs1 & _).
  exists st1. rewrite Hs1, lookup_delete_eq, Hv1. split_and!; try done.
  eapply hk_expired; [by rewrite file_view_lookup, He|done].
Qed.

Lemma file_create_refined st io clk name config :
  file_inv st -> create_calls_ok io ->
  let '(st', r) := file_create_stream io clk name config st in
  file_inv st' /\ refined clk name (spec_create clk name config) (file_view st) (file_view st') r.
Proof using L.
  intros Hinv Hio. unfold file_create_stream. destruct (f_streams st !! name) as [e|] eqn:He.
  - destruct (is_stream_expired (clk 0%nat) (fe_config e)) eqn:Hx.
    + destruct (remove_expired_housekeeping st io clk name e Hinv) as (st1 & Hr & Hinv1 & Hn1 & Hhk);
        [apply Hio|done..|].
      unfold st_bind. rewrite Hr. by apply create_new_refined.
    + destruct (config_eq (fe_config e) config) eqn:Hc; (split; [done|]); apply refined_exact;
        unfold spec_create; rewrite live_stream_file, He, Hx; cbn; by rewrite Hc.
  - apply create_new_refined; [done..|constructor].
Qed.

Lemma create_new_with_data_refined st0 st io clk name config msgs close :
  file_inv st -> f_streams st !! name = None -> create_calls_ok io ->
  payload msgs <= ISIZE_MAX -> Z.of_nat (length msgs) < two64 ->
  housekeeping clk name (file_view st0) (file_view st) ->
  let '(st', r) := create_new_with_data io clk name config msgs close st in
  file_inv st' /\ refined clk name (spec_create_with_data clk name config msgs close)
                    (file_view st0) (file_view st') r.
Proof using L.
  intros Hinv Hnone (Hm & _ & Hst & Hsl) Hp Hlen Hhk. unfold create_new_with_data, st_bind at 1.
  pose proof (open_new_entry_spec st io clk name config Hinv Hnone Hst) as Ho.
  destruct (open_new_entry _ _ _ _ _) as [st1 r]. destruct Ho as [-> [Ho|Ho]].
  { destruct Ho as (err & -> & Hres & Hinv1 & Hv1). split; [done|].
    exists (file_view st). split; [done|right]. rewrite Hv1. eauto. }
  destruct Ho as (e & -> & Hl). cbn [f_disk set_disk] in Hl. unfold st_bind at 1.
  assert ((match msgs with [] => st_ret e | _ :: _ => append_to_new io e msgs end) (set_disk st (f_disk st1)) =
          append_to_new io e msgs (set_disk st (f_disk st1))) as -> by by destruct msgs.
  unfold append_to_new. cbn [set_disk f_settings f_streams f_total_bytes f_disk].
  pose proof (locked_append (f_settings st) io name _ _ _ _ msgs Hl Hsl Hp Hlen) as Happ.
  destruct (append_records _ _ _ _) as [l2 r2].
  destruct Happ as [(Hl2 & err & -> & Hres)|(Hl2 & ->)].
  { destruct (locked_abandon st name l2 (new_stream clk config [] false) Hinv Hnone eq_refl Hl2) as [Hinv2 Hv2].
    split; [done|]. exists (file_view st). split; [done|right]. rewrite Hv2. eauto. }
  assert (locked_ok (f_settings st) name (f_disk st) (other_bytes st name)
    (mkFLocked (fl_total l2) (if close then fe_set_closed (fl_entry l2) true else fl_entry l2) (fl_disk l2))
    (new_stream clk config msgs close)) as Hl3.
  { destruct close; [exact (locked_closed _ _ _ _ _ _ Hl2)|]. destruct l2. exact Hl2. }
  destruct (locked_bytes _ _ _ _ _ _ Hl3) as (_ & Hoff & _ & Hcl & _). unfold st_bind at 1.
  cbn [fl_entry] in Hoff, Hcl.
  destruct (persist_and_insert_spec st io name _ _ _ _ Hinv Hm Hl3) as (disk' & Hpi & Hinv' & Hv').
  rewrite Hpi. unfold st_ret. split; [done|]. exists (file_view st). split; [done|left].
  rewrite Hv', Hoff, Hcl. unfold spec_create_with_data, live_stream. by rewrite file_view_lookup, Hnone.
Qed.

Lemma file_create_with_data_refined st io clk name config msgs close :
  file_inv st -> create_calls_ok io -> fits (file_view st) name msgs ->
  let '(st', r) := file_create_stream_with_data io clk name config msgs close st in
  file_inv st' /\ refined clk name (spec_create_with_data clk name config msgs close)
                    (file_view st) (file_view st') r.
Proof using L.
  intros Hinv Hio (Hp & Hlen & _). unfold file_create_stream_with_data.
  destruct (f_streams st !! name) as [e|] eqn:He.
  - destruct (is_stream_expired (clk 0%nat) (fe_config e)) eqn:Hx.
    + destruct (remove_expired_housekeeping st io clk name e Hinv) as (st1 & Hr & Hinv1 & Hn1 & Hhk);
        [apply Hio|done..|].
      unfold st_bind. rewrite Hr. by apply create_new_with_data_refined.
    + destruct (locked_start st name e Hinv He) as (a & Hv & Hl).
      destruct (locked_bytes _ _ _ _ _ _ Hl) as (_ & Hoff & Hcfg & Hcl & _). cbn in Hoff, Hcfg, Hcl.
      destruct (config_eq (fe_config e) config) eqn:Hc; (split; [done|]); apply refined_exact;
        unfold spec_create_with_data, live_stream; rewrite Hv, <- Hcfg, Hx; cbv iota beta;
        rewrite <- Hcfg, Hc, ?Hoff, ?Hcl; done.
  - apply create_new_with_data_refined; [done..|constructor].
Qed.
End Backend.
