(* ===== verification/FileLawful.v ===== *)
(** * FileLawful: the file backend as a [Storage]

    The read-only methods, runs of the backend under a schedule of failing system
    calls, and the instance of [LawfulStorage] for them. *)

From S2P Require Import Prelude Errors Offsets RustStd Headers StorageCore LogSpec.
From S2P Require Import FileRecords FileStorage FileSections FileRefinement.

Section ReadOnly.
Context {F : FileLib} {L : FileLibLaws F}.

(** The file can be read. *)
Definition read_calls_ok (io : Io) : Prop :=
  io_fails io CloneHandle = false /\ io_fails io SeekLog = false /\ io_fails io ReadLog = false.

(** A slice of the index reads as the corresponding end of the log. *)
Lemma read_messages_drop io log e i :
  read_calls_ok io -> log_ok log e ->
  read_messages io log (drop i (fe_index e)) = Ok (drop i (file_msgs log e)).
Proof.
  intros (H1 & H2 & H3) Hok. rewrite read_messages_spec; try done.
  - unfold file_msgs. by rewrite <- fmap_drop.
  - apply Hok.
  - apply (well_placed_drop 0); [lia|]. apply Hok.
Qed.

Lemma file_start_index_from e log rs bo txt :
  log_ok log e ->
  drop (file_start_index e (Concrete rs bo txt)) (file_msgs log e) =
  messages_from (Concrete rs bo txt) (file_msgs log e).
Proof. intros Hok. symmetry. apply (search_place ix_offset). exact (lo_offsets _ _ Hok). Qed.

Lemma file_read_spec st io clk name o :
  file_inv st -> read_calls_ok io ->
  file_read_stream io clk name o st = spec_read clk name o (file_view st).
Proof.
  intros Hinv Hio. unfold file_read_stream, spec_read. rewrite live_stream_file.
  destruct (f_streams st !! name) as [e|] eqn:He; [|done].
  destruct (fi_entries _ Hinv _ _ He) as [Hon _]. apply entry_on_log in Hon as Hok.
  destruct (locked_start st name e Hinv He) as (a & Hv & Hl).
  destruct (locked_bytes _ _ _ _ _ _ Hl) as (_ & Hoff & _).
  rewrite file_view_lookup, He in Hv. injection Hv as <-. cbn in Hoff.
  destruct (is_stream_expired _ _); [done|]. cbn [result_bind]. rewrite Hoff.
  destruct o as [| |rs bo txt]; cbn [is_now]; [|done|];
    rewrite read_messages_drop by done; cbn [result_bind].
  - rewrite (proj2 (Nat.leb_le _ _)); [done|]. rewrite length_drop, file_msgs_length. lia.
  - rewrite (proj2 (Nat.leb_le _ _)).
    + by rewrite file_start_index_from.
    + rewrite length_drop, file_msgs_length. lia.
Qed.

Lemma file_head_spec st clk name :
  file_inv st -> file_head clk name st = spec_head clk name (file_view st).
Proof.
  intros Hinv. unfold file_head, spec_head. rewrite live_stream_file.
  destruct (f_streams st !! name) as [e|] eqn:He; [|done].
  destruct (fi_entries _ Hinv _ _ He) as [Hon _]. apply entry_on_log in Hon as Hok.
  destruct (locked_start st name e Hinv He) as (a & Hv & Hl).
  destruct (locked_bytes _ _ _ _ _ _ Hl) as (_ & Hoff & _).
  rewrite file_view_lookup, He in Hv. injection Hv as <-. cbn in Hoff.
  destruct (is_stream_expired _ _); [done|]. cbn [result_bind]. rewrite Hoff.
  do 2 f_equal; [apply Hok|]. cbn. rewrite file_msgs_length. apply len_u64_small, Hok.
Qed.

Lemma file_exists_spec st clk name : file_exists clk name st = spec_exists clk name (file_view st).
Proof.
  unfold file_exists, spec_exists. rewrite live_stream_file.
  destruct (f_streams st !! name) as [e|]; [|done]. by destruct (is_stream_expired _ _).
Qed.

Lemma file_subscribe_spec st clk name :
  is_Some (file_subscribe clk name st) <-> spec_exists clk name (file_view st) = true.
Proof.
  rewrite <- file_exists_spec. unfold file_subscribe, file_exists.
  destruct (f_streams st !! name) as [e|]; [|by rewrite is_Some_alt].
  destruct (is_stream_expired _ _); by rewrite is_Some_alt.
Qed.

Lemma file_bounded st name a :
  file_inv st -> file_view st !! name = Some a -> offset_wf (a_next_offset a).
Proof.
  intros Hinv Ha. rewrite file_view_lookup in Ha. apply fmap_Some in Ha as (e & He & ->).
  destruct (fi_entries _ Hinv _ _ He) as [Hon Hms]. apply entry_on_log in Hon as Hok.
  destruct (fi_max_stream _ Hinv). rewrite (lo_total _ _ Hok) in Hms.
  pose proof (lo_count _ _ Hok). apply Offset_new_wf; unfold u64; cbn; rewrite ?file_msgs_length;
    [lia|]. pose proof (payload_nonneg (file_msgs (log_of (f_settings st) (fe_dir e) (f_disk st)) e)).
  lia.
Qed.
End ReadOnly.

(** ** Runs *)

(** A storage with the outcomes of the system calls of its next calls: each call that
    changes the storage takes the next [Io] of the schedule. *)
Record FileRun : Type := mkRun { fr_store : FileStorage; fr_io : nat -> Io }.

Definition scheduled {A} (m : Io -> ST FileStorage Error A) : ST FileRun Error A :=
  fun run => let '(st, r) := m (fr_io run 0%nat) (fr_store run) in
             (mkRun st (fun n => fr_io run (S n)), r).

(** [impl Storage for FileStorage] *)
#[global] Instance file_storage {F : FileLib} : Storage.StorageOps FileRun := {|
  Storage.create_stream clk name config := scheduled (fun io => file_create_stream io clk name config);
  Storage.append clk name data ct := scheduled (fun io => file_append io clk name data ct);
  Storage.batch_append clk name msgs ct seq :=
    scheduled (fun io => file_batch_append io clk name msgs ct seq);
  Storage.read clk name o run := file_read_stream (fr_io run 0%nat) clk name o (fr_store run);
  Storage.delete name := scheduled (fun io => file_delete io name);
  Storage.head clk name run := file_head clk name (fr_store run);
  Storage.close_stream clk name := scheduled (fun io => file_close_stream io clk name);
  Storage.append_with_producer clk name msgs ct p close seq :=
    scheduled (fun io => file_append_with_producer io clk name msgs ct p close seq);
  Storage.create_stream_with_data clk name config msgs close :=
    scheduled (fun io => file_create_stream_with_data io clk name config msgs close);
  Storage.stream_exists clk name run := file_exists clk name (fr_store run);
  Storage.subscribe clk name run := (run, file_subscribe clk name (fr_store run))
|}.

Section Lawful.
Context {F : FileLib} {L : FileLibLaws F}.

Record run_inv (run : FileRun) : Prop := mkRunInv {
  ri_store : file_inv (fr_store run);
  ri_io : forall n, log_faults_only (fr_io run n)
}.

Lemma log_faults_calls io :
  log_faults_only io ->
  metadata_calls_ok io /\ remove_calls_ok io /\ create_calls_ok io /\ read_calls_ok io /\
  io_fails io StatLog = false.
Proof.
  intros Hio. unfold create_calls_ok, metadata_calls_ok, remove_calls_ok, read_calls_ok.
  split_and!; by apply log_faults_site.
Qed.

(** A method that keeps the invariant and refines its reference does so in a run. *)
Lemma scheduled_refined {A} (m : Io -> ST FileStorage Error A) clk name spec run :
  run_inv run ->
  (forall io, log_faults_only io ->
     let '(st', r) := m io (fr_store run) in
     file_inv st' /\ refined clk name spec (file_view (fr_store run)) (file_view st') r) ->
  let '(run', r) := scheduled m run in
  run_inv run' /\ refined clk name spec (file_view (fr_store run)) (file_view (fr_store run')) r.
Proof.
  intros [Hst Hio] Hm. unfold scheduled. specialize (Hm _ (Hio 0%nat)).
  destruct (m _ _) as [st' r]. destruct Hm. split; [|done]. by split; cbn.
Qed.

Ltac by_schedule := intros; apply scheduled_refined; [done|]; intros io Hio;
  destruct (log_faults_calls io Hio) as (? & ? & ? & ? & ?).

#[global] Instance file_lawful : LawfulStorage FileRun.
Proof using L.
  refine {| backend_inv := run_inv; view run := file_view (fr_store run) |}.
  - intros run name a [Hst _]. by apply file_bounded.
  - intros run clk name o [Hst Hio] _. apply file_read_spec; [done|]. by apply log_faults_calls.
  - intros run clk name [Hst _]. by apply file_head_spec.
  - intros run clk name _. apply file_exists_spec.
  - intros run clk name Hinv. cbn. split_and!; [done..|]. apply file_subscribe_spec.
  - intros run name [Hst Hio]. cbn. unfold scheduled.
    pose proof (file_delete_spec (fr_store run) (fr_io run 0%nat) name Hst) as Hd.
    destruct (file_delete _ _ _) as [st' r]. destruct Hd as [Hinv' Heq].
    { by apply log_faults_calls. }
    split; [|done]. by split; cbn.
  - by_schedule. apply file_close_refined; [apply H|done].
  - by_schedule. apply file_append_refined; [apply H|done..].
  - by_schedule. apply file_batch_append_refined; [apply H|done..].
  - by_schedule. apply file_append_with_producer_refined; [apply H|done..].
  - by_schedule. apply file_create_with_data_refined; [apply H|done..].
  - by_schedule. apply file_create_refined; [apply H|done..].
Defined.
End Lawful.
