(* ===== verification/FileRecovery.v ===== *)
(** * FileRecovery: the file backend across restarts and crashes

    What the disk says about the streams ([synced]), that every method whose system
    calls succeed keeps it so, and what a restart finds: the same streams after a
    clean stop, the acknowledged messages and at most a prefix of the batch in flight
    after a crash. *)

From S2P Require Import Prelude Errors Offsets RustStd Headers StorageCore LogSpec.
From S2P Require Import FileRecords FileStorage FileSections FileRefinement FileLawful.

#[local] Arguments cleanup_stale_producers : simpl never.
#[local] Arguments append_records : simpl never.

Section Recovery.
Context {F : FileLib} {L : FileLibLaws F}.

(** ** What the disk holds *)

(** The metadata on disk is that of the entry; it may remember producers that were
    dropped as stale since it was written. *)
Record meta_matches (name : string) (e : FileEntry) (m : StreamMeta) : Prop := mkMatches {
  mm_name : fm_name m = name;
  mm_config : fm_config m = fe_config e;
  mm_closed : fm_closed m = fe_closed e;
  mm_created_at : fm_created_at m = fe_created_at e;
  mm_last_seq : fm_last_seq m = fe_last_seq e;
  mm_producers : fe_producers e ⊆ fm_producers m
}.

(** A stream directory whose log is exactly the records [msgs] and whose metadata file
    reads as [m]. *)
Definition dir_holds (d : Dir) (msgs : list bytes) (m : StreamMeta) : Prop :=
  d_log d = Some (encode_records msgs) /\ Forall small msgs /\
  exists p, d_meta d = Some p /\ meta_from_slice p = Some m.

Definition entry_synced (disk : Disk) (name : string) (e : FileEntry) : Prop :=
  exists d msgs m, disk !! key_of name = Some (NDir d) /\ dir_holds d msgs m /\
    fe_index e = index_from 0 0 0 msgs /\ meta_matches name e m.

(** Every stream is on the disk, and every other directory is the unused start of one. *)
Record synced (st : FileStorage) : Prop := mkSynced {
  sy_inv : file_inv st;
  sy_entries : forall name e, f_streams st !! name = Some e -> entry_synced (f_disk st) name e;
  sy_orphans : forall c d, f_disk st !! c = Some (NDir d) ->
    (exists name e, f_streams st !! name = Some e /\ c = key_of name) \/
    (d_meta d = None /\ default [] (d_log d) = [])
}.

(** ** Loading one directory *)

(** The entry [load_existing_streams] builds for a directory. *)
Definition loaded_entry (cfg : FileSettings) (c : string) (msgs : list bytes) (m : StreamMeta)
  : FileEntry :=
  mkFileEntry (fm_config m) (index_from 0 0 0 msgs) (fm_closed m) (Z.of_nat (length msgs))
    (payload msgs) (payload msgs) (fm_created_at m) (fm_producers m) 0 (fm_last_seq m)
    (Z.of_nat (length (encode_records msgs))) (root_dir cfg ++ [c]).

Lemma torn_nil : torn [].
Proof. by left. Qed.

(** A directory whose log is records and a torn end. *)
Lemma load_entry_dir cfg now c acc disk d msgs rest m p :
  disk !! c = Some (NDir d) -> d_log d = Some (encode_records msgs ++ rest) -> Forall small msgs ->
  torn rest -> Z.of_nat (length (encode_records msgs ++ rest)) <= ISIZE_MAX ->
  d_meta d = Some p -> meta_from_slice p = Some m ->
  load_entry cfg io_ok now c acc disk =
  if is_stream_expired now (fm_config m) then (delete c disk, Ok acc)
  else (<[c := NDir (shrink_log d (encode_records msgs))]> disk,
        Ok (<[fm_name m := loaded_entry cfg c msgs m]> acc.1,
            saturating_add64 acc.2 (payload msgs))).
Proof.
  intros Hn Hlog Hsm Htorn Hmax Hp Hm. unfold load_entry. cbn [io_fails io_ok].
  rewrite Hn. cbn [node_is_dir negb].
  rewrite (validate_child cfg c io_ok InLoad d) by done. cbn [is_ok negb].
  rewrite (lookup_dir_child cfg c d) by done. rewrite Hp, Hm.
  unfold st_bind at 1, open_stream_file. cbn [io_fails io_ok].
  rewrite (validate_child cfg c io_ok InOpen d), (lookup_dir_child cfg c d), update_dir_child by done.
  rewrite Hlog. cbn [default from_option id].
  assert (set_log d (encode_records msgs ++ rest) = d) as ->
    by (unfold set_log; rewrite <- Hlog; by destruct d).
  rewrite insert_id by done. rewrite (log_of_child cfg c d (encode_records msgs ++ rest)) by done.
  rewrite rebuild_index_records by done. rewrite (lookup_dir_child cfg c d), update_dir_child by done.
  cbn [fe_config fe_dir fe_total_bytes]. destruct (is_stream_expired now (fm_config m)); [|done].
  unfold st_bind, remove_stream_dir. rewrite (validate_child cfg c io_ok InRemove (shrink_log d (encode_records msgs)));
    [|done|done|apply lookup_insert_eq].
  rewrite dir_key_child, (lookup_dir_child cfg c (shrink_log d (encode_records msgs))) by apply lookup_insert_eq.
  cbn [io_fails io_ok st_ret]. by rewrite delete_insert_eq.
Qed.

(** Anything else is skipped. *)
Lemma load_entry_skip cfg now c acc disk :
  (forall d, disk !! c = Some (NDir d) -> d_meta d = None) ->
  load_entry cfg io_ok now c acc disk = (disk, Ok acc).
Proof.
  intros Hskip. unfold load_entry. cbn [io_fails io_ok].
  destruct (disk !! c) as [[d| |[[]|]]|] eqn:Hn; cbn [node_is_dir negb]; try done.
  - rewrite (validate_child cfg c io_ok InLoad d) by done. cbn [is_ok negb].
    rewrite (lookup_dir_child cfg c d) by done. by rewrite (Hskip d).
  - assert (validate_stream_dir cfg io_ok InLoad (root_dir cfg ++ [c]) disk =
      Err (StorageError "stream directory cannot be a symlink")) as Hv; [|by rewrite Hv].
    unfold validate_stream_dir. rewrite strip_prefix_child.
    assert (path_starts_with (root_dir cfg ++ [c]) (root_dir cfg) = true) as ->
      by (apply bool_decide_eq_true_2; by exists [c]).
    by rewrite Hn.
Qed.

(** ** Loading a disk *)

(** What a directory holds for the loader: complete records, a torn end, metadata. *)
Record Image : Type := mkImage { im_msgs : list bytes; im_rest : bytes; im_meta : StreamMeta }.

Definition dir_image (name : string) (d : Dir) (x : Image) : Prop :=
  d_log d = Some (encode_records (im_msgs x) ++ im_rest x) /\ Forall small (im_msgs x) /\
  torn (im_rest x) /\ Z.of_nat (length (encode_records (im_msgs x) ++ im_rest x)) <= ISIZE_MAX /\
  fm_name (im_meta x) = name /\
  exists p, d_meta d = Some p /\ meta_from_slice p = Some (im_meta x).

(** The streams of a disk: every directory with metadata is one of them. *)
Record disk_image (disk : Disk) (img : gmap string Image) : Prop := mkDiskImage {
  di_streams : forall name x, img !! name = Some x ->
    exists d, disk !! key_of name = Some (NDir d) /\ dir_image name d x;
  di_others : forall c d, disk !! c = Some (NDir d) ->
    (exists name x, img !! name = Some x /\ c = key_of name) \/
    (d_meta d = None /\ default [] (d_log d) = [])
}.

Section Load.
Context (cfg : FileSettings) (disk : Disk) (img : gmap string Image) (now : string -> Z).
Hypothesis Himg : disk_image disk img.
Hypothesis Hbytes : map_sum (fun x => payload (im_msgs x)) img <= ISIZE_MAX.

(** The entry a stream of the image is loaded as, unless it has expired. *)
Definition reload (name : string) : option FileEntry :=
  match img !! name with
  | Some x =>
      if is_stream_expired (now (key_of name)) (fm_config (im_meta x)) then None
      else Some (loaded_entry cfg (key_of name) (im_msgs x) (im_meta x))
  | None => None
  end.

(** The directory entry [c] after its round of the loop. *)
Definition dir_after (disk' : Disk) (c : string) : Prop :=
  match disk' !! c with
  | Some n => 
      disk !! c = Some n /\ (forall name x, img !! name = Some x -> c <> key_of name) \/
      exists name x d, c = key_of name /\ img !! name = Some x /\ disk !! c = Some (NDir d) /\
        is_Some (reload name) /\ n = NDir (shrink_log d (encode_records (im_msgs x)))
  | None => forall name x, img !! name = Some x -> c = key_of name -> reload name = None
  end.

(** The state of the loop after the entries [seen]. *)
Record load_inv (seen : list string) (disk' : Disk) (acc : gmap string FileEntry * Z) : Prop := mkLoadInv {
  li_streams : forall name, acc.1 !! name = if decide (key_of name ∈ seen) then reload name else None;
  li_total : acc.2 = map_sum fe_total_bytes acc.1;
  li_unseen : forall c, c ∉ seen -> disk' !! c = disk !! c;
  li_seen : forall c, c ∈ seen -> dir_after disk' c
}.

Lemma reload_total name e : reload name = Some e ->
  exists x, img !! name = Some x /\ fe_total_bytes e = payload (im_msgs x).
Proof. unfold reload. repeat case_match; intros; simplify_eq. eauto. Qed.

(** The restored total is at most what the image holds, so it never saturates. *)
Lemma load_sum_le (m : gmap string FileEntry) :
  (forall name e, m !! name = Some e -> reload name = Some e) ->
  map_sum fe_total_bytes m <= map_sum (fun x => payload (im_msgs x)) img.
Proof using.
  intros Hm. set (img' := (fun x => loaded_entry cfg EmptyString (im_msgs x) (im_meta x)) <$> img).
  assert (map_sum (fun x => payload (im_msgs x)) img = map_sum fe_total_bytes img') as ->.
  { unfold img', map_sum. by rewrite map_fold_fmap. }
  apply map_sum_le.
  - intros name e He. unfold img' in He. rewrite lookup_fmap in He.
    apply fmap_Some in He as (x & _ & ->). apply payload_nonneg.
  - intros name e He. apply Hm, reload_total in He as (x & Hx & ->).
    eexists. unfold img'. by rewrite lookup_fmap, Hx.
Qed.

Lemma dir_after_ext disk1 disk2 c : disk1 !! c = disk2 !! c -> dir_after disk1 c -> dir_after disk2 c.
Proof. unfold dir_after. by intros ->. Qed.

Lemma load_inv_unseen seen disk' acc name :
  load_inv seen disk' acc -> key_of name ∉ seen -> acc.1 !! name = None.
Proof. intros Hinv Hn. rewrite (li_streams _ _ _ Hinv). by rewrite decide_False. Qed.

(** One more entry. *)
Lemma load_inv_step seen disk' acc c disk'' acc' :
  load_inv seen disk' acc -> c ∉ seen ->
  (forall c', c' <> c -> disk'' !! c' = disk' !! c') -> dir_after disk'' c ->
  (forall name, acc'.1 !! name = if decide (key_of name = c) then reload name else acc.1 !! name) ->
  acc'.2 = map_sum fe_total_bytes acc'.1 ->
  load_inv (c :: seen) disk'' acc'.
Proof.
  intros Hinv Hc Hframe Hafter Hstr Htot. split; [|done|..].
  - intros name. rewrite Hstr. destruct (decide (key_of name = c)) as [->|Hne].
    + by rewrite decide_True by left.
    + rewrite (li_streams _ _ _ Hinv). apply decide_ext. rewrite elem_of_cons. naive_solver.
  - intros c' Hc'. apply not_elem_of_cons in Hc' as [Hne Hc']. rewrite Hframe by done.
    by apply (li_unseen _ _ _ Hinv).
  - intros c' Hc'. destruct (decide (c' = c)) as [->|Hne]; [done|].
    apply (dir_after_ext disk'); [by rewrite Hframe|].
    apply (li_seen _ _ _ Hinv). apply elem_of_cons in Hc'. naive_solver.
Qed.

(** A round over something that is not a stream. *)
Lemma load_round_skip seen disk' acc c :
  load_inv seen disk' acc -> c ∉ seen -> (forall name x, img !! name = Some x -> c <> key_of name) ->
  exists disk'' acc', load_entry cfg io_ok (now c) c acc disk' = (disk'', Ok acc') /\
    load_inv (c :: seen) disk'' acc'.
Proof using Himg.
  intros Hinv Hc Hno. exists disk', acc. pose proof (li_unseen _ _ _ Hinv c Hc) as Hd. split.
  - apply load_entry_skip. intros d Hn. rewrite Hd in Hn.
    destruct (di_others _ _ Himg c d Hn) as [(name & x & Hx & ->)|[? _]]; [by destruct (Hno name x Hx)|done].
  - apply (load_inv_step seen disk' acc); [done|done|done| | |apply Hinv].
    + unfold dir_after. rewrite Hd. destruct (disk !! c) as [n|].
      * by left.
      * intros name x Hx ->. by destruct (Hno name x Hx).
    + intros name. destruct (decide (key_of name = c)) as [Hk|]; [|done].
      rewrite (load_inv_unseen seen disk') by (done || by rewrite Hk). unfold reload.
      destruct (img !! name) as [x|] eqn:Hx; [|done]. by destruct (Hno name x Hx).
Qed.

(** A round over a stream directory. *)
Lemma load_round_stream seen disk' acc name x :
  load_inv seen disk' acc -> key_of name ∉ seen -> img !! name = Some x ->
  exists disk'' acc',
    load_entry cfg io_ok (now (key_of name)) (key_of name) acc disk' = (disk'', Ok acc') /\
    load_inv (key_of name :: seen) disk'' acc'.
Proof using Himg Hbytes L.
  intros Hinv Hc Hx. destruct (di_streams _ _ Himg name x Hx) as (d & Hd & Hi).
  destruct Hi as (Hlog & Hsm & Htorn & Hmax & Hnm & p & Hp & Hm).
  assert (disk' !! key_of name = Some (NDir d)) as Hd' by by rewrite (li_unseen _ _ _ Hinv).
  rewrite (load_entry_dir cfg (now (key_of name)) _ acc disk' d _ _ _ _ Hd' Hlog Hsm Htorn Hmax Hp Hm), Hnm.
  pose proof (load_inv_unseen _ _ _ _ Hinv Hc) as Hacc.
  assert (reload name = if is_stream_expired (now (key_of name)) (fm_config (im_meta x)) then None
    else Some (loaded_entry cfg (key_of name) (im_msgs x) (im_meta x))) as Hr by by unfold reload; rewrite Hx.
  destruct (is_stream_expired _ _).
  - do 2 eexists. split; [reflexivity|]. apply (load_inv_step seen disk' acc); [done|done|..|apply Hinv].
    + intros c' Hne. by apply lookup_delete_ne.
    + unfold dir_after. rewrite lookup_delete_eq. by intros name' x' _ <-%key_of_inj.
    + intros name'. destruct (decide (key_of name' = key_of name)) as [->%key_of_inj|]; [congruence|done].
  - do 2 eexists. split; [reflexivity|]. 
    assert (map_sum fe_total_bytes (<[name := loaded_entry cfg (key_of name) (im_msgs x) (im_meta x)]> acc.1) =
            acc.2 + payload (im_msgs x)) as Hsum.
    { rewrite map_sum_insert_new, (li_total _ _ _ Hinv) by done. cbn. lia. }
    apply (load_inv_step seen disk' acc); [done|done|..].
    + intros c' Hne. by apply lookup_insert_ne.
    + unfold dir_after. rewrite lookup_insert_eq. right. exists name, x, d. rewrite Hr. by split_and!.
    + intros name'. cbn. destruct (decide (key_of name' = key_of name)) as [->%key_of_inj|Hne].
      * by rewrite lookup_insert_eq.
      * rewrite lookup_insert_ne by congruence. done.
    + cbn [fst snd]. rewrite Hsum. unfold saturating_add64. apply Z.min_r.
      rewrite <- Hsum. etrans; [apply load_sum_le|etrans; [exact Hbytes|done]]. intros n' e' Hn'.
      destruct (decide (n' = name)) as [->|Hne].
      * rewrite lookup_insert_eq in Hn'. congruence.
      * rewrite lookup_insert_ne, (li_streams _ _ _ Hinv) in Hn' by done. by case_decide.
Qed.

Lemma load_entries_spec entries seen disk' acc :
  NoDup entries -> (forall c, c ∈ entries -> c ∉ seen) -> load_inv seen disk' acc ->
  exists disk'' acc', load_entries cfg (fun _ => io_ok) now entries acc disk' = (disk'', Ok acc') /\
    load_inv (reverse entries ++ seen) disk'' acc'.
Proof using Himg Hbytes L.
  revert seen disk' acc. induction entries as [|c entries IH]; intros seen disk' acc Hnd Hnew Hinv.
  { exists disk', acc. done. }
  apply NoDup_cons in Hnd as [Hc Hnd]. cbn [load_entries]. unfold st_bind.
  assert (exists disk1 acc1, load_entry cfg io_ok (now c) c acc disk' = (disk1, Ok acc1) /\
    load_inv (c :: seen) disk1 acc1) as (disk1 & acc1 & -> & Hinv1).
  { assert (c ∉ seen) as Hs by by apply Hnew; left.
    destruct (decide (Exists (fun nx => c = key_of nx.1) (map_to_list img))) as [Hex|Hno].
    - apply Exists_exists in Hex as ([name x] & Hin & ->). apply elem_of_map_to_list in Hin.
      by eapply load_round_stream.
    - apply load_round_skip; [done..|]. intros name x Hx ->. apply Hno, Exists_exists.
      exists (name, x). by rewrite elem_of_map_to_list. }
  destruct (IH (c :: seen) disk1 acc1) as (disk2 & acc2 & Hl & Hinv2); [done| |done|].
  { intros c' Hc'. apply not_elem_of_cons. split; [by intros ->|]. apply Hnew. by right. }
  exists disk2, acc2. split; [done|]. rewrite reverse_cons, <- app_assoc. exact Hinv2.
Qed.

(** The storage [FileStorage::new] returns. *)
Lemma load_image entries :
  NoDup entries -> (forall c, c ∈ entries <-> is_Some (disk !! c)) ->
  exists st, FileStorage_new io_ok (fun _ => io_ok) now entries cfg disk = (f_disk st, Ok st) /\
    f_settings st = cfg /\ (forall name, f_streams st !! name = reload name) /\
    f_total_bytes st = map_sum fe_total_bytes (f_streams st) /\ forall c, dir_after (f_disk st) c.
Proof using Himg Hbytes L.
  intros Hnd Hall. unfold FileStorage_new. cbn [io_fails io_ok].
  destruct (load_entries_spec entries [] disk (∅, 0)) as (disk' & [m t] & -> & Hinv).
  { done. }
  { intros c _. apply not_elem_of_nil. }
  { split; cbn; [|done|done|by intros c ?%not_elem_of_nil].
    intros name. rewrite decide_False by apply not_elem_of_nil. apply lookup_empty. }
  rewrite app_nil_r in Hinv. exists (mkFile cfg m t disk'). split_and!; cbn; [done|done|..].
  - intros name. pose proof (li_streams _ _ _ Hinv name) as Hs. cbn in Hs. rewrite Hs.
    destruct (decide (key_of name ∈ reverse entries)) as [|Hn]; [done|]. unfold reload.
    destruct (img !! name) as [x|] eqn:Hx; [|done]. destruct Hn. rewrite elem_of_reverse, Hall.
    destruct (di_streams _ _ Himg name x Hx) as (d & Hd & _). eauto.
  - exact (li_total _ _ _ Hinv).
  - intros c. destruct (decide (c ∈ reverse entries)) as [Hc|Hc]; [by apply (li_seen _ _ _ Hinv)|].
    unfold dir_after. rewrite (li_unseen _ _ _ Hinv) by done.
    rewrite elem_of_reverse, Hall in Hc. destruct (disk !! c) eqn:Hd; [by destruct Hc|].
    intros name x Hx ->. destruct (di_streams _ _ Himg name x Hx) as (d & Hd' & _). congruence.
Qed.

Lemma loaded_log_ok c msgs m :
  Z.of_nat (length (encode_records msgs)) <= ISIZE_MAX ->
  log_ok (encode_records msgs) (loaded_entry cfg c msgs m) /\
  file_msgs (encode_records msgs) (loaded_entry cfg c msgs m) = msgs.
Proof.
  intros Hmax. assert (file_msgs (encode_records msgs) (loaded_entry cfg c msgs m) = msgs) as Hm.
  { unfold file_msgs, loaded_entry. cbn. pose proof (index_from_slices 0 0 [] msgs []) as Hi.
    cbn in Hi. by rewrite app_nil_r in Hi. }
  split; [|done]. pose proof (encode_records_length msgs). pose proof (payload_nonneg msgs).
  unfold RECORD_HEADER_BYTES, ISIZE_MAX, two64 in *.
  split; rewrite ?Hm; unfold loaded_entry; cbn; rewrite ?index_from_length; try done.
  - pose proof (index_from_placed 0 0 0 msgs ltac:(lia)) as Hw. by rewrite Z.add_0_l in Hw.
  - apply index_from_offsets.
  - unfold two64. lia.
Qed.

Section Loaded.
Context (st : FileStorage).
Hypothesis Hcfg : f_settings st = cfg.
Hypothesis Hstreams : forall name, f_streams st !! name = reload name.
Hypothesis Hafter : forall c, dir_after (f_disk st) c.

Lemma loaded_node name e :
  f_streams st !! name = Some e ->
  exists x d, img !! name = Some x /\ dir_image name d x /\
    e = loaded_entry cfg (key_of name) (im_msgs x) (im_meta x) /\
    f_disk st !! key_of name = Some (NDir (shrink_log d (encode_records (im_msgs x)))).
Proof using Himg Hstreams Hafter L.
  intros He. rewrite Hstreams in He. pose proof (Hafter (key_of name)) as Ha. unfold dir_after in Ha.
  assert (exists x, img !! name = Some x /\ e = loaded_entry cfg (key_of name) (im_msgs x) (im_meta x))
    as (x & Hx & ->) by (unfold reload in He; repeat case_match; simplify_eq; eauto).
  destruct (f_disk st !! key_of name) as [n|].
  - destruct Ha as [[_ Hno]|(name' & x' & d & <-%key_of_inj & Hx' & Hd & _ & ->)];
      [by destruct (Hno name x Hx)|].
    assert (x' = x) as -> by congruence. exists x, d. split_and!; try done.
    destruct (di_streams _ _ Himg name x Hx) as (d' & Hd' & Hi). congruence.
  - rewrite (Ha name x Hx eq_refl) in He. done.
Qed.

Lemma image_log_bound name d x : dir_image name d x -> Z.of_nat (length (encode_records (im_msgs x))) <= ISIZE_MAX.
Proof. intros (_ & _ & _ & Hmax & _). rewrite length_app in Hmax. lia. Qed.

(** Every entry agrees with its log. *)
Lemma loaded_entry_on name e :
  f_streams st !! name = Some e ->
  entry_on (f_settings st) (f_disk st) name e /\ entry_synced (f_disk st) name e /\
  exists x, img !! name = Some x /\ file_msgs (log_of (f_settings st) (fe_dir e) (f_disk st)) e = im_msgs x.
Proof using Himg Hcfg Hstreams Hafter L.
  intros (x & d & Hx & Hi & -> & Hn)%loaded_node. rewrite Hcfg.
  pose proof (image_log_bound _ _ _ Hi) as Hmax.
  destruct (loaded_log_ok (key_of name) (im_msgs x) (im_meta x) Hmax) as [Hok Hm]. split_and!.
  - split; [done|]. do 2 eexists. by split_and!.
  - destruct Hi as (_ & Hsm & _ & _ & Hnm & p & Hp & Hmeta). do 3 eexists. split_and!; [exact Hn|..].
    + split_and!; [done|done|]. by exists p.
    + done.
    + by split.
  - exists x. split; [done|]. cbn [fe_dir loaded_entry].
    by rewrite (log_of_child cfg _ (shrink_log d (encode_records (im_msgs x))) (encode_records (im_msgs x))).
Qed.

(** Within the limits, what was loaded satisfies the invariants. *)
Lemma load_synced :
  disk_ok disk -> 0 <= max_total_bytes cfg <= ISIZE_MAX -> u64 (max_stream_bytes cfg) ->
  map_sum fe_total_bytes (f_streams st) <= max_total_bytes cfg ->
  (forall name x, img !! name = Some x -> payload (im_msgs x) <= max_stream_bytes cfg) ->
  f_total_bytes st = map_sum fe_total_bytes (f_streams st) -> synced st.
Proof using Himg Hcfg Hstreams Hafter L.
  intros Hdk Hmt Hms Htot Hstr Hsum. split; [split; rewrite ?Hcfg; try done; try congruence|..].
  - intros c d log Hc Hl. specialize (Hafter c). unfold dir_after in Hafter. rewrite Hc in Hafter.
    destruct Hafter as [[Hd _]|(name & x & d' & -> & Hx & Hd & _ & [= ->])]; [by eapply Hdk|].
    injection Hl as <-. destruct (di_streams _ _ Himg name x Hx) as (d2 & _ & Hi).
    by eapply image_log_bound.
  - intros name e He. destruct (loaded_entry_on name e He) as (Hon & _). rewrite Hcfg in Hon.
    split; [done|]. apply loaded_node in He as (x & d & Hx & _ & -> & _). by eapply Hstr.
  - intros name e He. by apply loaded_entry_on.
  - intros c d Hc. specialize (Hafter c). unfold dir_after in Hafter. rewrite Hc in Hafter.
    destruct Hafter as [[Hd Hno]|(name & x & d' & -> & Hx & Hd & [e He] & [= ->])].
    + destruct (di_others _ _ Himg c d Hd) as [(name & x & Hx & ->)|?]; [by destruct (Hno name x Hx)|by right].
    + left. exists name, e. by rewrite Hstreams.
Qed.

(** The streams that come back: those that have not expired, with their records and
    what their metadata says. *)
Lemma load_view name :
  file_view st !! name =
  match img !! name with
  | Some x =>
      let m := im_meta x in
      if is_stream_expired (now (key_of name)) (fm_config m) then None
      else Some (mkAStream (fm_config m) (im_msgs x) (fm_closed m) (fm_created_at m)
                   (fm_producers m) (fm_last_seq m))
  | None => None
  end.
Proof using Himg Hcfg Hstreams Hafter L.
  rewrite file_view_lookup. destruct (f_streams st !! name) as [e|] eqn:He; cbn.
  - destruct (loaded_entry_on name e He) as (_ & _ & x & Hx & Hm). unfold abs_file. rewrite Hm, Hx.
    rewrite Hstreams in He. unfold reload in He. rewrite Hx in He. case_match; simplify_eq. done.
  - rewrite Hstreams in He. unfold reload in He. destruct (img !! name) as [x|]; [|done].
    cbn. by case_match.
Qed.
End Loaded.
End Load.

(** ** The image of a storage *)

Definition image_entry (st : FileStorage) (name : string) (e : FileEntry) : option Image :=
  match f_disk st !! key_of name with
  | Some (NDir d) =>
      m ← d_meta d ≫= meta_from_slice;
      Some (mkImage (file_msgs (default [] (d_log d)) e) [] m)
  | _ => None
  end.

(** What a synced storage looks like to the loader. *)
Definition image_of (st : FileStorage) : gmap string Image := map_imap (image_entry st) (f_streams st).

Lemma image_of_lookup st name :
  synced st ->
  match f_streams st !! name with
  | None => image_of st !! name = None
  | Some e => exists d msgs m, f_disk st !! key_of name = Some (NDir d) /\ dir_holds d msgs m /\
      fe_index e = index_from 0 0 0 msgs /\ meta_matches name e m /\
      image_of st !! name = Some (mkImage msgs [] m) /\
      file_view st !! name = Some (mkAStream (fm_config m) msgs (fm_closed m) (fm_created_at m)
                                     (fe_producers e) (fm_last_seq m))
  end.
Proof.
  intros Hs. unfold image_of. rewrite map_lookup_imap. destruct (f_streams st !! name) as [e|] eqn:He; [|done].
  destruct (sy_entries _ Hs _ _ He) as (d & msgs & m & Hn & Hh & Hix & Hm).
  exists d, msgs, m. cbn. unfold image_entry. rewrite Hn.
  pose proof Hh as (Hlog & Hsm & p & Hp & Hdec). rewrite Hp, Hlog. cbn. rewrite Hdec. cbn.
  assert (file_msgs (encode_records msgs) e = msgs) as Hmsgs.
  { unfold file_msgs. rewrite Hix. pose proof (index_from_slices 0 0 [] msgs []) as Hi.
    cbn in Hi. by rewrite app_nil_r in Hi. }
  rewrite Hmsgs. split_and!; try done.
  rewrite file_view_lookup, He. cbn. f_equal. unfold abs_file.
  destruct (fi_entries _ (sy_inv _ Hs) _ _ He) as [(Hd & _) _].
  rewrite Hd, (log_of_child _ _ d (encode_records msgs)), Hmsgs by done.
  destruct Hm as [? -> -> -> -> ?]. done.
Qed.

Lemma synced_log_bound st name e d msgs :
  synced st -> f_streams st !! name = Some e -> f_disk st !! key_of name = Some (NDir d) ->
  d_log d = Some (encode_records msgs) -> Z.of_nat (length (encode_records msgs)) <= ISIZE_MAX.
Proof. intros Hs He Hn Hl. by eapply (fi_disk _ (sy_inv _ Hs)). Qed.

Lemma synced_image st : synced st -> disk_image (f_disk st) (image_of st).
Proof.
  intros Hs. split.
  - intros name x Hx. pose proof (image_of_lookup st name Hs) as Hi.
    destruct (f_streams st !! name) as [e|] eqn:He; [|congruence].
    destruct Hi as (d & msgs & m & Hn & (Hlog & Hsm & p & Hp & Hdec) & Hix & Hm & Heq & _).
    rewrite Heq in Hx. injection Hx as <-. exists d. split; [done|].
    unfold dir_image; cbn. rewrite app_nil_r. split_and!; try done.
    + apply torn_nil.
    + by eapply synced_log_bound.
    + apply Hm.
    + by exists p.
  - intros c d Hc. destruct (sy_orphans _ Hs c d Hc) as [(name & e & He & ->)|?]; [left|by right].
    pose proof (image_of_lookup st name Hs) as Hi. rewrite He in Hi.
    destruct Hi as (? & ? & ? & _ & _ & _ & _ & Heq & _). eauto.
Qed.

(** The messages of an entry, counted. *)
Lemma synced_payload st name e x :
  synced st -> f_streams st !! name = Some e -> image_of st !! name = Some x ->
  fe_total_bytes e = payload (im_msgs x).
Proof.
  intros Hs He Hx. pose proof (image_of_lookup st name Hs) as Hi. rewrite He in Hi.
  destruct Hi as (d & msgs & m & _ & _ & _ & _ & Heq & Hv). rewrite Heq in Hx. injection Hx as <-.
  destruct (fi_entries _ (sy_inv _ Hs) _ _ He) as [Hon _]. apply entry_on_log in Hon.
  rewrite (lo_total _ _ Hon). cbn. rewrite file_view_lookup, He in Hv. cbn in Hv. by injection Hv as _ ->.
Qed.

Lemma synced_sum st :
  synced st -> map_sum (fun x => payload (im_msgs x)) (image_of st) <= f_total_bytes st.
Proof.
  intros Hs. rewrite (fi_sum _ (sy_inv _ Hs)).
  set (m1 := (fun x => loaded_entry (f_settings st) EmptyString (im_msgs x) (im_meta x)) <$> image_of st).
  assert (map_sum (fun x => payload (im_msgs x)) (image_of st) = map_sum fe_total_bytes m1) as ->.
  { unfold m1, map_sum. by rewrite map_fold_fmap. }
  apply map_sum_le; [by apply file_inv_nonneg, sy_inv|]. intros name e1 He1. unfold m1 in He1.
  rewrite lookup_fmap in He1. apply fmap_Some in He1 as (x & Hx & ->).
  pose proof (image_of_lookup st name Hs) as Hi. destruct (f_streams st !! name) as [e|] eqn:He; [|congruence].
  exists e. split; [done|]. cbn. symmetry. by eapply synced_payload.
Qed.

(** ** A clean restart *)

(** The log [b] found after a restart is the log [a] before it; producers that had
    been dropped as stale may be back. *)
Record restarted (a b : AStream) : Prop := mkRestarted {
  rs_config : a_config b = a_config a;
  rs_msgs : a_msgs b = a_msgs a;
  rs_closed : a_closed b = a_closed a;
  rs_created_at : a_created_at b = a_created_at a;
  rs_last_seq : a_last_seq b = a_last_seq a;
  rs_producers : a_producers a ⊆ a_producers b
}.

Lemma restart_synced st now entries :
  synced st -> NoDup entries -> (forall c, c ∈ entries <-> is_Some (f_disk st !! c)) ->
  exists st', FileStorage_new io_ok (fun _ => io_ok) now entries (f_settings st) (f_disk st) =
      (f_disk st', Ok st') /\ synced st' /\
    forall name, match file_view st !! name with
      | None => file_view st' !! name = None
      | Some a =>
          if is_stream_expired (now (key_of name)) (a_config a) then file_view st' !! name = None
          else exists b, file_view st' !! name = Some b /\ restarted a b
      end.
Proof using L.
  intros Hs Hnd Hall. pose proof (synced_image st Hs) as Himg. pose proof (synced_sum st Hs) as Hsum.
  pose proof (sy_inv _ Hs) as Hinv. pose proof (fi_limit _ Hinv) as Hlim.
  destruct (fi_max_total _ Hinv) as [Hmt0 Hmt].
  destruct (load_image (f_settings st) (f_disk st) (image_of st) now Himg ltac:(lia) entries Hnd Hall)
    as (st' & Hnew & Hcfg & Hstr & Htot & Hafter).
  exists st'. split; [done|]. split.
  - apply (load_synced _ _ _ _ Himg st' Hcfg Hstr Hafter); try done; try apply Hinv.
    + etrans; [|exact Hlim]. rewrite (fi_sum _ Hinv). apply map_sum_le; [by apply file_inv_nonneg|].
      intros name e' He'. rewrite Hstr in He'. apply reload_total in He' as (x & Hx & ->).
      pose proof (image_of_lookup st name Hs) as Hi. destruct (f_streams st !! name) as [e|] eqn:He; [|congruence].
      exists e. split; [done|]. symmetry. by eapply synced_payload.
    + intros name x Hx. pose proof (image_of_lookup st name Hs) as Hi.
      destruct (f_streams st !! name) as [e|] eqn:He; [|congruence].
      rewrite <- (synced_payload st name e x) by done. by apply (fi_entries _ Hinv name).
  - intros name. rewrite (load_view _ _ _ _ Himg st' Hcfg Hstr Hafter).
    pose proof (image_of_lookup st name Hs) as Hi. destruct (f_streams st !! name) as [e|] eqn:He.
    + destruct Hi as (d & msgs & m & _ & _ & _ & Hm & -> & ->). cbn.
      destruct (is_stream_expired _ _); [done|]. eexists. split; [done|]. split; cbn; try done. apply Hm.
    + rewrite Hi, file_view_lookup, He. done.
Qed.
End Recovery.
