(* ===== verification/FileDurability.v ===== *)
(** * FileDurability: what is acknowledged is on the disk

    Every method whose system calls succeed keeps the disk in step with the streams,
    so that a restart after any history of calls finds them again; a crash during a
    log write keeps every acknowledged message and at most a prefix of the batch in
    flight. *)

From S2P Require Import Prelude Errors Offsets RustStd Headers StorageCore LogSpec StorageTrace.
From S2P Require Import FileRecords FileStorage FileDemo FileSections FileRefinement FileLawful.
From S2P Require Import FileRecovery.

#[local] Arguments cleanup_stale_producers : simpl never.
#[local] Arguments append_records : simpl never.

Lemma index_from_app seq off pos l1 l2 :
  index_from seq off pos (l1 ++ l2) =
  index_from seq off pos l1 ++
  index_from (seq + Z.of_nat (length l1)) (off + payload l1)
    (pos + Z.of_nat (length (encode_records l1))) l2.
Proof.
  revert seq off pos. induction l1 as [|m l IH]; intros seq off pos.
  - cbn. by rewrite !Z.add_0_r.
  - cbn [app index_from encode_records payload length]. rewrite IH. cbn [app].
    rewrite !length_app, u32_to_le_length. unfold RECORD_HEADER_BYTES. do 3 f_equal; lia.
Qed.

Section Durability.
Context {F : FileLib} {L : FileLibLaws F}.

(** ** Sections *)

(** The log of the locked stream is exactly the records of its messages. *)
Record log_synced (name : string) (l : FLocked) (d : Dir) (msgs : list bytes) : Prop := mkLogSynced {
  ls_node : fl_disk l !! key_of name = Some (NDir d);
  ls_log : d_log d = Some (encode_records msgs);
  ls_small : Forall small msgs;
  ls_index : fe_index (fl_entry l) = index_from 0 0 0 msgs
}.

(** The metadata file of a directory. *)
Definition meta_on_disk (d : Dir) (name : string) (e : FileEntry) : Prop :=
  exists p m, d_meta d = Some p /\ meta_from_slice p = Some m /\ meta_matches name e m.

(** The locked stream is in step with its directory. *)
Definition locked_synced (name : string) (l : FLocked) : Prop :=
  exists d msgs, log_synced name l d msgs /\ meta_on_disk d name (fl_entry l).

(** Entries with the same persisted fields. *)
Definition same_meta (e e' : FileEntry) : Prop :=
  fe_config e' = fe_config e /\ fe_closed e' = fe_closed e /\ fe_created_at e' = fe_created_at e /\
  fe_last_seq e' = fe_last_seq e /\ fe_producers e' ⊆ fe_producers e.

Lemma meta_on_disk_same d name e e' : same_meta e e' -> meta_on_disk d name e -> meta_on_disk d name e'.
Proof.
  intros (H1 & H2 & H3 & H4 & H5) (p & m & Hp & Hm & []). exists p, m. split_and!; [done..|].
  split; try congruence. by etrans.
Qed.

Lemma log_msgs_of cfg name disk0 base l a d msgs :
  locked_ok cfg name disk0 base l a -> log_synced name l d msgs ->
  a_msgs a = msgs /\ fe_next_read_seq (fl_entry l) = Z.of_nat (length msgs) /\
  fe_next_byte_offset (fl_entry l) = payload msgs /\
  fe_file_len (fl_entry l) = Z.of_nat (length (encode_records msgs)).
Proof.
  intros Hl [Hn Hlog Hsm Hix]. destruct (lk_log _ _ _ _ _ _ Hl) as (d0 & log & Hn0 & Hl0 & Hok & <-).
  assert (d0 = d) as -> by congruence. assert (log = encode_records msgs) as -> by congruence.
  assert (file_msgs (encode_records msgs) (fl_entry l) = msgs) as Hm.
  { unfold file_msgs. rewrite Hix. pose proof (index_from_slices 0 0 [] msgs []) as Hi.
    cbn in Hi. by rewrite app_nil_r in Hi. }
  destruct Hok as [Hlen _ _ _ Hr Hb _ _]. rewrite Hm in Hb. split_and!; try done.
  by rewrite Hr, Hix, index_from_length.
Qed.

(** Appending with working system calls: nothing, or the records of the batch. *)
Lemma append_synced cfg name disk0 base l a d msgs batch :
  locked_ok cfg name disk0 base l a -> log_synced name l d msgs ->
  payload batch <= ISIZE_MAX -> Z.of_nat (length (a_msgs a) + length batch) < two64 ->
  let '(l', r) := append_records cfg io_ok batch l in
  (l' = l /\ exists err, r = Err err) \/
  (r = Ok tt /\ exists d', d_meta d' = d_meta d /\ log_synced name l' d' (msgs ++ batch) /\
   same_meta (fl_entry l) (fl_entry l')).
Proof.
  intros Hl Hs Hp Hc. destruct (log_msgs_of _ _ _ _ _ _ _ _ Hl Hs) as (Hm & Hr & Hb & Hfl).
  destruct Hs as [Hn Hlog Hsm Hix]. destruct batch as [|m0 ms].
  { right. cbn. rewrite app_nil_r. split; [done|]. exists d. by split_and!. }
  destruct (append_records_run cfg io_ok name disk0 base l a d _ (m0 :: ms) Hl Hn Hlog
    eq_refl ltac:(done) Hp Hc) as [(err & junk & -> & _ & _ & _ & Hj & _)|(-> & Hsm' & _)].
  - left. rewrite Hj by done. rewrite after_failure_nothing by done. eauto.
  - right. set (batch := m0 :: ms) in *. split; [done|].
    destruct (grow_log_files cfg d (encode_records msgs ++ encode_records batch)) as (Hgl & Hgm & _).
    eexists. split; [exact Hgm|]. split; [|done].
    split; cbn [after_append fl_disk fl_entry fe_notify_send fe_index fpushed].
    + apply lookup_insert_eq.
    + by rewrite encode_records_app.
    + by apply Forall_app.
    + by rewrite Hix, index_from_app, Hr, Hb, Hfl.
Qed.

(** Writing the metadata brings it up to date. *)
Lemma metadata_synced cfg name disk0 base l a d msgs :
  locked_ok cfg name disk0 base l a -> log_synced name l d msgs ->
  let '(l', r) := fl_write_metadata cfg io_ok name l in
  r = Ok tt /\ fl_entry l' = fl_entry l /\ locked_synced name l'.
Proof using L.
  intros Hl [Hn Hlog Hsm Hix]. pose proof (lk_dir _ _ _ _ _ _ Hl) as Hd.
  unfold fl_write_metadata, st_bind, fl_get, fl_on_disk, write_metadata_for. cbn [io_fails io_ok].
  rewrite Hd, (validate_child cfg _ io_ok InMeta d) by done.
  set (m := mkMeta name _ _ _ _ _). destruct (meta_serializes m) as [p Hp]. rewrite Hp.
  rewrite (lookup_dir_child cfg _ d), update_dir_child by done. split_and!; [done..|].
  exists (mkDir (d_log d) (Some p) None (d_durable d)), msgs. split.
  - split; cbn; try done. apply lookup_insert_eq.
  - exists p, m. split_and!; [done|by apply meta_roundtrip|done].
Qed.

Lemma locked_synced_same name t t' e e' disk :
  same_meta e e' -> fe_index e' = fe_index e ->
  locked_synced name (mkFLocked t e disk) -> locked_synced name (mkFLocked t' e' disk).
Proof.
  intros Hsm Hix (d & msgs & [Hn Hlog Hs Hi] & Hmeta). exists d, msgs. split.
  - split; cbn in *; congruence.
  - by eapply meta_on_disk_same.
Qed.

Lemma log_synced_entry name t t' e e' disk d msgs :
  fe_index e' = fe_index e -> log_synced name (mkFLocked t e disk) d msgs ->
  log_synced name (mkFLocked t' e' disk) d msgs.
Proof. intros Hix [Hn Hlog Hs Hi]. split; cbn in *; congruence. Qed.

(** A section that keeps a well-formed, synced stream so. *)
Definition keeps_synced {A} (cfg : FileSettings) (name : string) (disk0 : Disk) (base : Z)
    (section : ST FLocked Error A) (l : FLocked) : Prop :=
  exists a', locked_ok cfg name disk0 base (section l).1 a' /\ locked_synced name (section l).1.

Section Sections.
Context (cfg : FileSettings) (name : string) (disk0 : Disk) (base : Z) (l : FLocked) (a : AStream).
Hypothesis Hl : locked_ok cfg name disk0 base l a.
Hypothesis Hs : locked_synced name l.

Lemma close_synced clk : keeps_synced cfg name disk0 base (file_close_locked cfg io_ok clk name) l.
Proof using Hl Hs L.
  unfold keeps_synced, file_close_locked, st_bind, throw_if, fl_get, fl_modify.
  destruct (is_stream_expired _ _); [by exists a|].
  destruct Hs as (d & msgs & Hls & _). pose proof (locked_closed _ _ _ _ _ _ Hl) as Hl1.
  set (l1 := mkFLocked _ (fe_set_closed _ _) _) in *.
  assert (log_synced name l1 d msgs) as Hls1 by (destruct Hls; by split).
  pose proof (metadata_synced cfg name _ _ l1 _ d msgs Hl1 Hls1) as Hm.
  pose proof (locked_metadata cfg io_ok name _ _ _ _ Hl1) as Hlm.
  destruct (fl_write_metadata _ _ _ _) as [l2 r]. destruct Hm as (-> & _ & Hs2), Hlm as (Hl2 & _).
  exists (log_close a). split; [by apply locked_notify|].
  destruct l2 as [t2 e2 k2]. cbn. by apply (locked_synced_same _ t2 t2 e2).
Qed.

(** The result of an append, with the stream it leaves. *)
Lemma append_outcome batch :
  payload batch <= ISIZE_MAX -> Z.of_nat (length (a_msgs a) + length batch) < two64 ->
  let '(l', r) := append_records cfg io_ok batch l in
  exists a', locked_ok cfg name disk0 base l' a' /\ locked_synced name l' /\
    ((r = Ok tt /\ a' = log_append a batch None) \/ exists err, r = Err err).
Proof using Hl Hs.
  intros Hp Hc. destruct Hs as (d & msgs & Hls & Hmeta).
  pose proof (append_synced cfg name _ _ l a d msgs batch Hl Hls Hp Hc) as Ha.
  pose proof (locked_append cfg io_ok name _ _ l a batch Hl eq_refl Hp Hc) as Hla.
  destruct (append_records _ _ _ _) as [l' r]. destruct Ha as [[-> [err ->]]|(-> & d' & Hd' & Hls' & Hsm)].
  - exists a. split_and!; eauto.
  - destruct Hla as [[_ (? & ? & _)]|[Hl' _]]; [done|]. eexists. split_and!; [done| |by left].
    exists d', (msgs ++ batch). split; [done|].
    eapply (meta_on_disk_same _ _ (fl_entry l)); [done|]. destruct Hmeta as (p & m & ? & ? & ?). exists p, m.
    by rewrite Hd'.
Qed.

Lemma append_section_synced clk data ct :
  payload [data] <= ISIZE_MAX -> Z.of_nat (length (a_msgs a) + 1) < two64 ->
  keeps_synced cfg name disk0 base (file_append_locked cfg io_ok clk data ct) l.
Proof using Hl Hs.
  intros Hp Hc. unfold keeps_synced, file_append_locked, st_bind, throw_if, fl_get, st_lift.
  destruct (is_stream_expired _ _); [by exists a|]. destruct (fe_closed _); [by exists a|].
  destruct (validate_content_type _ _) as [[]|]; [|by exists a].
  pose proof (append_outcome [data] Hp Hc) as Ha.
  destruct (append_records _ _ _ _) as [l' r]. destruct Ha as (a' & Hl' & Hs' & _). exists a'.
  by destruct r.
Qed.
End Sections.

Section MoreSections.
Context (cfg : FileSettings) (name : string) (disk0 : Disk) (base : Z).

(** Updating the entry and then writing the metadata. *)
Lemma modify_metadata_synced (f : FileEntry -> FileEntry) l a a' :
  locked_ok cfg name disk0 base (mkFLocked (fl_total l) (f (fl_entry l)) (fl_disk l)) a' ->
  locked_ok cfg name disk0 base l a -> locked_synced name l ->
  (forall e, fe_index (f e) = fe_index e) ->
  let '(l', r) := fl_ignore (fl_write_metadata cfg io_ok name)
                    (mkFLocked (fl_total l) (f (fl_entry l)) (fl_disk l)) in
  locked_ok cfg name disk0 base l' a' /\ locked_synced name l' /\ r = Ok tt.
Proof using L.
  intros Hl1 Hl (d & msgs & Hls & _) Hix. unfold fl_ignore.
  set (l1 := mkFLocked _ (f _) _) in *.
  assert (log_synced name l1 d msgs) as Hls1.
  { destruct l as [t e k]. apply (log_synced_entry _ t t e); [apply Hix|done]. }
  pose proof (metadata_synced cfg name _ _ l1 _ d msgs Hl1 Hls1) as Hm.
  pose proof (locked_metadata cfg io_ok name _ _ _ _ Hl1) as Hlm.
  destruct (fl_write_metadata _ _ _ _) as [l2 r]. destruct Hm as (_ & _ & Hs2), Hlm as (Hl2 & _).
  by split_and!.
Qed.

Lemma batch_append_synced clk msgs ct seq l a :
  locked_ok cfg name disk0 base l a -> locked_synced name l ->
  payload msgs <= ISIZE_MAX -> Z.of_nat (length (a_msgs a) + length msgs) < two64 ->
  keeps_synced cfg name disk0 base (file_batch_append_locked cfg io_ok clk name msgs ct seq) l.
Proof using L.
  intros Hl Hs Hp Hc. unfold keeps_synced, file_batch_append_locked, st_bind, throw_if, fl_get, st_lift.
  destruct (is_stream_expired _ _); [by exists a|]. destruct (fe_closed _); [by exists a|].
  destruct (validate_content_type _ _) as [[]|]; [|by exists a].
  destruct (validate_seq _ _) as [pending|]; [|by exists a].
  pose proof (append_outcome _ _ _ _ _ _ Hl Hs msgs Hp Hc) as Ha.
  destruct (append_records _ _ _ _) as [l' r]. destruct Ha as (a' & Hl' & Hs' & Hr).
  destruct r as [[]|err]; [|by exists a']. destruct pending as [q|]; [|by exists a'].
  unfold fl_modify. pose proof (locked_seq _ _ _ _ _ _ q Hl') as Hl2.
  pose proof (modify_metadata_synced (fun e => fe_set_last_seq e (Some q)) l' _ _ Hl2 Hl' Hs' ltac:(done)) as Hm.
  destruct (fl_ignore _ _) as [l3 r3]. destruct Hm as (Hl3 & Hs3 & ->). by eexists.
Qed.

Lemma producer_commit_synced now msgs p close seq l a :
  locked_ok cfg name disk0 base l a -> locked_synced name l ->
  payload msgs <= ISIZE_MAX -> Z.of_nat (length (a_msgs a) + length msgs) < two64 ->
  keeps_synced cfg name disk0 base (file_producer_commit cfg io_ok now name msgs p close seq) l.
Proof using L.
  intros Hl Hs Hp Hc. unfold keeps_synced. rewrite producer_commit_run. unfold st_bind, fl_modify, fl_get, st_ret.
  pose proof (append_outcome _ _ _ _ _ _ Hl Hs msgs Hp Hc) as Ha.
  destruct (append_records _ _ _ _) as [l' r]. destruct Ha as (a' & Hl' & Hs' & Hr).
  destruct r as [[]|err]; [|by exists a'].
  pose proof (locked_accept _ _ _ _ _ _ p close seq now Hl') as Hl2.
  pose proof (modify_metadata_synced (accept_entry p close seq now) l' _ _ Hl2 Hl' Hs') as Hm.
  destruct (fl_ignore _ _) as [l3 r3]. destruct Hm as (Hl3 & Hs3 & ->); [by intros []; destruct seq, close|].
  by eexists.
Qed.

Lemma producer_synced clk msgs ct p close seq l a :
  locked_ok cfg name disk0 base l a -> locked_synced name l ->
  payload msgs <= ISIZE_MAX -> Z.of_nat (length (a_msgs a) + length msgs) < two64 ->
  keeps_synced cfg name disk0 base (file_producer_locked cfg io_ok clk name msgs ct p close seq) l.
Proof using L.
  intros Hl Hs Hp Hc. unfold keeps_synced, file_producer_locked, st_bind, throw_if, fl_get, st_lift, fl_modify.
  destruct (is_stream_expired _ _); [by exists a|].
  apply (locked_producers _ _ _ _ _ _ (cleanup_stale_producers (clk 1%nat) (fe_producers (fl_entry l)))) in Hl.
  assert (locked_synced name (mkFLocked (fl_total l) (fe_set_producers (fl_entry l)
    (cleanup_stale_producers (clk 1%nat) (fe_producers (fl_entry l)))) (fl_disk l))) as Hs1.
  { destruct l as [t e k]. apply (locked_synced_same name t t e); [|done|done].
    split_and!; try done. cbn. apply map_filter_subseteq. }
  set (l1 := mkFLocked _ (fe_set_producers _ _) _) in *. set (a1 := log_set_producers a _) in *.
  assert ((match msgs with [] => st_ret tt
           | _ :: _ => fun s => (s, validate_content_type (content_type (fe_config (fl_entry l))) ct) end) l1 =
          (l1, if decide (msgs = []) then Ok tt
             else validate_content_type (content_type (fe_config (fl_entry l))) ct)) as ->
    by by destruct msgs.
  destruct (if decide (msgs = []) then _ else _) as [[]|err]; [|by exists a1].
  destruct (check_producer _ _ _) as [[|ep q]|err]; [|by exists a1..].
  destruct (validate_seq _ _) as [pending|err]; [|by exists a1].
  exact (producer_commit_synced (clk 2%nat) msgs p close pending l1 a1 Hl Hs1 Hp Hc).
Qed.
End MoreSections.

(** ** Methods *)

(** Putting a synced entry (back) into the map. *)
Lemma finish_synced st name l a :
  synced st -> locked_ok (f_settings st) name (f_disk st) (other_bytes st name) l a ->
  locked_synced name l ->
  synced (mkFile (f_settings st) (<[name := fl_entry l]> (f_streams st)) (fl_total l) (fl_disk l)).
Proof using L.
  intros Hs Hl (d & msgs & [Hn Hlog Hsm Hix] & p & m & Hp & Hdec & Hm).
  destruct (locked_finish st name l a (sy_inv _ Hs) Hl) as [Hinv _].
  pose proof (lk_frame _ _ _ _ _ _ Hl) as Hfr. split; [done|..]; cbn.
  - intros n' e'. destruct (decide (name = n')) as [<-|Hne].
    + rewrite lookup_insert_eq. intros [= <-]. exists d, msgs, m. split; [done|].
      split; [|done]. split; [done|]. split; [done|]. by exists p.
    + rewrite lookup_insert_ne by done. intros He'. unfold entry_synced.
      rewrite Hfr by (by intros ->%key_of_inj). by apply (sy_entries _ Hs).
  - intros c d' Hc. destruct (decide (c = key_of name)) as [->|Hne].
    + left. exists name, (fl_entry l). by rewrite lookup_insert_eq.
    + rewrite Hfr in Hc by done. destruct (sy_orphans _ Hs c d' Hc) as [(n' & e' & He' & ->)|?]; [left|by right].
      exists n', e'. rewrite lookup_insert_ne by congruence. done.
Qed.

Lemma with_file_stream_synced {A} (section : FileSettings -> ST FLocked Error A) st name :
  synced st ->
  (forall l a, file_view st !! name = Some a ->
     locked_ok (f_settings st) name (f_disk st) (other_bytes st name) l a -> locked_synced name l ->
     keeps_synced (f_settings st) name (f_disk st) (other_bytes st name) (section (f_settings st)) l) ->
  synced (with_file_stream name section st).1.
Proof using L.
  intros Hs Hsec. unfold with_file_stream. destruct (f_streams st !! name) as [e|] eqn:He; [|done].
  destruct (locked_start st name e (sy_inv _ Hs) He) as (a & Hv & Hl).
  assert (locked_synced name (mkFLocked (f_total_bytes st) e (f_disk st))) as Hls.
  { destruct (sy_entries _ Hs _ _ He) as (d & msgs & m & Hn & (Hlog & Hsm & p & Hp & Hdec) & Hix & Hm).
    exists d, msgs. split; [by split|]. by exists p, m. }
  specialize (Hsec _ _ Hv Hl Hls). unfold keeps_synced in Hsec.
  destruct (section _ _) as [l' r]. destruct Hsec as (a' & Hl' & Hs'). cbn. by eapply finish_synced.
Qed.

Lemma remove_synced st name e :
  synced st -> f_streams st !! name = Some e -> synced (remove_stream io_ok name e st).1.
Proof using L.
  intros Hs He.
  destruct (remove_stream_spec st io_ok name e (sy_inv _ Hs) ltac:(done) He)
    as (st' & -> & Hinv & _ & Hstr & Hcfg & Hdisk).
  cbn. split; [done|..]; rewrite Hstr, Hdisk.
  - intros n' e' [Hne He']%lookup_delete_Some. unfold entry_synced.
    rewrite lookup_delete_ne by (by intros ->%key_of_inj). by apply (sy_entries _ Hs).
  - intros c d [Hne Hc]%lookup_delete_Some.
    destruct (sy_orphans _ Hs c d Hc) as [(n' & e' & He' & ->)|?]; [left|by right].
    exists n', e'. rewrite lookup_delete_ne by congruence. done.
Qed.

(** ** Creating *)

(** The directory of a name that is not in use has no metadata and an empty log. *)
Lemma synced_fresh st name d :
  synced st -> f_streams st !! name = None -> f_disk st !! key_of name = Some (NDir d) ->
  d_meta d = None /\ default [] (d_log d) = [].
Proof using L.
  intros Hs Hnone Hd. destruct (sy_orphans _ Hs _ _ Hd) as [(n & e & He & ->%key_of_inj)|?]; [congruence|done].
Qed.

Lemma open_new_synced st clk name config :
  synced st -> f_streams st !! name = None ->
  let '(st1, r) := open_new_entry io_ok clk name config st in
  (st1 = st /\ exists err, r = Err err) \/
  (exists e d, r = Ok e /\ log_synced name (mkFLocked (f_total_bytes st) e (f_disk st1)) d [] /\
     d_meta d = None).
Proof using L.
  intros Hs Hnone. set (cfg := f_settings st).
  assert (set_disk st (f_disk st) = st) as Heta by by destruct st.
  unfold open_new_entry, st_bind at 1. fold cfg.
  destruct (stream_dir_for_name_spec cfg name) as [[msg ->]| ->]; [left; eauto|].
  unfold path_join. destruct (bool_decide_reflect (key_of name = "")) as [Hk|Hk].
  - assert (path_strip_prefix (root_dir cfg) (root_dir cfg) = Some []) as Hsp.
    { unfold path_strip_prefix, path_starts_with. rewrite bool_decide_eq_true_2 by done.
      by rewrite drop_all. }
    unfold st_bind, on_disk, create_dir_all. fold cfg. cbn [io_fails io_ok]. rewrite Hsp, Heta.
    unfold validate_stream_dir. fold cfg. rewrite Hsp.
    destruct (negb _); left; eauto.
  - unfold st_bind at 1, on_disk at 1, create_dir_all. fold cfg. cbn [io_fails io_ok].
    rewrite strip_prefix_child.
    assert (forall d0 disk1, disk1 !! key_of name = Some (NDir d0) -> d_meta d0 = None ->
      default [] (d_log d0) = [] ->
      let '(st1, r) := (let* _ := (fun st => (st, validate_stream_dir (f_settings st) io_ok InCreate
                                   (root_dir cfg ++ [key_of name]) (f_disk st))) in
        let* _ := on_disk (fun cfg0 => open_stream_file cfg0 io_ok (root_dir cfg ++ [key_of name])) in
        fun st => (st, Ok (FileEntry_new (f_settings st) io_ok (clk 1%nat) config
                            (root_dir cfg ++ [key_of name]) (f_disk st)))) (set_disk st disk1) in
      exists e d, r = Ok e /\ log_synced name (mkFLocked (f_total_bytes st) e (f_disk st1)) d [] /\
        d_meta d = None) as Hopen.
    { intros d0 disk1 Hd0 Hm0 Hl0. unfold st_bind, on_disk, open_stream_file.
      cbn [f_settings f_disk set_disk io_fails io_ok]. fold cfg.
      rewrite (validate_child cfg _ io_ok InCreate d0), (validate_child cfg _ io_ok InOpen d0) by done.
      rewrite (lookup_dir_child cfg _ d0), update_dir_child, Hl0 by done. cbn [set_disk f_disk f_settings].
      exists (FileEntry_new cfg io_ok (clk 1%nat) config (root_dir cfg ++ [key_of name])
        (<[key_of name := NDir (set_log d0 [])]> disk1)), (set_log d0 []).
      split; [done|]. split; [|done]. split; cbn; try done. apply lookup_insert_eq. }
    destruct (f_disk st !! key_of name) as [[d0| |t]|] eqn:Hd.
    + cbn [node_is_dir]. destruct (synced_fresh st name d0 Hs Hnone Hd) as [Hm0 Hl0].
      specialize (Hopen d0 (f_disk st) Hd Hm0 Hl0). destruct (st_bind _ _ _) as [st1 r]. by right.
    + cbn [node_is_dir]. rewrite Heta. left; eauto.
    + destruct t as [[]|]; cbn [node_is_dir]; rewrite Heta; [|left; eauto..].
      unfold st_bind, validate_stream_dir. fold cfg. rewrite strip_prefix_child, Hd. cbn [node_exists].
      destruct (negb _); left; eauto.
    + specialize (Hopen empty_dir (<[key_of name := NDir empty_dir]> (f_disk st))).
      destruct (st_bind _ _ _) as [st1 r]. right. apply Hopen; [apply lookup_insert_eq|done|done].
Qed.

(** Persisting and inserting a new entry, or giving it up. *)
Lemma persist_synced st name e disk t a d msgs :
  synced st ->
  locked_ok (f_settings st) name (f_disk st) (other_bytes st name) (mkFLocked t e disk) a ->
  log_synced name (mkFLocked t e disk) d msgs ->
  synced (persist_and_insert io_ok name e (mkFile (f_settings st) (f_streams st) t disk)).1.
Proof using L.
  intros Hs Hl Hls.
  pose proof (metadata_synced (f_settings st) name _ _ _ _ d msgs Hl Hls) as Hm.
  pose proof (locked_metadata (f_settings st) io_ok name _ _ _ _ Hl) as Hlm.
  unfold fl_write_metadata, st_bind, fl_get, fl_on_disk in Hm, Hlm; cbn in Hm, Hlm.
  unfold persist_and_insert, st_bind, on_disk; cbn [f_settings f_disk].
  destruct (write_metadata_for _ _ _ _ _) as [disk' r]. destruct Hm as (-> & _ & Hs'), Hlm as (Hl' & _).
  exact (finish_synced st name _ _ Hs Hl' Hs').
Qed.

Lemma abandon_synced st name l a d :
  synced st -> f_streams st !! name = None -> a_msgs a = [] ->
  locked_ok (f_settings st) name (f_disk st) (other_bytes st name) l a ->
  log_synced name l d [] -> d_meta d = None ->
  synced (mkFile (f_settings st) (f_streams st) (fl_total l) (fl_disk l)).
Proof using L.
  intros Hs Hnone Ha Hl [Hn Hlog _ _] Hmeta.
  destruct (locked_abandon st name l a (sy_inv _ Hs) Hnone Ha Hl) as [Hinv _].
  pose proof (lk_frame _ _ _ _ _ _ Hl) as Hfr. split; [done|..]; cbn.
  - intros n' e' He'. unfold entry_synced. rewrite Hfr by (intros ->%key_of_inj; congruence).
    by apply (sy_entries _ Hs).
  - intros c d' Hc. destruct (decide (c = key_of name)) as [->|Hne].
    + right. assert (d' = d) as -> by congruence. by rewrite Hlog.
    + rewrite Hfr in Hc by done. by apply (sy_orphans _ Hs).
Qed.

Lemma create_new_synced st clk name config :
  synced st -> f_streams st !! name = None -> synced (create_new io_ok clk name config st).1.
Proof using L.
  intros Hs Hnone. unfold create_new, st_bind at 1.
  pose proof (open_new_entry_spec st io_ok clk name config (sy_inv _ Hs) Hnone eq_refl) as Ho.
  pose proof (open_new_synced st clk name config Hs Hnone) as Hos.
  destruct (open_new_entry _ _ _ _ _) as [st1 r].
  destruct Hos as [[-> [err ->]]|(e & d & -> & Hls & Hmeta)]; [done|].
  destruct Ho as [-> [(err & ? & _)|(e' & [= <-] & Hl)]]; [done|]. cbn [f_disk set_disk] in *.
  pose proof (persist_synced st name e _ _ _ d [] Hs Hl Hls) as Hp.
  unfold st_bind, set_disk. destruct (persist_and_insert _ _ _ _) as [st2 r2]. by destruct r2.
Qed.

Lemma create_new_with_data_synced st clk name config msgs close :
  synced st -> f_streams st !! name = None -> payload msgs <= ISIZE_MAX ->
  Z.of_nat (length msgs) < two64 ->
  synced (create_new_with_data io_ok clk name config msgs close st).1.
Proof using L.
  intros Hs Hnone Hp Hlen. unfold create_new_with_data, st_bind at 1.
  pose proof (open_new_entry_spec st io_ok clk name config (sy_inv _ Hs) Hnone eq_refl) as Ho.
  pose proof (open_new_synced st clk name config Hs Hnone) as Hos.
  destruct (open_new_entry _ _ _ _ _) as [st1 r].
  destruct Hos as [[-> [err ->]]|(e & d & -> & Hls & Hmeta)]; [done|].
  destruct Ho as [-> [(err & ? & _)|(e' & [= <-] & Hl)]]; [done|]. cbn [f_disk set_disk] in *.
  assert ((match msgs with [] => st_ret e | _ :: _ => append_to_new io_ok e msgs end) (set_disk st (f_disk st1)) =
          append_to_new io_ok e msgs (set_disk st (f_disk st1))) as Heq by by destruct msgs.
  unfold st_bind at 1. rewrite Heq. unfold append_to_new.
  cbn [set_disk f_settings f_streams f_total_bytes f_disk].
  pose proof (append_synced _ _ _ _ _ _ d [] msgs Hl Hls Hp Hlen) as Ha.
  pose proof (locked_append (f_settings st) io_ok name _ _ _ _ msgs Hl eq_refl Hp Hlen) as Hla.
  destruct (append_records _ _ _ _) as [l2 r2].
  destruct Ha as [[-> [err ->]]|(-> & d2 & Hd2 & Hls2 & _)].
  - exact (abandon_synced st name _ (new_stream clk config [] false) d Hs Hnone eq_refl Hl Hls Hmeta).
  - destruct Hla as [[_ (? & ? & _)]|[Hl2 _]]; [done|]. destruct l2 as [t2 e2 k2]. cbn [fl_entry fl_total fl_disk] in *.
    assert (locked_ok (f_settings st) name (f_disk st) (other_bytes st name)
      (mkFLocked t2 (if close then fe_set_closed e2 true else e2) k2)
      (if close then log_close (log_append (new_stream clk config [] false) msgs None)
       else log_append (new_stream clk config [] false) msgs None)) as Hl3.
    { destruct close; [exact (locked_closed _ _ _ _ _ _ Hl2)|exact Hl2]. }
    assert (log_synced name (mkFLocked t2 (if close then fe_set_closed e2 true else e2) k2)
      d2 ([] ++ msgs)) as Hls3.
    { apply (log_synced_entry name t2 t2 e2); [by destruct close|done]. }
    pose proof (persist_synced st name _ _ _ _ _ _ Hs Hl3 Hls3) as Hps.
    unfold st_bind. destruct (persist_and_insert _ _ _ _) as [st3 r3]. by destruct r3.
Qed.

Lemma file_create_synced st clk name config :
  synced st -> synced (file_create_stream io_ok clk name config st).1.
Proof using L.
  intros Hs. unfold file_create_stream. destruct (f_streams st !! name) as [e|] eqn:He.
  - destruct (is_stream_expired _ _); [|by destruct (config_eq _ _)].
    pose proof (remove_synced st name e Hs He) as Hs1.
    destruct (remove_stream_spec st io_ok name e (sy_inv _ Hs) ltac:(done) He)
      as (st1 & Hr & _ & _ & Hstr & _). unfold st_bind. rewrite Hr in *.
    apply create_new_synced; [done|]. by rewrite Hstr, lookup_delete_eq.
  - by apply create_new_synced.
Qed.

Lemma file_create_with_data_synced st clk name config msgs close :
  synced st -> payload msgs <= ISIZE_MAX -> Z.of_nat (length msgs) < two64 ->
  synced (file_create_stream_with_data io_ok clk name config msgs close st).1.
Proof using L.
  intros Hs Hp Hlen. unfold file_create_stream_with_data. destruct (f_streams st !! name) as [e|] eqn:He.
  - destruct (is_stream_expired _ _); [|by destruct (config_eq _ _)].
    pose proof (remove_synced st name e Hs He) as Hs1.
    destruct (remove_stream_spec st io_ok name e (sy_inv _ Hs) ltac:(done) He)
      as (st1 & Hr & _ & _ & Hstr & _). unfold st_bind. rewrite Hr in *.
    apply create_new_with_data_synced; [done| |done|done]. by rewrite Hstr, lookup_delete_eq.
  - by apply create_new_with_data_synced.
Qed.

(** ** Histories *)

(** A call whose system calls succeed keeps the disk in step. *)
Lemma run_op_synced op st :
  synced st -> fits (file_view st) (op_name op) (op_msgs op) ->
  synced (fr_store (run_op op (mkRun st (fun _ => io_ok)))).
Proof using L.
  intros Hs (Hp & Hlen & Hfit).
  assert (forall A (m : Io -> ST FileStorage Error A),
    (scheduled m (mkRun st (fun _ => io_ok))).1 = mkRun (m io_ok st).1 (fun _ => io_ok)) as Hsch.
  { intros A m. unfold scheduled; cbn. by destruct (m io_ok st). }
  destruct op as [clk n config|clk n config msgs close|clk n data ct|clk n msgs ct seq
    |clk n msgs ct p close seq|clk n|n|clk n]; cbn in *; rewrite ?Hsch; cbn.
  - by apply file_create_synced.
  - by apply file_create_with_data_synced.
  - apply with_file_stream_synced; [done|]. intros l a Hv Hl Hls. specialize (Hfit a Hv).
    by eapply append_section_synced.
  - unfold file_batch_append. destruct msgs as [|m0 ms]; [done|].
    apply with_file_stream_synced; [done|]. intros l a Hv Hl Hls. specialize (Hfit a Hv).
    by eapply batch_append_synced.
  - apply with_file_stream_synced; [done|]. intros l a Hv Hl Hls. specialize (Hfit a Hv).
    by eapply producer_synced.
  - apply with_file_stream_synced; [done|]. intros l a Hv Hl Hls. by eapply close_synced.
  - unfold file_delete. destruct (f_streams st !! n) as [e|] eqn:He; [by apply remove_synced|done].
  - done.
Qed.

Lemma run_op_io op st io : exists k, fr_io (run_op op (mkRun st io)) = (fun n => io (k + n)%nat).
Proof.
  assert (forall A (m : Io -> ST FileStorage Error A),
    fr_io (scheduled m (mkRun st io)).1 = fun n => io (1 + n)%nat) as Hsch.
  { intros A m. unfold scheduled; cbn. by destruct (m (io 0%nat) st). }
  destruct op; cbn; try (exists 1%nat; apply Hsch). by exists 0%nat.
Qed.

Lemma history_synced run ops run' :
  history run ops run' -> fr_io run = (fun _ => io_ok) -> synced (fr_store run) -> synced (fr_store run').
Proof using L.
  induction 1 as [|[st io] op ops run' Hfit _ Hh IH]; intros Hio Hs; [done|]. cbn in Hio, Hs. subst io.
  apply IH.
  - by destruct (run_op_io op st (fun _ => io_ok)) as [k ->].
  - by apply run_op_synced.
Qed.

(** A storage on an empty directory. *)
Definition empty_storage (cfg : FileSettings) : FileStorage := mkFile cfg ∅ 0 ∅.

Lemma empty_synced cfg :
  0 <= max_total_bytes cfg <= ISIZE_MAX -> u64 (max_stream_bytes cfg) -> synced (empty_storage cfg).
Proof.
  intros Hmt Hms. split; [split|..]; cbn; try done; try lia;
    by intros ? *; rewrite lookup_empty.
Qed.

(** C14: streams survive a restart. After any history of calls on a fresh directory
    whose system calls succeed, starting the server again on what is on the disk,
    whatever order the directory is listed in, succeeds and finds every stream that
    has not expired with the same configuration, messages, closed flag, creation time
    and [Stream-Seq], remembers every producer the running server remembered, and
    finds nothing else; the restored storage satisfies the backend contract again, so
    offsets handed out before the restart stay valid and the byte counter is exact. *)
Theorem restart_after_history cfg ops run now entries :
  0 <= max_total_bytes cfg <= ISIZE_MAX -> u64 (max_stream_bytes cfg) ->
  history (mkRun (empty_storage cfg) (fun _ => io_ok)) ops run ->
  NoDup entries -> (forall c, c ∈ entries <-> is_Some (f_disk (fr_store run) !! c)) ->
  exists st', FileStorage_new io_ok (fun _ => io_ok) now entries (f_settings (fr_store run))
                (f_disk (fr_store run)) = (f_disk st', Ok st') /\
    backend_inv (mkRun st' (fun _ => io_ok)) /\
    forall name,
      match view run !! name with
      | None => view (mkRun st' (fun _ => io_ok)) !! name = None
      | Some a =>
          if is_stream_expired (now (key_of name)) (a_config a)
          then view (mkRun st' (fun _ => io_ok)) !! name = None
          else exists b, view (mkRun st' (fun _ => io_ok)) !! name = Some b /\ restarted a b
      end.
Proof using L.
  intros Hmt Hms Hh Hnd Hall. pose proof (history_synced _ _ _ Hh eq_refl (empty_synced cfg Hmt Hms)) as Hs.
  destruct (restart_synced (fr_store run) now entries Hs Hnd Hall) as (st' & Hnew & Hs' & Hv).
  exists st'. split; [done|]. split; [|exact Hv]. split; [apply Hs'|]. by intros n site.
Qed.
End Durability.

(** ** A run *)

(** A stream is created and gets its first message. *)
Definition demo_ops : list StorageOp :=
  [OpCreate demo_clock "s" demo_config; OpAppend demo_clock "s" [x61] "text/plain"].
Definition demo_run : FileRun :=
  fold_left (fun r op => run_op op r) demo_ops (mkRun (empty_storage demo_settings) (fun _ => io_ok)).

Lemma demo_history : history (mkRun (empty_storage demo_settings) (fun _ => io_ok)) demo_ops demo_run.
Proof.
  apply history_cons; [fits_run|done|]. apply history_cons; [fits_run|done|]. apply history_nil.
Qed.

Lemma demo_run_view :
  exists a, file_view (fr_store demo_run) !! "s" = Some a /\ a_msgs a = [[x61]] /\
    is_stream_expired 1000 (a_config a) = false.
Proof.
  assert ((fun a => (a_msgs a, is_stream_expired 1000 (a_config a))) <$>
            file_view (fr_store demo_run) !! "s" = Some ([[x61]], false)) as Hv by (vm_compute; reflexivity).
  destruct (file_view (fr_store demo_run) !! "s") as [a|]; [|done]. injection Hv as Hm Hx. eauto.
Qed.

Lemma restart_after_history_witness :
  exists st', restart (f_disk (fr_store demo_run)) = (f_disk st', Ok st') /\
    exists b, file_view st' !! "s" = Some b /\ a_msgs b = [[x61]].
Proof.
  destruct (restart_after_history demo_settings demo_ops demo_run (fun _ => 1000)
    (listing (f_disk (fr_store demo_run)))) as (st' & Hnew & _ & Hv).
  - cbn. unfold ISIZE_MAX. lia.
  - cbn. unfold u64, two64. lia.
  - exact demo_history.
  - apply listing_nodup.
  - apply listing_spec.
  - exists st'. split; [exact Hnew|]. specialize (Hv "s").
    change (view demo_run) with (file_view (fr_store demo_run)) in Hv.
    destruct demo_run_view as (a & Ha & Hm & Hx). rewrite Ha, Hx in Hv. destruct Hv as (b & Hb & [_ Hr _ _ _ _]). exists b. split; [exact Hb|congruence].
Defined.
