(* ===== verification/FileCrash.v ===== *)
(** * FileCrash: crashes of the file backend

    A crash in the middle of an append is a run of the method whose system calls stop
    succeeding at some point: the log write after some of its bytes, the sync, the
    write of the temporary metadata file or its rename. What a restart makes of the
    disk such a run leaves behind. *)

From S2P Require Import Prelude Errors Offsets RustStd Headers StorageCore LogSpec StorageTrace.
From S2P Require Import FileRecords FileStorage FileDemo FileSections FileRefinement FileLawful.
From S2P Require Import FileRecovery FileDurability.

#[local] Arguments cleanup_stale_producers : simpl never.
#[local] Arguments append_records : simpl never.

(** ** Torn batches *)

(** Any prefix of the records of a batch holds a prefix of the batch, and then a torn
    record. *)
Lemma torn_batch junk batch :
  junk `prefix_of` encode_records batch -> Forall small batch ->
  exists pre rest, pre `prefix_of` batch /\ junk = encode_records pre ++ rest /\ torn rest /\
    (junk = encode_records batch -> pre = batch).
Proof.
  intros [tail Htail] Hsm. destruct (records_decompose junk) as (pre & rest & -> & Hpre & Htorn).
  assert (encode_records batch ++ [] = encode_records pre ++ rest ++ tail) as Heq
    by (rewrite app_nil_r, Htail; by rewrite <- app_assoc).
  destruct (records_align pre batch [] (rest ++ tail) Hsm Hpre torn_nil Heq) as (more & -> & _).
  exists pre, rest. split_and!; [by exists more|done|done|]. intros Hall.
  rewrite <- (app_nil_r (encode_records (pre ++ more))) in Hall.
  destruct (records_align (pre ++ more) pre rest [] Hpre Hsm Htorn Hall) as (more' & Hm & _).
  apply (f_equal length) in Hm. rewrite !length_app in Hm.
  destruct more; [by rewrite app_nil_r|cbn in Hm; lia].
Qed.

Section Crash.
Context {F : FileLib} {L : FileLibLaws F}.

(** The failures that stop an append. *)
Definition append_io (io : Io) : Prop :=
  forall site, io_fails io site = true ->
    site = LogWrite \/ site = LogSync \/ site = MetaWrite \/ site = MetaRename.

Lemma append_io_stat io : append_io io -> io_fails io StatLog = false.
Proof. intros Hio. destruct (io_fails io StatLog) eqn:Hs; [|done]. apply Hio in Hs. naive_solver. Qed.

(** What [write_metadata_for] writes. *)
Definition meta_of (name : string) (e : FileEntry) : StreamMeta :=
  mkMeta name (fe_config e) (fe_closed e) (fe_created_at e) (fe_last_seq e) (fe_producers e).

(** ** The disk during an append *)

(** The section [l] started with directory [d], records [ms] and entry [e0]: [junk] of
    the batch has reached the log, and the index is the old one, or that of the whole
    batch. *)
Record crash_log (name : string) (cfg : FileSettings) (base : Z) (d : Dir) (ms batch : list bytes)
    (e0 : FileEntry) (l : FLocked) (junk : bytes) : Prop := mkCrashLog {
  cl_node : exists d', fl_disk l !! key_of name = Some (NDir d') /\
      d_log d' = Some (encode_records ms ++ junk) /\
      (d_meta d' = d_meta d \/
       exists p, d_meta d' = Some p /\ meta_from_slice p = Some (meta_of name (fl_entry l)));
  cl_prefix : junk `prefix_of` encode_records batch;
  cl_room : junk = [] \/ (Forall small batch /\ base + payload ms + payload batch <= max_total_bytes cfg /\
                          payload ms + payload batch <= max_stream_bytes cfg);
  cl_index : fe_index (fl_entry l) = index_from 0 0 0 ms \/
    (junk = encode_records batch /\ fe_index (fl_entry l) = index_from 0 0 0 (ms ++ batch));
  cl_config : fe_config (fl_entry l) = fe_config e0;
  cl_created : fe_created_at (fl_entry l) = fe_created_at e0
}.

(** A section that leaves the stream well formed and its directory as a crash may. *)
Definition crash_post (name : string) (cfg : FileSettings) (disk0 : Disk) (base : Z) (d : Dir)
    (ms batch : list bytes) (e0 : FileEntry) (l : FLocked) : Prop :=
  exists junk a', locked_ok cfg name disk0 base l a' /\ crash_log name cfg base d ms batch e0 l junk.

Section Sections.
Context (cfg : FileSettings) (name : string) (disk0 : Disk) (base : Z) (io : Io).
Context (d : Dir) (ms batch : list bytes) (e0 : FileEntry).
Hypothesis Hio : append_io io.

Lemma crash_append l a :
  locked_ok cfg name disk0 base l a -> log_synced name l d ms ->
  fe_config (fl_entry l) = fe_config e0 -> fe_created_at (fl_entry l) = fe_created_at e0 ->
  payload batch <= ISIZE_MAX -> Z.of_nat (length (a_msgs a) + length batch) < two64 ->
  let '(l', r) := append_records cfg io batch l in
  exists junk a', locked_ok cfg name disk0 base l' a' /\
    crash_log name cfg base d ms batch e0 l' junk /\
    (exists d', fl_disk l' !! key_of name = Some (NDir d') /\ d_meta d' = d_meta d) /\
    (r = Ok tt \/ exists err, r = Err err).
Proof using Hio.
  intros Hl Hls Hcf Hcr Hp Hc. pose proof (append_io_stat io Hio) as Hst.
  destruct (log_msgs_of _ _ _ _ _ _ _ _ Hl Hls) as (Hm & Hr & Hb & Hfl).
  destruct Hls as [Hn Hlog Hsm Hix]. destruct batch as [|m0 bs] eqn:Hbatch.
  { exists [], a. cbn. split_and!; [done| |by eauto|by left].
    split; try done; rewrite ?app_nil_r; eauto. }
  rewrite <- Hbatch in *. assert (batch <> []) as Hne by by rewrite Hbatch.
  assert (fl_total l = base + payload ms /\ fe_total_bytes (fl_entry l) = payload ms) as [Ht He].
  { destruct (lk_log _ _ _ _ _ _ Hl) as (d1 & log1 & _ & _ & Hok & Ha).
    assert (fe_total_bytes (fl_entry l) = payload ms) as He.
    { rewrite (lo_total _ _ Hok), <- Hm, <- Ha. done. }
    rewrite (lk_total _ _ _ _ _ _ Hl), He. done. }
  destruct (append_records_run cfg io name disk0 base l a d _ batch Hl Hn Hlog Hst Hne Hp Hc)
    as [(err & junk & -> & _ & Hpre & Hmax & _ & Hroom)|(-> & Hsb & Hmax & Hg & Hs)].
  - exists junk, a. split_and!; [by apply locked_after_failure| | |by eauto].
    + split; cbn; try done; [|rewrite Ht, He in Hroom; destruct Hroom; [by left|right; done]|by left].
      eexists. split; [apply lookup_insert_eq|]. split; [done|by left].
    + cbn. eexists. split; [apply lookup_insert_eq|done].
  - exists (encode_records batch), (log_append a batch None).
    split_and!; [by apply locked_after_append| | |by left].
    + split; cbn; try done.
      * eexists. split; [apply lookup_insert_eq|]. split; [apply grow_log_files|left; apply grow_log_files].
      * right. split_and!; [done|lia|lia].
      * right. split; [done|]. by rewrite Hix, index_from_app, Hr, Hb, Hfl.
    + cbn. eexists. split; [apply lookup_insert_eq|apply grow_log_files].
Qed.

(** Field updates before the metadata is written. *)
Lemma crash_modify (f : FileEntry -> FileEntry) l junk :
  crash_log name cfg base d ms batch e0 l junk ->
  (exists d', fl_disk l !! key_of name = Some (NDir d') /\ d_meta d' = d_meta d) ->
  (forall e, fe_index (f e) = fe_index e /\ fe_config (f e) = fe_config e /\
             fe_created_at (f e) = fe_created_at e) ->
  crash_log name cfg base d ms batch e0 (mkFLocked (fl_total l) (f (fl_entry l)) (fl_disk l)) junk.
Proof using.
  intros [(d1 & Hn & Hlog & _) Hp Hr Hi Hc Hcr] (d2 & Hn2 & Hm2) Hf.
  destruct (Hf (fl_entry l)) as (Hfi & Hfc & Hfcr). split; cbn; try congruence.
  exists d1. split_and!; [done..|]. left. congruence.
Qed.

(** Writing the metadata, wherever it stops. *)
Lemma crash_metadata l a junk :
  locked_ok cfg name disk0 base l a -> crash_log name cfg base d ms batch e0 l junk ->
  crash_log name cfg base d ms batch e0 (fl_ignore (fl_write_metadata cfg io name) l).1 junk.
Proof using L.
  intros Hl Hcl. pose proof (lk_dir _ _ _ _ _ _ Hl) as Hd.
  unfold fl_ignore, fl_write_metadata, st_bind, fl_get, fl_on_disk, write_metadata_for.
  destruct (validate_stream_dir _ _ _ _ _) as [[]|err]; [|by destruct l].
  fold (meta_of name (fl_entry l)).
  destruct (meta_serializes (meta_of name (fl_entry l))) as [p Hp]. rewrite Hp.
  destruct Hcl as [(d1 & Hn & Hlog & Hmeta) Hpre Hr Hi Hc Hcr].
  rewrite Hd, (lookup_dir_child cfg _ d1), !update_dir_child by done.
  assert (forall d2, d_log d2 = d_log d1 ->
    (d_meta d2 = d_meta d1 \/ d_meta d2 = Some p) ->
    crash_log name cfg base d ms batch e0
      (mkFLocked (fl_total l) (fl_entry l) (<[key_of name := NDir d2]> (fl_disk l))) junk) as Hup.
  { intros d2 Hl2 Hm2. split; cbn; try done. exists d2. rewrite lookup_insert_eq.
    split_and!; [done|congruence|]. destruct Hm2 as [Hm2|Hm2].
    - by rewrite Hm2.
    - right. exists p. split; [done|]. by apply meta_roundtrip. }
  destruct (io_fails io MetaWrite); [by apply Hup; [|left]|].
  destruct (io_fails io MetaRename); [by apply Hup; [|left]|by apply Hup; [|right]].
Qed.

Lemma crash_start l a :
  locked_ok cfg name disk0 base l a -> log_synced name l d ms ->
  fe_config (fl_entry l) = fe_config e0 -> fe_created_at (fl_entry l) = fe_created_at e0 ->
  crash_post name cfg disk0 base d ms batch e0 l.
Proof using.
  intros Hl [Hn Hlog Hsm Hix] Hcf Hcr. exists [], a. split; [done|]. split; try done.
  - exists d. rewrite app_nil_r. by split_and!; [..|left].
  - apply prefix_nil.
  - by left.
  - by left.
Qed.

Section OneSection.
Context (l : FLocked) (a : AStream).
Hypothesis Hl : locked_ok cfg name disk0 base l a.
Hypothesis Hls : log_synced name l d ms.
Hypothesis Hcf : fe_config (fl_entry l) = fe_config e0.
Hypothesis Hcr : fe_created_at (fl_entry l) = fe_created_at e0.
Hypothesis Hp : payload batch <= ISIZE_MAX.
Hypothesis Hc : Z.of_nat (length (a_msgs a) + length batch) < two64.

Lemma crash_append_section clk data ct :
  batch = [data] -> crash_post name cfg disk0 base d ms batch e0 (file_append_locked cfg io clk data ct l).1.
Proof using All.
  intros Hb. pose proof (crash_start l a Hl Hls Hcf Hcr) as H0.
  unfold file_append_locked, st_bind, throw_if, fl_get, st_lift. rewrite <- Hb.
  destruct (is_stream_expired _ _); [done|]. destruct (fe_closed _); [done|].
  destruct (validate_content_type _ _) as [[]|]; [|done].
  pose proof (crash_append l a Hl Hls Hcf Hcr Hp Hc) as Ha.
  destruct (append_records _ _ _ _) as [l' r]. destruct Ha as (junk & a' & Hl' & Hcl & _ & _).
  exists junk, a'. by destruct r.
Qed.

Lemma crash_batch_section clk ct seq :
  crash_post name cfg disk0 base d ms batch e0 (file_batch_append_locked cfg io clk name batch ct seq l).1.
Proof using All.
  pose proof (crash_start l a Hl Hls Hcf Hcr) as H0.
  unfold file_batch_append_locked, st_bind, throw_if, fl_get, st_lift.
  destruct (is_stream_expired _ _); [done|]. destruct (fe_closed _); [done|].
  destruct (validate_content_type _ _) as [[]|]; [|done].
  destruct (validate_seq _ _) as [pending|]; [|done].
  pose proof (crash_append l a Hl Hls Hcf Hcr Hp Hc) as Ha.
  destruct (append_records _ _ _ _) as [l' r]. destruct Ha as (junk & a' & Hl' & Hcl & Hmeta & _).
  destruct r as [[]|err]; [|by exists junk, a']. destruct pending as [q|]; [|by exists junk, a'].
  unfold fl_modify. pose proof (locked_seq _ _ _ _ _ _ q Hl') as Hl2.
  pose proof (crash_modify (fun e => fe_set_last_seq e (Some q)) l' junk Hcl Hmeta ltac:(done)) as Hcl2.
  pose proof (crash_metadata _ _ junk Hl2 Hcl2) as Hcl3.
  pose proof (locked_metadata cfg io name _ _ _ _ Hl2) as Hlm. unfold fl_ignore in *.
  destruct (fl_write_metadata _ _ _ _) as [l3 r3]. destruct Hlm as (Hl3 & _). by eexists _, _.
Qed.

Lemma crash_commit_section now p close seq :
  crash_post name cfg disk0 base d ms batch e0
    (file_producer_commit cfg io now name batch p close seq l).1.
Proof using All.
  rewrite producer_commit_run. unfold st_bind, fl_modify, fl_get, st_ret.
  pose proof (crash_append l a Hl Hls Hcf Hcr Hp Hc) as Ha.
  destruct (append_records _ _ _ _) as [l' r]. destruct Ha as (junk & a' & Hl' & Hcl & Hmeta & _).
  destruct r as [[]|err]; [|by exists junk, a'].
  pose proof (locked_accept _ _ _ _ _ _ p close seq now Hl') as Hl2.
  pose proof (crash_modify (accept_entry p close seq now) l' junk Hcl Hmeta
    ltac:(by intros []; destruct seq, close)) as Hcl2.
  pose proof (crash_metadata _ _ junk Hl2 Hcl2) as Hcl3.
  pose proof (locked_metadata cfg io name _ _ _ _ Hl2) as Hlm. unfold fl_ignore in *.
  destruct (fl_write_metadata _ _ _ _) as [l3 r3]. destruct Hlm as (Hl3 & _). by eexists _, _.
Qed.
End OneSection.

Lemma crash_producer_section clk ct p close seq l a :
  locked_ok cfg name disk0 base l a -> log_synced name l d ms ->
  fe_config (fl_entry l) = fe_config e0 -> fe_created_at (fl_entry l) = fe_created_at e0 ->
  payload batch <= ISIZE_MAX -> Z.of_nat (length (a_msgs a) + length batch) < two64 ->
  crash_post name cfg disk0 base d ms batch e0
    (file_producer_locked cfg io clk name batch ct p close seq l).1.
Proof using All.
  intros Hl Hls Hcf Hcr Hp Hc. pose proof (crash_start l a Hl Hls Hcf Hcr) as H0.
  unfold file_producer_locked, st_bind, throw_if, fl_get, st_lift, fl_modify.
  destruct (is_stream_expired _ _); [done|].
  apply (locked_producers _ _ _ _ _ _ (cleanup_stale_producers (clk 1%nat) (fe_producers (fl_entry l)))) in Hl.
  assert (log_synced name (mkFLocked (fl_total l) (fe_set_producers (fl_entry l)
    (cleanup_stale_producers (clk 1%nat) (fe_producers (fl_entry l)))) (fl_disk l)) d ms) as Hls1.
  { destruct l as [t e k]. by apply (log_synced_entry name t t e). }
  set (l1 := mkFLocked _ (fe_set_producers _ _) _) in *. set (a1 := log_set_producers a _) in *.
  pose proof (crash_start l1 a1 Hl Hls1 Hcf Hcr) as H1.
  assert ((match batch with [] => st_ret tt
           | _ :: _ => fun s => (s, validate_content_type (content_type (fe_config (fl_entry l))) ct) end) l1 =
          (l1, if decide (batch = []) then Ok tt
             else validate_content_type (content_type (fe_config (fl_entry l))) ct)) as ->
    by by destruct batch.
  destruct (if decide (batch = []) then _ else _) as [[]|err]; [|done].
  destruct (check_producer _ _ _) as [[|ep q]|err]; [|done..].
  destruct (validate_seq _ _) as [pending|err]; [|done].
  exact (crash_commit_section l1 a1 Hl Hls1 Hcf Hcr Hp Hc (clk 2%nat) p close pending).
Qed.
End Sections.

(** ** The disk after a crash *)

(** What the loader will see of the stream that was written to. *)
Lemma crash_image st name e d ms m batch l :
  synced st -> f_streams st !! name = Some e -> f_disk st !! key_of name = Some (NDir d) ->
  dir_holds d ms m -> meta_matches name e m ->
  crash_post name (f_settings st) (f_disk st) (other_bytes st name) d ms batch e l ->
  exists pre rest m',
    disk_image (fl_disk l) (<[name := mkImage (ms ++ pre) rest m']> (image_of st)) /\
    pre `prefix_of` batch /\ (m' = m \/ m' = meta_of name (fl_entry l)) /\
    fm_config m' = fe_config e /\ fm_created_at m' = fe_created_at e /\
    (fe_index (fl_entry l) = index_from 0 0 0 ms \/ (pre = batch /\ fe_index (fl_entry l) = index_from 0 0 0 (ms ++ batch))) /\
    (pre = [] \/ (other_bytes st name + payload ms + payload batch <= max_total_bytes (f_settings st) /\
                  payload ms + payload batch <= max_stream_bytes (f_settings st))).
Proof using L.
  intros Hs He Hd (Hlog & Hsm & p & Hp & Hdec) Hmm (junk & a' & Hl & Hcl).
  destruct Hcl as [(d' & Hn' & Hlog' & Hmeta') Hpre Hroom Hidx Hcf Hcr].
  assert (exists pre rest, pre `prefix_of` batch /\ junk = encode_records pre ++ rest /\ torn rest /\
    Forall small pre /\ (junk = encode_records batch -> pre = batch) /\
    (pre = [] \/ (other_bytes st name + payload ms + payload batch <= max_total_bytes (f_settings st) /\
                  payload ms + payload batch <= max_stream_bytes (f_settings st))))
    as (pre & rest & Hpb & -> & Htorn & Hsp & Hfull & Hlim).
  { destruct Hroom as [->|(Hsb & Hg & Hst)].
    - exists [], []. split_and!; [apply prefix_nil|done|apply torn_nil|constructor| |by left].
      destruct batch as [|b bs]; [done|]. cbn. intros Heq. by destruct (len_u32 b).
    - destruct (torn_batch junk batch Hpre Hsb) as (pre & rest & Hpb & -> & ? & ?).
      exists pre, rest. split_and!; try done; [|by right]. destruct Hpb as [more ->].
      by apply Forall_app in Hsb as [? _]. }
  assert (exists p' m', d_meta d' = Some p' /\ meta_from_slice p' = Some m' /\
    (m' = m \/ m' = meta_of name (fl_entry l))) as (p' & m' & Hp' & Hdec' & Hm').
  { destruct Hmeta' as [Hm|(p' & Hp' & Hd')]; [|by eauto 10]. exists p, m. split_and!; try done; [congruence|by left]. }
  exists pre, rest, m'. split_and!; try done.
  - pose proof (synced_image st Hs) as Himg. pose proof (lk_frame _ _ _ _ _ _ Hl) as Hfr. split.
    + intros n x. destruct (decide (name = n)) as [<-|Hne].
      * rewrite lookup_insert_eq. intros [= <-]. exists d'. split; [done|]. unfold dir_image; cbn.
        rewrite encode_records_app, <- app_assoc. split_and!; try done.
        -- by apply Forall_app.
        -- destruct (lk_log _ _ _ _ _ _ Hl) as (d1 & log1 & Hn1 & Hl1 & Hok & _).
           assert (log1 = encode_records ms ++ encode_records pre ++ rest) as <- by congruence. apply Hok.
        -- destruct Hm' as [->| ->]; [apply Hmm|done].
        -- by exists p'.
      * rewrite lookup_insert_ne by done. intros Hx. rewrite Hfr by (by intros ->%key_of_inj).
        by apply (di_streams _ _ Himg).
    + intros c d1 Hc. destruct (decide (c = key_of name)) as [->|Hne].
      * left. eexists name, _. by rewrite lookup_insert_eq.
      * rewrite Hfr in Hc by done. destruct (di_others _ _ Himg c d1 Hc) as [(n & x & Hx & ->)|?]; [left|by right].
        exists n, x. rewrite lookup_insert_ne by congruence. done.
  - destruct Hm' as [->| ->]; [apply Hmm|done].
  - destruct Hm' as [->| ->]; [apply Hmm|done].
  - destruct Hidx as [?|[Hj ?]]; [by left|right; by auto].
Qed.

(** The messages the running server showed after the call. *)
Lemma crash_shown cfg name disk0 base l a ms batch :
  locked_ok cfg name disk0 base l a ->
  (exists d' junk, fl_disk l !! key_of name = Some (NDir d') /\ d_log d' = Some (encode_records ms ++ junk) /\
     (fe_index (fl_entry l) = index_from 0 0 0 ms \/
      (junk = encode_records batch /\ fe_index (fl_entry l) = index_from 0 0 0 (ms ++ batch)))) ->
  a_msgs a = ms \/ a_msgs a = ms ++ batch.
Proof.
  intros Hl (d' & junk & Hn & Hlog & Hidx).
  destruct (lk_log _ _ _ _ _ _ Hl) as (d1 & log1 & Hn1 & Hl1 & _ & <-).
  assert (log1 = encode_records ms ++ junk) as -> by congruence. cbn. unfold file_msgs.
  destruct Hidx as [->|[-> ->]]; [left|right].
  - exact (index_from_slices 0 0 [] ms junk).
  - pose proof (index_from_slices 0 0 [] (ms ++ batch) []) as Hi. cbn in Hi.
    by rewrite app_nil_r, encode_records_app in Hi.
Qed.

Lemma prefix_payload pre batch : pre `prefix_of` batch -> payload pre <= payload batch.
Proof. intros [more ->]. rewrite payload_app. pose proof (payload_nonneg more). lia. Qed.

(** Starting the server on the disk a crash left behind. *)
Lemma crash_restart st name e d ms m batch l now entries :
  synced st -> f_streams st !! name = Some e -> f_disk st !! key_of name = Some (NDir d) ->
  dir_holds d ms m -> meta_matches name e m -> image_of st !! name = Some (mkImage ms [] m) ->
  crash_post name (f_settings st) (f_disk st) (other_bytes st name) d ms batch e l ->
  NoDup entries -> (forall c, c ∈ entries <-> is_Some (fl_disk l !! c)) ->
  exists st' pre m', FileStorage_new io_ok (fun _ => io_ok) now entries (f_settings st) (fl_disk l) =
      (f_disk st', Ok st') /\ synced st' /\
    pre `prefix_of` batch /\ (m' = m \/ m' = meta_of name (fl_entry l)) /\
    fm_config m' = fe_config e /\ fm_created_at m' = fe_created_at e /\
    (fe_index (fl_entry l) = index_from 0 0 0 ms \/ (pre = batch /\ fe_index (fl_entry l) = index_from 0 0 0 (ms ++ batch))) /\
    forall n, file_view st' !! n =
      match <[name := mkImage (ms ++ pre) [] m']> (image_of st) !! n with
      | Some x =>
          if is_stream_expired (now (key_of n)) (fm_config (im_meta x)) then None
          else Some (mkAStream (fm_config (im_meta x)) (im_msgs x) (fm_closed (im_meta x))
                       (fm_created_at (im_meta x)) (fm_producers (im_meta x)) (fm_last_seq (im_meta x)))
      | None => None
      end.
Proof using L.
  intros Hs He Hd Hh Hmm Hi Hpost Hnd Hall.
  destruct (crash_image st name e d ms m batch l Hs He Hd Hh Hmm Hpost)
    as (pre & rest & m' & Himg & Hpre & Hm' & Hcf & Hcr & Hidx & Hlim).
  set (img := <[name := mkImage (ms ++ pre) rest m']> (image_of st)) in *.
  pose proof (sy_inv _ Hs) as Hinv. destruct (fi_max_total _ Hinv) as [Hmt0 Hmt].
  pose proof (synced_payload st name e _ Hs He Hi) as Hpay. cbn in Hpay.
  pose proof (synced_sum st Hs) as Hsum. pose proof (fi_limit _ Hinv) as Hflim.
  assert (f_total_bytes st = other_bytes st name + payload ms) as Htot.
  { rewrite (fi_sum _ Hinv), (map_sum_delete _ _ _ _ He), Hpay. unfold other_bytes. lia. }
  assert (map_sum (fun x => payload (im_msgs x)) img <= max_total_bytes (f_settings st)) as Hbound.
  { unfold img. rewrite (map_sum_update _ _ _ _ _ Hi). cbn. rewrite payload_app.
    pose proof (prefix_payload _ _ Hpre). destruct Hlim as [->|[? _]]; cbn; lia. }
  destruct (load_image (f_settings st) (fl_disk l) img now Himg ltac:(lia) entries Hnd Hall)
    as (st' & Hnew & Hcfg & Hstr & Hftot & Hafter).
  exists st', pre, m'. split_and!; try done.
  - destruct Hpost as (junk & a' & Hl & _). destruct (locked_finish st name l a' Hinv Hl) as [Hinv1 _].
    apply (load_synced _ _ _ _ Himg st' Hcfg Hstr Hafter); try done; try apply Hinv.
    + apply (fi_disk _ Hinv1).
    + etrans; [|exact Hbound]. apply (load_sum_le (f_settings st) img now). intros n e1. by rewrite Hstr.
    + intros n x. unfold img. destruct (decide (name = n)) as [<-|Hne].
      * rewrite lookup_insert_eq. intros [= <-]. cbn. rewrite payload_app.
        pose proof (prefix_payload _ _ Hpre). destruct (fi_entries _ Hinv _ _ He) as [_ Hms].
        destruct Hlim as [->|[_ ?]]; cbn; lia.
      * rewrite lookup_insert_ne by done. intros Hx. pose proof (image_of_lookup st n Hs) as Hin.
        destruct (f_streams st !! n) as [e1|] eqn:He1; [|congruence].
        rewrite <- (synced_payload st n e1 x) by done. by apply (fi_entries _ Hinv n).
  - intros n. rewrite (load_view _ _ _ _ Himg st' Hcfg Hstr Hafter). unfold img.
    destruct (decide (name = n)) as [<-|Hne]; [by rewrite !lookup_insert_eq|by rewrite !lookup_insert_ne].
Qed.

(** ** Recovery *)

(** The calls that append. *)
Definition is_append (op : StorageOp) : bool :=
  match op with OpAppend _ _ _ _ | OpBatchAppend _ _ _ _ _ | OpProducer _ _ _ _ _ _ _ => true | _ => false end.

(** The call does nothing, or leaves its stream as a crash may. *)
Lemma run_append_crash op st io :
  synced st -> append_io io -> is_append op = true -> fits (file_view st) (op_name op) (op_msgs op) ->
  let st1 := fr_store (run_op op (mkRun st (fun _ => io))) in
  let name := op_name op in
  st1 = st \/
  exists e d ms l, f_streams st !! name = Some e /\ f_disk st !! key_of name = Some (NDir d) /\
    log_synced name (mkFLocked (f_total_bytes st) e (f_disk st)) d ms /\
    crash_post name (f_settings st) (f_disk st) (other_bytes st name) d ms (op_msgs op) e l /\
    st1 = mkFile (f_settings st) (<[name := fl_entry l]> (f_streams st)) (fl_total l) (fl_disk l).
Proof using L.
  intros Hs Hio Hop (Hp & _ & Hfit).
  assert (forall A (m : Io -> ST FileStorage Error A),
    fr_store (scheduled m (mkRun st (fun _ => io))).1 = (m io st).1) as Hsch.
  { intros A m. unfold scheduled; cbn. by destruct (m io st). }
  assert (forall A (section : FileSettings -> ST FLocked Error A) name,
    op_name op = name ->
    (forall e d ms a, locked_ok (f_settings st) name (f_disk st) (other_bytes st name)
        (mkFLocked (f_total_bytes st) e (f_disk st)) a ->
      log_synced name (mkFLocked (f_total_bytes st) e (f_disk st)) d ms ->
      Z.of_nat (length (a_msgs a) + length (op_msgs op)) < two64 ->
      crash_post name (f_settings st) (f_disk st) (other_bytes st name) d ms (op_msgs op) e
        (section (f_settings st) (mkFLocked (f_total_bytes st) e (f_disk st))).1) ->
    let st1 := (with_file_stream name section st).1 in
    st1 = st \/
    exists e d ms l, f_streams st !! name = Some e /\ f_disk st !! key_of name = Some (NDir d) /\
      log_synced name (mkFLocked (f_total_bytes st) e (f_disk st)) d ms /\
      crash_post name (f_settings st) (f_disk st) (other_bytes st name) d ms (op_msgs op) e l /\
      st1 = mkFile (f_settings st) (<[name := fl_entry l]> (f_streams st)) (fl_total l) (fl_disk l)) as Hwith.
  { intros A section name <- Hsec. unfold with_file_stream.
    destruct (f_streams st !! op_name op) as [e|] eqn:He; [right|by left].
    destruct (locked_start st _ e (sy_inv _ Hs) He) as (a & Hv & Hl).
    destruct (sy_entries _ Hs _ _ He) as (d & ms & m & Hn & (Hlog & Hsm & _) & Hix & _).
    assert (log_synced (op_name op) (mkFLocked (f_total_bytes st) e (f_disk st)) d ms) as Hls by by split.
    specialize (Hsec e d ms a Hl Hls (Hfit a Hv)). destruct (section _ _) as [l r].
    exists e, d, ms, l. by split_and!. }
  destruct op as [| |clk n data ct|clk n msgs ct seq|clk n msgs ct p close seq| | |]; try done;
    cbn [run_op op_name op_msgs] in *; cbn; rewrite Hsch.
  - apply Hwith; [done|]. intros e d ms a Hl Hls Hc. by eapply crash_append_section.
  - unfold file_batch_append. destruct msgs as [|m0 bs]; [by left|].
    apply Hwith; [done|]. intros e d ms a Hl Hls Hc. by eapply crash_batch_section.
  - apply Hwith; [done|]. intros e d ms a Hl Hls Hc. by eapply crash_producer_section.
Qed.

(** The persisted fields of [b] are those of [x]. *)
Definition persisted_as (x b : AStream) : Prop :=
  a_closed b = a_closed x /\ a_last_seq b = a_last_seq x /\ a_producers x ⊆ a_producers b.

(** What a restart may find of a log [a] that was being extended by [batch], [a1] being
    what the running server last showed. *)
Record recovered (a a1 b : AStream) (batch : list bytes) : Prop := mkRecovered {
  rc_config : a_config b = a_config a;
  rc_created_at : a_created_at b = a_created_at a;
  rc_before : a_msgs a `prefix_of` a_msgs a1;
  rc_kept : a_msgs a1 `prefix_of` a_msgs b;
  rc_bound : a_msgs b `prefix_of` a_msgs a ++ batch;
  rc_meta : persisted_as a b \/ persisted_as a1 b
}.

Lemma restarted_recovered a b : restarted a b -> recovered a a b [].
Proof.
  intros [H1 H2 H3 H4 H5 H6]. split; try done; rewrite ?app_nil_r, ?H2; try done. left. by split_and!.
Qed.

(** Records are determined by their encoding. *)
Lemma encode_records_inj ms msgs :
  Forall small ms -> Forall small msgs -> encode_records msgs = encode_records ms -> msgs = ms.
Proof.
  intros Hsm Hsm' Henc. destruct (records_align ms msgs [] [] Hsm' Hsm torn_nil) as (more & -> & Hmore);
    [by rewrite !app_nil_r|]. destruct more as [|b bs]; [by rewrite app_nil_r|].
  cbn in Hmore. by destruct (len_u32 b).
Qed.

(** What the running server shows of the stream after the call: what it showed before, or,
    if the whole batch is in the log, the batch as well. *)
Lemma crash_still_shown name cfg disk0 base d ms batch pre e0 l junk a1 :
  locked_ok cfg name disk0 base l a1 -> crash_log name cfg base d ms batch e0 l junk ->
  (fe_index (fl_entry l) = index_from 0 0 0 ms \/
   (pre = batch /\ fe_index (fl_entry l) = index_from 0 0 0 (ms ++ batch))) ->
  a_msgs a1 = ms \/ (pre = batch /\ a_msgs a1 = ms ++ batch).
Proof.
  intros Hl Hcl Hidx. destruct (cl_node _ _ _ _ _ _ _ _ _ Hcl) as (d' & Hn' & Hlog' & _).
  destruct (crash_shown _ _ _ _ l a1 ms batch Hl) as [?|Hall1]; [|by left|].
  { exists d', junk. split_and!; [done..|]. apply Hcl. }
  destruct Hidx as [Hidx|[-> _]]; [left|by right].
  destruct (lk_log _ _ _ _ _ _ Hl) as (d1 & log1 & Hn1 & Hl1 & _ & <-). cbn. unfold file_msgs.
  assert (log1 = encode_records ms ++ junk) as -> by congruence. rewrite Hidx.
  exact (index_from_slices 0 0 [] ms junk).
Qed.

(** The stream of the call, as a restart finds it. *)
Lemma crash_own_stream name cfg disk0 base d ms batch pre e e0 l junk a1 m m' :
  locked_ok cfg name disk0 base l a1 -> crash_log name cfg base d ms batch e0 l junk ->
  meta_matches name e m -> pre `prefix_of` batch -> m' = m \/ m' = meta_of name (fl_entry l) ->
  fm_created_at m' = fe_created_at e ->
  (fe_index (fl_entry l) = index_from 0 0 0 ms \/
   (pre = batch /\ fe_index (fl_entry l) = index_from 0 0 0 (ms ++ batch))) ->
  recovered (mkAStream (fe_config e) ms (fm_closed m) (fm_created_at m) (fe_producers e) (fm_last_seq m)) a1
    (mkAStream (fe_config e) (ms ++ pre) (fm_closed m') (fm_created_at m') (fm_producers m') (fm_last_seq m')) batch.
Proof.
  intros Hl Hcl Hmm Hpre Hm' Hcr Hidx.
  pose proof (crash_still_shown _ _ _ _ _ _ _ _ _ _ _ _ Hl Hcl Hidx) as Hshown.
  destruct (locked_bytes _ _ _ _ _ _ Hl) as (_ & _ & _ & Hcl1 & Hps1 & Hsq1 & _). split; cbn.
  - done.
  - by rewrite Hcr, (mm_created_at _ _ _ Hmm).
  - destruct Hshown as [->|[_ ->]]; [done|by apply prefix_app_r].
  - destruct Hshown as [->|[-> ->]]; [by apply prefix_app_r|done].
  - by apply prefix_app.
  - destruct Hm' as [->| ->]; [left|right]; unfold persisted_as; cbn; [|by rewrite Hcl1, Hps1, Hsq1].
    split_and!; [done..|apply Hmm].
Qed.

Lemma crash_recovered st op io now entries :
  synced st -> append_io io -> is_append op = true -> fits (file_view st) (op_name op) (op_msgs op) ->
  let st1 := fr_store (run_op op (mkRun st (fun _ => io))) in
  NoDup entries -> (forall c, c ∈ entries <-> is_Some (f_disk st1 !! c)) ->
  exists st', FileStorage_new io_ok (fun _ => io_ok) now entries (f_settings st) (f_disk st1) =
      (f_disk st', Ok st') /\ synced st' /\
    forall name, match file_view st !! name with
      | None => file_view st' !! name = None
      | Some a =>
          if is_stream_expired (now (key_of name)) (a_config a) then file_view st' !! name = None
          else exists a1 b, file_view st1 !! name = Some a1 /\ file_view st' !! name = Some b /\
            recovered a a1 b (if decide (name = op_name op) then op_msgs op else [])
      end.
Proof using L.
  intros Hs Hio Hop Hfit st1 Hnd Hall. pose proof (run_append_crash op st io Hs Hio Hop Hfit) as Hrun.
  cbv zeta in Hrun. fold st1 in Hrun. set (name := op_name op) in *.
  destruct Hrun as [Heq|(e & d & ms & l & He & Hd & Hls & Hpost & Heq)].
  - rewrite Heq in *. destruct (restart_synced st now entries Hs Hnd Hall) as (st' & Hnew & Hs' & Hv).
    exists st'. split_and!; [done..|]. intros n. specialize (Hv n).
    destruct (file_view st !! n) as [a|]; [|done]. destruct (is_stream_expired _ _); [done|].
    destruct Hv as (b & Hb & Hr). exists a, b. split_and!; [done..|].
    apply restarted_recovered in Hr as [? ? ? ? Hb2 ?]. split; try done.
    rewrite app_nil_r in Hb2. etrans; [exact Hb2|]. by apply prefix_app_r.
  - pose proof (image_of_lookup st name Hs) as Hi. rewrite He in Hi.
    destruct Hi as (d0 & msgs & m & Hd0 & Hh & Hix & Hmm & Himg & Hv0).
    assert (d0 = d) as -> by congruence.
    assert (msgs = ms) as ->.
    { destruct Hls as [_ Hlog Hsm _], Hh as (Hlog' & Hsm' & _). apply encode_records_inj; congruence. }
    rewrite Heq in Hall. cbn in Hall. rewrite Heq. cbn [f_disk].
    destruct (crash_restart st name e d ms m _ l now entries Hs He Hd Hh Hmm Himg Hpost Hnd Hall)
      as (st' & pre & m' & Hnew & Hs' & Hpre & Hm' & Hcf & Hcr & Hidx & Hview).
    exists st'. split_and!; [done..|]. destruct Hpost as (junk & a1 & Hl & Hcl).
    destruct (locked_finish st name l a1 (sy_inv _ Hs) Hl) as [_ Hv1].
    intros n. rewrite Hview. destruct (decide (n = name)) as [->|Hne].
    + rewrite lookup_insert_eq, Hv0. cbn [im_meta im_msgs a_config]. rewrite Hcf, (mm_config _ _ _ Hmm).
      destruct (is_stream_expired _ _); [done|]. exists a1. eexists.
      split; [by rewrite Hv1, lookup_insert_eq|]. split; [done|].
      by eapply crash_own_stream.
    + rewrite lookup_insert_ne by done. pose proof (image_of_lookup st n Hs) as Hin.
      destruct (f_streams st !! n) as [en|] eqn:Hen; [|by rewrite Hin, file_view_lookup, Hen].
      destruct Hin as (dn & msn & mn & _ & _ & _ & Hmn & -> & Hvn). rewrite Hvn. cbn [im_meta im_msgs a_config].
      destruct (is_stream_expired _ _); [done|]. do 2 eexists.
      split; [by rewrite Hv1, lookup_insert_ne by done|]. split; [done|].
      apply restarted_recovered. split; cbn; try done. apply Hmn.
Qed.

(** C16: a crash loses nothing that was acknowledged. After any history of calls on a
    fresh directory, let one more append (plain, batched or from a producer) be cut
    short at any point: after any number of bytes of its log write, at the sync, or
    while the metadata file is written or renamed. A restart then succeeds; every
    stream that has not expired is found with its configuration and creation time,
    with at least all messages the running server showed, and with at most a prefix
    of the batch in flight beyond the messages it had before; its closed flag,
    [Stream-Seq] and producers are those from before the call or those from after it;
    other streams are untouched. *)
Theorem crash_recovery cfg ops run op io now entries :
  0 <= max_total_bytes cfg <= ISIZE_MAX -> u64 (max_stream_bytes cfg) ->
  history (mkRun (empty_storage cfg) (fun _ => io_ok)) ops run ->
  append_io io -> is_append op = true -> fits (view run) (op_name op) (op_msgs op) ->
  let run1 := run_op op (mkRun (fr_store run) (fun _ => io)) in
  NoDup entries -> (forall c, c ∈ entries <-> is_Some (f_disk (fr_store run1) !! c)) ->
  exists st', FileStorage_new io_ok (fun _ => io_ok) now entries (f_settings (fr_store run))
                (f_disk (fr_store run1)) = (f_disk st', Ok st') /\
    backend_inv (mkRun st' (fun _ => io_ok)) /\
    forall name,
      match view run !! name with
      | None => view (mkRun st' (fun _ => io_ok)) !! name = None
      | Some a =>
          if is_stream_expired (now (key_of name)) (a_config a)
          then view (mkRun st' (fun _ => io_ok)) !! name = None
          else exists a1 b, view run1 !! name = Some a1 /\
            view (mkRun st' (fun _ => io_ok)) !! name = Some b /\
            recovered a a1 b (if decide (name = op_name op) then op_msgs op else [])
      end.
Proof using L.
  intros Hmt Hms Hh Hio Hop Hfit run1 Hnd Hall.
  pose proof (history_synced _ _ _ Hh eq_refl (empty_synced cfg Hmt Hms)) as Hs.
  destruct (crash_recovered (fr_store run) op io now entries Hs Hio Hop Hfit Hnd Hall)
    as (st' & Hnew & Hs' & Hv).
  exists st'. split; [done|]. split; [|exact Hv]. split; [apply Hs'|]. by intros n site.
Qed.
End Crash.

(** ** A run that crashes *)

(** The log write stops after [n] bytes. *)
Definition die_writing (n : nat) : Io :=
  mkIo (fun site => match site with LogWrite => true | _ => false end) n 0 (true, true, true).

(** A batch of two messages cut off in the middle of the second. *)
Definition demo_batch : StorageOp :=
  OpBatchAppend demo_clock "s" [[x62; x63]; [x64; x65]] "text/plain" None.

Lemma crash_recovery_witness :
  exists st', restart (f_disk (fr_store (run_op demo_batch (mkRun (fr_store demo_run) (fun _ => die_writing 11))))) =
    (f_disk st', Ok st') /\
  exists a1 b, view (run_op demo_batch (mkRun (fr_store demo_run) (fun _ => die_writing 11))) !! "s" = Some a1 /\
    file_view st' !! "s" = Some b /\ a_msgs a1 = [[x61]] /\
    a_msgs a1 `prefix_of` a_msgs b /\ a_msgs b `prefix_of` [[x61]; [x62; x63]; [x64; x65]].
Proof.
  pose proof (crash_recovery demo_settings demo_ops demo_run demo_batch (die_writing 11)
    (fun _ => 1000) (listing (f_disk (fr_store (run_op demo_batch (mkRun (fr_store demo_run) (fun _ => die_writing 11)))))))
    as H.
  destruct H as (st' & Hnew & _ & Hv).
  - cbn. unfold ISIZE_MAX. lia.
  - cbn. unfold u64, two64. lia.
  - exact demo_history.
  - intros []; cbn; intros Hf; try discriminate Hf. by left.
  - reflexivity.
  - fits_run.
  - apply listing_nodup.
  - apply listing_spec.
  - exists st'. split; [exact Hnew|]. specialize (Hv "s").
    change (view demo_run) with (file_view (fr_store demo_run)) in Hv.
    destruct demo_run_view as (a & Ha & Hm & Hx). rewrite Ha, Hx in Hv. destruct Hv as (a1 & b & Ha1 & Hb & [_ _ Hbefore Hkept Hbound _]).
    exists a1, b. split_and!; [done..| |done|].
    + assert (a_msgs <$> file_view (fr_store (run_op demo_batch (mkRun (fr_store demo_run) (fun _ => die_writing 11)))) !! "s" =
        Some [[x61]]) as Heq by (vm_compute; reflexivity).
      change (file_view (fr_store (run_op demo_batch (mkRun (fr_store demo_run) (fun _ => die_writing 11)))))
        with (view (run_op demo_batch (mkRun (fr_store demo_run) (fun _ => die_writing 11)))) in Heq.
      rewrite Ha1 in Heq. by injection Heq.
    + rewrite Hm in Hbound. exact Hbound.
Defined.
