(* ===== verification/FileProps.v ===== *)
(** * FileProps: theorems on the file backend

    The refinement of the abstract log under failing system calls, and the containment
    of stream directories in the storage root. *)

From S2P Require Import Prelude Errors Offsets RustStd Headers StorageCore LogSpec.
From S2P Require Import FileRecords FileStorage FileDemo FileSections FileRefinement FileLawful.
From S2P Require Import FileRecovery StorageTrace FileDurability.

(** ** Refinement *)

(** C2: every method of [FileStorage] implements the abstract log, on disk. From any
    state that satisfies the invariant, [read] returns exactly the messages of the log
    (it reads the right byte ranges of the file), [head] and [exists] what the log
    says; [delete] removes exactly that log. The three appends keep the invariant and
    answer and change the logs as their reference operations do, whatever log write,
    sync or metadata write fails and however many bytes a failed write leaves in the
    file: they report a storage error and the log is as before, or they append. The
    creating and closing methods do so when their calls on the metadata and the
    directory succeed. *)
Theorem file_refines_log {F : FileLib} {L : FileLibLaws F} st clk name :
  file_inv st ->
  let ok {A} (spec : View -> View * Result Error A) (out : FileStorage * Result Error A) :=
    file_inv out.1 /\ refined clk name spec (file_view st) (file_view out.1) out.2 in
  (forall io o, read_calls_ok io ->
     file_read_stream io clk name o st = spec_read clk name o (file_view st)) /\
  file_head clk name st = spec_head clk name (file_view st) /\
  file_exists clk name st = spec_exists clk name (file_view st) /\
  (forall io, remove_calls_ok io ->
     file_inv (file_delete io name st).1 /\
     (file_view (file_delete io name st).1, (file_delete io name st).2) =
       spec_delete name (file_view st)) /\
  (forall io, metadata_calls_ok io -> ok (spec_close clk name) (file_close_stream io clk name st)) /\
  (forall io config, create_calls_ok io ->
     ok (spec_create clk name config) (file_create_stream io clk name config st)) /\
  (forall msgs, fits (file_view st) name msgs ->
     (forall io config close, create_calls_ok io ->
        ok (spec_create_with_data clk name config msgs close)
           (file_create_stream_with_data io clk name config msgs close st)) /\
     (forall io ct seq, io_fails io StatLog = false ->
        ok (spec_batch_append clk name msgs ct seq) (file_batch_append io clk name msgs ct seq st)) /\
     (forall io ct p close seq, io_fails io StatLog = false ->
        ok (spec_append_with_producer clk name msgs ct p close seq)
           (file_append_with_producer io clk name msgs ct p close seq st)) /\
     (forall io data ct, msgs = [data] -> io_fails io StatLog = false ->
        ok (spec_append clk name data ct) (file_append io clk name data ct st))).
Proof.
  intros Hinv ok.
  assert (forall A (spec : View -> View * Result Error A) (out : FileStorage * Result Error A),
    (let '(st', r) := out in
     file_inv st' /\ refined clk name spec (file_view st) (file_view st') r) -> ok A spec out) as Hok
    by (intros A spec []; done).
  split_and!.
  - intros io o Hio. by apply file_read_spec.
  - by apply file_head_spec.
  - apply file_exists_spec.
  - intros io Hio. pose proof (file_delete_spec st io name Hinv Hio) as H.
    by destruct (file_delete io name st).
  - intros io Hio. by apply Hok, file_close_refined.
  - intros io config Hio. by apply Hok, file_create_refined.
  - intros msgs Hfit. split_and!.
    + intros io config close Hio. by apply Hok, file_create_with_data_refined.
    + intros io ct seq Hio. by apply Hok, file_batch_append_refined.
    + intros io ct p close seq Hio. by apply Hok, file_append_with_producer_refined.
    + intros io data ct -> Hio. by apply Hok, file_append_refined.
Qed.

(** The invariant holds after the two calls of [demo_ops]; a read of the log they leave
    and an append whose log write fails halfway. *)
Lemma demo_run_inv : file_inv (fr_store demo_run).
Proof.
  apply sy_inv, (history_synced _ _ _ demo_history eq_refl). apply empty_synced; cbn;
    unfold ISIZE_MAX, u64, two64; lia.
Qed.

Lemma file_refines_log_witness :
  file_inv (fr_store demo_run) /\
  file_read_stream io_ok demo_clock "s" Start (fr_store demo_run) =
    spec_read demo_clock "s" Start (file_view (fr_store demo_run)) /\
  let io := mkIo (fun site => match site with LogWrite => true | _ => false end) 3 0 (true, true, true) in
  let out := file_append io demo_clock "s" [x62; x63] "text/plain" (fr_store demo_run) in
  refined demo_clock "s" (spec_append demo_clock "s" [x62; x63] "text/plain")
    (file_view (fr_store demo_run)) (file_view out.1) out.2.
Proof.
  pose proof demo_run_inv as Hinv.
  destruct (file_refines_log (fr_store demo_run) demo_clock "s" Hinv)
    as (Hread & _ & _ & _ & _ & _ & Happ).
  split; [done|]. split; [apply Hread; repeat split|]. intros io out.
  destruct (Happ [[x62; x63]]) as (_ & _ & _ & Ha); [fits_run|].
  by destruct (Ha io [x62; x63] "text/plain" eq_refl eq_refl).
Defined.

(** ** Containment *)



Section Contained.
Context {F : FileLib} (cfg : FileSettings) (name : string) (dir : Path).
Hypothesis Hdir : stream_dir_for_name cfg name = Ok dir.





End Contained.


