(* ===== verification/FileReaders.v ===== *)
(** * FileReaders: concurrent readers of one log

    [read] holds the read lock of its stream, so any number of readers run at once.
    Each clones the file handle of the stream ([File::try_clone]), and clones share
    one file position. A reader seeks and then reads; this file lets the system calls
    of several readers of one stream interleave. *)

From S2P Require Import Prelude Errors Offsets RustStd Headers StorageCore LogSpec.
From S2P Require Import FileRecords FileStorage FileDemo FileSections FileRefinement FileLawful.
From S2P Require Import StorageTrace FileRecovery FileDurability.

(** ** Readers *)

(** Where a reader is in [read_messages]: before its seek, between seek and read, or
    with its result. *)
Inductive Reader :=
  | BeforeSeek (index_slice : list MessageIndex)
  | BeforeRead (index_slice : list MessageIndex)
  | ReadDone (index_slice : list MessageIndex) (r : Result Error (list bytes)).

(** The file: its contents, the position the clones share, and the readers. *)
Record Readers : Type := mkReaders {
  rd_log : bytes;
  rd_position : Z;
  rd_readers : list Reader
}.

(** [first_pos] and [read_len] of [read_messages]. *)
Definition read_range (index_slice : list MessageIndex) : Z * Z :=
  match index_slice with
  | [] => (0, 0)
  | first :: _ =>
      let last := List.last index_slice first in
      (ix_file_pos first,
       saturating_sub64 (add64 (ix_file_pos last) (ix_byte_len last)) (ix_file_pos first))
  end.

(** What a reader makes of the bytes its [read_exact] found. *)
Definition read_result (index_slice : list MessageIndex) (raw : bytes) : Result Error (list bytes) :=
  let '(first_pos, read_len) := read_range index_slice in
  if Z.of_nat (length raw) =? read_len then
    Ok (map (fun idx => let '(a, b) := rel_range first_pos idx in bytes_slice raw a b) index_slice)
  else Err (StorageError "failed to read message data").

(** One system call of one reader; none of them fails. A read at the end of the file
    stops there. *)
Inductive reader_step (s : Readers) : nat -> Readers -> Prop :=
  | step_empty i :
      rd_readers s !! i = Some (BeforeSeek []) ->
      reader_step s i (mkReaders (rd_log s) (rd_position s) (<[i := ReadDone [] (Ok [])]> (rd_readers s)))
  | step_seek i first rest :
      rd_readers s !! i = Some (BeforeSeek (first :: rest)) ->
      reader_step s i (mkReaders (rd_log s) (read_range (first :: rest)).1
                         (<[i := BeforeRead (first :: rest)]> (rd_readers s)))
  | step_read i slice :
      rd_readers s !! i = Some (BeforeRead slice) ->
      let raw := file_read (rd_log s) (rd_position s) (read_range slice).2 in
      reader_step s i (mkReaders (rd_log s) (rd_position s + Z.of_nat (length raw))
                         (<[i := ReadDone slice (read_result slice raw)]> (rd_readers s))).

(** An interleaving: the readers that take the steps, in order. *)
Inductive reader_steps : Readers -> list nat -> Readers -> Prop :=
  | steps_nil s : reader_steps s [] s
  | steps_cons s i s1 sched s2 :
      reader_step s i s1 -> reader_steps s1 sched s2 -> reader_steps s (i :: sched) s2.

(** ** Readers that run one after the other *)

Lemma read_result_messages log slice :
  slice <> [] ->
  read_result slice (file_read log (read_range slice).1 (read_range slice).2) =
  read_messages io_ok log slice.
Proof.
  destruct slice as [|first rest]; [done|]. intros _. cbn [read_range fst snd].
  unfold read_result, read_messages, read_exact. cbn [read_range io_fails io_ok orb].
  by destruct (Z.of_nat _ =? _).
Qed.

(** A reader undisturbed between its seek and its read gets what [read_messages]
    promises, whatever readers ran before it. *)
Lemma undisturbed_reader s i slice s' :
  rd_readers s !! i = Some (BeforeSeek slice) -> slice <> [] ->
  reader_steps s [i; i] s' ->
  rd_readers s' = <[i := ReadDone slice (read_messages io_ok (rd_log s) slice)]> (rd_readers s) /\
  rd_log s' = rd_log s.
Proof.
  intros Hi Hne Hs. inversion Hs as [|? ? s1 ? ? H1 H2]; subst.
  inversion H2 as [|? ? s2 ? ? H3 H4]; subst. inversion H4; subst.
  assert (i < length (rd_readers s))%nat as Hlt by by eapply lookup_lt_Some.
  inversion H1 as [? Hr|? first rest Hr|? slice1 Hr]; subst; rewrite Hi in Hr;
    [by injection Hr|injection Hr as ->|done].
  inversion H3 as [? Hr2|? ? ? Hr2|? slice2 Hr2]; subst; cbn in Hr2;
    rewrite list_lookup_insert_eq in Hr2 by done; try done. injection Hr2 as <-.
  cbn [rd_readers rd_log rd_position]. split; [|done]. rewrite list_insert_insert_eq.
  by rewrite <- read_result_messages.
Qed.

(** ** Readers that interleave *)

(** Two readers of the same log, the second one further along. *)
Definition race (log : bytes) (slice1 slice2 : list MessageIndex) : Readers :=
  mkReaders log 0 [BeforeSeek slice1; BeforeSeek slice2].

(** The second reader seeks, the first one seeks, the second one reads. *)
Lemma race_run log f1 r1 f2 r2 :
  exists s', reader_steps (race log (f1 :: r1) (f2 :: r2)) [1; 0; 1]%nat s' /\
    rd_readers s' !! 1%nat = Some (ReadDone (f2 :: r2)
      (read_result (f2 :: r2) (file_read log (ix_file_pos f1) (read_range (f2 :: r2)).2))).
Proof.
  eexists. split.
  - eapply steps_cons; [by eapply step_seek|]. eapply steps_cons; [by eapply step_seek|].
    eapply steps_cons; [by eapply step_read|]. apply steps_nil.
  - done.
Qed.

Lemma drop_last {A} (l : list A) x : last l = Some x -> drop (pred (length l)) l = [x].
Proof.
  intros (l' & ->)%last_Some. rewrite length_app, Nat.add_comm. cbn. by rewrite drop_app_length.
Qed.

(** An entry of a well placed index lies in the file. *)
Lemma well_placed_entry lo hi index i idx :
  well_placed lo hi index -> index !! i = Some idx ->
  lo <= ix_file_pos idx /\ 0 <= ix_byte_len idx /\ ix_file_pos idx + ix_byte_len idx <= hi.
Proof.
  revert lo i. induction index as [|x index IH]; intros lo i Hw Hi; [done|].
  destruct Hw as (H1 & H2 & H3). destruct i as [|i].
  - injection Hi as ->. apply well_placed_bounds in H3. lia.
  - specialize (IH _ _ H3 Hi). lia.
Qed.

(** A one-message range read from the position of another message of that length. *)
Lemma misplaced_read log mi ml :
  0 <= ix_file_pos mi -> ix_file_pos mi + ix_byte_len mi <= Z.of_nat (length log) ->
  0 <= ix_file_pos ml -> 0 <= ix_byte_len ml -> ix_file_pos ml + ix_byte_len ml < two64 ->
  ix_byte_len mi = ix_byte_len ml ->
  read_result [ml] (file_read log (ix_file_pos mi) (read_range [ml]).2) = Ok [slice_at log mi].
Proof.
  intros Hp Hend Hpl Hl Hmax Heq. unfold read_result. cbn [read_range List.last fst snd].
  rewrite add64_small by lia. unfold saturating_sub64.
  replace (Z.max 0 (ix_file_pos ml + ix_byte_len ml - ix_file_pos ml)) with (ix_byte_len ml) by lia.
  unfold file_read. rewrite length_take, length_drop.
  replace (Z.of_nat _ =? ix_byte_len ml) with true by (symmetry; apply Z.eqb_eq; lia).
  cbn [map]. unfold rel_range, saturating_sub64. rewrite Z.sub_diag, Z.max_id, add64_small by lia.
  unfold bytes_slice, slice_at, file_read. rewrite Z.sub_0_r, Heq, Z.add_0_l.
  change (Z.to_nat 0) with 0%nat. rewrite drop_0. by rewrite take_take, Nat.min_id.
Qed.

(** C29: concurrent readers of one stream can corrupt each other's result, because the
    cloned handles share their file position. Undisturbed between its seek and its
    read, a reader of any stream that satisfies the invariant gets exactly the
    messages from its offset on. But let one reader resume at the last message and
    another one at an earlier message of the same length, both holding the read lock:
    if the second seeks between the first one's seek and read, the first one returns
    the earlier message, with success. *)
Theorem readers_share_position {F : FileLib} {L : FileLibLaws F} st name e :
  file_inv st -> f_streams st !! name = Some e ->
  let log := log_of (f_settings st) (fe_dir e) (f_disk st) in
  let index := fe_index e in
  (forall s i from s', rd_log s = log -> drop from index <> [] ->
     rd_readers s !! i = Some (BeforeSeek (drop from index)) -> reader_steps s [i; i] s' ->
     rd_readers s' !! i = Some (ReadDone (drop from index) (Ok (drop from (file_msgs log e))))) /\
  (forall i mi ml, index !! i = Some mi -> last index = Some ml ->
     ix_byte_len mi = ix_byte_len ml ->
     exists s', reader_steps (race log (drop i index) (drop (pred (length index)) index))
                  [1; 0; 1]%nat s' /\
       rd_readers s' !! 1%nat = Some (ReadDone [ml] (Ok [slice_at log mi]))).
Proof.
  intros Hinv He log index. destruct (fi_entries _ Hinv _ _ He) as [Hon _].
  apply entry_on_log in Hon as Hok. fold log in Hok. split.
  - intros s i from s' Hlog Hne Hi Hs. destruct (undisturbed_reader s i _ s' Hi Hne Hs) as [-> _].
    assert (i < length (rd_readers s))%nat as Hlt by by eapply lookup_lt_Some.
    rewrite list_lookup_insert_eq by done. rewrite Hlog.
    unfold index. by rewrite (read_messages_drop io_ok log e from).
  - intros i mi ml Hi Hlast Hlen. rewrite (drop_last _ _ Hlast), (drop_S _ _ _ Hi).
    destruct (race_run log mi (drop (S i) index) ml []) as (s' & Hs & Hr).
    exists s'. split; [done|]. rewrite Hr. do 2 f_equal.
    pose proof (well_placed_entry _ _ _ _ _ (lo_placed _ _ Hok) Hi).
    rewrite last_lookup in Hlast. pose proof (well_placed_entry _ _ _ _ _ (lo_placed _ _ Hok) Hlast).
    pose proof (lo_max _ _ Hok). apply misplaced_read; unfold ISIZE_MAX, two64 in *; lia.
Qed.

(** ** A run *)

(** Two messages of one byte. *)
Definition race_store : FileStorage :=
  fr_store (run_op (OpAppend demo_clock "s" [x62] "text/plain")
              (mkRun (fr_store demo_run) (fun _ => io_ok))).

Lemma race_store_inv : file_inv race_store.
Proof.
  apply sy_inv, run_op_synced; [|fits_run]. apply (history_synced _ _ _ demo_history eq_refl).
  apply empty_synced; cbn; unfold ISIZE_MAX, u64, two64; lia.
Qed.

Definition race_log : bytes := [x01; x00; x00; x00; x61; x01; x00; x00; x00; x62].
Definition race_index : list MessageIndex :=
  [mkIndex (Offset_new 0 0) 4 1; mkIndex (Offset_new 1 1) 9 1].

Lemma entry_from_run (st : FileStorage) name index log :
  (fun e => (fe_index e, log_of (f_settings st) (fe_dir e) (f_disk st))) <$> f_streams st !! name =
    Some (index, log) ->
  exists e, f_streams st !! name = Some e /\ fe_index e = index /\
    log_of (f_settings st) (fe_dir e) (f_disk st) = log.
Proof. destruct (f_streams st !! name) as [e|]; [|done]. intros [= Hix Hlog]. eauto. Qed.

Lemma race_store_entry :
  exists e, f_streams race_store !! "s" = Some e /\ fe_index e = race_index /\
    log_of (f_settings race_store) (fe_dir e) (f_disk race_store) = race_log.
Proof. apply entry_from_run. vm_compute. reflexivity. Qed.

(** The reader that resumes at the second message gets the first one. *)
Lemma readers_share_position_witness :
  exists s', reader_steps (race race_log race_index (drop 1 race_index)) [1; 0; 1]%nat s' /\
    rd_readers s' !! 1%nat = Some (ReadDone (drop 1 race_index) (Ok [[x61]])).
Proof.
  destruct race_store_entry as (e & He & Hix & Hlog).
  destruct (readers_share_position race_store "s" e race_store_inv He) as [_ Hrace].
  rewrite Hlog, Hix in Hrace.
  destruct (Hrace 0%nat _ _ eq_refl eq_refl eq_refl) as (s' & Hs & Hr). exists s'. split; [exact Hs|exact Hr].
Defined.
