(* ===== verification/FileFaults.v ===== *)
(** * FileFaults: what failing system calls leave behind

    Concrete runs of the file backend in which a system call fails, and what a restart
    makes of the disk afterwards. The refinement theorem says that the running server
    never shows the effect of a failed append; these runs show where the disk, the
    counters or the reply of a method differ from it. *)

From S2P Require Import Prelude Errors Offsets RustStd Headers StorageCore LogSpec StorageTrace.
From S2P Require Import FileRecords FileStorage FileDemo FileSections FileRefinement FileLawful.
From S2P Require Import FileRecovery FileDurability FileCrash.

(** ** Runs *)

(** One failing call site; a failing removal leaves everything in place. *)
Definition fail_at (sites : list IoSite) (written : nat) : Io :=
  mkIo (fun site => existsb (fun s => match s, site with
                      | LogWrite, LogWrite | LogSync, LogSync | StatLog, StatLog
                      | MetaWrite, MetaWrite | RemoveDir, RemoveDir
                      | StatDir InLoad, StatDir InLoad => true
                      | _, _ => false end) sites) written 0 (true, true, true).

(** The stream [s] with the message [a]. *)
Definition one_message : FileStorage := fr_store demo_run.

Definition append_s (io : Io) (data : bytes) : ST FileStorage Error Offset :=
  file_append io demo_clock "s" data "text/plain".

(** What a reader of [s] sees after a restart. *)
Definition after_restart {A} (f : FileStorage -> Result Error A) (st : FileStorage) : Result Error A :=
  let '(_, r) := restart (f_disk st) in let? st' := r in f st'.

Definition closed_flag (st : FileStorage) : Result Error bool :=
  let? h := file_head demo_clock "s" st in Ok (sm_closed h).
Definition notifications (st : FileStorage) : option Z := fe_notify <$> f_streams st !! "s".
Definition resp {S E A} (out : S * Result E A) : Result E A := out.2.

(** ** Appends *)

(** A failed sync is reported as a failed append and hidden, but the record is in the
    log: after a restart the rejected message is there. *)
Theorem failed_sync_reappears :
  let failed := append_s (fail_at [LogSync] 0) [x62] one_message in
  is_ok failed.2 = false /\ read_all "s" failed.1 = Ok [[x61]] /\
  after_restart (read_all "s") failed.1 = Ok [[x61]; [x62]].
Proof. vm_compute. auto. Qed.

(** A batch is all or nothing for the running server; after a crash in the middle of
    its log write, part of it is there. *)
Theorem batch_splits_on_crash :
  let failed := file_batch_append (die_writing 11) demo_clock "s" [[x62; x63]; [x64; x65]]
                  "text/plain" None one_message in
  is_ok failed.2 = false /\ read_all "s" failed.1 = Ok [[x61]] /\
  after_restart (read_all "s") failed.1 = Ok [[x61]; [x62; x63]].
Proof. vm_compute. auto. Qed.

(** When the length of the file cannot be determined after a failed write, the length
    the index is built from is stale: the next append is acknowledged, and readers get
    the wrong bytes. *)
Theorem stale_length_misplaces_reads :
  let failed := append_s (fail_at [LogWrite; StatLog] 2) [x62; x63] one_message in
  let acked := append_s io_ok [x64; x65] failed.1 in
  is_ok acked.2 = true /\ read_all "s" acked.1 = Ok [[x61]; [x00; x00]].
Proof. vm_compute. auto. Qed.

(** ** Producers *)

Definition produce (io : Io) (msgs : list bytes) (close : bool)
  : ST FileStorage Error ProducerAppendResult :=
  file_append_with_producer io demo_clock "s" msgs "text/plain" (mkProducerHeaders "p" 0 0) close None.

Definition accepted {A} (out : A * Result Error ProducerAppendResult) : bool :=
  match out.2 with Ok (Accepted _ _ _ _) => true | _ => false end.
Definition duplicate {A} (out : A * Result Error ProducerAppendResult) : bool :=
  match out.2 with Ok (Duplicate _ _ _ _) => true | _ => false end.

(** A producer append is acknowledged even when its metadata could not be written. A
    retry is recognized while the server runs; after a restart the same request is
    accepted again and the message is in the stream twice. *)
Theorem unsaved_producer_accepts_twice :
  let first := produce (fail_at [MetaWrite] 0) [[x62]] false one_message in
  accepted first = true /\ duplicate (produce io_ok [[x62]] false first.1) = true /\
  after_restart (fun st => let again := produce io_ok [[x62]] false st in
                           let? msgs := read_all "s" again.1 in Ok (accepted again, msgs)) first.1 =
    Ok (true, [[x61]; [x62]; [x62]]).
Proof. vm_compute. auto. Qed.

(** A producer request that only closes the stream wakes nobody. *)
Theorem file_producer_close_silent :
  let out := produce io_ok [] true one_message in
  accepted out = true /\ closed_flag out.1 = Ok true /\
  notifications out.1 = notifications one_message.
Proof. vm_compute. auto. Qed.

(** ** Closing, deleting and creating *)

(** When the metadata cannot be written, [close_stream] reports an error with the
    stream closed, without notifying anyone; after a restart it is open. *)
Theorem failed_close_closes :
  let out := file_close_stream (fail_at [MetaWrite] 0) demo_clock "s" one_message in
  is_ok out.2 = false /\ closed_flag out.1 = Ok true /\
  notifications out.1 = notifications one_message /\ after_restart closed_flag out.1 = Ok false.
Proof. vm_compute. auto. Qed.

(** When its directory cannot be removed, [delete] reports an error with the stream
    gone; a second [delete] says it does not exist; after a restart it is back. *)
Theorem failed_delete_returns :
  let out := file_delete (fail_at [RemoveDir] 0) "s" one_message in
  is_ok out.2 = false /\ file_exists demo_clock "s" out.1 = false /\
  resp (file_delete io_ok "s" out.1) = Err (NotFound "s") /\
  after_restart (read_all "s") out.1 = Ok [[x61]].
Proof. vm_compute. auto. Qed.

(** When its metadata cannot be written, [create_stream_with_data] reports an error but
    keeps the bytes of the stream that does not exist in the global counter. A retry
    appends to the same log, so after a restart the data is there twice. *)
Theorem failed_create_leaks_bytes :
  let create io := file_create_stream_with_data io demo_clock "s" demo_config [[x61; x62]] false in
  let failed := create (fail_at [MetaWrite] 0) demo_empty in
  let retried := create io_ok failed.1 in
  is_ok failed.2 = false /\ file_exists demo_clock "s" failed.1 = false /\
  f_total_bytes failed.1 = 2 /\
  is_ok retried.2 = true /\ f_total_bytes retried.1 = 4 /\
  read_all "s" retried.1 = Ok [[x61; x62]] /\
  after_restart (read_all "s") retried.1 = Ok [[x61; x62]; [x61; x62]].
Proof. vm_compute. auto 10. Qed.

(** ** Starting up *)

(** A stream whose directory cannot be inspected is skipped without an error: the
    server starts without it. *)
Theorem load_skips_silently :
  let '(_, r) := FileStorage_new io_ok (fun _ => fail_at [StatDir InLoad] 0) (fun _ => 1000)
                   (listing (f_disk one_message)) demo_settings (f_disk one_message) in
  match r with Ok st => file_exists demo_clock "s" st = false | Err _ => False end.
Proof. vm_compute. auto. Qed.

(** One metadata file that does not parse keeps the server from starting, whatever
    other streams there are. *)
Theorem corrupt_metadata_stops_start :
  let disk := <["7a" := NDir (mkDir (Some []) (Some []) None 0)]> (f_disk one_message) in
  resp (restart disk) = Err (StorageError "failed to parse stream metadata").
Proof. vm_compute. auto. Qed.
