(* ===== verification/FileOvertaken.v ===== *)
(** * FileOvertaken: a close that a delete and a create overtake

    [close_stream] of [storage/file.rs] gets the handle of a stream from the map, lets go of
    the map, and only then locks the entry. Other calls may run in between; if they delete
    the stream and create it anew, the handle leads to an entry that is no longer in the
    map, while the directory its metadata is written to, by path, is that of the new
    stream. *)

From S2P Require Import Prelude Errors Offsets RustStd Headers StorageCore LogSpec StorageTrace.
From S2P Require Import FileRecords FileStorage FileDemo FileSections FileRefinement FileLawful.
From S2P Require Import FileRecovery FileDurability.

Section Overtaken.
Context {F : FileLib} {L : FileLibLaws F}.

(** A critical section on the entry behind a handle that is no longer in the map: what it
    does to the entry is lost, what it does to the counter and the disk is not. *)
Definition with_stale_handle {A} (entry : FileEntry) (section : FileSettings -> ST FLocked Error A)
  : ST FileStorage Error A :=
  fun st =>
    let '(l, r) := section (f_settings st) (mkFLocked (f_total_bytes st) entry (f_disk st)) in
    (mkFile (f_settings st) (f_streams st) (fl_total l) (fl_disk l), r).

(** [close_stream] from [stream_arc.write()] on, with the handle of [entry]. *)
Definition close_stale (io : Io) (clk : Clock) (name : string) (entry : FileEntry)
  : ST FileStorage Error unit :=
  with_stale_handle entry (fun cfg => file_close_locked cfg io clk name).

(** ** The settings of a storage never change *)

Definition keeps_settings {A} (m : ST FileStorage Error A) : Prop :=
  forall st, f_settings (m st).1 = f_settings st.

Lemma keeps_bind {A B} (m : ST FileStorage Error A) (k : A -> ST FileStorage Error B) :
  keeps_settings m -> (forall a, keeps_settings (k a)) -> keeps_settings (st_bind m k).
Proof using.
  intros Hm Hk st. unfold st_bind. specialize (Hm st). destruct (m st) as [st' [a|e]]; cbn in *; [|done].
  by rewrite Hk.
Qed.
Lemma keeps_pure {A} (f : FileStorage -> Result Error A) : keeps_settings (fun st => (st, f st)).
Proof using. done. Qed.
Lemma keeps_on_disk {A} (c : FileSettings -> ST Disk Error A) : keeps_settings (on_disk c).
Proof using. intros st. unfold on_disk. by destruct (c _ _). Qed.
Lemma keeps_with_stream {A} name (section : FileSettings -> ST FLocked Error A) :
  keeps_settings (with_file_stream name section).
Proof using. intros st. unfold with_file_stream. destruct (_ !! _); [|done]. by destruct (section _ _). Qed.
Lemma keeps_remove io name e : keeps_settings (remove_stream io name e).
Proof using. intros st. unfold remove_stream. by destruct (remove_stream_dir _ _ _ _). Qed.
Lemma keeps_persist io name e : keeps_settings (persist_and_insert io name e).
Proof using. apply keeps_bind; [apply keeps_on_disk|by intros ? st]. Qed.
Lemma keeps_open io clk name config : keeps_settings (open_new_entry io clk name config).
Proof using.
  apply keeps_bind; [apply keeps_pure|]. intros dir. repeat (apply keeps_bind; [apply keeps_on_disk||apply keeps_pure|intros ?]).
  apply keeps_pure.
Qed.
Lemma keeps_append_new io e msgs : keeps_settings (append_to_new io e msgs).
Proof using. intros st. unfold append_to_new. by destruct (append_records _ _ _ _). Qed.
Create HintDb settings.
#[local] Hint Resolve keeps_bind keeps_pure keeps_on_disk keeps_with_stream keeps_remove keeps_persist keeps_open
  keeps_append_new : settings.

Lemma keeps_create_new io clk name config : keeps_settings (create_new io clk name config).
Proof using. unfold create_new, st_ret. auto with settings. Qed.
Lemma keeps_create_new_with_data io clk name config msgs close :
  keeps_settings (create_new_with_data io clk name config msgs close).
Proof using.
  unfold create_new_with_data, st_ret. apply keeps_bind; [auto with settings|]. intros e.
  apply keeps_bind; [by destruct msgs; auto with settings|auto with settings].
Qed.

Lemma run_op_settings op run : f_settings (fr_store (run_op op run)) = f_settings (fr_store run).
Proof using.
  assert (forall A (m : Io -> ST FileStorage Error A), (forall io, keeps_settings (m io)) ->
    f_settings (fr_store (scheduled m run).1) = f_settings (fr_store run)) as Hsch.
  { intros A m Hm. unfold scheduled. specialize (Hm (fr_io run 0%nat) (fr_store run)). by destruct (m _ _). }
  destruct op as [clk n config|clk n config msgs close|clk n data ct|clk n msgs ct seq
    |clk n msgs ct p close seq|clk n|n|clk n]; cbn [run_op Storage.create_stream Storage.create_stream_with_data
    Storage.append Storage.batch_append Storage.append_with_producer Storage.close_stream Storage.delete
    Storage.subscribe file_storage]; [..|done]; apply Hsch; intros io st.
  - unfold file_create_stream. destruct (_ !! _) as [e|]; [|apply keeps_create_new].
    destruct (is_stream_expired _ _); [|by destruct (config_eq _ _)].
    apply keeps_bind; [apply keeps_remove|intros _; apply keeps_create_new].
  - unfold file_create_stream_with_data. destruct (_ !! _) as [e|]; [|apply keeps_create_new_with_data].
    destruct (is_stream_expired _ _); [|by destruct (config_eq _ _)].
    apply keeps_bind; [apply keeps_remove|intros _; apply keeps_create_new_with_data].
  - apply keeps_with_stream.
  - unfold file_batch_append. destruct msgs; [done|apply keeps_with_stream].
  - apply keeps_with_stream.
  - apply keeps_with_stream.
  - unfold file_delete. destruct (_ !! _); [apply keeps_remove|done].
Qed.

Lemma history_settings run ops run' :
  history run ops run' -> f_settings (fr_store run') = f_settings (fr_store run).
Proof using. induction 1 as [|s op ops s' _ _ _ IH]; [done|]. by rewrite IH, run_op_settings. Qed.

Lemma history_io run ops run' :
  history run ops run' -> fr_io run = (fun _ => io_ok) -> fr_io run' = (fun _ => io_ok).
Proof using.
  induction 1 as [|[st io] op ops s' _ _ _ IH]; intros Hio; [done|]. apply IH. cbn in Hio. subst io.
  by destruct (run_op_io op st (fun _ => io_ok)) as [k ->].
Qed.

(** ** The close *)

(** What the close writes: the metadata of the old entry, closed. *)
Definition stale_meta (name : string) (e : FileEntry) : StreamMeta :=
  mkMeta name (fe_config e) true (fe_created_at e) (fe_last_seq e) (fe_producers e).

Lemma close_stale_run clk name e st d :
  fe_dir e = root_dir (f_settings st) ++ [key_of name] ->
  f_disk st !! key_of name = Some (NDir d) -> is_stream_expired (clk 0%nat) (fe_config e) = false ->
  exists p, meta_from_slice p = Some (stale_meta name e) /\
    close_stale io_ok clk name e st =
    (set_disk st (<[key_of name := NDir (mkDir (d_log d) (Some p) None (d_durable d))]> (f_disk st)), Ok tt).
Proof using L.
  intros Hdir Hd Hx. destruct (meta_serializes (stale_meta name e)) as [p Hp]. exists p.
  split; [by apply meta_roundtrip|].
  unfold close_stale, with_stale_handle, file_close_locked, fl_write_metadata, throw_if, st_bind, fl_get, fl_modify,
    fl_on_disk, write_metadata_for. cbn [fl_entry fl_disk fl_total]. rewrite Hx.
  cbn [fe_set_closed fe_dir fl_entry fl_disk fl_total fe_config fe_closed fe_created_at fe_last_seq fe_producers io_fails io_ok].
  rewrite Hdir, (validate_child (f_settings st) _ io_ok InMeta d) by done. fold (stale_meta name e). rewrite Hp.
  by rewrite (lookup_dir_child (f_settings st) _ d), update_dir_child by done.
Qed.

(** The disk then is one where the new stream has the metadata of the old one. *)
Lemma stale_image st name d msgs p m :
  synced st -> is_Some (f_streams st !! name) -> f_disk st !! key_of name = Some (NDir d) ->
  d_log d = Some (encode_records msgs) -> Forall small msgs -> fm_name m = name -> meta_from_slice p = Some m ->
  disk_image (<[key_of name := NDir (mkDir (d_log d) (Some p) None (d_durable d))]> (f_disk st))
    (<[name := mkImage msgs [] m]> (image_of st)).
Proof using L.
  intros Hs [e' He'] Hd Hlog Hsm Hnm Hp. pose proof (synced_image st Hs) as [Hstr Hoth]. split.
  - intros n x [[<- <-]|[Hne Hx]]%lookup_insert_Some.
    + eexists. rewrite lookup_insert_eq. split; [done|]. unfold dir_image; cbn. rewrite app_nil_r.
      split_and!; try done; [apply torn_nil|by eapply synced_log_bound|eauto].
    + destruct (Hstr n x Hx) as (dn & Hn & Hi). exists dn. split; [|done].
      rewrite lookup_insert_ne; [done|]. by intros Hk%key_of_inj.
  - intros c dc [[<- [= <-]]|[Hne Hc]]%lookup_insert_Some.
    + left. exists name, (mkImage msgs [] m). by rewrite lookup_insert_eq.
    + destruct (Hoth c dc Hc) as [(n & x & Hx & ->)|?]; [|by right]. left. exists n, x.
      rewrite lookup_insert_ne; [done|]. by intros ->.
Qed.

(** The running server does not read the metadata. *)
Lemma metadata_view st name d p :
  file_inv st -> f_disk st !! key_of name = Some (NDir d) ->
  file_view (set_disk st (<[key_of name := NDir (mkDir (d_log d) (Some p) None (d_durable d))]> (f_disk st))) = file_view st.
Proof using L.
  intros Hinv Hd. apply map_eq. intros n. rewrite !file_view_lookup. cbn [set_disk f_streams f_settings f_disk].
  destruct (f_streams st !! n) as [e|] eqn:He; [|done]. cbn. do 2 f_equal.
  destruct (fi_entries _ Hinv _ _ He) as [(Hdir & dn & log & Hn & Hl & _) _]. rewrite Hdir, (log_of_child _ _ dn log (f_disk st)) by done.
  destruct (decide (n = name)) as [->|Hne].
  - rewrite Hn in Hd. simplify_eq. by apply (log_of_child _ _ (mkDir (d_log d) (Some p) None (d_durable d))); [apply lookup_insert_eq|].
  - apply (log_of_child _ _ dn); [|done]. rewrite lookup_insert_ne; [done|]. by intros Hk%key_of_inj.
Qed.

Lemma close_stale_restart st name e a clk now entries :
  synced st -> fe_dir e = root_dir (f_settings st) ++ [key_of name] -> file_view st !! name = Some a ->
  is_stream_expired (clk 0%nat) (fe_config e) = false ->
  is_stream_expired (now (key_of name)) (fe_config e) = false ->
  NoDup entries -> (forall c, c ∈ entries <-> is_Some (f_disk st !! c)) ->
  let out := close_stale io_ok clk name e st in
  out.2 = Ok tt /\ file_view out.1 = file_view st /\
  exists st', FileStorage_new io_ok (fun _ => io_ok) now entries (f_settings st) (f_disk out.1) = (f_disk st', Ok st') /\
    file_view st' !! name =
    Some (mkAStream (fe_config e) (a_msgs a) true (fe_created_at e) (fe_producers e) (fe_last_seq e)).
Proof using L.
  intros Hs Hdir Ha Hx Hnow Hnd Hall out. pose proof (image_of_lookup st name Hs) as Hi.
  destruct (f_streams st !! name) as [e'|] eqn:He'; [|by rewrite file_view_lookup, He' in Ha].
  destruct Hi as (d & msgs & m & Hd & (Hlog & Hsm & _) & _ & _ & Himg & Hv). rewrite Hv in Ha.
  injection Ha as <-. cbn [a_msgs].
  destruct (close_stale_run clk name e st d Hdir Hd Hx) as (p & Hp & Hout). unfold out. rewrite Hout. cbn [fst snd].
  pose proof (sy_inv _ Hs) as Hinv. split; [done|]. split; [by apply metadata_view|]. cbn [set_disk f_disk].
  assert (disk_image (<[key_of name := NDir (mkDir (d_log d) (Some p) None (d_durable d))]> (f_disk st))
            (<[name := mkImage msgs [] (stale_meta name e)]> (image_of st))) as Hdi by by apply stale_image.
  assert (map_sum (fun x => payload (im_msgs x)) (<[name := mkImage msgs [] (stale_meta name e)]> (image_of st))
            <= ISIZE_MAX) as Hsum.
  { rewrite (map_sum_update _ _ _ (mkImage msgs [] m)) by done. cbn. pose proof (synced_sum st Hs).
    pose proof (fi_limit _ Hinv). destruct (fi_max_total _ Hinv). lia. }
  destruct (load_image (f_settings st) _ _ now Hdi Hsum entries Hnd) as (st' & Hnew & Hcfg & Hstr & _ & Hafter).
  { intros c. rewrite Hall. destruct (decide (c = key_of name)) as [->|Hne].
    - rewrite lookup_insert_eq, Hd. split; by eexists.
    - by rewrite lookup_insert_ne. }
  exists st'. split; [done|]. rewrite (load_view _ _ _ now Hdi st' Hcfg Hstr Hafter), lookup_insert_eq. cbn. by rewrite Hnow.
Qed.

(** ** The theorem *)

(** C30: a close that a delete and a create overtake spoils the new stream at the next
    restart. After any calls, let a stream be deleted whose handle a [close_stream] has
    already obtained; let any calls follow, so that there is a stream of that name again,
    and then the close lock the old entry. The close reports success and changes nothing
    any caller of the running server sees. But it has replaced the metadata of the new
    stream by those of the old one: after a restart the messages of the new stream are in a
    closed stream with the configuration, creation time, producers and [Stream-Seq] of the
    deleted one. *)
Theorem overtaken_close_spoils_restart cfg ops0 run0 name e ops1 run1 a clk now entries :
  0 <= max_total_bytes cfg <= ISIZE_MAX -> u64 (max_stream_bytes cfg) ->
  history (mkRun (empty_storage cfg) (fun _ => io_ok)) ops0 run0 ->
  f_streams (fr_store run0) !! name = Some e ->
  history run0 (OpDelete name :: ops1) run1 ->
  view run1 !! name = Some a ->
  is_stream_expired (clk 0%nat) (fe_config e) = false ->
  is_stream_expired (now (key_of name)) (fe_config e) = false ->
  let st := fr_store run1 in
  NoDup entries -> (forall c, c ∈ entries <-> is_Some (f_disk st !! c)) ->
  let out := close_stale io_ok clk name e st in
  out.2 = Ok tt /\ file_view out.1 = file_view st /\
  exists st', FileStorage_new io_ok (fun _ => io_ok) now entries cfg (f_disk out.1) = (f_disk st', Ok st') /\
    file_view st' !! name =
    Some (mkAStream (fe_config e) (a_msgs a) true (fe_created_at e) (fe_producers e) (fe_last_seq e)).
Proof using L.
  intros Hmt Hms Hh0 He Hh1 Ha Hx Hnow st Hnd Hall.
  pose proof (history_synced _ _ _ Hh0 eq_refl (empty_synced cfg Hmt Hms)) as Hs0.
  pose proof (history_settings _ _ _ Hh0) as Hc0. pose proof (history_settings _ _ _ Hh1) as Hc1. cbn in Hc0.
  assert (fr_io run0 = (fun _ => io_ok)) as Hio by by eapply history_io.
  pose proof (history_synced _ _ _ Hh1 Hio Hs0) as Hs1.
  destruct (fi_entries _ (sy_inv _ Hs0) _ _ He) as [(Hdir & _) _].
  assert (f_settings st = cfg) as Hcfg by (unfold st; congruence).
  rewrite <- Hcfg. apply close_stale_restart; try done. by rewrite Hcfg, Hdir, Hc0.
Qed.
End Overtaken.

(** ** A run *)

(** A text stream is deleted and created anew as a JSON stream with one message, while a
    close of the text stream is on its way. *)
Definition json_config : StreamConfig := StreamConfig_new "application/json".
Definition text_run : FileRun :=
  run_op (OpCreate demo_clock "s" demo_config) (mkRun (empty_storage demo_settings) (fun _ => io_ok)).
Definition json_ops : list StorageOp :=
  [OpCreate demo_clock "s" json_config; OpAppend demo_clock "s" [x31] "application/json"].
Definition json_run : FileRun := fold_left (fun r op => run_op op r) (OpDelete "s" :: json_ops) text_run.

Lemma text_history :
  history (mkRun (empty_storage demo_settings) (fun _ => io_ok)) [OpCreate demo_clock "s" demo_config] text_run.
Proof. apply history_cons; [fits_run|done|]. apply history_nil. Qed.

Lemma json_history : history text_run (OpDelete "s" :: json_ops) json_run.
Proof. repeat (apply history_cons; [fits_run|done|]). apply history_nil. Qed.

(** Closed or not, content type and messages of a stream. *)
Definition stream_of (st : FileStorage) (name : string) : option (bool * string * list bytes) :=
  (fun a => (a_closed a, content_type (a_config a), a_msgs a)) <$> file_view st !! name.

Lemma text_entry_found :
  exists e, f_streams (fr_store text_run) !! "s" = Some e /\ fe_config e = demo_config.
Proof.
  assert (fe_config <$> f_streams (fr_store text_run) !! "s" = Some demo_config) as H by (vm_compute; reflexivity).
  apply fmap_Some in H as (e & He & Hc). exists e. by split.
Qed.

Lemma json_stream_found : exists a, file_view (fr_store json_run) !! "s" = Some a /\ a_msgs a = [[x31]].
Proof.
  assert (a_msgs <$> file_view (fr_store json_run) !! "s" = Some [[x31]]) as H by (vm_compute; reflexivity).
  apply fmap_Some in H as (a & Ha & Hm). exists a. by split.
Qed.

Lemma overtaken_close_spoils_restart_witness :
  exists e st', f_streams (fr_store text_run) !! "s" = Some e /\
    let out := close_stale io_ok demo_clock "s" e (fr_store json_run) in
    out.2 = Ok tt /\ stream_of out.1 "s" = Some (false, "application/json", [[x31]]) /\
    (FileStorage_new io_ok (fun _ => io_ok) (fun _ => 1000) (listing (f_disk (fr_store json_run))) demo_settings
       (f_disk out.1)).2 = Ok st' /\
    stream_of st' "s" = Some (true, "text/plain", [[x31]]).
Proof.
  destruct text_entry_found as (e & He & Hcfg). destruct json_stream_found as (a & Ha & Hm).
  destruct (overtaken_close_spoils_restart demo_settings [OpCreate demo_clock "s" demo_config] text_run "s" e json_ops json_run a demo_clock
    (fun _ => 1000) (listing (f_disk (fr_store json_run)))) as (Hr & Hv & st' & Hnew & Hst').
  - cbn. unfold ISIZE_MAX. lia.
  - cbn. unfold u64, two64. lia.
  - exact text_history.
  - exact He.
  - exact json_history.
  - exact Ha.
  - rewrite Hcfg. vm_compute; reflexivity.
  - rewrite Hcfg. vm_compute; reflexivity.
  - apply listing_nodup.
  - apply listing_spec.
  - exists e, st'. split; [exact He|]. cbn zeta. split; [exact Hr|]. split; [|split].
    + unfold stream_of. rewrite Hv. vm_compute; reflexivity.
    + by rewrite Hnew.
    + unfold stream_of. rewrite Hst', Hcfg. cbn. by rewrite Hm.
Defined.
