(* ===== verification/FileTorn.v ===== *)
(** * FileTorn: what a log write that failed halfway costs

    A failed log write leaves its first bytes in the file. The running server steps over
    them, since it appends at the length it has read back; the scan of a restart does not. *)

From S2P Require Import Prelude Errors Offsets RustStd Headers StorageCore LogSpec StorageTrace.
From S2P Require Import FileRecords FileStorage FileDemo FileSections FileRefinement FileLawful.
From S2P Require Import FileRecovery FileDurability FileCrash FileOvertaken FileFaults.

#[local] Arguments append_records : simpl never.

Definition write_failed : Error := StorageError "failed to append stream log".

(** The bytes a write that stops after [n] leaves of a record. *)
Definition torn_piece (n : nat) (m : bytes) : bytes := take n (encode_records [m]).

(** What is left of a record and the records after it are torn, if they are shorter than
    the record was to be. *)
Lemma torn_piece_torn n m later :
  small m -> (4 <= n)%nat -> (n + length (encode_records later) < length (encode_records [m]))%nat ->
  torn (torn_piece n m ++ encode_records later).
Proof.
  intros Hm Hn Hlt. right. unfold torn_piece. cbn [encode_records] in *. rewrite app_nil_r in *.
  rewrite length_app, u32_to_le_length in Hlt. set (rec := u32_to_le (len_u32 m) ++ m) in *.
  assert (length rec = (4 + length m)%nat) as Hrec by (unfold rec; by rewrite length_app, u32_to_le_length).
  assert (take 4 (take n rec ++ encode_records later) = u32_to_le (len_u32 m)) as ->.
  { rewrite take_app_le by (rewrite length_take; lia). rewrite take_take, Nat.min_l by done.
    unfold rec. by apply take_app_length'. }
  rewrite len_u32_small, length_app, length_take, u32_roundtrip by (done || unfold small in Hm; lia).
  unfold RECORD_HEADER_BYTES. lia.
Qed.

Section Torn.
Context {F : FileLib} {L : FileLibLaws F}.
Context (cfg : FileSettings) (name : string) (disk0 : Disk) (base : Z).

(** The append whose write failed. *)
Lemma failed_write_run n l l' a d log m clk ct :
  locked_ok cfg name disk0 base l a -> fl_disk l !! key_of name = Some (NDir d) -> d_log d = Some log ->
  payload [m] <= ISIZE_MAX ->
  file_append_locked cfg (die_writing n) clk m ct l = (l', Err write_failed) ->
  small m /\ exists k, l' = after_failure name l d log (torn_piece k m) /\
    Z.of_nat (length (log ++ torn_piece k m)) <= ISIZE_MAX /\ (k <= n)%nat /\ (k = n \/ ISIZE_MAX - Z.of_nat (length log) = Z.of_nat k).
Proof.
  intros Hl Hn Hlog Hp. pose proof Hl as [Hd (d0 & log0 & Hn0 & Hl0 & Hok & _) _ Hbase Ht Hmt Hg Hs].
  assert (d0 = d) as -> by congruence. assert (log0 = log) as -> by congruence. clear Hn0 Hl0.
  pose proof (locked_bytes _ _ _ _ _ _ Hl) as (Hb & _). pose proof (payload_nonneg [m]) as Hp0.
  unfold file_append_locked, st_bind at 1, fl_get. cbn zeta.
  unfold st_bind at 1, throw_if. destruct (is_stream_expired _ _); [done|].
  unfold st_bind at 1. destruct (fe_closed _); [done|].
  unfold st_bind at 1, st_lift. destruct (validate_content_type _ _) as [[]|err] eqn:Hct.
  2:{ revert Hct. unfold validate_content_type. by destruct (negb _); intros [= <-]. }
  cbn zeta. unfold st_bind at 1. destruct (append_records cfg (die_writing n) [m] l) as [l1 r] eqn:Hrun.
  unfold append_records in Hrun. unfold st_bind at 1, st_lift in Hrun.
  rewrite batch_sizes_spec in Hrun by (unfold ISIZE_MAX, two64 in *; lia).
  destruct (decide (Forall small [m])) as [Hsm|Hsm]; [|by injection Hrun as <- <-].
  cbn [fst snd app] in Hrun. rewrite Z.add_0_l in Hrun. unfold st_bind at 1, check_and_reserve in Hrun.
  rewrite !add64_small in Hrun by (unfold ISIZE_MAX, two64 in *; lia).
  destruct (_ <? _) in Hrun; [by injection Hrun as <- <-|].
  destruct (_ <? _) in Hrun; [by injection Hrun as <- <-|].
  unfold st_bind at 1, fl_get in Hrun; cbn [fl_entry] in Hrun. unfold st_bind at 1 in Hrun.
  destruct (write_all_spec cfg (die_writing n) name (fl_total l + payload [m]) (fl_entry l) (fl_disk l) d log
              (encode_records [m]) Hd Hn Hlog (lo_max _ _ Hok)) as (ok & junk & Hw & Hmax & _ & _ & _ & Hjunk).
  assert (ok = false) as ->.
  { revert Hw. unfold write_all. cbn [io_fails die_writing orb negb]. by intros [= _ <-]. }
  rewrite Hw in Hrun. cbn [negb] in Hrun. rewrite failed_append_run in Hrun by (done || lia).
  injection Hrun as <- <-. intros [= <-]. split; [by inversion Hsm|]. cbn [io_log_written die_writing] in Hjunk.
  set (room := ISIZE_MAX - Z.of_nat (length log)) in *. exists (Z.to_nat (Z.min (Z.of_nat n) room)).
  rewrite Hjunk in Hmax |- * by done. split; [done|]. split; [done|]. pose proof (lo_max _ _ Hok). unfold room. split; lia.
Qed.

(** An append that was acknowledged. *)
Lemma acknowledged_run l l' a d log m clk ct off :
  locked_ok cfg name disk0 base l a -> fl_disk l !! key_of name = Some (NDir d) -> d_log d = Some log ->
  payload [m] <= ISIZE_MAX -> Z.of_nat (length (a_msgs a) + length [m]) < two64 ->
  file_append_locked cfg io_ok clk m ct l = (l', Ok off) ->
  l' = after_append cfg name l d log [m] /\
  Z.of_nat (length (log ++ encode_records [m])) <= ISIZE_MAX /\ locked_ok cfg name disk0 base l' (log_append a [m] None).
Proof.
  intros Hl Hn Hlog Hp Hc. unfold file_append_locked, st_bind, fl_get, throw_if, st_lift.
  destruct (is_stream_expired _ _); [done|]. destruct (fe_closed _); [done|].
  destruct (validate_content_type _ _) as [[]|err]; [|done]. cbn zeta.
  destruct (append_records_run cfg io_ok name disk0 base l a d log [m] Hl Hn Hlog eq_refl ltac:(done) Hp Hc)
    as [(err & junk & -> & _)|(-> & _ & Hmax & Hg & Hs)]; [done|].
  intros [= <- _]. split_and!; [done|done|]. by apply locked_after_append.
Qed.
End Torn.

(** ** The disk afterwards *)

Section Lost.
Context {F : FileLib} {L : FileLibLaws F}.

(** The disk of a synced storage on which the log of one stream has got a torn end. *)
Lemma torn_image st name e d d2 msgs m0 rest disk2 :
  synced st -> f_streams st !! name = Some e -> dir_holds d msgs m0 -> meta_matches name e m0 ->
  disk2 !! key_of name = Some (NDir d2) -> d_meta d2 = d_meta d -> d_log d2 = Some (encode_records msgs ++ rest) ->
  Z.of_nat (length (encode_records msgs ++ rest)) <= ISIZE_MAX -> torn rest ->
  (forall c, c <> key_of name -> disk2 !! c = f_disk st !! c) ->
  disk_image disk2 (<[name := mkImage msgs rest m0]> (image_of st)).
Proof using L.
  intros Hs He (_ & Hsm & p & Hp & Hdec) Hmm Hd2 Hmeta Hlog Hmax Htorn Hfr.
  pose proof (synced_image st Hs) as Himg. split.
  - intros n x. destruct (decide (name = n)) as [<-|Hne].
    + rewrite lookup_insert_eq. intros [= <-]. exists d2. split; [done|]. unfold dir_image; cbn.
      split_and!; try done; [apply Hmm|]. exists p. by rewrite Hmeta.
    + rewrite lookup_insert_ne by done. intros Hx. rewrite Hfr by (by intros ->%key_of_inj).
      by apply (di_streams _ _ Himg).
  - intros c d1 Hc. destruct (decide (c = key_of name)) as [->|Hne].
    + left. eexists name, _. by rewrite lookup_insert_eq.
    + rewrite Hfr in Hc by done. destruct (di_others _ _ Himg c d1 Hc) as [(n & x & Hx & ->)|?]; [left|by right].
      exists n, x. rewrite lookup_insert_ne by congruence. done.
Qed.

(** A failed and an acknowledged append to a synced storage, by what they do to the
    section of the stream. *)
Lemma failed_then_acknowledged st name e d msgs a n m m' clk clk' ct ct' st1 st2 off :
  synced st -> f_streams st !! name = Some e -> f_disk st !! key_of name = Some (NDir d) ->
  d_log d = Some (encode_records msgs) -> file_view st !! name = Some a ->
  payload [m] <= ISIZE_MAX -> payload [m'] <= ISIZE_MAX -> Z.of_nat (length (a_msgs a) + 1) < two64 ->
  file_append (die_writing n) clk name m ct st = (st1, Err write_failed) ->
  file_append io_ok clk' name m' ct' st1 = (st2, Ok off) ->
  small m /\ file_view st1 = file_view st /\
  file_view st2 = <[name := log_append a [m'] None]> (file_view st) /\ f_settings st2 = f_settings st /\
  exists d2, f_disk st2 !! key_of name = Some (NDir d2) /\ d_meta d2 = d_meta d /\
    (forall c, c <> key_of name -> f_disk st2 !! c = f_disk st !! c) /\
    ((n <= length (encode_records [m]))%nat ->
     d_log d2 = Some (encode_records msgs ++ torn_piece n m ++ encode_records [m']) /\
     Z.of_nat (length (encode_records msgs ++ torn_piece n m ++ encode_records [m'])) <= ISIZE_MAX).
Proof using L.
  intros Hs He Hd Hlog Ha Hp Hp' Hlen Hfail Hack. pose proof (sy_inv _ Hs) as Hinv.
  destruct (locked_start st name e Hinv He) as (a' & Ha' & Hl). rewrite Ha in Ha'. injection Ha' as <-.
  unfold file_append, with_file_stream in Hfail. rewrite He in Hfail.
  destruct (file_append_locked _ _ _ _ _ _) as [l1 r1] eqn:Hr1. injection Hfail as <- ->.
  destruct (failed_write_run _ _ _ _ n _ l1 a d _ m clk ct Hl Hd Hlog Hp Hr1) as (Hsm & k & Hl1 & Hmax1 & Hk & Hroom).
  pose proof (locked_after_failure _ _ _ _ _ a d _ (torn_piece k m) Hl Hd Hlog Hmax1) as Hlk1. rewrite <- Hl1 in Hlk1.
  destruct (locked_finish st name l1 a Hinv Hlk1) as [_ Hv1].
  unfold file_append, with_file_stream in Hack. cbn [f_streams f_settings f_total_bytes f_disk] in Hack.
  rewrite lookup_insert_eq in Hack.
  assert (mkFLocked (fl_total l1) (fl_entry l1) (fl_disk l1) = l1) as Heta by by destruct l1. rewrite Heta in Hack.
  clear Hl Hr1. destruct (file_append_locked _ _ _ _ _ _) as [l2 r2] eqn:Hr2. injection Hack as <- ->. rewrite insert_insert_eq.
  set (d1 := set_log d (encode_records msgs ++ torn_piece k m)).
  assert (fl_disk l1 !! key_of name = Some (NDir d1)) as Hd1 by (rewrite Hl1; apply lookup_insert_eq).
  destruct (acknowledged_run _ _ _ _ l1 l2 a d1 _ m' clk' ct' off Hlk1 Hd1 eq_refl Hp' Hlen Hr2) as (Hl2 & Hmax2 & Hlk2).
  destruct (locked_finish st name l2 _ Hinv Hlk2) as [_ Hv2].
  split_and!; [done|by rewrite Hv1, insert_id|done|done|].
  destruct (grow_log_files (f_settings st) d1 ((encode_records msgs ++ torn_piece k m) ++ encode_records [m']))
    as (Hlog2 & Hmeta2 & _).
  eexists. split; [rewrite Hl2; apply lookup_insert_eq|]. split; [exact Hmeta2|].
  split; [apply (lk_frame _ _ _ _ _ _ Hlk2)|]. intros Hn.
  assert (k = n) as ->.
  { destruct Hroom as [?|Hroom]; [done|exfalso]. rewrite !length_app in Hmax2. unfold torn_piece in Hmax2.
    rewrite length_take in Hmax2. pose proof (encode_records_length [m']) as Hlen'. unfold RECORD_HEADER_BYTES in Hlen'.
    cbn [length] in Hlen'. pose proof (payload_nonneg [m']). lia. }
  rewrite Hlog2, <- app_assoc in *. done.
Qed.

(** C31: bytes left by a failed log write cost a later message. After any history of calls
    on a fresh directory whose system calls succeed, let the log write of an append stop after [n] bytes, somewhere in
    the payload of its record. The append fails and the streams are as before. Let a later
    append to the stream be acknowledged, with a record shorter than the part that was not
    written. The running server shows its message; after a restart the scan takes the record
    for the rest of the torn one and cuts both off, and the stream has the messages it had
    before the two appends. *)
Theorem partial_write_loses_later_append cfg ops run name a n m m' clk clk' ct ct' st1 st2 off now entries :
  0 <= max_total_bytes cfg <= ISIZE_MAX -> u64 (max_stream_bytes cfg) ->
  history (mkRun (empty_storage cfg) (fun _ => io_ok)) ops run -> view run !! name = Some a ->
  fits (view run) name [m] -> fits (view run) name [m'] ->
  file_append (die_writing n) clk name m ct (fr_store run) = (st1, Err write_failed) ->
  file_append io_ok clk' name m' ct' st1 = (st2, Ok off) ->
  (4 <= n)%nat -> (n + length (encode_records [m']) < length (encode_records [m]))%nat ->
  NoDup entries -> (forall c, c ∈ entries <-> is_Some (f_disk st2 !! c)) ->
  file_view st1 = view run /\
  file_view st2 = <[name := log_append a [m'] None]> (view run) /\
  exists st', FileStorage_new io_ok (fun _ => io_ok) now entries cfg (f_disk st2) = (f_disk st', Ok st') /\
    if is_stream_expired (now (key_of name)) (a_config a) then file_view st' !! name = None
    else exists b, file_view st' !! name = Some b /\ a_msgs b = a_msgs a.
Proof using L.
  intros Hmt Hms Hh Ha [Hp [_ Hf]] [Hp' _] Hfail Hack Hn4 Hn Hnd Hall. change (file_view (fr_store run) !! name = Some a) in Ha.
  pose proof (history_synced _ _ _ Hh eq_refl (empty_synced cfg Hmt Hms)) as Hs.
  pose proof (history_settings _ _ _ Hh) as Hcfg. cbn in Hcfg. pose proof (image_of_lookup _ name Hs) as Hi.
  destruct (f_streams (fr_store run) !! name) as [e|] eqn:He; [|by rewrite file_view_lookup, He in Ha].
  destruct Hi as (d & msgs & m0 & Hd & Hh0 & _ & Hmm & Himg & Hv). rewrite Ha in Hv. injection Hv as Ha'.
  pose proof Hh0 as (Hlog & _).
  destruct (failed_then_acknowledged _ name e d msgs a n m m' clk clk' ct ct' st1 st2 off Hs He Hd Hlog Ha Hp Hp' (Hf a Ha) Hfail Hack)
    as (Hsm & Hv1 & Hv2 & Hcfg2 & d2 & Hd2 & Hmeta & Hfr & Hrest).
  destruct Hrest as [Hlog2 Hmax]; [lia|]. split; [exact Hv1|]. split; [exact Hv2|].
  pose proof (torn_piece_torn n m [m'] Hsm Hn4 Hn) as Htorn.
  pose proof (torn_image _ name e d d2 msgs m0 _ (f_disk st2) Hs He Hh0 Hmm Hd2 Hmeta Hlog2 Hmax Htorn Hfr) as Hdisk.
  set (img := <[name := _]> (image_of (fr_store run))) in Hdisk.
  assert (map_sum (fun x => payload (im_msgs x)) img <= ISIZE_MAX) as Hsum.
  { unfold img. rewrite (map_sum_update _ _ _ _ _ Himg). cbn.
    pose proof (synced_sum _ Hs). pose proof (fi_limit _ (sy_inv _ Hs)). rewrite Hcfg in *. lia. }
  destruct (load_image cfg (f_disk st2) img now Hdisk Hsum entries Hnd Hall) as (st' & Hnew & Hcfg' & Hstr & _ & Hafter).
  exists st'. split; [done|]. rewrite (load_view _ _ _ now Hdisk st' Hcfg' Hstr Hafter name).
  unfold img. rewrite lookup_insert_eq, Ha'. cbn. destruct (is_stream_expired _ _); [done|]. by eexists.
Qed.
End Lost.

(** ** A run *)

(** Six of the eight payload bytes are missing; the message [c] follows. *)
Definition torn_run : FileStorage :=
  (file_append io_ok demo_clock "s" [x63]
     "text/plain" (file_append (die_writing 6) demo_clock "s" (replicate 8 x62) "text/plain" (fr_store demo_run)).1).1.

Lemma partial_write_loses_later_append_witness :
  exists st' b, restart (f_disk torn_run) = (f_disk st', Ok st') /\ file_view st' !! "s" = Some b /\ a_msgs b = [[x61]] /\
    read_all "s" torn_run = Ok [[x61]; [x63]].
Proof.
  destruct demo_run_view as (a & Ha & Hm & Hx).
  destruct (file_append (die_writing 6) demo_clock "s" (replicate 8 x62) "text/plain" (fr_store demo_run)) as [st1 r1] eqn:H1.
  assert (r1 = Err write_failed) as -> by (apply (f_equal snd) in H1; cbn [snd] in H1; rewrite <- H1; vm_compute; reflexivity).
  destruct (file_append io_ok demo_clock "s" [x63] "text/plain" st1) as [st2 r2] eqn:H2.
  assert (st2 = torn_run) as -> by (unfold torn_run; rewrite H1; cbn [fst]; by rewrite H2).
  assert (exists off, r2 = Ok off) as [off ->].
  { assert (is_ok (file_append io_ok demo_clock "s" [x63] "text/plain"
      (file_append (die_writing 6) demo_clock "s" (replicate 8 x62) "text/plain" (fr_store demo_run)).1).2 = true) as Hok
      by (vm_compute; reflexivity).
    rewrite H1 in Hok. cbn [fst] in Hok. rewrite H2 in Hok. destruct r2; [by eexists|done]. }
  destruct (partial_write_loses_later_append demo_settings demo_ops demo_run "s" a 6 (replicate 8 x62) [x63]
    demo_clock demo_clock "text/plain" "text/plain" st1 torn_run off (fun _ => 1000) (listing (f_disk torn_run)))
    as (_ & _ & st' & Hnew & Hb).
  - cbn. unfold ISIZE_MAX. lia.
  - cbn. unfold u64, two64. lia.
  - exact demo_history.
  - exact Ha.
  - fits_run.
  - fits_run.
  - exact H1.
  - exact H2.
  - lia.
  - vm_compute. lia.
  - apply listing_nodup.
  - apply listing_spec.
  - rewrite Hx in Hb. destruct Hb as (b & Hb & Hbm). exists st', b. split; [exact Hnew|]. split; [exact Hb|].
    split; [by rewrite Hbm, Hm|vm_compute; reflexivity].
Defined.
