(* ===== verification/FilePowerLoss.v ===== *)
(** * FilePowerLoss: the file backend after a power failure

    A power failure, unlike the crash of the process, also loses what the system had not
    yet written to the device. A log is left with at least the bytes that the last
    [sync_data] on it made durable ([d_durable]); that these are all of its bytes whenever
    a call has returned, in the mode [file-durable], is proved of the calls. Metadata are
    written and renamed without any sync in both modes, so [meta.json] may be of any earlier
    moment. Directories are taken to be durable when they are created or removed. *)

From S2P Require Import Prelude Errors Offsets RustStd Headers StorageCore LogSpec StorageTrace.
From S2P Require Import FileRecords FileStorage FileDemo FileSections FileRefinement FileLawful.
From S2P Require Import FileRecovery FileDurability FileCrash FileOvertaken.

(** ** Maps *)

(** A map of the same domain whose entries are in a relation to those of [m]. *)
Lemma map_choice {A B} (R : string -> A -> B -> Prop) (m : gmap string A) :
  (forall k x, m !! k = Some x -> exists y, R k x y) ->
  exists m' : gmap string B,
    (forall k x, m !! k = Some x -> exists y, m' !! k = Some y /\ R k x y) /\
    (forall k y, m' !! k = Some y -> exists x, m !! k = Some x /\ R k x y).
Proof.
  induction m as [|k x m Hk IH] using map_ind; intros Hall.
  { exists ∅. split; intros ? ?; by rewrite lookup_empty. }
  destruct IH as (m' & Hto & Hfrom).
  { intros k' x' Hx'. apply Hall. rewrite lookup_insert_ne; [done|]. by intros ->; rewrite Hk in Hx'. }
  destruct (Hall k x) as (y & Hy); [apply lookup_insert_eq|]. exists (<[k := y]> m'). split.
  - intros k' x' [[<- <-]|[Hne Hx']]%lookup_insert_Some.
    + exists y. by rewrite lookup_insert_eq.
    + destruct (Hto _ _ Hx') as (y' & Hy' & HR). exists y'. by rewrite lookup_insert_ne.
  - intros k' y' [[<- <-]|[Hne Hy']]%lookup_insert_Some.
    + exists x. by rewrite lookup_insert_eq.
    + destruct (Hfrom _ _ Hy') as (x' & Hx' & HR). exists x'. by rewrite lookup_insert_ne.
Qed.

Lemma map_sum_mono {A B} (f : A -> Z) (g : B -> Z) (m1 : gmap string A) : forall m2 : gmap string B,
  (forall k x, m1 !! k = Some x -> exists y, m2 !! k = Some y /\ f x <= g y) ->
  map_Forall (fun _ y => 0 <= g y) m2 -> map_sum f m1 <= map_sum g m2.
Proof.
  induction m1 as [|k x m1 Hk IH] using map_ind; intros m2 Hle Hpos.
  { rewrite map_sum_empty. by apply map_sum_nonneg. }
  destruct (Hle k x) as (y & Hy & Hxy); [apply lookup_insert_eq|].
  rewrite map_sum_insert_new, (map_sum_delete g m2 k y) by done.
  enough (map_sum f m1 <= map_sum g (delete k m2)) by lia. apply IH; [|by apply map_Forall_delete].
  intros k' x' Hx'. assert (k <> k') as Hne by (intros ->; by rewrite Hk in Hx').
  destruct (Hle k' x') as (y' & Hy' & ?); [by rewrite lookup_insert_ne|]. exists y'. by rewrite lookup_delete_ne.
Qed.

(** ** What is durable *)

(** Every byte of every log has been synced. *)
Definition all_durable (disk : Disk) : Prop :=
  forall c d, disk !! c = Some (NDir d) -> d_durable d = length (default [] (d_log d)).

Section Durable.
Context {F : FileLib} (cfg : FileSettings).

Lemma all_durable_insert disk c d :
  all_durable disk -> d_durable d = length (default [] (d_log d)) -> all_durable (<[c := NDir d]> disk).
Proof. intros Hall Hd c' d' [[_ [= <-]]|[_ Hd']]%lookup_insert_Some; [done|by eapply Hall]. Qed.
Lemma all_durable_delete disk c : all_durable disk -> all_durable (delete c disk).
Proof. intros Hall c' d' [_ Hd']%lookup_delete_Some. by eapply Hall. Qed.
Lemma all_durable_update disk dir d :
  all_durable disk -> d_durable d = length (default [] (d_log d)) -> all_durable (update_dir cfg dir d disk).
Proof. intros Hall Hd. unfold update_dir. destruct (dir_key cfg dir); [by apply all_durable_insert|done]. Qed.
Lemma all_durable_dir disk dir d :
  all_durable disk -> lookup_dir cfg dir disk = Some d -> d_durable d = length (default [] (d_log d)).
Proof.
  intros Hall. unfold lookup_dir. destruct (dir_key cfg dir) as [c|]; [|done].
  destruct (disk !! c) as [[d'| |]|] eqn:Hc; try done. intros [= <-]. by eapply Hall.
Qed.
Lemma all_durable_log disk dir d :
  all_durable disk -> lookup_dir cfg dir disk = Some d -> d_durable d = length (log_of cfg dir disk).
Proof. intros Hall Hd. unfold log_of. rewrite Hd. by eapply all_durable_dir. Qed.

(** Computations that keep it so. *)
Definition keeps_durable {S A} (disk_of : S -> Disk) (c : ST S Error A) : Prop :=
  forall s, all_durable (disk_of s) -> all_durable (disk_of (c s).1).

Lemma keeps_durable_bind {S A B} disk_of (c : ST S Error A) (k : A -> ST S Error B) :
  keeps_durable disk_of c -> (forall x, keeps_durable disk_of (k x)) -> keeps_durable disk_of (st_bind c k).
Proof.
  intros Hc Hk s Hs. unfold st_bind. specialize (Hc s Hs). destruct (c s) as [s1 [x|e]]; [by apply Hk|done].
Qed.

Lemma create_dir_all_durable io dir : keeps_durable id (create_dir_all cfg io dir).
Proof.
  intros disk Hall. unfold create_dir_all, id in *. destruct (io_fails _ _); [done|].
  destruct (path_strip_prefix _ _) as [[|c [|]]|]; try done. destruct (disk !! c); [done|]. by apply all_durable_insert.
Qed.
Lemma open_stream_file_durable io dir : keeps_durable id (open_stream_file cfg io dir).
Proof.
  intros disk Hall. unfold open_stream_file, id in *. destruct (validate_stream_dir _ _ _ _ _); [|done].
  destruct (lookup_dir _ _ _) as [d|] eqn:Hd; [|done]. destruct (io_fails _ _); [done|].
  apply all_durable_update; [done|]. exact (all_durable_dir _ _ _ Hall Hd).
Qed.
Lemma write_metadata_durable io name e : keeps_durable id (write_metadata_for cfg io name e).
Proof.
  intros disk Hall. unfold write_metadata_for, id in *. destruct (validate_stream_dir _ _ _ _ _); [|done].
  destruct (meta_to_vec _); [|done]. destruct (lookup_dir _ _ _) as [d|] eqn:Hd; [|done].
  apply (all_durable_dir _ _ _ Hall) in Hd.
  destruct (io_fails _ _); [by apply all_durable_update|]. by destruct (io_fails _ _); apply all_durable_update.
Qed.
Lemma remove_stream_dir_durable io dir : keeps_durable id (remove_stream_dir cfg io dir).
Proof.
  intros disk Hall. unfold remove_stream_dir, id in *. destruct (validate_stream_dir _ _ _ _ _); [|done].
  destruct (dir_key cfg dir) as [c|]; [|done]. destruct (lookup_dir _ _ _) as [d|] eqn:Hd; [|done].
  destruct (io_fails _ _); [|by apply all_durable_delete]. destruct (io_left io) as [[log meta] tmp].
  apply all_durable_update; [done|]. apply (all_durable_dir _ _ _ Hall) in Hd. by destruct log.
Qed.

(** An append whose calls succeed is synced before it returns. *)
Lemma append_records_durable msgs :
  sync_on_append cfg = true -> keeps_durable fl_disk (append_records cfg io_ok msgs).
Proof.
  intros Hsync l Hall. unfold append_records. destruct msgs as [|m msgs]; [done|].
  unfold st_bind, st_lift. destruct (batch_sizes _ _ _) as [[total sizes]|e]; [|done]. cbn [fst snd].
  assert (fl_disk (check_and_reserve cfg total l).1 = fl_disk l) as Hc
    by (unfold check_and_reserve; by repeat case_match).
  destruct (check_and_reserve _ _ _) as [l1 [[]|e]]; cbn [fst] in Hc; rewrite <- Hc in Hall; [|done].
  unfold fl_get, write_all. cbn [io_fails io_ok orb io_log_written]. rewrite Hsync.
  set (buf := encode_records (m :: msgs)). set (room := ISIZE_MAX - _).
  destruct (Z.ltb_spec room (Z.of_nat (length buf))) as [Hroom|Hroom]; cbn [negb].
  - unfold refresh_file_len, rollback_total_bytes, st_fail, fl_modify. cbn [io_fails io_ok fst fl_disk].
    destruct (lookup_dir cfg _ _) as [d|] eqn:Hd; [|done]. apply all_durable_update; [done|]. cbn.
    assert (Z.to_nat (Z.of_nat 0 `min` room) = 0%nat) as -> by lia. rewrite app_nil_r. by apply all_durable_log.
  - unfold sync_data. cbn [io_fails io_ok fl_entry fl_disk fl_total fst negb]. unfold fl_modify; cbn [fst fl_disk].
    destruct (lookup_dir cfg _ (fl_disk l1)) as [d|] eqn:Hd; [|by rewrite Hd].
    unfold update_dir, lookup_dir in *. destruct (dir_key cfg _) as [c|]; [|done].
    rewrite lookup_insert_eq, insert_insert_eq. by apply all_durable_insert.
Qed.
End Durable.

Section DurableCalls.
Context {F : FileLib}.

Lemma on_disk_durable {A} (c : FileSettings -> ST Disk Error A) :
  (forall cfg, keeps_durable id (c cfg)) -> keeps_durable f_disk (on_disk c).
Proof. intros Hc st Hst. unfold on_disk. specialize (Hc (f_settings st) _ Hst). by destruct (c _ _). Qed.
Lemma fl_on_disk_durable {A} (c : ST Disk Error A) : keeps_durable id c -> keeps_durable fl_disk (fl_on_disk c).
Proof. intros Hc l Hl. unfold fl_on_disk. specialize (Hc _ Hl). by destruct (c _). Qed.
Lemma fl_ignore_durable {A} (c : ST FLocked Error A) : keeps_durable fl_disk c -> keeps_durable fl_disk (fl_ignore c).
Proof. intros Hc l Hl. unfold fl_ignore. specialize (Hc l Hl). by destruct (c l). Qed.

Create HintDb durable.
#[local] Hint Resolve create_dir_all_durable open_stream_file_durable write_metadata_durable
  remove_stream_dir_durable append_records_durable : durable.

Ltac durable_section :=
  repeat match goal with
    | |- keeps_durable _ (st_bind _ _) => apply keeps_durable_bind; [|intros ?]
    | |- keeps_durable _ (fl_ignore _) => apply fl_ignore_durable
    | |- keeps_durable _ (fl_on_disk _) => apply fl_on_disk_durable
    | |- keeps_durable _ (on_disk _) => apply on_disk_durable; intros ?
    | |- keeps_durable _ (fl_write_metadata _ _ _) => unfold fl_write_metadata
    | |- keeps_durable _ (fl_store_pending_seq _) => unfold fl_store_pending_seq
    | |- keeps_durable _ (file_producer_commit _ _ _ _ _ _ _ _) => unfold file_producer_commit
    | |- keeps_durable _ (open_new_entry _ _ _ _) => unfold open_new_entry
    | |- keeps_durable _ (persist_and_insert _ _ _) => unfold persist_and_insert
    | |- keeps_durable _ (if ?b then _ else _) => destruct b
    | |- keeps_durable _ (match ?x with _ => _ end) => destruct x
    end; auto with durable; try (by intros ? ?).

(** The storages whose appends are synced. *)
Definition durable_store (st : FileStorage) : Prop :=
  sync_on_append (f_settings st) = true -> all_durable (f_disk st).

Lemma with_file_stream_durable {A} name (section : FileSettings -> ST FLocked Error A) st :
  (forall cfg, sync_on_append cfg = true -> keeps_durable fl_disk (section cfg)) ->
  durable_store st -> durable_store (with_file_stream name section st).1.
Proof.
  intros Hsec Hst. unfold with_file_stream. destruct (f_streams st !! name) as [e|]; [|done].
  intros Hsync. assert (sync_on_append (f_settings st) = true) as Hs by by destruct (section _ _).
  specialize (Hsec _ Hs (mkFLocked (f_total_bytes st) e (f_disk st)) (Hst Hs)). by destruct (section _ _).
Qed.

Lemma remove_stream_durable name e : keeps_durable f_disk (remove_stream io_ok name e).
Proof.
  intros st Hst. unfold remove_stream.
  pose proof (remove_stream_dir_durable (f_settings st) io_ok (fe_dir e) (f_disk st) Hst) as Hd.
  by destruct (remove_stream_dir _ _ _ _).
Qed.

(** A computation on the storage that keeps its settings. *)
Definition keeps_store {A} (m : ST FileStorage Error A) : Prop :=
  forall st, f_settings (m st).1 = f_settings st /\ (durable_store st -> durable_store (m st).1).

Lemma keeps_store_bind {A B} (m : ST FileStorage Error A) (k : A -> ST FileStorage Error B) :
  keeps_store m -> (forall x, keeps_store (k x)) -> keeps_store (st_bind m k).
Proof.
  intros Hm Hk st. unfold st_bind. destruct (Hm st) as [Hs Hd]. destruct (m st) as [st1 [x|e]]; [|done].
  destruct (Hk x st1) as [Hs1 Hd1]. cbn in *. split; [congruence|auto].
Qed.
Lemma keeps_store_intro {A} (m : ST FileStorage Error A) :
  (forall st, f_settings (m st).1 = f_settings st) -> keeps_durable f_disk m -> keeps_store m.
Proof. intros Hs Hd st. split; [done|]. intros Hst Hsync. rewrite Hs in Hsync. by apply Hd, Hst. Qed.

Lemma append_to_new_store e msgs : keeps_store (append_to_new io_ok e msgs).
Proof.
  intros st. unfold append_to_new, durable_store.
  pose proof (append_records_durable (f_settings st) msgs) as Ha.
  destruct (append_records _ _ _ _) as [l r] eqn:Hr. cbn. split; [done|]. intros Hst Hsync.
  specialize (Ha Hsync (mkFLocked (f_total_bytes st) e (f_disk st)) (Hst Hsync)). by rewrite Hr in Ha.
Qed.

Lemma open_new_store clk name config : keeps_store (open_new_entry io_ok clk name config).
Proof.
  apply keeps_store_intro; [|durable_section]. intros st. unfold open_new_entry, st_bind, on_disk.
  by repeat (case_match; cbn in *; simplify_eq).
Qed.
Lemma persist_store name e : keeps_store (persist_and_insert io_ok name e).
Proof.
  apply keeps_store_intro; [|durable_section]. intros st. unfold persist_and_insert, st_bind, on_disk.
  by repeat (case_match; cbn in *; simplify_eq).
Qed.
Lemma remove_store name e : keeps_store (remove_stream io_ok name e).
Proof.
  apply keeps_store_intro; [|apply remove_stream_durable]. intros st. unfold remove_stream. by destruct (remove_stream_dir _ _ _ _).
Qed.
Lemma return_store {A} (r : Result Error A) : keeps_store (fun st => (st, r)).
Proof. by intros st. Qed.

Lemma creates_store clk name config msgs close :
  keeps_store (create_new io_ok clk name config) /\ keeps_store (create_new_with_data io_ok clk name config msgs close).
Proof.
  split.
  - apply keeps_store_bind; [apply open_new_store|intros e].
    apply keeps_store_bind; [apply persist_store|intros _; apply (return_store (Ok _))].
  - apply keeps_store_bind; [apply open_new_store|intros e]. apply keeps_store_bind.
    { destruct msgs; [apply (return_store (Ok _))|apply append_to_new_store]. }
    intros e'. apply keeps_store_bind; [apply persist_store|intros _; apply (return_store (Ok _))].
Qed.

Lemma run_op_durable op run :
  fr_io run = (fun _ => io_ok) -> durable_store (fr_store run) -> durable_store (fr_store (run_op op run)).
Proof.
  intros Hio Hst. destruct op as [clk n c|clk n c msgs cl|clk n d ct|clk n msgs ct q
    |clk n msgs ct p cl q|clk n|n|clk n]; cbn; try done;
    unfold scheduled; rewrite Hio; match goal with |- context [let '(_, _) := ?m in _] =>
      enough (durable_store m.1) by by destruct m end.
  - unfold file_create_stream. destruct (f_streams _ !! n) as [e|]; [|by apply (creates_store clk n c [] false)].
    destruct (is_stream_expired _ _); [|by destruct (config_eq _ _)].
    apply keeps_store_bind; [apply remove_store|intros _; apply (creates_store clk n c [] false)|done].
  - unfold file_create_stream_with_data. destruct (f_streams _ !! n) as [e|]; [|by apply (creates_store clk n c msgs cl)].
    destruct (is_stream_expired _ _); [|by destruct (config_eq _ _)].
    apply keeps_store_bind; [apply remove_store|intros _; apply (creates_store clk n c msgs cl)|done].
  - apply with_file_stream_durable; [|done]. intros cfg Hsync. unfold file_append_locked. durable_section.
  - unfold file_batch_append. destruct msgs; [done|].
    apply with_file_stream_durable; [|done]. intros cfg Hsync. unfold file_batch_append_locked. durable_section.
  - apply with_file_stream_durable; [|done]. intros cfg Hsync. unfold file_producer_locked. durable_section.
  - apply with_file_stream_durable; [|done]. intros cfg Hsync. unfold file_close_locked. durable_section.
  - unfold file_delete. destruct (f_streams _ !! n); [by apply remove_store|done].
Qed.

(** Whatever was acknowledged has been synced. *)
Lemma history_durable {L : FileLibLaws F} cfg ops run :
  history (mkRun (empty_storage cfg) (fun _ => io_ok)) ops run -> durable_store (fr_store run).
Proof.
  intros Hh. assert (durable_store (fr_store (mkRun (empty_storage cfg) (fun _ => io_ok)))) as H0
    by (intros _ c d; cbn; by rewrite lookup_empty).
  assert (fr_io (mkRun (empty_storage cfg) (fun _ => io_ok)) = (fun _ => io_ok)) as Hio by done.
  revert H0 Hio. induction Hh as [s|s op ops s' Hf Hsz Hh IH]; [done|]. intros Hd Hio. apply IH.
  - by apply run_op_durable.
  - exact (history_io s [op] _ (history_cons _ _ _ _ Hf Hsz (history_nil _)) Hio).
Qed.
End DurableCalls.

(** ** What a power failure leaves *)

Section PowerLoss.
Context {F : FileLib} {L : FileLibLaws F}.

(** The directory [d'] of a stream after the failure, [d] being it before: the log is there,
    up to bytes at its end that were never synced, and the metadata are those of the same
    stream at an earlier moment [run0] of the server. *)
Definition stream_after (cfg : FileSettings) (run : FileRun) (name : string) (d' : Dir) (run0 : FileRun) : Prop :=
  (exists d log log', f_disk (fr_store run) !! key_of name = Some (NDir d) /\ d_log d = Some log /\
     d_log d' = Some log' /\ log' `prefix_of` log /\ (d_durable d <= length log')%nat) /\
  (exists d0, f_disk (fr_store run0) !! key_of name = Some (NDir d0) /\ d_meta d' = d_meta d0) /\
  (exists ops0, history (mkRun (empty_storage cfg) (fun _ => io_ok)) ops0 run0) /\
  (exists e0 ops, f_streams (fr_store run0) !! name = Some e0 /\ history run0 ops run /\
     forall op, op ∈ ops -> op_name op = name -> op_spares (fe_config e0) op = true).

Record power_loss (cfg : FileSettings) (run : FileRun) (disk' : Disk) : Prop := mkPowerLoss {
  pl_streams : forall name e, f_streams (fr_store run) !! name = Some e ->
    exists d' run0, disk' !! key_of name = Some (NDir d') /\ stream_after cfg run name d' run0;
  pl_others : forall c d', disk' !! c = Some (NDir d') ->
    (exists name e, f_streams (fr_store run) !! name = Some e /\ c = key_of name) \/
    (d_meta d' = None /\ default [] (d_log d') = [])
}.

(** What the next start makes of it. *)
Record survived (cfg : FileSettings) (a b : AStream) : Prop := mkSurvived {
  sv_config : a_config b = a_config a;
  sv_created_at : a_created_at b = a_created_at a;
  sv_msgs : a_msgs b `prefix_of` a_msgs a;
  sv_synced : sync_on_append cfg = true -> a_msgs b = a_msgs a;
  sv_closed : a_closed b = true -> a_closed a = true
}.

(** The loader's image [x] of one stream. *)
Definition image_after (cfg : FileSettings) (run : FileRun) (disk' : Disk) (name : string) (e : FileEntry) (x : Image)
  : Prop :=
  (exists d', disk' !! key_of name = Some (NDir d') /\ dir_image name d' x) /\
  payload (im_msgs x) <= fe_total_bytes e /\
  exists a, file_view (fr_store run) !! name = Some a /\
    survived cfg a (mkAStream (fm_config (im_meta x)) (im_msgs x) (fm_closed (im_meta x)) (fm_created_at (im_meta x))
                      (fm_producers (im_meta x)) (fm_last_seq (im_meta x))).

Lemma stream_image cfg run disk' name e d' run0 :
  0 <= max_total_bytes cfg <= ISIZE_MAX -> u64 (max_stream_bytes cfg) ->
  (sync_on_append cfg = true -> all_durable (f_disk (fr_store run))) ->
  synced (fr_store run) -> f_streams (fr_store run) !! name = Some e ->
  disk' !! key_of name = Some (NDir d') -> stream_after cfg run name d' run0 ->
  exists x, image_after cfg run disk' name e x.
Proof using L.
  intros Hmt Hms Hdur Hs He Hd' (Hlog & (d0 & Hd0 & Hmeta) & (ops0 & Hh0) & (e0 & ops & He0 & Hh & Hsp)).
  pose proof (history_synced _ _ _ Hh0 eq_refl (empty_synced cfg Hmt Hms)) as Hs0.
  pose proof (image_of_lookup _ name Hs0) as Hi0. rewrite He0 in Hi0.
  destruct Hi0 as (d1 & msgs0 & m0 & Hd1 & (_ & _ & p & Hp & Hdec) & _ & [Hnm Hcf Hcl Hcr _ _] & _ & Hv0).
  rewrite Hd0 in Hd1. injection Hd1 as <-.
  pose proof (image_of_lookup _ name Hs) as Hi. rewrite He in Hi.
  destruct Hi as (d & msgs & m & Hd & (Hl & Hsm & _) & _ & _ & Himg & Hv).
  destruct Hlog as (d2 & log & log' & Hd2 & Hl2 & Hl' & Hpre & Hsync).
  rewrite Hd in Hd2. injection Hd2 as <-. rewrite Hl in Hl2. injection Hl2 as <-.
  destruct (torn_batch log' msgs Hpre Hsm) as (pre & rest & Hpm & -> & Htorn & Hfull).
  exists (mkImage pre rest m0). split_and!.
  - exists d'. split; [done|]. unfold dir_image; cbn. split_and!; try done.
    + destruct Hpm as [more ->]. by apply Forall_app in Hsm as [? _].
    + pose proof (synced_log_bound _ _ _ _ _ Hs He Hd Hl). apply prefix_length in Hpre. lia.
    + exists p. by rewrite Hmeta.
  - cbn. rewrite (synced_payload _ _ _ _ Hs He Himg). cbn. by apply prefix_payload.
  - assert (backend_inv run0) as Hinv0 by (split; [apply Hs0|]; rewrite (history_io _ _ _ Hh0 eq_refl); by intros n site).
    destruct (history_ok _ _ _ Hh Hinv0) as [_ Hev].
    destruct (Hev name _ Hv0) as (a & Ha & [Hec Her _ Hclosed]).
    { cbn [a_config]. intros op Hop Hname. rewrite Hcf. by apply Hsp. }
    exists a. split; [done|]. change (file_view (fr_store run) !! name = Some a) in Ha. rewrite Hv in Ha. injection Ha as <-.
    cbn in *. split; cbn; try done.
    + intros Hsy. apply Hfull, (prefix_length_eq _ _ Hpre). specialize (Hdur Hsy _ _ Hd). rewrite Hl in Hdur. cbn in Hdur. lia.
    + intros Hc. by apply Hclosed.
Qed.

Lemma power_loss_image cfg run disk' :
  0 <= max_total_bytes cfg <= ISIZE_MAX -> u64 (max_stream_bytes cfg) ->
  (sync_on_append cfg = true -> all_durable (f_disk (fr_store run))) ->
  synced (fr_store run) -> power_loss cfg run disk' ->
  exists img, disk_image disk' img /\ map_sum (fun x => payload (im_msgs x)) img <= f_total_bytes (fr_store run) /\
    (forall name e, f_streams (fr_store run) !! name = Some e ->
       exists x, img !! name = Some x /\ image_after cfg run disk' name e x) /\
    (forall name x, img !! name = Some x -> is_Some (f_streams (fr_store run) !! name)).
Proof using L.
  intros Hmt Hms Hdur Hs [Hstr Hoth].
  destruct (map_choice (image_after cfg run disk') (f_streams (fr_store run))) as (img & Hto & Hfrom).
  { intros name e He. destruct (Hstr name e He) as (d' & run0 & Hd' & Hafter). by eapply stream_image. }
  exists img. split_and!; [split| |done|].
  - intros name x Hx. by destruct (Hfrom name x Hx) as (e & He & (Hd & _)).
  - intros c d' Hc. destruct (Hoth c d' Hc) as [(name & e & He & ->)|?]; [left|by right].
    destruct (Hto name e He) as (x & Hx & _). eauto.
  - rewrite (fi_sum _ (sy_inv _ Hs)). apply map_sum_mono; [|by apply file_inv_nonneg, sy_inv].
    intros name x Hx. destruct (Hfrom name x Hx) as (e & He & _ & Hle & _). eauto.
  - intros name x Hx. destruct (Hfrom name x Hx) as (e & He & _). eauto.
Qed.

(** C25: what a power failure can take. After any history of calls whose system calls
    succeed, let the power fail: each log may lose bytes at its end that were never synced,
    and the metadata of a stream may be those of an earlier moment. The server then starts, and
    finds every stream that has not expired with its configuration and creation time, and
    nothing else; in the mode [file-durable] with exactly the messages that were
    acknowledged, in the mode [file-fast] with a prefix of them. A stream that is found
    closed had been closed; but one that had been closed may be open again. *)
Theorem power_loss_keeps_messages cfg ops run disk' now entries :
  0 <= max_total_bytes cfg <= ISIZE_MAX -> u64 (max_stream_bytes cfg) ->
  history (mkRun (empty_storage cfg) (fun _ => io_ok)) ops run -> power_loss cfg run disk' ->
  NoDup entries -> (forall c, c ∈ entries <-> is_Some (disk' !! c)) ->
  exists st', FileStorage_new io_ok (fun _ => io_ok) now entries cfg disk' = (f_disk st', Ok st') /\
    forall name,
      match view run !! name with
      | None => file_view st' !! name = None
      | Some a =>
          if is_stream_expired (now (key_of name)) (a_config a) then file_view st' !! name = None
          else exists b, file_view st' !! name = Some b /\ survived cfg a b
      end.
Proof using L.
  intros Hmt Hms Hh Hpl Hnd Hall. pose proof (history_synced _ _ _ Hh eq_refl (empty_synced cfg Hmt Hms)) as Hs.
  pose proof (history_durable cfg ops run Hh) as Hdur. unfold durable_store in Hdur.
  rewrite (history_settings _ _ _ Hh) in Hdur.
  destruct (power_loss_image cfg run disk' Hmt Hms Hdur Hs Hpl) as (img & Himg & Hsum & Hto & Hdom).
  pose proof (fi_limit _ (sy_inv _ Hs)) as Hlim. rewrite (history_settings _ _ _ Hh) in Hlim. cbn in Hlim.
  destruct (load_image cfg disk' img now Himg ltac:(lia) entries Hnd Hall) as (st' & Hnew & Hcfg & Hstr & _ & Hafter).
  exists st'. split; [done|]. intros name. rewrite (load_view _ _ _ now Himg st' Hcfg Hstr Hafter name).
  change (view run !! name) with (file_view (fr_store run) !! name).
  destruct (f_streams (fr_store run) !! name) as [e|] eqn:He.
  - destruct (Hto name e He) as (x & -> & _ & _ & a & -> & Hsv). cbn zeta. rewrite (sv_config _ _ _ Hsv : fm_config _ = _).
    destruct (is_stream_expired _ _); [done|]. eexists. split; [done|]. by rewrite <- (sv_config _ _ _ Hsv : fm_config _ = _).
  - rewrite file_view_lookup, He. cbn. destruct (img !! name) as [x|] eqn:Hx; [|done].
    destruct (Hdom name x Hx) as [e' He']. congruence.
Qed.
End PowerLoss.

(** ** A run *)

(** A stream with one message is closed, in the mode [file-durable]; then the power fails,
    and the new metadata had not reached the device. *)
Definition closed_run : FileRun := run_op (OpClose demo_clock "s") demo_run.
Definition disk_before_close : Disk := f_disk (fr_store demo_run).

Definition dir_of (disk : Disk) (c : string) : option Dir :=
  match disk !! c with Some (NDir d) => Some d | _ => None end.
Lemma dir_of_node disk c d : dir_of disk c = Some d -> disk !! c = Some (NDir d).
Proof. unfold dir_of. destruct (disk !! c) as [[]|]; by intros [= ->]. Qed.

Lemma closed_history : history (mkRun (empty_storage demo_settings) (fun _ => io_ok)) (demo_ops ++ [OpClose demo_clock "s"]) closed_run.
Proof. repeat (apply history_cons; [fits_run|done|]). apply history_nil. Qed.
Lemma close_history : history demo_run [OpClose demo_clock "s"] closed_run.
Proof. apply history_cons; [fits_run|done|]. apply history_nil. Qed.

Lemma closed_run_streams name e : f_streams (fr_store closed_run) !! name = Some e -> name = "s".
Proof.
  intros He. assert (dom (f_streams (fr_store closed_run)) = {["s"]}) as Hd by (vm_compute; reflexivity).
  apply elem_of_dom_2 in He. rewrite Hd in He. by apply elem_of_singleton in He.
Qed.

Lemma disk_before_close_keys c n : disk_before_close !! c = Some n -> c = key_of "s".
Proof.
  intros Hn. assert (dom disk_before_close = {[key_of "s"]}) as Hd by (vm_compute; reflexivity).
  apply elem_of_dom_2 in Hn. rewrite Hd in Hn. by apply elem_of_singleton in Hn.
Qed.

Lemma closed_run_power_loss : power_loss demo_settings closed_run disk_before_close.
Proof.
  destruct (dir_of disk_before_close (key_of "s")) as [d|] eqn:Hd; [|by vm_compute in Hd].
  destruct (dir_of (f_disk (fr_store closed_run)) (key_of "s")) as [d1|] eqn:Hd1; [|by vm_compute in Hd1].
  assert (d_log <$> dir_of disk_before_close (key_of "s") = Some (Some (encode_records [[x61]]))) as Hl by (vm_compute; reflexivity).
  assert ((fun d => (d_log d, d_durable d)) <$> dir_of (f_disk (fr_store closed_run)) (key_of "s") =
    Some (Some (encode_records [[x61]]), length (encode_records [[x61]]))) as Hl1 by (vm_compute; reflexivity).
  rewrite Hd in Hl. rewrite Hd1 in Hl1. injection Hl as Hl. apply (inj Some), pair_equal_spec in Hl1 as [Hl1 Hsy]. apply dir_of_node in Hd, Hd1.
  assert (fe_config <$> f_streams (fr_store demo_run) !! "s" = Some demo_config) as Hc by (vm_compute; reflexivity).
  apply fmap_Some in Hc as (e0 & He0 & Hc). split.
  - intros name e ->%closed_run_streams. exists d, demo_run. split; [done|]. split_and!.
    + exists d1, (encode_records [[x61]]), (encode_records [[x61]]). split_and!; [exact Hd1|exact Hl1|exact Hl|reflexivity|].
      rewrite Hsy. reflexivity.
    + exists d. by split.
    + exists demo_ops. exact demo_history.
    + exists e0, [OpClose demo_clock "s"]. split_and!; [done|exact close_history|].
      intros op ->%list_elem_of_singleton _. rewrite <- Hc. vm_compute; reflexivity.
  - intros c d' Hc'. left. pose proof (disk_before_close_keys _ _ Hc') as ->.
    assert (fe_closed <$> f_streams (fr_store closed_run) !! "s" = Some true) as Hcl by (vm_compute; reflexivity).
    apply fmap_Some in Hcl as (e & He & _). exists "s", e. split; [exact He|reflexivity].
Qed.

Lemma start_disk io0 io now entries cfg disk dk st :
  FileStorage_new io0 io now entries cfg disk = (dk, Ok st) -> dk = f_disk st.
Proof.
  unfold FileStorage_new. repeat (destruct (io_fails io0 _); [done|]).
  destruct (load_entries _ _ _ _ _ _) as [d [[m t]|]]; [|done]. by intros [= <- <-].
Qed.

(** A close does not survive a power failure, though every append is synced. In the mode
    [file-durable] a stream gets a message and is closed, both with success; the power
    fails while only the metadata of the close, which is never synced, had not reached the
    device. After the restart the message is there, but the stream is open again. *)
Theorem power_loss_reopens_stream :
  exists ops run disk' st', sync_on_append demo_settings = true /\
    history (mkRun (empty_storage demo_settings) (fun _ => io_ok)) ops run /\
    power_loss demo_settings run disk' /\ restart disk' = (f_disk st', Ok st') /\
    stream_of (fr_store run) "s" = Some (true, "text/plain", [[x61]]) /\
    stream_of st' "s" = Some (false, "text/plain", [[x61]]).
Proof.
  destruct (restart disk_before_close) as [dk [st'|e]] eqn:Hr.
  - exists (demo_ops ++ [OpClose demo_clock "s"]), closed_run, disk_before_close, st'.
    pose proof (start_disk _ _ _ _ _ _ _ _ Hr) as ->.
    assert ((let? st := (restart disk_before_close).2 in Ok (stream_of st "s")) = Ok (Some (false, "text/plain", [[x61]])))
      as Hs by (vm_compute; reflexivity).
    rewrite Hr in Hs. cbn in Hs. injection Hs as Hs.
    split; [reflexivity|]. split; [exact closed_history|]. split; [exact closed_run_power_loss|].
    split; [exact Hr|]. split; [vm_compute; reflexivity|exact Hs].
  - assert (is_ok (restart disk_before_close).2 = true) as Hok by (vm_compute; reflexivity). by rewrite Hr in Hok.
Qed.

Lemma power_loss_keeps_messages_witness :
  exists st' b, restart disk_before_close = (f_disk st', Ok st') /\ file_view st' !! "s" = Some b /\
    a_msgs b = [[x61]].
Proof.
  destruct (power_loss_keeps_messages demo_settings _ closed_run disk_before_close (fun _ => 1000)
    (listing disk_before_close) ltac:(cbn; unfold ISIZE_MAX; lia) ltac:(cbn; unfold u64, two64; lia)
    closed_history closed_run_power_loss (listing_nodup _) (listing_spec _)) as (st' & Hnew & Hv).
  specialize (Hv "s"). change (view closed_run) with (file_view (fr_store closed_run)) in Hv.
  assert ((fun a => (a_msgs a, is_stream_expired 1000 (a_config a))) <$>
            file_view (fr_store closed_run) !! "s" = Some ([[x61]], false)) as Ha by (vm_compute; reflexivity).
  destruct (file_view (fr_store closed_run) !! "s") as [a|]; [|done]. injection Ha as Hm Hx. rewrite Hx in Hv.
  destruct Hv as (b & Hb & Hsv). exists st', b. split; [exact Hnew|]. split; [exact Hb|].
  rewrite (sv_synced _ _ _ Hsv eq_refl). exact Hm.
Defined.
