(* ===== verification/FileWakeups.v ===== *)
(** * FileWakeups: the notifications of the file backend

    The file backend keeps the promise of [RingingStorage]: a call that added messages to
    the log of a stream or closed the stream has rung the stream's channel. As in memory,
    a close through [append_with_producer] that brings no message is outside it. *)

From S2P Require Import Prelude Errors Offsets RustStd Headers StorageCore LogSpec StorageTrace Wakeups.
From S2P Require Import FileRecords FileStorage FileSections FileRefinement FileLawful.

Section FileRinging.
Context {F : FileLib}.

(** ** Sections *)

Definition fl_count (l : FLocked) : Z := fe_notify (fl_entry l).
#[local] Abbreviation keeps_count := (never_back fl_count).
#[local] Abbreviation rings_for := (Wakeups.rings_for fl_count).

Lemma fl_modify_count f : (forall e, fe_notify e <= fe_notify (f e)) -> keeps_count (fl_modify f).
Proof. intros Hf l. apply Hf. Qed.

Lemma fl_on_disk_count {A} (c : ST Disk Error A) : keeps_count (fl_on_disk c).
Proof. intros l. unfold fl_on_disk, fl_count. destruct (c (fl_disk l)) as [d r]. cbn. lia. Qed.

Lemma fl_ignore_count {A} (c : ST FLocked Error A) : keeps_count c -> keeps_count (fl_ignore c).
Proof. intros Hc l. unfold fl_ignore. specialize (Hc l). destruct (c l) as [l' r]. exact Hc. Qed.

Lemma push_indexes_notify before sizes e : fe_notify (push_indexes before sizes e) = fe_notify e.
Proof.
  unfold push_indexes. generalize before. revert e. induction sizes as [|n sizes IH]; intros e cur; [done|].
  cbn. by rewrite IH.
Qed.

Create HintDb fring.
#[local] Hint Extern 4 (never_back _ _) => (intros [? ? ?]; unfold fl_count; cbn; lia) : fring.
#[local] Hint Extern 4 (_ <= _) => (rewrite ?push_indexes_notify; cbn; lia) : fring.

Ltac ring_section :=
  repeat match goal with
    | |- never_back _ (st_bind _ _) => apply never_back_bind; [|intros ?]
    | |- never_back _ (fl_modify _) => apply fl_modify_count; intros ?
    | |- never_back _ (fl_on_disk _) => apply fl_on_disk_count
    | |- never_back _ (fl_ignore _) => apply fl_ignore_count
    | |- never_back _ (if ?b then _ else _) => destruct b
    | |- never_back _ (match ?x with _ => _ end) => destruct x
    | |- never_back _ (file_producer_commit _ _ _ _ _ _ _ _) => unfold file_producer_commit
    | |- never_back _ (fl_store_pending_seq _) => unfold fl_store_pending_seq
    | |- never_back _ (fl_write_metadata _ _ _) => unfold fl_write_metadata
    | |- never_back _ (append_records _ _ ?msgs) => unfold append_records
    | |- never_back _ (check_and_reserve _ _) =>
        intros [? ? ?]; unfold check_and_reserve, fl_count; repeat case_match; cbn; lia
    | |- never_back _ (sync_data _ _) =>
        intros [? ? ?]; unfold sync_data, fl_count; case_match; cbn; lia
    | |- never_back _ (refresh_file_len _ _) =>
        intros [? ? ?]; unfold refresh_file_len, fl_count; repeat case_match; cbn; lia
    end; auto with fring.

(** Appended records ring. *)
Lemma append_records_rings cfg io msgs : msgs <> [] -> rings_for (fun _ => true) (append_records cfg io msgs).
Proof.
  intros Hne. destruct msgs as [|m msgs]; [done|]. unfold append_records.
  do 4 (apply rings_after; [ring_section|intros ?]). destruct (negb _); [by do 2 (apply rings_after; [ring_section|intros ?])|].
  apply rings_after; [ring_section|intros ?]. destruct (negb _); [by do 2 (apply rings_after; [ring_section|intros ?])|].
  apply rings_after; [ring_section|intros ?]. intros [? ? ?] _. unfold fl_count. cbn. lia.
Qed.

Lemma file_append_keeps cfg io clk data ct : keeps_count (file_append_locked cfg io clk data ct).
Proof. unfold file_append_locked. ring_section. Qed.
Lemma file_append_rings cfg io clk data ct : rings_for (fun _ => true) (file_append_locked cfg io clk data ct).
Proof.
  unfold file_append_locked. do 4 (apply rings_after; [ring_section|intros ?]).
  apply rings_before; [by apply append_records_rings|intros _; ring_section].
Qed.

Lemma file_batch_keeps cfg io clk name msgs ct seq : keeps_count (file_batch_append_locked cfg io clk name msgs ct seq).
Proof. unfold file_batch_append_locked. ring_section. Qed.
Lemma file_batch_rings cfg io clk name msgs ct seq :
  msgs <> [] -> rings_for (fun _ => true) (file_batch_append_locked cfg io clk name msgs ct seq).
Proof.
  intros Hne. unfold file_batch_append_locked. do 5 (apply rings_after; [ring_section|intros ?]).
  apply rings_before; [by apply append_records_rings|intros _; ring_section].
Qed.

Lemma file_producer_keeps cfg io clk name msgs ct p close seq :
  keeps_count (file_producer_locked cfg io clk name msgs ct p close seq).
Proof. unfold file_producer_locked. ring_section. Qed.
Lemma file_producer_rings cfg io clk name msgs ct p close seq :
  msgs <> [] ->
  rings_for (fun r => match r with Accepted _ _ _ _ => true | Duplicate _ _ _ _ => false end)
    (file_producer_locked cfg io clk name msgs ct p close seq).
Proof.
  intros Hne. unfold file_producer_locked. do 6 (apply rings_after; [ring_section|intros ?]).
  match goal with |- rings_for _ (match ?c with _ => _ end) => destruct c end; [|by intros ?].
  apply rings_after; [ring_section|intros ?].
  apply rings_before; [by apply append_records_rings|intros _; ring_section].
Qed.

Lemma file_close_keeps cfg io clk name : keeps_count (file_close_locked cfg io clk name).
Proof. unfold file_close_locked. ring_section. Qed.
Lemma file_close_rings cfg io clk name : rings_for (fun _ => true) (file_close_locked cfg io clk name).
Proof.
  unfold file_close_locked. do 4 (apply rings_after; [ring_section|intros ?]).
  intros [? ? ?] _. unfold fl_count. cbn. lia.
Qed.

(** ** Calls *)

Definition file_sent (st : FileStorage) (name : string) : option Z := fe_notify <$> f_streams st !! name.

Lemma with_file_stream_keeps {A} n (section : FileSettings -> ST FLocked Error A) st name k :
  (forall cfg, keeps_count (section cfg)) -> file_sent st name = Some k ->
  exists k', file_sent (with_file_stream n section st).1 name = Some k' /\ k <= k'.
Proof.
  intros Hs Hk. unfold with_file_stream, file_sent in *. destruct (f_streams st !! n) as [e|] eqn:He; [|by exists k].
  specialize (Hs (f_settings st) (mkFLocked (f_total_bytes st) e (f_disk st))). destruct (section _ _) as [l r]; cbn in *.
  destruct (decide (n = name)) as [->|Hne]; [|rewrite lookup_insert_ne by done; by exists k].
  rewrite lookup_insert_eq. rewrite He in Hk. injection Hk as <-. by exists (fe_notify (fl_entry l)).
Qed.

Lemma with_file_stream_rings {A} n (section : FileSettings -> ST FLocked Error A) P st x k k' :
  (forall cfg, rings_for P (section cfg)) -> (with_file_stream n section st).2 = Ok x -> P x = true ->
  file_sent st n = Some k -> file_sent (with_file_stream n section st).1 n = Some k' -> k < k'.
Proof.
  intros Hs. unfold with_file_stream, file_sent in *. destruct (f_streams st !! n) as [e|] eqn:He; [|done].
  specialize (Hs (f_settings st) (mkFLocked (f_total_bytes st) e (f_disk st))).
  destruct (section _ _) as [l [y|err]]; cbn in *; [|done].
  intros [= ->] HP [= <-]. rewrite lookup_insert_eq. intros [= <-]. by apply Hs.
Qed.

(** A computation on the storage that changes no entry but that of [name]. *)
Definition spares_others {A} (name : string) (m : ST FileStorage Error A) : Prop :=
  forall st other, name <> other -> f_streams (m st).1 !! other = f_streams st !! other.

Lemma spares_others_bind {A B} name (m : ST FileStorage Error A) (k : A -> ST FileStorage Error B) :
  spares_others name m -> (forall x, spares_others name (k x)) -> spares_others name (st_bind m k).
Proof.
  intros Hm Hk st other Hne. unfold st_bind. specialize (Hm st other Hne). destruct (m st) as [st1 [x|e]]; [|done].
  by rewrite (Hk x st1 other Hne).
Qed.
Lemma spares_others_on_disk {A} name (c : FileSettings -> ST Disk Error A) : spares_others name (on_disk c).
Proof. intros st other _. unfold on_disk. by destruct (c _ _). Qed.
Lemma spares_others_insert name io entry : spares_others name (persist_and_insert io name entry).
Proof.
  apply spares_others_bind; [apply spares_others_on_disk|intros _]. intros st other Hne. by apply lookup_insert_ne.
Qed.
Lemma spares_others_open name io clk config : spares_others name (open_new_entry io clk name config).
Proof. by repeat (apply spares_others_bind; [done || apply spares_others_on_disk|intros ?]). Qed.
Lemma spares_others_append name io entry msgs : spares_others name (append_to_new io entry msgs).
Proof. intros st other _. unfold append_to_new. by destruct (append_records _ _ _ _). Qed.
Lemma spares_others_remove name io e : spares_others name (remove_stream io name e).
Proof.
  intros st other Hne. unfold remove_stream. destruct (remove_stream_dir _ _ _ _) as [d r]. by apply lookup_delete_ne.
Qed.

Lemma spares_others_create name io clk config : spares_others name (create_new io clk name config).
Proof.
  apply spares_others_bind; [apply spares_others_open|intros e].
  by apply spares_others_bind; [apply spares_others_insert|].
Qed.
Lemma spares_others_create_data name io clk config msgs close :
  spares_others name (create_new_with_data io clk name config msgs close).
Proof.
  apply spares_others_bind; [apply spares_others_open|intros e]. apply spares_others_bind.
  { destruct msgs; [done|apply spares_others_append]. }
  intros e'. by apply spares_others_bind; [apply spares_others_insert|].
Qed.

(** Creating a stream touches no other entry, and not even its own if it is alive. *)
Lemma file_creates_keep_entry io clk n config msgs close st name e :
  f_streams st !! name = Some e -> (n = name -> is_stream_expired (clk 0%nat) (fe_config e) = false) ->
  f_streams (file_create_stream_with_data io clk n config msgs close st).1 !! name = f_streams st !! name /\
  f_streams (file_create_stream io clk n config st).1 !! name = f_streams st !! name.
Proof.
  intros He Hlive. unfold file_create_stream_with_data, file_create_stream.
  destruct (decide (n = name)) as [->|Hne].
  - rewrite He, (Hlive eq_refl). by destruct (config_eq _ _).
  - destruct (f_streams st !! n) as [e'|].
    2:{ split; [by apply spares_others_create_data|by apply spares_others_create]. }
    destruct (is_stream_expired _ (fe_config e')); [|by destruct (config_eq _ _)].
    split; apply (spares_others_bind n); try done; (apply spares_others_remove || intros _).
    + apply spares_others_create_data.
    + apply spares_others_create.
Qed.

(** The calls that notify of what they change. *)
Definition file_op_rings (op : StorageOp) : bool :=
  match op with OpProducer _ _ msgs _ _ _ _ => negb (bool_decide (msgs = [])) | _ => true end.

Lemma scheduled_store {A} (m : Io -> ST FileStorage Error A) run :
  fr_store (scheduled m run).1 = (m (fr_io run 0%nat) (fr_store run)).1 /\
  (scheduled m run).2 = (m (fr_io run 0%nat) (fr_store run)).2.
Proof. unfold scheduled. by destruct (m _ _). Qed.

Lemma file_keeps op (run : FileRun) name a k :
  file_view (fr_store run) !! name = Some a -> (op_name op = name -> op_spares (a_config a) op = true) ->
  file_sent (fr_store run) name = Some k ->
  exists k', file_sent (fr_store (run_op op run)) name = Some k' /\ k <= k'.
Proof.
  intros Ha Hsp Hk. rewrite file_view_lookup in Ha. apply fmap_Some in Ha as (e & He & ->).
  assert (forall st', f_streams st' !! name = f_streams (fr_store run) !! name ->
            exists k', file_sent st' name = Some k' /\ k <= k') as Hsame.
  { intros st' Heq. exists k. split; [|lia]. unfold file_sent. by rewrite Heq. }
  destruct op as [clk n c|clk n c msgs cl|clk n d ct|clk n msgs ct q
    |clk n msgs ct p cl q|clk n|n|clk n]; cbn in Hsp |- *; rewrite ?negb_true_iff in Hsp;
    rewrite ?(proj1 (scheduled_store _ run)).
  - by apply Hsame, (file_creates_keep_entry _ clk n c [] false _ _ e).
  - by apply Hsame, (file_creates_keep_entry _ clk n c msgs cl _ _ e).
  - apply with_file_stream_keeps; [intros; apply file_append_keeps|done].
  - unfold file_batch_append. destruct msgs; [by apply Hsame|].
    apply with_file_stream_keeps; [intros; apply file_batch_keeps|done].
  - apply with_file_stream_keeps; [intros; apply file_producer_keeps|done].
  - apply with_file_stream_keeps; [intros; apply file_close_keeps|done].
  - apply Hsame. unfold file_delete. destruct (f_streams _ !! n) as [e'|] eqn:He'; [|done].
    apply spares_others_remove. intros ->. by specialize (Hsp eq_refl).
  - by apply Hsame.
Qed.

Lemma file_loud op (run : FileRun) k k' :
  file_op_rings op = true -> op_loud op run = true -> file_sent (fr_store run) (op_name op) = Some k ->
  file_sent (fr_store (run_op op run)) (op_name op) = Some k' -> k < k'.
Proof.
  destruct op as [clk n c|clk n c msgs cl|clk n d ct|clk n msgs ct q
    |clk n msgs ct p cl q|clk n|n|clk n]; cbn; try done; intros Hr Hl Hk;
    rewrite (proj1 (scheduled_store _ run)); rewrite (proj2 (scheduled_store _ run)) in Hl; intros Hk'.
  - unfold file_append in *. destruct (with_file_stream _ _ _).2 as [o|err] eqn:Ho in Hl; [|done].
    by refine (with_file_stream_rings _ _ _ _ _ _ _ (fun cfg => file_append_rings cfg _ _ _ _) Ho _ Hk Hk').
  - unfold file_batch_append in *. destruct msgs as [|m msgs]; [done|].
    destruct (with_file_stream _ _ _).2 as [o|err] eqn:Ho in Hl; [|done].
    by refine (with_file_stream_rings _ _ _ _ _ _ _ (fun cfg => file_batch_rings cfg _ _ _ _ _ _ _) Ho _ Hk Hk').
  - apply negb_true_iff, bool_decide_eq_false in Hr. unfold file_append_with_producer in *.
    destruct (with_file_stream _ _ _).2 as [[ep sq o c|ep sq o c]|err] eqn:Ho in Hl; try done.
    by refine (with_file_stream_rings _ _ _ _ _ _ _ (fun cfg => file_producer_rings cfg _ _ _ _ _ _ _ _ Hr) Ho _ Hk Hk').
  - unfold file_close_stream in *. destruct (with_file_stream _ _ _).2 as [[]|err] eqn:Ho in Hl; [|done].
    by refine (with_file_stream_rings _ _ _ _ _ _ _ (fun cfg => file_close_rings cfg _ _ _) Ho _ Hk Hk').
Qed.

Lemma file_subscribes (run run' : FileRun) clk name rx :
  (run, file_subscribe clk name (fr_store run)) = (run', Some rx) -> file_sent (fr_store run') name = Some rx.
Proof.
  unfold file_subscribe, file_sent. destruct (f_streams _ !! name) as [e|] eqn:He; [|done].
  destruct (is_stream_expired _ _); [done|]. intros [= <- <-]. by rewrite He.
Qed.

#[global] Instance file_ringing {L : FileLibLaws F} :
  RingingStorage FileRun (fun run => file_sent (fr_store run)) file_op_rings := {|
  ring_subscribe := fun run clk name run' rx _ => file_subscribes run run' clk name rx;
  ring_keeps := fun op run name a n _ _ _ => file_keeps op run name a n;
  ring_loud := fun op run n n' _ _ => file_loud op run n n'
|}.
End FileRinging.
