(* ===== verification/Config.v ===== *)
(** * Config: src/config.rs

    The layered configuration: built-in defaults, TOML files merged by figment,
    environment overrides, and the validation before start-up. Reading and merging
    TOML is a parameter; a path is its text. *)

From S2P Require Import Prelude Errors Offsets RustStd Headers StorageCore Http.

(** ** Data *)

(** [StorageMode] *)
Inductive StorageMode := Memory | FileFast | FileDurable | Acid.
#[global] Instance StorageMode_eq_dec : EqDecision StorageMode.
Proof. solve_decision. Defined.

(** [StorageMode::as_str], [uses_file_backend] and [sync_on_append] *)
Definition mode_as_str (m : StorageMode) : string :=
  match m with
  | Memory => "memory"
  | FileFast => "file-fast"
  | FileDurable => "file-durable"
  | Acid => "acid"
  end.
Definition uses_file_backend (m : StorageMode) : bool :=
  match m with FileFast | FileDurable => true | _ => false end.
Definition mode_sync_on_append (m : StorageMode) : bool :=
  match m with FileDurable => true | _ => false end.

(** [Config]; durations in seconds. *)
Record Config : Type := mkConfig {
  cf_port : Z;
  cf_max_memory_bytes : Z;
  cf_max_stream_bytes : Z;
  cf_cors_origins : string;
  cf_long_poll_timeout : Z;
  cf_sse_reconnect_interval_secs : Z;
  cf_storage_mode : StorageMode;
  cf_data_dir : string;
  cf_acid_shard_count : Z;
  cf_tls_cert_path : option string;
  cf_tls_key_path : option string;
  cf_rust_log : string
}.

(** [Config::default] *)
Definition Config_default : Config :=
  mkConfig 4437 (100 * 1024 * 1024) (10 * 1024 * 1024) "*" 30 60 Memory "./data/streams" 16
    None None "info".

(** Assignments to one field. *)
Definition set_port (v : Z) (c : Config) : Config :=
  let '(mkConfig _ b d e f g h i j k l m) := c in mkConfig v b d e f g h i j k l m.
Definition set_max_memory_bytes (v : Z) (c : Config) : Config :=
  let '(mkConfig a _ d e f g h i j k l m) := c in mkConfig a v d e f g h i j k l m.
Definition set_max_stream_bytes (v : Z) (c : Config) : Config :=
  let '(mkConfig a b _ e f g h i j k l m) := c in mkConfig a b v e f g h i j k l m.
Definition set_cors_origins (v : string) (c : Config) : Config :=
  let '(mkConfig a b d _ f g h i j k l m) := c in mkConfig a b d v f g h i j k l m.
Definition set_long_poll_timeout (v : Z) (c : Config) : Config :=
  let '(mkConfig a b d e _ g h i j k l m) := c in mkConfig a b d e v g h i j k l m.
Definition set_sse_reconnect_interval_secs (v : Z) (c : Config) : Config :=
  let '(mkConfig a b d e f _ h i j k l m) := c in mkConfig a b d e f v h i j k l m.
Definition set_storage_mode (v : StorageMode) (c : Config) : Config :=
  let '(mkConfig a b d e f g _ i j k l m) := c in mkConfig a b d e f g v i j k l m.
Definition set_data_dir (v : string) (c : Config) : Config :=
  let '(mkConfig a b d e f g h _ j k l m) := c in mkConfig a b d e f g h v j k l m.
Definition set_acid_shard_count (v : Z) (c : Config) : Config :=
  let '(mkConfig a b d e f g h i _ k l m) := c in mkConfig a b d e f g h i v k l m.
Definition set_tls_cert_path (v : option string) (c : Config) : Config :=
  let '(mkConfig a b d e f g h i j _ l m) := c in mkConfig a b d e f g h i j v l m.
Definition set_tls_key_path (v : option string) (c : Config) : Config :=
  let '(mkConfig a b d e f g h i j k _ m) := c in mkConfig a b d e f g h i j k v m.
Definition set_rust_log (v : string) (c : Config) : Config :=
  let '(mkConfig a b d e f g h i j k l _) := c in mkConfig a b d e f g h i j k l v.

(** [ConfigLoadOptions] *)
Record ConfigLoadOptions : Type := mkLoadOptions {
  lo_config_dir : string;
  lo_profile : string;
  lo_config_override : option string
}.
Definition ConfigLoadOptions_default : ConfigLoadOptions := mkLoadOptions "config" "default" None.

(** [SettingsFile] and its tables. *)
Record ServerSettingsFile : Type := mkServerSettings {
  sv_port : option Z;
  sv_long_poll_timeout_secs : option Z;
  sv_sse_reconnect_interval_secs : option Z
}.
Record LimitsSettingsFile : Type := mkLimitsSettings {
  lm_max_memory_bytes : option Z;
  lm_max_stream_bytes : option Z
}.
Record HttpSettingsFile : Type := mkHttpSettings { ht_cors_origins : option string }.
Record StorageSettingsFile : Type := mkStorageSettings {
  sg_mode : option string;
  sg_data_dir : option string;
  sg_acid_shard_count : option Z
}.
Record TlsSettingsFile : Type := mkTlsSettings {
  tl_cert_path : option string;
  tl_key_path : option string
}.
Record LogSettingsFile : Type := mkLogSettings { lg_rust_log : option string }.
Record SettingsFile : Type := mkSettingsFile {
  sf_server : ServerSettingsFile;
  sf_limits : LimitsSettingsFile;
  sf_http : HttpSettingsFile;
  sf_storage : StorageSettingsFile;
  sf_tls : TlsSettingsFile;
  sf_log : LogSettingsFile
}.
Definition SettingsFile_default : SettingsFile :=
  mkSettingsFile (mkServerSettings None None None) (mkLimitsSettings None None) (mkHttpSettings None)
    (mkStorageSettings None None None) (mkTlsSettings None None) (mkLogSettings None).

(** ** Parsing values *)

Definition U16_MAX : Z := 65535.

(** [Config::parse_storage_mode_value] *)
Definition parse_storage_mode_value (raw : string) : option StorageMode :=
  let mode := to_lowercase raw in
  if bool_decide (mode = "memory") then Some Memory
  else if bool_decide (mode ∈ ["file"; "file-durable"; "durable"]) then Some FileDurable
  else if bool_decide (mode ∈ ["file-fast"; "fast"]) then Some FileFast
  else if bool_decide (mode ∈ ["acid"; "redb"]) then Some Acid
  else None.

(** [Config::valid_acid_shard_count]; a power of two has one bit. *)
Definition is_power_of_two (v : Z) : bool := (0 <? v) && (Z.land v (v - 1) =? 0).
Definition valid_acid_shard_count (value : Z) : bool :=
  (1 <=? value) && (value <=? 256) && is_power_of_two value.

(** ** Applying settings *)

Definition apply_some {A} (o : option A) (set : A -> Config -> Config) (c : Config) : Config :=
  match o with Some v => set v c | None => c end.

(** [Config::apply_file_settings] *)
Definition apply_file_settings (settings : SettingsFile) : Result string Config :=
  let c := Config_default in
  let c := apply_some (sv_port (sf_server settings)) set_port c in
  let c := apply_some (sv_long_poll_timeout_secs (sf_server settings)) set_long_poll_timeout c in
  let c := apply_some (sv_sse_reconnect_interval_secs (sf_server settings))
             set_sse_reconnect_interval_secs c in
  let c := apply_some (lm_max_memory_bytes (sf_limits settings)) set_max_memory_bytes c in
  let c := apply_some (lm_max_stream_bytes (sf_limits settings)) set_max_stream_bytes c in
  let c := apply_some (ht_cors_origins (sf_http settings)) set_cors_origins c in
  let? c := match sg_mode (sf_storage settings) with
            | Some mode =>
                match parse_storage_mode_value mode with
                | Some m => Ok (set_storage_mode m c)
                | None => Err ("invalid storage.mode value: " +:+ quote mode)
                end
            | None => Ok c
            end in
  let c := apply_some (sg_data_dir (sf_storage settings)) set_data_dir c in
  let? c := match sg_acid_shard_count (sf_storage settings) with
            | Some n =>
                if valid_acid_shard_count n then Ok (set_acid_shard_count n c)
                else Err ("invalid storage.acid_shard_count value: " +:+ quote (u64_to_string n) +:+
                          " (must be power-of-two in 1..=256)")
            | None => Ok c
            end in
  let c := set_tls_cert_path (tl_cert_path (sf_tls settings)) c in
  let c := set_tls_key_path (tl_key_path (sf_tls settings)) c in
  let c := apply_some (lg_rust_log (sf_log settings)) set_rust_log c in
  Ok c.

(** The values of the environment variables. *)
Definition parse_or {A} (r : Result ParseIntError A) (key value : string) : Result string A :=
  match r with Ok v => Ok v | Err _ => Err ("invalid " +:+ key +:+ " value: " +:+ quote value) end.
Definition env_int (max : Z) (key value : string) : Result string Z :=
  parse_or (parse_unsigned max value) key value.
Definition env_text (key value : string) : Result string string := Ok value.
Definition env_path (key value : string) : Result string (option string) := Ok (Some value).
Definition env_mode (key value : string) : Result string StorageMode :=
  match parse_storage_mode_value value with
  | Some m => Ok m
  | None => Err ("invalid " +:+ key +:+ " value: " +:+ quote value)
  end.
Definition env_shards (key value : string) : Result string Z :=
  let? parsed := env_int U64_MAX key value in
  if valid_acid_shard_count parsed then Ok parsed
  else Err ("invalid " +:+ key +:+ " value: " +:+ quote value +:+
            " (must be power-of-two in 1..=256)").

Section Env.
Context (get : string -> option string).

(** [if let Some(v) = get(key) { self.field = parse(v)?; }] *)
Definition env_override {A} (key : string) (parse : string -> string -> Result string A)
    (set : A -> Config -> Config) : ST Config string unit :=
  fun c =>
    match get key with
    | None => (c, Ok tt)
    | Some value =>
        match parse key value with
        | Ok v => (set v c, Ok tt)
        | Err e => (c, Err e)
        end
    end.

(** [Config::apply_env_overrides] *)
Definition apply_env_overrides : ST Config string unit :=
  let* _ := env_override "DS_SERVER__PORT" (env_int U16_MAX) set_port in
  let* _ := env_override "DS_SERVER__LONG_POLL_TIMEOUT_SECS" (env_int U64_MAX)
              set_long_poll_timeout in
  let* _ := env_override "DS_SERVER__SSE_RECONNECT_INTERVAL_SECS" (env_int U64_MAX)
              set_sse_reconnect_interval_secs in
  let* _ := env_override "DS_LIMITS__MAX_MEMORY_BYTES" (env_int U64_MAX) set_max_memory_bytes in
  let* _ := env_override "DS_LIMITS__MAX_STREAM_BYTES" (env_int U64_MAX) set_max_stream_bytes in
  let* _ := env_override "DS_HTTP__CORS_ORIGINS" env_text set_cors_origins in
  let* _ := env_override "DS_STORAGE__MODE" env_mode set_storage_mode in
  let* _ := env_override "DS_STORAGE__DATA_DIR" env_text set_data_dir in
  let* _ := env_override "DS_STORAGE__ACID_SHARD_COUNT" env_shards set_acid_shard_count in
  let* _ := env_override "DS_TLS__CERT_PATH" env_path set_tls_cert_path in
  let* _ := env_override "DS_TLS__KEY_PATH" env_path set_tls_key_path in
  env_override "DS_LOG__RUST_LOG" env_text set_rust_log.

(** [Config::from_env] *)
Definition from_env : Result string Config :=
  let '(config, r) := apply_env_overrides Config_default in let? _ := r in Ok config.
End Env.

(** ** Loading files *)

(** [Path::join] on the text of Unix paths. *)
Definition join (dir file : string) : string :=
  if starts_with file "/" then file
  else match last (as_bytes dir) with
       | None => file
       | Some b => if decide (b = "/"%byte) then dir +:+ file else dir +:+ "/" +:+ file
       end.

(** [Path::is_file] and [Figment::extract] after merging the TOML files of a list in
    its order. *)
Class ConfigLib : Type := {
  is_file : string -> bool;
  figment_extract : list string -> Result string SettingsFile
}.

Section Load.
Context {C : ConfigLib}.

Definition merge_if_present (path : string) (figment : list string) : list string :=
  if is_file path then figment ++ [path] else figment.

(** The files [from_sources_with_lookup] merges. *)
Definition config_layers (options : ConfigLoadOptions) : Result string (list string) :=
  let figment := merge_if_present (join (lo_config_dir options) "default.toml") [] in
  let figment := merge_if_present
                   (join (lo_config_dir options) (trim (lo_profile options) +:+ ".toml")) figment in
  let figment := merge_if_present (join (lo_config_dir options) "local.toml") figment in
  match lo_config_override options with
  | None => Ok figment
  | Some override_path =>
      if negb (is_file override_path) then
        Err ("config override file not found: " +:+ quote override_path)
      else Ok (figment ++ [override_path])
  end.

(** [Config::from_sources_with_lookup] *)
Definition from_sources_with_lookup (options : ConfigLoadOptions) (get : string -> option string)
  : Result string Config :=
  let? figment := config_layers options in
  let? settings := match figment_extract figment with
                   | Ok s => Ok s
                   | Err e => Err ("failed to parse TOML config: " +:+ e)
                   end in
  let? config := apply_file_settings settings in
  let '(config, r) := apply_env_overrides get config in
  let? _ := r in Ok config.
End Load.

(** ** Validation *)

Section Validation.
Context `{HttpLib}.

(** The loop of [validate_cors_origins]. *)
Fixpoint validate_origins (parsed_any : bool) (origins : list string) : Result string unit :=
  match origins with
  | [] => if parsed_any then Ok tt
          else Err "http.cors_origins must be '*' or a non-empty comma-separated list"
  | origin :: rest =>
      if bool_decide (origin = "") then Err "http.cors_origins contains an empty origin entry"
      else if negb (hv_from_str origin) then Err ("invalid http.cors_origins entry: " +:+ quote origin)
      else validate_origins true rest
  end.

(** [Config::validate_cors_origins] *)
Definition validate_cors_origins (origins : string) : Result string unit :=
  if bool_decide (origins = "*") then Ok tt
  else validate_origins false (map trim (split origins ",")).

(** [Config::validate] *)
Definition validate (c : Config) : Result string unit :=
  let? _ := match cf_tls_cert_path c, cf_tls_key_path c with
            | Some _, Some _ | None, None => Ok tt
            | Some _, None =>
                Err "tls.cert_path is set but tls.key_path is missing; both must be set together"
            | None, Some _ =>
                Err "tls.key_path is set but tls.cert_path is missing; both must be set together"
            end in
  validate_cors_origins (cf_cors_origins c).
End Validation.

(** [Config::tls_enabled] *)
Definition tls_enabled (c : Config) : bool :=
  match cf_tls_cert_path c, cf_tls_key_path c with Some _, Some _ => true | _, _ => false end.

(** ** Tests of src/config.rs *)

Definition lookup_env (pairs : list (string * string)) (key : string) : option string :=
  (list_to_map pairs : gmap string string) !! key.

Example env_rejects_unparseable :
  apply_env_overrides (lookup_env [("DS_SERVER__PORT", "not-a-number"); ("DS_LIMITS__MAX_MEMORY_BYTES", "")])
    Config_default =
  (Config_default, Err "invalid DS_SERVER__PORT value: 'not-a-number'").
Proof. vm_compute. reflexivity. Qed.

Example env_rejects_shards :
  (apply_env_overrides (lookup_env [("DS_STORAGE__ACID_SHARD_COUNT", "3")]) Config_default).2 =
  Err "invalid DS_STORAGE__ACID_SHARD_COUNT value: '3' (must be power-of-two in 1..=256)".
Proof. vm_compute. reflexivity. Qed.
