(* ===== verification/ConfigProps.v ===== *)
(** * ConfigProps: theorems on the configuration

    Later layers win field by field, the accepted values are in the range of their
    types, and exactly the valid inputs are accepted. *)

From S2P Require Import Prelude Errors Offsets RustStd Headers StorageCore Http Config.

(** ** What is relied on of figment and serde *)

(** Merging: a key of the later file replaces the same key of the earlier ones. *)
Definition over {A} (later earlier : option A) : option A :=
  match later with Some v => Some v | None => earlier end.
Definition overlay (a b : SettingsFile) : SettingsFile :=
  mkSettingsFile
    (mkServerSettings (over (sv_port (sf_server b)) (sv_port (sf_server a)))
       (over (sv_long_poll_timeout_secs (sf_server b)) (sv_long_poll_timeout_secs (sf_server a)))
       (over (sv_sse_reconnect_interval_secs (sf_server b))
          (sv_sse_reconnect_interval_secs (sf_server a))))
    (mkLimitsSettings (over (lm_max_memory_bytes (sf_limits b)) (lm_max_memory_bytes (sf_limits a)))
       (over (lm_max_stream_bytes (sf_limits b)) (lm_max_stream_bytes (sf_limits a))))
    (mkHttpSettings (over (ht_cors_origins (sf_http b)) (ht_cors_origins (sf_http a))))
    (mkStorageSettings (over (sg_mode (sf_storage b)) (sg_mode (sf_storage a)))
       (over (sg_data_dir (sf_storage b)) (sg_data_dir (sf_storage a)))
       (over (sg_acid_shard_count (sf_storage b)) (sg_acid_shard_count (sf_storage a))))
    (mkTlsSettings (over (tl_cert_path (sf_tls b)) (tl_cert_path (sf_tls a)))
       (over (tl_key_path (sf_tls b)) (tl_key_path (sf_tls a))))
    (mkLogSettings (over (lg_rust_log (sf_log b)) (lg_rust_log (sf_log a)))).

(** The integers of a settings file are in the range of their Rust types. *)
Definition within (max : Z) (o : option Z) : Prop := forall v, o = Some v -> 0 <= v <= max.
Record settings_typed (s : SettingsFile) : Prop := mkSettingsTyped {
  st_port : within U16_MAX (sv_port (sf_server s));
  st_long_poll : within U64_MAX (sv_long_poll_timeout_secs (sf_server s));
  st_sse : within U64_MAX (sv_sse_reconnect_interval_secs (sf_server s));
  st_memory : within U64_MAX (lm_max_memory_bytes (sf_limits s));
  st_stream : within U64_MAX (lm_max_stream_bytes (sf_limits s))
}.

Class ConfigLaws (C : ConfigLib) : Prop := {
  law_empty : figment_extract [] = Ok SettingsFile_default;
  law_merge files file a b :
    figment_extract files = Ok a -> figment_extract [file] = Ok b ->
    figment_extract (files ++ [file]) = Ok (overlay a b);
  law_typed files s : figment_extract files = Ok s -> settings_typed s
}.

(** ** Shard counts and modes *)

Definition shard_counts : list Z := [1; 2; 4; 8; 16; 32; 64; 128; 256].

Lemma valid_shards v : valid_acid_shard_count v = true <-> v ∈ shard_counts.
Proof.
  split.
  - intros Hv. assert (1 <= v <= 256) as Hr.
    { unfold valid_acid_shard_count in Hv. rewrite !andb_true_iff, !Z.leb_le in Hv. lia. }
    assert (Forall (fun n => valid_acid_shard_count (Z.of_nat n) = true -> Z.of_nat n ∈ shard_counts)
              (seq 1 256)) as Hall.
    { apply Forall_forall. intros n Hn.
      assert (forallb (fun n => negb (valid_acid_shard_count (Z.of_nat n)) ||
                bool_decide (Z.of_nat n ∈ shard_counts)) (seq 1 256) = true) as Hb
        by (vm_compute; reflexivity).
      rewrite forallb_forall in Hb. apply list_elem_of_In in Hn. specialize (Hb n Hn).
      intros Hval. rewrite Hval in Hb. cbn in Hb. by apply bool_decide_eq_true in Hb. }
    rewrite Forall_forall in Hall. specialize (Hall (Z.to_nat v)).
    rewrite Z2Nat.id in Hall by lia. apply Hall; [|done]. apply elem_of_seq. lia.
  - intros Hv. assert (Forall (fun v => valid_acid_shard_count v = true) shard_counts) as Hall
      by (repeat constructor).
    by apply (proj1 (Forall_forall _ _) Hall).
Qed.

(** The name of a mode selects it. *)
Lemma mode_name_parses m : parse_storage_mode_value (mode_as_str m) = Some m.
Proof. by destruct m; vm_compute. Qed.

(** ** Overrides as updates *)

Lemma some_port o a b c d e f g h i j k l :
  apply_some o set_port (mkConfig a b c d e f g h i j k l) = mkConfig (default a o) b c d e f g h i j k l.
Proof. by destruct o. Qed.
Lemma some_max_memory o a b c d e f g h i j k l :
  apply_some o set_max_memory_bytes (mkConfig a b c d e f g h i j k l) =
  mkConfig a (default b o) c d e f g h i j k l.
Proof. by destruct o. Qed.
Lemma some_max_stream o a b c d e f g h i j k l :
  apply_some o set_max_stream_bytes (mkConfig a b c d e f g h i j k l) =
  mkConfig a b (default c o) d e f g h i j k l.
Proof. by destruct o. Qed.
Lemma some_cors o a b c d e f g h i j k l :
  apply_some o set_cors_origins (mkConfig a b c d e f g h i j k l) =
  mkConfig a b c (default d o) e f g h i j k l.
Proof. by destruct o. Qed.
Lemma some_long_poll o a b c d e f g h i j k l :
  apply_some o set_long_poll_timeout (mkConfig a b c d e f g h i j k l) =
  mkConfig a b c d (default e o) f g h i j k l.
Proof. by destruct o. Qed.
Lemma some_sse o a b c d e f g h i j k l :
  apply_some o set_sse_reconnect_interval_secs (mkConfig a b c d e f g h i j k l) =
  mkConfig a b c d e (default f o) g h i j k l.
Proof. by destruct o. Qed.
Lemma some_mode o a b c d e f g h i j k l :
  apply_some o set_storage_mode (mkConfig a b c d e f g h i j k l) =
  mkConfig a b c d e f (default g o) h i j k l.
Proof. by destruct o. Qed.
Lemma some_data_dir o a b c d e f g h i j k l :
  apply_some o set_data_dir (mkConfig a b c d e f g h i j k l) =
  mkConfig a b c d e f g (default h o) i j k l.
Proof. by destruct o. Qed.
Lemma some_shards o a b c d e f g h i j k l :
  apply_some o set_acid_shard_count (mkConfig a b c d e f g h i j k l) =
  mkConfig a b c d e f g h (default i o) j k l.
Proof. by destruct o. Qed.
Lemma some_cert o a b c d e f g h i j k l :
  apply_some o set_tls_cert_path (mkConfig a b c d e f g h i j k l) =
  mkConfig a b c d e f g h i (default j o) k l.
Proof. by destruct o. Qed.
Lemma some_key o a b c d e f g h i j k l :
  apply_some o set_tls_key_path (mkConfig a b c d e f g h i j k l) =
  mkConfig a b c d e f g h i j (default k o) l.
Proof. by destruct o. Qed.
Lemma some_rust_log o a b c d e f g h i j k l :
  apply_some o set_rust_log (mkConfig a b c d e f g h i j k l) =
  mkConfig a b c d e f g h i j k (default l o).
Proof. by destruct o. Qed.

Create Rewrite HintDb config.
#[export] Hint Rewrite some_port some_max_memory some_max_stream some_cors some_long_poll some_sse
  some_mode some_data_dir some_shards some_cert some_key some_rust_log : config.

Section Overrides.
Context (get : string -> option string).

(** The value a variable sets, and whether it is acceptable. *)
Definition env_value {A} (key : string) (parse : string -> string -> Result string A) : option A :=
  match get key with
  | Some v => match parse key v with Ok a => Some a | Err _ => None end
  | None => None
  end.
Definition env_valid {A} (key : string) (parse : string -> string -> Result string A) : Prop :=
  forall v, get key = Some v -> is_ok (parse key v) = true.

Lemma env_override_ok {A} key (parse : string -> string -> Result string A) set c c' :
  env_override get key parse set c = (c', Ok tt) <->
  env_valid key parse /\ c' = apply_some (env_value key parse) set c.
Proof.
  unfold env_override, env_valid, env_value. destruct (get key) as [v|].
  - destruct (parse key v) as [a|e] eqn:Hp; split.
    + intros [= <-]. split; [|done]. intros v' [= <-]. by rewrite Hp.
    + by intros [_ ->].
    + done.
    + intros [Hv _]. specialize (Hv v eq_refl). by rewrite Hp in Hv.
  - split; [intros [= <-]; done|by intros [_ ->]].
Qed.

Lemma st_bind_unit_ok (m : ST Config string unit) (k : ST Config string unit) c c' :
  st_bind m (fun _ => k) c = (c', Ok tt) <-> exists c1, m c = (c1, Ok tt) /\ k c1 = (c', Ok tt).
Proof.
  unfold st_bind. destruct (m c) as [c1 [[]|e]]; split.
  - eauto.
  - by intros (c2 & [= <-] & H).
  - done.
  - by intros (c2 & [=] & _).
Qed.

(** All variables that are set are acceptable. *)
Definition env_all_valid : Prop :=
  env_valid "DS_SERVER__PORT" (env_int U16_MAX) /\
  env_valid "DS_SERVER__LONG_POLL_TIMEOUT_SECS" (env_int U64_MAX) /\
  env_valid "DS_SERVER__SSE_RECONNECT_INTERVAL_SECS" (env_int U64_MAX) /\
  env_valid "DS_LIMITS__MAX_MEMORY_BYTES" (env_int U64_MAX) /\
  env_valid "DS_LIMITS__MAX_STREAM_BYTES" (env_int U64_MAX) /\
  env_valid "DS_STORAGE__MODE" env_mode /\
  env_valid "DS_STORAGE__ACID_SHARD_COUNT" env_shards.

(** Every field is the variable's value, or stays. *)
Lemma apply_env_ok c c' :
  apply_env_overrides get c = (c', Ok tt) <->
  env_all_valid /\
  c' = mkConfig
    (default (cf_port c) (env_value "DS_SERVER__PORT" (env_int U16_MAX)))
    (default (cf_max_memory_bytes c) (env_value "DS_LIMITS__MAX_MEMORY_BYTES" (env_int U64_MAX)))
    (default (cf_max_stream_bytes c) (env_value "DS_LIMITS__MAX_STREAM_BYTES" (env_int U64_MAX)))
    (default (cf_cors_origins c) (env_value "DS_HTTP__CORS_ORIGINS" env_text))
    (default (cf_long_poll_timeout c) (env_value "DS_SERVER__LONG_POLL_TIMEOUT_SECS" (env_int U64_MAX)))
    (default (cf_sse_reconnect_interval_secs c)
       (env_value "DS_SERVER__SSE_RECONNECT_INTERVAL_SECS" (env_int U64_MAX)))
    (default (cf_storage_mode c) (env_value "DS_STORAGE__MODE" env_mode))
    (default (cf_data_dir c) (env_value "DS_STORAGE__DATA_DIR" env_text))
    (default (cf_acid_shard_count c) (env_value "DS_STORAGE__ACID_SHARD_COUNT" env_shards))
    (default (cf_tls_cert_path c) (env_value "DS_TLS__CERT_PATH" env_path))
    (default (cf_tls_key_path c) (env_value "DS_TLS__KEY_PATH" env_path))
    (default (cf_rust_log c) (env_value "DS_LOG__RUST_LOG" env_text)).
Proof.
  destruct c. unfold apply_env_overrides. repeat setoid_rewrite st_bind_unit_ok.
  repeat setoid_rewrite env_override_ok. unfold env_all_valid. split.
  - intros H. repeat match goal with
      | H : exists _, _ |- _ => destruct H as [? H] | H : _ /\ _ |- _ => destruct H end.
    subst. autorewrite with config. split; [split_and!; assumption|reflexivity].
  - intros [(H1 & H2 & H3 & H4 & H5 & H6 & H7) ->].
    repeat (eexists; split; [by split; [done|]|]). split; [done|]. by autorewrite with config.
Qed.
End Overrides.

(** ** Settings files *)

Definition mode_valid (o : option string) : Prop :=
  forall raw, o = Some raw -> is_Some (parse_storage_mode_value raw).
Definition shards_valid (o : option Z) : Prop := forall n, o = Some n -> valid_acid_shard_count n = true.

Definition mode_or (o : option string) : StorageMode :=
  default Memory (raw ← o; parse_storage_mode_value raw).

Lemma apply_file_ok s c :
  apply_file_settings s = Ok c <->
  mode_valid (sg_mode (sf_storage s)) /\ shards_valid (sg_acid_shard_count (sf_storage s)) /\
  c = mkConfig (default 4437 (sv_port (sf_server s)))
    (default (100 * 1024 * 1024) (lm_max_memory_bytes (sf_limits s)))
    (default (10 * 1024 * 1024) (lm_max_stream_bytes (sf_limits s)))
    (default "*" (ht_cors_origins (sf_http s)))
    (default 30 (sv_long_poll_timeout_secs (sf_server s)))
    (default 60 (sv_sse_reconnect_interval_secs (sf_server s)))
    (mode_or (sg_mode (sf_storage s)))
    (default "./data/streams" (sg_data_dir (sf_storage s)))
    (default 16 (sg_acid_shard_count (sf_storage s)))
    (tl_cert_path (sf_tls s)) (tl_key_path (sf_tls s))
    (default "info" (lg_rust_log (sf_log s))).
Proof.
  unfold apply_file_settings, Config_default. autorewrite with config.
  unfold mode_valid, shards_valid, mode_or.
  assert (forall o cc, result_bind (match o with
      | Some n => if valid_acid_shard_count n then Ok (set_acid_shard_count n cc)
                  else Err ("invalid storage.acid_shard_count value: " +:+ quote (u64_to_string n) +:+
                            " (must be power-of-two in 1..=256)")
      | None => Ok cc end) (fun cc => Ok (apply_some (lg_rust_log (sf_log s)) set_rust_log
        (set_tls_key_path (tl_key_path (sf_tls s)) (set_tls_cert_path (tl_cert_path (sf_tls s)) cc)))) = Ok c <->
      (forall n, o = Some n -> valid_acid_shard_count n = true) /\
      c = apply_some (lg_rust_log (sf_log s)) set_rust_log
        (set_tls_key_path (tl_key_path (sf_tls s)) (set_tls_cert_path (tl_cert_path (sf_tls s))
           (apply_some o set_acid_shard_count cc)))) as Hsh.
  { intros [n|] cc; cbn.
    - destruct (valid_acid_shard_count n) eqn:Hn; cbn; split.
      + intros [= <-]. split; [|done]. by intros ? [= <-].
      + by intros [_ ->].
      + done.
      + intros [Hv _]. specialize (Hv n eq_refl). congruence.
    - split; [intros [= <-]; done|by intros [_ ->]]. }
  destruct (sg_mode (sf_storage s)) as [raw|]; cbn [result_bind option_bind mbind].
  - destruct (parse_storage_mode_value raw) as [m|] eqn:Hm; cbn [result_bind].
    + cbn [set_storage_mode]. autorewrite with config. rewrite Hsh. autorewrite with config.
      cbn [set_tls_key_path set_tls_cert_path]. autorewrite with config. split.
      * intros [Hv ->]. split_and!; try done. intros ? [= <-]. by rewrite Hm.
      * intros (_ & Hv & ->). done.
    + split; [done|]. intros (Hv & _). specialize (Hv raw eq_refl). rewrite Hm in Hv. by destruct Hv.
  - autorewrite with config. rewrite Hsh. autorewrite with config.
    cbn [set_tls_key_path set_tls_cert_path]. autorewrite with config. split.
    + by intros [Hv ->].
    + by intros (_ & Hv & ->).
Qed.

(** ** Layers *)

Section Layers.
Context {C : ConfigLib} {L : ConfigLaws C}.

(** The value of the last layer that sets a field. *)
Definition latest {A} (sel : SettingsFile -> option A) (layers : list SettingsFile) : option A :=
  last (omap sel layers).

Definition merged (layers : list SettingsFile) : SettingsFile :=
  fold_left overlay layers SettingsFile_default.

Lemma latest_merged {A} (sel : SettingsFile -> option A) layers :
  sel SettingsFile_default = None -> (forall a b, sel (overlay a b) = over (sel b) (sel a)) ->
  sel (merged layers) = latest sel layers.
Proof.
  intros H0 Hov. unfold merged, latest. induction layers as [|s layers IH] using rev_ind; [done|].
  rewrite fold_left_app, omap_app, last_app. cbn [fold_left omap list_omap]. rewrite Hov.
  destruct (sel s); [done|]. cbn. rewrite IH. by destruct (last _).
Qed.

Lemma extract_merged files layers :
  Forall2 (fun f s => figment_extract [f] = Ok s) files layers ->
  figment_extract files = Ok (merged layers).
Proof using L.
  revert layers. induction files as [|f files IH] using rev_ind; intros layers Hall.
  - apply Forall2_nil_inv_l in Hall as ->. apply law_empty.
  - apply Forall2_app_inv_l in Hall as (l1 & l2 & H1 & H2 & ->).
    apply Forall2_cons_inv_l in H2 as (s & l3 & Hs & H3 & ->). apply Forall2_nil_inv_l in H3 as ->.
    unfold merged. rewrite fold_left_app. by apply law_merge; [apply IH|].
Qed.

(** Later layers win, field by field, and exactly the valid inputs are accepted.
    When each of the files present reads as settings, loading succeeds with [c] if and
    only if every variable that is set parses (and the shard count is valid), the last
    mode given in a file is known and the last shard count in a file is valid; and
    then each field of [c] is the value of its environment variable, or else of the
    last of [default.toml], the profile file, [local.toml] and the override file that
    sets it, or else the built-in default. *)
Theorem config_layering options get files layers c :
  config_layers options = Ok files ->
  Forall2 (fun f s => figment_extract [f] = Ok s) files layers ->
  let env {A} key (parse : string -> string -> Result string A) (below : A) :=
    default below (env_value get key parse) in
  let mode := latest (fun s => sg_mode (sf_storage s)) layers in
  let shards := latest (fun s => sg_acid_shard_count (sf_storage s)) layers in
  from_sources_with_lookup options get = Ok c <->
  env_all_valid get /\ mode_valid mode /\ shards_valid shards /\
  c = mkConfig
    (env "DS_SERVER__PORT" (env_int U16_MAX)
       (default 4437 (latest (fun s => sv_port (sf_server s)) layers)))
    (env "DS_LIMITS__MAX_MEMORY_BYTES" (env_int U64_MAX)
       (default (100 * 1024 * 1024) (latest (fun s => lm_max_memory_bytes (sf_limits s)) layers)))
    (env "DS_LIMITS__MAX_STREAM_BYTES" (env_int U64_MAX)
       (default (10 * 1024 * 1024) (latest (fun s => lm_max_stream_bytes (sf_limits s)) layers)))
    (env "DS_HTTP__CORS_ORIGINS" env_text (default "*" (latest (fun s => ht_cors_origins (sf_http s)) layers)))
    (env "DS_SERVER__LONG_POLL_TIMEOUT_SECS" (env_int U64_MAX)
       (default 30 (latest (fun s => sv_long_poll_timeout_secs (sf_server s)) layers)))
    (env "DS_SERVER__SSE_RECONNECT_INTERVAL_SECS" (env_int U64_MAX)
       (default 60 (latest (fun s => sv_sse_reconnect_interval_secs (sf_server s)) layers)))
    (env "DS_STORAGE__MODE" env_mode (mode_or mode))
    (env "DS_STORAGE__DATA_DIR" env_text
       (default "./data/streams" (latest (fun s => sg_data_dir (sf_storage s)) layers)))
    (env "DS_STORAGE__ACID_SHARD_COUNT" env_shards (default 16 shards))
    (env "DS_TLS__CERT_PATH" env_path (latest (fun s => tl_cert_path (sf_tls s)) layers))
    (env "DS_TLS__KEY_PATH" env_path (latest (fun s => tl_key_path (sf_tls s)) layers))
    (env "DS_LOG__RUST_LOG" env_text (default "info" (latest (fun s => lg_rust_log (sf_log s)) layers))).
Proof using L.
  intros Hfiles Hall env mode shards. unfold from_sources_with_lookup. rewrite Hfiles.
  cbn [result_bind]. rewrite (extract_merged _ _ Hall). cbn [result_bind].
  assert (forall (A : Type) (r : Result string A) (k : A -> Result string Config),
    result_bind r k = Ok c <-> exists a, r = Ok a /\ k a = Ok c) as Hbind.
  { intros A [a|e] k; cbn; split; [eauto|by intros (? & [= <-] & ?)|done|by intros (? & [=] & ?)]. }
  rewrite Hbind. setoid_rewrite apply_file_ok.
  unfold mode, shards. rewrite <- !latest_merged by done. cbv beta. split.
  - intros (c1 & (Hm & Hs & ->) & Hrun). destruct (apply_env_overrides get _) as [c2 [[]|e]] eqn:He; [|done].
    cbn in Hrun. injection Hrun as ->. apply apply_env_ok in He as [Hv ->]. done.
  - intros (Hv & Hm & Hs & ->). eexists. split; [by split_and!|].
    match goal with |- context [apply_env_overrides get ?c1] =>
      destruct (apply_env_overrides get c1) as [c2 r] eqn:He;
      assert (apply_env_overrides get c1 = (mkConfig _ _ _ _ _ _ _ _ _ _ _ _, Ok tt)) as He2
        by (by apply apply_env_ok)
    end.
    rewrite He in He2. by injection He2 as -> ->.
Qed.

(** ** Types *)

(** The ranges of the fields of [Config]. *)
Record config_wf (c : Config) : Prop := mkConfigWf {
  cw_port : 0 <= cf_port c <= U16_MAX;
  cw_memory : u64 (cf_max_memory_bytes c);
  cw_stream : u64 (cf_max_stream_bytes c);
  cw_long_poll : u64 (cf_long_poll_timeout c);
  cw_sse : u64 (cf_sse_reconnect_interval_secs c);
  cw_shards : cf_acid_shard_count c ∈ shard_counts
}.

Lemma env_int_within get key max d :
  0 <= d <= max -> 0 <= default d (env_value get key (env_int max)) <= max.
Proof.
  intros Hd. unfold env_value, env_int, parse_or. destruct (get key) as [v|]; [|done].
  destruct (parse_unsigned max v) as [n|] eqn:Hp; [|done]. cbn.
  apply parse_unsigned_range in Hp; lia.
Qed.

Lemma env_shards_valid get key d :
  d ∈ shard_counts -> default d (env_value get key env_shards) ∈ shard_counts.
Proof.
  intros Hd. unfold env_value, env_shards. destruct (get key) as [v|]; [|done].
  destruct (env_int U64_MAX key v) as [n|]; [|done]. cbn [result_bind].
  destruct (valid_acid_shard_count n) eqn:Hn; [|done]. by apply valid_shards.
Qed.

Lemma apply_env_wf get c c' :
  config_wf c -> apply_env_overrides get c = (c', Ok tt) -> config_wf c'.
Proof.
  intros [Hp Hm Hs Hl Hi Hsh] [_ ->]%apply_env_ok. unfold u64 in *.
  assert (forall z, 0 <= z <= U64_MAX -> 0 <= z < two64) as Hu by (unfold U64_MAX, two64; lia).
  assert (forall z, 0 <= z < two64 -> 0 <= z <= U64_MAX) as Hd by (unfold U64_MAX, two64; lia).
  split; cbn; [by apply env_int_within|..|by apply env_shards_valid];
    apply Hu, env_int_within; by apply Hd.
Qed.

Lemma default_wf : config_wf Config_default.
Proof. split; try by (vm_compute; split; intros). apply valid_shards. reflexivity. Qed.

Lemma config_wf_sources options get c : from_sources_with_lookup options get = Ok c -> config_wf c.
Proof using L.
  intros H. unfold from_sources_with_lookup in H. destruct (config_layers options) as [files|]; [|done].
  cbn [result_bind] in H. destruct (figment_extract files) as [s|] eqn:Hs; [|done].
  cbn [result_bind] in H. destruct (apply_file_settings s) as [c1|] eqn:Hc1; [|done].
  cbn [result_bind] in H. destruct (apply_env_overrides get c1) as [c2 [[]|]] eqn:He; [|done].
  injection H as ->. apply (apply_env_wf get c1); [|done].
  apply apply_file_ok in Hc1 as (_ & Hsh & ->). apply law_typed in Hs as [H1 H2 H3 H4 H5].
  assert (forall o d, within U64_MAX o -> u64 d -> u64 (default d o)) as Hw.
  { intros [v|] d Hv Hd; [|done]. specialize (Hv v eq_refl). unfold u64, U64_MAX, two64 in *. cbn. lia. }
  split; cbn; try (apply Hw; [done|unfold u64, two64; lia]).
  - destruct (sv_port (sf_server s)) as [v|]; [by apply H1|unfold U16_MAX; cbn; lia].
  - destruct (sg_acid_shard_count (sf_storage s)) as [n|]; [|apply valid_shards; reflexivity].
    by apply valid_shards, Hsh.
Qed.

(** C40: every configuration the server runs with is in the range of its types: the
    port is a [u16], the limits and times are [u64], and the shard count is a power of
    two up to 256, whatever the files and the environment contain; a value outside is
    an error and never truncated. *)
Theorem config_well_typed options get c :
  from_sources_with_lookup options get = Ok c \/ from_env get = Ok c -> config_wf c.
Proof using L.
  intros [H|H]; [by eapply config_wf_sources|].
  unfold from_env in H. destruct (apply_env_overrides get Config_default) as [c2 [[]|]] eqn:He; [|done].
  injection H as ->. eapply apply_env_wf; [apply default_wf|done].
Qed.
End Layers.

(** ** A configuration directory *)

Definition server_port (port : Z) : SettingsFile :=
  mkSettingsFile (mkServerSettings (Some port) None None) (mkLimitsSettings None None) (mkHttpSettings None)
    (mkStorageSettings None None None) (mkTlsSettings None None) (mkLogSettings None).
Definition dev_settings : SettingsFile :=
  mkSettingsFile (mkServerSettings (Some 7777) None None) (mkLimitsSettings None None) (mkHttpSettings None)
    (mkStorageSettings (Some "file-fast") (Some "/tmp/dev-store") None) (mkTlsSettings None None) (mkLogSettings None).

(** [default.toml], [dev.toml] and [local.toml], as in the tests of src/config.rs. *)
Definition demo_toml (path : string) : option SettingsFile :=
  if bool_decide (path = "config/default.toml") then Some (server_port 4437)
  else if bool_decide (path = "config/dev.toml") then Some dev_settings
  else if bool_decide (path = "config/local.toml") then Some (server_port 8888)
  else None.

#[global] Instance demo_config_lib : ConfigLib := {|
  is_file path := bool_decide (is_Some (demo_toml path));
  figment_extract files := match mapM demo_toml files with
                           | Some layers => Ok (merged layers)
                           | None => Err "file not found" end
|}.

Lemma demo_extract files s :
  figment_extract files = Ok s ->
  exists layers, Forall2 (fun f s => demo_toml f = Some s) files layers /\ s = merged layers.
Proof.
  cbn. destruct (mapM demo_toml files) as [layers|] eqn:Hm; [|done]. intros [= <-].
  exists layers. split; [|done]. by apply mapM_Some.
Qed.

Lemma demo_toml_typed f s : demo_toml f = Some s -> settings_typed s.
Proof.
  unfold demo_toml. repeat case_bool_decide; intros [= <-];
    (split; intros v [= <-]; unfold U16_MAX, U64_MAX; lia).
Qed.

Lemma overlay_default s : overlay SettingsFile_default s = s.
Proof.
  assert (forall A (o : option A), over o None = o) as Hov by by intros A [].
  destruct s as [[] [] [] [] [] []]. unfold overlay. cbn. by rewrite !Hov.
Qed.

#[global] Instance demo_config_laws : ConfigLaws demo_config_lib.
Proof.
  split.
  - reflexivity.
  - intros files file a b (l1 & H1 & ->)%demo_extract (l2 & H2 & ->)%demo_extract.
    apply Forall2_cons_inv_l in H2 as (s & l3 & Hs & H3 & ->). apply Forall2_nil_inv_l in H3 as ->.
    assert (mapM demo_toml (files ++ [file]) = Some (l1 ++ [s])) as Hm.
    { apply mapM_Some. apply Forall2_app; [done|]. by constructor. }
    cbn [figment_extract demo_config_lib]. rewrite Hm. f_equal. unfold merged.
    rewrite fold_left_app. cbn [fold_left]. by rewrite overlay_default.
  - intros files s (layers & Hall & ->)%demo_extract.
    assert (Forall settings_typed layers) as Ht.
    { eapply Forall2_Forall_r; [done|]. apply Forall_forall. intros f _ s. apply demo_toml_typed. }
    clear Hall. unfold merged. assert (settings_typed SettingsFile_default) as H0 by (split; by intros v [=]).
    revert H0. generalize SettingsFile_default. induction Ht as [|s l Hs Hl IH]; intros d Hd; [done|].
    cbn. apply IH. assert (forall max o o', within max o -> within max o' -> within max (over o o')) as Hov
      by (intros max [x|] o' Ho Ho'; done).
    destruct Hs, Hd. split; by apply Hov.
Qed.

Definition demo_env : string -> option string :=
  lookup_env [("DS_SERVER__PORT", "9999"); ("DS_LOG__RUST_LOG", "debug")].
Definition dev_options : ConfigLoadOptions := mkLoadOptions "config" "dev" None.

Definition dev_config : Config :=
  mkConfig 9999 104857600 10485760 "*" 30 60 FileFast "/tmp/dev-store" 16 None None "debug".

Lemma config_layering_witness : from_sources_with_lookup dev_options demo_env = Ok dev_config.
Proof.
  apply (config_layering dev_options demo_env
    ["config/default.toml"; "config/dev.toml"; "config/local.toml"]
    [merged [server_port 4437]; merged [dev_settings]; merged [server_port 8888]] dev_config).
  - vm_compute. reflexivity.
  - repeat constructor; vm_compute; reflexivity.
  - split; [|split; [|split]].
    + split_and!; intros v Hv; vm_compute in Hv; try discriminate Hv. injection Hv as <-.
      vm_compute. reflexivity.
    + intros raw Hr. vm_compute in Hr. injection Hr as <-. exists FileFast. vm_compute. reflexivity.
    + intros n Hn. vm_compute in Hn. discriminate Hn.
    + vm_compute. reflexivity.
Defined.

Lemma config_well_typed_witness : config_wf dev_config.
Proof. apply (config_well_typed dev_options demo_env). left. vm_compute. reflexivity. Defined.
