(* ===== verification/AcidStorage.v ===== *)
(** * AcidStorage: src/storage/acid.rs

    The transactional backend: streams are spread over shards by the hash of their
    name, each shard a [redb] database with a table of stream metadata and a table of
    messages keyed by name, sequence and byte offset. [redb], [seahash] and
    [serde_json] are parameters. Every call into [redb] or the file system can fail;
    a transaction that is dropped, or whose commit fails, leaves its database as it
    was. Error messages keep their fixed part. *)

From S2P Require Import Prelude Errors Offsets RustStd Headers StorageCore LogSpec Config.

(** ** Data *)

(** [LayoutManifest] *)
Record LayoutManifest : Type := mkLayout {
  ly_format_version : Z;
  ly_shard_count : Z;
  ly_hash_policy : string
}.

(** [StoredStreamMeta] *)
Record StoredStreamMeta : Type := mkStored {
  sd_config : StreamConfig;
  sd_closed : bool;
  sd_next_read_seq : Z;
  sd_next_byte_offset : Z;
  sd_total_bytes : Z;
  sd_created_at : Z;
  sd_last_seq : option string;
  sd_producers : gmap string ProducerState
}.

(** A position in a log: sequence and byte offset. *)
Abbreviation Position := (Z * Z)%type.

(** The tables of a shard as [redb] offers them ([get], [insert], [remove], [iter], and
    [range] from a position of a stream to its end), [seahash::hash], and [serde_json]
    on the two stored types. *)
Class AcidLib : Type := {
  StreamsTable : Type;
  streams_new : StreamsTable;
  streams_get : StreamsTable -> string -> option bytes;
  streams_insert : StreamsTable -> string -> bytes -> StreamsTable;
  streams_remove : StreamsTable -> string -> StreamsTable;
  streams_iter : StreamsTable -> list (string * bytes);
  MessagesTable : Type;
  messages_new : MessagesTable;
  messages_get : MessagesTable -> string -> Position -> option bytes;
  messages_insert : MessagesTable -> string -> Position -> bytes -> MessagesTable;
  messages_remove : MessagesTable -> string -> Position -> MessagesTable;
  messages_range : MessagesTable -> string -> Position -> list (Position * bytes);
  seahash : bytes -> Z;
  stored_to_vec : StoredStreamMeta -> option bytes;
  stored_from_slice : bytes -> option StoredStreamMeta;
  layout_to_vec : LayoutManifest -> option bytes;
  layout_from_slice : bytes -> option LayoutManifest
}.

Definition LAYOUT_FORMAT_VERSION : Z := 1.
Definition HASH_POLICY : string := "seahash-v1".

(** ** Failing calls *)

(** The commits, by the operation they end. *)
Inductive CommitOf := OfSchema | OfCleanup | OfCreate | OfAppend | OfBatch | OfDelete | OfClose
  | OfProducer | OfCreateWithData.

(** What a failing commit reports. *)
Definition commit_context (c : CommitOf) : string :=
  match c with
  | OfSchema => "failed to commit schema initialization"
  | OfCleanup => "failed to commit startup cleanup"
  | OfCreate => "failed to commit create stream"
  | OfAppend => "failed to commit append"
  | OfBatch => "failed to commit batch append"
  | OfDelete => "failed to commit delete"
  | OfClose => "failed to commit close stream"
  | OfProducer => "failed to commit producer append"
  | OfCreateWithData => "failed to commit create stream with data"
  end.

(** The call sites that can fail. *)
Inductive AcidSite :=
  | CreateAcidDir | StatLayout | ReadLayout | WriteLayout | RenameLayout | OpenShard
  | BeginWrite | SetDurability | BeginRead | OpenStreams | OpenMessages
  | GetMeta | PutMeta | RemoveMeta | IterMeta | IterMetaItem
  | InsertMessage (read_seq : Z) | RangeMessages | RangeItem | RemoveMessage
  | Commit (c : CommitOf).

Abbreviation AcidIo := (AcidSite -> bool).
Definition acid_ok : AcidIo := fun _ => false.

(** How the body of a write transaction ends: it commits and returns, or it returns
    without committing. *)
Inductive TxnEnd (R : Type) := TxnCommit (r : R) | TxnDrop (r : R).
Arguments TxnCommit {R} r.
Arguments TxnDrop {R} r.

Section Acid.
Context {A : AcidLib}.

(** [AcidShard] with the committed contents of its database. *)
Record Shard : Type := mkShard { sh_streams : StreamsTable; sh_messages : MessagesTable }.
Definition new_shard : Shard := mkShard streams_new messages_new.

(** [AcidStorage]; a sender of [notifiers] is the number of notifications sent. *)
Record AcidStorage : Type := mkAcid {
  ac_shards : list Shard;
  ac_shard_count : Z;
  ac_total_bytes : Z;
  ac_max_total_bytes : Z;
  ac_max_stream_bytes : Z;
  ac_notifiers : gmap string Z
}.

Definition set_total (st : AcidStorage) (n : Z) : AcidStorage :=
  mkAcid (ac_shards st) (ac_shard_count st) n (ac_max_total_bytes st) (ac_max_stream_bytes st)
    (ac_notifiers st).
Definition set_shards (st : AcidStorage) (shards : list Shard) : AcidStorage :=
  mkAcid shards (ac_shard_count st) (ac_total_bytes st) (ac_max_total_bytes st)
    (ac_max_stream_bytes st) (ac_notifiers st).
Definition set_notifiers (st : AcidStorage) (n : gmap string Z) : AcidStorage :=
  mkAcid (ac_shards st) (ac_shard_count st) (ac_total_bytes st) (ac_max_total_bytes st)
    (ac_max_stream_bytes st) n.

(** Field updates of the metadata. *)
Definition sd_close (m : StoredStreamMeta) : StoredStreamMeta :=
  mkStored (sd_config m) true (sd_next_read_seq m) (sd_next_byte_offset m) (sd_total_bytes m)
    (sd_created_at m) (sd_last_seq m) (sd_producers m).
Definition sd_set_last_seq (m : StoredStreamMeta) (s : option string) : StoredStreamMeta :=
  mkStored (sd_config m) (sd_closed m) (sd_next_read_seq m) (sd_next_byte_offset m)
    (sd_total_bytes m) (sd_created_at m) s (sd_producers m).
Definition sd_set_producers (m : StoredStreamMeta) (p : gmap string ProducerState)
  : StoredStreamMeta :=
  mkStored (sd_config m) (sd_closed m) (sd_next_read_seq m) (sd_next_byte_offset m)
    (sd_total_bytes m) (sd_created_at m) (sd_last_seq m) p.
(** The counters after one more message of [len] bytes. *)
Definition sd_advance (m : StoredStreamMeta) (len : Z) : StoredStreamMeta :=
  mkStored (sd_config m) (sd_closed m) (add64 (sd_next_read_seq m) 1)
    (add64 (sd_next_byte_offset m) len) (add64 (sd_total_bytes m) len) (sd_created_at m)
    (sd_last_seq m) (sd_producers m).

Definition sd_next_offset (m : StoredStreamMeta) : Offset :=
  Offset_new (sd_next_read_seq m) (sd_next_byte_offset m).

(** [new_stream_meta]; [now] is its [Utc::now()]. *)
Definition new_stream_meta (now : Z) (config : StreamConfig) : StoredStreamMeta :=
  mkStored config false 0 0 0 now None ∅.

(** [batch_bytes] *)
Definition acid_batch_bytes (messages : list bytes) : Z :=
  fold_left (fun acc m => add64 acc (len_u64 m)) messages 0.

(** ** Byte accounting *)

(** The [fetch_update] of [reserve_total_bytes] on the counter. *)
Definition reserve_counter (max_total_bytes bytes current : Z) : Result Error Z :=
  if bytes =? 0 then Ok current
  else
    match checked_add64 current bytes with
    | Some next => if next <=? max_total_bytes then Ok next else Err MemoryLimitExceeded
    | None => Err MemoryLimitExceeded
    end.

(** [reserve_total_bytes] *)
Definition reserve_total_bytes (bytes : Z) : ST AcidStorage Error unit :=
  fun st =>
    match reserve_counter (ac_max_total_bytes st) bytes (ac_total_bytes st) with
    | Ok next => (set_total st next, Ok tt)
    | Err e => (st, Err e)
    end.

(** [saturating_sub_total_bytes], which is also [rollback_total_bytes]. *)
Definition acid_sub_total (bytes : Z) (st : AcidStorage) : AcidStorage :=
  if bytes =? 0 then st else set_total st (saturating_sub64 (ac_total_bytes st) bytes).

(** ** Notifiers *)

(** [notifier_sender(name).subscribe()] *)
Definition notifier_subscribe (name : string) (st : AcidStorage) : AcidStorage * Receiver :=
  match ac_notifiers st !! name with
  | Some n => (st, n)
  | None => (set_notifiers st (<[name := 0]> (ac_notifiers st)), 0)
  end.
(** [notify_stream] *)
Definition notify_stream (name : string) (st : AcidStorage) : AcidStorage :=
  match ac_notifiers st !! name with
  | Some n => set_notifiers st (<[name := n + 1]> (ac_notifiers st))
  | None => st
  end.
(** [drop_notifier] *)
Definition drop_notifier (name : string) (st : AcidStorage) : AcidStorage :=
  set_notifiers st (delete name (ac_notifiers st)).

(** ** Shards and transactions *)

(** [shard_index]; [usize] is 64 bits wide. *)
Definition shard_index (st : AcidStorage) (name : string) : nat :=
  Z.to_nat (Z.land (seahash (as_bytes name)) (ac_shard_count st - 1)).

(** [shard] *)
Definition shard (st : AcidStorage) (name : string) : Shard :=
  default new_shard (ac_shards st !! shard_index st name).

Definition fail_if (b : bool) (message : string) : ST Shard Error unit :=
  throw_if b (StorageError message).

(** [begin_write_txn], the body, and [txn.commit()]; [restore old new] is what an
    aborted transaction leaves of the state. *)
Definition write_txn {T R} (restore : T -> T -> T) (io : AcidIo) (c : CommitOf)
    (body : ST T Error (TxnEnd R)) : ST T Error R :=
  fun t =>
    if io BeginWrite then (t, Err (StorageError "failed to begin write transaction"))
    else if io SetDurability then (t, Err (StorageError "failed to set write durability"))
    else
      let '(t', r) := body t in
      match r with
      | Err e => (restore t t', Err e)
      | Ok (TxnDrop x) => (restore t t', Ok x)
      | Ok (TxnCommit x) =>
          if io (Commit c) then (restore t t', Err (StorageError (commit_context c)))
          else (t', Ok x)
      end.

(** A transaction that touches nothing but its shard. *)
Definition shard_txn {R} : AcidIo -> CommitOf -> ST Shard Error (TxnEnd R) -> ST Shard Error R :=
  write_txn (fun old _ => old).

Definition open_streams (io : AcidIo) : ST Shard Error unit :=
  fail_if (io OpenStreams) "failed to open streams table".
Definition open_messages (io : AcidIo) : ST Shard Error unit :=
  fail_if (io OpenMessages) "failed to open messages table".

(** [read_stream_meta] *)
Definition read_stream_meta (io : AcidIo) (name : string) (streams : StreamsTable)
  : Result Error (option StoredStreamMeta) :=
  if io GetMeta then Err (StorageError "failed to read stream metadata")
  else
    match streams_get streams name with
    | None => Ok None
    | Some payload =>
        match stored_from_slice payload with
        | Some meta => Ok (Some meta)
        | None => Err (StorageError "failed to parse stream metadata")
        end
    end.
Definition get_meta (io : AcidIo) (name : string) : ST Shard Error (option StoredStreamMeta) :=
  fun sh => (sh, read_stream_meta io name (sh_streams sh)).
(** [read_stream_meta(..)?.ok_or_else(|| Error::NotFound(..))?] *)
Definition find_meta (io : AcidIo) (name : string) : ST Shard Error StoredStreamMeta :=
  let* found := get_meta io name in st_lift (ok_or found (NotFound name)).

(** [write_stream_meta] *)
Definition write_stream_meta (io : AcidIo) (name : string) (meta : StoredStreamMeta)
  : ST Shard Error unit :=
  fun sh =>
    match stored_to_vec meta with
    | None => (sh, Err (StorageError "failed to serialize stream metadata"))
    | Some payload =>
        if io PutMeta then (sh, Err (StorageError "failed to write stream metadata"))
        else (mkShard (streams_insert (sh_streams sh) name payload) (sh_messages sh), Ok tt)
    end.

Definition remove_meta (io : AcidIo) (context name : string) : ST Shard Error unit :=
  fun sh =>
    if io RemoveMeta then (sh, Err (StorageError context))
    else (mkShard (streams_remove (sh_streams sh) name) (sh_messages sh), Ok tt).

(** [delete_stream_messages]: the keys first, then the removals. *)
Definition delete_stream_messages (io : AcidIo) (name : string) : ST Shard Error unit :=
  fun sh =>
    if io RangeMessages then (sh, Err (StorageError "failed to iterate stream messages"))
    else
      let keys := (messages_range (sh_messages sh) name (0, 0)).*1 in
      match keys with
      | [] => (sh, Ok tt)
      | _ :: _ =>
          if io RangeItem then (sh, Err (StorageError "failed to read message key"))
          else if io RemoveMessage then (sh, Err (StorageError "failed to delete message"))
          else (mkShard (sh_streams sh)
                  (fold_left (fun t k => messages_remove t name k) keys (sh_messages sh)), Ok tt)
      end.

(** The loop that inserts a batch and advances the metadata. *)
Fixpoint insert_messages (io : AcidIo) (context name : string) (messages : list bytes)
    (meta : StoredStreamMeta) : ST Shard Error StoredStreamMeta :=
  match messages with
  | [] => st_ret meta
  | data :: rest =>
      fun sh =>
        if io (InsertMessage (sd_next_read_seq meta)) then
          (sh, Err (StorageError context))
        else
          insert_messages io context name rest (sd_advance meta (len_u64 data))
            (mkShard (sh_streams sh)
               (messages_insert (sh_messages sh) name
                  (sd_next_read_seq meta, sd_next_byte_offset meta) data))
  end.

(** Run a transaction on the shard of a stream. *)
Definition on_shard {R} (name : string) (txn : ST Shard Error R) : ST AcidStorage Error R :=
  fun st =>
    let '(sh, r) := txn (shard st name) in
    (set_shards st (<[shard_index st name := sh]> (ac_shards st)), r).

(** ** Methods *)

(** The transaction of [create_stream]: the bytes of an expired stream it removed. *)
Definition create_txn (io : AcidIo) (clk : Clock) (name : string) (config : StreamConfig)
  : ST Shard Error (CreateStreamResult * Z) :=
  shard_txn io OfCreate
    (let* _ := open_streams io in
     let* _ := open_messages io in
     let* found := get_meta io name in
     let create removed :=
       let* _ := write_stream_meta io name (new_stream_meta (clk 1%nat) config) in
       st_ret (TxnCommit (StreamCreated, removed)) in
     match found with
     | Some existing =>
         if is_stream_expired (clk 0%nat) (sd_config existing) then
           let* _ := delete_stream_messages io name in
           let* _ := remove_meta io "failed to remove expired stream" name in
           create (sd_total_bytes existing)
         else if config_eq (sd_config existing) config then
           st_ret (TxnDrop (StreamAlreadyExists, 0))
         else st_fail ConfigMismatch
     | None => create 0
     end).

(** [if removed_expired_bytes > 0 { .. }] after a commit. *)
Definition release_expired (name : string) (removed : Z) (st : AcidStorage) : AcidStorage :=
  if 0 <? removed then drop_notifier name (acid_sub_total removed st) else st.

(** [Storage::create_stream] *)
Definition acid_create_stream (io : AcidIo) (clk : Clock) (name : string) (config : StreamConfig)
  : ST AcidStorage Error CreateStreamResult :=
  fun st =>
    let '(st, r) := on_shard name (create_txn io clk name config) st in
    match r with
    | Err e => (st, Err e)
    | Ok (result, removed) => (release_expired name removed st, Ok result)
    end.

(** The checks of the appends on an existing stream. *)
Definition check_appendable (clk : Clock) (ct : string) (meta : StoredStreamMeta)
  : ST Shard Error unit :=
  let* _ := throw_if (is_stream_expired (clk 0%nat) (sd_config meta)) StreamExpired in
  let* _ := throw_if (sd_closed meta) StreamClosed in
  st_lift (validate_content_type (content_type (sd_config meta)) ct).

Definition check_stream_limit (max_stream_bytes bytes : Z) (meta : StoredStreamMeta)
  : ST Shard Error unit :=
  throw_if (max_stream_bytes <? add64 (sd_total_bytes meta) bytes) StreamSizeLimitExceeded.

(** The transaction of [append]. *)
Definition append_txn (io : AcidIo) (clk : Clock) (max_stream_bytes : Z) (name : string)
    (data : bytes) (ct : string) : ST Shard Error Offset :=
  shard_txn io OfAppend
    (let* _ := open_streams io in
     let* _ := open_messages io in
     let* meta := find_meta io name in
     let* _ := check_appendable clk ct meta in
     let* _ := check_stream_limit max_stream_bytes (len_u64 data) meta in
     let offset := sd_next_offset meta in
     let* meta := insert_messages io "failed to append message" name [data] meta in
     let* _ := write_stream_meta io name meta in
     st_ret (TxnCommit offset)).

(** The transaction of [batch_append]. *)
Definition batch_txn (io : AcidIo) (clk : Clock) (max_stream_bytes : Z) (name : string)
    (messages : list bytes) (batch_bytes : Z) (ct : string) (seq : option string)
  : ST Shard Error Offset :=
  shard_txn io OfBatch
    (let* _ := open_streams io in
     let* _ := open_messages io in
     let* meta := find_meta io name in
     let* _ := check_appendable clk ct meta in
     let* pending_seq := st_lift (validate_seq (sd_last_seq meta) seq) in
     let* _ := check_stream_limit max_stream_bytes batch_bytes meta in
     let* meta := insert_messages io "failed to append batch message" name messages meta in
     let meta := match pending_seq with
                 | Some new_seq => sd_set_last_seq meta (Some new_seq)
                 | None => meta
                 end in
     let* _ := write_stream_meta io name meta in
     st_ret (TxnCommit (sd_next_offset meta))).

(** The reservation around the transaction of an append: [undo] says whether the
    result gives the reserved bytes back, [ring] whether it notifies. *)
Definition with_reservation {R} (name : string) (bytes : Z) (undo ring : Result Error R -> bool)
    (txn : Z -> ST Shard Error R) : ST AcidStorage Error R :=
  fun st =>
    let '(st, r) := reserve_total_bytes bytes st in
    match r with
    | Err e => (st, Err e)
    | Ok _ =>
        let '(st, r) := on_shard name (txn (ac_max_stream_bytes st)) st in
        let st := if undo r then acid_sub_total bytes st else st in
        (if ring r then notify_stream name st else st, r)
    end.

(** [Storage::append] *)
Definition acid_append (io : AcidIo) (clk : Clock) (name : string) (data : bytes) (ct : string)
  : ST AcidStorage Error Offset :=
  with_reservation name (len_u64 data) (fun r => negb (is_ok r)) is_ok
    (fun max => append_txn io clk max name data ct).

(** [Storage::batch_append] *)
Definition acid_batch_append (io : AcidIo) (clk : Clock) (name : string) (messages : list bytes)
    (ct : string) (seq : option string) : ST AcidStorage Error Offset :=
  match messages with
  | [] => st_fail (InvalidHeader "Content-Length" "batch cannot be empty")
  | _ :: _ =>
      let batch_bytes := acid_batch_bytes messages in
      with_reservation name batch_bytes (fun r => negb (is_ok r)) is_ok
        (fun max => batch_txn io clk max name messages batch_bytes ct seq)
  end.

(** [range(start..=(name, MAX, MAX))] as [read] consumes it. *)
Definition read_range_messages (io : AcidIo) (name : string) (start : Position)
    (messages : MessagesTable) : Result Error (list bytes) :=
  if io RangeMessages then Err (StorageError "failed to read stream range")
  else
    match messages_range messages name start with
    | [] => Ok []
    | items => if io RangeItem then Err (StorageError "failed to read stream message")
               else Ok items.*2
    end.

(** The start of a read transaction, up to the tables. *)
Definition begin_read (io : AcidIo) : Result Error unit :=
  if io BeginRead then Err (StorageError "failed to begin read transaction")
  else if io OpenStreams then Err (StorageError "failed to open streams table")
  else Ok tt.

Definition find_live (io : AcidIo) (clk : Clock) (name : string) (sh : Shard)
  : Result Error StoredStreamMeta :=
  let? found := read_stream_meta io name (sh_streams sh) in
  let? meta := ok_or found (NotFound name) in
  if is_stream_expired (clk 0%nat) (sd_config meta) then Err StreamExpired else Ok meta.

(** [Storage::read] *)
Definition acid_read (io : AcidIo) (clk : Clock) (name : string) (from_offset : Offset)
    (st : AcidStorage) : Result Error ReadResult :=
  let sh := shard st name in
  let? _ := begin_read io in
  let? _ := (if io OpenMessages then Err (StorageError "failed to open messages table") else Ok tt) in
  let? meta := find_live io clk name sh in
  if is_now from_offset then Ok (mkReadResult [] (sd_next_offset meta) true (sd_closed meta))
  else
    let? start := (if is_start from_offset then Ok (0, 0)
                   else ok_or (parse_components from_offset)
                          (InvalidOffset "non-concrete offset in read range")) in
    let? messages := read_range_messages io name start (sh_messages sh) in
    Ok (mkReadResult messages (sd_next_offset meta) true (sd_closed meta)).

(** The transaction of [delete]: the bytes it removed. *)
Definition delete_txn (io : AcidIo) (name : string) : ST Shard Error Z :=
  shard_txn io OfDelete
    (let* _ := open_streams io in
     let* _ := open_messages io in
     let* meta := find_meta io name in
     let* _ := delete_stream_messages io name in
     let* _ := remove_meta io "failed to remove stream metadata" name in
     st_ret (TxnCommit (sd_total_bytes meta))).

(** [Storage::delete] *)
Definition acid_delete (io : AcidIo) (name : string) : ST AcidStorage Error unit :=
  fun st =>
    let '(st, r) := on_shard name (delete_txn io name) st in
    match r with
    | Err e => (st, Err e)
    | Ok removed => (drop_notifier name (acid_sub_total removed st), Ok tt)
    end.

(** [Storage::head] *)
Definition acid_head (io : AcidIo) (clk : Clock) (name : string) (st : AcidStorage)
  : Result Error StreamMetadata :=
  let? _ := begin_read io in
  let? meta := find_live io clk name (shard st name) in
  Ok (mkStreamMetadata (sd_config meta) (sd_next_offset meta) (sd_closed meta)
        (sd_total_bytes meta) (sd_next_read_seq meta) (sd_created_at meta)).

(** [Storage::close_stream] *)
Definition close_txn (io : AcidIo) (clk : Clock) (name : string) : ST Shard Error unit :=
  shard_txn io OfClose
    (let* _ := open_streams io in
     let* meta := find_meta io name in
     let* _ := throw_if (is_stream_expired (clk 0%nat) (sd_config meta)) StreamExpired in
     let* _ := write_stream_meta io name (sd_close meta) in
     st_ret (TxnCommit tt)).
Definition acid_close_stream (io : AcidIo) (clk : Clock) (name : string)
  : ST AcidStorage Error unit :=
  fun st =>
    let '(st, r) := on_shard name (close_txn io clk name) st in
    match r with Err e => (st, Err e) | Ok _ => (notify_stream name st, Ok tt) end.

(** The accepting branch of [append_with_producer]. *)
Definition acid_producer_commit (io : AcidIo) (now max_stream_bytes : Z) (name : string)
    (messages : list bytes) (batch_bytes : Z) (producer : ProducerHeaders) (should_close : bool)
    (pending_seq : option string) (meta : StoredStreamMeta)
  : ST Shard Error (TxnEnd ProducerAppendResult) :=
  let* _ := check_stream_limit max_stream_bytes batch_bytes meta in
  let* meta := insert_messages io "failed to append producer message" name messages meta in
  let meta := match pending_seq with
              | Some new_seq => sd_set_last_seq meta (Some new_seq)
              | None => meta
              end in
  let meta := if should_close then sd_close meta else meta in
  let meta := sd_set_producers meta
                (<[ph_id producer := mkProducerState (ph_epoch producer) (ph_seq producer) now]>
                   (sd_producers meta)) in
  let* _ := write_stream_meta io name meta in
  st_ret (TxnCommit (Accepted (ph_epoch producer) (ph_seq producer) (sd_next_offset meta)
                       (sd_closed meta))).

(** The transaction of [append_with_producer]; a duplicate returns without commit. *)
Definition producer_txn (io : AcidIo) (clk : Clock) (max_stream_bytes : Z) (name : string)
    (messages : list bytes) (batch_bytes : Z) (ct : string) (producer : ProducerHeaders)
    (should_close : bool) (seq : option string) : ST Shard Error ProducerAppendResult :=
  shard_txn io OfProducer
    (let* _ := open_streams io in
     let* _ := open_messages io in
     let* meta := find_meta io name in
     let* _ := throw_if (is_stream_expired (clk 0%nat) (sd_config meta)) StreamExpired in
     let meta := sd_set_producers meta
                   (cleanup_stale_producers (clk 1%nat) (sd_producers meta)) in
     let* _ := match messages with
               | [] => st_ret tt
               | _ :: _ => st_lift (validate_content_type (content_type (sd_config meta)) ct)
               end in
     let* check := st_lift (check_producer (sd_producers meta !! ph_id producer) producer
                              (sd_closed meta)) in
     match check with
     | CheckDuplicate epoch seq =>
         st_ret (TxnDrop (Duplicate epoch seq (sd_next_offset meta) (sd_closed meta)))
     | CheckAccept =>
         let* pending_seq := st_lift (validate_seq (sd_last_seq meta) seq) in
         acid_producer_commit io (clk 2%nat) max_stream_bytes name messages batch_bytes producer
           should_close pending_seq meta
     end).

(** [Storage::append_with_producer] *)
Definition acid_append_with_producer (io : AcidIo) (clk : Clock) (name : string)
    (messages : list bytes) (ct : string) (producer : ProducerHeaders) (should_close : bool)
    (seq : option string) : ST AcidStorage Error ProducerAppendResult :=
  let batch_bytes := acid_batch_bytes messages in
  with_reservation name batch_bytes
    (fun r => match r with Err _ | Ok (Duplicate _ _ _ _) => true | Ok _ => false end)
    (fun r => is_ok r && (negb (bool_decide (messages = [])) || should_close))
    (fun max => producer_txn io clk max name messages batch_bytes ct producer should_close seq).

(** The closure of [create_stream_with_data] works on the shard, on the counter, and on
    the variables [reserved] and [removed_expired_bytes] it captures. *)
Record Txn : Type := mkTxn {
  tx_shard : Shard;
  tx_total : Z;
  tx_reserved : bool;
  tx_removed : Z
}.
Definition tx_restore (old new : Txn) : Txn :=
  mkTxn (tx_shard old) (tx_total new) (tx_reserved new) (tx_removed new).
Definition tx_on {R} (c : ST Shard Error R) : ST Txn Error R :=
  fun t => let '(sh, r) := c (tx_shard t) in
           (mkTxn sh (tx_total t) (tx_reserved t) (tx_removed t), r).
Definition tx_set_removed (n : Z) : ST Txn Error unit :=
  fun t => (mkTxn (tx_shard t) (tx_total t) (tx_reserved t) n, Ok tt).
(** [self.reserve_total_bytes(batch_bytes)?; reserved = true;] *)
Definition tx_reserve (max_total_bytes bytes : Z) : ST Txn Error unit :=
  fun t =>
    match reserve_counter max_total_bytes bytes (tx_total t) with
    | Ok next => (mkTxn (tx_shard t) next true (tx_removed t), Ok tt)
    | Err e => (t, Err e)
    end.

(** The new stream: its messages, its flag and its metadata. *)
Definition fill_new (io : AcidIo) (clk : Clock) (max_stream_bytes : Z) (name : string)
    (config : StreamConfig) (messages : list bytes) (batch_bytes : Z) (should_close : bool)
  : ST Shard Error (TxnEnd CreateWithDataResult) :=
  let meta := new_stream_meta (clk 1%nat) config in
  let* meta := (if 0 <? batch_bytes then
                  let* _ := check_stream_limit max_stream_bytes batch_bytes meta in
                  insert_messages io "failed to append create-with-data message" name messages meta
                else st_ret meta) in
  let meta := if should_close then sd_close meta else meta in
  let* _ := write_stream_meta io name meta in
  st_ret (TxnCommit (mkCreateWithData StreamCreated (sd_next_offset meta) (sd_closed meta))).

(** The part of the closure after the lookup. *)
Definition reserve_and_fill (io : AcidIo) (clk : Clock) (max_total_bytes max_stream_bytes : Z)
    (name : string) (config : StreamConfig) (messages : list bytes) (batch_bytes : Z)
    (should_close : bool) : ST Txn Error (TxnEnd CreateWithDataResult) :=
  let* _ := (if 0 <? batch_bytes then tx_reserve max_total_bytes batch_bytes else st_ret tt) in
  tx_on (fill_new io clk max_stream_bytes name config messages batch_bytes should_close).

(** The closure of [create_stream_with_data]. *)
Definition create_with_data_txn (io : AcidIo) (clk : Clock) (max_total_bytes max_stream_bytes : Z)
    (name : string) (config : StreamConfig) (messages : list bytes) (batch_bytes : Z)
    (should_close : bool) : ST Txn Error CreateWithDataResult :=
  write_txn tx_restore io OfCreateWithData
    (let* _ := tx_on (open_streams io) in
     let* _ := tx_on (open_messages io) in
     let* found := tx_on (get_meta io name) in
     let create := reserve_and_fill io clk max_total_bytes max_stream_bytes name config messages
                     batch_bytes should_close in
     match found with
     | Some existing =>
         if is_stream_expired (clk 0%nat) (sd_config existing) then
           let* _ := tx_set_removed (sd_total_bytes existing) in
           let* _ := tx_on (delete_stream_messages io name) in
           let* _ := tx_on (remove_meta io "failed to remove expired stream" name) in
           create
         else if config_eq (sd_config existing) config then
           st_ret (TxnDrop (mkCreateWithData StreamAlreadyExists (sd_next_offset existing)
                              (sd_closed existing)))
         else st_fail ConfigMismatch
     | None => create
     end).

(** [Storage::create_stream_with_data] *)
Definition acid_create_stream_with_data (io : AcidIo) (clk : Clock) (name : string)
    (config : StreamConfig) (messages : list bytes) (should_close : bool)
  : ST AcidStorage Error CreateWithDataResult :=
  fun st =>
    let batch_bytes := acid_batch_bytes messages in
    let '(t, r) := create_with_data_txn io clk (ac_max_total_bytes st) (ac_max_stream_bytes st)
                     name config messages batch_bytes should_close
                     (mkTxn (shard st name) (ac_total_bytes st) false 0) in
    let st := set_total (set_shards st (<[shard_index st name := tx_shard t]> (ac_shards st)))
                (tx_total t) in
    match r with
    | Err e => ((if tx_reserved t then acid_sub_total batch_bytes st else st), Err e)
    | Ok result =>
        let st := release_expired name (tx_removed t) st in
        ((if should_close || negb (bool_decide (messages = [])) then notify_stream name st
          else st), Ok result)
    end.

(** [Storage::exists] *)
Definition acid_exists (io : AcidIo) (clk : Clock) (name : string) (st : AcidStorage) : bool :=
  is_ok (let? _ := begin_read io in find_live io clk name (shard st name)).

(** [Storage::subscribe] *)
Definition acid_subscribe (io : AcidIo) (clk : Clock) (name : string) (st : AcidStorage)
  : AcidStorage * option Receiver :=
  if acid_exists io clk name st then
    let '(st, rx) := notifier_subscribe name st in (st, Some rx)
  else (st, None).

(** ** Start-up *)

(** The [acid] directory: the layout file and the databases by file name. The
    temporary layout file is written and renamed but never read. *)
Record AcidDisk : Type := mkAcidDisk {
  dk_layout : option bytes;
  dk_shards : gmap string Shard
}.

(** [format!("shard_{idx:02x}.redb")] for [idx < 256] *)
Definition shard_file (idx : nat) : string :=
  "shard_" +:+ of_bytes [hex_digit (Z.of_nat idx / 16); hex_digit (Z.of_nat idx mod 16)] +:+ ".redb".

(** [validate_shard_count] *)
Definition validate_shard_count (shard_count : Z) : Result Error unit :=
  if negb ((1 <=? shard_count) && (shard_count <=? 256)) then
    Err (StorageError "acid shard count must be in range 1..=256")
  else if negb (is_power_of_two shard_count) then
    Err (StorageError "acid shard count must be a power of two")
  else Ok tt.

(** The checks of [load_or_create_layout] on an existing layout. *)
Definition check_layout (shard_count : Z) (manifest : LayoutManifest) : Result Error unit :=
  if negb (ly_format_version manifest =? LAYOUT_FORMAT_VERSION) then
    Err (StorageError "acid layout mismatch: format_version")
  else if negb (ly_shard_count manifest =? shard_count) then
    Err (StorageError "acid layout mismatch: shard_count")
  else if negb (bool_decide (ly_hash_policy manifest = HASH_POLICY)) then
    Err (StorageError "acid layout mismatch: hash_policy")
  else Ok tt.

(** [load_or_create_layout]; [exists()] is false when the file cannot be examined. *)
Definition load_or_create_layout (io : AcidIo) (shard_count : Z) : ST AcidDisk Error unit :=
  fun dk =>
    match (if io StatLayout then None else dk_layout dk) with
    | Some payload =>
        if io ReadLayout then (dk, Err (StorageError "failed to read acid layout file"))
        else
          match layout_from_slice payload with
          | None => (dk, Err (StorageError "failed to parse acid layout file"))
          | Some manifest => (dk, check_layout shard_count manifest)
          end
    | None =>
        match layout_to_vec (mkLayout LAYOUT_FORMAT_VERSION shard_count HASH_POLICY) with
        | None => (dk, Err (StorageError "failed to serialize acid layout manifest"))
        | Some payload =>
            if io WriteLayout then (dk, Err (StorageError "failed to write temp layout file"))
            else if io RenameLayout then (dk, Err (StorageError "failed to write layout file"))
            else (mkAcidDisk (Some payload) (dk_shards dk), Ok tt)
        end
    end.

(** Run a computation on the database in shard file [idx], which is created empty if
    there is none. *)
Definition on_db {R} (idx : nat) (c : ST Shard Error R) : ST AcidDisk Error R :=
  fun dk =>
    let '(sh, r) := c (default new_shard (dk_shards dk !! shard_file idx)) in
    (mkAcidDisk (dk_layout dk) (<[shard_file idx := sh]> (dk_shards dk)), r).

(** [ensure_schema] *)
Definition ensure_schema (io : AcidIo) : ST Shard Error unit :=
  shard_txn io OfSchema
    (let* _ := fail_if (io OpenStreams) "failed to initialize streams table" in
     let* _ := fail_if (io OpenMessages) "failed to initialize messages table" in
     st_ret (TxnCommit tt)).

(** The loop of [new] over the shard files. *)
Fixpoint open_shards (io : nat -> AcidIo) (idxs : list nat) : ST AcidDisk Error unit :=
  match idxs with
  | [] => st_ret tt
  | idx :: rest =>
      let* _ := throw_if (io idx OpenShard) (StorageError "failed to open shard database") in
      let* _ := on_db idx (ensure_schema (io idx)) in
      open_shards io rest
  end.

(** The loop of [rebuild_shard] over the stored metadata: the bytes of the live
    streams and the names of the expired ones; [now] is the clock when the loop
    reaches a stream. *)
Fixpoint scan_streams (io : AcidIo) (now : string -> Z) (items : list (string * bytes))
    (live_bytes : Z) (expired_names : list string) : Result Error (Z * list string) :=
  match items with
  | [] => Ok (live_bytes, expired_names)
  | (stream_name, value) :: rest =>
      if io IterMetaItem then Err (StorageError "failed to read stream metadata")
      else
        match stored_from_slice value with
        | None => Err (StorageError "failed to parse stream metadata")
        | Some meta =>
            if is_stream_expired (now stream_name) (sd_config meta) then
              scan_streams io now rest live_bytes (expired_names ++ [stream_name])
            else
              scan_streams io now rest (saturating_add64 live_bytes (sd_total_bytes meta))
                expired_names
        end
  end.

Fixpoint remove_streams (io : AcidIo) (names : list string) : ST Shard Error unit :=
  match names with
  | [] => st_ret tt
  | name :: rest =>
      let* _ := delete_stream_messages io name in
      let* _ := remove_meta io "failed to remove expired stream" name in
      remove_streams io rest
  end.

(** [rebuild_shard]; it also returns the names whose notifiers it drops. *)
Definition rebuild_shard (io : AcidIo) (now : string -> Z) : ST Shard Error (Z * list string) :=
  fun sh =>
    match (let? _ := begin_read io in
           if io IterMeta then Err (StorageError "failed to iterate stream metadata")
           else scan_streams io now (streams_iter (sh_streams sh)) 0 []) with
    | Err e => (sh, Err e)
    | Ok (live_bytes, []) => (sh, Ok (live_bytes, []))
    | Ok (live_bytes, expired_names) =>
        shard_txn io OfCleanup
          (let* _ := open_streams io in
           let* _ := open_messages io in
           let* _ := remove_streams io expired_names in
           st_ret (TxnCommit (live_bytes, expired_names))) sh
    end.

(** [rebuild_state_from_disk] *)
Fixpoint rebuild_state_from_disk (io : nat -> AcidIo) (now : string -> Z) (idxs : list nat)
    (total : Z) (dropped : list string) : ST AcidDisk Error (Z * list string) :=
  match idxs with
  | [] => st_ret (total, dropped)
  | idx :: rest =>
      let* found := on_db idx (rebuild_shard (io idx) now) in
      rebuild_state_from_disk io now rest (saturating_add64 total found.1) (dropped ++ found.2)
  end.

(** The contents of the open databases. *)
Definition opened_shards (idxs : list nat) (dk : AcidDisk) : list Shard :=
  (fun idx => default new_shard (dk_shards dk !! shard_file idx)) <$> idxs.

(** [AcidStorage::new]; [io0] are the calls on the directory, [io idx] those on shard
    [idx] while it is opened, [io' idx] those while its state is rebuilt. *)
Definition AcidStorage_new (io0 : AcidIo) (io io' : nat -> AcidIo) (now : string -> Z)
    (shard_count max_total_bytes max_stream_bytes : Z) : ST AcidDisk Error AcidStorage :=
  let* _ := st_lift (validate_shard_count shard_count) in
  let* _ := throw_if (io0 CreateAcidDir)
              (StorageError "failed to create acid storage directory") in
  let* _ := load_or_create_layout io0 shard_count in
  let idxs := seq 0 (Z.to_nat shard_count) in
  let* _ := open_shards io idxs in
  let* found := rebuild_state_from_disk io' now idxs 0 [] in
  fun dk =>
    (dk, Ok (fold_left (fun st name => drop_notifier name st) found.2
               (mkAcid (opened_shards idxs dk) shard_count found.1 max_total_bytes
                  max_stream_bytes ∅))).
End Acid.
