(* ===== verification/AcidTables.v ===== *)
(** * AcidTables: what the ACID backend relies on

    The laws of [redb]'s tables, [seahash] and the stored formats, the contents of the
    message table of a stream, and an instance that satisfies the laws. *)

From stdpp Require Import sorting.
From S2P Require Import Prelude Errors Offsets RustStd Headers StorageCore LogSpec Config.
From S2P Require Import AcidStorage FileDemo.

(** The order of the positions in a table. *)
Definition pos_lt (a b : Position * bytes) : Prop := pair_cmp a.1 b.1 = Lt.
Definition pos_from (lo : Position) (kv : Position * bytes) : Prop := pair_cmp kv.1 lo <> Lt.
#[global] Instance pos_from_dec lo kv : Decision (pos_from lo kv).
Proof. unfold pos_from. apply _. Defined.

(** A table is a map; iteration lists it once; [range] lists the entries of a stream from
    a position to the largest key, in key order. [seahash] returns a [u64]; what
    [serde_json] writes it can read, and it can write the layout. *)
Class AcidLibLaws (A : AcidLib) : Prop := {
  streams_get_new name : streams_get streams_new name = None;
  streams_get_insert t name v name' :
    streams_get (streams_insert t name v) name' =
    if decide (name = name') then Some v else streams_get t name';
  streams_get_remove t name name' :
    streams_get (streams_remove t name) name' =
    if decide (name = name') then None else streams_get t name';
  streams_iter_get t name v : (name, v) ∈ streams_iter t <-> streams_get t name = Some v;
  streams_iter_nodup t : NoDup (streams_iter t).*1;
  messages_get_new name k : messages_get messages_new name k = None;
  messages_get_insert t name k v name' k' :
    messages_get (messages_insert t name k v) name' k' =
    if decide ((name, k) = (name', k')) then Some v else messages_get t name' k';
  messages_get_remove t name k name' k' :
    messages_get (messages_remove t name k) name' k' =
    if decide ((name, k) = (name', k')) then None else messages_get t name' k';
  messages_range_get t name lo k v :
    (k, v) ∈ messages_range t name lo <->
    messages_get t name k = Some v /\ pos_from lo (k, v) /\ u64 k.1 /\ u64 k.2;
  messages_range_sorted t name lo : StronglySorted pos_lt (messages_range t name lo);
  seahash_u64 bs : u64 (seahash bs);
  stored_serializes m : exists p, stored_to_vec m = Some p;
  stored_roundtrip m p : stored_to_vec m = Some p -> stored_from_slice p = Some m;
  layout_serializes m : exists p, layout_to_vec m = Some p;
  layout_roundtrip m p : layout_to_vec m = Some p -> layout_from_slice p = Some m
}.

(** ** Sorted lists *)

Lemma pos_lt_irrefl x : ~ pos_lt x x.
Proof. unfold pos_lt. rewrite pair_cmp_lt. lia. Qed.

Lemma sorted_nodup (l : list (Position * bytes)) : StronglySorted pos_lt l -> NoDup l.
Proof.
  induction 1 as [|x l Hs IH Hall]; constructor; [|done]. intros Hin.
  rewrite Forall_forall in Hall. by destruct (pos_lt_irrefl x (Hall x Hin)).
Qed.

(** A sorted list is determined by its elements. *)
Lemma sorted_unique (l1 l2 : list (Position * bytes)) :
  StronglySorted pos_lt l1 -> StronglySorted pos_lt l2 ->
  (forall k v, (k, v) ∈ l1 <-> (k, v) ∈ l2) -> l1 = l2.
Proof.
  intros H1 H2 Heq. apply (StronglySorted_unique_strong pos_lt); [|done..|].
  - intros x y _ _. unfold pos_lt. rewrite !pair_cmp_lt. lia.
  - apply NoDup_Permutation; [by apply sorted_nodup..|]. intros [k v]. apply Heq.
Qed.

Lemma sorted_filter (P : Position * bytes -> Prop) `{!forall x, Decision (P x)} l :
  StronglySorted pos_lt l -> StronglySorted pos_lt (filter P l).
Proof.
  induction 1 as [|x l Hs IH Hall]; [constructor|]. rewrite filter_cons.
  case_decide; [|done]. constructor; [done|]. rewrite Forall_forall in *.
  intros y [_ Hy]%list_elem_of_filter. auto.
Qed.

(** ** Positions of a log *)

(** The keys and values of the messages of a log. *)
Fixpoint positions (rs bo : Z) (msgs : list bytes) : list (Position * bytes) :=
  match msgs with
  | [] => []
  | m :: rest => ((rs, bo), m) :: positions (rs + 1) (bo + Z.of_nat (length m)) rest
  end.

Lemma place_positions rs bo msgs :
  place rs bo msgs = (fun kv => (Offset_new kv.1.1 kv.1.2, kv.2)) <$> positions rs bo msgs.
Proof. revert rs bo. induction msgs as [|m l IH]; intros; cbn; [done|]. by rewrite IH. Qed.

Lemma positions_data rs bo msgs : (positions rs bo msgs).*2 = msgs.
Proof. revert rs bo. induction msgs as [|m l IH]; intros; cbn; [done|]. by rewrite IH. Qed.

Lemma positions_app rs bo l1 l2 :
  positions rs bo (l1 ++ l2) =
  positions rs bo l1 ++ positions (rs + Z.of_nat (length l1)) (bo + payload l1) l2.
Proof.
  revert rs bo. induction l1 as [|m l IH]; intros rs bo; cbn [app positions length payload].
  - by rewrite !Z.add_0_r.
  - rewrite IH. cbn. do 2 f_equal; f_equal; lia.
Qed.

(** The positions of a log are below its tail. *)
Lemma positions_below rs bo msgs k v :
  (k, v) ∈ positions rs bo msgs ->
  rs <= k.1 < rs + Z.of_nat (length msgs) /\ bo <= k.2 <= bo + payload msgs.
Proof.
  revert rs bo. induction msgs as [|m l IH]; intros rs bo; cbn [positions length payload].
  - by intros ?%elem_of_nil.
  - pose proof (payload_nonneg l). intros [[= -> ->]|Hin]%elem_of_cons; [cbn; lia|].
    apply IH in Hin. lia.
Qed.

(** The entries from a position on are the messages from that offset on. *)
Lemma positions_from rs bo txt msgs :
  (filter (pos_from (rs, bo)) (positions 0 0 msgs)).*2 = messages_from (Concrete rs bo txt) msgs.
Proof.
  unfold messages_from. rewrite place_positions. generalize (positions 0 0 msgs).
  intros l. induction l as [|[k v] l IH]; [done|]. cbn [fmap list_fmap]. rewrite !filter_cons.
  unfold pos_from at 1. unfold offset_cmp at 1. cbn. destruct k as [k1 k2]. cbn.
  destruct (decide _); cbn; by rewrite IH.
Qed.

Section Tables.
Context {A : AcidLib} {L : AcidLibLaws A}.

(** ** The message table *)

(** The entries of a stream, in key order. *)
Definition table_of (t : MessagesTable) (name : string) : list (Position * bytes) :=
  messages_range t name (0, 0).

Lemma table_of_elem t name k v :
  (k, v) ∈ table_of t name <-> messages_get t name k = Some v /\ u64 k.1 /\ u64 k.2.
Proof using L.
  unfold table_of. rewrite messages_range_get. split; [tauto|]. intros (Hg & H1 & H2).
  split_and!; try done. unfold pos_from. rewrite pair_cmp_lt. cbn. destruct H1, H2. lia.
Qed.

Lemma range_table t name lo : messages_range t name lo = filter (pos_from lo) (table_of t name).
Proof using L.
  apply sorted_unique; [apply messages_range_sorted|apply sorted_filter, messages_range_sorted|].
  intros k v. rewrite list_elem_of_filter, table_of_elem, messages_range_get. tauto.
Qed.

(** Two tables with the same entries for a stream list them alike. *)
Lemma table_of_ext t1 t2 name :
  (forall k, messages_get t1 name k = messages_get t2 name k) -> table_of t1 name = table_of t2 name.
Proof using L.
  intros Heq. apply sorted_unique; [apply messages_range_sorted..|]. intros k v.
  by rewrite !table_of_elem, Heq.
Qed.

Lemma table_insert_ne t name k v name' :
  name <> name' -> table_of (messages_insert t name k v) name' = table_of t name'.
Proof using L.
  intros Hne. apply table_of_ext. intros k'. rewrite messages_get_insert.
  by rewrite decide_False by congruence.
Qed.

(** Inserting beyond the last entry. *)
Lemma table_insert_tail t name k v :
  u64 k.1 -> u64 k.2 -> (forall k' v', (k', v') ∈ table_of t name -> pair_cmp k' k = Lt) ->
  table_of (messages_insert t name k v) name = table_of t name ++ [(k, v)].
Proof using L.
  intros H1 H2 Hlt. apply sorted_unique; [apply messages_range_sorted| |].
  - apply StronglySorted_app_2; [|apply messages_range_sorted|repeat constructor].
    intros [k' v'] x Hin ->%list_elem_of_singleton. by apply (Hlt k' v').
  - intros k' v'. rewrite elem_of_app, list_elem_of_singleton, !table_of_elem, messages_get_insert.
    case_decide as Hk; [|naive_solver]. injection Hk as <-. split; [naive_solver|].
    intros [Hin|[= ->]]; [|done]. apply table_of_elem, Hlt in Hin. rewrite pair_cmp_lt in Hin. lia.
Qed.

Lemma removed_get t name keys name' k' :
  messages_get (fold_left (fun t k => messages_remove t name k) keys t) name' k' =
  if decide (name = name' /\ k' ∈ keys) then None else messages_get t name' k'.
Proof using L.
  revert t. induction keys as [|k keys IH]; intros t; cbn [fold_left].
  - rewrite decide_False; [done|]. intros [_ ?%elem_of_nil]. done.
  - rewrite IH, messages_get_remove. repeat case_decide; try done; set_solver.
Qed.

(** Removing every key of a stream empties its part of the table. *)
Lemma table_removed t name name' :
  table_of (fold_left (fun t k => messages_remove t name k) (table_of t name).*1 t) name' =
  if decide (name = name') then [] else table_of t name'.
Proof using L.
  case_decide as Hn.
  - subst name'. apply elem_of_nil_inv. intros [k v]. rewrite table_of_elem, removed_get.
    case_decide as Hd; [intros [? _]; done|]. intros Hin. apply Hd. split; [done|].
    apply table_of_elem in Hin. apply list_elem_of_fmap. by exists (k, v).
  - apply table_of_ext. intros k. rewrite removed_get. by rewrite decide_False by naive_solver.
Qed.

Lemma table_new name : table_of messages_new name = [].
Proof using L.
  apply elem_of_nil_inv. intros [k v]. rewrite table_of_elem, messages_get_new. by intros [? _].
Qed.
End Tables.

(** ** A concrete instance *)

#[global] Instance StoredStreamMeta_eq_dec : EqDecision StoredStreamMeta.
Proof. solve_decision. Defined.
#[global] Instance StoredStreamMeta_countable : Countable StoredStreamMeta.
Proof.
  refine (inj_countable'
    (fun m => (sd_config m, (sd_closed m, (sd_next_read_seq m, (sd_next_byte_offset m,
               (sd_total_bytes m, (sd_created_at m, (sd_last_seq m, map_to_list (sd_producers m)))))))))
    (fun '(a, (b, (c, (d, (e, (f, (g, h))))))) => mkStored a b c d e f g (list_to_map h)) _).
  intros []; cbn. by rewrite list_to_map_to_list.
Defined.
#[global] Instance LayoutManifest_eq_dec : EqDecision LayoutManifest.
Proof. solve_decision. Defined.
#[global] Instance LayoutManifest_countable : Countable LayoutManifest.
Proof.
  refine (inj_countable' (fun m => (ly_hash_policy m, (ly_format_version m, ly_shard_count m)))
    (fun '(a, (b, c)) => mkLayout b c a) _). by intros [].
Defined.

Definition pos_le (a b : Position * bytes) : Prop := pair_cmp a.1 b.1 <> Gt.
#[global] Instance pos_le_dec a b : Decision (pos_le a b).
Proof. unfold pos_le. apply _. Defined.

Lemma pos_le_spec a b : pos_le a b <-> a.1.1 < b.1.1 \/ a.1.1 = b.1.1 /\ a.1.2 <= b.1.2.
Proof.
  unfold pos_le, pair_cmp. destruct (Z.compare_spec a.1.1 b.1.1), (Z.compare_spec a.1.2 b.1.2);
    (split; intros; (done || lia)).
Qed.

#[local] Instance pos_le_trans : Transitive pos_le.
Proof. intros a b c. rewrite !pos_le_spec. lia. Qed.
#[local] Instance pos_le_total : Total pos_le.
Proof. intros a b. rewrite !pos_le_spec. lia. Qed.

(** The entries of one stream from a position on. *)
Definition demo_range (t : gmap (string * Position) bytes) (name : string) (lo : Position)
  : list (Position * bytes) :=
  merge_sort pos_le
    (omap (fun e : (string * Position) * bytes =>
       let '((n, k), v) := e in
       if decide (n = name /\ pos_from lo (k, v) /\ 0 <= k.1 < two64 /\ 0 <= k.2 < two64)
       then Some (k, v) else None) (map_to_list t)).

Lemma demo_range_elem t name lo k v :
  (k, v) ∈ demo_range t name lo <->
  t !! (name, k) = Some v /\ pos_from lo (k, v) /\ u64 k.1 /\ u64 k.2.
Proof.
  unfold demo_range, u64. rewrite merge_sort_Permutation, list_elem_of_omap. split.
  - intros ([[n k'] v'] & Hin & Hd). case_decide; simplify_eq.
    apply elem_of_map_to_list in Hin. naive_solver.
  - intros (Hg & Hrest). exists ((name, k), v). rewrite elem_of_map_to_list. split; [done|].
    by rewrite decide_True.
Qed.

Lemma pos_lt_le x y : pos_le x y -> x.1 <> y.1 -> pos_lt x y.
Proof.
  rewrite pos_le_spec. unfold pos_lt. rewrite pair_cmp_lt. destruct x as [[] ?], y as [[] ?]; cbn.
  intros H Hne. assert (~ (z = z1 /\ z0 = z2)) by (intros [-> ->]; done). lia.
Qed.

Lemma demo_range_sorted t name lo : StronglySorted pos_lt (demo_range t name lo).
Proof.
  assert (forall l : list (Position * bytes), StronglySorted pos_le l -> NoDup l.*1 ->
    StronglySorted pos_lt l) as Hstrict.
  { induction 1 as [|x l Hs IH Hall]; intros Hnd; [constructor|]. cbn in Hnd.
    apply NoDup_cons in Hnd as [Hx Hnd]. constructor; [auto|]. rewrite Forall_forall in *.
    intros y Hy. apply pos_lt_le; [auto|]. intros Heq. apply Hx. rewrite Heq.
    apply list_elem_of_fmap. eauto. }
  apply Hstrict; [apply StronglySorted_merge_sort; apply _|].
  unfold demo_range. rewrite merge_sort_Permutation.
  pose proof (NoDup_fst_map_to_list t) as Hnd. induction (map_to_list t) as [|[[n k] v] l IH]; [constructor|].
  cbn in Hnd. apply NoDup_cons in Hnd as [Hx Hnd]. cbn. case_decide as Hd; [|by apply IH].
  cbn. apply NoDup_cons. split; [|by apply IH]. intros Hin. apply Hx.
  apply list_elem_of_fmap in Hin as ([k' v'] & Hk & Hin). cbn in Hk. subst k'.
  apply list_elem_of_omap in Hin as ([[n' k'] v''] & Hin & Hd'). case_decide as Hd''; [|done].
  injection Hd' as -> ->. apply list_elem_of_fmap. exists ((n', k), v'). split; [|done]. cbn.
  destruct Hd as [-> _], Hd'' as [-> _]. done.
Qed.

(** A hash: the sum of the bytes. *)
Definition demo_hash (bs : bytes) : Z := foldr (fun b acc => byte_val b + acc) 0 bs mod two64.

#[global] Instance demo_acid : AcidLib := {|
  StreamsTable := gmap string bytes;
  streams_new := ∅;
  streams_get t name := t !! name;
  streams_insert t name v := <[name := v]> t;
  streams_remove t name := delete name t;
  streams_iter t := map_to_list t;
  MessagesTable := gmap (string * Position) bytes;
  messages_new := ∅;
  messages_get t name k := t !! (name, k);
  messages_insert t name k v := <[(name, k) := v]> t;
  messages_remove t name k := delete (name, k) t;
  messages_range := demo_range;
  seahash := demo_hash;
  stored_to_vec m := Some (pos_bytes (encode m));
  stored_from_slice bs := decode (bytes_pos bs);
  layout_to_vec m := Some (pos_bytes (encode m));
  layout_from_slice bs := decode (bytes_pos bs)
|}.

#[global] Instance demo_acid_laws : AcidLibLaws demo_acid.
Proof.
  split; cbn.
  - intros. apply lookup_empty.
  - intros. case_decide; [subst; apply lookup_insert_eq|by apply lookup_insert_ne].
  - intros. case_decide; [subst; apply lookup_delete_eq|by apply lookup_delete_ne].
  - intros. apply elem_of_map_to_list.
  - intros. apply NoDup_fst_map_to_list.
  - intros. apply lookup_empty.
  - intros. case_decide as Hd; [rewrite Hd; apply lookup_insert_eq|by apply lookup_insert_ne].
  - intros. case_decide as Hd; [rewrite Hd; apply lookup_delete_eq|by apply lookup_delete_ne].
  - intros. apply demo_range_elem.
  - intros. apply demo_range_sorted.
  - intros. unfold demo_hash, u64. apply Z.mod_pos_bound. done.
  - intros m. eauto.
  - intros m p [= <-]. cbn. by rewrite bytes_pos_bytes, decode_encode.
  - intros m. eauto.
  - intros m p [= <-]. cbn. by rewrite bytes_pos_bytes, decode_encode.
Qed.
