(* ===== verification/AcidTxn.v ===== *)
(** * AcidTxn: the transactions of the ACID backend

    What a shard holds for each stream, and what every transaction does to it: either
    the outcome the abstract log prescribes for that one stream, or an error and a
    shard as it was. *)

From S2P Require Import Prelude Errors Offsets RustStd Headers StorageCore LogSpec Config.
From S2P Require Import AcidStorage AcidTables.

#[local] Arguments cleanup_stale_producers : simpl never.

(** ** Computations with two outcomes *)

(** [c] started in [t] returns with [Q], or fails with [E]. *)
Definition meets {T R} (c : ST T Error R) (t : T) (E : T -> Error -> Prop) (Q : R -> T -> Prop)
  : Prop :=
  match c t with (t', Ok x) => Q x t' | (t', Err e) => E t' e end.

Section Meets.
Context {T R R' : Type} (t : T) (E : T -> Error -> Prop).

Lemma meets_bind (c : ST T Error R) (k : R -> ST T Error R') Q :
  meets c t E (fun x t' => meets (k x) t' E Q) -> meets (st_bind c k) t E Q.
Proof. unfold meets, st_bind. by destruct (c t) as [t' [x|e]]. Qed.

Lemma meets_ret (x : R) Q : Q x t -> meets (st_ret x) t E Q.
Proof. done. Qed.

Lemma meets_lift (r : Result Error R) Q :
  match r with Ok x => Q x t | Err e => E t e end -> meets (st_lift r) t E Q.
Proof. unfold meets, st_lift. by destruct r. Qed.

Lemma meets_throw b e (Q : unit -> T -> Prop) :
  (b = true -> E t e) -> (b = false -> Q tt t) -> meets (throw_if b e) t E Q.
Proof. unfold meets, throw_if. destruct b; auto. Qed.
End Meets.

(** Errors the backend may add to those of the protocol: a failed call into [redb], or
    a limit. *)
Definition acid_error (io : AcidIo) (e : Error) : Prop :=
  (exists site msg, io site = true /\ e = StorageError msg) \/
  e = MemoryLimitExceeded \/ e = StreamSizeLimitExceeded.

Lemma acid_error_resource io e : acid_error io e -> resource_error e = true.
Proof. by intros [(? & ? & _ & ->)|[->| ->]]. Qed.

Section Txn.
Context {A : AcidLib} {L : AcidLibLaws A}.

(** ** What a shard holds *)

(** The two tables, as far as they concern a stream. *)
Definition contents (sh : Shard) (name : string) : option bytes * list (Position * bytes) :=
  (streams_get (sh_streams sh) name, table_of (sh_messages sh) name).

(** Nothing changed for the other streams. *)
Definition same_but (name : string) (sh sh' : Shard) : Prop :=
  forall n, n <> name -> contents sh' n = contents sh n.

#[global] Instance same_but_preorder name : PreOrder (same_but name).
Proof.
  split; [by intros ? ?|]. intros sh1 sh2 sh3 H12 H23 n Hn. by rewrite H23, H12.
Qed.

(** The stream is not there, or has this metadata and these messages. *)
Definition vacant (sh : Shard) (name : string) : Prop := contents sh name = (None, []).
Definition holds (sh : Shard) (name : string) (meta : StoredStreamMeta) (msgs : list bytes) : Prop :=
  exists p, contents sh name = (Some p, positions 0 0 msgs) /\ stored_from_slice p = Some meta.

(** The counters of the metadata are exact and within the stream limit. *)
Record meta_ok (max_stream_bytes : Z) (meta : StoredStreamMeta) (msgs : list bytes) : Prop := mkMetaOk {
  mo_seq : sd_next_read_seq meta = Z.of_nat (length msgs);
  mo_offset : sd_next_byte_offset meta = payload msgs;
  mo_total : sd_total_bytes meta = payload msgs;
  mo_count : Z.of_nat (length msgs) < two64;
  mo_limit : payload msgs <= max_stream_bytes
}.

Definition abs_stored (meta : StoredStreamMeta) (msgs : list bytes) : AStream :=
  mkAStream (sd_config meta) msgs (sd_closed meta) (sd_created_at meta) (sd_producers meta)
    (sd_last_seq meta).

(** The shard holds the log [a]. *)
Definition stores (max_stream_bytes : Z) (sh : Shard) (name : string) (a : AStream) : Prop :=
  exists meta, holds sh name meta (a_msgs a) /\ meta_ok max_stream_bytes meta (a_msgs a) /\
    a = abs_stored meta (a_msgs a).

Lemma meta_next_offset ms meta msgs : meta_ok ms meta msgs -> sd_next_offset meta = tail_offset msgs.
Proof. intros [H1 H2 _ _ _]. unfold sd_next_offset. by rewrite H1, H2. Qed.

(** ** The calls on the tables *)

Section Calls.
Context (io : AcidIo) (E : Shard -> Error -> Prop) (sh : Shard).
(** Failed calls are among the errors. *)
Hypothesis HE : forall site msg, io site = true -> forall sh', E sh' (StorageError msg).

Lemma meets_open_streams Q : Q tt sh -> meets (open_streams io) sh E Q.
Proof using HE. intros HQ. apply meets_throw; [|done]. intros Hf. by apply (HE _ _ Hf). Qed.
Lemma meets_open_messages Q : Q tt sh -> meets (open_messages io) sh E Q.
Proof using HE. intros HQ. apply meets_throw; [|done]. intros Hf. by apply (HE _ _ Hf). Qed.

Lemma meets_get_some name meta msgs Q :
  holds sh name meta msgs -> Q (Some meta) sh -> meets (get_meta io name) sh E Q.
Proof using HE.
  intros (p & [= Hc _] & Hp) HQ. unfold meets, get_meta, read_stream_meta.
  destruct (io GetMeta) eqn:Hf; [by apply (HE _ _ Hf)|]. by rewrite Hc, Hp.
Qed.
Lemma meets_get_none name Q :
  vacant sh name -> Q None sh -> meets (get_meta io name) sh E Q.
Proof using HE.
  intros [= Hc _] HQ. unfold meets, get_meta, read_stream_meta.
  destruct (io GetMeta) eqn:Hf; [by apply (HE _ _ Hf)|]. by rewrite Hc.
Qed.
Lemma meets_find_some name meta msgs Q :
  holds sh name meta msgs -> Q meta sh -> meets (find_meta io name) sh E Q.
Proof using HE.
  intros Hh HQ. apply meets_bind. by eapply meets_get_some.
Qed.
Lemma meets_find_none name Q :
  vacant sh name -> E sh (NotFound name) -> meets (find_meta io name) sh E Q.
Proof using HE. intros Hv HQ. apply meets_bind. by apply meets_get_none. Qed.

Lemma meets_write_meta name meta (Q : unit -> Shard -> Prop) :
  (forall sh' p, same_but name sh sh' -> contents sh' name = (Some p, (contents sh name).2) ->
     stored_from_slice p = Some meta -> Q tt sh') ->
  meets (write_stream_meta io name meta) sh E Q.
Proof using HE L.
  intros HQ. unfold meets, write_stream_meta. destruct (stored_serializes meta) as [p Hp]. rewrite Hp.
  destruct (io PutMeta) eqn:Hf; [by apply (HE _ _ Hf)|]. apply (HQ _ p).
  - intros n Hn. unfold contents. cbn. rewrite streams_get_insert. by rewrite decide_False.
  - unfold contents. cbn. rewrite streams_get_insert. by rewrite decide_True.
  - by apply stored_roundtrip.
Qed.

Lemma meets_remove_meta context name (Q : unit -> Shard -> Prop) :
  (forall sh', same_but name sh sh' -> contents sh' name = (None, (contents sh name).2) -> Q tt sh') ->
  meets (remove_meta io context name) sh E Q.
Proof using HE L.
  intros HQ. unfold meets, remove_meta. destruct (io RemoveMeta) eqn:Hf; [by apply (HE _ _ Hf)|].
  apply HQ.
  - intros n Hn. unfold contents. cbn. rewrite streams_get_remove. by rewrite decide_False.
  - unfold contents. cbn. rewrite streams_get_remove. by rewrite decide_True.
Qed.

Lemma meets_delete_messages name (Q : unit -> Shard -> Prop) :
  (forall sh', same_but name sh sh' -> contents sh' name = ((contents sh name).1, []) -> Q tt sh') ->
  meets (delete_stream_messages io name) sh E Q.
Proof using HE L.
  intros HQ. unfold meets, delete_stream_messages. fold (table_of (sh_messages sh) name).
  destruct (io RangeMessages) eqn:Hf; [by apply (HE _ _ Hf)|].
  destruct ((table_of (sh_messages sh) name).*1) as [|k ks] eqn:Hk.
  - apply HQ; [done|]. apply fmap_nil_inv in Hk. unfold contents. by rewrite Hk.
  - destruct (io RangeItem) eqn:Hf1; [by apply (HE _ _ Hf1)|].
    destruct (io RemoveMessage) eqn:Hf2; [by apply (HE _ _ Hf2)|]. rewrite <- Hk. apply HQ.
    + intros n Hn. unfold contents. cbn. rewrite table_removed. by rewrite decide_False.
    + unfold contents. cbn. rewrite table_removed. by rewrite decide_True.
Qed.
End Calls.

(** The metadata after a batch, with exact counters. *)
Definition advanced (meta : StoredStreamMeta) (msgs : list bytes) : StoredStreamMeta :=
  mkStored (sd_config meta) (sd_closed meta) (sd_next_read_seq meta + Z.of_nat (length msgs))
    (sd_next_byte_offset meta + payload msgs) (sd_total_bytes meta + payload msgs)
    (sd_created_at meta) (sd_last_seq meta) (sd_producers meta).

(** The counters are exact, and the batch still fits. *)
Definition exact_before (meta : StoredStreamMeta) (old msgs : list bytes) : Prop :=
  sd_next_read_seq meta = Z.of_nat (length old) /\ sd_next_byte_offset meta = payload old /\
  sd_total_bytes meta = payload old /\ Z.of_nat (length old + length msgs) < two64 /\
  payload old + payload msgs < two64.

Lemma sd_advance_exact meta old m rest :
  exact_before meta old (m :: rest) ->
  sd_advance meta (len_u64 m) = advanced meta [m] /\
  exact_before (advanced meta [m]) (old ++ [m]) rest.
Proof.
  intros (H1 & H2 & H3 & H4 & H5). cbn in *. pose proof (payload_nonneg old).
  pose proof (payload_nonneg rest). unfold sd_advance, advanced, exact_before. cbn.
  rewrite len_u64_small, !add64_small, !length_app, !payload_app by lia. cbn.
  split; [f_equal; lia|]. split_and!; lia.
Qed.

(** The loop of the appends puts the batch at the tail of the log. *)
Lemma meets_insert_messages io E context name msgs meta old sh (Q : StoredStreamMeta -> Shard -> Prop) :
  (forall site msg, io site = true -> forall sh', E sh' (StorageError msg)) ->
  (contents sh name).2 = positions 0 0 old -> exact_before meta old msgs ->
  (forall sh', same_but name sh sh' ->
     contents sh' name = ((contents sh name).1, positions 0 0 (old ++ msgs)) ->
     Q (advanced meta msgs) sh') ->
  meets (insert_messages io context name msgs meta) sh E Q.
Proof using L.
  intros HE. revert meta old sh. induction msgs as [|m msgs IH]; intros meta old sh Hc Hex HQ.
  - cbn [insert_messages]. apply meets_ret. specialize (HQ sh). rewrite app_nil_r in HQ.
    assert (advanced meta [] = meta) as Ha
      by (unfold advanced; cbn; rewrite !Z.add_0_r; by destruct meta).
    rewrite Ha in HQ. apply HQ; [done|]. rewrite <- Hc. by destruct (contents sh name).
  - unfold meets. cbn [insert_messages].
    destruct (io (InsertMessage _)) eqn:Hf; [by apply (HE _ _ Hf)|].
    destruct (sd_advance_exact _ _ _ _ Hex) as [-> Hex']. destruct Hex as (H1 & H2 & H3 & H4 & H5).
    set (sh1 := mkShard _ _). fold (meets (insert_messages io context name msgs (advanced meta [m])) sh1 E Q).
    pose proof (payload_nonneg old). pose proof (payload_nonneg (m :: msgs)). cbn [length] in H4.
    assert (contents sh1 name = ((contents sh name).1, positions 0 0 (old ++ [m]))) as Hc1.
    { unfold contents, sh1. cbn [sh_streams sh_messages fst]. f_equal. unfold contents in Hc.
      cbn [snd] in Hc. rewrite H1, H2, table_insert_tail, Hc, positions_app.
      - by cbn.
      - cbn. unfold u64. lia.
      - cbn. unfold u64. lia.
      - rewrite Hc. intros k v Hin%positions_below. rewrite pair_cmp_lt. cbn. lia. }
    assert (same_but name sh sh1) as Hs1.
    { intros n Hn. unfold contents, sh1. cbn. by rewrite table_insert_ne by done. }
    apply (IH _ (old ++ [m])); [by rewrite Hc1|done|].
    intros sh' Hs' Hc'.
    assert (advanced (advanced meta [m]) msgs = advanced meta (m :: msgs)) as Ha
      by (unfold advanced; cbn [sd_config sd_closed sd_next_read_seq sd_next_byte_offset sd_total_bytes
            sd_created_at sd_last_seq sd_producers length payload]; f_equal; lia).
    rewrite Ha. apply HQ.
    + by etrans.
    + rewrite Hc', Hc1, <- app_assoc. done.
Qed.

(** ** Transactions *)

(** A transaction that returns without an error has done its work or was dropped; one
    that fails leaves the shard as it was. *)
Lemma meets_shard_txn {R} io c (body : ST Shard Error (TxnEnd R)) sh (E : Error -> Prop) Q :
  (forall site msg, io site = true -> E (StorageError msg)) ->
  meets body sh (fun _ => E)
    (fun x sh' => match x with TxnCommit r => Q r sh' | TxnDrop r => Q r sh end) ->
  meets (shard_txn io c body) sh (fun sh' e => sh' = sh /\ E e) Q.
Proof.
  intros HE. unfold meets, shard_txn, write_txn.
  destruct (io BeginWrite) eqn:H1; [split; [done|by apply (HE _ _ H1)]|].
  destruct (io SetDurability) eqn:H2; [split; [done|by apply (HE _ _ H2)]|].
  destruct (body sh) as [sh' [[x|x]|e]]; intros Hb; try done.
  destruct (io (Commit c)) eqn:H3; [split; [done|by apply (HE _ _ H3)]|done].
Qed.

(** What a transaction on one stream does: the abstract outcome [res], or an error the
    backend adds; after any error the shard is as it was. *)
Definition performs {R} (ms : Z) (io : AcidIo) (name : string) (sh : Shard)
    (res : Result Error (AStream * R)) (out : Shard * Result Error R) : Prop :=
  match out.2 with
  | Err e => out.1 = sh /\ (acid_error io e \/ res = Err e)
  | Ok x => exists a', res = Ok (a', x) /\ same_but name sh out.1 /\ stores ms out.1 name a'
  end.

Lemma performs_txn {R} ms io c name sh (res : Result Error (AStream * R)) body :
  meets body sh (fun _ e => acid_error io e \/ res = Err e)
    (fun x sh' => match x with
       | TxnCommit r => exists a', res = Ok (a', r) /\ same_but name sh sh' /\ stores ms sh' name a'
       | TxnDrop r => exists a', res = Ok (a', r) /\ stores ms sh name a'
       end) ->
  performs ms io name sh res (shard_txn io c body sh).
Proof.
  intros Hb.
  pose proof (meets_shard_txn io c body sh (fun e => acid_error io e \/ res = Err e)
    (fun r sh' => exists a', res = Ok (a', r) /\ same_but name sh sh' /\ stores ms sh' name a')) as Ht.
  unfold performs. unfold meets at 2 in Ht. destruct (shard_txn io c body sh) as [sh' [x|e]]; apply Ht.
  - intros site msg Hs. left. left. eauto.
  - revert Hb. unfold meets. destruct (body sh) as [s2 [[y|y]|e]]; [done| |done].
    intros (a' & Hr & Hst). by exists a'.
  - intros site msg Hs. left. left. eauto.
  - revert Hb. unfold meets. destruct (body sh) as [s2 [[y|y]|e']]; [done| |done].
    intros (a' & Hr & Hst). by exists a'.
Qed.

Lemma io_acid_error {R} io (res : Result Error R) site msg :
  io site = true -> forall sh' : Shard, acid_error io (StorageError msg) \/ res = Err (StorageError msg).
Proof. intros Hs _. left. left. eauto. Qed.

(** The stream is not there. *)
Lemma performs_absent {R} ms io c name sh (res : Result Error (AStream * R)) body :
  vacant sh name -> res = Err (NotFound name) ->
  performs ms io name sh res
    (shard_txn io c (let* _ := open_streams io in let* _ := open_messages io in
                     let* meta := find_meta io name in body meta) sh).
Proof.
  intros Hv Hr. pose proof (io_acid_error io res) as HE. apply performs_txn, meets_bind.
  apply (meets_open_streams io); [done|]. apply meets_bind, (meets_open_messages io); [done|].
  apply meets_bind, (meets_find_none io); [done..|]. by right.
Qed.

(** The stream is there: the rest of the body decides. *)
Lemma performs_present {R} ms io c name sh a (res : Result Error (AStream * R)) body :
  stores ms sh name a ->
  (forall meta, holds sh name meta (a_msgs a) -> meta_ok ms meta (a_msgs a) ->
     a = abs_stored meta (a_msgs a) ->
     meets (body meta) sh (fun _ e => acid_error io e \/ res = Err e)
       (fun x sh' => match x with
          | TxnCommit r => exists a', res = Ok (a', r) /\ same_but name sh sh' /\ stores ms sh' name a'
          | TxnDrop r => exists a', res = Ok (a', r) /\ stores ms sh name a'
          end)) ->
  performs ms io name sh res
    (shard_txn io c (let* _ := open_streams io in let* _ := open_messages io in
                     let* meta := find_meta io name in body meta) sh).
Proof.
  intros (meta & Hh & Hm & Ha) Hbody. pose proof (io_acid_error io res) as HE.
  apply performs_txn, meets_bind. apply (meets_open_streams io); [done|].
  apply meets_bind, (meets_open_messages io); [done|].
  apply meets_bind, (meets_find_some io _ _ HE name meta (a_msgs a)); [done|]. by apply Hbody.
Qed.
End Txn.
