(* ===== verification/AcidAppends.v ===== *)
(** * AcidAppends: the transactions of the ACID methods against the abstract log *)

From S2P Require Import Prelude Errors Offsets RustStd Headers StorageCore LogSpec Config.
From S2P Require Import AcidStorage AcidTables AcidTxn.

#[local] Arguments cleanup_stale_producers : simpl never.

Section Appends.
Context {A : AcidLib} {L : AcidLibLaws A}.

Lemma acid_batch_bytes_payload msgs : payload msgs < two64 -> acid_batch_bytes msgs = payload msgs.
Proof.
  assert (forall t, 0 <= t -> t + payload msgs < two64 ->
    fold_left (fun acc m => add64 acc (len_u64 m)) msgs t = t + payload msgs) as H.
  { induction msgs as [|m msgs IH]; intros t Ht Hlt; cbn in *; [lia|]. pose proof (payload_nonneg msgs).
    rewrite len_u64_small by lia. rewrite add64_small by lia. rewrite IH; lia. }
  intros Hp. by apply (H 0).
Qed.

Lemma meta_ok_exact ms meta old msgs :
  meta_ok ms meta old -> Z.of_nat (length old + length msgs) < two64 ->
  payload old + payload msgs < two64 -> exact_before meta old msgs.
Proof. by intros []. Qed.

Lemma meta_ok_advanced ms meta old msgs :
  meta_ok ms meta old -> Z.of_nat (length old + length msgs) < two64 ->
  payload old + payload msgs <= ms -> meta_ok ms (advanced meta msgs) (old ++ msgs).
Proof.
  intros [H1 H2 H3 H4 H5] Hl Hp. split; cbn; rewrite ?length_app, ?payload_app; lia.
Qed.

Lemma meta_ok_same ms meta meta' msgs :
  meta_ok ms meta msgs -> sd_next_read_seq meta' = sd_next_read_seq meta ->
  sd_next_byte_offset meta' = sd_next_byte_offset meta ->
  sd_total_bytes meta' = sd_total_bytes meta -> meta_ok ms meta' msgs.
Proof. intros [] ? ? ?. split; congruence. Qed.

Lemma stores_written ms sh name p meta msgs :
  contents sh name = (Some p, positions 0 0 msgs) -> stored_from_slice p = Some meta ->
  meta_ok ms meta msgs -> stores ms sh name (abs_stored meta msgs).
Proof. intros Hc Hp Hm. exists meta. split_and!; [by exists p|done|done]. Qed.

Lemma meets_stream_limit (E : Shard -> Error -> Prop) ms bytes meta sh (Q : unit -> Shard -> Prop) :
  0 <= sd_total_bytes meta + bytes < two64 -> E sh StreamSizeLimitExceeded ->
  (sd_total_bytes meta + bytes <= ms -> Q tt sh) ->
  meets (check_stream_limit ms bytes meta) sh E Q.
Proof.
  intros Hb HE HQ. apply meets_throw; rewrite add64_small, ?Z.ltb_ge by done; [done|]. exact HQ.
Qed.

(** ** One transaction on an existing stream *)

Section OneStream.
Context (io : AcidIo) (clk : Clock) (ms : Z) (name ct : string) (sh : Shard) (a : AStream).
Context (msgs : list bytes).
Hypothesis Hst : stores ms sh name a.
Hypothesis Hlen : Z.of_nat (length (a_msgs a) + length msgs) < two64.
Hypothesis Hpay : payload (a_msgs a) + payload msgs < two64.

(** Inserting the batch and writing the metadata it leads to, [f] of the counters. *)
Lemma meets_commit_batch {R} E context meta (f : StoredStreamMeta -> StoredStreamMeta)
    (g : StoredStreamMeta -> R) (Q : TxnEnd R -> Shard -> Prop) :
  (forall site msg, io site = true -> forall sh', E sh' (StorageError msg)) ->
  holds sh name meta (a_msgs a) -> meta_ok ms meta (a_msgs a) ->
  payload (a_msgs a) + payload msgs <= ms ->
  (meta_ok ms (f (advanced meta msgs)) (a_msgs a ++ msgs)) ->
  (forall sh', same_but name sh sh' ->
     stores ms sh' name (abs_stored (f (advanced meta msgs)) (a_msgs a ++ msgs)) ->
     Q (TxnCommit (g (f (advanced meta msgs)))) sh') ->
  meets (let* meta := insert_messages io context name msgs meta in
         let meta := f meta in
         let* _ := write_stream_meta io name meta in st_ret (TxnCommit (g meta))) sh E Q.
Proof using L Hlen Hpay.
  intros HE (p & Hc & Hp) Hm Hms Hf HQ. apply meets_bind.
  apply (meets_insert_messages io E context name msgs meta (a_msgs a)); [done|by rewrite Hc| |].
  { by eapply meta_ok_exact. }
  intros sh1 Hs1 Hc1. apply meets_bind, (meets_write_meta io E sh1 HE).
  intros sh2 p2 Hs2 Hc2 Hp2. apply HQ; [by etrans|].
  apply (stores_written ms sh2 name p2); [|done|done]. by rewrite Hc2, Hc1.
Qed.

(** The checks of the plain appends. *)
Definition appendable_log {R} (k : Result Error R) : Result Error R :=
  if is_stream_expired (clk 0%nat) (a_config a) then Err StreamExpired
  else if a_closed a then Err StreamClosed
  else let? _ := validate_content_type (content_type (a_config a)) ct in k.

Lemma meets_appendable {R R'} (res : Result Error R') (k : ST Shard Error (TxnEnd R)) meta Q :
  sd_config meta = a_config a -> sd_closed meta = a_closed a ->
  (appendable_log res = res -> meets k sh (fun _ e => acid_error io e \/ appendable_log res = Err e) Q) ->
  meets (let* _ := check_appendable clk ct meta in k) sh
    (fun _ e => acid_error io e \/ appendable_log res = Err e) Q.
Proof using.
  intros Hc Hcl Hk. apply meets_bind. unfold check_appendable. rewrite Hc, Hcl. unfold appendable_log in *.
  apply meets_bind, meets_throw; intros Hx; rewrite Hx in *; [by right|].
  apply meets_bind, meets_throw; intros Hcl'; rewrite Hcl' in *; [by right|].
  apply meets_lift. destruct (validate_content_type _ _) as [[]|e]; [by apply Hk|by right].
Qed.

Lemma batch_txn_performs seq :
  performs ms io name sh
    (appendable_log
       (let? _ := validate_seq (a_last_seq a) seq in
        Ok (log_append a msgs seq, a_next_offset (log_append a msgs seq))))
    (batch_txn io clk ms name msgs (payload msgs) ct seq sh).
Proof using L Hst Hlen Hpay.
  apply (performs_present ms io OfBatch name sh a); [done|]. intros meta Hh Hm Ha.
  pose proof (payload_nonneg (a_msgs a)). pose proof (payload_nonneg msgs).
  apply meets_appendable; [by rewrite Ha|by rewrite Ha|]. intros Hres.
  set (res := appendable_log _) in *. pose proof (io_acid_error io res) as HE.
  apply meets_bind, meets_lift. assert (a_last_seq a = sd_last_seq meta) as Hls by by rewrite Ha.
  rewrite Hls in Hres.
  destruct (validate_seq (sd_last_seq meta) seq) as [pending|e] eqn:Hv; [|by right].
  cbn [result_bind] in Hres. apply validate_seq_ok in Hv as [-> _].
  apply meets_bind, meets_stream_limit; [rewrite (mo_total _ _ _ Hm); lia|left; right; by right|].
  intros Hlim. rewrite (mo_total _ _ _ Hm) in Hlim.
  apply (meets_commit_batch _ _ meta (fun m => match seq with
     | Some new_seq => sd_set_last_seq m (Some new_seq) | None => m end) sd_next_offset); try done.
  { eapply meta_ok_same; [by apply (meta_ok_advanced _ meta)|by destruct seq..]. }
  intros sh' Hs' Hst'.
  assert (abs_stored (match seq with Some new_seq => sd_set_last_seq (advanced meta msgs) (Some new_seq)
     | None => advanced meta msgs end) (a_msgs a ++ msgs) = log_append a msgs seq) as Hlog.
  { rewrite Ha. by destruct seq. }
  exists (log_append a msgs seq). rewrite Hlog in Hst'. split_and!; [|done|done].
  rewrite Hres. do 2 f_equal. unfold a_next_offset. cbn.
  erewrite meta_next_offset; [done|]. eapply meta_ok_same; [by apply (meta_ok_advanced _ meta)|by destruct seq..].
Qed.

Lemma append_txn_performs data :
  msgs = [data] ->
  performs ms io name sh
    (appendable_log (Ok (log_append a [data] None, a_next_offset a)))
    (append_txn io clk ms name data ct sh).
Proof using L Hst Hlen Hpay.
  intros Hdata. apply (performs_present ms io OfAppend name sh a); [done|]. intros meta Hh Hm Ha.
  pose proof (payload_nonneg (a_msgs a)). pose proof Hpay as Hp. rewrite Hdata in Hp; cbn in Hp.
  apply meets_appendable; [by rewrite Ha|by rewrite Ha|]. intros Hres.
  set (res := appendable_log _) in *. pose proof (io_acid_error io res) as HE.
  rewrite len_u64_small by lia.
  apply meets_bind, meets_stream_limit; [rewrite (mo_total _ _ _ Hm); lia|left; right; by right|].
  intros Hlim. rewrite (mo_total _ _ _ Hm) in Hlim.
  assert (payload (a_msgs a) + payload msgs <= ms) as Hlim' by (rewrite Hdata; cbn; lia).
  pose proof (meta_ok_advanced _ _ _ msgs Hm Hlen Hlim') as Hadv. rewrite <- Hdata.
  apply (meets_commit_batch _ _ meta id (fun _ => sd_next_offset meta)); try done.
  intros sh' Hs' Hst'. exists (log_append a msgs None). rewrite Hdata at 1. rewrite Hres.
  split_and!; [|done|].
  - do 2 f_equal. unfold a_next_offset. by erewrite meta_next_offset.
  - by rewrite Ha.
Qed.

(** ** Producer appends *)

(** The decision on a live log. *)
Definition produce_log (p : ProducerHeaders) (close : bool) (seq : option string)
  : Result Error (AStream * ProducerAppendResult) :=
  if is_stream_expired (clk 0%nat) (a_config a) then Err StreamExpired
  else let? out := log_produce (log_tidy clk a) msgs ct p close seq (clk 2%nat) in
       Ok (unless_duplicate a out).

(** The metadata of an accepted request. *)
Definition accepted_meta (p : ProducerHeaders) (close : bool) (seq : option string)
    (meta : StoredStreamMeta) : StoredStreamMeta :=
  let meta := match seq with
              | Some new_seq => sd_set_last_seq meta (Some new_seq)
              | None => meta
              end in
  let meta := if close then sd_close meta else meta in
  sd_set_producers meta
    (<[ph_id p := mkProducerState (ph_epoch p) (ph_seq p) (clk 2%nat)]> (sd_producers meta)).

Lemma accepted_meta_ok p close seq meta log :
  meta_ok ms meta log -> meta_ok ms (accepted_meta p close seq meta) log.
Proof using. intros Hm. by eapply meta_ok_same; [done|destruct seq, close..]. Qed.

Lemma accepted_meta_log p close seq meta :
  abs_stored (accepted_meta p close seq (advanced meta msgs)) (a_msgs a ++ msgs) =
  log_accept (abs_stored meta (a_msgs a)) msgs p close seq (clk 2%nat).
Proof using. by destruct seq, close. Qed.

Lemma producer_commit_performs p close seq (res : Result Error (AStream * ProducerAppendResult)) meta :
  let tidy := sd_set_producers meta (cleanup_stale_producers (clk 1%nat) (sd_producers meta)) in
  holds sh name meta (a_msgs a) -> meta_ok ms meta (a_msgs a) -> a = abs_stored meta (a_msgs a) ->
  (let a' := log_accept (log_tidy clk a) msgs p close seq (clk 2%nat) in
   res = Ok (a', Accepted (ph_epoch p) (ph_seq p) (a_next_offset a') (a_closed a'))) ->
  meets (acid_producer_commit io (clk 2%nat) ms name msgs (payload msgs) p close seq tidy) sh
    (fun _ e => acid_error io e \/ res = Err e)
    (fun x sh' => match x with
       | TxnCommit r => exists a', res = Ok (a', r) /\ same_but name sh sh' /\ stores ms sh' name a'
       | TxnDrop r => exists a', res = Ok (a', r) /\ stores ms sh name a'
       end).
Proof using L Hlen Hpay.
  intros tidy Hh Hm Ha Hres. pose proof (io_acid_error io res) as HE.
  pose proof (payload_nonneg (a_msgs a)). pose proof (payload_nonneg msgs).
  assert (meta_ok ms tidy (a_msgs a)) as Hmt by (by eapply meta_ok_same).
  unfold acid_producer_commit. apply meets_bind, meets_stream_limit;
    [rewrite (mo_total _ _ _ Hmt); lia|left; right; by right|].
  intros Hlim. rewrite (mo_total _ _ _ Hmt) in Hlim. destruct Hh as (p0 & Hc & Hp0).
  apply meets_bind, (meets_insert_messages io _ _ name msgs tidy (a_msgs a)); [done|by rewrite Hc| |].
  { by eapply meta_ok_exact. }
  intros sh1 Hs1 Hc1. fold (accepted_meta p close seq (advanced tidy msgs)).
  set (meta' := accepted_meta p close seq (advanced tidy msgs)).
  assert (meta_ok ms meta' (a_msgs a ++ msgs)) as Hm'
    by by apply accepted_meta_ok, (meta_ok_advanced _ tidy).
  assert (abs_stored meta' (a_msgs a ++ msgs) = log_accept (log_tidy clk a) msgs p close seq (clk 2%nat)) as Hlog.
  { unfold meta'. rewrite accepted_meta_log. f_equal. by rewrite Ha. }
  apply meets_bind, (meets_write_meta io _ sh1 HE). intros sh2 p2 Hs2 Hc2 Hp2.
  eexists. rewrite Hres, <- Hlog. split_and!; [|by etrans|].
  - rewrite (meta_next_offset _ _ _ Hm'). done.
  - apply (stores_written ms sh2 name p2); [|done|done]. by rewrite Hc2, Hc1.
Qed.

Lemma producer_txn_performs p close seq :
  performs ms io name sh (produce_log p close seq)
    (producer_txn io clk ms name msgs (payload msgs) ct p close seq sh).
Proof using L Hst Hlen Hpay.
  apply (performs_present ms io OfProducer name sh a); [done|]. intros meta Hh Hm Ha.
  set (res := produce_log p close seq).
  assert (sd_config meta = a_config a) as Hcfg by by rewrite Ha.
  assert (sd_closed meta = a_closed a) as Hcl by by rewrite Ha.
  assert (sd_last_seq meta = a_last_seq a) as Hls by by rewrite Ha.
  assert (sd_producers meta = a_producers a) as Hpr by by rewrite Ha.
  apply meets_bind, meets_throw; rewrite Hcfg; intros Hx.
  { right. unfold res, produce_log. by rewrite Hx. }
  assert (res = let? out := log_produce (log_tidy clk a) msgs ct p close seq (clk 2%nat) in
                Ok (unless_duplicate a out)) as Hres by (unfold res, produce_log; by rewrite Hx).
  clearbody res. unfold log_produce in Hres.
  change (a_config (log_tidy clk a)) with (a_config a) in Hres.
  change (a_closed (log_tidy clk a)) with (a_closed a) in Hres.
  change (a_last_seq (log_tidy clk a)) with (a_last_seq a) in Hres.
  change (a_producers (log_tidy clk a)) with (cleanup_stale_producers (clk 1%nat) (a_producers a)) in Hres.
  apply meets_bind. cbn [sd_config sd_set_producers sd_producers sd_closed sd_last_seq].
  assert (meets (match msgs with
      | [] => st_ret tt
      | _ :: _ => st_lift (validate_content_type (content_type (sd_config meta)) ct) end) sh
      (fun _ e => acid_error io e \/ res = Err e)
      (fun _ sh' => sh' = sh /\ (if decide (msgs = []) then Ok tt
         else validate_content_type (content_type (a_config a)) ct) = Ok tt)) as Hct.
  { rewrite Hcfg. destruct msgs as [|m l]; [by rewrite decide_True|]. rewrite decide_False in * by done.
    apply meets_lift. destruct (validate_content_type _ _) as [[]|e]; [done|by right]. }
  unfold meets at 1. unfold meets in Hct. destruct (_ sh) as [sh' [[]|e]]; [|done].
  destruct Hct as [-> Hct]. rewrite Hct in Hres. cbn [result_bind] in Hres.
  apply meets_bind, meets_lift. rewrite Hpr, Hcl.
  destruct (check_producer _ _ _) as [[|e q]|e]; cbn [result_bind] in Hres; [| |by right].
  - apply meets_bind, meets_lift. rewrite Hls. destruct (validate_seq _ _) as [pending|e] eqn:Hv;
      cbn [result_bind] in Hres; [|by right]. apply validate_seq_ok in Hv as [-> _].
    rewrite <- Hpr. by apply producer_commit_performs.
  - apply meets_ret. exists a. split; [|done]. rewrite Hres. unfold unless_duplicate. cbn.
    unfold sd_next_offset. cbn. by rewrite (mo_seq _ _ _ Hm), (mo_offset _ _ _ Hm).
Qed.
End OneStream.
End Appends.
