(* ===== verification/AcidCreates.v ===== *)
(** * AcidCreates: the transactions that create, close and remove streams *)

From S2P Require Import Prelude Errors Offsets RustStd Headers StorageCore LogSpec Config.
From S2P Require Import AcidStorage AcidTables AcidTxn AcidAppends.

Section Creates.
Context {A : AcidLib} {L : AcidLibLaws A}.

(** What a shard has under a name. *)
Definition found_at (ms : Z) (sh : Shard) (name : string) (o : option AStream) : Prop :=
  match o with Some a => stores ms sh name a | None => vacant sh name end.

Definition stored_bytes (o : option AStream) : Z :=
  match o with Some a => payload (a_msgs a) | None => 0 end.

(** ** Closing *)

Definition close_log (clk : Clock) (a : AStream) : Result Error (AStream * unit) :=
  if is_stream_expired (clk 0%nat) (a_config a) then Err StreamExpired else Ok (log_close a, tt).

Lemma close_txn_performs ms io clk name sh a :
  stores ms sh name a -> performs ms io name sh (close_log clk a) (close_txn io clk name sh).
Proof using L.
  intros (meta & Hh & Hm & Ha). set (res := close_log clk a).
  pose proof (io_acid_error io res) as HE. apply performs_txn, meets_bind, (meets_open_streams io); [done|].
  apply meets_bind, (meets_find_some io _ _ HE name meta (a_msgs a)); [done|].
  assert (sd_config meta = a_config a) as Hcfg by by rewrite Ha.
  unfold res, close_log. apply meets_bind, meets_throw; rewrite Hcfg; intros Hx; rewrite Hx; [by right|].
  fold res. destruct Hh as (p & Hc & Hp). apply meets_bind, (meets_write_meta io).
  { intros site msg Hs _. left. left. eauto. }
  intros sh' p' Hs' Hc' Hp'. exists (log_close a). split_and!; [done..|].
  assert (log_close a = abs_stored (sd_close meta) (a_msgs a)) as -> by by rewrite Ha.
  apply (stores_written ms sh' name p'); [by rewrite Hc', Hc|done|]. by eapply meta_ok_same.
Qed.

Lemma close_txn_absent ms io clk name sh :
  vacant sh name -> performs ms io name sh (Err (NotFound name)) (close_txn io clk name sh).
Proof using L.
  intros Hv. pose proof (io_acid_error io (Err (A:=AStream * unit) (NotFound name))) as HE.
  apply performs_txn, meets_bind, (meets_open_streams io); [done|].
  apply meets_bind, (meets_find_none io); [done..|]. by right.
Qed.

(** ** Removing a stream *)

(** Emptying both tables of a stream. *)
Lemma meets_remove_stream io (E : Shard -> Error -> Prop) context name sh (Q : unit -> Shard -> Prop) :
  (forall site msg, io site = true -> forall sh', E sh' (StorageError msg)) ->
  (forall sh', same_but name sh sh' -> vacant sh' name -> Q tt sh') ->
  meets (let* _ := delete_stream_messages io name in remove_meta io context name) sh E Q.
Proof using L.
  intros HE HQ. apply meets_bind, (meets_delete_messages io); [done|]. intros sh1 Hs1 Hc1.
  apply (meets_remove_meta io); [done|]. intros sh2 Hs2 Hc2. apply HQ; [by etrans|].
  unfold vacant. by rewrite Hc2, Hc1.
Qed.

Lemma meets_assoc {T R1 R2 R3} (c : ST T Error R1) (k : R1 -> ST T Error R2) (k' : R2 -> ST T Error R3) t E Q :
  meets (let* y := (let* x := c in k x) in k' y) t E Q -> meets (let* x := c in let* y := k x in k' y) t E Q.
Proof. unfold meets, st_bind. by destruct (c t) as [t' [x|e]]. Qed.

Lemma delete_txn_meets ms io name sh o :
  found_at ms sh name o ->
  meets (delete_txn io name) sh
    (fun sh' e => sh' = sh /\ ((exists site msg, io site = true /\ e = StorageError msg) \/
                               (o = None /\ e = NotFound name)))
    (fun removed sh' => is_Some o /\ removed = stored_bytes o /\ same_but name sh sh' /\ vacant sh' name).
Proof using L.
  intros Hf. set (E := fun e => (exists site msg, io site = true /\ e = StorageError msg) \/
                                (o = None /\ e = NotFound name)).
  assert (forall site msg, io site = true -> E (StorageError msg)) as HE by (intros; left; eauto).
  assert (forall site msg, io site = true -> Shard -> E (StorageError msg)) as HE' by eauto.
  apply (meets_shard_txn io OfDelete _ sh E); [done|].
  apply meets_bind, (meets_open_streams io _ _ HE'). apply meets_bind, (meets_open_messages io _ _ HE').
  apply meets_bind. destruct o as [a|]; cbn in Hf.
  - destruct Hf as (meta & Hh & Hm & Ha). apply (meets_find_some io _ _ HE' name meta (a_msgs a)); [done|].
    apply meets_assoc, meets_bind, (meets_remove_stream io); [done|]. intros sh' Hs' Hv'.
    split_and!; [eauto|by apply (mo_total ms)|done|done].
  - apply (meets_find_none io _ _ HE'); [done|]. by right.
Qed.

(** ** Creating *)

Section Create.
Context (io : AcidIo) (clk : Clock) (ms : Z) (name : string) (config : StreamConfig).
Hypothesis Hms : 0 <= ms.

(** The answer of a create for what is there; [a'] is the stream it makes. *)
Definition create_log {R} (a' : AStream) (created : R) (found : AStream -> R) (o : option AStream)
  : Result Error (AStream * R) :=
  match o with
  | Some a =>
      if is_stream_expired (clk 0%nat) (a_config a) then Ok (a', created)
      else if config_eq (a_config a) config then Ok (a, found a) else Err ConfigMismatch
  | None => Ok (a', created)
  end.

(** The bytes an expired stream gives back. *)
Definition expired_bytes (o : option AStream) : Z :=
  match o with
  | Some a => if is_stream_expired (clk 0%nat) (a_config a) then payload (a_msgs a) else 0
  | None => 0
  end.

Lemma new_meta_ok : meta_ok ms (new_stream_meta (clk 1%nat) config) [].
Proof using Hms. by split. Qed.

Lemma create_txn_performs sh o :
  found_at ms sh name o ->
  performs ms io name sh
    (create_log (new_stream clk config [] false) (StreamCreated, expired_bytes o)
       (fun _ => (StreamAlreadyExists, 0)) o)
    (create_txn io clk name config sh).
Proof using L Hms.
  intros Hf. set (res := create_log _ _ _ o). pose proof (io_acid_error io res) as HE.
  apply performs_txn, meets_bind, (meets_open_streams io); [done|].
  apply meets_bind, (meets_open_messages io); [done|]. apply meets_bind.
  assert (forall sh1, same_but name sh sh1 -> vacant sh1 name ->
    res = Ok (new_stream clk config [] false, (StreamCreated, expired_bytes o)) ->
    meets (let* _ := write_stream_meta io name (new_stream_meta (clk 1%nat) config) in
           st_ret (TxnCommit (StreamCreated, expired_bytes o))) sh1
      (fun _ e => acid_error io e \/ res = Err e)
      (fun x sh' => match x with
         | TxnCommit r => exists a', res = Ok (a', r) /\ same_but name sh sh' /\ stores ms sh' name a'
         | TxnDrop r => exists a', res = Ok (a', r) /\ stores ms sh name a'
         end)) as Hcreate.
  { intros sh1 Hs1 Hv1 Hres. apply meets_bind, (meets_write_meta io); [done|].
    intros sh2 p Hs2 Hc2 Hp. exists (new_stream clk config [] false). split_and!; [done|by etrans|].
    apply (stores_written ms sh2 name p (new_stream_meta (clk 1%nat) config) []); [|done|apply new_meta_ok].
    rewrite Hc2. unfold vacant in Hv1. by rewrite Hv1. }
  destruct o as [a|]; cbn in Hf.
  - pose proof Hf as (meta & Hh & Hm & Ha).
    apply (meets_get_some io _ _ HE name meta (a_msgs a)); [done|].
    assert (sd_config meta = a_config a) as -> by by rewrite Ha. unfold res, create_log in *.
    cbn [expired_bytes] in *. destruct (is_stream_expired _ _).
    + apply meets_assoc, meets_bind, (meets_remove_stream io); [done|]. intros sh1 Hs1 Hv1.
      rewrite (mo_total _ _ _ Hm). by apply Hcreate.
    + destruct (config_eq _ _); [|by right]. apply meets_ret. by exists a.
  - apply (meets_get_none io _ _ HE); [done|]. by apply Hcreate.
Qed.

(** ** Creating with data *)

Context (mt : Z) (msgs : list bytes) (close : bool).
Hypothesis Hsized : sized msgs.
Hypothesis Hlen : Z.of_nat (length msgs) < two64.
Hypothesis Hpay : payload msgs < two64.

Lemma fill_new_meets E sh (Q : TxnEnd CreateWithDataResult -> Shard -> Prop) :
  (forall site msg, io site = true -> forall sh', E sh' (StorageError msg)) ->
  E sh StreamSizeLimitExceeded -> vacant sh name ->
  (forall sh', same_but name sh sh' -> stores ms sh' name (new_stream clk config msgs close) ->
     Q (TxnCommit (mkCreateWithData StreamCreated (tail_offset msgs) close)) sh') ->
  meets (fill_new io clk ms name config msgs (payload msgs) close) sh E Q.
Proof using L Hms Hsized Hlen Hpay.
  intros HE Hlim Hv HQ. unfold fill_new. set (meta := new_stream_meta (clk 1%nat) config).
  pose proof new_meta_ok as Hm. pose proof (payload_nonneg msgs) as Hp0. apply meets_bind.
  assert (forall sh1, same_but name sh sh1 -> contents sh1 name = (None, positions 0 0 msgs) ->
    payload msgs <= ms ->
    meets (let meta := if close then sd_close (advanced meta msgs) else advanced meta msgs in
           let* _ := write_stream_meta io name meta in
           st_ret (TxnCommit (mkCreateWithData StreamCreated (sd_next_offset meta) (sd_closed meta))))
      sh1 E Q) as Hrest.
  { intros sh1 Hs1 Hc1 Hms1. cbv zeta.
    set (meta' := if close then sd_close (advanced meta msgs) else advanced meta msgs).
    assert (meta_ok ms meta' msgs) as Hm'
      by (eapply meta_ok_same; [by apply (meta_ok_advanced ms meta [])|by destruct close..]).
    apply meets_bind, (meets_write_meta io); [done|]. intros sh2 p Hs2 Hc2 Hp.
    assert (sd_closed meta' = close) as Hcl by (unfold meta'; by destruct close).
    apply meets_ret. rewrite (meta_next_offset _ _ _ Hm'), Hcl. apply HQ; [by etrans|].
    assert (new_stream clk config msgs close = abs_stored meta' msgs) as -> by (unfold meta'; by destruct close).
    apply (stores_written ms sh2 name p); [by rewrite Hc2, Hc1|done|done]. }
  unfold vacant in Hv. destruct Hsized as [->|Hpos].
  - rewrite (proj2 (Z.ltb_ge 0 _)) by (cbn; lia). apply meets_ret.
    assert (advanced meta [] = meta) as Ha by done. rewrite <- Ha. by apply Hrest.
  - rewrite (proj2 (Z.ltb_lt 0 _)) by done.
    apply meets_bind, meets_stream_limit; [cbn; lia|done|]. cbn. intros Hl.
    apply (meets_insert_messages io E _ name msgs meta []); [done|by rewrite Hv|by split_and!|].
    intros sh1 Hs1 Hc1. apply Hrest; [done| |done]. by rewrite Hc1, Hv.
Qed.

Definition with_shard (t : Txn) (sh : Shard) : Txn := mkTxn sh (tx_total t) (tx_reserved t) (tx_removed t).

Lemma meets_tx_on {R} (c : ST Shard Error R) t (E : Txn -> Error -> Prop) Q :
  meets c (tx_shard t) (fun sh' e => E (with_shard t sh') e) (fun x sh' => Q x (with_shard t sh')) ->
  meets (tx_on c) t E Q.
Proof. unfold meets, tx_on. by destruct (c (tx_shard t)) as [sh' [x|e]]. Qed.

Lemma meets_tx_txn {R} c (body : ST Txn Error (TxnEnd R)) t (E : Txn -> Error -> Prop) Q :
  (forall site msg, io site = true -> E t (StorageError msg)) ->
  meets body t (fun t' e => E (tx_restore t t') e)
    (fun x t' => (forall msg, io (Commit c) = true -> E (tx_restore t t') (StorageError msg)) /\
       match x with TxnCommit r => Q r t' | TxnDrop r => Q r (tx_restore t t') end) ->
  meets (write_txn tx_restore io c body) t E Q.
Proof.
  intros HE. unfold meets, write_txn. destruct (io BeginWrite) eqn:H1; [intros _; by apply (HE _ _ H1)|].
  destruct (io SetDurability) eqn:H2; [intros _; by apply (HE _ _ H2)|].
  destruct (body t) as [t' [[x|x]|e]]; try (by intros [? ?]); [|done].
  intros [Hc HQ]. destruct (io (Commit c)); [by apply Hc|done].
Qed.

(** The counter is up by the batch exactly if the batch is marked as reserved. *)
Definition counted (total : Z) (t' : Txn) : Prop :=
  tx_total t' = total + (if tx_reserved t' then payload msgs else 0) /\ tx_total t' <= mt.

(** The error outcomes of the closure: its shard is as it was. *)
Definition data_failed {R} (sh : Shard) (total : Z) (res : Result Error R) (t' : Txn) (e : Error)
  : Prop :=
  tx_shard t' = sh /\ (acid_error io e \/ res = Err e) /\ counted total t'.

(** Its successes: the stream is there, and the counter is up by what it holds over
    what was there before, once the expired bytes are given back. *)
Definition data_created {R} (sh : Shard) (total : Z) (o : option AStream)
    (res : Result Error (AStream * R)) (r : R) (t' : Txn) : Prop :=
  exists a', res = Ok (a', r) /\ same_but name sh (tx_shard t') /\ stores ms (tx_shard t') name a' /\
    tx_removed t' = expired_bytes o /\
    tx_total t' = total + payload (a_msgs a') - stored_bytes o + tx_removed t' /\ counted total t'.

Lemma reserve_and_fill_meets sh0 sh total o
    (res : Result Error (AStream * CreateWithDataResult)) :
  vacant sh name -> same_but name sh0 sh -> 0 <= total <= mt -> mt < two64 ->
  stored_bytes o = expired_bytes o ->
  res = Ok (new_stream clk config msgs close, mkCreateWithData StreamCreated (tail_offset msgs) close) ->
  meets (reserve_and_fill io clk mt ms name config msgs (payload msgs) close)
    (mkTxn sh total false (expired_bytes o))
    (fun t' e => data_failed sh0 total res (mkTxn sh0 (tx_total t') (tx_reserved t') (tx_removed t')) e)
    (fun x t' =>
       (forall msg, io (Commit OfCreateWithData) = true ->
          data_failed sh0 total res (mkTxn sh0 (tx_total t') (tx_reserved t') (tx_removed t')) (StorageError msg)) /\
       match x with
       | TxnCommit r => data_created sh0 total o res r t'
       | TxnDrop r => data_created sh0 total o res r (mkTxn sh0 (tx_total t') (tx_reserved t') (tx_removed t'))
       end).
Proof using L Hms Hsized Hlen Hpay.
  intros Hv Hs Ht Hmt Hob Hres. pose proof (payload_nonneg msgs) as Hp0. unfold reserve_and_fill.
  assert (forall reserved, (reserved = true \/ payload msgs = 0) -> total + payload msgs <= mt ->
    meets (tx_on (fill_new io clk ms name config msgs (payload msgs) close))
      (mkTxn sh (total + payload msgs) reserved (expired_bytes o))
      (fun t' e => data_failed sh0 total res (mkTxn sh0 (tx_total t') (tx_reserved t') (tx_removed t')) e)
      (fun x t' =>
       (forall msg, io (Commit OfCreateWithData) = true ->
          data_failed sh0 total res (mkTxn sh0 (tx_total t') (tx_reserved t') (tx_removed t')) (StorageError msg)) /\
       match x with
       | TxnCommit r => data_created sh0 total o res r t'
       | TxnDrop r => data_created sh0 total o res r (mkTxn sh0 (tx_total t') (tx_reserved t') (tx_removed t'))
       end)) as Hfill.
  { intros reserved Hr Hle. apply meets_tx_on. unfold with_shard; cbn.
    assert (total + payload msgs = total + (if reserved then payload msgs else 0)) as Hcnt
      by (destruct Hr as [->|Hr]; [done|]; destruct reserved; lia).
    assert (forall e, acid_error io e -> data_failed sh0 total res
      (mkTxn sh0 (total + payload msgs) reserved (expired_bytes o)) e) as Hfail.
    { intros e He. split_and!; [done|by left|by split]. }
    apply fill_new_meets.
    - intros site msg Hf _. apply Hfail. left. eauto.
    - apply Hfail. right; by right.
    - done.
    - intros sh' Hs' Hst'. split; [intros msg Hf; apply Hfail; left; eauto|].
      exists (new_stream clk config msgs close). cbn. split_and!; [done|by etrans|done|done|lia|by split]. }
  apply meets_bind. destruct (Z.ltb_spec 0 (payload msgs)) as [Hpos|Hzero].
  - unfold meets, tx_reserve, reserve_counter, checked_add64; cbn [tx_total tx_shard tx_removed].
    rewrite (proj2 (Z.eqb_neq _ 0)) by lia.
    assert (data_failed sh0 total res (mkTxn sh0 total false (expired_bytes o)) MemoryLimitExceeded) as Hfail.
    { split_and!; [done|left; right; by left|split; cbn; lia]. }
    destruct (Z.ltb_spec (total + payload msgs) two64); [|done].
    destruct (Z.leb_spec (total + payload msgs) mt); [|done]. apply Hfill; [by left|done].
  - apply meets_ret. assert (payload msgs = 0) as Hz by lia.
    specialize (Hfill false). rewrite Hz, Z.add_0_r in Hfill. rewrite Hz. apply Hfill; [by right|lia].
Qed.

Lemma create_with_data_txn_meets sh total o :
  found_at ms sh name o -> 0 <= total <= mt -> mt < two64 ->
  let res := create_log (new_stream clk config msgs close)
               (mkCreateWithData StreamCreated (tail_offset msgs) close)
               (fun a => mkCreateWithData StreamAlreadyExists (a_next_offset a) (a_closed a)) o in
  meets (create_with_data_txn io clk mt ms name config msgs (payload msgs) close)
    (mkTxn sh total false 0) (data_failed sh total res) (data_created sh total o res).
Proof using L Hms Hsized Hlen Hpay.
  intros Hf Ht Hmt res. set (t0 := mkTxn sh total false 0).
  assert (forall e t', tx_total t' = total -> tx_reserved t' = false -> acid_error io e ->
    data_failed sh total res (tx_restore t0 t') e) as Hfail.
  { intros e t' H1 H2 He. split_and!; [done|by left|]. split; cbn; rewrite H1; rewrite ?H2; lia. }
  apply meets_tx_txn; [intros site msg Hs; apply (Hfail _ t0); [done..|left; eauto]|].
  assert (forall sh1 removed site msg, io site = true -> forall sh', data_failed sh total res
    (tx_restore t0 (with_shard (mkTxn sh1 total false removed) sh')) (StorageError msg)) as HE.
  { intros sh1 removed site msg Hs sh'. apply Hfail; [done..|left; eauto]. }
  apply meets_bind, meets_tx_on, (meets_open_streams io); [apply HE|].
  apply meets_bind, meets_tx_on, (meets_open_messages io); [apply HE|].
  apply meets_bind, meets_tx_on. destruct o as [a|]; cbn in Hf.
  - pose proof Hf as (meta & Hh & Hm & Ha).
    assert (sd_config meta = a_config a) as Hcfg by by rewrite Ha.
    assert (sd_closed meta = a_closed a) as Hcl by by rewrite Ha.
    apply (meets_get_some io _ _ (HE _ _) name meta (a_msgs a)); [done|]. rewrite Hcfg.
    unfold res, create_log in *. destruct (is_stream_expired _ _) eqn:Hx.
    + apply meets_bind. unfold meets at 1, tx_set_removed, with_shard. cbn [tx_shard tx_total tx_reserved].
      rewrite (mo_total _ _ _ Hm).
      apply meets_bind, meets_tx_on, (meets_delete_messages io); [apply HE|]. intros sh1 Hs1 Hc1.
      apply meets_bind, meets_tx_on, (meets_remove_meta io); [apply HE|]. intros sh2 Hs2 Hc2.
      assert (payload (a_msgs a) = expired_bytes (Some a)) as Hxb by (cbn; by rewrite Hx).
      unfold with_shard; cbn [tx_total tx_reserved tx_removed]. rewrite Hxb.
      unfold with_shard in *. cbn [tx_shard] in Hs1, Hc1, Hs2, Hc2.
      apply (reserve_and_fill_meets sh sh2 total (Some a)); try done.
      * unfold vacant. by rewrite Hc2, Hc1.
      * by etrans.
    + destruct (config_eq _ _).
      * apply meets_ret. split; [intros msg Hs; apply Hfail; [done..|left; eauto]|].
        exists a. cbn. rewrite Hx. rewrite (meta_next_offset _ _ _ Hm), Hcl. split_and!; [done..|lia|split; cbn; lia].
      * unfold meets, st_fail. cbn. split_and!; [done|by right|split; cbn; lia].
  - apply (meets_get_none io _ _ (HE _ _)); [done|].
    apply (reserve_and_fill_meets sh sh total None); done.
Qed.
End Create.
End Creates.
