(* ===== verification/AcidView.v ===== *)
(** * AcidView: the shards of the ACID backend as logs

    The view of the shards as logs, the invariant, and what committing a change of one
    stream does to both. *)

From S2P Require Import Prelude Errors Offsets RustStd Headers StorageCore LogSpec Config.
From S2P Require Import AcidStorage AcidTables AcidTxn AcidAppends AcidCreates.

#[local] Arguments cleanup_stale_producers : simpl never.
#[local] Arguments release_expired : simpl never.
#[local] Arguments acid_sub_total : simpl never.
#[local] Arguments notify_stream : simpl never.

Section Backend.
Context {A : AcidLib} {L : AcidLibLaws A}.

(** ** View *)

(** The log a shard has under a name. *)
Definition shard_log (sh : Shard) (name : string) : option AStream :=
  match streams_get (sh_streams sh) name with
  | Some p => (fun meta => abs_stored meta (table_of (sh_messages sh) name).*2) <$> stored_from_slice p
  | None => None
  end.

(** All the names in the databases. *)
Definition stored_names (st : AcidStorage) : gset string :=
  list_to_set (mjoin ((fun sh => (streams_iter (sh_streams sh)).*1) <$> ac_shards st)).

(** The logs as the methods find them: a name is looked up in its own shard. *)
Definition acid_view (st : AcidStorage) : View :=
  map_imap (fun name _ => shard_log (shard st name) name) (gset_to_gmap tt (stored_names st)).

Lemma shard_log_found ms sh name o : found_at ms sh name o -> shard_log sh name = o.
Proof.
  unfold shard_log. destruct o as [a|]; cbn.
  - intros (meta & (p & [= Hc Ht] & Hp) & _ & Ha). rewrite Hc, Hp, Ht, positions_data. cbn. by f_equal.
  - by intros [= -> _].
Qed.

Lemma acid_view_lookup st name : acid_view st !! name = shard_log (shard st name) name.
Proof using L.
  unfold acid_view. rewrite map_lookup_imap, lookup_gset_to_gmap. case_guard as Hin; [done|]. cbn.
  unfold shard_log. destruct (streams_get _ _) as [p|] eqn:Hg; [|done].
  exfalso. apply Hin. unfold stored_names. apply elem_of_list_to_set, list_elem_of_join.
  unfold shard in Hg. destruct (ac_shards st !! shard_index st name) as [sh|] eqn:Hsh; cbn in Hg.
  - exists ((streams_iter (sh_streams sh)).*1). split.
    + apply list_elem_of_fmap. exists (name, p). split; [done|]. by apply streams_iter_get.
    + apply list_elem_of_fmap. exists sh. split; [done|]. by eapply list_elem_of_lookup_2.
  - by rewrite streams_get_new in Hg.
Qed.

(** ** Invariant *)

Definition log_bytes (v : View) : Z := map_sum (fun a => payload (a_msgs a)) v.

(** As many shards as the (power of two) count; every stream only in its own shard,
    with exact counters; the global counter exact and within the limit. *)
Record acid_inv (st : AcidStorage) : Prop := mkAcidInv {
  ai_count : exists k, 0 <= k <= 8 /\ ac_shard_count st = 2 ^ k;
  ai_length : length (ac_shards st) = Z.to_nat (ac_shard_count st);
  ai_max_total : u64 (ac_max_total_bytes st);
  ai_max_stream : u64 (ac_max_stream_bytes st);
  ai_shards : forall i sh name, ac_shards st !! i = Some sh ->
    vacant sh name \/ (shard_index st name = i /\ exists a, stores (ac_max_stream_bytes st) sh name a);
  ai_sum : ac_total_bytes st = log_bytes (acid_view st);
  ai_limit : ac_total_bytes st <= ac_max_total_bytes st
}.

(** A name is always hashed to an existing shard. *)
Definition shards_complete (st : AcidStorage) : Prop :=
  (exists k, 0 <= k <= 8 /\ ac_shard_count st = 2 ^ k) /\
  length (ac_shards st) = Z.to_nat (ac_shard_count st).

Lemma acid_inv_complete st : acid_inv st -> shards_complete st.
Proof. by intros []. Qed.

Lemma shard_index_bound st name : shards_complete st -> (shard_index st name < length (ac_shards st))%nat.
Proof using L.
  intros [(k & Hk & Hc) Hlen]. rewrite Hlen.
  unfold shard_index. rewrite Hc. assert (2 ^ k - 1 = Z.ones k) as -> by (rewrite Z.ones_equiv; lia).
  rewrite Z.land_ones by lia. pose proof (Z.mod_pos_bound (seahash (as_bytes name)) (2 ^ k)).
  assert (0 < 2 ^ k) by (apply Z.pow_pos_nonneg; lia). lia.
Qed.

Lemma shard_complete st name :
  shards_complete st -> ac_shards st !! shard_index st name = Some (shard st name).
Proof using L.
  intros Hc. unfold shard. destruct (lookup_lt_is_Some_2 _ _ (shard_index_bound st name Hc)) as [sh Hsh].
  by rewrite Hsh.
Qed.

Lemma shard_index_lt st name : acid_inv st -> (shard_index st name < length (ac_shards st))%nat.
Proof using L. intros Hinv. by apply shard_index_bound, acid_inv_complete. Qed.
Lemma shard_lookup st name : acid_inv st -> ac_shards st !! shard_index st name = Some (shard st name).
Proof using L. intros Hinv. by apply shard_complete, acid_inv_complete. Qed.

(** The shard of a name has the log of the view under it. *)
Lemma shard_found st name :
  acid_inv st -> found_at (ac_max_stream_bytes st) (shard st name) name (acid_view st !! name).
Proof using L.
  intros Hinv. rewrite acid_view_lookup.
  destruct (ai_shards _ Hinv _ _ name (shard_lookup st name Hinv)) as [Hv|[_ [a Ha]]].
  - by rewrite (shard_log_found (ac_max_stream_bytes st) _ _ None).
  - by rewrite (shard_log_found (ac_max_stream_bytes st) _ _ (Some a)).
Qed.

Lemma acid_inv_nonneg st : map_Forall (fun _ a => 0 <= payload (a_msgs a)) (acid_view st).
Proof. intros name a _. apply payload_nonneg. Qed.

Lemma acid_stored_le st name :
  acid_inv st -> 0 <= stored_bytes (acid_view st !! name) <= ac_total_bytes st.
Proof.
  intros Hinv. rewrite (ai_sum _ Hinv). destruct (acid_view st !! name) as [a|] eqn:Ha; cbn.
  - exact (map_sum_lookup_le _ _ _ _ (acid_inv_nonneg st) Ha).
  - split; [lia|]. apply map_sum_nonneg, acid_inv_nonneg.
Qed.

(** ** Committing a change of one stream *)

(** The storage with another shard for [name] and another total. *)
Definition with_commit (st : AcidStorage) (name : string) (sh : Shard) (total : Z) (ns : gmap string Z)
  : AcidStorage :=
  mkAcid (<[shard_index st name := sh]> (ac_shards st)) (ac_shard_count st) total
    (ac_max_total_bytes st) (ac_max_stream_bytes st) ns.

Lemma same_but_found ms name sh sh' n o :
  same_but name sh sh' -> n <> name -> found_at ms sh n o -> found_at ms sh' n o.
Proof.
  intros Hs Hn. pose proof (Hs n Hn) as Hc. destruct o as [a|]; cbn.
  - intros (meta & (p & Hp & ?) & ? & ?). exists meta. split_and!; try done. exists p. by rewrite Hc.
  - unfold vacant. by rewrite Hc.
Qed.

Lemma with_commit_view st name sh total ns o :
  acid_inv st -> same_but name (shard st name) sh ->
  found_at (ac_max_stream_bytes st) sh name o ->
  acid_view (with_commit st name sh total ns) = partial_alter (fun _ => o) name (acid_view st).
Proof using L.
  intros Hinv Hs Hf. apply map_eq. intros n. rewrite acid_view_lookup.
  assert (forall n', shard_index (with_commit st name sh total ns) n' = shard_index st n') as Hidx by done.
  unfold shard at 1. rewrite Hidx. cbn [with_commit ac_shards].
  destruct (decide (n = name)) as [->|Hne].
  - rewrite lookup_partial_alter, list_lookup_insert_eq by by apply shard_index_lt. cbn.
    rewrite decide_True by done. by eapply shard_log_found.
  - rewrite lookup_partial_alter_ne by done. rewrite acid_view_lookup.
    destruct (decide (shard_index st n = shard_index st name)) as [Hi|Hi].
    + rewrite Hi, list_lookup_insert_eq by by apply shard_index_lt. cbn.
      assert (shard st n = shard st name) as Heq by (unfold shard; by rewrite Hi).
      eapply shard_log_found, same_but_found; [done|done|]. rewrite <- Heq.
      rewrite <- acid_view_lookup. by apply shard_found.
    + rewrite list_lookup_insert_ne by done. done.
Qed.

Lemma log_bytes_alter v name (o : option AStream) :
  log_bytes (partial_alter (fun _ => o) name v) = log_bytes v - stored_bytes (v !! name) + stored_bytes o.
Proof.
  unfold log_bytes. destruct o as [a|].
  - change (partial_alter (fun _ => Some a) name v) with (<[name := a]> v).
    destruct (v !! name) as [b|] eqn:Hb; cbn.
    + by rewrite (map_sum_update _ _ _ _ _ Hb).
    + rewrite map_sum_insert_new by done. lia.
  - change (partial_alter (fun _ => None) name v) with (delete name v).
    destruct (v !! name) as [b|] eqn:Hb; cbn.
    + rewrite (map_sum_delete _ v name b Hb). lia.
    + rewrite delete_id by done. lia.
Qed.

(** The total after the change, from the bytes of the stream. *)
Lemma with_commit_inv st name sh total ns o :
  acid_inv st -> same_but name (shard st name) sh ->
  found_at (ac_max_stream_bytes st) sh name o ->
  total = ac_total_bytes st - stored_bytes (acid_view st !! name) + stored_bytes o ->
  total <= ac_max_total_bytes st ->
  acid_inv (with_commit st name sh total ns).
Proof using L.
  intros Hinv Hs Hf Ht Hle. pose proof (with_commit_view st name sh total ns o Hinv Hs Hf) as Hv.
  pose proof (shard_lookup st name Hinv) as Hl. pose proof (shard_index_lt st name Hinv) as Hlt.
  destruct Hinv as [Hc Hlen Hmt Hms Hsh Hsum Hlim]. split; cbn; try done.
  - by rewrite length_insert.
  - intros i sh' n Hi. change (shard_index _ n) with (shard_index st n).
    destruct (decide (i = shard_index st name)) as [->|Hne].
    + rewrite list_lookup_insert_eq in Hi by done. injection Hi as <-.
      destruct (decide (n = name)) as [->|Hn]; [destruct o; [right; eauto|by left]|].
      destruct (Hsh _ _ n Hl) as [Hv'|[Hi [a Ha]]].
      * left. by apply (same_but_found (ac_max_stream_bytes st) name (shard st name) sh n None).
      * right. split; [done|]. exists a.
        by apply (same_but_found (ac_max_stream_bytes st) name (shard st name) sh n (Some a)).
    + rewrite list_lookup_insert_ne in Hi by done. eauto.
  - rewrite Hv, log_bytes_alter. by rewrite <- Hsum.
Qed.

(** Nothing happened to the databases. *)
Lemma with_commit_same st name :
  acid_inv st -> with_commit st name (shard st name) (ac_total_bytes st) (ac_notifiers st) = st.
Proof using L.
  intros Hinv. unfold with_commit. rewrite list_insert_id by by apply shard_lookup. by destruct st.
Qed.

(** States that differ in their notifiers only. *)
Lemma acid_inv_notifiers st ns : acid_inv st -> acid_inv (set_notifiers st ns).
Proof. by intros []. Qed.
Lemma acid_view_notifiers st ns : acid_view (set_notifiers st ns) = acid_view st.
Proof. done. Qed.
Lemma notify_stream_spec name st : exists ns, notify_stream name st = set_notifiers st ns.
Proof.
  unfold notify_stream. destruct (ac_notifiers st !! name); [eauto|].
  exists (ac_notifiers st). by destruct st.
Qed.
End Backend.
