(* ===== verification/AcidRefinement.v ===== *)
(** * AcidRefinement: the ACID backend implements the log contract

    Every transaction lands: it does to its stream what the abstract log prescribes, or
    nothing, and the bytes it reserved are stored or owed. Every method keeps the
    invariant, and answers as the abstract log does or fails without a trace. *)

From S2P Require Import Prelude Errors Offsets RustStd Headers StorageCore LogSpec Config.
From S2P Require Import AcidStorage AcidTables AcidTxn AcidAppends AcidCreates AcidView.

#[local] Arguments cleanup_stale_producers : simpl never.
#[local] Arguments release_expired : simpl never.
#[local] Arguments acid_sub_total : simpl never.
#[local] Arguments notify_stream : simpl never.

Section Backend.
Context {A : AcidLib} {L : AcidLibLaws A}.

(** ** Methods on one stream *)

(** What a method does to the logs: the abstract outcome, or an error the backend adds. *)
Definition answers {R} (io : AcidIo) (spec : View -> View * Result Error R) (st : AcidStorage)
    (out : AcidStorage * Result Error R) : Prop :=
  acid_inv out.1 /\
  ((acid_view out.1, out.2) = spec (acid_view st) \/
   (acid_view out.1 = acid_view st /\ exists e, out.2 = Err e /\ acid_error io e)).

Lemma answers_refined {R} io (spec : View -> View * Result Error R) st out clk name :
  answers io spec st out ->
  acid_inv out.1 /\ refined clk name spec (acid_view st) (acid_view out.1) out.2.
Proof.
  intros [Hinv H]. split; [done|]. exists (acid_view st). split; [constructor|].
  destruct H as [H|[H (e & He & Hae)]]; [by left|right]. eauto using acid_error_resource.
Qed.

Lemma acid_sub_total_add bytes st :
  0 <= ac_total_bytes st -> 0 <= bytes ->
  acid_sub_total bytes (set_total st (ac_total_bytes st + bytes)) = st.
Proof.
  intros H0 Hb. unfold acid_sub_total. destruct (Z.eqb_spec bytes 0) as [->|].
  - rewrite Z.add_0_r. by destruct st.
  - cbn. rewrite saturating_sub64_add by done. by destruct st.
Qed.

Lemma reserve_counter_spec mt bytes current :
  0 <= bytes -> 0 <= current <= mt -> mt < two64 ->
  reserve_counter mt bytes current =
  if current + bytes <=? mt then Ok (current + bytes) else Err MemoryLimitExceeded.
Proof.
  intros Hb Hc Hm. unfold reserve_counter, checked_add64. destruct (Z.eqb_spec bytes 0) as [->|].
  - rewrite Z.add_0_r. by rewrite (proj2 (Z.leb_le _ _)) by lia.
  - destruct (Z.ltb_spec (current + bytes) two64), (Z.leb_spec (current + bytes) mt); try done; lia.
Qed.

(** ** Transactions on one stream *)

(** What the transaction of a call on [name] does: [bytes] were reserved for it and
    [owed] are to be given back, so that the bytes reserved and those of the stream
    before are the bytes owed and those of the stream after. *)
Definition lands {R} (io : AcidIo) (spec : View -> View * Result Error R) (st : AcidStorage)
    (name : string) (bytes owed : Z) (sh : Shard) (r : Result Error R) : Prop :=
  0 <= owed /\
  exists o, same_but name (shard st name) sh /\ found_at (ac_max_stream_bytes st) sh name o /\
    stored_bytes o + owed = stored_bytes (acid_view st !! name) + bytes /\
    ((partial_alter (fun _ => o) name (acid_view st), r) = spec (acid_view st) \/
     (o = acid_view st !! name /\ exists e, r = Err e /\ acid_error io e)).

(** The call as a whole. *)
Lemma lands_answers {R} io (spec : View -> View * Result Error R) st name bytes owed sh r ns :
  acid_inv st -> ac_total_bytes st + bytes <= ac_max_total_bytes st ->
  lands io spec st name bytes owed sh r ->
  answers io spec st (with_commit st name sh (ac_total_bytes st + bytes - owed) ns, r).
Proof using L.
  intros Hinv Hle (Ho & o & Hs & Hf & Hb & Hr). split; cbn [fst snd].
  - apply (with_commit_inv _ _ _ _ _ o); [done..|lia|lia].
  - rewrite (with_commit_view _ _ _ _ _ o) by done. destruct Hr as [Hr|[-> Hr]]; [by left|right].
    split; [apply partial_alter_self|done].
Qed.

Lemma lands_failed {R} io (spec : View -> View * Result Error R) st name bytes e :
  acid_inv st -> 0 <= bytes -> acid_error io e \/ spec (acid_view st) = (acid_view st, Err e) ->
  lands io spec st name bytes bytes (shard st name) (Err e).
Proof using L.
  intros Hinv Hb He. split; [done|]. exists (acid_view st !! name).
  split_and!; [done|by apply shard_found|lia|]. destruct He as [He|He]; [right; eauto|left].
  by rewrite He, partial_alter_self.
Qed.

Lemma lands_stored {R} io (spec : View -> View * Result Error R) st name bytes owed sh a r :
  same_but name (shard st name) sh -> stores (ac_max_stream_bytes st) sh name a ->
  0 <= owed -> payload (a_msgs a) + owed = stored_bytes (acid_view st !! name) + bytes ->
  (<[name := a]> (acid_view st), r) = spec (acid_view st) ->
  lands io spec st name bytes owed sh r.
Proof using. intros. split; [done|]. exists (Some a). split_and!; try done. by left. Qed.

(** From what is known of the transactions. *)
Lemma performs_lands {R} io (spec : View -> View * Result Error R) st name bytes (undo : Result Error R -> bool)
    res sh r :
  acid_inv st -> 0 <= bytes ->
  performs (ac_max_stream_bytes st) io name (shard st name) res (sh, r) ->
  spec (acid_view st) = update_view (acid_view st) name res -> (forall e, undo (Err e) = true) ->
  (forall a x, res = Ok (a, x) ->
     payload (a_msgs a) = stored_bytes (acid_view st !! name) + (if undo (Ok x) then 0 else bytes)) ->
  lands io spec st name bytes (if undo r then bytes else 0) sh r.
Proof using L.
  intros Hinv Hb Hp Hspec Hundo Hbytes. unfold performs in Hp. cbn [fst snd] in Hp. destruct r as [x|e].
  - destruct Hp as (a & Hres & Hs & Hst). specialize (Hbytes a x Hres).
    apply (lands_stored _ _ _ _ _ _ _ a); [done..|by destruct (undo _)|by destruct (undo _); lia|].
    by rewrite Hspec, Hres.
  - destruct Hp as [-> Hp]. rewrite Hundo. apply lands_failed; [done..|].
    destruct Hp as [Hp|Hp]; [by left|right]. by rewrite Hspec, Hp.
Qed.

(** ** The appends *)

Definition failed {R} (r : Result Error R) : bool := negb (is_ok r).
Definition not_accepted (r : Result Error ProducerAppendResult) : bool :=
  match r with Err _ | Ok (Duplicate _ _ _ _) => true | Ok _ => false end.

Lemma fits_batch st name msgs :
  acid_inv st -> fits (acid_view st) name msgs ->
  0 <= payload msgs < two64 /\ acid_batch_bytes msgs = payload msgs /\
  (ac_total_bytes st + payload msgs <= ac_max_total_bytes st ->
   forall a, acid_view st !! name = Some a ->
     Z.of_nat (length (a_msgs a) + length msgs) < two64 /\
     payload (a_msgs a) + payload msgs < two64).
Proof.
  intros Hinv (Hp & _ & Hfit)%fits_u64. pose proof (payload_nonneg msgs).
  split_and!; [lia..|by apply acid_batch_bytes_payload|]. intros Hle a Ha.
  split; [by apply Hfit|]. destruct (ai_max_total _ Hinv). pose proof (acid_stored_le st name Hinv) as Hst.
  rewrite Ha in Hst. cbn in Hst. lia.
Qed.

Lemma appendable_log_ok {R} clk ct a (k : Result Error R) x :
  appendable_log clk ct a k = Ok x -> k = Ok x.
Proof. unfold appendable_log. destruct (is_stream_expired _ _), (a_closed a); try done.
  by destruct (validate_content_type _ _). Qed.

Lemma produce_log_bytes clk ct a msgs p close seq a' x :
  produce_log clk ct a msgs p close seq = Ok (a', x) ->
  payload (a_msgs a') = payload (a_msgs a) +
    match x with Duplicate _ _ _ _ => 0 | Accepted _ _ _ _ => payload msgs end.
Proof.
  unfold produce_log. destruct (is_stream_expired _ _); [done|].
  destruct (log_produce _ _ _ _ _ _ _) as [[b y]|] eqn:Hp; [|done]. cbn [result_bind].
  unfold unless_duplicate. cbn. revert Hp. unfold log_produce.
  destruct (if decide (msgs = []) then _ else _); [|done]. cbn [result_bind].
  destruct (check_producer _ _ _) as [[|e q]|]; cbn [result_bind]; [| |done].
  - destruct (validate_seq _ _); [|done]. cbn [result_bind]. intros [= <- <-] [= <- <-].
    unfold log_accept. destruct close; cbn; by rewrite payload_app.
  - intros [= <- <-] [= <- <-]. lia.
Qed.

(** The transaction of an append lands, once its bytes are reserved. *)
Section Appends.
Context (io : AcidIo) (clk : Clock) (st : AcidStorage) (name : string) (msgs : list bytes) (ct : string).
Hypothesis Hinv : acid_inv st.
Hypothesis Hfit : fits (acid_view st) name msgs.
Hypothesis Hroom : ac_total_bytes st + payload msgs <= ac_max_total_bytes st.

Let ms := ac_max_stream_bytes st.

Lemma append_lands data sh r :
  msgs = [data] -> append_txn io clk ms name data ct (shard st name) = (sh, r) ->
  lands io (spec_append clk name data ct) st name (payload msgs) (if failed r then payload msgs else 0) sh r.
Proof using L Hinv Hfit Hroom.
  intros Hm Ht. destruct (fits_batch st name msgs Hinv Hfit) as (Hp & _ & Hb).
  pose proof (shard_found st name Hinv) as Hf. destruct (acid_view st !! name) as [a|] eqn:Ha; cbn in Hf.
  - destruct (Hb Hroom a eq_refl).
    apply (performs_lands _ _ _ _ _ failed (appendable_log clk ct a (Ok (log_append a msgs None, a_next_offset a))));
      [done|lia|..|done|].
    + rewrite <- Ht, Hm. apply (append_txn_performs _ _ _ _ _ _ _ msgs); by rewrite ?Hm in *.
    + by rewrite (spec_append_at clk name ct _ a), Hm.
    + intros a' x Hr%appendable_log_ok. injection Hr as <- <-. rewrite Ha. cbn. by rewrite payload_app.
  - apply (performs_lands _ _ _ _ _ failed (Err (NotFound name))); [done|lia|..|done|done].
    + rewrite <- Ht. by apply performs_absent.
    + unfold spec_append, appendable, live_stream. by rewrite Ha.
Qed.

Lemma batch_lands seq sh r :
  msgs <> [] -> batch_txn io clk ms name msgs (payload msgs) ct seq (shard st name) = (sh, r) ->
  lands io (spec_batch_append clk name msgs ct seq) st name (payload msgs)
    (if failed r then payload msgs else 0) sh r.
Proof using L Hinv Hfit Hroom.
  intros Hne Ht. destruct (fits_batch st name msgs Hinv Hfit) as (Hp & _ & Hb).
  pose proof (shard_found st name Hinv) as Hf. destruct (acid_view st !! name) as [a|] eqn:Ha; cbn in Hf.
  - destruct (Hb Hroom a eq_refl).
    apply (performs_lands _ _ _ _ _ failed (appendable_log clk ct a (let? _ := validate_seq (a_last_seq a) seq in
        Ok (log_append a msgs seq, a_next_offset (log_append a msgs seq))))); [done|lia|..|done|].
    + rewrite <- Ht. by apply batch_txn_performs.
    + by rewrite (spec_batch_append_at clk name ct _ a).
    + intros a' x Hr%appendable_log_ok. destruct (validate_seq _ _); [|done]. injection Hr as <- <-.
      rewrite Ha. cbn. by rewrite payload_app.
  - apply (performs_lands _ _ _ _ _ failed (Err (NotFound name))); [done|lia|..|done|done].
    + rewrite <- Ht. by apply performs_absent.
    + unfold spec_batch_append, appendable, live_stream. by rewrite Ha, decide_False.
Qed.

Lemma producer_lands p close seq sh r :
  producer_txn io clk ms name msgs (payload msgs) ct p close seq (shard st name) = (sh, r) ->
  lands io (spec_append_with_producer clk name msgs ct p close seq) st name (payload msgs)
    (if not_accepted r then payload msgs else 0) sh r.
Proof using L Hinv Hfit Hroom.
  intros Ht. destruct (fits_batch st name msgs Hinv Hfit) as (Hp & _ & Hb).
  pose proof (shard_found st name Hinv) as Hf. destruct (acid_view st !! name) as [a|] eqn:Ha; cbn in Hf.
  - destruct (Hb Hroom a eq_refl).
    apply (performs_lands _ _ _ _ _ not_accepted (produce_log clk ct a msgs p close seq)); [done|lia|..|done|].
    + rewrite <- Ht. by apply producer_txn_performs.
    + unfold spec_append_with_producer, produce_log, live_stream. rewrite Ha.
      by destruct (is_stream_expired _ _).
    + intros a' x Hr%produce_log_bytes. rewrite Ha, Hr. by destruct x.
  - apply (performs_lands _ _ _ _ _ not_accepted (Err (NotFound name))); [done|lia|..|done|done].
    + rewrite <- Ht. by apply performs_absent.
    + unfold spec_append_with_producer, live_stream. by rewrite Ha.
Qed.
End Appends.

(** A transaction between a reservation and its settlement. *)
Lemma with_reservation_answers {R} io spec st name bytes (undo ring : Result Error R -> bool) txn :
  acid_inv st -> 0 <= bytes ->
  (ac_total_bytes st + bytes <= ac_max_total_bytes st ->
   forall sh r, txn (ac_max_stream_bytes st) (shard st name) = (sh, r) ->
     lands io spec st name bytes (if undo r then bytes else 0) sh r) ->
  answers io spec st (with_reservation name bytes undo ring txn st).
Proof using L.
  intros Hinv Hb Htxn. unfold with_reservation, reserve_total_bytes.
  pose proof (acid_stored_le st name Hinv) as Hst. destruct (ai_max_total _ Hinv) as [_ Hmt].
  pose proof (ai_limit _ Hinv) as Hlim. rewrite reserve_counter_spec by lia.
  destruct (Z.leb_spec (ac_total_bytes st + bytes) (ac_max_total_bytes st)) as [Hle|Hgt].
  2:{ split; [done|right]. split; [done|]. exists MemoryLimitExceeded. split; [done|]. right; by left. }
  specialize (Htxn Hle). unfold on_shard. cbn [set_total ac_max_stream_bytes].
  change (shard (set_total st _) name) with (shard st name).
  destruct (txn _ _) as [sh' r] eqn:Hrun. specialize (Htxn _ _ eq_refl). set (st1 := set_shards _ _).
  assert (exists ns, (if ring r then notify_stream name (if undo r then acid_sub_total bytes st1 else st1)
                      else if undo r then acid_sub_total bytes st1 else st1) =
    with_commit st name sh' (ac_total_bytes st + bytes - (if undo r then bytes else 0)) ns) as [ns ->].
  { assert ((if undo r then acid_sub_total bytes st1 else st1) =
      with_commit st name sh' (ac_total_bytes st + bytes - (if undo r then bytes else 0)) (ac_notifiers st)) as ->.
    { destruct (undo r).
      - etrans; [apply (acid_sub_total_add bytes (with_commit st name sh' (ac_total_bytes st) (ac_notifiers st)));
          cbn; lia|]. unfold with_commit. f_equal. lia.
      - unfold st1, with_commit, set_shards, set_total. cbn. f_equal. lia. }
    destruct (ring r); [|eauto]. edestruct (notify_stream_spec name) as [ns ->]. by exists ns. }
  by apply lands_answers.
Qed.

Lemma acid_append_answers st io clk name data ct :
  acid_inv st -> fits (acid_view st) name [data] ->
  answers io (spec_append clk name data ct) st (acid_append io clk name data ct st).
Proof using L.
  intros Hinv Hfit. destruct (fits_batch st name [data] Hinv Hfit) as (Hp & _ & _). unfold acid_append.
  assert (len_u64 data = payload [data]) as Hlen by (cbn in *; rewrite len_u64_small; lia).
  rewrite Hlen. apply with_reservation_answers; [done|lia|]. intros Hle sh r. by apply append_lands.
Qed.

Lemma acid_batch_append_answers st io clk name msgs ct seq :
  acid_inv st -> fits (acid_view st) name msgs ->
  answers io (spec_batch_append clk name msgs ct seq) st (acid_batch_append io clk name msgs ct seq st).
Proof using L.
  intros Hinv Hfit. destruct (fits_batch st name msgs Hinv Hfit) as (Hp & Hbb & _).
  destruct msgs as [|m msgs]; [by split; [|left]|]. cbn [acid_batch_append]. rewrite Hbb.
  apply with_reservation_answers; [done|lia|]. intros Hle sh r. by apply batch_lands.
Qed.

Lemma acid_append_with_producer_answers st io clk name msgs ct p close seq :
  acid_inv st -> fits (acid_view st) name msgs ->
  answers io (spec_append_with_producer clk name msgs ct p close seq) st
    (acid_append_with_producer io clk name msgs ct p close seq st).
Proof using L.
  intros Hinv Hfit. destruct (fits_batch st name msgs Hinv Hfit) as (Hp & Hbb & _).
  unfold acid_append_with_producer. rewrite Hbb.
  apply with_reservation_answers; [done|lia|]. intros Hle sh r. by apply producer_lands.
Qed.

(** ** Closing and deleting *)

Lemma close_lands st io clk name sh r :
  acid_inv st -> close_txn io clk name (shard st name) = (sh, r) ->
  lands io (spec_close clk name) st name 0 0 sh r.
Proof using L.
  intros Hinv Ht. pose proof (shard_found st name Hinv) as Hf.
  set (res := match acid_view st !! name with Some a => close_log clk a | None => Err (NotFound name) end).
  assert (0 = (if failed r then 0 else 0)) as E0 by by destruct (failed r).
  rewrite E0 at 2. apply (performs_lands _ _ _ _ _ failed res); [done|done|..|done|].
  - rewrite <- Ht. unfold res.
    destruct (acid_view st !! name) as [a|]; [by apply close_txn_performs|by apply close_txn_absent].
  - unfold spec_close, res, close_log, live_stream. destruct (acid_view st !! name) as [a|]; [|done].
    by destruct (is_stream_expired _ _).
  - unfold res, close_log. destruct (acid_view st !! name) as [a|]; [|done].
    destruct (is_stream_expired _ _); [done|]. intros ? ? [= <- <-]. cbn. lia.
Qed.

(** What a delete or a create answers, and the bytes it removed. *)
Definition removal {R} (r : Result Error (R * Z)) : Result Error R * Z :=
  match r with Ok (x, removed) => (Ok x, removed) | Err e => (Err e, 0) end.

Lemma delete_lands st io name sh r :
  acid_inv st -> delete_txn io name (shard st name) = (sh, r) ->
  let out := removal (let? removed := r in Ok (tt, removed)) in
  lands io (spec_delete name) st name 0 out.2 sh out.1.
Proof using L.
  intros Hinv Ht. pose proof (shard_found st name Hinv) as Hf.
  pose proof (delete_txn_meets _ io name _ _ Hf) as Hd. unfold meets in Hd. rewrite Ht in Hd.
  pose proof (acid_stored_le st name Hinv). destruct r as [removed|e]; cbn.
  - destruct Hd as ([a Ha] & -> & Hs & Hv). split; [lia|]. exists None.
    split_and!; [done|done|cbn; lia|left]. unfold spec_delete. by rewrite Ha.
  - destruct Hd as [-> Hd]. apply lands_failed; [done..|].
    destruct Hd as [(site & msg & Hs & ->)|[Hn ->]]; [left; left; eauto|right].
    unfold spec_delete. by rewrite Hn.
Qed.

Lemma acid_sub_total_commit st name sh total ns bytes :
  0 <= bytes <= total ->
  acid_sub_total bytes (with_commit st name sh total ns) = with_commit st name sh (total - bytes) ns.
Proof.
  intros Hb. unfold acid_sub_total. destruct (Z.eqb_spec bytes 0) as [->|].
  - by rewrite Z.sub_0_r.
  - unfold set_total, with_commit, saturating_sub64. cbn. f_equal. lia.
Qed.

Lemma on_shard_commit {R} name (txn : ST Shard Error R) st sh r :
  txn (shard st name) = (sh, r) ->
  on_shard name txn st = (with_commit st name sh (ac_total_bytes st) (ac_notifiers st), r).
Proof. intros Ht. unfold on_shard. by rewrite Ht. Qed.

(** A transaction that only gives bytes back. *)
Lemma lands_released {R} io (spec : View -> View * Result Error R) st name owed sh r ns :
  acid_inv st -> lands io spec st name 0 owed sh r ->
  0 <= owed <= ac_total_bytes st /\
  answers io spec st (with_commit st name sh (ac_total_bytes st - owed) ns, r).
Proof using L.
  intros Hinv Hl. split.
  - destruct Hl as (Ho & o & _ & _ & Hb & _). pose proof (acid_stored_le st name Hinv).
    assert (0 <= stored_bytes o) by (destruct o; cbn; [apply payload_nonneg|lia]). lia.
  - rewrite <- (Z.add_0_r (ac_total_bytes st)). apply lands_answers; [done| |done].
    pose proof (ai_limit _ Hinv). lia.
Qed.

Lemma acid_close_answers st io clk name :
  acid_inv st -> answers io (spec_close clk name) st (acid_close_stream io clk name st).
Proof using L.
  intros Hinv. unfold acid_close_stream. destruct (close_txn io clk name (shard st name)) as [sh r] eqn:Ht.
  rewrite (on_shard_commit _ _ _ _ _ Ht). pose proof (close_lands _ _ _ _ _ _ Hinv Ht) as Hl.
  destruct r as [[]|e].
  - edestruct (notify_stream_spec name) as [ns ->].
    rewrite <- (Z.sub_0_r (ac_total_bytes st)). by apply (lands_released _ _ _ _ _ _ _ ns Hinv Hl).
  - rewrite <- (Z.sub_0_r (ac_total_bytes st)). by apply (lands_released _ _ _ _ _ _ _ _ Hinv Hl).
Qed.

Lemma acid_delete_answers st io name :
  acid_inv st -> answers io (spec_delete name) st (acid_delete io name st).
Proof using L.
  intros Hinv. unfold acid_delete. destruct (delete_txn io name (shard st name)) as [sh r] eqn:Ht.
  rewrite (on_shard_commit _ _ _ _ _ Ht). pose proof (delete_lands _ _ _ _ _ Hinv Ht) as Hl.
  destruct r as [removed|e]; cbn in Hl.
  - destruct (lands_released _ _ _ _ _ _ _ (delete name (ac_notifiers st)) Hinv Hl) as [Hb Ha].
    by rewrite acid_sub_total_commit.
  - rewrite <- (Z.sub_0_r (ac_total_bytes st)). by apply (lands_released _ _ _ _ _ _ _ _ Hinv Hl).
Qed.

(** ** Creating *)

Lemma release_expired_commit name removed st sh total ns :
  0 <= removed <= total ->
  exists ns', release_expired name removed (with_commit st name sh total ns) =
              with_commit st name sh (total - removed) ns'.
Proof.
  intros Hr. unfold release_expired. destruct (Z.ltb_spec 0 removed).
  - rewrite acid_sub_total_commit by done. unfold drop_notifier. by eexists.
  - exists ns. f_equal. lia.
Qed.

(** The abstract create and what is there. *)
Lemma live_stream_found clk name v :
  live_stream clk name v =
  match v !! name with
  | Some a => if is_stream_expired (clk 0%nat) (a_config a) then Err StreamExpired else Ok a
  | None => Err (NotFound name)
  end.
Proof. unfold live_stream. by destruct (v !! name). Qed.

Lemma expired_bytes_le clk o : 0 <= expired_bytes clk o <= stored_bytes o.
Proof.
  destruct o as [a|]; cbn; [|lia]. pose proof (payload_nonneg (a_msgs a)).
  destruct (is_stream_expired _ _); lia.
Qed.

Lemma create_lands st io clk name config sh r :
  acid_inv st -> create_txn io clk name config (shard st name) = (sh, r) ->
  lands io (spec_create clk name config) st name 0 (removal r).2 sh (removal r).1.
Proof using L.
  intros Hinv Ht. pose proof (shard_found st name Hinv) as Hf. set (o := acid_view st !! name) in *.
  assert (0 <= ac_max_stream_bytes st) as Hms by (by destruct (ai_max_stream _ Hinv)).
  pose proof (create_txn_performs io clk _ name config Hms (shard st name) o Hf) as Hp.
  unfold performs in Hp. rewrite Ht in Hp. cbn [fst snd] in Hp. pose proof (expired_bytes_le clk o) as Hx.
  destruct r as [[result removed]|e]; cbn [removal fst snd].
  - destruct Hp as (a' & Hres & Hs & Hst). apply (lands_stored _ _ _ _ _ _ _ a'); [done..| | |];
      fold o; unfold spec_create; rewrite ?live_stream_found; fold o;
      unfold create_log, expired_bytes, stored_bytes in *; destruct o as [a|] eqn:Ho;
      repeat (destruct (is_stream_expired _ _) || destruct (config_eq _ _)); simplify_eq/=; try done; try lia.
    by rewrite insert_id.
  - destruct Hp as [-> Hp]. apply lands_failed; [done..|]. destruct Hp as [Hp|Hres]; [by left|right].
    unfold spec_create. rewrite live_stream_found. fold o. unfold create_log in Hres.
    destruct o as [a|]; [|done]. destruct (is_stream_expired _ _); [done|].
    by destruct (config_eq _ _); [|injection Hres as <-].
Qed.

Lemma acid_create_answers st io clk name config :
  acid_inv st -> answers io (spec_create clk name config) st (acid_create_stream io clk name config st).
Proof using L.
  intros Hinv. unfold acid_create_stream.
  destruct (create_txn io clk name config (shard st name)) as [sh r] eqn:Ht.
  rewrite (on_shard_commit _ _ _ _ _ Ht). pose proof (create_lands _ _ _ _ _ _ _ Hinv Ht) as Hl.
  destruct r as [[result removed]|e]; cbn [removal fst snd] in Hl.
  - destruct (lands_released _ _ _ _ _ _ _ ∅ Hinv Hl) as [Hb _].
    destruct (release_expired_commit name removed st sh (ac_total_bytes st) (ac_notifiers st) Hb) as [ns ->].
    by apply lands_released.
  - rewrite <- (Z.sub_0_r (ac_total_bytes st)). by apply (lands_released _ _ _ _ _ _ _ _ Hinv Hl).
Qed.

(** The closure of a create with data: it may have found another total than the commit
    does. *)
Definition data_closed (mt ms : Z) (sh : Shard) (o : option AStream) (total : Z) (io : AcidIo) (clk : Clock)
    (name : string) (config : StreamConfig) (msgs : list bytes) (close : bool) (t : Txn)
    (r : Result Error CreateWithDataResult) : Prop :=
  let res := create_log clk config (new_stream clk config msgs close)
               (mkCreateWithData StreamCreated (tail_offset msgs) close)
               (fun a => mkCreateWithData StreamAlreadyExists (a_next_offset a) (a_closed a)) o in
  match r with
  | Ok x => data_created clk ms name mt msgs sh total o res x t
  | Err e => data_failed io mt msgs sh total res t e
  end.

(** The bytes a create with data has reserved, and those it owes at its end. *)
Definition data_reserved (bytes : Z) (t : Txn) : Z := if tx_reserved t then bytes else 0.
Definition data_owed (bytes : Z) (t : Txn) (r : Result Error CreateWithDataResult) : Z :=
  match r with Err _ => data_reserved bytes t | Ok _ => tx_removed t end.

Lemma closure_closed st io clk name config msgs close t r :
  acid_inv (set_total st (log_bytes (acid_view st))) ->
  0 <= ac_total_bytes st <= ac_max_total_bytes st -> fits (acid_view st) name msgs -> sized msgs ->
  create_with_data_txn io clk (ac_max_total_bytes st) (ac_max_stream_bytes st) name config msgs (payload msgs)
    close (mkTxn (shard st name) (ac_total_bytes st) false 0) = (t, r) ->
  data_closed (ac_max_total_bytes st) (ac_max_stream_bytes st) (shard st name) (acid_view st !! name)
    (ac_total_bytes st) io clk name config msgs close t r.
Proof using L.
  intros Hinv Htot Hfit Hsz Ht. destruct (fits_u64 _ _ _ Hfit) as (Hp & Hlen & _).
  pose proof (shard_found _ name Hinv) as Hf. destruct (ai_max_stream _ Hinv) as [Hms _].
  destruct (ai_max_total _ Hinv) as [_ Hmt].
  pose proof (create_with_data_txn_meets io clk (ac_max_stream_bytes st) name config Hms (ac_max_total_bytes st)
    msgs close Hsz Hlen Hp (shard st name) (ac_total_bytes st) (acid_view st !! name) Hf Htot Hmt) as Hc.
  unfold meets in Hc. rewrite Ht in Hc. by destruct r.
Qed.

Lemma data_closed_counted mt ms sh o total io clk name config msgs close t r :
  data_closed mt ms sh o total io clk name config msgs close t r ->
  tx_total t = total + data_reserved (payload msgs) t /\ tx_total t <= mt.
Proof using.
  unfold data_closed. destruct r as [x|e].
  - by intros (a' & _ & _ & _ & _ & _ & Hc).
  - by intros (_ & _ & Hc).
Qed.

Lemma data_lands st io clk name config msgs close total t r :
  acid_inv st ->
  data_closed (ac_max_total_bytes st) (ac_max_stream_bytes st) (shard st name) (acid_view st !! name) total
    io clk name config msgs close t r ->
  lands io (spec_create_with_data clk name config msgs close) st name (data_reserved (payload msgs) t)
    (data_owed (payload msgs) t r) (tx_shard t) r.
Proof using L.
  intros Hinv Hc. set (o := acid_view st !! name) in *. pose proof (expired_bytes_le clk o) as Hx.
  unfold data_owed, data_closed in *. destruct r as [x|e].
  - destruct Hc as (a' & Hres & Hs & Hst & Hrm & Htot & Hcnt & _). unfold data_reserved.
    apply (lands_stored _ _ _ _ _ _ _ a'); [done..|lia|fold o; lia|].
    unfold spec_create_with_data. rewrite live_stream_found. fold o. unfold create_log in Hres.
    destruct o as [a|] eqn:Ho; [|by simplify_eq].
    destruct (is_stream_expired _ _); [by simplify_eq|]. destruct (config_eq _ _); [|done]. simplify_eq.
    by rewrite insert_id.
  - destruct Hc as (-> & Herr & Htot). apply lands_failed; [done| |].
    + unfold data_reserved. pose proof (payload_nonneg msgs). destruct (tx_reserved t); lia.
    + destruct Herr as [Herr|Hres]; [by left|right]. unfold spec_create_with_data.
      rewrite live_stream_found. fold o. unfold create_log in Hres. destruct o as [a|]; [|done].
      destruct (is_stream_expired _ _); [done|]. by destruct (config_eq _ _); [|injection Hres as <-].
Qed.

Lemma acid_create_with_data_answers st io clk name config msgs close :
  acid_inv st -> fits (acid_view st) name msgs -> sized msgs ->
  answers io (spec_create_with_data clk name config msgs close) st
    (acid_create_stream_with_data io clk name config msgs close st).
Proof using L.
  intros Hinv Hfit Hsz. destruct (fits_batch st name msgs Hinv Hfit) as (Hp & Hbb & _).
  pose proof (acid_stored_le st name Hinv) as Hle. pose proof (ai_limit _ Hinv) as Hlim.
  unfold acid_create_stream_with_data. rewrite Hbb.
  destruct (create_with_data_txn _ _ _ _ _ _ _ _ _ _) as [t r] eqn:Ht.
  assert (data_closed (ac_max_total_bytes st) (ac_max_stream_bytes st) (shard st name) (acid_view st !! name)
    (ac_total_bytes st) io clk name config msgs close t r) as Hc.
  { apply closure_closed; [|lia|done..]. rewrite <- (ai_sum _ Hinv). by destruct st. }
  pose proof (data_lands _ _ _ _ _ _ _ _ _ _ Hinv Hc) as Hl.
  destruct (data_closed_counted _ _ _ _ _ _ _ _ _ _ _ _ _ Hc) as [Htot Hmax].
  change (set_total (set_shards st (<[shard_index st name := tx_shard t]> (ac_shards st))) (tx_total t))
    with (with_commit st name (tx_shard t) (tx_total t) (ac_notifiers st)).
  assert (forall ns, 0 <= data_owed (payload msgs) t r <= tx_total t /\
    answers io (spec_create_with_data clk name config msgs close) st
      (with_commit st name (tx_shard t) (tx_total t - data_owed (payload msgs) t r) ns, r)) as Hans.
  { intros ns. rewrite Htot. split; [|apply lands_answers; [done|lia|done]].
    destruct Hl as (Ho & o & _ & _ & Hb & _).
    assert (0 <= stored_bytes o) by (destruct o; cbn; [apply payload_nonneg|lia]). lia. }
  destruct r as [result|e]; cbn [data_owed] in Hans.
  - destruct (release_expired_commit name (tx_removed t) st (tx_shard t) (tx_total t) (ac_notifiers st))
      as [ns ->]; [apply (Hans ∅)|]. destruct (close || _); [|apply Hans].
    edestruct (notify_stream_spec name) as [ns' ->]. apply (Hans ns').
  - unfold data_reserved in Hans. destruct (tx_reserved t).
    + rewrite acid_sub_total_commit by apply (Hans ∅). apply Hans.
    + rewrite <- (Z.sub_0_r (tx_total t)). apply Hans.
Qed.
End Backend.
