(* ===== verification/AcidLawful.v ===== *)
(** * AcidLawful: the ACID backend as a [Storage]

    The read-only methods, runs of the backend under a schedule of failing calls, and
    the instance of [LawfulStorage] for them. *)

From S2P Require Import Prelude Errors Offsets RustStd Headers StorageCore LogSpec Config.
From S2P Require Import AcidStorage AcidTables AcidTxn AcidAppends AcidCreates AcidView AcidRefinement.

Section ReadOnly.
Context {A : AcidLib} {L : AcidLibLaws A}.
Context (io : AcidIo) (clk : Clock) (name : string) (st : AcidStorage).
Hypothesis Hinv : acid_inv st.

(** A read answers as the log does, or reports a failed call. *)
Definition reads {R} (r spec : Result Error R) : Prop :=
  r = spec \/ exists site msg, io site = true /\ r = Err (StorageError msg).

Lemma reads_bind {R R'} (r spec : Result Error R) (k k' : R -> Result Error R') :
  reads r spec -> (forall x, spec = Ok x -> reads (k x) (k' x)) ->
  reads (let? x := r in k x) (let? x := spec in k' x).
Proof using.
  intros [->|(site & msg & Hs & ->)] Hk; [|right; eauto].
  destruct spec as [x|e]; cbn; [by apply Hk|by left].
Qed.

Lemma begin_read_reads : reads (begin_read io) (Ok tt).
Proof using.
  unfold begin_read. destruct (io BeginRead) eqn:H1; [right; eauto|].
  destruct (io OpenStreams) eqn:H2; [right; eauto|by left].
Qed.

(** The stored metadata of a log. *)
Definition stored_as (meta : StoredStreamMeta) (a : AStream) : Prop :=
  meta_ok (ac_max_stream_bytes st) meta (a_msgs a) /\ a = abs_stored meta (a_msgs a) /\
  (contents (shard st name) name).2 = positions 0 0 (a_msgs a).

Lemma find_live_reads :
  match live_stream clk name (acid_view st) with
  | Ok a => exists meta, stored_as meta a /\ reads (find_live io clk name (shard st name)) (Ok meta)
  | Err e => reads (find_live io clk name (shard st name)) (Err e)
  end.
Proof using L Hinv.
  pose proof (shard_found st name Hinv) as Hf. rewrite live_stream_found.
  unfold find_live, read_stream_meta, reads. destruct (acid_view st !! name) as [a|]; cbn in Hf.
  - destruct Hf as (meta & (p & [= Hc Ht] & Hp) & Hm & Ha). rewrite Hc, Hp.
    assert (a_config a = sd_config meta) as -> by by rewrite Ha. cbn [result_bind ok_or].
    destruct (io GetMeta) eqn:Hio; cbn [result_bind ok_or]; destruct (is_stream_expired _ _).
    + right. eauto.
    + exists meta. split; [by split_and!|]. right. eauto.
    + by left.
    + exists meta. split; [by split_and!|]. by left.
  - injection Hf as Hc Ht. rewrite Hc. destruct (io GetMeta) eqn:Hio; [right; cbn; eauto|by left].
Qed.

Lemma acid_head_reads :
  reads (acid_head io clk name st) (spec_head clk name (acid_view st)).
Proof using L Hinv.
  unfold acid_head, spec_head. pose proof find_live_reads as Hl.
  change (reads (let? _ := begin_read io in
    let? meta := find_live io clk name (shard st name) in
    Ok (mkStreamMetadata (sd_config meta) (sd_next_offset meta) (sd_closed meta)
          (sd_total_bytes meta) (sd_next_read_seq meta) (sd_created_at meta)))
    (let? _ := Ok tt in spec_head clk name (acid_view st))).
  apply reads_bind; [apply begin_read_reads|]. intros _ _. unfold spec_head.
  destruct (live_stream clk name (acid_view st)) as [a|e].
  - destruct Hl as (meta & (Hm & Ha & _) & [->|(site & msg & Hs & ->)]); [left|right; eauto]. cbn.
    rewrite (meta_next_offset _ _ _ Hm), (mo_total _ _ _ Hm), (mo_seq _ _ _ Hm). by rewrite Ha.
  - destruct Hl as [->|(site & msg & Hs & ->)]; [by left|right; eauto].
Qed.

Lemma read_range_reads a lo :
  (contents (shard st name) name).2 = positions 0 0 (a_msgs a) ->
  reads (read_range_messages io name lo (sh_messages (shard st name)))
    (Ok (filter (pos_from lo) (positions 0 0 (a_msgs a))).*2).
Proof using L.
  unfold contents. cbn [snd]. intros Ht. unfold read_range_messages. rewrite range_table, Ht.
  destruct (io RangeMessages) eqn:H1; [right; eauto|].
  destruct (filter _ _) as [|kv l]; [by left|]. destruct (io RangeItem) eqn:H2; [right; eauto|by left].
Qed.

Lemma positions_all msgs : filter (pos_from (0, 0)) (positions 0 0 msgs) = positions 0 0 msgs.
Proof using.
  apply filter_all, Forall_forall. intros [k v] Hin%positions_below. unfold pos_from.
  rewrite pair_cmp_lt. cbn in *. lia.
Qed.

Lemma acid_read_reads o :
  reads (acid_read io clk name o st) (spec_read clk name o (acid_view st)).
Proof using L Hinv.
  pose proof find_live_reads as Hl.
  assert (reads (if io OpenMessages then Err (StorageError "failed to open messages table") else Ok tt) (Ok tt)) as Hom.
  { destruct (io OpenMessages) eqn:H1; [right; eauto|by left]. }
  unfold acid_read. change (spec_read clk name o (acid_view st)) with
    (let? _ := Ok tt in let? _ := Ok tt in spec_read clk name o (acid_view st)).
  apply reads_bind; [apply begin_read_reads|]. intros _ _. apply reads_bind; [done|]. intros _ _.
  unfold spec_read. destruct (live_stream clk name (acid_view st)) as [a|e].
  2:{ destruct Hl as [->|(site & msg & Hs & ->)]; [by left|right; cbn; eauto]. }
  destruct Hl as (meta & (Hm & Ha & Hc) & [->|(site & msg & Hs & ->)]); [|right; cbn; eauto].
  assert (sd_closed meta = a_closed a) as Hcl by by rewrite Ha.
  cbn [result_bind]. rewrite (meta_next_offset _ _ _ Hm), Hcl. fold (a_next_offset a).
  destruct o as [| |rs bo txt]; cbn [is_now is_start parse_components ok_or result_bind]; [|by left|].
  - destruct (read_range_reads a (0, 0) Hc) as [->|(site & msg & Hs & ->)]; [|right; cbn; eauto].
    left. cbn [result_bind]. by rewrite positions_all, positions_data.
  - destruct (read_range_reads a (rs, bo) Hc) as [->|(site & msg & Hs & ->)]; [|right; cbn; eauto].
    left. cbn [result_bind]. by rewrite (positions_from rs bo txt).
Qed.

(** [exists] turns a failed call into [false]. *)
Lemma acid_exists_spec :
  acid_exists io clk name st = spec_exists clk name (acid_view st) \/
  ((exists site, io site = true) /\ acid_exists io clk name st = false).
Proof using L Hinv.
  unfold acid_exists, spec_exists. pose proof find_live_reads as Hl.
  destruct begin_read_reads as [->|(site & msg & Hs & ->)]; [|right; cbn; eauto]. cbn [result_bind].
  destruct (live_stream clk name (acid_view st)) as [a|e].
  - destruct Hl as (meta & _ & [->|(site & msg & Hs & ->)]); [by left|right; cbn; eauto].
  - destruct Hl as [->|(site & msg & Hs & ->)]; [by left|right; cbn; eauto].
Qed.

Lemma acid_subscribe_state :
  exists ns, (acid_subscribe io clk name st).1 = set_notifiers st ns.
Proof using.
  clear Hinv. assert (st = set_notifiers st (ac_notifiers st)) as Heta by by destruct st.
  unfold acid_subscribe, notifier_subscribe. destruct (acid_exists _ _ _ _); [|eauto].
  destruct (ac_notifiers st !! name); cbn; eauto.
Qed.

Lemma acid_subscribe_some :
  is_Some (acid_subscribe io clk name st).2 <-> acid_exists io clk name st = true.
Proof using.
  unfold acid_subscribe. destruct (acid_exists _ _ _ _); [|by rewrite is_Some_alt].
  destruct (notifier_subscribe name st); cbn. by rewrite is_Some_alt.
Qed.
End ReadOnly.

(** ** Calls that do not touch the failing sites *)

(** Only inserts, metadata writes and commits other than that of a delete may fail. *)
Definition write_faults_only (io : AcidIo) : Prop :=
  forall site, io site = true ->
    match site with InsertMessage _ | PutMeta => True | Commit c => c <> OfDelete | _ => False end.

Lemma write_faults_site io site :
  write_faults_only io ->
  match site with InsertMessage _ | PutMeta => False | Commit c => c = OfDelete | _ => True end ->
  io site = acid_ok site.
Proof.
  intros Hio Hs. destruct (io site) eqn:Hf; [|done]. specialize (Hio site Hf). by destruct site.
Qed.

Section Unaffected.
Context {A : AcidLib} (io : AcidIo) (Hio : write_faults_only io).

(** The sites the read-only methods and [delete] use. *)
Ltac same_calls :=
  rewrite ?(write_faults_site io _ Hio) by done; reflexivity.

Lemma begin_read_same : begin_read io = begin_read acid_ok.
Proof using Hio. unfold begin_read. same_calls. Qed.
Lemma find_live_same clk name sh : find_live io clk name sh = find_live acid_ok clk name sh.
Proof using Hio. unfold find_live, read_stream_meta. same_calls. Qed.
Lemma acid_read_same clk name o st : acid_read io clk name o st = acid_read acid_ok clk name o st.
Proof using Hio.
  unfold acid_read, read_range_messages. rewrite begin_read_same, find_live_same. same_calls.
Qed.
Lemma acid_head_same clk name st : acid_head io clk name st = acid_head acid_ok clk name st.
Proof using Hio. unfold acid_head. by rewrite begin_read_same, find_live_same. Qed.
Lemma acid_exists_same clk name st : acid_exists io clk name st = acid_exists acid_ok clk name st.
Proof using Hio. unfold acid_exists. by rewrite begin_read_same, find_live_same. Qed.
Lemma acid_subscribe_same clk name st :
  acid_subscribe io clk name st = acid_subscribe acid_ok clk name st.
Proof using Hio. unfold acid_subscribe. by rewrite acid_exists_same. Qed.
Lemma acid_delete_same name st : acid_delete io name st = acid_delete acid_ok name st.
Proof using Hio.
  unfold acid_delete, on_shard, delete_txn, shard_txn, write_txn, open_streams, open_messages,
    fail_if, find_meta, get_meta, read_stream_meta, delete_stream_messages, remove_meta, st_bind, throw_if.
  same_calls.
Qed.
End Unaffected.

(** ** Runs *)

(** A storage with the outcomes of the calls of its next operations. *)
Record AcidRun {A : AcidLib} : Type := mkAcidRun { ar_store : AcidStorage; ar_io : nat -> AcidIo }.

Definition acid_scheduled {A : AcidLib} {R} (m : AcidIo -> ST AcidStorage Error R) : ST AcidRun Error R :=
  fun run => let '(st, r) := m (ar_io run 0%nat) (ar_store run) in
             (mkAcidRun _ st (fun n => ar_io run (S n)), r).

(** [impl Storage for AcidStorage] *)
#[global] Instance acid_storage {A : AcidLib} : Storage.StorageOps AcidRun := {|
  Storage.create_stream clk name config :=
    acid_scheduled (fun io => acid_create_stream io clk name config);
  Storage.append clk name data ct := acid_scheduled (fun io => acid_append io clk name data ct);
  Storage.batch_append clk name msgs ct seq :=
    acid_scheduled (fun io => acid_batch_append io clk name msgs ct seq);
  Storage.read clk name o run := acid_read (ar_io run 0%nat) clk name o (ar_store run);
  Storage.delete name := acid_scheduled (fun io => acid_delete io name);
  Storage.head clk name run := acid_head (ar_io run 0%nat) clk name (ar_store run);
  Storage.close_stream clk name := acid_scheduled (fun io => acid_close_stream io clk name);
  Storage.append_with_producer clk name msgs ct p close seq :=
    acid_scheduled (fun io => acid_append_with_producer io clk name msgs ct p close seq);
  Storage.create_stream_with_data clk name config msgs close :=
    acid_scheduled (fun io => acid_create_stream_with_data io clk name config msgs close);
  Storage.stream_exists clk name run := acid_exists (ar_io run 0%nat) clk name (ar_store run);
  Storage.subscribe clk name run :=
    let '(st, rx) := acid_subscribe (ar_io run 0%nat) clk name (ar_store run) in
    (mkAcidRun _ st (fun n => ar_io run (S n)), rx)
|}.

Section Lawful.
Context {A : AcidLib} {L : AcidLibLaws A}.

Record acid_run_inv (run : AcidRun) : Prop := mkAcidRunInv {
  ari_store : acid_inv (ar_store run);
  ari_io : forall n, write_faults_only (ar_io run n)
}.

Lemma reads_ok {R} (r spec : Result Error R) : reads acid_ok r spec -> r = spec.
Proof. by intros [?|(? & ? & ? & _)]. Qed.

Lemma scheduled_answers {R} (m : AcidIo -> ST AcidStorage Error R) spec clk name run :
  acid_run_inv run -> (forall io, answers io spec (ar_store run) (m io (ar_store run))) ->
  let '(run', r) := acid_scheduled m run in
  acid_run_inv run' /\
  refined clk name spec (acid_view (ar_store run)) (acid_view (ar_store run')) r.
Proof.
  intros [Hst Hio] Hm. unfold acid_scheduled. specialize (Hm (ar_io run 0%nat)).
  apply (answers_refined _ _ _ _ clk name) in Hm. destruct (m _ _) as [st' r]. destruct Hm.
  split; [|done]. by split; cbn.
Qed.

Lemma acid_bounded st name a :
  acid_inv st -> acid_view st !! name = Some a -> offset_wf (a_next_offset a).
Proof using L.
  intros Hinv Ha. pose proof (shard_found st name Hinv) as Hf. rewrite Ha in Hf.
  destruct Hf as (meta & _ & [_ _ _ Hc Hl] & _). destruct (ai_max_stream _ Hinv).
  pose proof (payload_nonneg (a_msgs a)). apply Offset_new_wf; unfold u64; lia.
Qed.

#[global] Instance acid_lawful : LawfulStorage AcidRun.
Proof using L.
  refine {| backend_inv := acid_run_inv; view run := acid_view (ar_store run) |}.
  - intros run name a [Hst _]. by apply acid_bounded.
  - intros run clk name o [Hst Hio] _. cbn. rewrite acid_read_same by done.
    by apply reads_ok, acid_read_reads.
  - intros run clk name [Hst Hio]. cbn. rewrite acid_head_same by done. by apply reads_ok, acid_head_reads.
  - intros run clk name [Hst Hio]. cbn. rewrite acid_exists_same by done.
    by destruct (acid_exists_spec acid_ok clk name _ Hst) as [?|[[? ?] _]].
  - intros run clk name [Hst Hio]. cbn. rewrite acid_subscribe_same by done.
    pose proof (acid_subscribe_some acid_ok clk name (ar_store run)) as Hs.
    destruct (acid_subscribe_state acid_ok clk name (ar_store run)) as [ns Hns].
    destruct (acid_subscribe _ _ _ _) as [st rx]. cbn in *. subst st. split_and!.
    + split; cbn; [by apply acid_inv_notifiers|done].
    + done.
    + rewrite Hs. by destruct (acid_exists_spec acid_ok clk name _ Hst) as [->|[[? ?] _]].
  - intros run name [Hst Hio]. cbn. unfold acid_scheduled. rewrite acid_delete_same by done.
    destruct (acid_delete_answers (ar_store run) acid_ok name Hst) as [Hinv' Hd].
    destruct (acid_delete _ _ _) as [st' r] eqn:Hdel. cbn in *. split; [by split; cbn|].
    destruct Hd as [Hd|(_ & e & -> & He)]; [done|]. exfalso.
    pose proof (delete_txn_meets _ acid_ok name _ _ (shard_found _ name Hst)) as Ht.
    unfold acid_delete, on_shard, meets in *. destruct (delete_txn _ _ _) as [sh [x|e']]; [done|].
    injection Hdel as _ ->. destruct Ht as (_ & [(? & ? & ? & _)|[_ ->]]); [done|].
    by destruct He as [(? & ? & ? & _)|[?|?]].
  - intros. apply scheduled_answers; [done|]. intros io. apply acid_close_answers, H.
  - intros. apply scheduled_answers; [done|]. intros io. apply acid_append_answers; [apply H|done].
  - intros. apply scheduled_answers; [done|]. intros io. apply acid_batch_append_answers; [apply H|done].
  - intros. apply scheduled_answers; [done|]. intros io.
    apply acid_append_with_producer_answers; [apply H|done].
  - intros. apply scheduled_answers; [done|]. intros io.
    apply acid_create_with_data_answers; [apply H|done..].
  - intros. apply scheduled_answers; [done|]. intros io. apply acid_create_answers, H.
Defined.
End Lawful.
