(* ===== verification/AcidWakeups.v ===== *)
(** * AcidWakeups: the notifications of the ACID backend

    The ACID backend keeps the promise of [RingingStorage] with every call. Its channels
    live in a map beside the shards; a channel survives as long as its stream does, and
    what a commit adds to a stream, or that it closes it, rings the channel. *)

From S2P Require Import Prelude Errors Offsets RustStd Headers StorageCore LogSpec StorageTrace Wakeups Config.
From S2P Require Import AcidStorage AcidTables AcidTxn AcidAppends AcidCreates AcidView AcidRefinement AcidLawful.

Section AcidRinging.
Context {A : AcidLib}.

Definition acid_sent (st : AcidStorage) (name : string) : option Z := ac_notifiers st !! name.

(** The channel of [name] is there and has not gone back. *)
Definition kept (name : string) (st st' : AcidStorage) : Prop :=
  forall k, acid_sent st name = Some k -> exists k', acid_sent st' name = Some k' /\ k <= k'.

#[local] Instance kept_preorder name : PreOrder (kept name).
Proof.
  split; [intros st k Hk; exists k; split; [done|lia]|]. intros st1 st2 st3 H12 H23 k Hk.
  destruct (H12 k Hk) as (k2 & Hk2 & ?). destruct (H23 k2 Hk2) as (k3 & Hk3 & ?). exists k3. split; [done|lia].
Qed.

Lemma kept_same name st st' : ac_notifiers st' = ac_notifiers st -> kept name st st'.
Proof. intros Heq k Hk. exists k. split; [|lia]. unfold acid_sent. by rewrite Heq. Qed.

Lemma sub_total_notifiers bytes st : ac_notifiers (acid_sub_total bytes st) = ac_notifiers st.
Proof. unfold acid_sub_total. by destruct (_ =? _). Qed.
Lemma reserve_notifiers bytes st : ac_notifiers (reserve_total_bytes bytes st).1 = ac_notifiers st.
Proof. unfold reserve_total_bytes. by destruct (reserve_counter _ _ _). Qed.
Lemma on_shard_notifiers {R} name (txn : ST Shard Error R) st :
  ac_notifiers (on_shard name txn st).1 = ac_notifiers st.
Proof. unfold on_shard. by destruct (txn _). Qed.

Lemma kept_notify name n st : kept name st (notify_stream n st).
Proof.
  unfold kept, acid_sent, notify_stream. intros k Hk. destruct (ac_notifiers st !! n) as [m|] eqn:Hn; [|exists k; split; [done|lia]].
  cbn. destruct (decide (n = name)) as [->|Hne].
  - rewrite lookup_insert_eq. exists (m + 1). split; [done|]. rewrite Hk in Hn. injection Hn as ->. lia.
  - rewrite lookup_insert_ne by done. exists k. split; [done|lia].
Qed.
Lemma kept_drop name n st : n <> name -> kept name st (drop_notifier n st).
Proof. intros Hne k Hk. exists k. split; [|lia]. unfold acid_sent, drop_notifier. cbn. by rewrite lookup_delete_ne. Qed.
Lemma kept_release name n removed st : (n = name -> removed = 0) -> kept name st (release_expired n removed st).
Proof.
  intros Hr. unfold release_expired. destruct (Z.ltb_spec 0 removed) as [Hlt|]; [|done].
  etrans; [apply kept_same, sub_total_notifiers|apply kept_drop]. intros ->. specialize (Hr eq_refl). lia.
Qed.

(** ** Appends *)

Lemma with_reservation_keeps {R} n bytes undo ring (txn : Z -> ST Shard Error R) st name :
  kept name st (with_reservation n bytes undo ring txn st).1.
Proof.
  unfold with_reservation. pose proof (reserve_notifiers bytes st) as Hr.
  destruct (reserve_total_bytes _ _) as [st1 [[]|e]]; cbn in *; [|by apply kept_same].
  pose proof (on_shard_notifiers n (txn (ac_max_stream_bytes st1)) st1) as Ho.
  destruct (on_shard _ _ _) as [st2 r]; cbn in *.
  assert (kept name st (if undo r then acid_sub_total bytes st2 else st2)) as Hk.
  { apply kept_same. destruct (undo r); rewrite ?sub_total_notifiers; congruence. }
  destruct (ring r); [|done]. etrans; [exact Hk|apply kept_notify].
Qed.

Lemma notify_rings name st k k' :
  acid_sent st name = Some k -> acid_sent (notify_stream name st) name = Some k' -> k' = k + 1.
Proof.
  unfold acid_sent, notify_stream. intros Hk. rewrite Hk. cbn. rewrite lookup_insert_eq. by intros [= <-].
Qed.

(** A successful append with [ring] rings. *)
Lemma with_reservation_rings {R} n bytes undo ring (txn : Z -> ST Shard Error R) st x k k' :
  (with_reservation n bytes undo ring txn st).2 = Ok x -> ring (Ok x) = true -> acid_sent st n = Some k ->
  acid_sent (with_reservation n bytes undo ring txn st).1 n = Some k' -> k < k'.
Proof.
  unfold with_reservation. pose proof (reserve_notifiers bytes st) as Hr.
  destruct (reserve_total_bytes _ _) as [st1 [[]|e]]; cbn in *; [|done].
  pose proof (on_shard_notifiers n (txn (ac_max_stream_bytes st1)) st1) as Ho.
  destruct (on_shard _ _ _) as [st2 r]; cbn in *. intros -> -> Hk Hk'.
  assert (k' = k + 1); [|lia]. eapply notify_rings; [|exact Hk']. unfold acid_sent.
  destruct (undo _); rewrite ?sub_total_notifiers; unfold acid_sent in *; congruence.
Qed.

(** ** Creates *)

(** A create that finds a live stream has removed none. *)
Section Found.
Context {L : AcidLibLaws A} (ms : Z) (sh : Shard) (name : string) (a : AStream) (io : AcidIo) (clk : Clock).
Hypothesis Hst : stores ms sh name a.
Hypothesis Hlive : is_stream_expired (clk 0%nat) (a_config a) = false.

Lemma found_live_meta :
  exists e meta, sd_config meta = a_config a /\
    read_stream_meta io name (sh_streams sh) = if io GetMeta then Err e else Ok (Some meta).
Proof using Hst.
  destruct Hst as (meta & (p & [= Hc _] & Hp) & _ & Ha). exists (StorageError "failed to read stream metadata"), meta.
  split; [by rewrite Ha|]. unfold read_stream_meta. rewrite Hc, Hp. by destruct (io GetMeta).
Qed.

Lemma create_txn_removes_none config r removed :
  (create_txn io clk name config sh).2 = Ok (r, removed) -> removed = 0.
Proof using Hst Hlive.
  destruct found_live_meta as (e & meta & Hcfg & Hmeta).
  unfold create_txn, shard_txn, write_txn, st_bind, open_streams, open_messages, fail_if, throw_if, get_meta.
  rewrite Hmeta. destruct (io BeginWrite), (io SetDurability), (io OpenStreams), (io OpenMessages), (io GetMeta); cbn; try done.
  rewrite Hcfg, Hlive. destruct (config_eq _ _); cbn; [|done]. by intros [= _ <-].
Qed.

Lemma create_data_txn_removes_none mt max config msgs bytes close total r :
  let out := create_with_data_txn io clk mt max name config msgs bytes close (mkTxn sh total false 0) in
  out.2 = Ok r -> tx_removed out.1 = 0.
Proof using Hst Hlive.
  destruct found_live_meta as (e & meta & Hcfg & Hmeta).
  unfold create_with_data_txn, write_txn, st_bind, tx_on, open_streams, open_messages, fail_if, throw_if, get_meta. cbn [tx_shard].
  destruct (io BeginWrite), (io SetDurability), (io OpenStreams), (io OpenMessages); cbn; try done.
  rewrite Hmeta. destruct (io GetMeta); cbn; [done|].
  rewrite Hcfg, Hlive. by destruct (config_eq _ _).
Qed.
End Found.

Section Calls.
Context {L : AcidLibLaws A}.

Lemma acid_create_keeps io clk n config st name a :
  acid_inv st -> acid_view st !! name = Some a ->
  (n = name -> is_stream_expired (clk 0%nat) (a_config a) = false) -> kept name st (acid_create_stream io clk n config st).1.
Proof using L.
  intros Hinv Ha Hlive. unfold acid_create_stream, on_shard.
  destruct (create_txn _ _ _ _ _) as [sh [[r removed]|e]] eqn:Ht; cbn; [|by apply kept_same].
  etrans; [|apply kept_release]; [by apply kept_same|]. intros ->.
  pose proof (shard_found st name Hinv) as Hf. rewrite Ha in Hf.
  apply (create_txn_removes_none _ _ _ _ io clk Hf (Hlive eq_refl) config r). by rewrite Ht.
Qed.

Lemma acid_create_data_keeps io clk n config msgs close st name a :
  acid_inv st -> acid_view st !! name = Some a ->
  (n = name -> is_stream_expired (clk 0%nat) (a_config a) = false) ->
  kept name st (acid_create_stream_with_data io clk n config msgs close st).1.
Proof using L.
  intros Hinv Ha Hlive. unfold acid_create_stream_with_data.
  destruct (create_with_data_txn _ _ _ _ _ _ _ _ _ _) as [t [r|e]] eqn:Ht; cbn.
  2:{ apply kept_same. by destruct (tx_reserved t); rewrite ?sub_total_notifiers. }
  set (st1 := set_total _ _). etrans; [by apply (kept_same name st st1)|].
  etrans; [apply (kept_release name n (tx_removed t))|destruct (_ || _); [apply kept_notify|done]]. intros ->.
  pose proof (shard_found st name Hinv) as Hf. rewrite Ha in Hf.
  pose proof (create_data_txn_removes_none _ _ _ _ io clk Hf (Hlive eq_refl) (ac_max_total_bytes st)
    (ac_max_stream_bytes st) config msgs (acid_batch_bytes msgs) close (ac_total_bytes st) r) as Hr.
  cbn in Hr. rewrite Ht in Hr. by apply Hr.
Qed.

Lemma acid_scheduled_store {R} (m : AcidIo -> ST AcidStorage Error R) run :
  ar_store (acid_scheduled m run).1 = (m (ar_io run 0%nat) (ar_store run)).1 /\
  (acid_scheduled m run).2 = (m (ar_io run 0%nat) (ar_store run)).2.
Proof using. unfold acid_scheduled. by destruct (m _ _). Qed.

Lemma acid_subscribe_kept io clk n st name : kept name st (acid_subscribe io clk n st).1.
Proof using.
  unfold acid_subscribe, notifier_subscribe. destruct (acid_exists _ _ _ _); [|done].
  destruct (ac_notifiers st !! n) as [m|] eqn:Hn; [done|]. cbn. intros k Hk. exists k. split; [|lia].
  unfold acid_sent in *. cbn. rewrite lookup_insert_ne; [done|]. intros ->. discriminate (eq_trans (eq_sym Hn) Hk).
Qed.

Lemma acid_keeps op (run : AcidRun) name a k :
  acid_run_inv run -> acid_view (ar_store run) !! name = Some a ->
  (op_name op = name -> op_spares (a_config a) op = true) -> acid_sent (ar_store run) name = Some k ->
  exists k', acid_sent (ar_store (run_op op run)) name = Some k' /\ k <= k'.
Proof using L.
  intros [Hinv _] Ha Hsp. revert k. change (kept name (ar_store run) (ar_store (run_op op run))).
  destruct op as [clk n c|clk n c msgs cl|clk n d ct|clk n msgs ct q
    |clk n msgs ct p cl q|clk n|n|clk n]; cbn in Hsp |- *; rewrite ?negb_true_iff in Hsp;
    rewrite ?(proj1 (acid_scheduled_store _ run)).
  - by apply (acid_create_keeps _ _ _ _ _ _ a).
  - by apply (acid_create_data_keeps _ _ _ _ _ _ _ _ a).
  - apply with_reservation_keeps.
  - unfold acid_batch_append. destruct msgs; [done|]. apply with_reservation_keeps.
  - apply with_reservation_keeps.
  - unfold acid_close_stream. pose proof (on_shard_notifiers n (close_txn (ar_io run 0%nat) clk n) (ar_store run)) as Ho.
    destruct (on_shard _ _ _) as [st [[]|e]]; cbn in *; [|by apply kept_same].
    etrans; [by apply kept_same|apply kept_notify].
  - unfold acid_delete. pose proof (on_shard_notifiers n (delete_txn (ar_io run 0%nat) n) (ar_store run)) as Ho.
    destruct (on_shard _ _ _) as [st [removed|e]]; cbn in *; [|by apply kept_same].
    etrans; [apply (kept_same _ _ (acid_sub_total removed st)); by rewrite sub_total_notifiers|].
    apply kept_drop. intros ->. by specialize (Hsp eq_refl).
  - pose proof (acid_subscribe_kept (ar_io run 0%nat) clk n (ar_store run) name) as Hk.
    by destruct (acid_subscribe _ _ _ _).
Qed.

Lemma acid_loud op (run : AcidRun) k k' :
  op_loud op run = true -> acid_sent (ar_store run) (op_name op) = Some k ->
  acid_sent (ar_store (run_op op run)) (op_name op) = Some k' -> k < k'.
Proof using.
  destruct op as [clk n c|clk n c msgs cl|clk n d ct|clk n msgs ct q
    |clk n msgs ct p cl q|clk n|n|clk n]; cbn; try done; intros Hl Hk;
    rewrite (proj1 (acid_scheduled_store _ run)); rewrite (proj2 (acid_scheduled_store _ run)) in Hl; intros Hk'.
  - unfold acid_append in *. destruct (with_reservation _ _ _ _ _ _).2 as [o|err] eqn:Ho in Hl; [|done].
    by refine (with_reservation_rings _ _ _ _ _ _ _ _ _ Ho _ Hk Hk').
  - unfold acid_batch_append in *. destruct msgs as [|m msgs]; [done|].
    destruct (with_reservation _ _ _ _ _ _).2 as [o|err] eqn:Ho in Hl; [|done].
    by refine (with_reservation_rings _ _ _ _ _ _ _ _ _ Ho _ Hk Hk').
  - unfold acid_append_with_producer in *.
    destruct (with_reservation _ _ _ _ _ _).2 as [[ep sq o c|ep sq o c]|err] eqn:Ho in Hl; try done.
    by refine (with_reservation_rings _ _ _ _ _ _ _ _ _ Ho _ Hk Hk').
  - unfold acid_close_stream in *.
    pose proof (on_shard_notifiers n (close_txn (ar_io run 0%nat) clk n) (ar_store run)) as Ho.
    destruct (on_shard _ _ _) as [st [[]|e]]; cbn in *; [|done].
    assert (k' = k + 1); [|lia]. eapply notify_rings; [|exact Hk']. unfold acid_sent in *. congruence.
Qed.

Lemma acid_subscribes (run run' : AcidRun) clk name rx :
  Storage.subscribe clk name run = (run', Some rx) -> acid_sent (ar_store run') name = Some rx.
Proof using.
  cbn. unfold acid_subscribe, notifier_subscribe, acid_sent. destruct (acid_exists _ _ _ _); [|done].
  destruct (ac_notifiers _ !! name) as [m|] eqn:Hn; intros [= <- <-]; cbn; [done|]. by rewrite lookup_insert_eq.
Qed.

#[global] Instance acid_ringing :
  RingingStorage AcidRun (fun run => acid_sent (ar_store run)) (fun _ => true) := {|
  ring_subscribe := fun run clk name run' rx _ => acid_subscribes run run' clk name rx;
  ring_keeps := fun op run name a n Hinv _ _ => acid_keeps op run name a n Hinv;
  ring_loud := fun op run n n' _ _ _ => acid_loud op run n n'
|}.
End Calls.
End AcidRinging.
