(* ===== verification/WakeupProps.v ===== *)
(** * WakeupProps: no wake-up is lost on the three backends *)

From S2P Require Import Prelude Errors Offsets RustStd Headers StorageCore LogSpec StorageTrace Wakeups.
From S2P Require Import MemoryStorage MemoryRefinement MemoryProps MemoryWakeups.
From S2P Require Import FileRecords FileStorage FileDemo FileSections FileRefinement FileLawful FileWakeups.
From S2P Require Import AcidStorage AcidTables AcidLawful AcidWakeups.

(** C23: no wake-up is lost. A long poll (or SSE connection) subscribes, later reads, and later
    still waits, while other calls run in between that leave the stream in place. Then either
    the count of notifications sent on the stream's channel has passed the subscription, so
    that the wait ends at once, or a re-read from the returned offset would find neither a
    message nor that the stream has been closed since. On the ACID backend this holds whatever
    the calls; on the file backend for all but producer requests that bring no message; on the
    in-memory backend for all but these and [append], which no handler calls. *)
Theorem no_lost_wakeup {F : FileLib} {FL : FileLibLaws F} {A : AcidLib} {AL : AcidLibLaws A} :
  loses_no_wakeup (S := InMemoryStorage) sent mem_op_rings /\
  loses_no_wakeup (S := FileRun) (fun run => file_sent (fr_store run)) file_op_rings /\
  loses_no_wakeup (S := AcidRun) (fun run => acid_sent (ar_store run)) (fun _ => true).
Proof. split_and!; apply ringing_loses_no_wakeup; apply _. Qed.

(** A subscriber at the tail, and a batch that arrives after its read. *)
Lemma no_lost_wakeup_witness :
  exists r2 rung,
    mem_read run_clock "s" (Offset_new 2 5)
      (run_op (OpBatchAppend run_clock "s" [as_bytes "xyz"] "text/plain" None) run_store1) = Ok r2 /\
    sent (run_op (OpBatchAppend run_clock "s" [as_bytes "xyz"] "text/plain" None) run_store1) "s" =
      Some rung /\ (1 < rung \/ (rr_messages r2 = [] /\ rr_closed r2 = false)).
Proof.
  set (op := OpBatchAppend run_clock "s" [as_bytes "xyz"] "text/plain" None).
  refine (proj1 (no_lost_wakeup (F := demo_lib) (A := demo_acid)) run_store1 run_store1 run_store1 (run_op op run_store1) [] [op] run_clock run_clock
           run_clock "s" (Offset_new 2 5)
           (default (mkAStream run_config [] false 0 ∅ None) (mem_view run_store1 !! "s")) 1
           (mkReadResult [] (Offset_new 2 5) true false) _ _ _ _ _ _ _ _ _).
  - apply run_store1_inv.
  - vm_compute. reflexivity.
  - vm_compute. reflexivity.
  - constructor.
  - apply Offset_new_wf; apply u64_small; lia.
  - vm_compute. reflexivity.
  - constructor; [fits_run|sized_run|constructor].
  - intros op' Hin _. apply list_elem_of_singleton in Hin as ->. split; vm_compute; reflexivity.
  - vm_compute. reflexivity.
Defined.
