(* ===== verification/ProducerRetries.v ===== *)
(** * ProducerRetries: a retried producer request, on the three backends

    [ProducerTrace] shows on any lawful backend that retrying an accepted request changes
    no log. Here the in-memory and the file backend are shown to refuse for lack of resources
    only requests they would otherwise accept, so that their answer to a retry is determined;
    the ACID backend reserves the bytes of a request first and may refuse any. *)

From S2P Require Import Prelude Errors Offsets RustStd Headers StorageCore LogSpec StorageTrace ProducerTrace.
From S2P Require Import MemoryStorage MemoryRefinement MemoryProps.
From S2P Require Import FileRecords FileStorage FileDemo FileSections FileRefinement FileLawful.
From S2P Require Import AcidStorage AcidTables AcidLawful.

(** ** The order of the checks *)

Lemma check_producer_protocol existing p closed e :
  check_producer existing p closed = Err e -> resource_error e = false.
Proof. unfold check_producer. by repeat case_match; intros; simplify_eq. Qed.

Lemma content_type_protocol stream_ct ct e : validate_content_type stream_ct ct = Err e -> resource_error e = false.
Proof. unfold validate_content_type. by destruct (negb _); intros; simplify_eq. Qed.

Lemma mem_refuses_only_new : refuses_only_new (S := InMemoryStorage).
Proof.
  intros st clk name msgs ct p close seq err Hinv _ Hrun Hres. cbn in Hrun.
  unfold mem_append_with_producer, with_stream in Hrun. pose proof (mem_view_lookup st name) as Hv.
  destruct (m_streams st !! name) as [e|]; [|by simplify_eq/=].
  exists (abs_entry e). split; [exact Hv|]. unfold recorded. cbn [view memory_lawful] in *. rewrite Hv.
  destruct (append_with_producer_locked _ _ _ _ _ _ _ _ _) as [l r] eqn:Hl. cbn in Hrun. subst r. revert Hl.
  unfold append_with_producer_locked, st_bind, throw_if, get_entry, modify_entry, st_lift; cbn.
  destruct (is_stream_expired _ _); cbn; [by intros [= _ <-]|].
  destruct msgs as [|m msgs]; cbn.
  - destruct (check_producer _ _ _) as [[|e' q']|e'] eqn:Hc; cbn; [done|done|]. intros [= _ ->].
    by rewrite (check_producer_protocol _ _ _ _ Hc) in Hres.
  - destruct (validate_content_type _ _) as [[]|e'] eqn:Hct; cbn.
    2:{ intros [= _ ->]. by rewrite (content_type_protocol _ _ _ Hct) in Hres. }
    destruct (check_producer _ _ _) as [[|e' q']|e'] eqn:Hc; cbn; [done|done|]. intros [= _ ->].
    by rewrite (check_producer_protocol _ _ _ _ Hc) in Hres.
Qed.

Section File.
Context {F : FileLib} {L : FileLibLaws F}.

Lemma file_refuses_only_new : refuses_only_new (S := FileRun).
Proof using L.
  intros run clk name msgs ct p close seq err [Hinv _] _ Hrun Hres. cbn in Hrun, Hinv.
  unfold scheduled, file_append_with_producer, with_file_stream in Hrun. unfold decided, recorded.
  change (view run) with (file_view (fr_store run)).
  destruct (f_streams (fr_store run) !! name) as [e|] eqn:He; [|by simplify_eq/=].
  destruct (locked_start _ name e Hinv He) as (a & Hv & Hl). exists a. rewrite Hv. split; [done|].
  destruct (locked_bytes _ _ _ _ _ _ Hl) as (_ & _ & _ & Hcl & Hps & _). cbn in Hcl, Hps.
  destruct (file_producer_locked _ _ _ _ _ _ _ _ _ _) as [l r] eqn:Hs. cbn in Hrun. subst r. revert Hs.
  unfold log_tidy. cbn [log_set_producers a_producers].
  rewrite <- Hcl, <- Hps. clear Hl Hv.
  unfold file_producer_locked, st_bind, throw_if, fl_get, fl_modify, st_lift, st_ret; cbn.
  destruct (is_stream_expired _ _); cbn; [by intros [= _ <-]|].
  destruct msgs as [|m msgs]; cbn.
  - destruct (check_producer _ _ _) as [[|e' q']|e'] eqn:Hc; cbn; [done|done|]. intros [= _ ->].
    by rewrite (check_producer_protocol _ _ _ _ Hc) in Hres.
  - destruct (validate_content_type _ _) as [[]|e'] eqn:Hct; cbn.
    2:{ intros [= _ ->]. by rewrite (content_type_protocol _ _ _ Hct) in Hres. }
    destruct (check_producer _ _ _) as [[|e' q']|e'] eqn:Hc; cbn; [done|done|]. intros [= _ ->].
    by rewrite (check_producer_protocol _ _ _ _ Hc) in Hres.
Qed.
End File.

(** ** Retries *)

(** C22: retrying an accepted request is harmless. A producer request was accepted; any history
    follows, with calls of others, later requests of the same producer and earlier retries;
    then the very same request arrives again. The log of the stream does not change, and the
    answer is set by the pair [(e', q')] the backend accepted last from that producer: a
    duplicate that reports [q'] and the stream's present tail and closed flag if the epoch is
    still the request's, a fenced epoch otherwise. Only the ACID backend, which reserves a
    request's bytes before it looks at the producer, may refuse for lack of resources instead.
    As long as the stream stays in place and no call to it, the retry included, comes
    seven days after the producer's last accepted request. *)
Theorem accepted_retry_is_harmless {F : FileLib} {FL : FileLibLaws F} {A : AcidLib} {AL : AcidLibLaws A} :
  retries_harmless (S := InMemoryStorage) false /\
  retries_harmless (S := FileRun) false /\
  retries_harmless (S := AcidRun) true.
Proof.
  split_and!; apply retries_harmless_lawful; intros; [apply mem_refuses_only_new|apply file_refuses_only_new|done].
Qed.

(** ** Runs *)

(** The producer [p1] sends ["xyz"], then its next request; another producer and a plain
    append come in between. *)
Definition trace_ops : list StorageOp :=
  [OpProducer run_clock "s" [as_bytes "u"] "text/plain" (mkProducerHeaders "p2" 4 0) false None;
   OpProducer run_clock "s" [as_bytes "v"] "text/plain" (mkProducerHeaders "p1" 0 1) false None;
   OpProducer run_clock "s" [as_bytes "v"] "text/plain" (mkProducerHeaders "p1" 0 1) false None;
   OpSubscribe run_clock "s"].
Definition trace_first : StorageOp :=
  OpProducer run_clock "s" [as_bytes "x"] "text/plain" run_producer false None.

Ltac history_run := repeat (apply history_cons; [fits_run|sized_run|]); apply history_nil.

Lemma producer_exactly_once_witness :
  exists a', mem_view (foldl (fun s op => run_op op s) run_store1 (trace_first :: trace_ops)) !! "s" = Some a' /\
    state_pair (a_producers a' !! "p1") = Some (0, 1).
Proof.
  destruct (producer_exactly_once run_store1 (trace_first :: trace_ops)
    (foldl (fun s op => run_op op s) run_store1 (trace_first :: trace_ops)) "s" "p1"
    (default (mkAStream run_config [] false 0 ∅ None) (mem_view run_store1 !! "s"))) as (_ & _ & a' & Ha' & Hp).
  - apply run_store1_inv.
  - history_run.
  - vm_compute. reflexivity.
  - vm_compute. reflexivity.
  - repeat constructor; cbn; unfold MAX_SAFE_INTEGER; lia.
  - apply unknown_in_range. vm_compute. reflexivity.
  - exists a'. split; [exact Ha'|]. rewrite Hp. vm_compute. reflexivity.
Defined.

Lemma accepted_retry_is_harmless_witness :
  let s1 := run_op trace_first run_store1 in
  let s2 := foldl (fun s op => run_op op s) s1 trace_ops in
  exists a2, mem_view s2 !! "s" = Some a2 /\
    (Storage.append_with_producer run_clock "s" [as_bytes "x"] "text/plain" run_producer false None s2).2 =
    Ok (Duplicate 0 1 (a_next_offset a2) (a_closed a2)).
Proof.
  intros s1 s2.
  pose proof (proj1 (accepted_retry_is_harmless (F := demo_lib) (A := demo_acid)) run_store1 run_clock "s"
    [as_bytes "x"] "text/plain" run_producer false None s1 0 0 (Offset_new 3 6) false trace_ops s2 run_clock
    run_store1_inv ltac:(fits_run) ltac:(vm_compute; split; discriminate) ltac:(vm_compute; reflexivity)
    ltac:(history_run) ltac:(repeat constructor; cbn; unfold MAX_SAFE_INTEGER; lia) ltac:(fits_run)
    ltac:(vm_compute; reflexivity)) as H.
  destruct (Storage.append_with_producer _ _ _ _ _ _ _ _) as [s3 r]. cbn [snd].
  destruct H as (a2 & a3 & e' & q' & Ha2 & _ & _ & Hl & [->|[? _]]); [|done].
  assert (last_pair (Some (0, 0)) (accepted_pairs "s" (ph_id run_producer) trace_ops s1) = Some (0, 1)) as Hr
    by (vm_compute; reflexivity).
  rewrite Hr in Hl. injection Hl as <- <-. exists a2. split; [exact Ha2|reflexivity].
Defined.
