(* ===== verification/AcidRecovery.v ===== *)
(** * AcidRecovery: starting the ACID backend

    What [AcidStorage::new] makes of the databases it finds: every unexpired stream with
    the exact total of their bytes, or an error after a failed call, which loses no
    unexpired stream. *)

From S2P Require Import Prelude Errors Offsets RustStd Headers StorageCore LogSpec Config ConfigProps.
From S2P Require Import AcidStorage AcidTables AcidTxn AcidAppends AcidCreates AcidView AcidRefinement.

(** ** Maps given by a list of names *)

Definition log_map (g : string -> option AStream) (names : list string) : View :=
  list_to_map (omap (fun n => (n,.) <$> g n) names).

Definition names_bytes (g : string -> option AStream) (names : list string) : Z :=
  foldr (fun n acc => stored_bytes (g n) + acc) 0 names.

Section LogMap.
Context (g : string -> option AStream).

Lemma log_map_keys names : ((omap (fun n => (n,.) <$> g n) names).*1) ⊆ names.
Proof.
  intros n. rewrite list_elem_of_fmap. intros ([n' a] & -> & Hin%list_elem_of_omap).
  destruct Hin as (m & Hm & Hg). destruct (g m); [|done]. by injection Hg as <- <-.
Qed.

Lemma log_map_lookup names n :
  (forall a, g n = Some a -> n ∈ names) -> log_map g names !! n = g n.
Proof.
  unfold log_map. induction names as [|m names IH]; intros Hall.
  - destruct (g n) as [a|] eqn:Hg; [by destruct (not_elem_of_nil n (Hall a eq_refl))|done].
  - cbn. destruct (decide (m = n)) as [->|Hne].
    + destruct (g n) as [a|] eqn:Hg; cbn; [by rewrite lookup_insert_eq|].
      apply IH. congruence.
    + assert (forall a, g n = Some a -> n ∈ names) as Hall'
        by (intros a Ha; apply Hall, elem_of_cons in Ha as [->|]; done).
      destruct (g m) as [b|] eqn:Hm; cbn; [rewrite lookup_insert_ne by done|]; by apply IH.
Qed.

Lemma log_map_bytes names : NoDup names -> log_bytes (log_map g names) = names_bytes g names.
Proof.
  unfold log_map, names_bytes, log_bytes. induction 1 as [|n names Hn Hnd IH]; [done|]. cbn.
  destruct (g n) as [a|] eqn:Hg; cbn; [|lia]. rewrite map_sum_insert_new, IH; [done|].
  apply not_elem_of_list_to_map_1. intros Hin. by apply Hn, log_map_keys.
Qed.

Lemma names_bytes_nonneg names : 0 <= names_bytes g names.
Proof.
  unfold names_bytes. induction names as [|n names IH]; cbn; [done|].
  destruct (g n) as [a|]; cbn; [pose proof (payload_nonneg (a_msgs a))|]; lia.
Qed.

End LogMap.

Lemma log_bytes_nonneg v : 0 <= log_bytes v.
Proof. apply map_sum_nonneg. intros n a _. apply payload_nonneg. Qed.

Lemma log_bytes_union v1 v2 : v1 ##ₘ v2 -> log_bytes (v1 ∪ v2) = log_bytes v1 + log_bytes v2.
Proof.
  unfold log_bytes. revert v2. induction v1 as [|n a v1 Hn IH] using map_ind; intros v2 Hd.
  - rewrite (left_id_L ∅ (∪)), map_sum_empty. lia.
  - apply map_disjoint_insert_l in Hd as [Hn2 Hd]. rewrite <- insert_union_l.
    rewrite !map_sum_insert_new, IH by (done || by apply lookup_union_None). lia.
Qed.

(** Shards have different files. *)
Lemma shard_file_inj i j : (i < 256)%nat -> (j < 256)%nat -> shard_file i = shard_file j -> i = j.
Proof.
  intros Hi Hj Heq. assert (NoDup (shard_file <$> seq 0 256)) as Hnd
    by (apply (bool_decide_unpack _); vm_compute; exact I).
  eapply NoDup_lookup; [exact Hnd|..]; rewrite list_lookup_fmap, lookup_seq_lt by done; cbn; [done|by rewrite Heq].
Qed.

Section Recovery.
Context {A : AcidLib} {L : AcidLibLaws A}.

(** ** The logs of a shard *)

Definition shard_names (sh : Shard) : list string := (streams_iter (sh_streams sh)).*1.
Definition shard_map (sh : Shard) : View := log_map (shard_log sh) (shard_names sh).

Lemma shard_names_get sh name : name ∈ shard_names sh <-> is_Some (streams_get (sh_streams sh) name).
Proof using L.
  unfold shard_names. rewrite list_elem_of_fmap. split.
  - intros ([n p] & -> & Hin%streams_iter_get). eauto.
  - intros [p Hp]. exists (name, p). by rewrite streams_iter_get.
Qed.

Lemma shard_map_lookup sh name : shard_map sh !! name = shard_log sh name.
Proof using L.
  apply log_map_lookup. intros a. unfold shard_log. intros Ha. apply shard_names_get.
  destruct (streams_get _ _); [eauto|done].
Qed.

(** The logs of several shards. *)
Definition shards_map (shs : list Shard) : View := foldr (fun sh m => shard_map sh ∪ m) ∅ shs.

Lemma shards_map_some shs name a :
  shards_map shs !! name = Some a -> exists i sh, shs !! i = Some sh /\ shard_log sh name = Some a.
Proof using L.
  induction shs as [|sh shs IH]; cbn; [done|]. rewrite lookup_union_Some_raw, shard_map_lookup.
  intros [Ha|[_ Ha]]; [by exists 0%nat, sh|]. destruct (IH Ha) as (i & sh' & ? & ?). by exists (S i), sh'.
Qed.

Lemma shards_map_none shs i sh name :
  shs !! i = Some sh -> shards_map shs !! name = None -> shard_log sh name = None.
Proof using L.
  revert i. induction shs as [|sh' shs IH]; intros i Hi; [done|]. cbn. rewrite lookup_union_None.
  intros [Ha Hb]. destruct i as [|i]; cbn in Hi; [injection Hi as ->; by rewrite <- shard_map_lookup|eauto].
Qed.

(** Every stream is in the shard its name hashes to. *)
Definition well_sharded (count ms : Z) (shs : list Shard) : Prop :=
  forall i sh name, shs !! i = Some sh ->
    vacant sh name \/
    (Z.to_nat (Z.land (seahash (as_bytes name)) (count - 1)) = i /\ exists a, stores ms sh name a).

Lemma well_sharded_home count ms shs i sh name a :
  well_sharded count ms shs -> shs !! i = Some sh -> shard_log sh name = Some a ->
  i = Z.to_nat (Z.land (seahash (as_bytes name)) (count - 1)) /\ stores ms sh name a.
Proof using.
  intros Hw Hi Ha. destruct (Hw i sh name Hi) as [Hv|[Hi' [b Hb]]].
  - by rewrite (shard_log_found ms sh name None) in Ha.
  - split; [done|]. rewrite (shard_log_found ms sh name (Some b)) in Ha by done. by injection Ha as <-.
Qed.

Lemma acid_view_shards st :
  shards_complete st -> well_sharded (ac_shard_count st) (ac_max_stream_bytes st) (ac_shards st) ->
  acid_view st = shards_map (ac_shards st).
Proof using L.
  intros Hc Hw. apply map_eq. intros name. rewrite acid_view_lookup.
  pose proof (shard_complete st name Hc) as Hl.
  destruct (shards_map (ac_shards st) !! name) as [a|] eqn:Ha.
  - apply shards_map_some in Ha as (i & sh & Hi & Ha).
    destruct (well_sharded_home _ _ _ i sh name a Hw Hi Ha) as [Hidx _].
    change (Z.to_nat _) with (shard_index st name) in Hidx. by rewrite Hidx, Hl in Hi; injection Hi as ->.
  - by eapply shards_map_none.
Qed.

(** The bytes of the shards add up. *)
Lemma shards_map_bytes (home : string -> nat) shs off :
  (forall i sh name a, shs !! i = Some sh -> shard_log sh name = Some a -> home name = (off + i)%nat) ->
  log_bytes (shards_map shs) = foldr (fun sh acc => log_bytes (shard_map sh) + acc) 0 shs.
Proof using L.
  revert off. induction shs as [|sh shs IH]; intros off Hh; [done|]. cbn. fold (shards_map shs).
  rewrite log_bytes_union, (IH (S off)); [done|..].
  - intros i sh' name a Hi Ha. rewrite (Hh (S i) sh' name a) by done. lia.
  - apply map_disjoint_spec. intros name a b Ha Hb. rewrite shard_map_lookup in Ha.
    apply shards_map_some in Hb as (i & sh' & Hi & Hb).
    pose proof (Hh 0%nat sh name a eq_refl Ha). pose proof (Hh (S i) sh' name b Hi Hb). lia.
Qed.

(** ** Rebuilding one shard *)

Section Rebuild.
Context (now : string -> Z) (ms : Z).

(** The log under a name unless it has expired. *)
Definition live_log (sh : Shard) (name : string) : option AStream :=
  match shard_log sh name with
  | Some a => if is_stream_expired (now name) (a_config a) then None else Some a
  | None => None
  end.

(** A shard without the expired streams of another. *)
Definition cleaned (sh sh' : Shard) : Prop :=
  forall name, found_at ms sh' name (live_log sh name) /\
    (is_Some (live_log sh name) -> contents sh' name = contents sh name).

Definition fine (sh : Shard) : Prop := forall name, exists o, found_at ms sh name o.

Lemma fine_log sh name : fine sh -> found_at ms sh name (shard_log sh name).
Proof using. intros Hf. destruct (Hf name) as [o Ho]. by rewrite (shard_log_found ms sh name o). Qed.

Lemma saturating_min a b : 0 <= b -> saturating_add64 (Z.min U64_MAX a) b = Z.min U64_MAX (a + b).
Proof using. unfold saturating_add64. lia. Qed.

(** The error is that of a failed call. *)
Definition call_failed (io : AcidIo) (e : Error) : Prop :=
  exists site msg, io site = true /\ e = StorageError msg.

Lemma scan_streams_spec io sh items live expired :
  fine sh -> (forall n p, (n, p) ∈ items -> streams_get (sh_streams sh) n = Some p) ->
  match scan_streams io now items (Z.min U64_MAX live) expired with
  | Err e => call_failed io e
  | Ok (bytes, names) =>
      bytes = Z.min U64_MAX (live + names_bytes (live_log sh) items.*1) /\
      (forall n, n ∈ names <-> n ∈ expired \/ (n ∈ items.*1 /\ live_log sh n = None))
  end.
Proof using.
  intros Hf. revert live expired. induction items as [|[n p] items IH]; intros live expired Hg.
  - cbn. split; [by rewrite Z.add_0_r|]. intros n. rewrite elem_of_nil. naive_solver.
  - cbn [scan_streams fmap list_fmap fst]. destruct (io IterMetaItem) eqn:Hio; [by do 2 eexists|].
    assert (forall n' p', (n', p') ∈ items -> streams_get (sh_streams sh) n' = Some p') as Hg'
      by (intros n' p' Hin; apply Hg; by right).
    pose proof (Hg n p (list_elem_of_here _ _)) as Hp. pose proof (fine_log sh n Hf) as Hfound.
    destruct (shard_log sh n) as [a|] eqn:Ha; cbn in Hfound;
      [|unfold vacant, contents in Hfound; congruence].
    destruct Hfound as (meta & (p' & [= Hp' _] & Hm) & Hok & Habs).
    assert (p' = p) as -> by congruence. rewrite Hm.
    assert (sd_config meta = a_config a) as -> by by rewrite Habs.
    cbn [names_bytes foldr]. fold (names_bytes (live_log sh) items.*1).
    assert (live_log sh n = if is_stream_expired (now n) (a_config a) then None else Some a) as Hlive
      by (unfold live_log; by rewrite Ha).
    destruct (is_stream_expired (now n) (a_config a)).
    + specialize (IH live (expired ++ [n]) Hg'). destruct (scan_streams _ _ _ _ _) as [[bytes names]|e]; [|done].
      destruct IH as [-> Hn]. rewrite Hlive. cbn. split; [f_equal; lia|]. intros n'.
      rewrite Hn, elem_of_app, list_elem_of_singleton, elem_of_cons. naive_solver.
    + rewrite (mo_total _ _ _ Hok). pose proof (payload_nonneg (a_msgs a)).
      rewrite saturating_min by lia. specialize (IH (live + payload (a_msgs a)) expired Hg').
      destruct (scan_streams _ _ _ _ _) as [[bytes names]|e]; [|done].
      destruct IH as [-> Hn]. rewrite Hlive. cbn. split; [f_equal; lia|]. intros n'.
      rewrite Hn, elem_of_cons. split; [naive_solver|]. intros [?|[[->|?] ?]]; [by left|congruence|by right].
Qed.

Lemma remove_streams_meets io (E : Shard -> Error -> Prop) names sh (Q : unit -> Shard -> Prop) :
  (forall site msg, io site = true -> forall sh', E sh' (StorageError msg)) ->
  (forall sh', (forall n, n ∈ names -> vacant sh' n) ->
     (forall n, n ∉ names -> contents sh' n = contents sh n) -> Q tt sh') ->
  meets (remove_streams io names) sh E Q.
Proof using L.
  intros HE. revert sh. induction names as [|name names IH]; intros sh HQ; cbn [remove_streams].
  - apply meets_ret, HQ; [by intros n ?%elem_of_nil|done].
  - apply meets_assoc, meets_bind, (meets_remove_stream io); [done|]. intros sh1 Hs1 Hv1.
    apply IH. intros sh2 Hin Hout. apply HQ.
    + intros n Hn. destruct (decide (n ∈ names)) as [|Hnot]; [by apply Hin|].
      apply elem_of_cons in Hn as [->|]; [|done]. unfold vacant. by rewrite Hout.
    + intros n [Hne Hnot]%not_elem_of_cons. rewrite Hout by done. by apply Hs1.
Qed.

(** What makes a shard the cleaned one. *)
Lemma cleaned_intro sh sh' :
  fine sh -> (forall n, live_log sh n = None -> vacant sh' n) ->
  (forall n, is_Some (live_log sh n) -> contents sh' n = contents sh n) -> cleaned sh sh'.
Proof using.
  intros Hf Hdead Hlive name. split; [|apply Hlive].
  pose proof (fine_log sh name Hf) as Hfl. specialize (Hdead name). specialize (Hlive name).
  unfold live_log in *. destruct (shard_log sh name) as [a|]; [|by apply Hdead].
  destruct (is_stream_expired _ _); [by apply Hdead|]. cbn in *.
  destruct Hfl as (meta & (p & Hp & ?) & ? & ?). exists meta. split_and!; [|done|done].
  exists p. split; [|done]. rewrite Hlive; eauto.
Qed.

(** Its bytes are those of the streams that were live. *)
Lemma cleaned_bytes sh sh' :
  cleaned sh sh' -> names_bytes (live_log sh) (shard_names sh) = log_bytes (shard_map sh').
Proof using L.
  intros Hc. rewrite <- log_map_bytes by apply streams_iter_nodup. f_equal. apply map_eq. intros n.
  rewrite shard_map_lookup, log_map_lookup.
  - symmetry. by apply (shard_log_found ms sh' n), Hc.
  - intros a Ha. apply shard_names_get. unfold live_log, shard_log in Ha.
    destruct (streams_get _ _); [eauto|done].
Qed.

(** The read transaction of [rebuild_shard]. *)
Lemma scan_shard_spec io sh :
  fine sh ->
  match (let? _ := begin_read io in
         if io IterMeta then Err (StorageError "failed to iterate stream metadata")
         else scan_streams io now (streams_iter (sh_streams sh)) 0 []) with
  | Err e => call_failed io e
  | Ok (bytes, names) =>
      bytes = Z.min U64_MAX (names_bytes (live_log sh) (shard_names sh)) /\
      forall n, n ∈ names <-> n ∈ shard_names sh /\ live_log sh n = None
  end.
Proof using L.
  intros Hf. unfold begin_read. destruct (io BeginRead) eqn:H1; [by do 2 eexists|].
  destruct (io OpenStreams) eqn:H2; [by do 2 eexists|]. cbn [result_bind].
  destruct (io IterMeta) eqn:H3; [by do 2 eexists|].
  pose proof (scan_streams_spec io sh (streams_iter (sh_streams sh)) 0 [] Hf) as Hspec.
  change (Z.min U64_MAX 0) with 0 in Hspec.
  destruct (scan_streams _ _ _ _ _) as [[bytes names]|e]; [|by apply Hspec; intros n p; rewrite streams_iter_get].
  rewrite Z.add_0_l in Hspec. destruct Hspec as [-> Hn]; [intros n p; by rewrite streams_iter_get|]. split; [done|].
  intros n. rewrite Hn, elem_of_nil. naive_solver.
Qed.

(** What is neither live nor among the expired streams was never there. *)
Lemma unlisted_vacant sh (names : list string) n :
  fine sh -> (forall n, n ∈ names <-> n ∈ shard_names sh /\ live_log sh n = None) ->
  n ∉ names -> live_log sh n = None -> vacant sh n.
Proof using L.
  intros Hf Hnames Hn Hl. rewrite Hnames, shard_names_get in Hn. pose proof (fine_log sh n Hf) as Hfl.
  destruct (shard_log sh n) as [a|] eqn:Ha; [|done]. exfalso. apply Hn. split; [|done].
  destruct Hfl as (meta & (p & [= Hp _] & _) & _). rewrite Hp. eauto.
Qed.

(** One shard: its live streams are kept and counted, or nothing happens. *)
Lemma rebuild_shard_meets io sh :
  fine sh ->
  meets (rebuild_shard io now) sh (fun sh' e => sh' = sh /\ call_failed io e)
    (fun out sh' => out.1 = Z.min U64_MAX (log_bytes (shard_map sh')) /\ cleaned sh sh').
Proof using L.
  intros Hf. pose proof (scan_shard_spec io sh Hf) as Hscan. unfold meets, rebuild_shard.
  destruct (let? _ := begin_read io in _) as [[bytes names]|e]; [|done]. destruct Hscan as [-> Hnames].
  destruct names as [|n0 names0] eqn:Hnm.
  - assert (cleaned sh sh) as Hc.
    { apply cleaned_intro; [done| |done]. intros n. apply (unlisted_vacant sh []); [done|done|apply not_elem_of_nil]. }
    split; [|done]. by rewrite <- (cleaned_bytes sh sh Hc).
  - rewrite <- Hnm in *. clear Hnm. fold (meets (shard_txn io OfCleanup
      (let* _ := open_streams io in let* _ := open_messages io in let* _ := remove_streams io names in
       st_ret (TxnCommit (Z.min U64_MAX (names_bytes (live_log sh) (shard_names sh)), names)))) sh
      (fun sh' e => sh' = sh /\ call_failed io e)
      (fun out sh' => out.1 = Z.min U64_MAX (log_bytes (shard_map sh')) /\ cleaned sh sh')).
    assert (forall site msg, io site = true -> call_failed io (StorageError msg)) as HE by (intros; by do 2 eexists).
    apply meets_shard_txn; [done|]. apply meets_bind, (meets_open_streams io); [eauto|].
    apply meets_bind, (meets_open_messages io); [eauto|].
    apply meets_bind, (remove_streams_meets io); [eauto|]. intros sh' Hin Hout. apply meets_ret.
    assert (cleaned sh sh') as Hc.
    { apply cleaned_intro; [done|..].
      - intros n Hl. destruct (decide (n ∈ names)) as [|Hn]; [by apply Hin|].
        unfold vacant. rewrite Hout by done. by apply (unlisted_vacant sh names).
      - intros n Hl. apply Hout. rewrite Hnames. intros [_ Hl']. rewrite Hl' in Hl. by destruct Hl. }
    split; [|done]. cbn. by rewrite <- (cleaned_bytes sh sh' Hc).
Qed.

(** ** All shards *)

(** The databases on the disk; a missing one is an empty one. *)
Definition disk_has (dk : AcidDisk) (shs : list Shard) : Prop :=
  forall i sh, shs !! i = Some sh -> default new_shard (dk_shards dk !! shard_file i) = sh.

Lemma disk_has_on_db {R} (c : ST Shard Error R) dk pre sh post :
  disk_has dk (pre ++ sh :: post) -> (length (pre ++ sh :: post) <= 256)%nat ->
  let '(dk', r) := on_db (length pre) c dk in
  exists sh', c sh = (sh', r) /\ disk_has dk' (pre ++ sh' :: post) /\ dk_layout dk' = dk_layout dk.
Proof using.
  intros Hd Hlen. unfold on_db.
  assert (default new_shard (dk_shards dk !! shard_file (length pre)) = sh) as ->
    by (apply Hd, list_lookup_middle; done).
  destruct (c sh) as [sh' r]. exists sh'. split_and!; [done| |done]. intros i x Hi. cbn.
  destruct (decide (i = length pre)) as [->|Hne].
  - rewrite list_lookup_middle in Hi by done. injection Hi as ->. by rewrite lookup_insert_eq.
  - assert ((pre ++ sh :: post) !! i = Some x) as Hi'.
    { destruct (decide (i < length pre)%nat).
      - by rewrite lookup_app_l in Hi |- *.
      - rewrite lookup_app_r in Hi |- * by lia. destruct (i - length pre)%nat eqn:Hk; [lia|done]. }
    rewrite lookup_insert_ne; [by apply Hd|]. intros Heq. apply Hne.
    apply lookup_lt_Some in Hi'. rewrite length_app in *. cbn in *.
    symmetry. apply shard_file_inj; [lia..|done].
Qed.

(** The databases are opened and initialised, or a call failed; they hold what they did. *)
Lemma open_shards_spec io dk pre shs :
  disk_has dk (pre ++ shs) -> (length (pre ++ shs) <= 256)%nat ->
  let '(dk', r) := open_shards io (seq (length pre) (length shs)) dk in
  disk_has dk' (pre ++ shs) /\ dk_layout dk' = dk_layout dk /\
  match r with Ok _ => True | Err e => exists i, call_failed (io i) e end.
Proof using.
  revert dk pre. induction shs as [|sh shs IH]; intros dk pre Hd Hlen; [done|].
  cbn [length seq open_shards]. unfold st_bind at 1, throw_if.
  destruct (io (length pre) OpenShard) eqn:Ho.
  { split_and!; [done..|]. exists (length pre). by do 2 eexists. }
  unfold st_bind at 1. pose proof (disk_has_on_db (ensure_schema (io (length pre))) dk pre sh shs Hd Hlen) as Hon.
  destruct (on_db _ _ dk) as [dk1 r1]. destruct Hon as (sh' & Hen & Hd1 & Hl1).
  pose proof (meets_shard_txn (io (length pre)) OfSchema
    (let* _ := fail_if (io (length pre) OpenStreams) "failed to initialize streams table" in
     let* _ := fail_if (io (length pre) OpenMessages) "failed to initialize messages table" in
     st_ret (TxnCommit tt)) sh (call_failed (io (length pre))) (fun _ sh' => sh' = sh)) as Hm.
  assert (sh' = sh /\ match r1 with Ok _ => True | Err e => call_failed (io (length pre)) e end) as [-> Hr1].
  { unfold meets at 2 in Hm. unfold ensure_schema in Hen. rewrite Hen in Hm. destruct r1 as [u|e].
    - split; [|done]. apply Hm; [intros; by do 2 eexists|].
      apply meets_bind, meets_throw; [intros; by do 2 eexists|intros _].
      apply meets_bind, meets_throw; [intros; by do 2 eexists|done].
    - apply Hm; [intros; by do 2 eexists|].
      apply meets_bind, meets_throw; [intros; by do 2 eexists|intros _].
      apply meets_bind, meets_throw; [intros; by do 2 eexists|done]. }
  destruct r1 as [u|e]; [|split_and!; eauto].
  specialize (IH dk1 (pre ++ [sh])). rewrite <- !app_assoc, !length_app in IH. cbn [length app] in IH.
  rewrite Nat.add_1_r in IH. rewrite length_app in Hlen. specialize (IH Hd1 Hlen).
  destruct (open_shards _ _ dk1) as [dk2 r2]. destruct IH as (? & ? & ?). split_and!; [done|congruence|done].
Qed.

(** Every shard is rebuilt in turn. *)
Lemma rebuild_state_spec io total dropped dk pre shs :
  disk_has dk (pre ++ shs) -> (length (pre ++ shs) <= 256)%nat -> Forall fine shs ->
  0 <= total ->
  let '(dk', r) := rebuild_state_from_disk io now (seq (length pre) (length shs)) (Z.min U64_MAX total) dropped dk in
  dk_layout dk' = dk_layout dk /\
  match r with
  | Ok out => exists shs', disk_has dk' (pre ++ shs') /\ Forall2 cleaned shs shs' /\
      out.1 = Z.min U64_MAX (total + foldr (fun sh acc => log_bytes (shard_map sh) + acc) 0 shs')
  | Err e => (exists i, call_failed (io i) e) /\
      exists shs', disk_has dk' (pre ++ shs') /\ Forall2 (fun sh sh' => sh' = sh \/ cleaned sh sh') shs shs'
  end.
Proof using L.
  revert total dropped dk pre. induction shs as [|sh shs IH]; intros total dropped dk pre Hd Hlen Hf Ht.
  { cbn. split; [done|]. exists []. split_and!; [done|constructor|]. f_equal. cbn. lia. }
  apply Forall_cons in Hf as [Hsh Hf]. cbn [length seq rebuild_state_from_disk]. unfold st_bind at 1.
  pose proof (disk_has_on_db (rebuild_shard (io (length pre)) now) dk pre sh shs Hd Hlen) as Hon.
  destruct (on_db _ _ dk) as [dk1 r1]. destruct Hon as (sh' & Hre & Hd1 & Hl1).
  pose proof (rebuild_shard_meets (io (length pre)) sh Hsh) as Hm. unfold meets in Hm. rewrite Hre in Hm.
  destruct r1 as [out|e].
  2:{ destruct Hm as [-> He]. split; [done|]. split; [eauto|]. exists (sh :: shs). split; [done|].
      apply Forall_Forall2_diag, Forall_forall. by left. }
  destruct Hm as [Hout Hc]. pose proof (log_bytes_nonneg (shard_map sh')) as Hn.
  rewrite Hout, (Z.min_comm U64_MAX (log_bytes _)).
  assert (saturating_add64 (Z.min U64_MAX total) (Z.min (log_bytes (shard_map sh')) U64_MAX) =
          Z.min U64_MAX (total + log_bytes (shard_map sh'))) as ->.
  { unfold saturating_add64, U64_MAX. lia. }
  specialize (IH (total + log_bytes (shard_map sh')) (dropped ++ out.2) dk1 (pre ++ [sh'])).
  rewrite <- !app_assoc, !length_app in IH. cbn [length app] in IH. rewrite Nat.add_1_r in IH.
  rewrite length_app in Hlen. specialize (IH Hd1 Hlen Hf ltac:(lia)).
  destruct (rebuild_state_from_disk _ _ _ _ _ dk1) as [dk2 [out2|e]]; destruct IH as [Hl2 IH].
  - destruct IH as (shs' & Hd2 & Hc2 & Hout2). split; [congruence|]. exists (sh' :: shs').
    rewrite <- app_assoc in Hd2. split_and!; [done|by constructor|]. rewrite Hout2. cbn. f_equal. lia.
  - destruct IH as (He & shs' & Hd2 & Hc2). split; [congruence|]. split; [done|]. exists (sh' :: shs').
    rewrite <- app_assoc in Hd2. split; [done|]. constructor; [by right|done].
Qed.
End Rebuild.
End Recovery.
