(* ===== verification/AcidStart.v ===== *)
(** * AcidStart: [AcidStorage::new] from any disk the backend leaves behind *)

From S2P Require Import Prelude Errors Offsets RustStd Headers StorageCore LogSpec Config ConfigProps.
From S2P Require Import AcidStorage AcidTables AcidTxn AcidAppends AcidCreates AcidView AcidRefinement.
From S2P Require Import AcidRecovery.

Section Start.
Context {A : AcidLib} {L : AcidLibLaws A}.
Context (now : string -> Z) (count mt ms : Z).
Hypothesis Hcount : valid_acid_shard_count count = true.
Hypothesis Hmt : u64 mt.
Hypothesis Hms : u64 ms.

(** What is left of a log at start-up. *)
Definition unexpired (name : string) (o : option AStream) : option AStream :=
  match o with
  | Some a => if is_stream_expired (now name) (a_config a) then None else Some a
  | None => None
  end.

(** The layout file, if any, is that of this configuration. *)
Definition layout_written (dk : AcidDisk) : Prop :=
  exists p, dk_layout dk = Some p /\
    layout_from_slice p = Some (mkLayout LAYOUT_FORMAT_VERSION count HASH_POLICY).
Definition layout_ok (dk : AcidDisk) : Prop := dk_layout dk = None \/ layout_written dk.

Lemma count_power : exists k, 0 <= k <= 8 /\ count = 2 ^ k.
Proof using Hcount.
  apply valid_shards in Hcount. unfold shard_counts in Hcount. set_unfold in Hcount.
  destruct_or! Hcount; subst count; [exists 0|exists 1|exists 2|exists 3|exists 4|exists 5|exists 6|exists 7|exists 8];
    (split; [lia|reflexivity]).
Qed.

Lemma count_bounds : 1 <= count <= 256.
Proof using Hcount.
  unfold valid_acid_shard_count in Hcount. rewrite !andb_true_iff, !Z.leb_le in Hcount. lia.
Qed.

Lemma validate_shard_count_ok : validate_shard_count count = Ok tt.
Proof using Hcount.
  unfold validate_shard_count. unfold valid_acid_shard_count in Hcount.
  apply andb_true_iff in Hcount as [H1 H2]. by rewrite H1, H2.
Qed.

Lemma load_layout_spec io0 dk :
  layout_ok dk ->
  let '(dk', r) := load_or_create_layout io0 count dk in
  dk_shards dk' = dk_shards dk /\ layout_ok dk' /\ (layout_written dk -> layout_written dk') /\
  match r with Ok _ => layout_written dk' | Err e => call_failed io0 e end.
Proof using L.
  intros Hok. unfold load_or_create_layout.
  destruct (if io0 StatLayout then None else dk_layout dk) as [payload|] eqn:Hl.
  - destruct Hok as [Hn|(p & Hp & Hm)]; [by destruct (io0 StatLayout); congruence|].
    assert (payload = p) as -> by (destruct (io0 StatLayout); congruence).
    destruct (io0 ReadLayout) eqn:H1; [split_and!; [done|right; by exists p|done|by do 2 eexists]|].
    rewrite Hm. unfold check_layout. cbn. rewrite !Z.eqb_refl. cbn. rewrite bool_decide_eq_true_2 by done. cbn.
    split_and!; [done|right; by exists p|done|by exists p].
  - destruct (layout_serializes (mkLayout LAYOUT_FORMAT_VERSION count HASH_POLICY)) as [p Hp]. rewrite Hp.
    destruct (io0 WriteLayout) eqn:H1; [split_and!; [done..|by do 2 eexists]|].
    destruct (io0 RenameLayout) eqn:H2; [split_and!; [done..|by do 2 eexists]|].
    assert (layout_written (mkAcidDisk (Some p) (dk_shards dk))) as Hw
      by (exists p; split; [done|by apply layout_roundtrip]).
    by split_and!; [|right|..].
Qed.

(** ** The shards after the rebuild *)

Definition store_of (shs : list Shard) (total : Z) : AcidStorage := mkAcid shs count total mt ms ∅.

Definition kept (sh sh' : Shard) : Prop := sh' = sh \/ cleaned now ms sh sh'.

Lemma well_sharded_fine shs : well_sharded count ms shs -> Forall (fine ms) shs.
Proof using.
  intros Hw. apply Forall_lookup. intros i sh Hi name.
  destruct (Hw i sh name Hi) as [Hv|[_ [a Ha]]]; [by exists None|by exists (Some a)].
Qed.

Lemma live_log_unexpired sh name : live_log now sh name = unexpired name (shard_log sh name).
Proof using. done. Qed.

Lemma cleaned_log sh sh' name : cleaned now ms sh sh' -> shard_log sh' name = unexpired name (shard_log sh name).
Proof using. intros Hc. by apply (shard_log_found ms sh' name), Hc. Qed.

Lemma kept_well_sharded shs shs' :
  Forall2 kept shs shs' -> well_sharded count ms shs -> well_sharded count ms shs'.
Proof using.
  intros Hk Hw i sh' name Hi. destruct (Forall2_lookup_r _ _ _ _ _ Hk Hi) as (sh & Hsh & [->|Hc]); [eauto|].
  destruct (Hc name) as [Hf _]. destruct (live_log now sh name) as [a|] eqn:Hl; [|by left].
  right. split; [|by exists a]. symmetry. unfold live_log in Hl.
  destruct (shard_log sh name) as [b|] eqn:Hb; [|done].
  by destruct (well_sharded_home count ms shs i sh name b Hw Hsh Hb).
Qed.

Section Shards.
Context (shs shs' : list Shard).
Hypothesis Hlen : length shs = Z.to_nat count.
Hypothesis Hw : well_sharded count ms shs.

Lemma store_complete total : shards_complete (store_of shs total).
Proof using Hcount Hlen. split; [exact count_power|done]. Qed.

(** Looking up a name in a list of shards. *)
Lemma shards_lookup name :
  exists sh, shs !! shard_index (store_of shs 0) name = Some sh /\ shards_map shs !! name = shard_log sh name.
Proof using Hcount Hlen Hw L.
  exists (shard (store_of shs 0) name). split; [exact (shard_complete _ name (store_complete 0))|].
  rewrite <- acid_view_lookup. by rewrite (acid_view_shards (store_of shs 0) (store_complete 0) Hw).
Qed.

Lemma store_inv total :
  total = log_bytes (shards_map shs) -> total <= mt -> acid_inv (store_of shs total).
Proof using Hcount Hlen Hw Hmt Hms L.
  intros Ht Hle. destruct (store_complete total). split; try done. cbn.
  by rewrite (acid_view_shards (store_of shs total) (store_complete total) Hw).
Qed.
End Shards.

Section Rebuilt.
Context (shs shs' : list Shard).
Hypothesis Hlen : length shs = Z.to_nat count.
Hypothesis Hw : well_sharded count ms shs.

Lemma kept_lookup name :
  Forall2 kept shs shs' ->
  shards_map shs' !! name = shards_map shs !! name \/
  shards_map shs' !! name = unexpired name (shards_map shs !! name).
Proof using Hcount Hlen Hw L mt.
  intros Hk. pose proof (Forall2_length _ _ _ Hk) as Hl.
  destruct (shards_lookup shs Hlen Hw name) as (sh & Hsh & ->).
  destruct (shards_lookup shs' ltac:(congruence) (kept_well_sharded _ _ Hk Hw) name) as (sh' & Hsh' & ->).
  change (shard_index (store_of shs' 0) name) with (shard_index (store_of shs 0) name) in Hsh'.
  destruct (Forall2_lookup_lr _ _ _ _ _ _ Hk Hsh Hsh') as [->|Hc]; [by left|right]. by apply cleaned_log.
Qed.

Lemma cleaned_lookup name :
  Forall2 (cleaned now ms) shs shs' ->
  shards_map shs' !! name = unexpired name (shards_map shs !! name).
Proof using Hcount Hlen Hw L mt.
  intros Hc. assert (Forall2 kept shs shs') as Hk by (eapply Forall2_impl; [exact Hc|by right]).
  destruct (shards_lookup shs Hlen Hw name) as (sh & Hsh & ->). pose proof (Forall2_length _ _ _ Hk) as Hl.
  destruct (shards_lookup shs' ltac:(congruence) (kept_well_sharded _ _ Hk Hw) name) as (sh' & Hsh' & ->).
  change (shard_index (store_of shs' 0) name) with (shard_index (store_of shs 0) name) in Hsh'.
  by apply cleaned_log, (Forall2_lookup_lr _ _ _ _ _ _ Hc Hsh Hsh').
Qed.

Lemma kept_bytes : Forall2 kept shs shs' -> log_bytes (shards_map shs') <= log_bytes (shards_map shs).
Proof using Hcount Hlen Hw L mt.
  intros Hk. apply map_sum_le; [intros n a _; apply payload_nonneg|]. intros n a Ha. exists a.
  split; [|done]. destruct (kept_lookup n Hk) as [Heq|Heq]; rewrite Ha in Heq; [done|].
  unfold unexpired in Heq. destruct (shards_map shs !! n) as [b|]; [|done].
  by destruct (is_stream_expired _ _).
Qed.

(** The bytes counted shard by shard are those of all the logs. *)
Lemma counted_bytes :
  foldr (fun sh acc => log_bytes (shard_map sh) + acc) 0 shs = log_bytes (shards_map shs).
Proof using Hw L.
  symmetry. apply (shards_map_bytes (fun n => Z.to_nat (Z.land (seahash (as_bytes n)) (count - 1))) shs 0).
  intros i sh name a Hi Ha. by destruct (well_sharded_home count ms shs i sh name a Hw Hi Ha).
Qed.
End Rebuilt.

Lemma drop_notifiers_empty names st :
  ac_notifiers st = ∅ -> fold_left (fun st name => drop_notifier name st) names st = st.
Proof using.
  intros Hn. assert (forall name, drop_notifier name st = st) as Hd.
  { intros name. unfold drop_notifier. rewrite Hn, delete_empty, <- Hn. by destruct st. }
  induction names as [|name names IH]; cbn; [done|]. by rewrite Hd.
Qed.

Lemma opened_shards_has dk shs :
  disk_has dk shs -> opened_shards (seq 0 (length shs)) dk = shs.
Proof using.
  intros Hd. apply list_eq. intros i. unfold opened_shards. rewrite list_lookup_fmap.
  destruct (shs !! i) as [sh|] eqn:Hi.
  - rewrite lookup_seq_lt by by eapply lookup_lt_Some. cbn. by rewrite (Hd i sh Hi).
  - rewrite lookup_seq_ge by by apply lookup_ge_None. done.
Qed.

(** ** The whole start *)

Definition start_failed (io0 : AcidIo) (io io' : nat -> AcidIo) (e : Error) : Prop :=
  call_failed io0 e \/ (exists i, call_failed (io i) e) \/ (exists i, call_failed (io' i) e).

Lemma acid_new_spec io0 io io' dk shs :
  length shs = Z.to_nat count -> well_sharded count ms shs -> log_bytes (shards_map shs) <= mt ->
  layout_ok dk -> disk_has dk shs ->
  let '(dk', r) := AcidStorage_new io0 io io' now count mt ms dk in
  layout_ok dk' /\ (layout_written dk -> layout_written dk') /\
  match r with
  | Ok st' => exists shs', st' = store_of shs' (log_bytes (shards_map shs')) /\
      Forall2 (cleaned now ms) shs shs' /\ layout_written dk' /\ disk_has dk' shs'
  | Err e => start_failed io0 io io' e /\ exists shs', Forall2 kept shs shs' /\ disk_has dk' shs'
  end.
Proof using Hcount Hmt L.
  intros Hlen Hw Hb Hlay Hd. pose proof count_bounds as Hcb.
  assert (Forall2 kept shs shs) as Hrefl by (apply Forall_Forall2_diag, Forall_forall; by left).
  unfold AcidStorage_new, st_bind at 1, st_lift. rewrite validate_shard_count_ok.
  unfold st_bind at 1, throw_if. destruct (io0 CreateAcidDir) eqn:H0.
  { split_and!; [done..|left; by do 2 eexists|eauto]. }
  unfold st_bind at 1. pose proof (load_layout_spec io0 dk Hlay) as Hll.
  destruct (load_or_create_layout _ _ dk) as [dk1 r1]. destruct Hll as (Hs1 & Hl1 & Hkeep & Hr1).
  assert (disk_has dk1 shs) as Hd1 by (intros i sh Hi; rewrite Hs1; by apply Hd).
  destruct r1 as [u1|e1]; [|split_and!; [done..|by left|eauto]].
  unfold st_bind at 1. rewrite <- Hlen.
  pose proof (open_shards_spec io dk1 [] shs Hd1 ltac:(cbn; lia)) as Hop. cbn [length] in Hop.
  destruct (open_shards _ _ dk1) as [dk2 r2]. destruct Hop as (Hd2 & Hl2 & Hr2). cbn [app] in Hd2.
  assert (layout_written dk2) as Hw2 by (unfold layout_written in *; by rewrite Hl2).
  destruct r2 as [u2|e2]; [|split_and!; [by right|done|by right; left|eauto]].
  unfold st_bind at 1.
  pose proof (rebuild_state_spec now ms io' 0 [] dk2 [] shs Hd2 ltac:(cbn; lia)
    (well_sharded_fine shs Hw) ltac:(lia)) as Hre. cbn [length app] in Hre.
  change (Z.min U64_MAX 0) with 0 in Hre.
  destruct (rebuild_state_from_disk _ _ _ _ _ dk2) as [dk3 r3]. destruct Hre as [Hl3 Hre].
  assert (layout_written dk3) as Hw3 by (unfold layout_written in *; by rewrite Hl3).
  destruct r3 as [[total dropped]|e3]; (split; [by right|]); (split; [done|]).
  - destruct Hre as (shs' & Hd3 & Hc3 & Ht3). cbn [fst snd] in *.
    assert (Forall2 kept shs shs') as Hk by (eapply Forall2_impl; [exact Hc3|by right]).
    rewrite (counted_bytes shs' (kept_well_sharded _ _ Hk Hw)) in Ht3.
    pose proof (kept_bytes shs shs' Hlen Hw Hk) as Hle. pose proof Hmt as [_ Hmt2].
    exists shs'. split_and!; try done. rewrite (Forall2_length _ _ _ Hc3), opened_shards_has by done.
    rewrite drop_notifiers_empty by done. unfold store_of. f_equal. unfold U64_MAX, two64 in *. lia.
  - destruct Hre as (He & shs' & Hd3 & Hk). split; [by right; right|eauto].
Qed.
End Start.
