(* ===== verification/AcidProps.v ===== *)
(** * AcidProps: theorems on the ACID backend

    Every method implements the abstract log or fails without a trace, whatever call
    into the database fails; a restart finds what was committed. *)

From S2P Require Import Prelude Errors Offsets RustStd Headers StorageCore LogSpec StorageTrace.
From S2P Require Import Config ConfigProps FileDemo.
From S2P Require Import AcidStorage AcidTables AcidTxn AcidAppends AcidCreates AcidView AcidRefinement.
From S2P Require Import AcidLawful AcidRecovery AcidStart.

(** ** Refinement *)

(** C3: every method of [AcidStorage] implements the abstract log, and fails atomically.
    From any state that satisfies the invariant, whatever calls into [redb] fail, a read
    returns exactly what the log says or reports the failed call; every method that
    changes state keeps the invariant and either answers and changes the logs exactly as
    its reference operation does, or reports a failed call or an exhausted limit and
    leaves every log as it was, with the byte counter exact again. A storage error is
    only reported when some call failed. *)
Theorem acid_refines_log {A : AcidLib} {L : AcidLibLaws A} st io clk name :
  acid_inv st ->
  (forall o, reads io (acid_read io clk name o st) (spec_read clk name o (acid_view st))) /\
  reads io (acid_head io clk name st) (spec_head clk name (acid_view st)) /\
  answers io (spec_delete name) st (acid_delete io name st) /\
  answers io (spec_close clk name) st (acid_close_stream io clk name st) /\
  (forall config, answers io (spec_create clk name config) st (acid_create_stream io clk name config st)) /\
  (forall msgs, fits (acid_view st) name msgs ->
     (forall config close, sized msgs ->
        answers io (spec_create_with_data clk name config msgs close) st
          (acid_create_stream_with_data io clk name config msgs close st)) /\
     (forall ct seq, answers io (spec_batch_append clk name msgs ct seq) st
        (acid_batch_append io clk name msgs ct seq st)) /\
     (forall ct p close seq,
        answers io (spec_append_with_producer clk name msgs ct p close seq) st
          (acid_append_with_producer io clk name msgs ct p close seq st)) /\
     (forall data ct, msgs = [data] ->
        answers io (spec_append clk name data ct) st (acid_append io clk name data ct st))).
Proof.
  intros Hinv. split_and!.
  - intros o. by apply acid_read_reads.
  - by apply acid_head_reads.
  - by apply acid_delete_answers.
  - by apply acid_close_answers.
  - intros config. by apply acid_create_answers.
  - intros msgs Hfit. split_and!.
    + intros config close Hsz. by apply acid_create_with_data_answers.
    + intros ct seq. by apply acid_batch_append_answers.
    + intros ct p close seq. by apply acid_append_with_producer_answers.
    + intros data ct ->. by apply acid_append_answers.
Qed.

(** ** Restart *)

Section Restart.
Context {A : AcidLib} {L : AcidLibLaws A}.

(** The directory holds the layout of the storage and its databases. *)
Definition on_disk (st : AcidStorage) (dk : AcidDisk) : Prop :=
  layout_written (ac_shard_count st) dk /\ disk_has dk (ac_shards st).

(** The directory of a running storage. *)
Definition disk_of (st : AcidStorage) : AcidDisk :=
  mkAcidDisk (layout_to_vec (mkLayout LAYOUT_FORMAT_VERSION (ac_shard_count st) HASH_POLICY))
    (list_to_map (imap (fun i sh => (shard_file i, sh)) (ac_shards st))).

Lemma disk_of_on_disk st : (length (ac_shards st) <= 256)%nat -> on_disk st (disk_of st).
Proof using L.
  intros Hlen. split.
  - destruct (layout_serializes (mkLayout LAYOUT_FORMAT_VERSION (ac_shard_count st) HASH_POLICY)) as [p Hp].
    exists p. split; [exact Hp|by apply layout_roundtrip].
  - intros i sh Hi. cbn. set (l := imap _ _).
    assert (list_to_map l !! shard_file i = Some sh) as ->; [|done]. apply elem_of_list_to_map_1.
    + apply NoDup_fmap_fst.
      * intros x y1 y2 H1 H2. apply elem_of_lookup_imap in H1 as (i1 & s1 & [-> ->]%pair_eq & H1),
          H2 as (i2 & s2 & [Heq ->]%pair_eq & H2).
        apply shard_file_inj in Heq as <-; [congruence|..]; apply lookup_lt_Some in H1, H2; lia.
      * apply NoDup_alt. intros j1 j2 [f x]. unfold l. rewrite !list_lookup_imap.
        intros (s1 & H1 & [-> ->]%pair_eq)%fmap_Some (s2 & H2 & [Heq _]%pair_eq)%fmap_Some.
        apply lookup_lt_Some in H1, H2. by apply shard_file_inj in Heq; [|lia..].
    + apply elem_of_lookup_imap. by exists i, sh.
Qed.

Lemma count_valid k : 0 <= k <= 8 -> valid_acid_shard_count (2 ^ k) = true.
Proof.
  intros Hk. assert (k = 0 \/ k = 1 \/ k = 2 \/ k = 3 \/ k = 4 \/ k = 5 \/ k = 6 \/ k = 7 \/ k = 8) as H by lia.
  by destruct_or! H; subst k.
Qed.

Lemma acid_inv_count st : acid_inv st -> valid_acid_shard_count (ac_shard_count st) = true.
Proof. intros Hinv. destruct (ai_count _ Hinv) as (k & Hk & ->). by apply count_valid. Qed.

(** C15: what is committed survives a restart. Starting the server again, with the same
    configuration, on the directory a storage leaves behind gives, unless some call into
    the file system or the database fails, a storage that satisfies the invariant (so its
    byte counter is exact) with every stream that has not expired, bit for bit as it was,
    and nothing else. If a call fails, the start reports it, and the directory still holds
    every stream that has not expired, so that a later start finds it. *)
Theorem acid_restart st dk now io0 io io' :
  acid_inv st -> on_disk st dk ->
  let '(dk', r) := AcidStorage_new io0 io io' now (ac_shard_count st) (ac_max_total_bytes st)
                     (ac_max_stream_bytes st) dk in
  match r with
  | Ok st' => acid_inv st' /\ on_disk st' dk' /\
      forall name, acid_view st' !! name = unexpired now name (acid_view st !! name)
  | Err e => start_failed io0 io io' e /\
      exists st', acid_inv st' /\ on_disk st' dk' /\
        forall name, acid_view st' !! name = acid_view st !! name \/
                     acid_view st' !! name = unexpired now name (acid_view st !! name)
  end.
Proof using L.
  intros Hinv [Hlay Hd]. set (count := ac_shard_count st). pose proof (acid_inv_count st Hinv) as Hcount.
  pose proof (ai_max_total _ Hinv) as Hmt. pose proof (ai_max_stream _ Hinv) as Hms.
  assert (well_sharded count (ac_max_stream_bytes st) (ac_shards st)) as Hw by exact (ai_shards _ Hinv).
  pose proof (acid_view_shards st (acid_inv_complete st Hinv) Hw) as Hview.
  assert (log_bytes (shards_map (ac_shards st)) <= ac_max_total_bytes st) as Hb.
  { rewrite <- Hview, <- (ai_sum _ Hinv). apply Hinv. }
  pose proof (acid_new_spec now count _ _ Hcount Hmt io0 io io' dk (ac_shards st) (ai_length _ Hinv) Hw Hb
    (or_intror Hlay) Hd) as Hnew.
  assert (forall shs', Forall2 (kept now (ac_max_stream_bytes st)) (ac_shards st) shs' ->
    acid_inv (store_of count (ac_max_total_bytes st) (ac_max_stream_bytes st) shs' (log_bytes (shards_map shs'))) /\
    acid_view (store_of count (ac_max_total_bytes st) (ac_max_stream_bytes st) shs' (log_bytes (shards_map shs'))) =
      shards_map shs') as Hstore.
  { intros shs' Hk. pose proof (kept_well_sharded now count _ _ _ Hk Hw) as Hw'.
    assert (length shs' = Z.to_nat count) as Hl' by (rewrite <- (Forall2_length _ _ _ Hk); apply Hinv).
    split.
    - apply store_inv; try done. etrans; [|exact Hb].
      by apply (kept_bytes now count (ac_max_total_bytes st) (ac_max_stream_bytes st)); [|apply Hinv|..].
    - apply acid_view_shards; [by apply store_complete|done]. }
  destruct (AcidStorage_new _ _ _ _ _ _ _ dk) as [dk' [st'|e]]; destruct Hnew as (_ & Hkeep & Hnew).
  - destruct Hnew as (shs' & -> & Hc & Hl' & Hd').
    assert (Forall2 (kept now (ac_max_stream_bytes st)) (ac_shards st) shs') as Hk
      by (eapply Forall2_impl; [exact Hc|by right]).
    destruct (Hstore shs' Hk) as [Hinv' Hv']. split_and!; [done|done|]. intros name.
    rewrite Hv', Hview. apply (cleaned_lookup now count (ac_max_total_bytes st) (ac_max_stream_bytes st)); try done.
    apply Hinv.
  - destruct Hnew as (Hf & shs' & Hk & Hd'). split; [done|]. destruct (Hstore shs' Hk) as [Hinv' Hv'].
    eexists. split_and!; [exact Hinv'|split; [by apply Hkeep|exact Hd']|]. intros name.
    rewrite Hv', Hview. apply (kept_lookup now count (ac_max_total_bytes st) (ac_max_stream_bytes st)); try done.
    apply Hinv.
Qed.

(** Another shard count than that of the layout is refused, and nothing is touched. *)
Lemma acid_layout_guard st dk now io0 io io' count mt ms :
  on_disk st dk -> count <> ac_shard_count st -> io0 StatLayout = false ->
  exists e, AcidStorage_new io0 io io' now count mt ms dk = (dk, Err (StorageError e)).
Proof using.
  intros [(p & Hp & Hm) _] Hne Hs. unfold AcidStorage_new, st_bind at 1, st_lift.
  destruct (validate_shard_count count) as [[]|e] eqn:Hv.
  2:{ revert Hv. unfold validate_shard_count. repeat case_match; intros [= <-]; eauto. }
  unfold st_bind at 1, throw_if. destruct (io0 CreateAcidDir); [eauto|].
  unfold st_bind at 1, load_or_create_layout. rewrite Hs, Hp. destruct (io0 ReadLayout); [eauto|].
  rewrite Hm. unfold check_layout. cbn. rewrite (proj2 (Z.eqb_neq _ count)) by congruence. cbn. eauto.
Qed.
End Restart.

