(* ===== verification/AcidRuns.v ===== *)
(** * AcidRuns: concrete runs of the ACID backend

    Witnesses of the theorems on the ACID backend, and what happens when the layout
    check cannot examine its file. *)

From S2P Require Import Prelude Errors Offsets RustStd Headers StorageCore LogSpec StorageTrace.
From S2P Require Import Config ConfigProps FileDemo MemoryStorage MemoryRefinement.
From S2P Require Import AcidStorage AcidTables AcidTxn AcidAppends AcidCreates AcidView AcidRefinement.
From S2P Require Import AcidLawful AcidRecovery AcidStart AcidProps.

(** ** A run *)

Definition acid_all_ok : nat -> AcidIo := fun _ => acid_ok.

(** A first start on an empty directory. *)
Definition acid_start (count : Z) (dk : AcidDisk) : AcidDisk * Result Error AcidStorage :=
  AcidStorage_new acid_ok acid_all_ok acid_all_ok (fun _ => 1000) count 1000 100 dk.
Definition empty_acid_disk : AcidDisk := mkAcidDisk None ∅.

Definition acid_empty : AcidStorage := mkAcid (replicate 2 new_shard) 2 0 1000 100 ∅.

Lemma replicate_well_sharded n count ms : well_sharded count ms (replicate n new_shard).
Proof. intros i sh name Hi. apply lookup_replicate in Hi as [-> _]. by left. Qed.

Lemma acid_empty_inv : acid_inv acid_empty.
Proof.
  split; cbn [acid_empty ac_shard_count ac_shards ac_max_total_bytes ac_max_stream_bytes ac_total_bytes].
  - exists 1. by split; [lia|].
  - done.
  - unfold u64, two64. lia.
  - unfold u64, two64. lia.
  - exact (replicate_well_sharded 2 2 100).
  - vm_compute. reflexivity.
  - lia.
Qed.

(** A stream is created and gets two messages; the second append fails to commit, and is
    retried. *)
Definition acid_demo_ops : list StorageOp :=
  [OpCreate demo_clock "s" demo_config; OpAppend demo_clock "s" [x61] "text/plain";
   OpAppend demo_clock "s" [x62] "text/plain"; OpAppend demo_clock "s" [x62] "text/plain"].
Definition acid_demo_io (n : nat) : AcidIo :=
  fun site => match n, site with 2%nat, Commit OfAppend => true | _, _ => false end.
Definition acid_demo_run : AcidRun :=
  fold_left (fun r op => run_op op r) acid_demo_ops (mkAcidRun _ acid_empty acid_demo_io).

Lemma acid_demo_history :
  history (mkAcidRun _ acid_empty acid_demo_io) acid_demo_ops acid_demo_run.
Proof.
  unfold acid_demo_run, acid_demo_ops. cbn [fold_left].
  do 4 (apply history_cons; [fits_run|exact I|]). apply history_nil.
Qed.

Lemma acid_demo_inv : acid_inv (ar_store acid_demo_run).
Proof.
  apply (history_ok _ _ _ acid_demo_history). split; [exact acid_empty_inv|].
  intros n site Hf. cbn in Hf. destruct n as [|[|[|n]]], site; try done. by destruct c.
Qed.

(** The messages of a stream, by the view. *)
Definition messages_of (st : AcidStorage) (name : string) : option (list bytes) :=
  a_msgs <$> acid_view st !! name.

Lemma acid_refines_log_witness :
  messages_of (ar_store acid_demo_run) "s" = Some [[x61]; [x62]] /\
  let io := fun site => match site with InsertMessage 3 => true | _ => false end in
  let out := acid_batch_append io demo_clock "s" [[x63]; [x64]] "text/plain" None (ar_store acid_demo_run) in
  out.2 = Err (StorageError "failed to append batch message") /\
  acid_inv out.1 /\ messages_of out.1 "s" = Some [[x61]; [x62]].
Proof.
  split; [vm_compute; reflexivity|]. intros io out.
  destruct (acid_refines_log (ar_store acid_demo_run) io demo_clock "s" acid_demo_inv)
    as (_ & _ & _ & _ & _ & Happ).
  destruct (Happ [[x63]; [x64]]) as (_ & Hb & _); [fits_run|].
  destruct (Hb "text/plain" None) as [Hinv _]. fold out in Hinv.
  split_and!; [vm_compute; reflexivity|exact Hinv|vm_compute; reflexivity].
Defined.

(** The directory the run leaves. *)
Definition acid_demo_disk : AcidDisk := disk_of (ar_store acid_demo_run).

Lemma acid_demo_on_disk : on_disk (ar_store acid_demo_run) acid_demo_disk.
Proof. apply disk_of_on_disk. vm_compute. lia. Qed.

Lemma acid_restart_witness :
  exists dk' st', acid_start 2 acid_demo_disk = (dk', Ok st') /\ acid_inv st' /\
    messages_of st' "s" = Some [[x61]; [x62]].
Proof.
  pose proof (acid_restart (ar_store acid_demo_run) acid_demo_disk (fun _ => 1000) acid_ok acid_all_ok
    acid_all_ok acid_demo_inv acid_demo_on_disk) as Hr.
  change (AcidStorage_new _ _ _ _ _ _ _ _) with (acid_start 2 acid_demo_disk) in Hr.
  destruct (acid_start 2 acid_demo_disk) as [dk' [st'|e]].
  - destruct Hr as (Hinv & _ & Hv). exists dk', st'. split_and!; [done|done|].
    unfold messages_of. rewrite Hv.
    assert ((fun a => (a_msgs a, is_stream_expired 1000 (a_config a))) <$>
      acid_view (ar_store acid_demo_run) !! "s" = Some ([[x61]; [x62]], false)) as Ha by (vm_compute; reflexivity).
    destruct (acid_view (ar_store acid_demo_run) !! "s") as [a|]; [|done]. injection Ha as Hm Hx.
    cbn. rewrite Hx. cbn. by rewrite Hm.
  - exfalso. destruct Hr as [[(? & ? & ? & _)|[(? & ? & ? & ? & _)|(? & ? & ? & ? & _)]] _]; done.
Defined.

(** ** The layout check *)

(** What a start leads to: is the stream there, and how many bytes are counted. *)
Definition after_start (out : AcidDisk * Result Error AcidStorage) : Result Error (bool * Z) :=
  match out.2 with
  | Ok st => Ok (acid_exists acid_ok demo_clock "s" st, ac_total_bytes st)
  | Err e => Err e
  end.

(** The layout check fails open. The layout file is what keeps a directory from being
    opened with another number of shards, under which names hash to other databases; but
    a layout file that cannot be examined ([Path::exists] is false on any error) counts as
    absent. In the run shown, a start with the shard count of the layout finds the stream,
    a start with another count is refused, and a start with another count while the file
    cannot be examined succeeds: it writes a layout for the new count and does not find
    the committed stream, though it counts its bytes. From then on a start with the new
    count does not find the stream either, and one with the original count is refused. *)
Theorem acid_layout_check_bypassed :
  let stat_fails : AcidIo := fun site => match site with StatLayout => true | _ => false end in
  let refused := Err (StorageError "acid layout mismatch: shard_count") in
  let bypass := AcidStorage_new stat_fails acid_all_ok acid_all_ok (fun _ => 1000) 4 1000 100
                  acid_demo_disk in
  after_start (acid_start 2 acid_demo_disk) = Ok (true, 2) /\
  after_start (acid_start 4 acid_demo_disk) = refused /\
  after_start bypass = Ok (false, 2) /\
  after_start (acid_start 4 bypass.1) = Ok (false, 2) /\
  after_start (acid_start 2 bypass.1) = refused.
Proof. split_and!; vm_compute; reflexivity. Qed.

(** ** Where the ACID backend differs from the in-memory one *)

(** The same calls on fresh backends with a global limit of 10 bytes; the stream expires
    at 500. *)
Definition expiring_config : StreamConfig := with_expires_at demo_config 500.
Definition tight_acid : AcidStorage := mkAcid (replicate 2 new_shard) 2 0 10 10 ∅.
Definition tight_memory : InMemoryStorage := InMemoryStorage_new 10 10.
Definition early_clock : Clock := fun _ => 100.

(** A full server refuses an append to a missing stream for lack of memory, where the
    in-memory backend says that the stream is missing. *)
Example acid_full_before_missing :
  (acid_append acid_ok demo_clock "s" (repeat x61 11) "text/plain" tight_acid).2 =
    Err MemoryLimitExceeded /\
  (mem_append demo_clock "s" (repeat x61 11) "text/plain" tight_memory).2 = Err (NotFound "s").
Proof. split; vm_compute; reflexivity. Qed.

(** Creating a stream with data over an expired one needs room for both. *)
Example acid_reserves_before_release :
  let data n := [repeat x61 n] in
  let acid := (acid_create_stream_with_data acid_ok early_clock "s" expiring_config (data 8%nat) false
                 tight_acid).1 in
  let memory := (mem_create_stream_with_data early_clock "s" expiring_config (data 8%nat) false
                   tight_memory).1 in
  (acid_create_stream_with_data acid_ok demo_clock "s" demo_config (data 5%nat) false acid).2 =
    Err MemoryLimitExceeded /\
  is_ok (mem_create_stream_with_data demo_clock "s" demo_config (data 5%nat) false memory).2 = true.
Proof. split; vm_compute; reflexivity. Qed.

(** Messages without bytes are not stored by a create. *)
Example acid_create_drops_empty_messages :
  messages_of (acid_create_stream_with_data acid_ok demo_clock "s" demo_config [[]] false tight_acid).1 "s" =
    Some [] /\
  entry_data <$> m_streams (mem_create_stream_with_data demo_clock "s" demo_config [[]] false
                              tight_memory).1 !! "s" = Some [[]].
Proof. split; vm_compute; reflexivity. Qed.
