(* ===== verification/AcidConcurrent.v ===== *)
(** * AcidConcurrent: concurrent calls on the ACID backend

    Any number of callers share one [AcidStorage]. Between the atomic operations of a
    call (a [fetch_update] of the counter, a transaction on a shard, of which [redb] lets
    one write at a time, and the locks of the notifiers) other calls take steps. *)

From S2P Require Import Prelude Errors Offsets RustStd Headers StorageCore LogSpec StorageTrace Calls.
From S2P Require Import Config AcidStorage AcidTables AcidTxn AcidAppends AcidCreates AcidView AcidRefinement.

(** ** Linearization *)

(** The effects in order, as calls on the abstract log one after the other. *)
Inductive linear : View -> list Label -> View -> Prop :=
  | linear_nil v : linear v [] v
  | linear_effect v tr v1 tid q ans v2 :
      linear v tr v1 -> explains v1 q ans v2 -> linear v (tr ++ [Effect tid q ans]) v2
  | linear_other v tr v1 l :
      linear v tr v1 -> (forall tid q ans, l <> Effect tid q ans) -> linear v (tr ++ [l]) v1.

Section Concurrent.
Context {A : AcidLib}.

(** The methods, as one function. *)
Definition answer_op (io : AcidIo) (op : StorageOp) (st : AcidStorage) : AcidStorage * Answer :=
  match op with
  | OpCreate clk n config => with_answer AnsCreate (acid_create_stream io clk n config st)
  | OpCreateWithData clk n config msgs close =>
      with_answer AnsCreateData (acid_create_stream_with_data io clk n config msgs close st)
  | OpAppend clk n data ct => with_answer AnsAppend (acid_append io clk n data ct st)
  | OpBatchAppend clk n msgs ct seq => with_answer AnsAppend (acid_batch_append io clk n msgs ct seq st)
  | OpProducer clk n msgs ct p close seq =>
      with_answer AnsProducer (acid_append_with_producer io clk n msgs ct p close seq st)
  | OpClose clk n => with_answer AnsUnit (acid_close_stream io clk n st)
  | OpDelete n => with_answer AnsUnit (acid_delete io n st)
  | OpSubscribe _ _ => (st, AnsUnit (Ok tt))
  end.
Definition answer_request (io : AcidIo) (q : Request) (st : AcidStorage) : AcidStorage * Answer :=
  match q with
  | Write op => answer_op io op st
  | Read clk n from => (st, AnsRead (acid_read io clk n from st))
  | Head clk n => (st, AnsHead (acid_head io clk n st))
  end.

(** ** Threads *)

(** Where a call is: not begun, its bytes reserved, its transaction about to commit (only
    for [create_stream_with_data], which reserves while its transaction is open; [t] is
    what the closure computed), its transaction over and [owed] bytes to be given back,
    about to notify, returned. *)
Inductive AThread : Type :=
  | Calling (io : AcidIo) (q : Request)
  | Reserved (io : AcidIo) (op : StorageOp) (bytes : Z)
  | Committing (io : AcidIo) (op : StorageOp) (t : Txn) (r : Result Error CreateWithDataResult)
  | Settling (op : StorageOp) (owed : Z) (ans : Answer)
  | Notifying (q : Request) (owed : Z) (ans : Answer)
  | Returned (q : Request) (ans : Answer).

(** The bytes an append reserves before its transaction. *)
Definition reserves (op : StorageOp) : option Z :=
  match op with
  | OpAppend _ _ data _ => Some (len_u64 data)
  | OpBatchAppend _ _ [] _ _ => None
  | OpBatchAppend _ _ msgs _ _ | OpProducer _ _ msgs _ _ _ _ => Some (acid_batch_bytes msgs)
  | _ => None
  end.

(** The refusal of an append. *)
Definition refuse (op : StorageOp) (e : Error) : Answer :=
  match op with OpProducer _ _ _ _ _ _ _ => AnsProducer (Err e) | _ => AnsAppend (Err e) end.

(** A result, and the bytes to be given back. *)
Definition charge {R} (f : Result Error R -> Answer) (undo : Result Error R -> bool) (bytes : Z)
    (out : Shard * Result Error R) : Shard * (Answer * Z) :=
  (out.1, (f out.2, if undo out.2 then bytes else 0)).
Definition release {R} (f : Result Error R -> Answer) (out : Shard * Result Error (R * Z))
  : Shard * (Answer * Z) :=
  (out.1, (f (removal out.2).1, (removal out.2).2)).

(** The transaction of a call that does not reserve inside it. *)
Definition call_txn (io : AcidIo) (op : StorageOp) (bytes max_stream_bytes : Z) (sh : Shard)
  : Shard * (Answer * Z) :=
  match op with
  | OpAppend clk n data ct =>
      charge AnsAppend failed bytes (append_txn io clk max_stream_bytes n data ct sh)
  | OpBatchAppend clk n msgs ct seq =>
      charge AnsAppend failed bytes
        (batch_txn io clk max_stream_bytes n msgs (acid_batch_bytes msgs) ct seq sh)
  | OpProducer clk n msgs ct p close seq =>
      charge AnsProducer not_accepted bytes
        (producer_txn io clk max_stream_bytes n msgs (acid_batch_bytes msgs) ct p close seq sh)
  | OpCreate clk n config => release AnsCreate (create_txn io clk n config sh)
  | OpDelete n =>
      release AnsUnit
        (let '(sh, r) := delete_txn io n sh in (sh, let? removed := r in Ok (tt, removed)))
  | OpClose clk n => charge AnsUnit failed 0 (close_txn io clk n sh)
  | OpCreateWithData _ _ _ _ _ | OpSubscribe _ _ => (sh, (AnsUnit (Ok tt), 0))
  end.

(** A thread whose next step is such a transaction. *)
Definition at_txn (th : AThread) : option (AcidIo * StorageOp * Z) :=
  match th with
  | Calling io (Write op) =>
      match op with OpCreate _ _ _ | OpClose _ _ | OpDelete _ => Some (io, op, 0) | _ => None end
  | Reserved io op bytes => Some (io, op, bytes)
  | _ => None
  end.

(** What a call that is over tells the subscribers. *)
Definition after_call (q : Request) (owed : Z) (ans : Answer) (st : AcidStorage) : AcidStorage :=
  match q, ans with
  | Write (OpAppend _ n _ _), AnsAppend (Ok _) | Write (OpBatchAppend _ n _ _ _), AnsAppend (Ok _)
  | Write (OpClose _ n), AnsUnit (Ok _) => notify_stream n st
  | Write (OpProducer _ n msgs _ _ close _), AnsProducer (Ok _) =>
      if negb (bool_decide (msgs = [])) || close then notify_stream n st else st
  | Write (OpDelete n), AnsUnit (Ok _) => drop_notifier n st
  | Write (OpCreate _ n _), AnsCreate (Ok _) => if 0 <? owed then drop_notifier n st else st
  | Write (OpCreateWithData _ n _ msgs close), AnsCreateData (Ok _) =>
      let st := if 0 <? owed then drop_notifier n st else st in
      if close || negb (bool_decide (msgs = [])) then notify_stream n st else st
  | _, _ => st
  end.

(** ** Steps *)

Record Conf : Type := mkConf { cc_store : AcidStorage; cc_threads : gmap string AThread }.

Definition set_thread (c : Conf) (tid : string) (st : AcidStorage) (th : AThread) : Conf :=
  mkConf st (<[tid := th]> (cc_threads c)).
Definition set_shard (st : AcidStorage) (name : string) (sh : Shard) : AcidStorage :=
  set_shards st (<[shard_index st name := sh]> (ac_shards st)).

(** The shard of an open write transaction; [begin_write] waits for it to end. *)
Definition open_on (st : AcidStorage) (th : AThread) : option nat :=
  match th with Committing _ op _ _ => Some (shard_index st (op_name op)) | _ => None end.
Definition shard_free (c : Conf) (idx : nat) : Prop :=
  forall tid th, cc_threads c !! tid = Some th -> open_on (cc_store c) th <> Some idx.

Definition idle (o : option AThread) : bool :=
  match o with None | Some (Returned _ _) => true | _ => false end.

(** One atomic operation of one caller. The transactions are guarded by [fits]: the
    messages of a stream can be counted. *)
Inductive acid_step (c : Conf) : option Label -> Conf -> Prop :=
  | step_call tid io q :
      idle (cc_threads c !! tid) = true -> callable q ->
      acid_step c (Some (Invoke tid q)) (set_thread c tid (cc_store c) (Calling io q))
  | step_read tid io clk n from :
      cc_threads c !! tid = Some (Calling io (Read clk n from)) ->
      let ans := AnsRead (acid_read io clk n from (cc_store c)) in
      acid_step c (Some (Effect tid (Read clk n from) ans))
        (set_thread c tid (cc_store c) (Notifying (Read clk n from) 0 ans))
  | step_head tid io clk n :
      cc_threads c !! tid = Some (Calling io (Head clk n)) ->
      let ans := AnsHead (acid_head io clk n (cc_store c)) in
      acid_step c (Some (Effect tid (Head clk n) ans))
        (set_thread c tid (cc_store c) (Notifying (Head clk n) 0 ans))
  | step_empty tid io clk n ct seq :
      let op := OpBatchAppend clk n [] ct seq in
      cc_threads c !! tid = Some (Calling io (Write op)) ->
      let ans := AnsAppend (Err (InvalidHeader "Content-Length" "batch cannot be empty")) in
      acid_step c (Some (Effect tid (Write op) ans))
        (set_thread c tid (cc_store c) (Notifying (Write op) 0 ans))
  | step_reserve tid io op bytes st :
      cc_threads c !! tid = Some (Calling io (Write op)) -> reserves op = Some bytes ->
      reserve_total_bytes bytes (cc_store c) = (st, Ok tt) ->
      acid_step c None (set_thread c tid st (Reserved io op bytes))
  | step_refuse tid io op bytes st e :
      cc_threads c !! tid = Some (Calling io (Write op)) -> reserves op = Some bytes ->
      reserve_total_bytes bytes (cc_store c) = (st, Err e) ->
      acid_step c (Some (Effect tid (Write op) (refuse op e)))
        (set_thread c tid st (Notifying (Write op) 0 (refuse op e)))
  | step_txn tid th io op bytes sh ans owed :
      cc_threads c !! tid = Some th -> at_txn th = Some (io, op, bytes) ->
      shard_free c (shard_index (cc_store c) (op_name op)) ->
      fits (acid_view (cc_store c)) (op_name op) (op_msgs op) ->
      call_txn io op bytes (ac_max_stream_bytes (cc_store c)) (shard (cc_store c) (op_name op)) =
        (sh, (ans, owed)) ->
      acid_step c (Some (Effect tid (Write op) ans))
        (set_thread c tid (set_shard (cc_store c) (op_name op) sh) (Settling op owed ans))
  | step_closure tid io clk n config msgs close t r :
      let op := OpCreateWithData clk n config msgs close in
      cc_threads c !! tid = Some (Calling io (Write op)) ->
      shard_free c (shard_index (cc_store c) n) ->
      fits (acid_view (cc_store c)) n msgs ->
      create_with_data_txn io clk (ac_max_total_bytes (cc_store c)) (ac_max_stream_bytes (cc_store c))
        n config msgs (acid_batch_bytes msgs) close
        (mkTxn (shard (cc_store c) n) (ac_total_bytes (cc_store c)) false 0) = (t, r) ->
      acid_step c None (set_thread c tid (set_total (cc_store c) (tx_total t)) (Committing io op t r))
  | step_commit tid io op t r :
      cc_threads c !! tid = Some (Committing io op t r) ->
      acid_step c (Some (Effect tid (Write op) (AnsCreateData r)))
        (set_thread c tid (set_shard (cc_store c) (op_name op) (tx_shard t))
           (Settling op (data_owed (acid_batch_bytes (op_msgs op)) t r) (AnsCreateData r)))
  | step_settle tid op owed ans :
      cc_threads c !! tid = Some (Settling op owed ans) ->
      acid_step c None (set_thread c tid (acid_sub_total owed (cc_store c)) (Notifying (Write op) owed ans))
  | step_notify tid q owed ans :
      cc_threads c !! tid = Some (Notifying q owed ans) ->
      acid_step c (Some (Respond tid q ans))
        (set_thread c tid (after_call q owed ans (cc_store c)) (Returned q ans)).

(** Runs, with what is seen of them. *)
Inductive acid_steps : Conf -> list Label -> Conf -> Prop :=
  | steps_nil c : acid_steps c [] c
  | steps_snoc c tr c1 l c2 :
      acid_steps c tr c1 -> acid_step c1 l c2 -> acid_steps c (tr ++ option_list l) c2.

(** The phase a thread is in. *)
Definition phase_of (o : option AThread) : Phase :=
  match o with
  | None | Some (Returned _ _) => Idle
  | Some (Calling _ q) => Waiting q
  | Some (Reserved _ op _) | Some (Committing _ op _ _) => Waiting (Write op)
  | Some (Settling op _ ans) => Answered (Write op) ans
  | Some (Notifying q _ ans) => Answered q ans
  end.

(** ** Invariant *)

(** The bytes a call holds in the counter beyond those of the streams. *)
Definition held (th : AThread) : Z :=
  match th with
  | Reserved _ _ bytes => bytes
  | Committing _ op t _ => data_reserved (payload (op_msgs op)) t
  | Settling _ owed _ => owed
  | _ => 0
  end.

(** The storage if nothing were held. *)
Definition settled (st : AcidStorage) : AcidStorage := set_total st (log_bytes (acid_view st)).

Definition thread_ok (st : AcidStorage) (th : AThread) : Prop :=
  match th with
  | Calling _ q => callable q
  | Reserved _ op bytes => callable (Write op) /\ reserves op = Some bytes
  | Committing io (OpCreateWithData clk n config msgs close) t r =>
      payload msgs <= ISIZE_MAX /\
      exists total, data_closed (ac_max_total_bytes st) (ac_max_stream_bytes st) (shard st n)
                      (acid_view st !! n) total io clk n config msgs close t r
  | Committing _ _ _ _ => False
  | Settling _ owed _ => 0 <= owed
  | _ => True
  end.

Record conc_inv (c : Conf) : Prop := mkConcInv {
  ci_store : acid_inv (settled (cc_store c));
  ci_total : ac_total_bytes (cc_store c) =
             log_bytes (acid_view (cc_store c)) + map_sum held (cc_threads c);
  ci_limit : ac_total_bytes (cc_store c) <= ac_max_total_bytes (cc_store c);
  ci_threads : forall tid th, cc_threads c !! tid = Some th -> thread_ok (cc_store c) th;
  ci_locks : forall tid1 tid2 th1 th2 idx,
    cc_threads c !! tid1 = Some th1 -> cc_threads c !! tid2 = Some th2 ->
    open_on (cc_store c) th1 = Some idx -> open_on (cc_store c) th2 = Some idx -> tid1 = tid2
}.
End Concurrent.
