(* ===== verification/AcidInterleaving.v ===== *)
(** * AcidInterleaving: runs of concurrent calls on the ACID backend

    Every step keeps the invariant, and only the steps that are an effect change the
    logs, as their label says; the labels of a caller are calls, each with one effect
    between its invocation and its answer. *)

From S2P Require Import Prelude Errors Offsets RustStd Headers StorageCore LogSpec StorageTrace Calls.
From S2P Require Import Config AcidStorage AcidTables AcidTxn AcidAppends AcidCreates AcidView AcidRefinement.
From S2P Require Import AcidLawful AcidConcurrent.

#[local] Arguments acid_sub_total : simpl never.
#[local] Arguments notify_stream : simpl never.
#[local] Arguments drop_notifier : simpl never.

Section Interleaving.
Context {A : AcidLib} {L : AcidLibLaws A}.

(** ** Effects of transactions *)

(** [lands], with the answer to the call. *)
Definition landed (q : Request) (st : AcidStorage) (name : string) (bytes owed : Z) (sh : Shard) (ans : Answer)
  : Prop :=
  0 <= owed /\
  exists o, same_but name (shard st name) sh /\ found_at (ac_max_stream_bytes st) sh name o /\
    stored_bytes o + owed = stored_bytes (acid_view st !! name) + bytes /\
    explains (acid_view st) q ans (partial_alter (fun _ => o) name (acid_view st)).

Lemma lands_landed {R} io (spec : View -> View * Result Error R) st name bytes owed sh r q f :
  lands io spec st name bytes owed sh r ->
  spec_request q (acid_view st) = with_answer f (spec (acid_view st)) ->
  (forall e, answer_err (f (Err e)) = Some e) ->
  landed q st name bytes owed sh (f r).
Proof using.
  intros (Ho & o & Hs & Hf & Hb & Hr) Hq He. split; [done|]. exists o. split_and!; [done..|].
  destruct Hr as [Hr|(-> & e & -> & Hae)].
  - left. by rewrite Hq, <- Hr.
  - right. split; [apply partial_alter_self|]. eauto using acid_error_resource.
Qed.

(** The bytes an append reserves are those of its messages. *)
Lemma reserves_payload op bytes :
  callable (Write op) -> reserves op = Some bytes -> bytes = payload (op_msgs op) /\ 0 <= bytes.
Proof using.
  intros Hc Hr. assert (payload (op_msgs op) <= ISIZE_MAX) as Hp by by destruct op; try destruct Hc.
  pose proof (payload_nonneg (op_msgs op)). unfold ISIZE_MAX in Hp.
  assert (payload (op_msgs op) < two64) as Hlt by (unfold two64; lia).
  assert (bytes = payload (op_msgs op)) as ->; [|done].
  destruct op; cbn in *; try done; repeat case_match; simplify_eq/=;
    rewrite ?acid_batch_bytes_payload by done; try done.
  rewrite len_u64_small; lia.
Qed.

Lemma call_txn_landed st th io op bytes sh ans owed :
  acid_inv st -> at_txn th = Some (io, op, bytes) -> thread_ok st th ->
  fits (acid_view st) (op_name op) (op_msgs op) ->
  ac_total_bytes st + bytes <= ac_max_total_bytes st ->
  call_txn io op bytes (ac_max_stream_bytes st) (shard st (op_name op)) = (sh, (ans, owed)) ->
  landed (Write op) st (op_name op) bytes owed sh ans.
Proof using L.
  intros Hinv Hat Hok Hfit Hroom Ht. destruct (fits_batch _ _ _ Hinv Hfit) as (_ & Hbb & _).
  destruct th as [? [op'| |]|io' op' bytes'| | | |]; cbn in Hat; try done.
  - destruct op'; simplify_eq; cbn in Ht; unfold release, charge in Ht.
    + destruct (create_txn _ _ _ _ _) as [sh' r] eqn:Hc. simplify_eq/=.
      by eapply lands_landed; [by apply create_lands|..].
    + destruct (close_txn _ _ _ _) as [sh' r] eqn:Hc. cbn in Ht.
      replace (if failed r then 0 else 0) with 0 in Ht by by destruct (failed r). simplify_eq/=. by eapply lands_landed; [by apply close_lands|..].
    + destruct (delete_txn _ _ _) as [sh' r] eqn:Hc. simplify_eq/=.
      by eapply lands_landed; [by apply delete_lands|..].
  - simplify_eq. destruct Hok as [Hcall Hres]. destruct (reserves_payload _ _ Hcall Hres) as [-> _].
    destruct op; cbn in Ht, Hres; unfold charge in Ht; try done;
      cbn [op_msgs] in Hbb, Hroom; rewrite ?Hbb in Ht.
    + destruct (append_txn _ _ _ _ _ _ _) as [sh' r] eqn:Hc. simplify_eq/=.
      by eapply lands_landed; [by apply (append_lands io clk st name [data] ct)|..].
    + destruct (batch_txn _ _ _ _ _ _ _ _ _) as [sh' r] eqn:Hc. simplify_eq/=.
      eapply lands_landed; [apply (batch_lands io clk st name msgs ct); [done..|by destruct msgs|done]|done..].
    + destruct (producer_txn _ _ _ _ _ _ _ _ _ _ _) as [sh' r] eqn:Hc. simplify_eq/=.
      by eapply lands_landed; [by apply (producer_lands io clk st name msgs ct)|..].
Qed.

(** What committing does to the settled storage. *)
Lemma landed_commit q st name bytes owed sh ans :
  acid_inv (settled st) -> log_bytes (acid_view st) + bytes <= ac_max_total_bytes st ->
  landed q (settled st) name bytes owed sh ans ->
  acid_inv (settled (set_shard st name sh)) /\ 0 <= owed /\
  log_bytes (acid_view (set_shard st name sh)) + owed = log_bytes (acid_view st) + bytes /\
  explains (acid_view st) q ans (acid_view (set_shard st name sh)).
Proof using L.
  intros Hinv Hle (Ho & o & Hs & Hf & Hb & Hex). set (v' := acid_view (set_shard st name sh)).
  assert (v' = partial_alter (fun _ => o) name (acid_view st)) as Hv.
  { exact (with_commit_view (settled st) name sh (log_bytes v') (ac_notifiers st) o Hinv Hs Hf). }
  pose proof (log_bytes_alter (acid_view st) name o) as Hlb. rewrite <- Hv in Hlb.
  change (acid_view (settled st)) with (acid_view st) in *. split_and!; [|done|lia|by rewrite Hv].
  apply (with_commit_inv (settled st) name sh (log_bytes v') (ac_notifiers st) o); [done..| |]; cbn.
  - change (acid_view (settled st)) with (acid_view st). lia.
  - lia.
Qed.

(** ** Steps keep the invariant *)

Definition old_held (c : Conf) (tid : string) : Z := from_option held 0 (cc_threads c !! tid).

Lemma thread_ok_held st th : thread_ok st th -> 0 <= held th.
Proof using.
  destruct th as [| |io op t r| | |]; cbn; try done.
  - intros [Hc Hr]. by apply (reserves_payload op).
  - intros _. unfold data_reserved. pose proof (payload_nonneg (op_msgs op)). destruct (tx_reserved t); lia.
Qed.

Lemma held_le c tid : conc_inv c -> 0 <= old_held c tid <= map_sum held (cc_threads c).
Proof using.
  intros Hinv. assert (map_Forall (fun _ th => 0 <= held th) (cc_threads c)) as Hall.
  { intros t th Hth. eapply thread_ok_held, ci_threads; [done|exact Hth]. }
  unfold old_held. destruct (cc_threads c !! tid) as [th|] eqn:Hth; cbn.
  - by apply (map_sum_lookup_le _ _ tid).
  - split; [done|]. by apply map_sum_nonneg.
Qed.

(** The configuration of the server does not change. *)
Definition same_limits (st st' : AcidStorage) : Prop :=
  ac_shard_count st' = ac_shard_count st /\ ac_max_total_bytes st' = ac_max_total_bytes st /\
  ac_max_stream_bytes st' = ac_max_stream_bytes st.

Lemma open_on_limits st st' th : same_limits st st' -> open_on st' th = open_on st th.
Proof using. intros (H & _). destruct th; cbn; try done. unfold shard_index. by rewrite H. Qed.

(** A thread only relies on the shard it has open. *)
Lemma thread_ok_frame st st' th :
  same_limits st st' ->
  (forall idx, open_on st th = Some idx -> ac_shards st' !! idx = ac_shards st !! idx) ->
  thread_ok st th -> thread_ok st' th.
Proof using L.
  intros (H1 & H2 & H3) Hsh. destruct th as [| |io [] t r| | |]; cbn; try done.
  intros (Hp & total & Hc). split; [done|]. exists total. specialize (Hsh _ eq_refl). cbn in Hsh.
  assert (shard st' name = shard st name) as Hs.
  { unfold shard, shard_index in *. by rewrite H1, Hsh. }
  by rewrite acid_view_lookup, Hs, <- acid_view_lookup, H2, H3.
Qed.

Lemma conc_inv_set c tid st' th' :
  conc_inv c -> same_limits (cc_store c) st' -> acid_inv (settled st') ->
  ac_total_bytes st' = log_bytes (acid_view st') + (map_sum held (cc_threads c) - old_held c tid + held th') ->
  ac_total_bytes st' <= ac_max_total_bytes st' ->
  (forall tid2 th2 idx, tid2 <> tid -> cc_threads c !! tid2 = Some th2 ->
     open_on (cc_store c) th2 = Some idx ->
     ac_shards st' !! idx = ac_shards (cc_store c) !! idx /\ open_on st' th' <> Some idx) ->
  thread_ok st' th' -> conc_inv (set_thread c tid st' th').
Proof using L.
  intros Hinv Hlim Hst Htot Hle Hframe Hok. split; cbn; [done| |done|..].
  - rewrite map_sum_set. unfold old_held in Htot. lia.
  - intros tid2 th2 [[<- <-]|[Hne Hth2]]%lookup_insert_Some; [done|].
    apply (thread_ok_frame (cc_store c)); [done| |by eapply ci_threads].
    intros idx Hi. by apply (Hframe tid2 th2).
  - intros tid1 tid2 th1 th2 idx [[<- <-]|[Hne1 Hth1]]%lookup_insert_Some
      [[<- <-]|[Hne2 Hth2]]%lookup_insert_Some; [done|..]; rewrite ?(open_on_limits _ _ _ Hlim).
    + intros Ho1 Ho2. exfalso. apply (Hframe tid2 th2 idx); try done. by rewrite (open_on_limits _ _ _ Hlim).
    + intros Ho1 Ho2. exfalso. apply (Hframe tid1 th1 idx); try done. by rewrite (open_on_limits _ _ _ Hlim).
    + intros Ho1 Ho2. by eapply (ci_locks _ Hinv tid1 tid2).
Qed.

(** Steps that leave the shards alone. *)
Lemma conc_inv_quiet c tid total ns th' :
  conc_inv c ->
  let st := cc_store c in
  let st' := mkAcid (ac_shards st) (ac_shard_count st) total (ac_max_total_bytes st) (ac_max_stream_bytes st) ns in
  total = ac_total_bytes st - old_held c tid + held th' -> total <= ac_max_total_bytes st ->
  (forall idx, open_on st th' = Some idx -> shard_free c idx) -> thread_ok st th' ->
  conc_inv (set_thread c tid st' th').
Proof using L.
  intros Hinv st st' Htot Hle Hfree Hok. apply conc_inv_set; try done.
  - apply (acid_inv_notifiers (settled st) ns), Hinv.
  - change (acid_view st') with (acid_view st). cbn. rewrite Htot. unfold st. rewrite (ci_total _ Hinv). lia.
  - intros tid2 th2 idx Hne Hth2 Ho. split; [done|]. intros Ho'. by apply (Hfree idx Ho' tid2 th2).
Qed.

(** Steps that change the shard of a stream. *)
Lemma conc_inv_commit c tid q name bytes owed sh ans op :
  conc_inv c -> old_held c tid = bytes ->
  (forall tid2 th2, tid2 <> tid -> cc_threads c !! tid2 = Some th2 ->
     open_on (cc_store c) th2 <> Some (shard_index (cc_store c) name)) ->
  landed q (settled (cc_store c)) name bytes owed sh ans ->
  conc_inv (set_thread c tid (set_shard (cc_store c) name sh) (Settling op owed ans)) /\
  explains (acid_view (cc_store c)) q ans (acid_view (set_shard (cc_store c) name sh)).
Proof using L.
  intros Hinv Hheld Hfree Hl. pose proof (held_le c tid Hinv) as Hle.
  pose proof (ci_total _ Hinv) as Htot. pose proof (ci_limit _ Hinv) as Hlim.
  destruct (landed_commit q (cc_store c) name bytes owed sh ans (ci_store _ Hinv) ltac:(lia) Hl) as (Hi & Ho & Hb & Hex).
  split; [|done]. apply conc_inv_set; try done.
  - change (ac_total_bytes (set_shard (cc_store c) name sh)) with (ac_total_bytes (cc_store c)).
    cbn [held]. lia.
  - intros tid2 th2 idx Hne Hth2 Hop. split; [|done]. cbn. apply list_lookup_insert_ne. intros <-.
    by apply (Hfree tid2 th2).
Qed.

(** ** One step *)

Lemma acid_sub_total_quiet owed st :
  0 <= owed <= ac_total_bytes st -> acid_sub_total owed st = set_total st (ac_total_bytes st - owed).
Proof using.
  intros Ho. unfold acid_sub_total. destruct (Z.eqb_spec owed 0) as [->|].
  - rewrite Z.sub_0_r. by destruct st.
  - unfold set_total, saturating_sub64. f_equal. lia.
Qed.

Lemma after_call_notifiers q owed ans st : exists ns, after_call q owed ans st = set_notifiers st ns.
Proof using.
  assert (exists ns, st = set_notifiers st ns) as Hsame by (exists (ac_notifiers st); by destruct st).
  assert (forall n, exists ns, drop_notifier n st = set_notifiers st ns) as Hdrop by (intros n; by eexists).
  assert (forall n, exists ns, notify_stream n st = set_notifiers st ns) as Hring
    by (intros n; apply notify_stream_spec).
  unfold after_call. repeat case_match; auto;
    edestruct notify_stream_spec as [ns ->]; try (by exists ns).
Qed.

(** The outcome of a step on the logs, by its label. *)
Definition effect_of (l : option Label) (v v' : View) : Prop :=
  match l with Some (Effect _ q ans) => explains v q ans v' | _ => v' = v end.

Lemma reads_explains {R} io (r spec : Result Error R) (f : Result Error R -> Answer) q v :
  reads io r spec -> spec_request q v = (v, f spec) -> (forall e, answer_err (f (Err e)) = Some e) ->
  explains v q (f r) v.
Proof using.
  intros [->|(site & msg & _ & ->)] Hq He; [by left|right]. split; [done|]. by exists (StorageError msg).
Qed.

Lemma total_bounds c : conc_inv c -> 0 <= ac_total_bytes (cc_store c) <= ac_max_total_bytes (cc_store c).
Proof using.
  intros Hinv. split; [|by apply ci_limit]. rewrite (ci_total _ Hinv).
  pose proof (held_le c EmptyString Hinv).
  assert (0 <= log_bytes (acid_view (cc_store c))); [|lia]. apply map_sum_nonneg, acid_inv_nonneg.
Qed.

Lemma old_held_eq c tid th : cc_threads c !! tid = Some th -> old_held c tid = held th.
Proof using. intros Hth. unfold old_held. by rewrite Hth. Qed.

(** A thread moves on without touching the storage. *)
Lemma conc_inv_move c tid th' :
  conc_inv c -> held th' = old_held c tid -> open_on (cc_store c) th' = None -> thread_ok (cc_store c) th' ->
  conc_inv (set_thread c tid (cc_store c) th').
Proof using L.
  intros Hinv Hh Ho Hok. pose proof (conc_inv_quiet c tid (ac_total_bytes (cc_store c))
    (ac_notifiers (cc_store c)) th' Hinv ltac:(lia) (ci_limit _ Hinv)) as H.
  replace (mkAcid _ _ _ _ _ _) with (cc_store c) in H by by destruct (cc_store c).
  apply H; [by rewrite Ho|done].
Qed.

Lemma idle_held c tid : idle (cc_threads c !! tid) = true -> old_held c tid = 0.
Proof using. unfold old_held. by destruct (cc_threads c !! tid) as [[]|]. Qed.

Lemma reserve_total_bytes_spec c bytes st r :
  conc_inv c -> 0 <= bytes -> reserve_total_bytes bytes (cc_store c) = (st, r) ->
  match r with
  | Ok _ => st = set_total (cc_store c) (ac_total_bytes (cc_store c) + bytes) /\
            ac_total_bytes (cc_store c) + bytes <= ac_max_total_bytes (cc_store c)
  | Err e => st = cc_store c /\ e = MemoryLimitExceeded
  end.
Proof using.
  intros Hinv Hb. pose proof (total_bounds c Hinv) as Htot. destruct (ai_max_total _ (ci_store _ Hinv)) as [_ Hmt].
  unfold reserve_total_bytes. rewrite reserve_counter_spec by (cbn in Hmt; lia).
  destruct (Z.leb_spec (ac_total_bytes (cc_store c) + bytes) (ac_max_total_bytes (cc_store c)));
    by intros [= <- <-].
Qed.

(** The transactions. *)
Lemma step_txn_inv c tid th io op bytes sh ans owed :
  conc_inv c -> cc_threads c !! tid = Some th -> at_txn th = Some (io, op, bytes) ->
  shard_free c (shard_index (cc_store c) (op_name op)) ->
  fits (acid_view (cc_store c)) (op_name op) (op_msgs op) ->
  call_txn io op bytes (ac_max_stream_bytes (cc_store c)) (shard (cc_store c) (op_name op)) = (sh, (ans, owed)) ->
  conc_inv (set_thread c tid (set_shard (cc_store c) (op_name op) sh) (Settling op owed ans)) /\
  explains (acid_view (cc_store c)) (Write op) ans (acid_view (set_shard (cc_store c) (op_name op) sh)).
Proof using L.
  intros Hinv Hth Hat Hfree Hfit Ht.
  assert (old_held c tid = bytes) as Hh.
  { rewrite (old_held_eq _ _ _ Hth). destruct th as [? [[]| |]| | | | |]; cbn in *; by simplify_eq. }
  pose proof (held_le c tid Hinv). pose proof (ci_total _ Hinv). pose proof (ci_limit _ Hinv).
  apply (conc_inv_commit c tid (Write op) _ bytes); [done|done|intros tid2 th2 _; apply Hfree|].
  apply (call_txn_landed (settled (cc_store c)) th io); [by apply Hinv|done| |done|cbn; lia|done].
  apply (thread_ok_frame (cc_store c)); [done|done|by eapply ci_threads].
Qed.

Lemma step_closure_inv c tid io clk n config msgs close t r :
  let op := OpCreateWithData clk n config msgs close in
  conc_inv c -> cc_threads c !! tid = Some (Calling io (Write op)) ->
  shard_free c (shard_index (cc_store c) n) -> fits (acid_view (cc_store c)) n msgs ->
  create_with_data_txn io clk (ac_max_total_bytes (cc_store c)) (ac_max_stream_bytes (cc_store c))
    n config msgs (acid_batch_bytes msgs) close
    (mkTxn (shard (cc_store c) n) (ac_total_bytes (cc_store c)) false 0) = (t, r) ->
  conc_inv (set_thread c tid (set_total (cc_store c) (tx_total t)) (Committing io op t r)) /\
  acid_view (set_total (cc_store c) (tx_total t)) = acid_view (cc_store c).
Proof using L.
  intros op Hinv Hth Hfree Hfit Ht. split; [|done]. pose proof (ci_threads _ Hinv _ _ Hth) as [Hp Hsz].
  destruct (fits_u64 _ _ _ Hfit) as (Hlt & _ & _). rewrite acid_batch_bytes_payload in Ht by done.
  pose proof (closure_closed _ _ _ _ _ _ _ _ _ (ci_store _ Hinv) (total_bounds c Hinv) Hfit Hsz Ht) as Hc.
  destruct (data_closed_counted _ _ _ _ _ _ _ _ _ _ _ _ _ Hc) as [Htot Hmax].
  apply conc_inv_quiet; [done| |done|by intros idx [= <-]|by split; [|eexists]].
  rewrite (old_held_eq _ _ _ Hth). cbn. lia.
Qed.

Lemma step_commit_inv c tid io op t r :
  conc_inv c -> cc_threads c !! tid = Some (Committing io op t r) ->
  let st' := set_shard (cc_store c) (op_name op) (tx_shard t) in
  conc_inv (set_thread c tid st' (Settling op (data_owed (acid_batch_bytes (op_msgs op)) t r) (AnsCreateData r))) /\
  explains (acid_view (cc_store c)) (Write op) (AnsCreateData r) (acid_view st').
Proof using L.
  intros Hinv Hth. pose proof (ci_threads _ Hinv _ _ Hth) as Hok. cbn in Hok.
  destruct op as [|clk n config msgs close| | | | | |]; try done. destruct Hok as (Hp & total & Hc).
  cbn [op_name op_msgs]. rewrite acid_batch_bytes_payload by (unfold ISIZE_MAX, two64 in *; lia).
  apply (conc_inv_commit c tid _ n (data_reserved (payload msgs) t)); [done|by rewrite (old_held_eq _ _ _ Hth)|..].
  - intros tid2 th2 Hne Hth2 Ho. by apply Hne, (ci_locks _ Hinv tid2 tid th2 _ _ Hth2 Hth Ho).
  - by eapply lands_landed; [apply (data_lands (settled (cc_store c)) io clk n config msgs close total);
      [apply Hinv|exact Hc]|..].
Qed.

Lemma acid_step_inv c l c' :
  conc_inv c -> acid_step c l c' ->
  conc_inv c' /\ effect_of l (acid_view (cc_store c)) (acid_view (cc_store c')).
Proof using L.
  intros Hinv Hs. pose proof (ci_store _ Hinv) as Hst. pose proof (ci_total _ Hinv) as Htot.
  pose proof (total_bounds c Hinv) as Hbd.
  destruct Hs as [tid io q Hid Hc|tid io clk n from Hth ans|tid io clk n Hth ans|tid io clk n ct seq op Hth ans
    |tid io op bytes st Hth Hr Hres|tid io op bytes st e Hth Hr Hres|tid th io op bytes sh ans owed Hth Hat Hfree Hfit Ht
    |tid io clk n config msgs close t r op Hth Hfree Hfit Ht|tid io op t r Hth|tid op owed ans Hth|tid q owed ans Hth];
    try (pose proof (ci_threads _ Hinv _ _ Hth) as Hok; pose proof (old_held_eq _ _ _ Hth) as Hheld; cbn in Hok, Hheld).
  - split; [|done]. apply conc_inv_move; try done. by rewrite idle_held.
  - split; [by apply conc_inv_move|].
    by apply (reads_explains io _ _ AnsRead _ _ (acid_read_reads io clk n (settled (cc_store c)) Hst from)).
  - split; [by apply conc_inv_move|].
    by apply (reads_explains io _ _ AnsHead _ _ (acid_head_reads io clk n (settled (cc_store c)) Hst)).
  - split; [by apply conc_inv_move|]. by left.
  - destruct (reserves_payload _ _ Hok Hr) as [_ Hb].
    destruct (reserve_total_bytes_spec _ _ _ _ Hinv Hb Hres) as [-> Hle]. split; [|done].
    by apply conc_inv_quiet; cbn; [|lia|..].
  - destruct (reserves_payload _ _ Hok Hr) as [_ Hb].
    destruct (reserve_total_bytes_spec _ _ _ _ Hinv Hb Hres) as [-> ->]. split; [by apply conc_inv_move|].
    right. split; [done|]. exists MemoryLimitExceeded. split; [|done]. by destruct op.
  - by eapply step_txn_inv.
  - by eapply step_closure_inv.
  - by eapply step_commit_inv.
  - pose proof (held_le c tid Hinv). assert (0 <= log_bytes (acid_view (cc_store c))) by apply map_sum_nonneg, acid_inv_nonneg.
    rewrite acid_sub_total_quiet by lia. split; [|done]. by apply conc_inv_quiet; cbn; [|lia|lia|..].
  - destruct (after_call_notifiers q owed ans (cc_store c)) as [ns ->]. split; [|done].
    apply conc_inv_quiet; cbn; try done; lia.
Qed.

(** ** Runs *)

Lemma conc_inv_init st : acid_inv st -> conc_inv (mkConf st ∅).
Proof using.
  intros Hinv. split; cbn; try done.
  - unfold settled. rewrite <- (ai_sum _ Hinv). by destruct st.
  - rewrite map_sum_empty, (ai_sum _ Hinv). lia.
  - apply Hinv.
Qed.

Lemma acid_steps_inv c tr c' : conc_inv c -> acid_steps c tr c' -> conc_inv c'.
Proof using L. intros Hinv Hs. induction Hs as [|c tr c1 l c2 _ IH Hl]; [done|]. by eapply acid_step_inv; [apply IH|]. Qed.

Lemma acid_steps_linear c tr c' :
  conc_inv c -> acid_steps c tr c' -> linear (acid_view (cc_store c)) tr (acid_view (cc_store c')).
Proof using L.
  intros Hinv Hs. induction Hs as [|c tr c1 l c2 Hs IH Hl]; [constructor|].
  destruct (acid_step_inv c1 l c2) as [_ Heff]; [by eapply acid_steps_inv|done|]. specialize (IH Hinv).
  destruct l as [[]|]; cbn in *; rewrite ?Heff, ?app_nil_r; [by econstructor..|done].
Qed.

(** The phase of every thread follows its labels. *)
Lemma acid_step_phase c l c' tid tr :
  acid_step c l c' -> follows Idle (labels_of tid tr) (phase_of (cc_threads c !! tid)) ->
  follows Idle (labels_of tid (tr ++ option_list l)) (phase_of (cc_threads c' !! tid)).
Proof using.
  intros Hs. unfold labels_of. rewrite filter_app.
  assert (forall tid0 st th (l : option Label), c' = set_thread c tid0 st th ->
    match l with Some l => label_tid l = tid0 | None => True end ->
    (follows Idle (filter (fun l => label_tid l = tid0) tr) (phase_of (cc_threads c !! tid0)) ->
     follows Idle (filter (fun l => label_tid l = tid0) tr ++ option_list l) (phase_of (Some th))) ->
    follows Idle (filter (fun l => label_tid l = tid) tr) (phase_of (cc_threads c !! tid)) ->
    follows Idle (filter (fun l => label_tid l = tid) tr ++ filter (fun l => label_tid l = tid) (option_list l))
      (phase_of (cc_threads c' !! tid))) as Hset.
  { intros tid0 st th l0 -> Hl Hph Hf. cbn. destruct (decide (tid0 = tid)) as [<-|Hne].
    - rewrite lookup_insert_eq. rewrite (filter_all _ (option_list l0)); [by apply Hph|].
      destruct l0; cbn; auto.
    - rewrite lookup_insert_ne by done. destruct l0 as [l0|]; cbn; [|by rewrite app_nil_r].
      rewrite decide_False by congruence. by rewrite app_nil_r. }
  assert (forall tid, idle (cc_threads c !! tid) = true -> phase_of (cc_threads c !! tid) = Idle) as Hidle.
  { intros t. by destruct (cc_threads c !! t) as [[]|]. }
  destruct Hs as [tid0 io q Hid Hc|? ? ? ? ? Hth ans|? ? ? ? Hth ans|? ? ? ? ? ? op Hth ans
    |? ? ? ? ? Hth Hr Hres|? ? ? ? ? ? Hth Hr Hres|? th ? ? ? ? ? ? Hth Hat _ _ _
    |? ? ? ? ? ? ? ? ? op Hth _ _ _|? ? ? ? ? Hth|? ? ? ? Hth|? ? ? ? Hth];
    (eapply Hset; [reflexivity|done|]); cbn [option_list phase_of]; rewrite ?app_nil_r; rewrite ?Hth;
    try done; try by econstructor.
  - rewrite Hidle by done. by constructor.
  - destruct th as [? [[]| |]| | | | |]; cbn in Hat; simplify_eq; by constructor.
Qed.

Lemma acid_steps_follow c tr c' tid :
  phase_of (cc_threads c !! tid) = Idle -> acid_steps c tr c' ->
  follows Idle (labels_of tid tr) (phase_of (cc_threads c' !! tid)).
Proof using.
  intros Hid Hs. induction Hs as [|c tr c1 l c2 _ IH Hl]; [rewrite Hid; constructor|].
  by eapply acid_step_phase, IH.
Qed.
End Interleaving.
