(* ===== verification/AcidAlone.v ===== *)
(** * AcidAlone: one call, and progress

    A call that is not interrupted does what the method does; while some call is not
    over, one can take a step, and there are only so many left. *)

From S2P Require Import Prelude Errors Offsets RustStd Headers StorageCore LogSpec StorageTrace Calls.
From S2P Require Import Config AcidStorage AcidTables AcidTxn AcidAppends AcidCreates AcidView AcidRefinement.
From S2P Require Import AcidLawful AcidConcurrent AcidInterleaving.

#[local] Arguments acid_sub_total : simpl never.
#[local] Arguments notify_stream : simpl never.
#[local] Arguments drop_notifier : simpl never.

Section Alone.
Context {A : AcidLib} {L : AcidLibLaws A}.

(** ** A call that is not interrupted *)

Lemma set_thread_twice c tid st1 th1 st2 th2 :
  set_thread (set_thread c tid st1 th1) tid st2 th2 = set_thread c tid st2 th2.
Proof using. unfold set_thread. cbn. by rewrite insert_insert_eq. Qed.

Lemma shard_free_set c tid st th idx :
  same_limits (cc_store c) st -> open_on st th <> Some idx -> shard_free c idx ->
  shard_free (set_thread c tid st th) idx.
Proof using.
  intros Hlim Ho Hfree tid2 th2. cbn. intros [[<- <-]|[_ Hth2]]%lookup_insert_Some; [done|].
  rewrite (open_on_limits _ _ _ Hlim). by eapply Hfree.
Qed.

Section Solo.
Context (c : Conf) (tid : string) (io : AcidIo).
Hypothesis Hidle : idle (cc_threads c !! tid) = true.

(** The configurations of the call. *)
Definition solo (st : AcidStorage) (th : AThread) : Conf := set_thread c tid st th.

Lemma solo_step tr l st th st' th' :
  acid_steps c tr (solo st th) ->
  (cc_threads (solo st th) !! tid = Some th -> acid_step (solo st th) l (set_thread (solo st th) tid st' th')) ->
  acid_steps c (tr ++ option_list l) (solo st' th').
Proof using.
  intros Hs Hl. eapply steps_snoc; [done|].
  replace (solo st' th') with (set_thread (solo st th) tid st' th') by apply set_thread_twice.
  apply Hl, lookup_insert_eq.
Qed.

Lemma solo_call q : callable q -> acid_steps c [Invoke tid q] (solo (cc_store c) (Calling io q)).
Proof using Hidle.
  intros Hc. apply (steps_snoc c [] c (Some (Invoke tid q))); [constructor|by constructor].
Qed.

Lemma solo_return tr st q owed ans :
  acid_steps c tr (solo st (Notifying q owed ans)) ->
  acid_steps c (tr ++ [Respond tid q ans]) (solo (after_call q owed ans st) (Returned q ans)).
Proof using.
  intros Hs. apply (solo_step _ (Some _) _ _ _ _ Hs). apply (step_notify (solo st _)).
Qed.

Lemma solo_settle tr st op owed ans :
  acid_steps c tr (solo st (Settling op owed ans)) ->
  acid_steps c (tr ++ [Respond tid (Write op) ans])
    (solo (after_call (Write op) owed ans (acid_sub_total owed st)) (Returned (Write op) ans)).
Proof using.
  intros Hs. apply solo_return. rewrite <- (app_nil_r tr). apply (solo_step _ None _ _ _ _ Hs).
  apply (step_settle (solo st _)).
Qed.

(** A call that answers at once. *)
Lemma solo_answer q ans :
  callable q ->
  (cc_threads (solo (cc_store c) (Calling io q)) !! tid = Some (Calling io q) ->
   acid_step (solo (cc_store c) (Calling io q)) (Some (Effect tid q ans))
     (set_thread (solo (cc_store c) (Calling io q)) tid (cc_store c) (Notifying q 0 ans))) ->
  acid_steps c [Invoke tid q; Effect tid q ans; Respond tid q ans]
    (solo (after_call q 0 ans (cc_store c)) (Returned q ans)).
Proof using Hidle.
  intros Hc Hl. apply (solo_return [Invoke tid q; Effect tid q ans]).
  by apply (solo_step [Invoke tid q] (Some _) _ _ _ _ (solo_call q Hc)).
Qed.

(** From a thread at its transaction to the end. *)
Lemma solo_txn tr st th op bytes sh ans owed :
  acid_steps c tr (solo st th) -> at_txn th = Some (io, op, bytes) ->
  same_limits (cc_store c) st -> acid_view st = acid_view (cc_store c) ->
  shard_free c (shard_index (cc_store c) (op_name op)) ->
  fits (acid_view (cc_store c)) (op_name op) (op_msgs op) ->
  call_txn io op bytes (ac_max_stream_bytes st) (shard st (op_name op)) = (sh, (ans, owed)) ->
  acid_steps c (tr ++ [Effect tid (Write op) ans; Respond tid (Write op) ans])
    (solo (after_call (Write op) owed ans (acid_sub_total owed (set_shard st (op_name op) sh)))
       (Returned (Write op) ans)).
Proof using.
  intros Hs Hat Hlim Hv Hfree Hfit Ht. change [?x; ?y] with ([x] ++ [y]). rewrite app_assoc.
  apply solo_settle. apply (solo_step tr (Some _) _ _ _ _ Hs). intros Hth.
  apply (step_txn (solo st th) _ th io op bytes); try done.
  - apply shard_free_set; [done| |].
    + by destruct th.
    + destruct Hlim as (H1 & _). unfold shard_index in *. by cbn; rewrite H1.
  - cbn. by rewrite Hv.
Qed.
End Solo.

(** The methods, from their steps. *)
Lemma acid_sub_total_0 st : acid_sub_total 0 st = st.
Proof using. done. Qed.

Section SoloRun.
Context (c : Conf) (tid : string) (io : AcidIo).
Hypothesis Hidle : idle (cc_threads c !! tid) = true.
Hypothesis Hinv : conc_inv c.

(** The run of an append. *)
Lemma solo_append {R} op bytes (undo ring : Result Error R -> bool) txn (f : Result Error R -> Answer) :
  callable (Write op) -> reserves op = Some bytes ->
  shard_free c (shard_index (cc_store c) (op_name op)) ->
  fits (acid_view (cc_store c)) (op_name op) (op_msgs op) ->
  (forall ms sh, call_txn io op bytes ms sh = charge f undo bytes (txn ms sh)) ->
  (forall e, refuse op e = f (Err e)) ->
  (forall owed st r, after_call (Write op) owed (f r) st = if ring r then notify_stream (op_name op) st else st) ->
  (forall e, ring (Err e) = false) ->
  let out := with_answer f (with_reservation (op_name op) bytes undo ring txn (cc_store c)) in
  acid_steps c [Invoke tid (Write op); Effect tid (Write op) out.2; Respond tid (Write op) out.2]
    (set_thread c tid out.1 (Returned (Write op) out.2)).
Proof using Hidle Hinv.
  intros Hc Hr Hfree Hfit Htxn Hrefuse Hafter Hring out.
  destruct (reserves_payload _ _ Hc Hr) as [_ Hb]. unfold out, with_reservation.
  destruct (reserve_total_bytes bytes (cc_store c)) as [st r] eqn:Hres.
  pose proof (reserve_total_bytes_spec _ _ _ _ Hinv Hb Hres) as Hspec. destruct r as [[]|e].
  - destruct Hspec as [Hst _]. destruct (on_shard _ _ st) as [st2 r] eqn:Hon.
    unfold on_shard in Hon. destruct (txn _ _) as [sh r'] eqn:Hrun. simplify_eq.
    assert (acid_steps c [Invoke tid (Write op)]
      (solo c tid (set_total (cc_store c) (ac_total_bytes (cc_store c) + bytes)) (Reserved io op bytes))) as Hs.
    { apply (solo_step c tid [Invoke tid (Write op)] None _ _ _ _ (solo_call c tid io Hidle _ Hc)).
      intros Hth. by apply (step_reserve (solo c tid _ _) _ _ _ _ _ Hth). }
    eapply (solo_txn c tid io) in Hs; [|done..|by rewrite Htxn, Hrun].
    cbn [app charge with_answer fst snd] in *. rewrite Hafter in Hs.
    replace (if undo r then acid_sub_total bytes _ else _) with
      (acid_sub_total (if undo r then bytes else 0)
         (set_shard (set_total (cc_store c) (ac_total_bytes (cc_store c) + bytes)) (op_name op) sh))
      by by destruct (undo r). exact Hs.
  - destruct Hspec as [-> ->]. cbn [with_answer fst snd]. rewrite <- Hrefuse.
    assert (after_call (Write op) 0 (refuse op MemoryLimitExceeded) (cc_store c) = cc_store c) as Haf
      by by rewrite Hrefuse, Hafter, Hring.
    pose proof (solo_answer c tid io Hidle (Write op) (refuse op MemoryLimitExceeded) Hc) as Hs.
    rewrite Haf in Hs. apply Hs. intros Hth. by eapply (step_refuse (solo c tid _ _)).
Qed.

(** The run of a call that is one transaction. *)
Lemma solo_plain op sh ans owed st' :
  at_txn (Calling io (Write op)) = Some (io, op, 0) -> callable (Write op) ->
  shard_free c (shard_index (cc_store c) (op_name op)) ->
  fits (acid_view (cc_store c)) (op_name op) (op_msgs op) ->
  call_txn io op 0 (ac_max_stream_bytes (cc_store c)) (shard (cc_store c) (op_name op)) = (sh, (ans, owed)) ->
  after_call (Write op) owed ans (acid_sub_total owed (set_shard (cc_store c) (op_name op) sh)) = st' ->
  acid_steps c [Invoke tid (Write op); Effect tid (Write op) ans; Respond tid (Write op) ans]
    (set_thread c tid st' (Returned (Write op) ans)).
Proof using Hidle.
  intros Hat Hc Hfree Hfit Ht <-.
  by apply (solo_txn c tid io [Invoke tid (Write op)] _ _ _ _ _ _ _ (solo_call c tid io Hidle _ Hc) Hat).
Qed.

Lemma release_expired_settled name removed st :
  0 <= removed ->
  release_expired name removed st =
  if 0 <? removed then drop_notifier name (acid_sub_total removed st) else acid_sub_total removed st.
Proof using.
  intros Hr. unfold release_expired. destruct (Z.ltb_spec 0 removed); [done|].
  by assert (removed = 0) as -> by lia.
Qed.

(** The run of a create with data. *)
Lemma solo_create_with_data clk n config msgs close :
  let op := OpCreateWithData clk n config msgs close in
  callable (Write op) -> shard_free c (shard_index (cc_store c) n) -> fits (acid_view (cc_store c)) n msgs ->
  let out := answer_op io op (cc_store c) in
  acid_steps c [Invoke tid (Write op); Effect tid (Write op) out.2; Respond tid (Write op) out.2]
    (set_thread c tid out.1 (Returned (Write op) out.2)).
Proof using Hidle Hinv L.
  intros op Hc Hfree Hfit out. subst out. unfold answer_op, op, acid_create_stream_with_data.
  destruct (create_with_data_txn _ _ _ _ _ _ _ _ _ _) as [t r] eqn:Ht.
  assert (acid_steps c [Invoke tid (Write op)]
    (solo c tid (set_total (cc_store c) (tx_total t)) (Committing io op t r))) as Hs.
  { apply (solo_step c tid [Invoke tid (Write op)] None _ _ _ _ (solo_call c tid io Hidle _ Hc)).
    intros Hth. apply (step_closure (solo c tid _ _)); [done|by apply shard_free_set|done|done]. }
  assert (0 <= data_owed (acid_batch_bytes msgs) t r) as Ho.
  { destruct (step_commit_inv _ tid io op t r (acid_steps_inv _ _ _ Hinv Hs)) as [Hci _]; [by apply lookup_insert_eq|].
    specialize (ci_threads _ Hci tid _ (lookup_insert_eq _ _ _)). done. }
  eapply (solo_step c tid _ (Some _)) in Hs; [|apply step_commit]. apply solo_settle in Hs.
  cbn [op op_name op_msgs app option_list] in Hs. destruct r as [result|e]; cbn [with_answer fst snd].
  - rewrite release_expired_settled by done. exact Hs.
  - replace (if tx_reserved t then _ else _) with (acid_sub_total (data_reserved (acid_batch_bytes msgs) t)
      (set_shard (set_total (cc_store c) (tx_total t)) n (tx_shard t)))
      by (unfold data_reserved; by destruct (tx_reserved t)). exact Hs.
Qed.

Lemma solo_op op :
  callable (Write op) -> shard_free c (shard_index (cc_store c) (op_name op)) ->
  fits (acid_view (cc_store c)) (op_name op) (op_msgs op) ->
  let out := answer_op io op (cc_store c) in
  acid_steps c [Invoke tid (Write op); Effect tid (Write op) out.2; Respond tid (Write op) out.2]
    (set_thread c tid out.1 (Returned (Write op) out.2)).
Proof using Hidle Hinv L.
  intros Hc Hfree Hfit. destruct op as [clk n config|clk n config msgs close|clk n data ct|clk n msgs ct seq
    |clk n msgs ct p close seq|clk n|n|]; cbn [op_name op_msgs] in *; [..|done].
  - cbn [answer_op]. unfold acid_create_stream, on_shard.
    destruct (create_txn io clk n config (shard (cc_store c) n)) as [sh r] eqn:Ht.
    destruct (create_lands _ _ _ _ _ _ _ (ci_store _ Hinv) Ht) as [Ho _].
    destruct r as [[result removed]|e]; (eapply (solo_plain _ sh); [done..|cbn; by rewrite Ht|]); [|done].
    cbn. by rewrite release_expired_settled.
  - by apply solo_create_with_data.
  - apply (solo_append (OpAppend clk n data ct) _ failed is_ok
      (fun ms => append_txn io clk ms n data ct) AnsAppend); try done. by intros ? ? [].
  - destruct msgs as [|m msgs].
    2:{ apply (solo_append (OpBatchAppend clk n (m :: msgs) ct seq) _ failed is_ok
          (fun ms => batch_txn io clk ms n (m :: msgs) (acid_batch_bytes (m :: msgs)) ct seq) AnsAppend); try done.
        by intros ? ? []. }
    apply (solo_answer c tid io Hidle _ (AnsAppend (Err (InvalidHeader "Content-Length" "batch cannot be empty"))) Hc).
    intros Hth. by apply (step_empty (solo c tid _ _) _ _ _ _ _ _ Hth).
  - apply (solo_append (OpProducer clk n msgs ct p close seq) _ not_accepted
      (fun r => is_ok r && (negb (bool_decide (msgs = [])) || close))
      (fun ms => producer_txn io clk ms n msgs (acid_batch_bytes msgs) ct p close seq) AnsProducer); try done.
    by intros ? ? [[]|].
  - cbn [answer_op]. unfold acid_close_stream, on_shard.
    destruct (close_txn io clk n (shard (cc_store c) n)) as [sh r] eqn:Ht.
    by destruct r as [[]|e]; (eapply (solo_plain _ sh); [done..|cbn; by rewrite Ht|]).
  - cbn [answer_op]. unfold acid_delete, on_shard.
    destruct (delete_txn io n (shard (cc_store c) n)) as [sh r] eqn:Ht.
    by destruct r as [removed|e]; (eapply (solo_plain _ sh); [done..|cbn; by rewrite Ht|]).
Qed.

Lemma solo_request q :
  callable q ->
  match q with
  | Write op => shard_free c (shard_index (cc_store c) (op_name op)) /\
                fits (acid_view (cc_store c)) (op_name op) (op_msgs op)
  | _ => True
  end ->
  let out := answer_request io q (cc_store c) in
  acid_steps c [Invoke tid q; Effect tid q out.2; Respond tid q out.2]
    (set_thread c tid out.1 (Returned q out.2)).
Proof using Hidle Hinv L.
  intros Hc Hq. destruct q as [op|clk n from|clk n].
  - destruct Hq as [Hfree Hfit]. by apply solo_op.
  - apply (solo_answer c tid io Hidle _ (AnsRead _) Hc). intros Hth. by apply (step_read (solo c tid _ _) _ _ _ _ _ Hth).
  - apply (solo_answer c tid io Hidle _ (AnsHead _) Hc). intros Hth. by apply (step_head (solo c tid _ _) _ _ _ _ Hth).
Qed.
End SoloRun.

(** ** Progress *)

(** The steps a call still takes, at most. *)
Definition steps_left (th : AThread) : Z :=
  match th with
  | Calling _ _ => 4
  | Reserved _ _ _ | Committing _ _ _ _ => 3
  | Settling _ _ _ => 2
  | Notifying _ _ _ => 1
  | Returned _ _ => 0
  end.

(** The call a thread has yet to carry out. *)
Definition pending (th : AThread) : option StorageOp :=
  match th with Calling _ (Write op) | Reserved _ op _ => Some op | _ => None end.

Definition is_invoke (l : option Label) : bool := match l with Some (Invoke _ _) => true | _ => false end.

Lemma acid_step_decreases c l c' :
  acid_step c l c' -> is_invoke l = false ->
  map_sum steps_left (cc_threads c') < map_sum steps_left (cc_threads c).
Proof using.
  intros Hs Hl. destruct Hs as [? ? ? _ _|? ? ? ? ? Hth ans|? ? ? ? Hth ans|? ? ? ? ? ? op Hth ans
    |? ? ? ? ? Hth Hr Hres|? ? ? ? ? ? Hth Hr Hres|? th ? ? ? ? ? ? Hth Hat _ _ _
    |? ? ? ? ? ? ? ? ? op Hth _ _ _|? ? ? ? ? Hth|? ? ? ? Hth|? ? ? ? Hth]; [done|..];
    cbn [set_thread cc_threads]; rewrite (map_sum_update _ _ _ _ _ Hth); cbn; try lia.
  destruct th; cbn in *; try done; lia.
Qed.

Lemma acid_step_possible c tid th :
  conc_inv c -> cc_threads c !! tid = Some th -> idle (Some th) = false ->
  (forall tid th op, cc_threads c !! tid = Some th -> pending th = Some op ->
     fits (acid_view (cc_store c)) (op_name op) (op_msgs op)) ->
  exists l c', acid_step c l c' /\ is_invoke l = false.
Proof using L.
  intros Hinv Hth Hid Hfit.
  destruct (decide (map_Exists (fun _ th => open_on (cc_store c) th <> None) (cc_threads c)))
    as [(tid' & th' & Hth' & Ho)|Hnone].
  { destruct th' as [| |io op t r| | |]; try done. do 2 eexists. split; [by eapply step_commit|done]. }
  assert (forall idx, shard_free c idx) as Hfree.
  { intros idx t th' Hth' Ho. apply Hnone. exists t, th'. split; [done|]. by rewrite Ho. }
  assert (forall io op bytes, at_txn th = Some (io, op, bytes) -> pending th = Some op ->
    exists l c', acid_step c l c' /\ is_invoke l = false) as Htxn.
  { intros io op bytes Hat Hp. destruct (call_txn io op bytes (ac_max_stream_bytes (cc_store c))
      (shard (cc_store c) (op_name op))) as [sh [ans owed]] eqn:Ht.
    do 2 eexists. split; [by eapply step_txn; [|done|apply Hfree|by eapply Hfit|]|done]. }
  destruct th as [io [op|clk n from|clk n]|io op bytes|io op t r|op owed ans|q owed ans|q ans]; try done.
  - pose proof (ci_threads _ Hinv _ _ Hth) as Hc. pose proof (Hfit _ _ op Hth eq_refl) as Hf.
    destruct (reserves op) as [bytes|] eqn:Hr.
    + destruct (reserve_total_bytes bytes (cc_store c)) as [st [[]|e]] eqn:Hres;
        do 2 eexists; (split; [by econstructor|done]).
    + destruct op as [| clk n config msgs close | |clk n [|m msgs] ct seq | | | |]; try done; try by eapply Htxn.
      * destruct (create_with_data_txn io clk (ac_max_total_bytes (cc_store c)) (ac_max_stream_bytes (cc_store c))
          n config msgs (acid_batch_bytes msgs) close
          (mkTxn (shard (cc_store c) n) (ac_total_bytes (cc_store c)) false 0)) as [t r] eqn:Ht.
        do 2 eexists. split; [by eapply step_closure|done].
      * do 2 eexists. split; [by eapply step_empty|done].
  - do 2 eexists. split; [by eapply step_read|done].
  - do 2 eexists. split; [by eapply step_head|done].
  - by eapply Htxn.
  - do 2 eexists. split; [by eapply step_commit|done].
  - do 2 eexists. split; [by eapply step_settle|done].
  - do 2 eexists. split; [by eapply step_notify|done].
Qed.
End Alone.
