(* ===== verification/AcidConcurrentProps.v ===== *)
(** * AcidConcurrentProps: theorems on concurrent calls of the ACID backend

    Linearizability, the global byte limit under any interleaving, absence of deadlock,
    and that the steps of a call are its method. *)

From S2P Require Import Prelude Errors Offsets RustStd Headers StorageCore LogSpec StorageTrace Calls.
From S2P Require Import Config FileDemo AcidStorage AcidTables AcidTxn AcidAppends AcidCreates AcidView AcidRefinement.
From S2P Require Import AcidLawful AcidProps AcidRuns AcidConcurrent AcidInterleaving AcidAlone.

Section Theorems.
Context {A : AcidLib} {L : AcidLibLaws A}.

(** C4: the ACID backend is linearizable. In every run of any number of concurrent callers,
    whatever calls into [redb] fail, the effects in their order are calls on the abstract
    log made one after the other, each answered as the log answers or refused for lack of
    resources without effect, and they lead from the logs at the start to the present
    logs; and each caller sees its calls take effect exactly once, between the call and
    its return, with the answer it is given. *)
Theorem acid_linearizable st tr c :
  acid_inv st -> acid_steps (mkConf st ∅) tr c ->
  linear (acid_view st) tr (acid_view (cc_store c)) /\
  forall tid, follows Idle (labels_of tid tr) (phase_of (cc_threads c !! tid)).
Proof using L.
  intros Hinv Hs. split.
  - by apply (acid_steps_linear (mkConf st ∅)); [apply conc_inv_init|].
  - intros tid. by apply (acid_steps_follow (mkConf st ∅)).
Qed.

(** C5: the global byte limit holds under any interleaving. At every moment of a run the
    counter is at least what the streams hold and at most [max_total_bytes], so the
    streams together never exceed the limit; the difference is what the callers under way
    have reserved or still owe; and whenever no call is under way, the counter is exact
    and the storage as a whole satisfies the invariant the sequential theorems start
    from. *)
Theorem acid_cap_concurrent st tr c :
  acid_inv st -> acid_steps (mkConf st ∅) tr c ->
  log_bytes (acid_view (cc_store c)) <= ac_total_bytes (cc_store c) <= ac_max_total_bytes (cc_store c) /\
  ac_total_bytes (cc_store c) = log_bytes (acid_view (cc_store c)) + map_sum held (cc_threads c) /\
  ((forall tid, idle (cc_threads c !! tid) = true) -> acid_inv (cc_store c)).
Proof using L.
  intros Hi Hs. assert (conc_inv c) as Hinv by (eapply acid_steps_inv; [by apply conc_inv_init|done]).
  pose proof (ci_total _ Hinv) as Htot. pose proof (held_le c EmptyString Hinv) as Hh. split_and!; [lia|apply Hinv|done|].
  intros Hidle. assert (map_sum held (cc_threads c) = 0) as H0.
  { apply map_sum_zero. intros tid th Hth. specialize (Hidle tid). rewrite Hth in Hidle. by destruct th. }
  pose proof (ci_store _ Hinv) as Hst. unfold settled in Hst.
  replace (log_bytes (acid_view (cc_store c))) with (ac_total_bytes (cc_store c)) in Hst by lia.
  by destruct (cc_store c).
Qed.

(** C6: concurrent calls never deadlock. While some call is under way, and the pending
    batches can be counted, some call can take its next step; and every step but the
    start of a new call uses up one of finitely many steps, at most four for each call
    under way, so once no new calls arrive all calls return. *)
Theorem acid_calls_finish st tr c tid th :
  acid_inv st -> acid_steps (mkConf st ∅) tr c ->
  cc_threads c !! tid = Some th -> idle (Some th) = false ->
  (forall tid th op, cc_threads c !! tid = Some th -> pending th = Some op ->
     fits (acid_view (cc_store c)) (op_name op) (op_msgs op)) ->
  (exists l c', acid_step c l c' /\ is_invoke l = false) /\
  (forall l c', acid_step c l c' -> is_invoke l = false ->
     0 <= map_sum steps_left (cc_threads c') < map_sum steps_left (cc_threads c)).
Proof using L.
  intros Hi Hs Hth Hid Hfit. split.
  - eapply acid_step_possible; [|done..]. by eapply acid_steps_inv; [apply conc_inv_init|].
  - intros l c' Hl Hn. split; [|by eapply acid_step_decreases].
    apply map_sum_nonneg. intros t th' _. by destruct th'.
Qed.

(** C7: the steps of a call are its method. A caller whose call is not interrupted, on a
    storage other callers are using, gets from the configuration of the call to its
    return exactly the storage and the answer that the method computes as one function:
    the atomic steps the interleavings are made of are those of the methods. *)
Theorem acid_call_alone st tr c tid io q :
  acid_inv st -> acid_steps (mkConf st ∅) tr c ->
  idle (cc_threads c !! tid) = true -> callable q ->
  match q with
  | Write op => shard_free c (shard_index (cc_store c) (op_name op)) /\
                fits (acid_view (cc_store c)) (op_name op) (op_msgs op)
  | _ => True
  end ->
  let out := answer_request io q (cc_store c) in
  acid_steps c [Invoke tid q; Effect tid q out.2; Respond tid q out.2]
    (set_thread c tid out.1 (Returned q out.2)).
Proof using L.
  intros Hi Hs Hid Hc Hq. apply solo_request; try done.
  by eapply acid_steps_inv; [apply conc_inv_init|].
Qed.
End Theorems.

(** ** Two appends *)

(** Two callers append to a stream that has two messages; both reserve their byte, the
    second commits first. *)
Definition demo_store : AcidStorage := ar_store acid_demo_run.
Definition append_of (data : bytes) : StorageOp := OpAppend demo_clock "s" data "text/plain".

(** The storage after the transaction of an append, its answer, and the bytes owed. *)
Definition txn_of (op : StorageOp) (st : AcidStorage) : AcidStorage * (Answer * Z) :=
  let out := call_txn acid_ok op 1 (ac_max_stream_bytes st) (shard st (op_name op)) in
  (set_shard st (op_name op) out.1, out.2).
Definition reserve_of (st : AcidStorage) : AcidStorage := set_total st (ac_total_bytes st + 1).


Definition calling (data : bytes) : AThread := Calling acid_ok (Write (append_of data)).
Definition reserved (data : bytes) : AThread := Reserved acid_ok (append_of data) 1.
Definition settling (data : bytes) (st : AcidStorage) : AThread :=
  Settling (append_of data) (txn_of (append_of data) st).2.2 (txn_of (append_of data) st).2.1.

Definition both_called : Conf := mkConf demo_store (<["b" := calling [x64]]> (<["a" := calling [x63]]> ∅)).
Definition both_reserved : Conf :=
  set_thread (set_thread both_called "a" (reserve_of demo_store) (reserved [x63])) "b"
    (reserve_of (reserve_of demo_store)) (reserved [x64]).
Definition second_done : Conf :=
  set_thread both_reserved "b" (txn_of (append_of [x64]) (cc_store both_reserved)).1
    (settling [x64] (cc_store both_reserved)).
Definition second_first : Conf :=
  set_thread second_done "a" (txn_of (append_of [x63]) (cc_store second_done)).1
    (settling [x63] (cc_store second_done)).

Definition effect_of_append (tid : string) (data : bytes) (st : AcidStorage) : Label :=
  Effect tid (Write (append_of data)) (txn_of (append_of data) st).2.1.

(** Threads of the runs shown hold no shard. *)
Ltac no_open_shard :=
  let H := fresh in
  intros ? ? H; cbn in H;
  repeat (apply lookup_insert_Some in H as [[<- <-]|[_ H]]; [done|]); by rewrite lookup_empty in H.
Ltac thread_is := cbn; repeat (rewrite lookup_insert_ne by done); apply lookup_insert_eq.

Section Demo.
Context (c0 : Conf) (tr : list Label) (c : Conf) (tid : string) (b : byte).
Hypothesis Hrun : acid_steps c0 tr c.

Lemma run_call :
  idle (cc_threads c !! tid) = true ->
  acid_steps c0 (tr ++ [Invoke tid (Write (append_of [b]))]) (set_thread c tid (cc_store c) (calling [b])).
Proof using Hrun.
  intros Hid. apply (steps_snoc _ _ _ (Some _) _ Hrun). constructor; [done|]. by split; [vm_compute|].
Qed.

Lemma run_reserve :
  cc_threads c !! tid = Some (calling [b]) ->
  reserve_counter (ac_max_total_bytes (cc_store c)) 1 (ac_total_bytes (cc_store c)) =
    Ok (ac_total_bytes (cc_store c) + 1) ->
  acid_steps c0 tr (set_thread c tid (reserve_of (cc_store c)) (reserved [b])).
Proof using Hrun.
  intros Hth Hr. rewrite <- (app_nil_r tr). apply (steps_snoc _ _ _ None _ Hrun).
  apply (step_reserve c tid acid_ok (append_of [b]) 1); [done|done|]. unfold reserve_total_bytes. by rewrite Hr.
Qed.

Lemma run_txn :
  cc_threads c !! tid = Some (reserved [b]) -> shard_free c (shard_index (cc_store c) "s") ->
  fits (acid_view (cc_store c)) "s" [[b]] ->
  acid_steps c0 (tr ++ [effect_of_append tid [b] (cc_store c)])
    (set_thread c tid (txn_of (append_of [b]) (cc_store c)).1 (settling [b] (cc_store c))).
Proof using Hrun.
  intros Hth Hfree Hfit. apply (steps_snoc _ _ _ (Some _) _ Hrun). unfold effect_of_append, settling, txn_of.
  destruct (call_txn _ _ _ _ _) as [sh [ans owed]] eqn:Ht.
  by apply (step_txn c tid (reserved [b]) acid_ok (append_of [b]) 1).
Qed.
End Demo.

Definition both_calls : list Label :=
  [Invoke "a" (Write (append_of [x63])); Invoke "b" (Write (append_of [x64]))].

Lemma both_called_run : acid_steps (mkConf demo_store ∅) both_calls both_called.
Proof.
  apply (run_call _ [Invoke "a" (Write (append_of [x63]))]
    (set_thread (mkConf demo_store ∅) "a" demo_store (calling [x63]))); [|vm_compute; reflexivity].
  apply (run_call _ [] (mkConf demo_store ∅)); [constructor|done].
Qed.

Lemma both_reserved_run : acid_steps (mkConf demo_store ∅) both_calls both_reserved.
Proof.
  apply (run_reserve _ _ (set_thread both_called "a" (reserve_of demo_store) (reserved [x63])));
    [|thread_is|vm_compute; reflexivity].
  apply (run_reserve _ _ both_called); [apply both_called_run|thread_is|vm_compute; reflexivity].
Qed.

Definition both_effects : list Label :=
  [effect_of_append "b" [x64] (cc_store both_reserved)] ++ [effect_of_append "a" [x63] (cc_store second_done)].

Lemma second_done_run :
  acid_steps (mkConf demo_store ∅) (both_calls ++ [effect_of_append "b" [x64] (cc_store both_reserved)]) second_done.
Proof.
  refine (run_txn _ _ both_reserved "b" x64 both_reserved_run _ _ _); [thread_is|no_open_shard|fits_run].
Qed.

Lemma second_first_run : acid_steps (mkConf demo_store ∅) (both_calls ++ both_effects) second_first.
Proof.
  unfold both_effects. rewrite app_assoc.
  refine (run_txn _ _ second_done "a" x63 second_done_run _ _ _); [thread_is|no_open_shard|fits_run].
Qed.

Lemma acid_linearizable_witness :
  messages_of (cc_store second_first) "s" = Some [[x61]; [x62]; [x64]; [x63]] /\
  linear (acid_view demo_store) (both_calls ++ both_effects) (acid_view (cc_store second_first)).
Proof.
  split; [vm_compute; reflexivity|]. apply (acid_linearizable demo_store _ _ acid_demo_inv second_first_run).
Defined.

Lemma acid_cap_concurrent_witness :
  ac_total_bytes (cc_store both_reserved) = 4 /\ log_bytes (acid_view (cc_store both_reserved)) = 2 /\
  map_sum held (cc_threads both_reserved) = 2 /\
  ac_total_bytes (cc_store both_reserved) <= ac_max_total_bytes (cc_store both_reserved).
Proof.
  destruct (acid_cap_concurrent demo_store _ _ acid_demo_inv both_reserved_run) as ([_ Hle] & _).
  split_and!; [vm_compute; reflexivity..|exact Hle].
Defined.

Lemma acid_calls_finish_witness :
  map_sum steps_left (cc_threads both_reserved) = 6 /\
  exists l c', acid_step both_reserved l c' /\ is_invoke l = false.
Proof.
  split; [vm_compute; reflexivity|].
  apply (acid_calls_finish demo_store both_calls both_reserved "b" (reserved [x64]) acid_demo_inv
    both_reserved_run); [thread_is|done|].
  intros tid th op Hth Hp. cbn in Hth.
  repeat (apply lookup_insert_Some in Hth as [[<- <-]|[_ Hth]]; [injection Hp as <-; fits_run|]).
  by rewrite lookup_empty in Hth.
Defined.

Lemma acid_call_alone_witness :
  let out := answer_request acid_ok (Write (OpClose demo_clock "s")) (cc_store both_reserved) in
  out.2 = AnsUnit (Ok tt) /\
  exists tr, acid_steps both_reserved tr
    (set_thread both_reserved "c" out.1 (Returned (Write (OpClose demo_clock "s")) out.2)).
Proof.
  intros out. split; [vm_compute; reflexivity|]. eexists.
  apply (acid_call_alone demo_store both_calls both_reserved "c" acid_ok (Write (OpClose demo_clock "s"))
    acid_demo_inv both_reserved_run); [vm_compute; reflexivity|by split; [vm_compute|]|].
  split; [no_open_shard|fits_run].
Defined.
