(* ===== verification/Server.v ===== *)
(** * Server: src/router.rs and src/main.rs

    The route table of the protocol with its layers, the command line, and the steps
    of [main] and [run] up to serving requests. Matching a path against the route
    table is axum's; here a request has already reached its route. *)

From S2P Require Import Prelude Errors Offsets RustStd Headers Cursor StorageCore JsonMode Sse.
From S2P Require Import Http WriteHandlers ReadHandlers Config.

(** ** router.rs *)

Inductive Method := GET | PUT | HEAD | POST | DELETE.

(** A request to [/v1/stream/{name}], with the readings of the clock while it is
    handled. *)
Record Request : Type := mkRequest {
  rq_method : Method;
  rq_name : string;
  rq_query : ReadQuery;
  rq_headers : HeaderMap;
  rq_body : Result string bytes;
  rq_now : Z;
  rq_clk : Clock;
  rq_clk2 : Clock;
  rq_clk3 : Clock
}.

Section Router.
Context {S : Type} `{!Storage.StorageOps S} `{!SerdeJson} `{!HttpLib}.

Definition answer (h : HM S Response) : HM S GetResult := do* r := h in h_ret (GetAnswer r).

(** The method router of [protocol_routes]. *)
Definition dispatch (r : Request) : HM S GetResult :=
  match rq_method r with
  | GET => read_stream (rq_clk r) (rq_clk2 r) (rq_clk3 r) (rq_name r) (rq_query r) (rq_headers r)
  | PUT => answer (put_create_stream (rq_now r) (rq_clk r) (rq_name r) (rq_headers r) (rq_body r))
  | HEAD => answer (stream_metadata (rq_now r) (rq_clk r) (rq_name r))
  | POST => answer (post_append_data (rq_clk r) (rq_clk2 r) (rq_clk3 r) (rq_name r) (rq_headers r)
                      (rq_body r))
  | DELETE => answer (delete_stream (rq_name r))
  end.

Definition secured (r : Response) : Response :=
  mkResponse (resp_status r) (add_security_headers (resp_headers r)) (resp_body r).

(** [protocol_routes]: the handler, its error as a response, and the security
    middleware; a request that has to wait has no response yet. *)
Definition protocol_routes (display : Error -> string) (r : Request) : HM S GetResult :=
  fun s =>
    let '(s', out) := dispatch r s in
    (s', match out with
         | Done (Ok (GetAnswer resp)) => Done (Ok (GetAnswer (secured resp)))
         | Done (Ok (GetEvents resp initial rx)) => Done (Ok (GetEvents (secured resp) initial rx))
         | Done (Ok (GetWait rx tail ct)) => Done (Ok (GetWait rx tail ct))
         | Done (Err e) => Done (Ok (GetAnswer (secured (error_response display e))))
         | Panicked => Panicked
         end).

(** The origins of [cors_layer]. *)
Inductive AllowOrigin := AnyOrigin | OriginList (origins : list string).

(** [cors_layer] *)
Definition cors_layer (origins : string) : AllowOrigin :=
  if bool_decide (origins = "*") then AnyOrigin
  else OriginList (filter (fun s => hv_from_str s = true) (map trim (split origins ","))).
End Router.

(** ** The command line *)

(** [CliArgs], and how [CliArgs::parse] ends: it exits with status 0 after printing
    the usage, returns the arguments, or an error. *)
Record CliArgs : Type := mkCliArgs { cli_profile : string; cli_config_override : option string }.
Inductive CliResult := CliHelp | CliOk (a : CliArgs) | CliErr (message : string).

(** [s.trim_start_matches(p)] for a non-empty [p]: all repetitions. *)
Fixpoint trim_start_loop (fuel : nat) (p bs : bytes) : bytes :=
  match fuel with
  | O => bs
  | S fuel => match strip_prefix p bs with Some rest => trim_start_loop fuel p rest | None => bs end
  end.
Definition trim_start_matches (p s : string) : string :=
  of_bytes (trim_start_loop (String.length s) (as_bytes p) (as_bytes s)).

(** The loop of [CliArgs::parse]. *)
Fixpoint parse_args (profile : string) (config_override : option string) (args : list string)
  : CliResult :=
  match args with
  | [] => CliOk (mkCliArgs profile config_override)
  | arg :: rest =>
      if bool_decide (arg = "--help") || bool_decide (arg = "-h") then CliHelp
      else if bool_decide (arg = "--profile") then
        match rest with
        | value :: rest => parse_args value config_override rest
        | [] => CliErr "missing value for --profile"
        end
      else if bool_decide (arg = "--config") then
        match rest with
        | value :: rest => parse_args profile (Some value) rest
        | [] => CliErr "missing value for --config"
        end
      else if starts_with arg "--profile=" then
        parse_args (trim_start_matches "--profile=" arg) config_override rest
      else if starts_with arg "--config=" then
        parse_args profile (Some (trim_start_matches "--config=" arg)) rest
      else CliErr ("unknown argument: " +:+ arg)
  end.

(** [CliArgs::parse] on the arguments after the program's name. *)
Definition cli_parse (args : list string) : CliResult := parse_args "default" None args.

(** ** Starting *)

(** The storage [run] constructs. *)
Inductive StorageChoice :=
  | UseMemory (max_total_bytes max_stream_bytes : Z)
  | UseFile (dir : string) (max_total_bytes max_stream_bytes : Z) (sync_on_append : bool)
  | UseAcid (dir : string) (shards max_total_bytes max_stream_bytes : Z).

(** How [main] goes on: it exits, or it serves on an address with a storage. *)
Inductive Start :=
  | Exit (status : Z)
  | Serving (c : Config) (addr : string) (storage : StorageChoice).

Section Main.
Context {C : ConfigLib} `{!HttpLib}.
(** [std::fs::metadata(path)]: does it fail, or else is it a regular file? *)
Context (stat : string -> option bool).

(** [ensure_regular_file] *)
Definition ensure_regular_file (path : string) : Result string unit :=
  match stat path with
  | None => Err ("failed to stat path " +:+ quote path)
  | Some false => Err ("path is not a regular file: " +:+ quote path)
  | Some true => Ok tt
  end.

(** [AppRuntime::validate] *)
Definition runtime_validate (c : Config) : Result string unit :=
  let? _ := validate c in
  match cf_tls_cert_path c, cf_tls_key_path c with
  | Some cert, Some key =>
      let? _ := ensure_regular_file cert in ensure_regular_file key
  | _, _ => Ok tt
  end.

(** [AppRuntime::new]: the address to bind. *)
Definition bind_addr (c : Config) : string := "0.0.0.0:" +:+ u64_to_string (cf_port c).

(** The [match] of [run] on the storage mode. *)
Definition choose_storage (c : Config) : StorageChoice :=
  match cf_storage_mode c with
  | Memory => UseMemory (cf_max_memory_bytes c) (cf_max_stream_bytes c)
  | FileFast | FileDurable =>
      UseFile (cf_data_dir c) (cf_max_memory_bytes c) (cf_max_stream_bytes c)
        (mode_sync_on_append (cf_storage_mode c))
  | Acid =>
      UseAcid (cf_data_dir c) (cf_acid_shard_count c) (cf_max_memory_bytes c)
        (cf_max_stream_bytes c)
  end.

(** [run] up to the construction of the storage. *)
Definition run (c : Config) : Start :=
  match runtime_validate c with
  | Err _ => Exit 1
  | Ok _ => Serving c (bind_addr c) (choose_storage c)
  end.

(** [main] *)
Definition main (args : list string) (get : string -> option string) : Start :=
  match cli_parse args with
  | CliHelp => Exit 0
  | CliErr _ => Exit 2
  | CliOk cli =>
      let load_options :=
        mkLoadOptions (lo_config_dir ConfigLoadOptions_default) (cli_profile cli)
          (cli_config_override cli) in
      match from_sources_with_lookup load_options get with
      | Err _ => Exit 1
      | Ok config => run config
      end
  end.
End Main.

(** ** Validated origins *)

Section Cors.
Context `{!HttpLib}.

Lemma validate_origins_ok any origins :
  validate_origins any origins = Ok tt ->
  Forall (fun o => o <> "" /\ hv_from_str o = true) origins /\ (any = true \/ origins <> []).
Proof.
  revert any. induction origins as [|o origins IH]; intros any Hv; cbn in Hv.
  - destruct any; [|done]. split; [constructor|by left].
  - case_bool_decide as Ho; [done|]. destruct (hv_from_str o) eqn:Hh; [|done]. cbn in Hv.
    destruct (IH true Hv) as [Hall _]. split; [by constructor|by right].
Qed.

(** The router allows exactly the origins the operator wrote. For a configuration
    that passes validation, [cors_layer] allows any origin if the setting is [*], and
    otherwise the entries of the comma-separated list, trimmed, all of them, in order
    and at least one; the parse errors it would skip silently cannot occur. *)
Theorem validated_cors_complete c :
  validate c = Ok tt ->
  match cors_layer (cf_cors_origins c) with
  | AnyOrigin => cf_cors_origins c = "*"
  | OriginList origins =>
      origins = map trim (split (cf_cors_origins c) ",") /\ origins <> [] /\
      Forall (fun o => o <> "" /\ hv_from_str o = true) origins
  end.
Proof.
  unfold validate, cors_layer, validate_cors_origins. intros Hv.
  destruct (cf_tls_cert_path c), (cf_tls_key_path c); cbn [result_bind] in Hv; try done;
    (case_bool_decide as Hs; [done|]; apply validate_origins_ok in Hv as [Hall [?|Hne]]; [done|];
     rewrite filter_all; [done|]; eapply Forall_impl; [exact Hall|]; by intros o []).
Qed.
End Cors.

(** ** Command lines *)

(** The options of a command line, in either spelling. *)
Inductive CliOption := ProfileIs (v : string) | ProfileEq (v : string)
  | ConfigIs (v : string) | ConfigEq (v : string).

Definition render_option (o : CliOption) : list string :=
  match o with
  | ProfileIs v => ["--profile"; v]
  | ProfileEq v => ["--profile=" +:+ v]
  | ConfigIs v => ["--config"; v]
  | ConfigEq v => ["--config=" +:+ v]
  end.

Definition profile_of (o : CliOption) : option string :=
  match o with ProfileIs v | ProfileEq v => Some v | _ => None end.
Definition override_of (o : CliOption) : option string :=
  match o with ConfigIs v | ConfigEq v => Some v | _ => None end.

(** A value that does not begin with the option itself. *)
Definition plain_value (o : CliOption) : Prop :=
  match o with
  | ProfileEq v => starts_with v "--profile=" = false
  | ConfigEq v => starts_with v "--config=" = false
  | _ => True
  end.

Lemma strip_prefix_app p bs : strip_prefix p (p ++ bs) = Some bs.
Proof. induction p as [|b p IH]; [done|]. cbn. by destruct (decide (b = b)). Qed.

Lemma as_bytes_app s t : as_bytes (s +:+ t) = as_bytes s ++ as_bytes t.
Proof.
  induction s as [|c s IH]; [done|]. change (String c s +:+ t) with (String c (s +:+ t)).
  unfold as_bytes, String.list_byte_of_string in *. cbn. by rewrite IH.
Qed.

Lemma starts_with_app p v : starts_with (p +:+ v) p = true.
Proof. unfold starts_with. by rewrite as_bytes_app, strip_prefix_app. Qed.

Lemma trim_start_app p v :
  p <> "" -> starts_with v p = false -> trim_start_matches p (p +:+ v) = v.
Proof.
  intros Hp Hv. unfold trim_start_matches. rewrite as_bytes_app.
  destruct (String.length (p +:+ v)) eqn:Hl; [by destruct p; [|discriminate Hl]|].
  cbn [trim_start_loop].
  rewrite strip_prefix_app. unfold starts_with in Hv. destruct n; cbn [trim_start_loop];
    [by rewrite of_as_bytes|]. destruct (strip_prefix _ _); [done|]. by rewrite of_as_bytes.
Qed.

Lemma parse_args_profile_eq p o v rest :
  starts_with v "--profile=" = false ->
  parse_args p o (("--profile=" +:+ v) :: rest) = parse_args v o rest.
Proof.
  intros Hv. cbn [parse_args]. rewrite !bool_decide_eq_false_2 by (intros H; discriminate H).
  cbn [orb]. by rewrite starts_with_app, trim_start_app.
Qed.

Lemma parse_args_config_eq p o v rest :
  starts_with v "--config=" = false ->
  parse_args p o (("--config=" +:+ v) :: rest) = parse_args p (Some v) rest.
Proof.
  intros Hv. cbn [parse_args]. rewrite !bool_decide_eq_false_2 by (intros H; discriminate H).
  cbn [orb]. change (starts_with ("--config=" +:+ v) "--profile=") with false.
  by rewrite starts_with_app, trim_start_app.
Qed.

Lemma last_over {A} (x : A) l : last (x :: l) = Some (default x (last l)).
Proof. rewrite last_cons. by destruct (last l). Qed.

Lemma parse_args_options profile override opts :
  Forall plain_value opts ->
  parse_args profile override (opts ≫= render_option) =
  CliOk (mkCliArgs (default profile (last (omap profile_of opts)))
           (match last (omap override_of opts) with Some v => Some v | None => override end)).
Proof.
  intros Hall. revert profile override.
  induction Hall as [|o opts Ho Hall IH]; intros profile override; [done|].
  destruct o as [v|v|v|v]; rewrite bind_cons; cbn [render_option app omap list_omap profile_of override_of].
  - change (parse_args profile override ("--profile" :: v :: (opts ≫= render_option)))
      with (parse_args v override (opts ≫= render_option)). by rewrite IH, last_over.
  - by rewrite parse_args_profile_eq, IH, last_over.
  - change (parse_args profile override ("--config" :: v :: (opts ≫= render_option)))
      with (parse_args profile (Some v) (opts ≫= render_option)). rewrite IH, last_over.
    by destruct (last (omap override_of opts)).
  - rewrite parse_args_config_eq, IH, last_over by done. by destruct (last (omap override_of opts)).
Qed.
