(* ===== verification/ServerProps.v ===== *)
(** * ServerProps: the server as a whole

    What a sequence of HTTP requests does to the storage, in terms of the calls of the
    storage trait, so that the theorems on histories hold of the server; and what the
    server starts with. *)

From S2P Require Import Prelude Errors Offsets RustStd Headers Cursor StorageCore JsonMode Sse.
From S2P Require Import Http WriteHandlers ReadHandlers LogSpec StorageTrace.
From S2P Require Import MemoryStorage MemoryRefinement MemoryProps HandlerProps HandlerRuns.
From S2P Require Import Config ConfigProps Server.

(** ** Requests as storage calls *)

Section Requests.
Context {S : Type} `{!Storage.StorageOps S} `{!SerdeJson} `{!HttpLib}.

(** The messages in the body of a request. *)
Definition request_messages (r : Request) : list bytes :=
  match rq_method r, rq_body r with
  | PUT, Ok body =>
      match (let? ct := put_content_type (rq_headers r) in put_messages ct body) with
      | Ok msgs => msgs
      | Err _ => []
      end
  | POST, Ok body =>
      let should_close := closed_requested (rq_headers r) in
      let close_only := bool_decide (body = []) && should_close in
      match (let? ct := post_content_type (rq_headers r) close_only in
             post_messages ct body should_close) with
      | Ok msgs => msgs
      | Err _ => []
      end
  | _, _ => []
  end.

(** The storage calls a request may make that change state. *)
Definition op_of (r : Request) (op : StorageOp) : Prop :=
  match rq_method r with
  | GET => op = OpSubscribe (rq_clk2 r) (rq_name r)
  | HEAD => False
  | DELETE => op = OpDelete (rq_name r)
  | PUT => exists config close,
      op = OpCreateWithData (rq_clk r) (rq_name r) config (request_messages r) close
  | POST =>
      (exists ct seq, op = OpBatchAppend (rq_clk r) (rq_name r) (request_messages r) ct seq) \/
      (exists ct p close seq,
         op = OpProducer (rq_clk r) (rq_name r) (request_messages r) ct p close seq) \/
      op = OpClose (rq_clk2 r) (rq_name r)
  end.

Definition run_ops (ops : list StorageOp) (s : S) : S := fold_left (fun s op => run_op op s) ops s.

(** The calls of one request: at most two, and only the first carries messages. *)
Definition request_ops (r : Request) (ops : list StorageOp) : Prop :=
  Forall (op_of r) ops /\ Forall (fun op => op_msgs op = []) (tail ops) /\ (length ops <= 2)%nat.

(** *** Bodies and the calls they make *)

Definition does {A} (P : list StorageOp -> Prop) (c : HM S A) : Prop :=
  forall s, exists ops, srv_storage (c s).1 = run_ops ops (srv_storage s) /\ P ops.
Definition still {A} (c : HM S A) : Prop := forall s, srv_storage (c s).1 = srv_storage s.

Lemma does_still {A} (P : list StorageOp -> Prop) (c : HM S A) : P [] -> still c -> does P c.
Proof. intros HP Hc s. exists []. by rewrite Hc. Qed.

Lemma still_bind {A B} (c : HM S A) (k : A -> HM S B) :
  still c -> (forall a, still (k a)) -> still (h_bind c k).
Proof.
  intros Hc Hk s. unfold h_bind. specialize (Hc s).
  destruct (c s) as [s1 [[a|e]|]]; cbn in *; [|done..]. by rewrite Hk.
Qed.

Lemma does_bind {A B} (P : list StorageOp -> Prop) (c : HM S A) (k : A -> HM S B) :
  P [] -> still c -> (forall a, does P (k a)) -> does P (h_bind c k).
Proof.
  intros HP Hc Hk s. unfold h_bind. specialize (Hc s).
  destruct (c s) as [s1 [[a|e]|]]; cbn in *; [|exists []; by rewrite Hc..].
  destruct (Hk a s1) as (ops & Hs & HPo). exists ops. by rewrite Hs, Hc.
Qed.

(** A storage call and what follows it. *)
Lemma does_call {A B} (P : list StorageOp -> Prop) op (c : HM S A) (k : A -> HM S B) :
  (forall s, srv_storage (c s).1 = run_op op (srv_storage s)) ->
  P [op] -> (forall a, does (fun ops => P (op :: ops)) (k a)) -> does P (h_bind c k).
Proof.
  intros Hc HP Hk s. unfold h_bind. specialize (Hc s).
  destruct (c s) as [s1 [[a|e]|]]; cbn in *; [|exists [op]; by rewrite Hc..].
  destruct (Hk a s1) as (ops & Hs & HPo). exists (op :: ops). by rewrite Hs, Hc.
Qed.

Lemma still_ret {A} (a : A) : still (h_ret a).
Proof. by intros s. Qed.
Lemma still_fail {A} e : still (@h_fail S A e).
Proof. by intros s. Qed.
Lemma still_panic {A} : still (@h_panic S A).
Proof. by intros s. Qed.
Lemma still_lift {A} (r : Result Error A) : still (h_lift r).
Proof. by intros s. Qed.
Lemma still_query {A} (f : S -> Result Error A) : still (query f).
Proof. by intros s. Qed.
Lemma still_builds {A} (c : HM S A) : builds c -> still c.
Proof. intros Hb s. by destruct (Hb s) as [-> _]. Qed.
Lemma still_parse_value v : still (parse_value v).
Proof. apply still_builds, builds_parse_value. Qed.
Lemma still_bytes_value v : still (bytes_value v).
Proof. apply still_builds, builds_bytes_value. Qed.
Lemma still_with_header n v h : still (with_header n v h).
Proof. apply still_builds, builds_with_header. Qed.
Lemma still_with_next_offset o h : still (with_next_offset o h).
Proof. apply still_builds, builds_with_next_offset. Qed.
Lemma still_cursor o : still (generate_cursor o).
Proof. intros s. unfold generate_cursor. by destruct (generate _ _). Qed.
Lemma still_body b : still (read_body b).
Proof. by destruct b. Qed.

Create HintDb still.
#[local] Hint Resolve still_bind still_ret still_fail still_panic still_lift still_query still_parse_value
  still_bytes_value still_with_header still_with_next_offset still_cursor still_body : still.

(** Case analysis down to the primitive bodies. *)
Ltac still :=
  repeat first
    [ progress (eauto 1 with still)
    | apply still_bind; [|intros ?]
    | case_match ].

Lemma still_closed_response clk name : still (stream_closed_response clk name).
Proof. unfold stream_closed_response. still. Qed.
Lemma still_304 r : still (build_304_response r).
Proof. unfold build_304_response. still. Qed.
Lemma still_204 o closed : still (build_204_response o closed).
Proof. unfold build_204_response. still. Qed.
Lemma still_data r ct etag cur : still (build_data_response r ct etag cur).
Proof. unfold build_data_response. still. Qed.
Lemma still_put_response h name ct r : still (put_response h name ct r).
Proof. unfold put_response. still. Qed.
Lemma still_producer_response b r : still (producer_response b r).
Proof. apply still_builds, builds_producer_response. Qed.
Lemma still_put_config now ct ttl e closed : still (put_config now ct ttl e closed).
Proof. unfold put_config. still. Qed.

Lemma does_lift {A B} (P : list StorageOp -> Prop) (r : Result Error A) (k : A -> HM S B) :
  P [] -> (forall a, r = Ok a -> does P (k a)) -> does P (h_bind (h_lift r) k).
Proof.
  intros HP Hk. destruct r as [a|e]; [exact (Hk a eq_refl)|]. intros s. by exists [].
Qed.
Lemma does_body {B} (P : list StorageOp -> Prop) b (k : bytes -> HM S B) :
  P [] -> (forall a, b = Ok a -> does P (k a)) -> does P (h_bind (read_body b) k).
Proof.
  intros HP Hk. destruct b as [a|e]; [exact (Hk a eq_refl)|]. intros s. by exists [].
Qed.
Lemma does_then {A B} P (c : HM S A) (k : A -> HM S B) :
  does P c -> (forall a, still (k a)) -> does P (h_bind c k).
Proof.
  intros Hc Hk s. destruct (Hc s) as (ops & Hs & Ho). exists ops. split; [|done].
  rewrite <- Hs. unfold h_bind. destruct (c s) as [s1 [[a|e]|]]; [apply Hk|done..].
Qed.

Lemma store_call {A} (c : ST S Error A) op s :
  (c (srv_storage s)).1 = run_op op (srv_storage s) ->
  srv_storage (store c s).1 = run_op op (srv_storage s) /\
  srv_storage (try_store c s).1 = run_op op (srv_storage s).
Proof. unfold store, try_store. by destruct (c (srv_storage s)). Qed.

Lemma subscribe_call clk name s :
  srv_storage (subscribe_or_404 clk name s).1 = run_op (OpSubscribe clk name) (srv_storage s).
Proof. unfold subscribe_or_404, run_op. by destruct (Storage.subscribe _ _ _). Qed.

(** *** The handlers *)

#[local] Hint Resolve still_closed_response still_304 still_204 still_data still_put_response
  still_producer_response still_put_config : still.

Lemma subscribe_does {A} clk name (k : Receiver -> HM S A) :
  (forall rx, still (k rx)) ->
  does (fun ops => ops = [] \/ ops = [OpSubscribe clk name]) (h_bind (subscribe_or_404 clk name) k).
Proof.
  intros Hk. eapply (does_call _ (OpSubscribe clk name)); [intros; apply subscribe_call|by right|].
  intros rx. apply does_still; [by right|done].
Qed.

Lemma get_does clk1 clk2 clk3 name q headers :
  does (fun ops => ops = [] \/ ops = [OpSubscribe clk2 name])
    (read_stream clk1 clk2 clk3 name q headers).
Proof.
  unfold read_stream. apply does_bind; [by left|still|intros raw].
  apply does_bind; [by left|still|intros o]. apply does_bind; [by left|still|intros m].
  destruct (q_live q) as [live|].
  - destruct (decide (live = "long-poll")); [|destruct (decide (live = "sse"))].
    + apply does_then; [|intros; still]. unfold long_poll_start. apply subscribe_does. intros rx. still.
    + apply does_then; [|intros; still]. unfold read_sse. apply subscribe_does. intros rx. still.
    + apply does_still; [by left|still].
  - apply does_still; [by left|]. unfold read_catch_up. still.
Qed.

Lemma put_does now clk name headers body :
  let msgs := match body with
    | Ok b => match (let? ct := put_content_type headers in put_messages ct b) with
              | Ok msgs => msgs | Err _ => [] end
    | Err _ => [] end in
  does (fun ops => ops = [] \/ exists config close, ops = [OpCreateWithData clk name config msgs close])
    (put_create_stream now clk name headers body).
Proof.
  intros msgs. unfold put_create_stream. apply does_body; [by left|intros b ->].
  apply does_lift; [by left|intros ct Hct]. apply does_bind; [by left|still|intros [ttl ex]].
  apply does_bind; [by left|still|intros config]. apply does_lift; [by left|intros ms Hms].
  assert (msgs = ms) as -> by (unfold msgs; rewrite Hct; cbn [result_bind]; by rewrite Hms).
  eapply (does_call _ (OpCreateWithData clk name config ms _)).
  - intros s. by apply store_call.
  - right. by eexists _, _.
  - intros r. apply does_still; [right; by eexists _, _|still].
Qed.

(** The calls of an append request. *)
Definition post_ops (r : Request) (ops : list StorageOp) : Prop :=
  ops = [] \/ ops = [OpClose (rq_clk2 r) (rq_name r)] \/
  (exists ct seq, ops = [OpBatchAppend (rq_clk r) (rq_name r) (request_messages r) ct seq] \/
     ops = [OpBatchAppend (rq_clk r) (rq_name r) (request_messages r) ct seq; OpClose (rq_clk2 r) (rq_name r)]) \/
  (exists ct p close seq, ops = [OpProducer (rq_clk r) (rq_name r) (request_messages r) ct p close seq]).

Lemma finish_does (P : list StorageOp -> Prop) clk name close o :
  P [] -> P [OpClose clk name] -> does P (finish_append clk name close o).
Proof.
  intros Hn Hc. unfold finish_append. destruct close.
  - eapply (does_call _ (OpClose clk name)); [intros; by apply store_call|done|].
    intros _. apply does_still; [done|still].
  - apply does_still; [done|still].
Qed.

Lemma post_does r :
  rq_method r = POST ->
  does (post_ops r) (post_append_data (rq_clk r) (rq_clk2 r) (rq_clk3 r) (rq_name r) (rq_headers r) (rq_body r)).
Proof.
  intros Hm. unfold post_append_data. apply does_body; [by left|intros b Hb].
  apply does_lift; [by left|intros ct Hct]. apply does_bind; [by left|still|intros ph].
  case_match; [by apply does_still; [left|still]|].
  apply does_lift; [by left|intros ms Hms].
  assert (request_messages r = ms) as Hreq.
  { unfold request_messages. rewrite Hm, Hb, Hct. cbn [result_bind]. by rewrite Hms. }
  destruct ph as [p|].
  - unfold handle_producer_append.
    eapply (does_call _ (OpProducer (rq_clk r) (rq_name r) ms ct p _ _)).
    + intros s. by apply store_call.
    + do 3 right. rewrite Hreq. by eexists _, _, _, _.
    + intros x. apply does_still; [|still]. do 3 right. rewrite Hreq. by eexists _, _, _, _.
  - unfold handle_non_producer_append. destruct ms as [|m0 ms].
    + apply does_bind; [by left|still|intros md]. apply finish_does; [by left|by right; left].
    + eapply (does_call _ (OpBatchAppend (rq_clk r) (rq_name r) (m0 :: ms) ct _)).
      * intros s. by apply store_call.
      * right; right; left. rewrite Hreq. by eexists _, _; left.
      * intros x. assert (post_ops r [OpBatchAppend (rq_clk r) (rq_name r) (m0 :: ms) ct (rq_headers r STREAM_SEQ)])
          by (right; right; left; rewrite Hreq; by eexists _, _; left).
        destruct x as [o|e]; [|apply does_still; [done|still]].
        apply finish_does; [done|]. right; right; left. rewrite Hreq. by eexists _, _; right.
Qed.

Lemma delete_does name : does (fun ops => ops = [OpDelete name]) (delete_stream name).
Proof.
  unfold delete_stream. eapply (does_call _ (OpDelete name)); [intros; by apply store_call|done|].
  intros _. apply does_still; [done|still].
Qed.

Lemma does_impl {A} (P Q : list StorageOp -> Prop) (c : HM S A) :
  (forall ops, P ops -> Q ops) -> does P c -> does Q c.
Proof. intros HPQ Hc s. destruct (Hc s) as (ops & Hs & Ho). eauto. Qed.

Lemma dispatch_does r : does (request_ops r) (dispatch r).
Proof.
  unfold dispatch, request_ops, op_of. destruct (rq_method r) eqn:Hm.
  - eapply does_impl; [|apply get_does]. intros ops [->| ->]; cbn; by repeat constructor.
  - apply does_then; [|intros; still]. eapply does_impl; [|apply put_does].
    unfold request_messages. rewrite Hm.
    intros ops [->|(config & close & ->)]; cbn; repeat constructor. by eexists _, _.
  - apply does_then; [|intros; still]. apply does_still; [by cbn; repeat constructor|].
    unfold stream_metadata. still.
  - apply does_then; [|intros; still]. eapply does_impl; [|by apply post_does].
    intros ops [->|[->|[(ct & q & [->| ->])|(ct & p & cl & q & ->)]]]; cbn; repeat constructor; by eauto 10.
  - apply does_then; [|intros; still]. eapply does_impl; [|apply delete_does].
    intros ops ->; cbn; by repeat constructor.
Qed.
End Requests.

(** ** Sequences of requests *)

Section Served.
Context {S : Type} `{!Storage.StorageOps S} `{!LawfulStorage S} `{!SerdeJson} `{!HttpLib}.
Context (display : Error -> string).

(** The server after a sequence of requests, each with a body that fits the address
    space together with its stream. *)
Inductive served : Server S -> list Request -> Server S -> Prop :=
  | served_nil s : served s [] s
  | served_cons s r rs s' :
      fits (view (srv_storage s)) (rq_name r) (request_messages r) -> sized (request_messages r) ->
      served (protocol_routes display r s).1 rs s' -> served s (r :: rs) s'.

Lemma fits_nothing (s : S) name : backend_inv s -> fits (view s) name [].
Proof.
  intros Hinv. split_and!; [done|done|]. intros a Ha. pose proof (law_bounded _ _ _ Hinv Ha) as [[_ Hw] _].
  by rewrite Nat.add_0_r.
Qed.

Lemma op_of_name r op :
  op_of r op -> op_name op = rq_name r /\ (op_msgs op = [] \/ op_msgs op = request_messages r).
Proof.
  unfold op_of. destruct (rq_method r).
  - intros ->. by split; [|left].
  - intros (config & close & ->). by split; [|right].
  - done.
  - intros [(ct & q & ->)|[(ct & p & cl & q & ->)| ->]]; split; by eauto.
  - intros ->. by split; [|left].
Qed.

Lemma op_of_sized r op : op_of r op -> sized (request_messages r) -> op_sized op.
Proof.
  unfold op_of. destruct (rq_method r).
  - by intros ->.
  - by intros (config & close & ->).
  - done.
  - by intros [(ct & q & ->)|[(ct & p & cl & q & ->)| ->]].
  - by intros ->.
Qed.

Lemma run_ops_history r ops : forall s,
  backend_inv s -> sized (request_messages r) -> Forall (op_of r) ops ->
  Forall (fun op => op_msgs op = []) ops ->
  history s ops (run_ops ops s) /\ backend_inv (run_ops ops s).
Proof.
  induction ops as [|op ops IH]; intros s Hinv Hsz Hof Hnil; [by split; [constructor|]|].
  apply Forall_cons in Hof as [Ho Hof], Hnil as [Hn Hnil].
  assert (fits (view s) (op_name op) (op_msgs op)) as Hfit by (rewrite Hn; by apply fits_nothing).
  pose proof (op_of_sized r op Ho Hsz) as Hosz.
  destruct (run_op_ok op s Hinv Hfit Hosz) as [Hinv' _].
  destruct (IH _ Hinv' Hsz Hof Hnil) as [Hh Hi]. by split; [apply history_cons|].
Qed.

(** One request is a short history. *)
Lemma request_history r (s : Server S) :
  backend_inv (srv_storage s) -> fits (view (srv_storage s)) (rq_name r) (request_messages r) ->
  sized (request_messages r) ->
  exists ops, history (srv_storage s) ops (srv_storage (protocol_routes display r s).1) /\
    Forall (op_of r) ops /\ backend_inv (srv_storage (protocol_routes display r s).1).
Proof.
  intros Hinv Hfit Hsz. destruct (dispatch_does r s) as (ops & Hs & Hof & Htail & _).
  assert (srv_storage (protocol_routes display r s).1 = run_ops ops (srv_storage s)) as ->.
  { unfold protocol_routes. by destruct (dispatch r s). }
  exists ops. destruct ops as [|op ops]; [by split_and!; [constructor|..]|].
  apply Forall_cons in Hof as [Ho Hof].
  destruct (op_of_name r op Ho) as [Hname Hmsgs].
  assert (fits (view (srv_storage s)) (op_name op) (op_msgs op)) as Hfit1.
  { rewrite Hname. destruct Hmsgs as [-> | ->]; [by apply fits_nothing|done]. }
  pose proof (op_of_sized r op Ho Hsz) as Hosz.
  destruct (run_op_ok op _ Hinv Hfit1 Hosz) as [Hinv' _].
  destruct (run_ops_history r ops _ Hinv' Hsz Hof Htail) as [Hh Hi].
  split_and!; [by apply history_cons|by constructor|done].
Qed.

Lemma history_app s1 ops1 s2 ops2 s3 :
  history s1 ops1 s2 -> history s2 ops2 s3 -> history s1 (ops1 ++ ops2) s3.
Proof. induction 1; intros Hh; [done|]. constructor; auto. Qed.

Lemma served_history s rs s' :
  served s rs s' -> backend_inv (srv_storage s) ->
  exists ops, history (srv_storage s) ops (srv_storage s') /\
    (forall op, op ∈ ops -> exists r, r ∈ rs /\ op_of r op).
Proof.
  induction 1 as [s|s r rs s' Hfit Hsz Hrest IH]; intros Hinv.
  - exists []. split; [constructor|]. by intros op ?%not_elem_of_nil.
  - destruct (request_history r s Hinv Hfit Hsz) as (ops1 & Hh1 & Hof & Hinv1).
    destruct (IH Hinv1) as (ops2 & Hh2 & Hof2). exists (ops1 ++ ops2).
    split; [by eapply history_app|]. intros op [Hin|Hin]%elem_of_app.
    + rewrite Forall_forall in Hof. exists r. split; [left|auto].
    + destruct (Hof2 op Hin) as (r' & Hr' & Ho). exists r'. by split; [right|].
Qed.

(** C17: the HTTP server is a client of the storage contract. Any sequence of requests
    to the protocol routes, whatever their headers and bodies and whether they are
    answered with success, an error or a panic, leaves the storage where a history of
    storage calls leaves it: each request contributes the calls its method may make,
    on its own stream and with the messages of its body. So the invariant of the
    backend holds after it, and a stream that no request deleted or found expired is
    still there, with its configuration, all its messages in order, and only messages
    added at its end, none if it was closed. *)
Theorem requests_are_histories s rs s' :
  served s rs s' -> backend_inv (srv_storage s) ->
  (exists ops, history (srv_storage s) ops (srv_storage s') /\
     (forall op, op ∈ ops -> exists r, r ∈ rs /\ op_of r op)) /\
  backend_inv (srv_storage s') /\
  forall name a, view (srv_storage s) !! name = Some a ->
    (forall r, r ∈ rs -> rq_name r = name -> rq_method r <> DELETE /\
       is_stream_expired (rq_clk r 0%nat) (a_config a) = false /\
       is_stream_expired (rq_clk2 r 0%nat) (a_config a) = false) ->
    exists a', view (srv_storage s') !! name = Some a' /\ evolves a a'.
Proof.
  intros Hs Hinv. destruct (served_history s rs s' Hs Hinv) as (ops & Hh & Hof).
  split; [by exists ops|]. destruct (history_ok _ _ _ Hh Hinv) as [Hinv' Hev].
  split; [done|]. intros name a Ha Hreq. apply (Hev name a Ha). intros op Hin Hname.
  destruct (Hof op Hin) as (r & Hr & Ho). destruct (op_of_name r op Ho) as [Hn _].
  destruct (Hreq r Hr) as (Hd & Hx1 & Hx2); [congruence|]. unfold op_of in Ho.
  destruct (rq_method r); [subst op; cbn; by rewrite Hx2|by destruct Ho as (? & ? & ->); cbn; rewrite Hx1|done| |done].
  destruct Ho as [(ct & q & ->)|[(ct & p & cl & q & ->)| ->]]; cbn; by rewrite ?Hx1, ?Hx2.
Qed.

End Served.

(** ** Starting the server *)

Section Starting.
Context {C : ConfigLib} {L : ConfigLaws C} `{!HttpLib}.

(** The server only runs with a configuration that is in range, valid and the one
    it was asked for. For a command line made of [--profile] and [--config] options in
    either spelling, if [main] comes to serve with [c], then [c] is what the files of
    the last profile and the last override given and the environment configure; the
    port and limits are in the range of their types and the shard count is a power of
    two; certificate and key are both set to regular files or both absent; the origins
    are valid; and the storage is the one of the mode, with these limits, syncing
    every append exactly in the durable mode. *)
Theorem server_starts_valid stat opts get c addr storage :
  Forall plain_value opts ->
  main stat (opts ≫= render_option) get = Serving c addr storage ->
  from_sources_with_lookup (mkLoadOptions "config" (default "default" (last (omap profile_of opts)))
    (last (omap override_of opts))) get = Ok c /\
  config_wf c /\ validate c = Ok tt /\
  match cf_tls_cert_path c, cf_tls_key_path c with
  | Some cert, Some key => stat cert = Some true /\ stat key = Some true /\ tls_enabled c = true
  | None, None => tls_enabled c = false
  | _, _ => False
  end /\
  match storage with
  | UseMemory t p => cf_storage_mode c = Memory /\ t = cf_max_memory_bytes c /\ p = cf_max_stream_bytes c
  | UseFile dir t p sync =>
      uses_file_backend (cf_storage_mode c) = true /\ dir = cf_data_dir c /\
      t = cf_max_memory_bytes c /\ p = cf_max_stream_bytes c /\
      (sync = true <-> cf_storage_mode c = FileDurable)
  | UseAcid dir n t p =>
      cf_storage_mode c = Acid /\ dir = cf_data_dir c /\ n ∈ shard_counts /\
      t = cf_max_memory_bytes c /\ p = cf_max_stream_bytes c
  end.
Proof using L.
  intros Hopts Hmain. unfold main, cli_parse in Hmain. rewrite parse_args_options in Hmain by done.
  cbn [cli_profile cli_config_override ConfigLoadOptions_default lo_config_dir] in Hmain.
  assert (forall (o : option string), match o with Some v => Some v | None => None end = o) as Ho by by intros [].
  rewrite Ho in Hmain.
  destruct (from_sources_with_lookup _ _) as [config|] eqn:Hsrc; [|done].
  unfold run in Hmain. destruct (runtime_validate stat config) as [[]|] eqn:Hv; [|done].
  injection Hmain as -> <- <-. pose proof (config_wf_sources _ _ _ Hsrc) as Hwf.
  unfold runtime_validate in Hv. destruct (validate c) as [[]|] eqn:Hval; [|done].
  cbn [result_bind] in Hv. split_and!; [done..| |].
  - unfold tls_enabled. unfold validate in Hval. unfold ensure_regular_file in Hv.
    destruct (cf_tls_cert_path c) as [cert|], (cf_tls_key_path c) as [key|]; try done.
    destruct (stat cert) as [[]|]; try done. by destruct (stat key) as [[]|].
  - unfold choose_storage. destruct (cf_storage_mode c) eqn:Hm; cbn; split_and!; try done.
    apply Hwf.
Qed.
End Starting.

(** ** Runs *)

(** Command line, environment and files of the development profile. *)
Lemma server_starts_valid_witness :
  main (fun _ => None) (([ProfileIs "prod"; ProfileEq "dev"] : list CliOption) ≫= render_option) demo_env =
    Serving dev_config "0.0.0.0:9999" (UseFile "/tmp/dev-store" 104857600 10485760 false) /\
  config_wf dev_config.
Proof.
  assert (main (fun _ => None) (([ProfileIs "prod"; ProfileEq "dev"] : list CliOption) ≫= render_option) demo_env =
    Serving dev_config "0.0.0.0:9999" (UseFile "/tmp/dev-store" 104857600 10485760 false)) as Hm
    by (vm_compute; reflexivity).
  split; [exact Hm|].
  assert (Forall plain_value [ProfileIs "prod"; ProfileEq "dev"]) as Hp by repeat constructor.
  destruct (server_starts_valid (fun _ => None) _ demo_env dev_config "0.0.0.0:9999" _ Hp Hm)
    as (_ & Hwf & _). exact Hwf.
Defined.

(** A POST of a second message to the stream of [server_aa]. *)
Definition post_b : Request :=
  mkRequest POST "s" (mkReadQuery None None None) text_headers (Ok (as_bytes "b")) 1000
    run_clock run_clock run_clock.

Lemma requests_are_histories_witness :
  exists a', mem_view (srv_storage (protocol_routes (fun _ => "") post_b server_aa).1) !! "s" = Some a' /\
    [as_bytes "aa"] `prefix_of` a_msgs a'.
Proof.
  destruct (requests_are_histories (fun _ => "") server_aa [post_b]
    (protocol_routes (fun _ => "") post_b server_aa).1) as (_ & _ & Hev).
  - apply served_cons; [| |apply served_nil];
      replace (request_messages post_b) with [as_bytes "b"] by (vm_compute; reflexivity);
      [fits_run|sized_run].
  - apply server_aa_inv.
  - assert ((fun a => (a_msgs a, a_config a)) <$> mem_view (srv_storage server_aa) !! "s" =
      Some ([as_bytes "aa"], StreamConfig_new "text/plain")) as Ha by (vm_compute; reflexivity).
    destruct (mem_view (srv_storage server_aa) !! "s") as [a|] eqn:Hv; [|discriminate Ha].
    injection Ha as Hm Hc. destruct (Hev "s" a Hv) as (a' & Ha' & He).
    + intros r Hr _. apply list_elem_of_singleton in Hr as ->. rewrite Hc.
      split; [discriminate|]. split; vm_compute; reflexivity.
    + exists a'. split; [exact Ha'|]. rewrite <- Hm. apply He.
Defined.

Lemma validated_cors_complete_witness :
  let c := set_cors_origins "https://a.example, https://b.example" Config_default in
  cors_layer (cf_cors_origins c) = OriginList ["https://a.example"; "https://b.example"].
Proof.
  intros c. pose proof (validated_cors_complete c) as H.
  assert (validate c = Ok tt) as Hv by (vm_compute; reflexivity). specialize (H Hv).
  destruct (cors_layer (cf_cors_origins c)) as [|origins]; [discriminate H|].
  destruct H as [-> _]. vm_compute. reflexivity.
Defined.
