(* ===== verification/SharedServer.v ===== *)
(** * SharedServer: requests among other calls

    A handler makes its calls of the storage trait one after the other, and other requests
    make theirs in between. The handlers of [handlers/] are generic in the backend, so the
    same definitions run here on a storage that others are using: before and after every
    call of the request that changes state any calls of others take place. *)

From S2P Require Import Prelude Errors Offsets RustStd Headers Cursor StorageCore JsonMode Sse.
From S2P Require Import Http WriteHandlers ReadHandlers LogSpec StorageTrace.
From S2P Require Import MemoryStorage MemoryRefinement MemoryProps HandlerProps HandlerRuns.
From S2P Require Import Server ServerProps.

(** ** A storage in use *)

(** What others do before and after the n-th call. *)
Record Busy (S : Type) : Type := mkBusy {
  bz_store : S;
  bz_others : nat -> list StorageOp * list StorageOp
}.
Arguments mkBusy {S}.
Arguments bz_store {S}.
Arguments bz_others {S}.

Section Busy.
Context {S : Type} `{!Storage.StorageOps S}.

Definition among {A} (m : S -> S * A) (b : Busy S) : Busy S * A :=
  let '(before, after) := bz_others b 0%nat in
  let '(s, r) := m (run_ops before (bz_store b)) in
  (mkBusy (run_ops after s) (fun n => bz_others b (1 + n)%nat), r).

#[export] Instance busy_storage : Storage.StorageOps (Busy S) := {|
  Storage.create_stream clk name config := among (Storage.create_stream clk name config);
  Storage.append clk name data ct := among (Storage.append clk name data ct);
  Storage.batch_append clk name msgs ct seq := among (Storage.batch_append clk name msgs ct seq);
  Storage.read clk name o b := Storage.read clk name o (bz_store b);
  Storage.delete name := among (Storage.delete name);
  Storage.head clk name b := Storage.head clk name (bz_store b);
  Storage.close_stream clk name := among (Storage.close_stream clk name);
  Storage.append_with_producer clk name msgs ct p close seq :=
    among (Storage.append_with_producer clk name msgs ct p close seq);
  Storage.create_stream_with_data clk name config msgs close :=
    among (Storage.create_stream_with_data clk name config msgs close);
  Storage.stream_exists clk name b := Storage.stream_exists clk name (bz_store b);
  Storage.subscribe clk name := among (Storage.subscribe clk name)
|}.

(** The calls in the order in which they take place. *)
Fixpoint weave (ops : list StorageOp) (others : nat -> list StorageOp * list StorageOp) : list StorageOp :=
  match ops with
  | [] => []
  | op :: ops => (others 0%nat).1 ++ op :: (others 0%nat).2 ++ weave ops (fun n => others (1 + n)%nat)
  end.

Lemma run_ops_app (ops1 ops2 : list StorageOp) (s : S) : run_ops (ops1 ++ ops2) s = run_ops ops2 (run_ops ops1 s).
Proof. apply fold_left_app. Qed.

Lemma among_run {A} (m : S -> S * A) op b :
  (forall s, (m s).1 = run_op op s) ->
  bz_store (among m b).1 = run_ops ((bz_others b 0%nat).1 ++ op :: (bz_others b 0%nat).2) (bz_store b) /\
  bz_others (among m b).1 = (fun n => bz_others b (1 + n)%nat).
Proof.
  intros Hm. unfold among. destruct (bz_others b 0%nat) as [before after].
  specialize (Hm (run_ops before (bz_store b))). destruct (m _) as [s r]. cbn [fst snd bz_store bz_others] in *. split; [|done].
  by rewrite run_ops_app, Hm.
Qed.

Lemma run_op_busy op b :
  bz_store (run_op op b) = run_ops ((bz_others b 0%nat).1 ++ op :: (bz_others b 0%nat).2) (bz_store b) /\
  bz_others (run_op op b) = (fun n => bz_others b (1 + n)%nat).
Proof. destruct op; by apply among_run. Qed.

Lemma run_ops_busy ops : forall b,
  bz_store (run_ops ops b) = run_ops (weave ops (bz_others b)) (bz_store b).
Proof.
  induction ops as [|op ops IH]; intros b; [done|]. destruct (run_op_busy op b) as [Hs Ho].
  change (run_ops (op :: ops) b) with (run_ops ops (run_op op b)). rewrite IH, Hs, Ho. cbn [weave].
  by rewrite !run_ops_app, app_comm_cons, !run_ops_app.
Qed.

Lemma weave_elem op ops others :
  op ∈ weave ops others -> op ∈ ops \/ exists n, op ∈ (others n).1 ++ (others n).2.
Proof.
  revert others. induction ops as [|op0 ops IH]; intros others; cbn; [by left|].
  rewrite elem_of_app, elem_of_cons, elem_of_app. intros [Hop|[->|[Hop|Hop]]].
  - right. exists 0%nat. by apply elem_of_app; left.
  - left. left.
  - right. exists 0%nat. by apply elem_of_app; right.
  - destruct (IH _ Hop) as [?|[n Hn]]; [left; by right|]. right. by exists (Datatypes.S n).
Qed.

Lemma history_prefix `{!LawfulStorage S} s ops1 ops2 s' : history s (ops1 ++ ops2) s' -> history s ops1 (run_ops ops1 s).
Proof.
  revert s. induction ops1 as [|op ops1 IH]; intros s Hh; [constructor|].
  inversion Hh; subst. apply history_cons; [done..|]. by apply IH.
Qed.
Lemma history_run `{!LawfulStorage S} s ops s' : history s ops s' -> s' = run_ops ops s.
Proof. induction 1 as [|s op ops s' _ _ _ IH]; [done|]. by rewrite IH. Qed.
End Busy.

(** ** Any request *)

Section Requests.
Context {S : Type} `{!Storage.StorageOps S} `{!LawfulStorage S} `{!SerdeJson} `{!HttpLib}.
Context (display : Error -> string).

(** C18: concurrent requests are histories of storage calls. Whatever calls of other
    requests take place around the calls of a request, the storage ends where one history
    leads that has the calls the request makes, in their order, among those of the others.
    So the invariant of the backend holds after it, and a stream that neither the request
    nor the others deleted or found expired is still there, with all its messages in order
    and only messages added at its end. *)
Theorem concurrent_requests_are_histories r s others cur :
  backend_inv s ->
  (forall ops, request_ops r ops -> history s (weave ops others) (run_ops (weave ops others) s)) ->
  let b := srv_storage (protocol_routes display r (mkServer (mkBusy s others) cur)).1 in
  exists ops, request_ops r ops /\ history s (weave ops others) (bz_store b) /\
    backend_inv (bz_store b) /\
    forall name a, view s !! name = Some a ->
      (forall op, op ∈ ops \/ (exists n, op ∈ (others n).1 ++ (others n).2) ->
         op_name op = name -> op_spares (a_config a) op = true) ->
      exists a', view (bz_store b) !! name = Some a' /\ evolves a a'.
Proof.
  intros Hinv Hfit b. destruct (dispatch_does r (mkServer (mkBusy s others) cur)) as (ops & Hs & Hops).
  assert (bz_store b = run_ops (weave ops others) s) as Hb.
  { unfold b, protocol_routes. rewrite <- (run_ops_busy ops (mkBusy s others)).
    change (mkBusy s others) with (srv_storage (mkServer (mkBusy s others) cur)). rewrite <- Hs.
    by destruct (dispatch r _). }
  exists ops. split; [done|]. specialize (Hfit ops Hops). rewrite <- Hb in Hfit.
  destruct (history_ok _ _ _ Hfit Hinv) as [Hinv' Hev]. split_and!; [done..|].
  intros name a Ha Hsp. apply (Hev name a Ha). intros op Hop. apply Hsp. by apply weave_elem.
Qed.
End Requests.

(** ** An append *)

Section Post.
Context {S : Type} `{!Storage.StorageOps S} `{!LawfulStorage S} `{!SerdeJson}.
Context `{!HttpLib} `{!HttpLibLaws}.

Lemma among_result {A} (m : S -> S * A) b :
  among m b = (mkBusy (run_ops (bz_others b 0%nat).2 (m (run_ops (bz_others b 0%nat).1 (bz_store b))).1)
                 (fun n => bz_others b (1 + n)%nat), (m (run_ops (bz_others b 0%nat).1 (bz_store b))).2).
Proof. unfold among. destruct (bz_others b 0%nat). by destruct (m _). Qed.

(** The batch of an append, and the moment of its answer. *)
Record batch_added (name : string) (msgs : list bytes) (s1 s2 : S) (a a1 : AStream) : Prop := mkBatchAdded {
  ba_before : view s1 !! name = Some a;
  ba_open : a_closed a = false;
  ba_after : view s2 !! name = Some a1;
  ba_msgs : a_msgs a1 = a_msgs a ++ msgs
}.

Lemma append_nonempty {T} `{!Storage.StorageOps T} clk clk_close clk_head name msgs ct close seq :
  msgs <> [] ->
  handle_non_producer_append (S := T) clk clk_close clk_head name msgs ct close seq =
  (do* r := try_store (Storage.batch_append clk name msgs ct seq) in
   match r with
   | Ok next_offset => finish_append clk_close name close next_offset
   | Err StreamClosed => stream_closed_response clk_head name
   | Err e => h_fail e
   end).
Proof. by destruct msgs. Qed.

(** The tails of two logs are the same offset only if nothing lies between them. *)
Lemma same_tail (s s' : S) name name' a a' more :
  backend_inv s -> backend_inv s' -> view s !! name = Some a -> view s' !! name' = Some a' ->
  a_msgs a' = a_msgs a ++ more ->
  as_str (a_next_offset a) = as_str (a_next_offset a') <-> more = [].
Proof.
  intros Hs Hs' Ha Ha' Hm. split.
  - intros Heq. apply as_str_inj in Heq; [|by eapply (law_bounded s)|by eapply (law_bounded s')]. unfold a_next_offset, tail_offset, Offset_new in Heq.
    injection Heq as Hlen _ _. rewrite Hm, length_app in Hlen. destruct more; [done|cbn in Hlen; lia].
  - intros ->. unfold a_next_offset. by rewrite Hm, app_nil_r.
Qed.

(** How a plain append ended among other calls: the batch went in between [s1] and [s2], the
    close between [s3] and [s4]. *)
Inductive post_among (name : string) (msgs : list bytes) (close : bool) (between : list StorageOp)
    (s1 s2 s2' s3 s4 : S) : Outcome Response -> Prop :=
  | among_appended a a1 resp :
      batch_added name msgs s1 s2 a a1 -> resp_status resp = 204 ->
      get_header STREAM_NEXT_OFFSET (resp_headers resp) = Some (as_str (a_next_offset a1)) ->
      get_header STREAM_CLOSED (resp_headers resp) = (if close then Some "true" else None) ->
      (close = true -> exists b b', view s3 !! name = Some b /\ view s4 !! name = Some b' /\
         a_closed b' = true /\ a_msgs b' = a_msgs b /\
         ((forall op, op ∈ between -> op_name op = name -> op_spares (a_config a1) op = true) ->
          exists more, a_msgs b' = a_msgs a1 ++ more /\
            (as_str (a_next_offset a1) = as_str (a_next_offset b') <-> more = []))) ->
      post_among name msgs close between s1 s2 s2' s3 s4 (Done (Ok resp))
  | among_closed a' resp :
      untouched (view s1) (view s2) name -> view s2' !! name = Some a' ->
      resp_status resp = 409 -> get_header STREAM_CLOSED (resp_headers resp) = Some "true" ->
      get_header STREAM_NEXT_OFFSET (resp_headers resp) = Some (as_str (a_next_offset a')) ->
      post_among name msgs close between s1 s2 s2' s3 s4 (Done (Ok resp))
  | among_refused e :
      untouched (view s1) (view s2) name ->
      post_among name msgs close between s1 s2 s2' s3 s4 (Done (Err e))
  | among_not_closed a a1 e :
      batch_added name msgs s1 s2 a a1 -> close = true -> untouched (view s3) (view s4) name ->
      post_among name msgs close between s1 s2 s2' s3 s4 (Done (Err e)).

Section Around.
Context (others : nat -> list StorageOp * list StorageOp) (cur : Z) (s : S).
Context (clk clk_close clk_head : Clock) (name : string) (msgs : list bytes) (ct : string) (close : bool).
Context (seq : option string).

Let between := (others 0%nat).2 ++ (others 1%nat).1.
Let s1 := run_ops (others 0%nat).1 s.
Let s2 := run_op (OpBatchAppend clk name msgs ct seq) s1.
Let s2' := run_ops (others 0%nat).2 s2.
Let s3 := run_ops between s2.
Let s4 := run_op (OpClose clk_close name) s3.

Lemma close_among a a1 next :
  backend_inv s2 -> history s2 between s3 -> batch_added name msgs s1 s2 a a1 -> next = a_next_offset a1 ->
  post_among name msgs close between s1 s2 s2' s3 s4
    (finish_append clk_close name close next (mkServer (mkBusy s2' (fun n => others (1 + n)%nat)) cur)).2.
Proof.
  intros Hinv2 Hh Hadd ->. destruct (history_ok _ _ _ Hh Hinv2) as [Hinv3 Hev].
  unfold finish_append. destruct close eqn:Hclose.
  - unfold h_bind at 1, store. cbn [srv_storage Storage.close_stream busy_storage]. rewrite among_result. cbn [bz_others bz_store].
    replace (run_ops (others (1 + 0)%nat).1 s2') with s3 by (unfold s3, s2', between; apply run_ops_app).
    pose proof (close_effect s3 clk_close name Hinv3) as Hc.
    change s4 with ((Storage.close_stream clk_close name s3).1).
    destruct (Storage.close_stream clk_close name s3) as [s5 [[]|e]]; destruct Hc as [Hinv4 Hc]; cbn [fst snd].
    + destruct Hc as (b & b' & Hb & Hb' & Hcl & Hm). unfold h_bind.
      rewrite with_next_offset_tail, with_header_visible by done. cbn [snd].
      apply (among_appended _ _ _ _ _ _ _ _ _ a a1); try done.
      intros _. exists b, b'. split_and!; [done..|]. intros Hsp. destruct Hadd as [_ _ Ha1 _].
      destruct (Hev name a1 Ha1 Hsp) as (b0 & Hb0 & [_ _ [more Hmore] _]). assert (b0 = b) as -> by congruence.
      exists more. split; [congruence|]. apply (same_tail s2 s5 name name); try done. congruence.
    + by apply (among_not_closed _ _ _ _ _ _ _ _ _ a a1).
  - unfold h_bind. simpl. rewrite with_next_offset_tail. cbn [snd].
    by apply (among_appended _ _ _ _ _ _ _ _ _ a a1).
Qed.

(** C19: a POST without producer headers among other calls. Whatever other requests do before,
    between and after its storage calls, the batch of an append goes in as a whole, at the
    tail of an open stream, and the answer 204 gives the offset right behind it; 409 and
    errors mean that it did not go in, except when only the close that was asked for failed.
    An answer that also says the stream is closed is right that it is; but the offset it
    gives is the end of the closed stream only if nobody appended between the two calls. *)
Theorem post_among_others :
  msgs <> [] -> backend_inv s ->
  history s (others 0%nat).1 s1 -> fits (view s1) name msgs -> history s2 between s3 ->
  post_among name msgs close between s1 s2 s2' s3 s4
    (handle_non_producer_append clk clk_close clk_head name msgs ct close seq
       (mkServer (mkBusy s others) cur)).2.
Proof.
  intros Hne Hinv Hh1 Hfit Hh2. destruct (history_ok _ _ _ Hh1 Hinv) as [Hinv1 _].
  rewrite append_nonempty by done. unfold h_bind at 1, try_store. cbn [srv_storage Storage.batch_append busy_storage]. rewrite among_result. cbn [bz_others bz_store].
  fold s1. pose proof (batch_append_effect s1 clk name msgs ct seq Hinv1 Hfit) as Hb.
  pose proof (eq_refl : s2 = (Storage.batch_append clk name msgs ct seq s1).1) as Hs2.
  destruct (Storage.batch_append clk name msgs ct seq s1) as [s0 [off|e]]; destruct Hb as [Hinv2 Hb]; cbn [fst snd] in *.
  - destruct Hb as (a & a1 & Ha & Ha1 & Ho & _ & Hm & ->). rewrite <- Hs2 in *. by apply (close_among a a1).
  - rewrite <- Hs2 in Hb |- *. destruct e; try by apply among_refused.
    unfold stream_closed_response, h_bind, query. cbn [srv_storage Storage.head busy_storage bz_store].
    fold s2'. assert (backend_inv s2') as Hinv2' by (eapply history_ok; [by eapply history_prefix|by rewrite Hs2]).
    pose proof (head_live s2' clk_head name Hinv2') as Hh.
    destruct (Storage.head clk_head name s2') as [m|e]; [|by apply among_refused].
    destruct Hh as (a & Ha & ->). rewrite with_header_visible by done. rewrite with_next_offset_tail. cbn [snd].
    apply (among_closed _ _ _ _ _ _ _ _ _ a); done.
Qed.
End Around.
End Post.

(** ** An append and close *)

(** A client appends and closes with one request; another client appends in between. *)
Definition closing_headers : HeaderMap :=
  fun n => if decide (n = STREAM_CLOSED) then Some "true" else text_headers n.
Definition late_append : StorageOp := OpAppend run_clock "s" [x63] "text/plain".
Definition in_between (n : nat) : list StorageOp * list StorageOp :=
  match n with O => ([], [late_append]) | _ => ([], []) end.
Definition append_and_close : HM (Busy InMemoryStorage) Response :=
  post_append_data run_clock run_clock run_clock "s" closing_headers (Ok [x62]).
Definition busy_server : Server (Busy InMemoryStorage) := mkServer (mkBusy (srv_storage server_aa) in_between) 0.
Definition after_close : InMemoryStorage := bz_store (srv_storage (append_and_close busy_server).1).

Definition header_of (name : string) (out : Outcome Response) : option string :=
  match out with Done (Ok r) => get_header name (resp_headers r) | _ => None end.

(** Appending and closing in one request is not atomic. There is a run of the in-memory
    server in which the answer 204 to such a request says that the stream is closed and ends
    at [Stream-Next-Offset], while the closed stream has one more message behind that offset,
    which another client appended, with success, between the two storage calls of the
    request: a reader who stops there misses it. *)
Theorem append_and_close_not_atomic :
  let out := (append_and_close busy_server).2 in
  header_of STREAM_CLOSED out = Some "true" /\
  exists o r, header_of STREAM_NEXT_OFFSET out = Some (as_str o) /\
    Storage.read run_clock "s" o after_close = Ok r /\
    rr_messages r = [[x63]] /\ rr_closed r = true /\ as_str (rr_next_offset r) <> as_str o.
Proof.
  intros out. split; [vm_compute; reflexivity|]. exists (Offset_new 2 3).
  destruct (Storage.read run_clock "s" (Offset_new 2 3) after_close) as [r|e] eqn:Hr; [|by vm_compute in Hr].
  exists r. vm_compute in Hr. injection Hr as <-. vm_compute. split_and!; done.
Qed.

(** The handler of this request, and the storage when the batch is in. *)
Definition closing_append : HM (Busy InMemoryStorage) Response :=
  handle_non_producer_append run_clock run_clock run_clock "s" [[x62]] "text/plain" true None.
Definition batch_in : InMemoryStorage :=
  run_op (OpBatchAppend run_clock "s" [[x62]] "text/plain" None) (srv_storage server_aa).

Lemma post_among_others_witness :
  header_of STREAM_CLOSED (closing_append busy_server).2 = Some "true" /\
  post_among "s" [[x62]] true [late_append] (srv_storage server_aa) batch_in
    (run_ops [late_append] batch_in) (run_ops [late_append] batch_in)
    (run_op (OpClose run_clock "s") (run_ops [late_append] batch_in)) (closing_append busy_server).2.
Proof.
  split; [vm_compute; reflexivity|].
  apply (post_among_others in_between 0 (srv_storage server_aa)); [done|apply server_aa_inv|constructor|fits_run|].
  apply history_cons; [fits_run|sized_run|constructor].
Defined.

(** A delete, and others who create the stream again and append to it. *)
Definition delete_request : Request :=
  mkRequest DELETE "s" (mkReadQuery None None None) text_headers (Ok []) 1000 run_clock run_clock run_clock.
Definition recreate (n : nat) : list StorageOp * list StorageOp :=
  match n with
  | O => ([late_append], [OpCreate run_clock "s" (StreamConfig_new "text/plain"); late_append])
  | _ => ([], [])
  end.

Lemma delete_request_ops ops :
  request_ops delete_request ops -> ops = [] \/ ops = [OpDelete "s"] \/ ops = [OpDelete "s"; OpDelete "s"].
Proof.
  intros (Hof & _ & Hlen). unfold op_of in Hof. cbn in Hof.
  destruct ops as [|o1 [|o2 [|o3 ops]]]; [by left|right; left|right; right|cbn in Hlen; lia].
  - by apply Forall_cons in Hof as [-> _].
  - by apply Forall_cons in Hof as [-> [-> _]%Forall_cons].
Qed.

Lemma concurrent_requests_are_histories_witness :
  exists ops, request_ops delete_request ops /\
    history (srv_storage server_aa) (weave ops recreate)
      (bz_store (srv_storage (protocol_routes (fun _ => "") delete_request
        (mkServer (mkBusy (srv_storage server_aa) recreate) 0)).1)).
Proof.
  destruct (concurrent_requests_are_histories (fun _ => "") delete_request (srv_storage server_aa) recreate 0
    server_aa_inv) as (ops & Hops & Hh & _).
  - intros ops [->|[->| ->]]%delete_request_ops; cbn [weave recreate fst snd app];
      repeat (apply history_cons; [fits_run|sized_run|]); constructor.
  - exists ops. split; [exact Hops|exact Hh].
Defined.
