(* ===== verification/Lifecycle.v ===== *)
(** * Lifecycle: the server process

    The rest of [main.rs]: [run] constructs the storage of the configured mode and serves
    it; [serve] listens with or without TLS and ends after a shutdown signal. Sockets, TLS
    and signals belong to [axum_server], [rustls] and [tokio]: what they answer is a
    parameter. *)

From S2P Require Import Prelude Errors Offsets RustStd Headers StorageCore LogSpec StorageTrace.
From S2P Require Import Http MemoryStorage MemoryRefinement MemoryProps FileRecords FileStorage AcidStorage Config ConfigProps Server HandlerRuns.
From S2P Require Import FileDemo AcidTables AcidRuns.

(** ** Signals *)

Inductive Signal := CtrlC | Terminate.
#[export] Instance Signal_eq_dec : EqDecision Signal.
Proof. solve_decision. Defined.

(** Which handlers the system lets the process install. *)
Record SignalSetup : Type := mkSignals { installs_ctrl_c : bool; installs_terminate : bool }.

(** The two branches of the [select!] of [wait_for_shutdown_signal]: has the branch ended
    when these signals have been received? [ctrl_c] logs an error of the installation and
    ends; [terminate] logs it and waits for ever. *)
Definition ctrl_c_ended (setup : SignalSetup) (received : list Signal) : bool :=
  if installs_ctrl_c setup then bool_decide (CtrlC ∈ received) else true.
Definition terminate_ended (setup : SignalSetup) (received : list Signal) : bool :=
  if installs_terminate setup then bool_decide (Terminate ∈ received) else false.

(** [wait_for_shutdown_signal] *)
Definition shutdown_requested (setup : SignalSetup) (received : list Signal) : bool :=
  ctrl_c_ended setup received || terminate_ended setup received.

(** ** Serving *)

(** [axum_server] and [rustls]: loading a certificate and its key, and serving until the
    server is shut down or fails. *)
Class ServeLib : Type := {
  RustlsConfig : Type;
  from_pem_file : string -> string -> Result string RustlsConfig;
  serve_plain : string -> Result string unit;
  serve_rustls : string -> RustlsConfig -> Result string unit
}.

(** How the server listens. *)
Inductive Transport `{ServeLib} := Plain (addr : string) | Rustls (addr : string) (tls : RustlsConfig).

(** How far a run came: it ended before it bound its address, or it bound and served, with
    the result of that, a failure to bind included. *)
Inductive Ran `{ServeLib} := NeverListened (e : string) | Listened (t : Transport) (r : Result string unit).

Section Serve.
Context `{!ServeLib}.

(** [serve] *)
Definition serve (c : Config) (addr : string) : Ran :=
  match cf_tls_cert_path c, cf_tls_key_path c with
  | Some cert_path, Some key_path =>
      match from_pem_file cert_path key_path with
      | Err e => NeverListened ("failed to load TLS config: " +:+ e)
      | Ok tls =>
          Listened (Rustls addr tls)
            (match serve_rustls addr tls with Ok _ => Ok tt | Err e => Err ("server error: " +:+ e) end)
      end
  | _, _ =>
      Listened (Plain addr) (match serve_plain addr with Ok _ => Ok tt | Err e => Err ("server error: " +:+ e) end)
  end.
End Serve.

(** ** The storage *)

(** What the process finds on the machine: the outcome of system calls, the clock, and the
    contents of the directory of the file and of the ACID backend. *)
Record Machine `{AcidLib} : Type := mkMachine {
  mc_io0 : Io;
  mc_io : string -> Io;
  mc_now : string -> Z;
  mc_root : string -> Path;
  mc_canonical : string -> Path;
  mc_entries : list string;
  mc_disk : Disk;
  mc_acid_io0 : AcidIo;
  mc_acid_io : nat -> AcidIo;
  mc_acid_io' : nat -> AcidIo;
  mc_acid_disk : AcidDisk
}.

Arguments mkMachine {_}.

Inductive Opened `{AcidLib} :=
  | OpenMemory (st : InMemoryStorage)
  | OpenFile (st : FileStorage)
  | OpenAcid (st : AcidStorage).

Section Process.
Context `{!FileLib} `{!AcidLib} `{!ConfigLib} `{!HttpLib} `{!ServeLib}.
Context (stat : string -> option bool) (w : Machine).

(** The storage [run] constructs; an error becomes a message. *)
Definition open_storage (choice : StorageChoice) : Result string Opened :=
  match choice with
  | UseMemory total per_stream => Ok (OpenMemory (InMemoryStorage_new total per_stream))
  | UseFile dir total per_stream sync =>
      match (FileStorage_new (mc_io0 w) (mc_io w) (mc_now w) (mc_entries w)
               (mkSettings total per_stream (mc_root w dir) (mc_canonical w dir) sync) (mc_disk w)).2 with
      | Ok st => Ok (OpenFile st)
      | Err _ => Err "Failed to initialize file storage"
      end
  | UseAcid _ shards total per_stream =>
      match (AcidStorage_new (mc_acid_io0 w) (mc_acid_io w) (mc_acid_io' w) (mc_now w) shards total per_stream
               (mc_acid_disk w)).2 with
      | Ok st => Ok (OpenAcid st)
      | Err _ => Err "Failed to initialize acid storage"
      end
  end.

(** The process: how it ends, and with what it served. *)
Record Ending : Type := mkEnding { en_status : Z; en_served : option (Config * Opened * Transport) }.

(** [main] to its end; [tracing_subscriber] and the log lines apart. *)
Definition process (args : list string) (get : string -> option string) : Ending :=
  match main stat args get with
  | Exit status => mkEnding status None
  | Serving c addr choice =>
      match open_storage choice with
      | Err _ => mkEnding 1 None
      | Ok storage =>
          match serve c addr with
          | NeverListened _ => mkEnding 1 None
          | Listened t (Ok _) => mkEnding 0 (Some (c, storage, t))
          | Listened t (Err _) => mkEnding 1 (Some (c, storage, t))
          end
      end
  end.
End Process.

(** ** How the process ends *)

Section Ends.
Context `{!FileLib} `{!AcidLib} {C : ConfigLib} {L : ConfigLaws C} `{!HttpLib} `{!ServeLib}.
Context (stat : string -> option bool) (w : Machine).

(** The certificate and the key of the configuration, or no TLS. *)
Definition transport_of (c : Config) (t : Transport) : Prop :=
  match cf_tls_cert_path c, cf_tls_key_path c with
  | Some cert, Some key => exists tls, from_pem_file cert key = Ok tls /\ t = Rustls (bind_addr c) tls
  | None, None => t = Plain (bind_addr c)
  | _, _ => False
  end.

(** A storage of the configured mode and limits. *)
Definition storage_of (c : Config) (o : Opened) : Prop :=
  match o with
  | OpenMemory st => cf_storage_mode c = Memory /\ mem_inv st /\
      m_max_total_bytes st = cf_max_memory_bytes c /\ m_max_stream_bytes st = cf_max_stream_bytes c
  | OpenFile st => uses_file_backend (cf_storage_mode c) = true /\
      f_settings st = mkSettings (cf_max_memory_bytes c) (cf_max_stream_bytes c) (mc_root w (cf_data_dir c))
                        (mc_canonical w (cf_data_dir c)) (mode_sync_on_append (cf_storage_mode c))
  | OpenAcid st => cf_storage_mode c = Acid /\ ac_shard_count st = cf_acid_shard_count c /\
      ac_max_total_bytes st = cf_max_memory_bytes c /\ ac_max_stream_bytes st = cf_max_stream_bytes c
  end.

Lemma drop_notifiers_limits names st :
  let st' := fold_left (fun st name => drop_notifier name st) names st in
  ac_shard_count st' = ac_shard_count st /\ ac_max_total_bytes st' = ac_max_total_bytes st /\
  ac_max_stream_bytes st' = ac_max_stream_bytes st.
Proof using. revert st. induction names as [|n names IH]; intros st; [done|]. cbn. apply (IH (drop_notifier n st)). Qed.

Lemma acid_new_limits io0 io io' now n total per_stream dk dk' st :
  AcidStorage_new io0 io io' now n total per_stream dk = (dk', Ok st) ->
  ac_shard_count st = n /\ ac_max_total_bytes st = total /\ ac_max_stream_bytes st = per_stream.
Proof using.
  unfold AcidStorage_new, st_bind. destruct (st_lift _ _) as [dk1 [[]|]]; [|done].
  destruct (throw_if _ _ _) as [dk2 [[]|]]; [|done]. destruct (load_or_create_layout _ _ _) as [dk3 [[]|]]; [|done].
  destruct (open_shards _ _ _) as [dk4 [[]|]]; [|done]. destruct (rebuild_state_from_disk _ _ _ _ _ _) as [dk5 [found|]]; [|done].
  intros [= <- <-]. apply drop_notifiers_limits.
Qed.

Lemma file_new_settings io0 io now entries cfg disk disk' st :
  FileStorage_new io0 io now entries cfg disk = (disk', Ok st) -> f_settings st = cfg.
Proof using.
  unfold FileStorage_new. repeat (destruct (io_fails io0 _); [done|]).
  destruct (load_entries _ _ _ _ _ _) as [d [[m t]|]]; [|done]. by intros [= _ <-].
Qed.

Lemma open_storage_of c o : config_wf c -> open_storage w (choose_storage c) = Ok o -> storage_of c o.
Proof using.
  intros Hwf. unfold choose_storage, open_storage. destruct (cf_storage_mode c) eqn:Hm.
  - intros [= <-]. cbn. split_and!; [done| |done|done]. apply mem_inv_new; apply Hwf.
  - destruct (FileStorage_new _ _ _ _ _ _) as [d [st|]] eqn:Hn; [|done]. intros [= <-]. cbn. rewrite Hm.
    split; [done|]. by rewrite (file_new_settings _ _ _ _ _ _ _ _ Hn).
  - destruct (FileStorage_new _ _ _ _ _ _) as [d [st|]] eqn:Hn; [|done]. intros [= <-]. cbn. rewrite Hm.
    split; [done|]. by rewrite (file_new_settings _ _ _ _ _ _ _ _ Hn).
  - destruct (AcidStorage_new _ _ _ _ _ _ _ _) as [d [st|]] eqn:Hn; [|done]. intros [= <-].
    split; [done|]. apply (acid_new_limits _ _ _ _ _ _ _ _ _ _ Hn).
Qed.

(** What status 0 stands for. *)
Definition shut_down (t : Transport) : Prop :=
  match t with Plain addr => serve_plain addr = Ok tt | Rustls addr tls => serve_rustls addr tls = Ok tt end.

(** The server as [serve] leaves it, for a valid configuration. *)
Lemma serve_spec c :
  runtime_validate stat c = Ok tt ->
  match serve c (bind_addr c) with
  | NeverListened _ => True
  | Listened t r => transport_of c t /\ (is_ok r = true <-> shut_down t)
  end.
Proof using.
  unfold runtime_validate, serve, transport_of. destruct (validate c) as [[]|] eqn:Hv; [|done]. intros _.
  unfold validate in Hv. destruct (cf_tls_cert_path c) as [cert|], (cf_tls_key_path c) as [key|]; try done.
  - destruct (from_pem_file cert key) as [tls|]; [|done]. split; [by exists tls|]. cbn.
    by destruct (serve_rustls _ _) as [[]|].
  - split; [done|]. cbn. by destruct (serve_plain _) as [[]|].
Qed.

(** C39: the exit status tells how the process ended, and it only serves what it was asked
    to. Status 2 means the command line was wrong; status 0 that help was asked for, or the
    server listened and was shut down; in any other case the status is 1. If it listened,
    then with the loaded configuration, which is valid, with a storage of the configured
    mode and limits, on the configured port, and over TLS with the configured certificate
    and key if there are any: a certificate that cannot be loaded is never a reason to
    listen without TLS. *)
Theorem process_ends args get :
  let en := process stat w args get in
  en_status en = match cli_parse args with
    | CliHelp => 0
    | CliErr _ => 2
    | CliOk _ => match en_served en with
                 | Some (_, _, t) => if is_ok (match t with Plain a => serve_plain a | Rustls a tls => serve_rustls a tls end)
                                     then 0 else 1
                 | None => 1
                 end
    end /\
  forall c o t, en_served en = Some (c, o, t) ->
    (exists cli, cli_parse args = CliOk cli /\
       from_sources_with_lookup (mkLoadOptions "config" (cli_profile cli) (cli_config_override cli)) get = Ok c) /\
    config_wf c /\ validate c = Ok tt /\ transport_of c t /\ storage_of c o.
Proof using L.
  unfold process, main. destruct (cli_parse args) as [|cli|m] eqn:Hcli; [by split|..|by split].
  cbn [ConfigLoadOptions_default lo_config_dir].
  destruct (from_sources_with_lookup _ _) as [c|] eqn:Hsrc; [|by split]. pose proof (config_wf_sources _ _ _ Hsrc) as Hwf.
  unfold run. destruct (runtime_validate stat c) as [[]|] eqn:Hv; [|by split].
  destruct (open_storage w (choose_storage c)) as [o|] eqn:Ho; [|by split]. pose proof (open_storage_of _ _ Hwf Ho) as Hst.
  assert (validate c = Ok tt) as Hval by (unfold runtime_validate in Hv; by destruct (validate c) as [[]|]).
  pose proof (serve_spec c Hv) as Hs. destruct (serve c (bind_addr c)) as [|t r]; [by split|]. destruct Hs as [Ht Hr].
  assert (is_ok r = is_ok (match t with Plain a => serve_plain a | Rustls a tls => serve_rustls a tls end)) as Hok.
  { apply eq_true_iff_eq. rewrite Hr. destruct t; cbn.
    - by destruct (serve_plain addr) as [[]|].
    - by destruct (serve_rustls addr tls) as [[]|]. }
  split.
  - destruct r; cbn [en_status en_served]; by rewrite <- Hok.
  - intros c' o' t'. destruct r; intros [= <- <- <-]; split_and!; eauto.
Qed.

(** A working process is asked to shut down exactly by a signal it has a handler for; but
    where [Ctrl+C] cannot be handled it is asked at once, without any signal, while a
    missing handler of [SIGTERM] only means that this signal is not heard. *)
Lemma shutdown_signals setup received :
  shutdown_requested setup received = true <->
  installs_ctrl_c setup = false \/ CtrlC ∈ received \/ (installs_terminate setup = true /\ Terminate ∈ received).
Proof using.
  unfold shutdown_requested, ctrl_c_ended, terminate_ended. rewrite orb_true_iff.
  destruct (installs_ctrl_c setup), (installs_terminate setup); rewrite ?bool_decide_eq_true; naive_solver.
Qed.
End Ends.

(** ** A run *)

(** A server of the development profile on an empty machine; it is shut down in order. *)
#[export] Instance demo_serve : ServeLib := {|
  RustlsConfig := unit;
  from_pem_file _ _ := Err "no such file";
  serve_plain _ := Ok tt;
  serve_rustls _ _ := Ok tt
|}.
Definition demo_machine : Machine :=
  mkMachine io_ok (fun _ => io_ok) (fun _ => 1000) (fun d => [d]) (fun d => [d]) [] ∅
    acid_ok (fun _ => acid_ok) (fun _ => acid_ok) empty_acid_disk.

Lemma process_ends_witness :
  en_status (process (fun _ => None) demo_machine ["--profile"; "dev"] demo_env) = 0 /\
  exists st, en_served (process (fun _ => None) demo_machine ["--profile"; "dev"] demo_env) =
      Some (dev_config, OpenFile st, Plain "0.0.0.0:9999") /\
    storage_of demo_machine dev_config (OpenFile st).
Proof.
  destruct (process_ends (fun _ => None) demo_machine ["--profile"; "dev"] demo_env) as [Hstatus Hserved].
  assert (en_served (process (fun _ => None) demo_machine ["--profile"; "dev"] demo_env) =
    Some (dev_config, OpenFile (mkFile (mkSettings 104857600 10485760 ["/tmp/dev-store"] ["/tmp/dev-store"] false) ∅ 0 ∅),
          Plain "0.0.0.0:9999")) as Hs.
  { assert (main (fun _ => None) ["--profile"; "dev"] demo_env =
      Serving dev_config "0.0.0.0:9999" (UseFile "/tmp/dev-store" 104857600 10485760 false)) as Hm
      by (vm_compute; reflexivity).
    unfold process. rewrite Hm. reflexivity. }
  rewrite Hs in Hstatus. split; [exact Hstatus|]. eexists. split; [exact Hs|]. apply (Hserved _ _ _ Hs).
Defined.
